(* ===== verification/_CoqProject ===== *)
-Q . S2P
Prelude.v
Bytes.v
Sha256.v
Temporal.v
Entries.v
SkipList.v
Credit.v
Wal.v
Bloom.v
BlockCache.v
SSTFile.v
MergeIter.v
SSTables.v
Engine.v
EngineOps.v
EngineRun.v
KVServer.v
KVRun.v
TemporalStore.v
TemporalRun.v
TemporalAudit.v
TemporalKv.v
Proto.v
ProtoSpec.v
Frames.v
FrameSpec.v
RouterV2.v
RouterSpec.v
Remote.v
RemoteSpec.v
RaftWal.v
Raft.v
RaftSpec.v
RaftLog.v
RaftCases.v
Conn.v
Json.v
JsonSpec.v
JobSpec.v
Reconciler.v
JobCodec.v
JobRun.v
JobCases.v
Delivery.v
DeliverySpec.v
DeliveryCases.v
Cluster.v
ClusterSpec.v
Replica.v
ShardKV.v
ShardSpec.v
Floats.v
Ingest.v
IngestSpec.v
RouterV1.v
RouterV1Spec.v
Client.v
ClientSpec.v
Limits.v
LimitsSpec.v
Dispatch.v
