(* ===== verification/Prelude.v ===== *)
(** * KairosFlux: a verification development

    KairosFlux is a temporal key/value engine written in Go.  This library is a
    shallow embedding of its core in Rocq, with the theorems that make the core
    correct and, where the code does not do what it means to, concrete runs that
    show it.  File names are relative to the repository.

    ** The program

    A client speaks one of two frame protocols ([kairnet/]) to a server.  The
    read loop of a connection hands frames to a router ([service/router.go],
    [service/router_v2.go]), which checks and redacts what is written
    ([service/ingesthook/]), and reads and writes the key/value server
    ([service/fsm.go]).  In standalone mode the server logs each write
    ([storage/wal.go]) and applies it to the storage engine ([storage/]): a skip
    list in memory, flushed to SSTables that are compacted in the background,
    with byte credits as back-pressure.  In replicated mode a write goes through
    the consensus module ([raft/]) and is applied from its log; [service/shardkv/]
    runs one group per shard, placed by the hash ring of [cluster/].  The
    temporal store ([service/temporal_store.go], [internal/temporal/]) keeps
    every version of a logical key as plain keys of that server.  On top are the
    job controller ([internal/jobctl/]) and the research plane
    ([internal/aiplane/]), clients of the versioned operations over the network,
    and the delivery of records to sinks ([service/delivery/]).

    ** Conventions

    Go strings and byte slices are byte lists; a slice whose [nil] matters is an
    [option].  Integers are [Z] with the wrap-around of their width written out
    ([u32], [u64], [s64]).  Code that can panic runs in the [go] monad of this
    file, code that returns errors in [option] or [result].  A value the code
    draws from outside (clock readings, random levels, the outcome of a file
    operation, the order of a map iteration) is an argument.  A mutex-protected
    method is one function of the state; goroutines are steps that interleave.
    Metrics and log lines are left out unless an answer depends on them.

    ** Files

    - [Prelude], [Bytes], [Sha256], [Json], [JsonSpec]: shared notation, the
      fallible monad, hints and list lemmas; byte order, integer and decimal
      codecs; SHA-256; [encoding/json] as far as the program uses it.
    - [Temporal]: [internal/temporal/temporal.go].
    - [Entries], [SkipList], [Credit], [Wal], [Bloom], [BlockCache], [SSTFile],
      [MergeIter], [SSTables], [Engine]: one file per part of [storage/] (and
      [internal/credit/]).  [EngineOps] and [EngineRun] prove the engine.  The
      engine is written against the interface [OrderedTable], which the skip
      list implements.
    - [KVServer], [KVRun]: the standalone mode of [service/fsm.go] and its
      crash recovery.
    - [TemporalStore], [TemporalRun], [TemporalAudit]: the temporal store
      against the interface [TemporalRawStore] with [RawStoreLaws];
      [TemporalKv] discharges the laws by the standalone server.
    - [Proto], [ProtoSpec], [Frames], [FrameSpec]: [proto/] and the codecs,
      negotiation and read loop of [kairnet/]; [Conn]: the goroutines of a
      connection and its registry.
    - [RouterV2], [RouterSpec]: [service/router_v2.go] and
      [internal/identity/]; [Remote], [RemoteSpec]: the network client of
      [internal/jobctl/v2store.go] composed with the server.
    - [RaftWal], [Raft], [RaftSpec], [RaftLog], [RaftCases]: [raft/].
    - [JobSpec], [Reconciler], [JobCodec], [JobRun], [JobCases]: the job
      controller; its operations are programs of effects, so a crash can happen
      between any two of them.
    - [Delivery], [DeliverySpec], [DeliveryCases]: delivery, sinks, offsets,
      circuit breakers and the sink router.
    - [Cluster], [ClusterSpec]: the hash ring, heartbeats and placement of
      [cluster/]; [Replica]: the replicated mode of [service/fsm.go] over the
      engine; [ShardKV], [ShardSpec]: [service/shardkv/] and the proposals of
      [raft/group_server.go].
    - [Floats]: binary64 and its decimal syntax; [Ingest], [IngestSpec]:
      [service/ingesthook/] and its schemas, an instance of the filter interface
      of both routers.
    - [RouterV1], [RouterV1Spec]: [service/router.go], [service/guardrail.go]
      and the dispatcher's handling of a request; [Client], [ClientSpec]:
      [client/], composed with the server; [Limits], [LimitsSpec]:
      [internal/admission/] and [cluster/p2c.go]; [Dispatch]: the worker pool of
      [kairnet/dispatch/].

    ** What the theorems show

    - Storage: whole runs of the engine refine a map; scans return exactly the
      live entries; acknowledged log records survive every crash, as long as no
      write stops half-way and no rename is left unsynced; a file reads
      back what was written, and the tables reload after a restart; the merge
      rejects unsorted input; the block cache stays coherent; the skip list
      refines a map; credit is never exceeded and no waiter is forgotten.
    - Server and temporal store, for writes one at a time of non-empty keys and
      values: committed writes survive crashes; scans hide internal keys;
      retention keeps the delivery offsets; the temporal store refines an
      abstract versioned database for keys that do not collide with its own,
      also on top of the server's files and across restarts; the audit's replay
      reports every key whose newest version does not have the recorded hash, and
      its pages are complete and end.
    - Network: decoders never panic and read back what was encoded; frames are
      bounded and the read loop ends with its stream; a stream is read back in
      order across the protocol switch; responses queued before the reader ends
      are written by an orderly shutdown, later ones may be stranded; window
      acknowledgements account for every write; versioned writes pass the role
      check; the remote store refines the abstract database whatever the network
      loses.
    - Consensus: at most one leader per term, over all schedules, losses, failed
      saves and restarts in which a node that restarts had saved its vote;
      matching logs, when restarts find whole records; the persistent files
      refine their abstract content.  Without those conditions both fail.  What clients would rely on beyond that fails, and
      [RaftCases] has the runs.
    - Jobs, for a specification that does not change: over every crash the ledger records each slot's attempts 1, 2, ...;
      the status is a function of the ledger once recovery has run; unmet
      dependencies prevent execution; settled slots are left alone.
    - Delivery: every record reaches the file exactly once and in order over
      crashes and failed commits, unless a send is cancelled or a sync fails,
      and gets there when nothing fails; a breaker
      bounds the calls to a dead sink.
    - Cluster: a node that joins or leaves moves only the keys it gains or
      loses; a replica's state is a function of the log it applied; and if each
      group commits one log that its hosts apply, clients of the sharded store
      see one map.
    - Gateway: a delivered request has exactly the effect and the answer of the
      call it stands for, through both codecs, filter, admission and router;
      every answerable request gets one response when the store's calls return,
      and refused ones touch nothing; the worker pool handles every request
      once; a client never takes an old response, however late it arrives, for a
      new one; accepted device times increase on the path that checks them; the byte scan before redaction changes nothing;
      quotes are accepted exactly by the rules; the memory guardrail has its
      hysteresis and the admission limit its range.

    The findings, theorems about concrete runs that end in an unwanted state,
    are in [RaftCases], [JobCases], [DeliveryCases] and next to the components
    they concern.

    ** Bounds and fuel

    Loops whose end is not structural carry fuel: buffered writes need three
    rounds ([Delivery.buf_write]: fill, flush, rest), JSON parsing the length of
    the text, SSTable scans the length of the file, merges the number of entries
    left.  Each fuel is computed from the input and is shown, or is by
    construction, never to run out; no theorem holds because fuel ran out.

    ** Not modelled

    Sockets, timers, health probes, metrics, logging and process
    start-up; the generated gRPC code and its server; the command-line tools,
    samples and benchmarks under [cmd/]; the ClickHouse sink, which is HTTP
    calls; configuration and contract files; the research plane
    [internal/aiplane/], an application of the versioned operations.  The filter
    of a scan ([predicate/]), the floating-point sizing of bloom filters, the
    printed form of floats in error texts and the time-zone data base are
    parameters.  The executor of jobs starts
    processes and is an input.  The manifest lists every part with its state. *)
From stdpp Require Export prelude list gmap.
From stdpp Require Import sorting.
From Stdlib Require Export ZArith.
From coqutil Require Export Byte.
From coqutil Require Import Word.LittleEndianList.
#[global] Open Scope Z_scope.

(** ** Scope, notations

    Go [[]byte] and [string] values are byte lists.  A Go slice that may be
    [nil] (the storage layer uses [nil] for a tombstone and [[]byte{}] for an
    empty value) is an [option bytes]. *)
Declare Scope kflux_scope.
Delimit Scope kflux_scope with kf.

Notation bytes := (list byte).
Notation "'#' b" := (byte.unsigned b) (at level 9, format "# b") : kflux_scope.
#[global] Open Scope kflux_scope.

(** Go [len]. *)
Definition len {A} (l : list A) : Z := Z.of_nat (length l).

(** ** Fallible Go code: a value or a run-time panic *)
Inductive go (A : Type) : Type :=
| Ret (a : A)
| Panic.
Arguments Ret {A} a.
Arguments Panic {A}.

#[export] Instance go_ret : MRet go := fun A a => Ret a.
#[export] Instance go_bind : MBind go := fun A B f m =>
  match m with Ret a => f a | Panic => Panic end.

(** Code that never panics. *)
Definition safe {A} (m : go A) : Prop := exists a, m = Ret a.

(** ** Errors as values *)
Inductive result (E A : Type) : Type :=
| Ok (a : A)
| Err (e : E).
Arguments Ok {E A} a.
Arguments Err {E A} e.

#[export] Instance result_ret E : MRet (result E) := fun A a => Ok a.
#[export] Instance result_bind E : MBind (result E) := fun A B f m =>
  match m with Ok a => f a | Err e => Err e end.

(** ** Machine-width integers *)
Definition u8 (z : Z) : Z := z mod 2 ^ 8.
Definition u16 (z : Z) : Z := z mod 2 ^ 16.
Definition u32 (z : Z) : Z := z mod 2 ^ 32.
Definition u64 (z : Z) : Z := z mod 2 ^ 64.
(** [int64(x)] of a 64-bit pattern. *)
Definition s64 (z : Z) : Z := (z + 2 ^ 63) mod 2 ^ 64 - 2 ^ 63.

Definition is_u32 (z : Z) : Prop := 0 <= z < 2 ^ 32.
Definition is_u64 (z : Z) : Prop := 0 <= z < 2 ^ 64.
Definition is_s64 (z : Z) : Prop := - 2 ^ 63 <= z < 2 ^ 63.

Create HintDb kflux.
Ltac kf := eauto with kflux.

Lemma u32_small z : is_u32 z -> u32 z = z.
Proof. intros H. apply Z.mod_small, H. Qed.

Lemma u64_small z : is_u64 z -> u64 z = z.
Proof. intros H. apply Z.mod_small, H. Qed.

Lemma u64_range z : is_u64 (u64 z).
Proof. apply Z.mod_pos_bound. reflexivity. Qed.

Lemma u32_range z : is_u32 (u32 z).
Proof. apply Z.mod_pos_bound. reflexivity. Qed.

Lemma s64_u64 z : is_s64 z -> s64 (u64 z) = z.
Proof.
  unfold is_s64, s64, u64. intros H.
  destruct (Z_lt_le_dec z 0).
  - rewrite <- (Z.mod_add z 1 (2 ^ 64)) by lia.
    rewrite (Z.mod_small (z + 1 * 2 ^ 64)) by lia.
    replace (z + 1 * 2 ^ 64 + 2 ^ 63) with (z + 2 ^ 63 + 1 * 2 ^ 64) by lia.
    rewrite Z.mod_add by lia. rewrite Z.mod_small; lia.
  - rewrite (Z.mod_small z) by lia. rewrite Z.mod_small; lia.
Qed.

Lemma s64_small z : is_s64 z -> s64 z = z.
Proof. intros H. unfold s64, is_s64 in *. rewrite Z.mod_small; lia. Qed.

#[export] Hint Resolve u32_range u64_range : kflux.

(** ** Go slicing [l[lo:hi]] with its bounds check *)
Definition slice {A} (l : list A) (lo hi : Z) : go (list A) :=
  if (0 <=? lo) && (lo <=? hi) && (hi <=? len l)
  then Ret (take (Z.to_nat (hi - lo)) (drop (Z.to_nat lo) l))
  else Panic.

(** [l[i]] *)
Definition index {A} (l : list A) (i : Z) : go A :=
  if (0 <=? i) && (i <? len l)
  then match l !! Z.to_nat i with Some x => Ret x | None => Panic end
  else Panic.

Lemma len_app {A} (l k : list A) : len (l ++ k) = len l + len k.
Proof. unfold len. rewrite length_app. lia. Qed.
Lemma len_nil {A} : len (@nil A) = 0.
Proof. reflexivity. Qed.
Lemma len_cons {A} (x : A) l : len (x :: l) = 1 + len l.
Proof. unfold len. simpl. lia. Qed.
Lemma len_nonneg {A} (l : list A) : 0 <= len l.
Proof. unfold len. lia. Qed.
Lemma to_nat_len {A} (l : list A) : Z.to_nat (len l) = length l.
Proof. unfold len. lia. Qed.
Create Rewrite HintDb len.
#[export] Hint Rewrite @len_app @len_nil @len_cons : len.
#[export] Hint Resolve len_nonneg : kflux.

(** The middle of a concatenation, at the offsets the code computes. *)
Lemma slice_mid {A} (a m b : list A) lo hi :
  lo = len a -> hi = lo + len m -> slice (a ++ m ++ b) lo hi = Ret m.
Proof.
  intros -> ->. unfold slice.
  pose proof (len_nonneg a). pose proof (len_nonneg m). pose proof (len_nonneg b).
  rewrite !len_app.
  replace ((0 <=? len a) && (len a <=? len a + len m) &&
           (len a + len m <=? len a + (len m + len b))) with true by lia.
  replace (len a + len m - len a) with (len m) by lia.
  unfold len. rewrite !Nat2Z.id, drop_app_length, take_app_length. reflexivity.
Qed.

Lemma slice_suffix {A} (a b : list A) lo hi :
  lo = len a -> hi = len (a ++ b) -> slice (a ++ b) lo hi = Ret b.
Proof.
  intros -> ->. rewrite <- (app_nil_r b) at 1.
  apply slice_mid; autorewrite with len; lia.
Qed.

Lemma slice_prefix {A} (m b : list A) lo hi :
  lo = 0 -> hi = len m -> slice (m ++ b) lo hi = Ret m.
Proof. intros -> ->. apply (slice_mid [] m b); autorewrite with len; lia. Qed.

Lemma slice_safe {A} (l : list A) lo hi :
  0 <= lo <= hi -> hi <= len l ->
  exists s, slice l lo hi = Ret s /\ len s = hi - lo.
Proof.
  intros H1 H2. unfold slice.
  replace ((0 <=? lo) && (lo <=? hi) && (hi <=? len l)) with true by lia.
  eexists; split; [done|]. unfold len in *. rewrite length_take, length_drop. lia.
Qed.

Lemma slice_skip {A} (a b : list A) lo hi :
  len a <= lo -> slice (a ++ b) lo hi = slice b (lo - len a) (hi - len a).
Proof.
  intros H. unfold slice. rewrite len_app. pose proof (len_nonneg a).
  replace ((0 <=? lo - len a) && (lo - len a <=? hi - len a) && (hi - len a <=? len b))
    with ((0 <=? lo) && (lo <=? hi) && (hi <=? len a + len b))
    by (apply Bool.eq_iff_eq_true; rewrite !andb_true_iff, !Z.leb_le; lia).
  destruct (_ && _); [|done]. do 2 f_equal; [f_equal; lia|].
  rewrite drop_app_ge by (unfold len in *; lia). f_equal. unfold len in *. lia.
Qed.

Lemma slice_all {A} (l : list A) lo hi : lo = 0 -> hi = len l -> slice l lo hi = Ret l.
Proof. intros -> ->. rewrite <- (app_nil_r l) at 1. by apply slice_prefix. Qed.

Lemma index_skip {A} (a b : list A) i : len a <= i -> index (a ++ b) i = index b (i - len a).
Proof.
  intros H. unfold index. rewrite len_app. pose proof (len_nonneg a).
  replace ((0 <=? i - len a) && (i - len a <? len b)) with ((0 <=? i) && (i <? len a + len b))
    by (apply Bool.eq_iff_eq_true; rewrite !andb_true_iff, !Z.leb_le, !Z.ltb_lt; lia).
  destruct (_ && _); [|done].
  rewrite lookup_app_r by (unfold len in *; lia).
  replace (Z.to_nat i - length a)%nat with (Z.to_nat (i - len a)) by (unfold len in *; lia). done.
Qed.

(** ** Automation

    [len_lia]: linear arithmetic over lengths of concatenations.
    [go_slices]: evaluates slice expressions over a concatenation at the
    offsets the code computes. *)
Ltac len_facts :=
  repeat match goal with
  | |- context [len ?x] =>
      lazymatch goal with H : 0 <= len x |- _ => fail | _ => pose proof (len_nonneg x) end
  | _ : context [len ?x] |- _ =>
      lazymatch goal with H : 0 <= len x |- _ => fail | _ => pose proof (len_nonneg x) end
  end.
Ltac len_widths :=
  change (Z.of_nat 1) with 1 in *; change (Z.of_nat 2) with 2 in *;
  change (Z.of_nat 4) with 4 in *; change (Z.of_nat 8) with 8 in *.
Ltac len_lia := autorewrite with len in *; len_widths; len_facts; lia.

Lemma go_bind_eq {A B} (m : go A) (k : A -> go B) a r :
  m = Ret a -> k a = r -> mbind k m = r.
Proof. intros -> <-. done. Qed.

Ltac slice_eval :=
  repeat first [ solve [apply slice_all; len_lia]
               | solve [apply slice_prefix; len_lia]
               | rewrite slice_skip by len_lia ].
Ltac go_slice := eapply go_bind_eq; [solve [slice_eval]|]; cbv beta zeta.
Ltac go_slices := repeat go_slice.

(** Decide a length test of a decoder. *)
Ltac len_test :=
  match goal with
  | |- context [if ?b then _ else _] =>
      first [ replace b with false by len_lia | replace b with true by len_lia ]
  end; cbv iota.

(** No-panic goals: every slice of the code is in bounds. *)
Lemma safe_ret {A} (a : A) : safe (Ret a).
Proof. by exists a. Qed.
Lemma safe_slice {A B} (l : list A) lo hi (k : list A -> go B) :
  0 <= lo <= hi -> hi <= len l ->
  (forall s, len s = hi - lo -> safe (k s)) -> safe (x ← slice l lo hi; k x).
Proof. intros H1 H2 H. destruct (slice_safe l lo hi H1 H2) as (s & -> & E). by apply H. Qed.
#[export] Hint Resolve safe_ret : kflux.

Ltac go_safe :=
  repeat match goal with
  | |- safe (Ret _) => apply safe_ret
  | |- safe (if ?b then _ else _) => destruct b eqn:?
  | |- safe (mbind _ (slice _ _ _)) =>
      apply safe_slice; [len_lia|len_lia|intros ? ?; cbv beta zeta]
  end.

Lemma StronglySorted_impl {A} (R R' : relation A) l :
  (forall a b, R a b -> R' a b) -> StronglySorted R l -> StronglySorted R' l.
Proof. intros HR. induction 1 as [|x l Hl IH Hx]; constructor; [done|]. eapply Forall_impl; [exact Hx|]. apply HR. Qed.

Lemma StronglySorted_filter {A} (R : relation A) (P : A -> bool) l :
  StronglySorted R l -> StronglySorted R (List.filter P l).
Proof.
  induction 1 as [|x l Hl IH Hx]; cbn [List.filter]; [constructor|]. destruct (P x); [|done]. constructor; [done|].
  rewrite Forall_forall in Hx |- *. intros y Hy. apply Hx. rewrite list_elem_of_In in Hy |- *. exact (proj1 (proj1 (filter_In P y l) Hy)).
Qed.

(** ** Sorting: the sorted arrangement is determined by the elements *)
Section Sorting.
Context {A : Type} (R : relation A) `{!RelDecision R, !Transitive R, !Total R}.
Definition strictly (a b : A) : Prop := R a b /\ ~ R b a.

Lemma strict_sorted_NoDup l : StronglySorted strictly l -> NoDup l.
Proof.
  induction 1 as [|x l Hl IH Hx]; constructor; [|done]. intros Hin. rewrite Forall_forall in Hx.
  destruct (Hx x Hin) as [H1 H2]. done.
Qed.

Lemma strict_sorted l : StronglySorted strictly l -> StronglySorted R l.
Proof. induction 1 as [|x l Hl IH Hx]; constructor; [done|]. eapply Forall_impl; [exact Hx|]. by intros y []. Qed.

Lemma strict_sorted_antisym l x y : StronglySorted strictly l -> x ∈ l -> y ∈ l -> R x y -> R y x -> x = y.
Proof.
  induction 1 as [|z l Hl IH Hz]; [set_solver|]. rewrite Forall_forall in Hz.
  intros [->|Hx]%elem_of_cons [->|Hy]%elem_of_cons H1 H2; [done| | |by apply IH].
  - by destruct (Hz y Hy).
  - by destruct (Hz x Hx).
Qed.

Lemma sorted_strict l : StronglySorted R l -> NoDup l -> (forall x y, x ∈ l -> y ∈ l -> R x y -> R y x -> x = y) ->
  StronglySorted strictly l.
Proof.
  induction 1 as [|x l Hl IH Hx]; intros Hn Ha; [constructor|]. apply NoDup_cons in Hn as [Hnx Hn].
  constructor; [apply IH; [done|]; intros y z Hy Hz; apply Ha; by apply elem_of_cons; right|].
  rewrite Forall_forall in Hx |- *. intros y Hy. split; [by apply Hx|]. intros C. destruct Hnx.
  rewrite (Ha x y); [done|by apply elem_of_cons; left|by apply elem_of_cons; right|by apply Hx|done].
Qed.

Lemma merge_sort_is l k : NoDup l -> (forall x, x ∈ l <-> x ∈ k) -> StronglySorted strictly k -> merge_sort R l = k.
Proof.
  intros Hn He Hk. assert (merge_sort R l ≡ₚ k) as Hp.
  { rewrite merge_sort_Permutation. apply NoDup_Permutation; [done|by apply strict_sorted_NoDup|done]. }
  apply (StronglySorted_unique_strong R); [|by apply StronglySorted_merge_sort|by apply strict_sorted|done].
  intros x y Hx Hy. apply (strict_sorted_antisym k); [done|by rewrite <- Hp|done].
Qed.
End Sorting.
