(* ===== verification/Bytes.v ===== *)
(** * Byte strings: Go's [bytes.Compare] order, [encoding/binary] and decimals

    Everything the modelled packages use of Go's [bytes], [encoding/binary],
    [strconv] and [fmt] on byte strings: the lexicographic order, fixed-width
    little- and big-endian integers and base-10 rendering. *)
From Stdlib Require String.
From coqutil Require Import Word.LittleEndianList.
From S2P Require Import Prelude.

Export String.StringSyntax.
(** A Go string literal. *)
Definition str (s : String.string) : bytes := String.list_byte_of_string s.
Arguments str s%_string_scope.

(** ** Decidable equality and countability of bytes *)
#[export] Instance byte_eq_decision : EqDecision byte := Byte.byte_eq_dec.
#[export] Instance byte_countable : Countable byte :=
  inj_countable Byte.to_N Byte.of_N Byte.of_to_N.

(** ** [bytes.Compare]: lexicographic order on unsigned bytes *)
Fixpoint compare (a b : bytes) : comparison :=
  match a, b with
  | [], [] => Eq
  | [], _ :: _ => Lt
  | _ :: _, [] => Gt
  | x :: a', y :: b' =>
      match (#x ?= #y) with Eq => compare a' b' | c => c end
  end.

Definition bltb (a b : bytes) : bool := match compare a b with Lt => true | _ => false end.
Definition bleb (a b : bytes) : bool := match compare a b with Gt => false | _ => true end.
Definition blt (a b : bytes) : Prop := compare a b = Lt.
Definition ble (a b : bytes) : Prop := compare a b <> Gt.
(** [bytes.Equal] *)
Definition beqb (a b : bytes) : bool := bool_decide (a = b).

Lemma compare_refl a : compare a a = Eq.
Proof. induction a as [|x a IH]; simpl; [done|]. by rewrite Z.compare_refl. Qed.

Lemma compare_eq a b : compare a b = Eq -> a = b.
Proof.
  revert b; induction a as [|x a IH]; intros [|y b]; simpl; try done.
  destruct (Z.compare_spec (#x) (#y)) as [E|E|E]; try done.
  intros H. apply byte.unsigned_inj in E as ->. f_equal. by apply IH.
Qed.

Lemma compare_opp a b : compare b a = CompOpp (compare a b).
Proof.
  revert b; induction a as [|x a IH]; intros [|y b]; simpl; try done.
  rewrite (Z.compare_antisym (#x) (#y)).
  destruct (#x ?= #y); simpl; auto.
Qed.

Lemma compare_trans_lt a b c : compare a b = Lt -> compare b c = Lt -> compare a c = Lt.
Proof.
  revert b c; induction a as [|x a IH]; intros [|y b] [|z c]; simpl; try done.
  destruct (Z.compare_spec (#x) (#y)), (Z.compare_spec (#y) (#z)),
    (Z.compare_spec (#x) (#z)); try done; try lia.
  apply IH.
Qed.

#[export] Instance blt_strict : StrictOrder blt.
Proof.
  split.
  - intros a H. unfold complement, blt in *. by rewrite compare_refl in H.
  - intros a b c. apply compare_trans_lt.
Qed.

#[export] Instance blt_decision a b : Decision (blt a b).
Proof. unfold blt. destruct (compare a b); [right|left|right]; congruence. Defined.

Lemma blt_trichotomy a b : blt a b \/ a = b \/ blt b a.
Proof.
  unfold blt. rewrite (compare_opp a b). destruct (compare a b) eqn:E; simpl; auto.
  right; left. by apply compare_eq.
Qed.

Lemma blt_irrefl a : ~ blt a a.
Proof. apply (StrictOrder_Irreflexive (R := blt)). Qed.
Lemma blt_trans a b c : blt a b -> blt b c -> blt a c.
Proof. apply compare_trans_lt. Qed.
Lemma blt_asym a b : blt a b -> ~ blt b a.
Proof. intros H1 H2. apply (blt_irrefl a). by eapply blt_trans. Qed.

Lemma ble_lteq a b : ble a b <-> blt a b \/ a = b.
Proof.
  unfold ble, blt. destruct (compare a b) eqn:E; split; intros H; try done; try tauto.
  - right. by apply compare_eq.
  - destruct H as [H | ->]; [done|]. by rewrite compare_refl in E.
Qed.
Lemma ble_nlt a b : ble a b <-> ~ blt b a.
Proof. unfold ble, blt. rewrite (compare_opp a b). by destruct (compare a b). Qed.
Lemma ble_refl a : ble a a.
Proof. apply ble_lteq. by right. Qed.
Lemma ble_trans a b c : ble a b -> ble b c -> ble a c.
Proof.
  rewrite !ble_lteq. intros [H| ->] [H'| ->]; auto. left. by eapply blt_trans.
Qed.
Lemma blt_ble_trans a b c : blt a b -> ble b c -> blt a c.
Proof. rewrite ble_lteq. intros H [H'| ->]; [by eapply blt_trans|done]. Qed.
Lemma ble_blt_trans a b c : ble a b -> blt b c -> blt a c.
Proof. rewrite ble_lteq. intros [H| ->] H'; [by eapply blt_trans|done]. Qed.
Lemma blt_ble a b : blt a b -> ble a b.
Proof. rewrite ble_lteq. auto. Qed.
Lemma ble_antisym a b : ble a b -> ble b a -> a = b.
Proof. rewrite !ble_lteq. intros [H|H] [H'|H']; auto. by edestruct blt_asym. Qed.
Lemma blt_neq a b : blt a b -> a <> b.
Proof. intros H ->. by apply blt_irrefl in H. Qed.
Lemma ble_total a b : ble a b \/ ble b a.
Proof. rewrite !ble_lteq. destruct (blt_trichotomy a b) as [|[|]]; subst; auto. Qed.

Lemma bltb_lt a b : bltb a b = true <-> blt a b.
Proof. unfold bltb, blt. by destruct (compare a b). Qed.
Lemma bltb_ge a b : bltb a b = false <-> ble b a.
Proof. rewrite ble_nlt, <- bltb_lt. by destruct (bltb a b). Qed.
Lemma bleb_le a b : bleb a b = true <-> ble a b.
Proof. unfold bleb, ble. by destruct (compare a b). Qed.
Lemma bleb_gt a b : bleb a b = false <-> blt b a.
Proof.
  unfold bleb, blt. rewrite (compare_opp a b). by destruct (compare a b).
Qed.
Lemma beqb_eq a b : beqb a b = true <-> a = b.
Proof. apply bool_decide_eq_true. Qed.
Lemma beqb_neq a b : beqb a b = false <-> a <> b.
Proof. apply bool_decide_eq_false. Qed.
Lemma beqb_refl a : beqb a a = true.
Proof. by apply beqb_eq. Qed.

Lemma ble_nil a : ble [] a.
Proof. destruct a; done. Qed.
Lemma blt_nil a : ~ blt a [].
Proof. by destruct a. Qed.

Inductive compare_split (a b : bytes) : comparison -> Prop :=
| cmp_lt : blt a b -> compare_split a b Lt
| cmp_eq : a = b -> compare_split a b Eq
| cmp_gt : blt b a -> compare_split a b Gt.

Lemma compare_case a b : compare_split a b (compare a b).
Proof.
  destruct (compare a b) eqn:E; constructor; [by apply compare_eq|done|].
  unfold blt. by rewrite (compare_opp a b), E.
Qed.

#[export] Hint Resolve blt_trans ble_refl blt_ble : kflux.
#[export] Hint Resolve ble_blt_trans blt_ble_trans : kflux.

(** Turns every boolean comparison of byte strings into the order it decides. *)
Ltac bcmp :=
  repeat match goal with
  | H : bltb _ _ = true |- _ => apply bltb_lt in H
  | H : bltb _ _ = false |- _ => apply bltb_ge in H
  | H : bleb _ _ = true |- _ => apply bleb_le in H
  | H : bleb _ _ = false |- _ => apply bleb_gt in H
  | H : beqb _ _ = true |- _ => apply beqb_eq in H
  | H : beqb _ _ = false |- _ => apply beqb_neq in H
  end.

(** Contradictory order facts. *)
Ltac border :=
  exfalso;
  match goal with
  | H : blt ?a ?a |- _ => exact (blt_irrefl a H)
  | H : blt ?a ?b, H' : blt ?b ?a |- _ => exact (blt_asym a b H H')
  | H : blt ?a ?b, H' : ble ?b ?a |- _ => exact (blt_irrefl a (blt_ble_trans a b a H H'))
  | H : blt ?a [] |- _ => exact (blt_nil a H)
  end.

Lemma compare_app_same p a b : compare (p ++ a) (p ++ b) = compare a b.
Proof. induction p as [|x p IH]; simpl; [done|]. by rewrite Z.compare_refl. Qed.

Lemma compare_app_len a b x y :
  length a = length b ->
  compare (a ++ x) (b ++ y) = match compare a b with Eq => compare x y | c => c end.
Proof.
  revert b; induction a as [|c a IH]; intros [|d b]; simpl; try done.
  intros [= H]. destruct (#c ?= #d); auto.
Qed.

Lemma compare_app_diverge a b x y : ~ a `prefix_of` b -> ~ b `prefix_of` a -> compare (a ++ x) (b ++ y) = compare a b.
Proof.
  revert b; induction a as [|c a IH]; intros b Ha Hb; [destruct Ha; apply prefix_nil|].
  destruct b as [|d b]; [destruct Hb; apply prefix_nil|]. simpl.
  destruct (Z.compare_spec (#c) (#d)) as [E|E|E]; try done. apply byte.unsigned_inj in E as ->.
  apply IH; intros ?; [apply Ha|apply Hb]; by apply prefix_cons.
Qed.

(** A key at or above [p] that does not extend [p] is above every extension of [p]. *)
Lemma ble_not_prefix p k q : ble p k -> ~ p `prefix_of` k -> blt (p ++ q) k.
Proof.
  revert k; induction p as [|x p IH]; intros k Hle Hp.
  - destruct Hp. apply prefix_nil.
  - destruct k as [|y k]; [by rewrite ble_lteq in Hle; destruct Hle|].
    unfold ble, blt in *. simpl in *.
    destruct (Z.compare_spec (#x) (#y)) as [E|E|E]; try done.
    apply byte.unsigned_inj in E as ->. apply IH; [done|].
    intros ?. apply Hp. by apply prefix_cons.
Qed.

(** ** Fixed-width integers ([binary.LittleEndian], [binary.BigEndian]) *)
Definition put_le (n : nat) (z : Z) : bytes := le_split n z.
Definition get_le (b : bytes) : Z := le_combine b.
Definition put_be (n : nat) (z : Z) : bytes := rev (le_split n z).
Definition get_be (b : bytes) : Z := le_combine (rev b).

Lemma length_put_le n z : length (put_le n z) = n.
Proof. apply length_le_split. Qed.
Lemma length_put_be n z : length (put_be n z) = n.
Proof. unfold put_be. rewrite length_rev. apply length_le_split. Qed.
Lemma len_put_le n z : len (put_le n z) = Z.of_nat n.
Proof. unfold len. by rewrite length_put_le. Qed.
Lemma len_put_be n z : len (put_be n z) = Z.of_nat n.
Proof. unfold len. by rewrite length_put_be. Qed.
#[export] Hint Rewrite len_put_le len_put_be : len.

Lemma get_put_le n z : get_le (put_le n z) = z mod 2 ^ (8 * Z.of_nat n).
Proof.
  unfold get_le, put_le. rewrite le_combine_split. f_equal. f_equal. lia.
Qed.
Lemma get_put_be n z : get_be (put_be n z) = z mod 2 ^ (8 * Z.of_nat n).
Proof.
  unfold get_be, put_be. rewrite rev_involutive. apply get_put_le.
Qed.
Lemma get_le_bound b : 0 <= get_le b < 2 ^ (8 * len b).
Proof. apply le_combine_bound. Qed.
Lemma get_be_bound b : 0 <= get_be b < 2 ^ (8 * len b).
Proof. unfold get_be, len. rewrite <- length_rev. apply le_combine_bound. Qed.
Lemma put_get_le b : put_le (length b) (get_le b) = b.
Proof. apply split_le_combine. Qed.
Lemma put_get_be b : put_be (length b) (get_be b) = b.
Proof.
  unfold put_be, get_be. rewrite <- (length_rev b), split_le_combine.
  apply rev_involutive.
Qed.

(** Adds the range of every integer read in the goal. *)
Ltac le_bounds :=
  repeat match goal with
  | |- context [get_le ?s] =>
      lazymatch goal with H : 0 <= get_le s < _ |- _ => fail | _ => pose proof (get_le_bound s) end
  | |- context [get_be ?s] =>
      lazymatch goal with H : 0 <= get_be s < _ |- _ => fail | _ => pose proof (get_be_bound s) end
  end.

(** ** Decimal rendering: [fmt]'s [%d] and [%0*d], [strconv.ParseUint] *)
Definition digit (d : Z) : byte := byte.of_Z (48 + d).
Definition is_digit (b : byte) : bool := (48 <=? #b) && (#b <=? 57).

(** Least significant digit first. *)
Fixpoint dec_rev (fuel : nat) (z : Z) : bytes :=
  match fuel with
  | O => []
  | S fuel => if z <? 10 then [digit z] else digit (z mod 10) :: dec_rev fuel (z / 10)
  end.

(** [%d] of a non-negative integer. *)
Definition show_dec (z : Z) : bytes := rev (dec_rev (S (Z.to_nat (Z.log2 z))) z).

(** [%0*d]: left padding with ['0'] up to width [w]. *)
Definition pad0 (w : nat) (s : bytes) : bytes := replicate (w - length s) (digit 0) ++ s.

(** [strconv.ParseUint(s, 10, 64)]: [None] is any error. *)
Fixpoint parse_digits (acc : Z) (s : bytes) : option Z :=
  match s with
  | [] => Some acc
  | b :: s' => if is_digit b then parse_digits (acc * 10 + (#b - 48)) s' else None
  end.
Definition ParseUint (s : bytes) : option Z :=
  match s with
  | [] => None
  | _ => match parse_digits 0 s with
         | Some n => if n <? 2 ^ 64 then Some n else None
         | None => None
         end
  end.

(** Exactly [w] digits, least significant first. *)
Fixpoint fix_rev (w : nat) (z : Z) : bytes :=
  match w with O => [] | S w => digit (z mod 10) :: fix_rev w (z / 10) end.

Lemma digit_val d : 0 <= d < 10 -> #(digit d) = 48 + d.
Proof.
  intros H. unfold digit. rewrite byte.unsigned_of_Z. unfold byte.wrap.
  apply Z.mod_small. lia.
Qed.

Lemma is_digit_digit d : 0 <= d < 10 -> is_digit (digit d) = true.
Proof. intros H. unfold is_digit. rewrite digit_val by done. lia. Qed.

Lemma fix_rev_zero w : fix_rev w 0 = replicate w (digit 0).
Proof. induction w as [|w IH]; simpl; [done|]. by rewrite Z.div_0_l, IH. Qed.

Lemma length_fix_rev w z : length (fix_rev w z) = w.
Proof. revert z; induction w; simpl; auto. Qed.

Lemma dec_rev_fix fuel w z :
  0 <= z < 2 ^ Z.of_nat fuel -> 0 <= z < 10 ^ Z.of_nat w -> (0 < w)%nat ->
  (0 < fuel)%nat ->
  dec_rev fuel z ++ replicate (w - length (dec_rev fuel z)) (digit 0) = fix_rev w z.
Proof.
  revert w z; induction fuel as [|fuel IH]; intros w z Hf Hw Hw0 Hf0; [lia|].
  destruct w as [|w]; [lia|]. simpl dec_rev. simpl fix_rev.
  destruct (Z.ltb_spec z 10).
  - rewrite Z.mod_small by lia. rewrite Z.div_small by lia. simpl.
    by rewrite fix_rev_zero, Nat.sub_0_r.
  - simpl. f_equal.
    assert (Hd : 0 <= z / 10 < 10 ^ Z.of_nat w).
    { rewrite Nat2Z.inj_succ, Z.pow_succ_r in Hw by lia.
      split; [apply Z.div_pos; lia|]. apply Z.div_lt_upper_bound; lia. }
    assert (Hd2 : 0 <= z / 10 < 2 ^ Z.of_nat fuel).
    { rewrite Nat2Z.inj_succ, Z.pow_succ_r in Hf by lia.
      split; [apply Z.div_pos; lia|]. apply Z.div_lt_upper_bound; lia. }
    apply IH; auto.
    + destruct w; [|lia]. change (10 ^ Z.of_nat 1) with 10 in Hw. lia.
    + destruct fuel; [|lia]. change (2 ^ Z.of_nat 0) with 1 in Hd2.
      assert (1 <= z / 10) by (apply Z.div_le_lower_bound; lia). lia.
Qed.

Lemma log2_fuel z : 0 <= z -> z < 2 ^ Z.of_nat (S (Z.to_nat (Z.log2 z))).
Proof.
  intros H. destruct (Z.eq_dec z 0) as [->|]; [done|].
  rewrite Nat2Z.inj_succ, Z2Nat.id by apply Z.log2_nonneg.
  apply Z.log2_spec. lia.
Qed.

Lemma rev_repeat_replicate {A} n (x : A) : rev (replicate n x) = replicate n x.
Proof.
  rewrite rev_alt. fold (reverse (replicate n x)). apply reverse_replicate.
Qed.

Lemma pad0_show_dec w z :
  0 <= z < 10 ^ Z.of_nat w -> (0 < w)%nat -> pad0 w (show_dec z) = rev (fix_rev w z).
Proof.
  intros H Hw. unfold pad0, show_dec.
  rewrite <- (dec_rev_fix (S (Z.to_nat (Z.log2 z))) w z);
    [|split; [lia|apply log2_fuel; lia]|done|done|lia].
  rewrite length_rev, rev_app_distr. f_equal.
  symmetry. apply rev_repeat_replicate.
Qed.

Lemma parse_digits_app acc a b :
  parse_digits acc (a ++ b) = n ← parse_digits acc a; parse_digits n b.
Proof. revert acc; induction a as [|c a IH]; intros acc; simpl; [done|]. destruct (is_digit c); auto. Qed.

Lemma parse_fix_rev w z acc :
  0 <= z < 10 ^ Z.of_nat w ->
  parse_digits acc (rev (fix_rev w z)) = Some (acc * 10 ^ Z.of_nat w + z).
Proof.
  revert z; induction w as [|w IH]; intros z Hz.
  - simpl. f_equal. change (10 ^ Z.of_nat 0) with 1 in *. lia.
  - simpl fix_rev. simpl rev. rewrite parse_digits_app.
    rewrite Nat2Z.inj_succ, Z.pow_succ_r in * by lia.
    rewrite IH by (split; [apply Z.div_pos; lia|apply Z.div_lt_upper_bound; lia]).
    simpl. rewrite is_digit_digit, digit_val by (apply Z.mod_pos_bound; lia).
    f_equal. pose proof (Z.div_mod z 10). lia.
Qed.

Lemma compare_fix_rev w x y :
  0 <= x < 10 ^ Z.of_nat w -> 0 <= y < 10 ^ Z.of_nat w ->
  compare (rev (fix_rev w x)) (rev (fix_rev w y)) = (x ?= y).
Proof.
  revert x y; induction w as [|w IH]; intros x y Hx Hy.
  - change (10 ^ Z.of_nat 0) with 1 in *. simpl. symmetry. apply Z.compare_eq_iff. lia.
  - simpl fix_rev. simpl rev. rewrite compare_app_len by (rewrite !length_rev, !length_fix_rev; done).
    rewrite Nat2Z.inj_succ, Z.pow_succ_r in * by lia.
    rewrite IH by (split; [apply Z.div_pos; lia|apply Z.div_lt_upper_bound; lia]).
    simpl. rewrite !digit_val by (apply Z.mod_pos_bound; lia).
    pose proof (Z.div_mod x 10). pose proof (Z.div_mod y 10).
    pose proof (Z.mod_pos_bound x 10). pose proof (Z.mod_pos_bound y 10).
    destruct (Z.compare_spec (x / 10) (y / 10));
      destruct (Z.compare_spec (48 + x mod 10) (48 + y mod 10));
      destruct (Z.compare_spec x y); try done; lia.
Qed.

Lemma Forall_fix_rev w z : 0 <= z -> Forall (fun b => is_digit b = true) (fix_rev w z).
Proof.
  revert z; induction w as [|w IH]; intros z Hz; simpl; constructor.
  - apply is_digit_digit, Z.mod_pos_bound. lia.
  - apply IH, Z.div_pos; lia.
Qed.

Lemma Forall_dec_rev fuel z : 0 <= z -> Forall (fun b => is_digit b = true) (dec_rev fuel z).
Proof.
  revert z; induction fuel as [|fuel IH]; intros z Hz; simpl; [done|].
  destruct (Z.ltb_spec z 10); constructor; auto.
  - apply is_digit_digit. lia.
  - apply is_digit_digit, Z.mod_pos_bound. lia.
  - apply IH, Z.div_pos; lia.
Qed.

Lemma show_dec_digits z : 0 <= z -> Forall (fun b => is_digit b = true) (show_dec z).
Proof. intros H. unfold show_dec. apply Forall_rev, Forall_dec_rev, H. Qed.

Lemma parse_dec_rev fuel z acc :
  0 <= z < 2 ^ Z.of_nat fuel -> (0 < fuel)%nat ->
  exists k, 0 <= k /\ parse_digits acc (rev (dec_rev fuel z)) = Some (acc * 10 ^ k + z).
Proof.
  revert z; induction fuel as [|fuel IH]; intros z Hz Hf; [lia|]. simpl.
  destruct (Z.ltb_spec z 10).
  - exists 1. simpl. rewrite is_digit_digit, digit_val by lia. split; [lia|]. f_equal. lia.
  - assert (Hd : 0 <= z / 10 < 2 ^ Z.of_nat fuel).
    { rewrite Nat2Z.inj_succ, Z.pow_succ_r in Hz by lia.
      split; [apply Z.div_pos; lia|]. apply Z.div_lt_upper_bound; lia. }
    destruct (IH (z / 10) Hd) as (k & Hk & E).
    { destruct fuel; [|lia]. change (2 ^ Z.of_nat 0) with 1 in Hd.
      assert (1 <= z / 10) by (apply Z.div_le_lower_bound; lia). lia. }
    exists (k + 1). split; [lia|]. simpl rev. rewrite parse_digits_app, E. simpl.
    rewrite is_digit_digit, digit_val by (apply Z.mod_pos_bound; lia).
    f_equal. rewrite Z.pow_add_r by lia. pose proof (Z.div_mod z 10). lia.
Qed.

Lemma parse_show_dec z : 0 <= z -> parse_digits 0 (show_dec z) = Some z.
Proof.
  intros H. unfold show_dec.
  destruct (parse_dec_rev (S (Z.to_nat (Z.log2 z))) z 0) as (k & _ & ->); [|lia|done].
  split; [done|]. by apply log2_fuel.
Qed.

Lemma show_dec_inj a b : 0 <= a -> 0 <= b -> show_dec a = show_dec b -> a = b.
Proof.
  intros Ha Hb E. apply (f_equal (parse_digits 0)) in E.
  rewrite !parse_show_dec in E by done. congruence.
Qed.
