(* ===== verification/Sha256.v ===== *)
(** * SHA-256 and hexadecimal, as [crypto/sha256] and [encoding/hex] compute them

    The temporal kernel stores and compares hex SHA-256 digests.  This file
    holds an executable definition of both standard-library functions, so that
    every definition that hashes can be evaluated; no theorem of the
    development relies on collision resistance. *)
From S2P Require Import Prelude Bytes.

Definition add32 (a b : Z) : Z := (a + b) mod 2 ^ 32.
Definition rotr (n x : Z) : Z :=
  Z.lor (Z.shiftr x n) (Z.shiftl x (32 - n) mod 2 ^ 32).
Definition not32 (x : Z) : Z := 2 ^ 32 - 1 - x.

Definition Ch (x y z : Z) : Z := Z.lxor (Z.land x y) (Z.land (not32 x) z).
Definition Maj (x y z : Z) : Z := Z.lxor (Z.lxor (Z.land x y) (Z.land x z)) (Z.land y z).
Definition S0 (x : Z) : Z := Z.lxor (Z.lxor (rotr 2 x) (rotr 13 x)) (rotr 22 x).
Definition S1 (x : Z) : Z := Z.lxor (Z.lxor (rotr 6 x) (rotr 11 x)) (rotr 25 x).
Definition s0 (x : Z) : Z := Z.lxor (Z.lxor (rotr 7 x) (rotr 18 x)) (Z.shiftr x 3).
Definition s1 (x : Z) : Z := Z.lxor (Z.lxor (rotr 17 x) (rotr 19 x)) (Z.shiftr x 10).

(** The constants are the first 32 bits of the fractional parts of the cube
    roots of the first 64 primes, and of the square roots of the first 8. *)
Definition is_prime (n : nat) : bool :=
  forallb (fun d => negb (Nat.modulo n d =? 0)%nat) (seq 2 (n - 2)).
Definition primes64 : list nat := List.filter is_prime (seq 2 310).

(** Largest [r] with [r ^ 3 <= n], bit by bit from bit [i]. *)
Fixpoint cbrt_from (i : nat) (r n : Z) : Z :=
  match i with
  | O => r
  | S i => let r' := r + 2 ^ Z.of_nat i in cbrt_from i (if r' ^ 3 <=? n then r' else r) n
  end.
Definition cbrt_frac (p : nat) : Z := cbrt_from 36 0 (Z.of_nat p * 2 ^ 96) mod 2 ^ 32.
Definition sqrt_frac (p : nat) : Z := Z.sqrt (Z.of_nat p * 2 ^ 64) mod 2 ^ 32.

Definition K256 : list Z := Eval vm_compute in map cbrt_frac primes64.

Record hstate := HS { ha : Z; hb : Z; hc : Z; hd : Z; he : Z; hf : Z; hg : Z; hh : Z }.

Definition H256 : hstate := Eval vm_compute in
  let h i := sqrt_frac (nth (Z.to_nat i) primes64 O) in HS (h 0) (h 1) (h 2) (h 3) (h 4) (h 5) (h 6) (h 7).

(** Message schedule, kept most recent word first. *)
Fixpoint schedule (n : nat) (ws : list Z) : list Z :=
  match n with
  | O => ws
  | S n =>
      let w := add32 (add32 (s1 (nth 1 ws 0)) (nth 6 ws 0))
                     (add32 (s0 (nth 14 ws 0)) (nth 15 ws 0)) in
      schedule n (w :: ws)
  end.

Definition round (st : hstate) (kw : Z * Z) : hstate :=
  let '(k, w) := kw in
  let t1 := add32 (add32 (add32 st.(hh) (S1 st.(he))) (Ch st.(he) st.(hf) st.(hg))) (add32 k w) in
  let t2 := add32 (S0 st.(ha)) (Maj st.(ha) st.(hb) st.(hc)) in
  HS (add32 t1 t2) st.(ha) st.(hb) st.(hc) (add32 st.(hd) t1) st.(he) st.(hf) st.(hg).

Fixpoint words (n : nat) (b : bytes) : list Z :=
  match n with O => [] | S n => get_be (take 4 b) :: words n (drop 4 b) end.

Definition block_step (st : hstate) (blk : bytes) : hstate :=
  let ws := rev (schedule 48 (rev (words 16 blk))) in
  let r := fold_left round (combine K256 ws) st in
  HS (add32 st.(ha) r.(ha)) (add32 st.(hb) r.(hb)) (add32 st.(hc) r.(hc)) (add32 st.(hd) r.(hd))
     (add32 st.(he) r.(he)) (add32 st.(hf) r.(hf)) (add32 st.(hg) r.(hg)) (add32 st.(hh) r.(hh)).

Definition padding (n : Z) : bytes :=
  byte.of_Z 0x80 :: replicate (Z.to_nat ((55 - n) mod 64)) (byte.of_Z 0) ++ put_be 8 (8 * n).

Fixpoint blocks (fuel : nat) (st : hstate) (msg : bytes) : hstate :=
  match fuel with
  | O => st
  | S fuel => match msg with [] => st | _ => blocks fuel (block_step st (take 64 msg)) (drop 64 msg) end
  end.

Definition sha256 (msg : bytes) : bytes :=
  let m := msg ++ padding (len msg) in
  let st := blocks (S (length m / 64)) H256 m in
  concat (map (put_be 4) [st.(ha); st.(hb); st.(hc); st.(hd); st.(he); st.(hf); st.(hg); st.(hh)]).

(** [hex.EncodeToString] *)
Definition hexdigit (d : Z) : byte := byte.of_Z (if d <? 10 then 48 + d else 87 + d).
Definition hex (b : bytes) : bytes :=
  concat (map (fun x => [hexdigit (#x / 16); hexdigit (#x mod 16)]) b).

Lemma length_hex b : length (hex b) = (2 * length b)%nat.
Proof. induction b as [|x b IH]; simpl; [done|]. unfold hex in IH. rewrite IH. lia. Qed.

Lemma length_sha256 m : length (sha256 m) = 32%nat.
Proof.
  unfold sha256. cbv zeta. cbn [map concat]. rewrite !length_app, !length_put_be. reflexivity.
Qed.

(** A hex digest is 64 characters. *)
Lemma len_hex_sha256 m : len (hex (sha256 m)) = 64.
Proof. unfold len. rewrite length_hex, length_sha256. reflexivity. Qed.

(** The FIPS 180-4 test vector for ["abc"]. *)
Lemma sha256_abc :
  hex (sha256 (str "abc")) =
  str "ba7816bf8f01cfea414140de5dae2223b00361a396177a9cb410ff61f20015ad".
Proof. vm_compute. reflexivity. Qed.

#[global] Opaque sha256.
