(* ===== verification/Temporal.v ===== *)
(** * The temporal kernel ([internal/temporal/temporal.go])

    Version keys, the [:current] pointer, the as-of and latest selections, the
    state fingerprint, and the three value codecs (the original version value,
    the operation envelope and the pointer value).  Decoders run in the [go]
    monad: every slice expression keeps its bounds check. *)
From stdpp Require Import sorting.
From S2P Require Import Prelude Bytes Sha256.

(** ** Data *)
Record Version := MkVersion {
  LogicalKey : bytes;
  Seq : Z;
  WriteNanos : Z;
  Payload : bytes;
  Source : bytes;
  SchemaVer : Z;
  PersistedHash : bytes }.

Record CurrentValue := MkCurrent { CurSeq : Z; CurPayloadHash : bytes }.

Record Entry := MkEntry { EKey : bytes; ESeq : Z; EPayload : bytes }.

#[export] Instance Version_eq_dec : EqDecision Version.
Proof. solve_decision. Defined.
#[export] Instance Entry_eq_dec : EqDecision Entry.
Proof. solve_decision. Defined.

(** ** Storage keys *)
Definition versionSep : bytes := str ":v".
Definition versionSeqWidth : nat := 20.
Definition currentSuffix : bytes := str ":current".

Definition VersionStorageKey (logical : bytes) (seq : Z) : bytes :=
  logical ++ versionSep ++ pad0 versionSeqWidth (show_dec seq).

(** [strings.HasPrefix], [strings.HasSuffix] *)
Definition HasPrefix (s p : bytes) : bool := beqb (take (length p) s) p.
Definition HasSuffix (s p : bytes) : bool :=
  (length p <=? length s)%nat && beqb (drop (length s - length p) s) p.

(** [strings.LastIndex] ([None] for -1) *)
Fixpoint LastIndex (s sep : bytes) : option nat :=
  match s with
  | [] => match sep with [] => Some O | _ => None end
  | _ :: s' =>
      match LastIndex s' sep with
      | Some i => Some (S i)
      | None => if HasPrefix s sep then Some O else None
      end
  end.

Definition ParseVersionStorageKey (storageKey : bytes) : option (bytes * Z) :=
  match LastIndex storageKey versionSep with
  | None => None
  | Some i =>
      let seqStr := drop (i + length versionSep) storageKey in
      if negb (length seqStr =? versionSeqWidth)%nat then None
      else match ParseUint seqStr with
           | None => None
           | Some seq => Some (take i storageKey, seq)
           end
  end.

Definition CurrentStorageKey (logical : bytes) : bytes := logical ++ currentSuffix.

Definition IsCurrentStorageKey (storageKey : bytes) : bool :=
  HasSuffix storageKey currentSuffix && (len currentSuffix <? len storageKey).

Definition VersionStorageKeyLowerBound (logical : bytes) : bytes := VersionStorageKey logical 0.
Definition VersionStorageKeyUpperBound (logical : bytes) : bytes :=
  VersionStorageKey logical (2 ^ 64 - 1).

(** ** Hashing *)
Definition HashPayload (payload : bytes) : bytes := hex (sha256 payload).
Definition PayloadHash (v : Version) : bytes := HashPayload v.(Payload).

(** ** Selections over a version set *)
Definition Latest (versions : list Version) : option Version :=
  match versions with
  | [] => None
  | v0 :: rest =>
      Some (fold_left (fun best v => if best.(Seq) <? v.(Seq) then v else best) rest v0)
  end.

Definition asof_step (asOfNanos : Z) (acc : option Version) (v : Version) : option Version :=
  if (v.(WriteNanos) <=? asOfNanos) &&
     match acc with None => true | Some best => best.(Seq) <? v.(Seq) end
  then Some v else acc.

Definition AsOf (versions : list Version) (asOfNanos : Z) : option Version :=
  fold_left (asof_step asOfNanos) versions None.

(** ** State fingerprint *)
Definition entry_less (a b : Entry) : bool :=
  if beqb a.(EKey) b.(EKey) then a.(ESeq) <? b.(ESeq) else bltb a.(EKey) b.(EKey).

Definition entry_le (a b : Entry) : Prop := entry_less b a = false.
#[export] Instance entry_le_dec a b : Decision (entry_le a b).
Proof. unfold entry_le. apply _. Defined.

(** One [fmt.Fprintf(h, "%s|%d|%d|")] plus payload plus newline. *)
Definition entry_line (e : Entry) : bytes :=
  e.(EKey) ++ str "|" ++ show_dec e.(ESeq) ++ str "|" ++ show_dec (len e.(EPayload)) ++ str "|" ++
  e.(EPayload) ++ [byte.of_Z 10].

(** The byte stream written to the hash. *)
Definition fingerprint_input (entries : list Entry) : bytes :=
  concat (map entry_line (merge_sort entry_le entries)).

Definition Fingerprint (entries : list Entry) : bytes := hex (sha256 (fingerprint_input entries)).

(** ** Value codecs *)
Definition EncodeVersionValue (writeNanos : Z) (payload : bytes) : bytes :=
  put_le 8 (u64 writeNanos) ++ payload.

Definition DecodeVersionValue (raw : bytes) : go (option (Z * bytes)) :=
  if len raw <? 8 then Ret None
  else
    w ← slice raw 0 8;
    p ← slice raw 8 (len raw);
    Ret (Some (s64 (get_le w), p)).

Definition envelopeMarkerBit : Z := Z.shiftl 1 63.
Definition envelopeVersion1 : Z := 1.

Definition EncodeVersionRecord (v : Version) : bytes :=
  put_le 8 (Z.lor envelopeMarkerBit envelopeVersion1) ++
  put_le 8 (u64 v.(WriteNanos)) ++
  put_le 4 (u32 (len v.(Source))) ++ v.(Source) ++
  put_le 4 v.(SchemaVer) ++
  put_le 2 (u16 (len v.(PersistedHash))) ++ v.(PersistedHash) ++
  v.(Payload).

Definition DecodeVersionRecord (raw : bytes) : go (option Version) :=
  if len raw <? 8 then Ret None
  else
    m ← slice raw 0 8;
    if Z.land (get_le m) envelopeMarkerBit =? 0 then
      r ← DecodeVersionValue raw;
      Ret match r with
          | None => None
          | Some (writeNanos, payload) => Some (MkVersion [] 0 writeNanos payload [] 0 [])
          end
    else if len raw <? 16 + 4 then Ret None
    else
      let off := 8 in
      w ← slice raw off (off + 8);
      let writeNanos := s64 (get_le w) in
      let off := off + 8 in
      sl ← slice raw off (off + 4);
      let sourceLen := get_le sl in
      let off := off + 4 in
      if (sourceLen <? 0) || (len raw <? off + sourceLen + 4 + 2) then Ret None
      else
        source ← slice raw off (off + sourceLen);
        let off := off + sourceLen in
        sv ← slice raw off (off + 4);
        let schemaVer := get_le sv in
        let off := off + 4 in
        hl ← slice raw off (off + 2);
        let hashLen := get_le hl in
        let off := off + 2 in
        if (hashLen <? 0) || (len raw <? off + hashLen) then Ret None
        else
          hash ← slice raw off (off + hashLen);
          let off := off + hashLen in
          payload ← slice raw off (len raw);
          Ret (Some (MkVersion [] 0 writeNanos payload source schemaVer hash)).

Definition EncodeCurrentValue (cv : CurrentValue) : bytes :=
  put_le 8 cv.(CurSeq) ++ put_le 2 (u16 (len cv.(CurPayloadHash))) ++ cv.(CurPayloadHash).

Definition DecodeCurrentValue (raw : bytes) : go (option CurrentValue) :=
  if len raw <? 10 then Ret None
  else
    sq ← slice raw 0 8;
    nb ← slice raw 8 10;
    let n := get_le nb in
    if len raw <? 10 + n then Ret None
    else
      h ← slice raw 10 (10 + n);
      Ret (Some (MkCurrent (get_le sq) h)).

(** ** Version keys: parsing inverts rendering *)
Lemma HasPrefix_app p s : HasPrefix (p ++ s) p = true.
Proof. unfold HasPrefix. rewrite take_app_length. apply beqb_refl. Qed.

Lemma HasPrefix_spec s p : HasPrefix s p = true <-> p `prefix_of` s.
Proof.
  split; [|intros [t ->]; apply HasPrefix_app].
  unfold HasPrefix. intros H. bcmp. exists (drop (length p) s).
  rewrite <- H at 1. by rewrite take_drop.
Qed.

Lemma HasSuffix_spec s p : HasSuffix s p = true <-> p `suffix_of` s.
Proof.
  unfold HasSuffix. rewrite andb_true_iff, Nat.leb_le. split.
  - intros [Hl H]. bcmp. exists (take (length s - length p) s).
    rewrite <- H at 2. by rewrite take_drop.
  - intros [t ->]. rewrite length_app. split; [lia|].
    replace (length t + length p - length p)%nat with (length t) by lia.
    rewrite drop_app_length. apply beqb_refl.
Qed.

Lemma LastIndex_app l r sep i :
  LastIndex r sep = Some i -> LastIndex (l ++ r) sep = Some (length l + i)%nat.
Proof. intros H. induction l as [|x l IH]; simpl; [done|]. by rewrite IH. Qed.

Lemma LastIndex_split s sep i :
  LastIndex s sep = Some i -> s = take i s ++ sep ++ drop (i + length sep) s.
Proof.
  revert i; induction s as [|x s IH]; intros i.
  - simpl. destruct sep; [|done]. by intros [= <-].
  - simpl LastIndex. destruct (LastIndex s sep) as [j|] eqn:E.
    + intros [= <-]. simpl. f_equal. by apply IH.
    + destruct (HasPrefix (x :: s) sep) eqn:P; [|done]. intros [= <-]. simpl take. simpl plus.
      apply HasPrefix_spec in P as [t ->]. by rewrite drop_app_length.
Qed.

(** No separator occurs in a string of digits, nor across its start. *)
Lemma LastIndex_digits d :
  Forall (fun b => is_digit b = true) d -> LastIndex d versionSep = None.
Proof.
  induction 1 as [|b d Hb Hd IH]; [done|]. simpl LastIndex. rewrite IH.
  destruct (HasPrefix (b :: d) versionSep) eqn:P; [|done].
  apply HasPrefix_spec in P as [t Ht]. injection Ht as -> _. done.
Qed.

Lemma LastIndex_sep_digits d :
  Forall (fun b => is_digit b = true) d -> LastIndex (versionSep ++ d) versionSep = Some O.
Proof.
  intros Hd. simpl. rewrite LastIndex_digits by done.
  destruct (HasPrefix (Byte.x76 :: d) versionSep) eqn:P; [|done].
  by apply HasPrefix_spec in P as [t [=]].
Qed.

Definition seq_digits (seq : Z) : bytes := rev (fix_rev versionSeqWidth seq).

Lemma u64_fits_width seq : is_u64 seq -> 0 <= seq < 10 ^ Z.of_nat versionSeqWidth.
Proof.
  unfold is_u64. change (10 ^ Z.of_nat versionSeqWidth) with 100000000000000000000. lia.
Qed.

Lemma VersionStorageKey_digits l seq :
  is_u64 seq -> VersionStorageKey l seq = l ++ versionSep ++ seq_digits seq.
Proof.
  intros H. unfold VersionStorageKey, seq_digits.
  rewrite pad0_show_dec; [done|by apply u64_fits_width|unfold versionSeqWidth; lia].
Qed.

Lemma seq_digits_digits seq :
  0 <= seq -> Forall (fun b => is_digit b = true) (seq_digits seq).
Proof. intros H. apply Forall_rev, Forall_fix_rev, H. Qed.

Lemma length_seq_digits seq : length (seq_digits seq) = 20%nat.
Proof. unfold seq_digits. rewrite length_rev. apply length_fix_rev. Qed.

Lemma seq_digits_ne seq : seq_digits seq <> [].
Proof. intros C. pose proof (length_seq_digits seq) as L. by rewrite C in L. Qed.

Lemma ParseUint_seq_digits seq : is_u64 seq -> ParseUint (seq_digits seq) = Some seq.
Proof.
  intros H. unfold ParseUint.
  assert (E : parse_digits 0 (seq_digits seq) = Some seq).
  { unfold seq_digits. rewrite parse_fix_rev by by apply u64_fits_width. done. }
  destruct (seq_digits seq) as [|c d] eqn:D.
  - pose proof (length_seq_digits seq) as L. by rewrite D in L.
  - rewrite E. unfold is_u64 in H. replace (seq <? 2 ^ 64) with true by lia. done.
Qed.

Lemma parse_version_key l seq :
  is_u64 seq -> ParseVersionStorageKey (VersionStorageKey l seq) = Some (l, seq).
Proof.
  intros H. rewrite VersionStorageKey_digits by done. unfold ParseVersionStorageKey.
  rewrite (LastIndex_app l _ versionSep 0)
    by (apply LastIndex_sep_digits, seq_digits_digits, H).
  rewrite Nat.add_0_r.
  replace (drop (length l + length versionSep) (l ++ versionSep ++ seq_digits seq))
    with (seq_digits seq).
  - rewrite length_seq_digits. cbn [negb Nat.eqb versionSeqWidth].
    rewrite ParseUint_seq_digits by done. by rewrite take_app_length.
  - by rewrite <- drop_drop, drop_app_length, drop_app_length.
Qed.

(** Parsing accepts nothing but rendered keys. *)
Lemma digits_fix_rev d acc n :
  parse_digits acc (rev d) = Some n -> 0 <= acc ->
  exists m, n = acc * 10 ^ len d + m /\ 0 <= m < 10 ^ len d /\ d = fix_rev (length d) m.
Proof.
  revert n; induction d as [|c d IH]; intros n.
  - simpl. intros [= <-] _. exists 0. change (10 ^ len (@nil byte)) with 1. split_and!; [lia|lia|lia|done].
  - simpl rev. rewrite parse_digits_app. intros H Hacc.
    destruct (parse_digits acc (rev d)) as [n'|] eqn:E; [|done]. simpl in H.
    destruct (is_digit c) eqn:Hc; [|done]. injection H as <-.
    destruct (IH n' eq_refl Hacc) as (m & -> & Hm & Hd).
    assert (Hr : 48 <= #c <= 57) by (unfold is_digit in Hc; lia).
    exists (m * 10 + (#c - 48)). rewrite len_cons.
    replace (1 + len d) with (Z.succ (len d)) by lia.
    rewrite Z.pow_succ_r by apply len_nonneg. split_and!; [lia|lia|lia|].
    simpl. f_equal.
    + rewrite Z.add_comm, Z.mod_add, Z.mod_small by lia.
      apply byte.unsigned_inj. rewrite digit_val; lia.
    + rewrite Z.add_comm, Z.div_add, Z.div_small by lia. by rewrite Z.add_0_l.
Qed.

Lemma parse_version_key_inv k l seq :
  ParseVersionStorageKey k = Some (l, seq) -> k = VersionStorageKey l seq /\ is_u64 seq.
Proof.
  unfold ParseVersionStorageKey. destruct (LastIndex k versionSep) as [i|] eqn:E; [|done].
  apply LastIndex_split in E.
  set (d := drop (i + length versionSep) k) in *.
  destruct (length d =? versionSeqWidth)%nat eqn:W; [|done]. apply Nat.eqb_eq in W.
  cbn [negb]. destruct (ParseUint d) as [n|] eqn:P; [|done]. intros [= <- <-].
  assert (is_u64 n /\ seq_digits n = d) as [U D].
  { assert (P' : match parse_digits 0 d with
                   | Some m => if m <? 2 ^ 64 then Some m else None | None => None end = Some n)
      by (unfold ParseUint in P; by destruct d).
    clear P. rename P' into P. destruct (parse_digits 0 d) as [m|] eqn:Pd; [|done].
    destruct (Z.ltb_spec m (2 ^ 64)); [|done]. injection P as <-.
    rewrite <- (rev_involutive d) in Pd.
    apply digits_fix_rev in Pd as (m' & -> & Hm & HD); [|done].
    rewrite Z.mul_0_l, Z.add_0_l in *. split; [unfold is_u64; lia|].
    unfold seq_digits. rewrite <- W, <- (length_rev d), <- HD. apply rev_involutive. }
  split; [|done]. rewrite VersionStorageKey_digits, D by done. done.
Qed.

Lemma version_key_inj l1 s1 l2 s2 :
  is_u64 s1 -> is_u64 s2 -> VersionStorageKey l1 s1 = VersionStorageKey l2 s2 -> l1 = l2 /\ s1 = s2.
Proof.
  intros H1 H2 E. apply (f_equal ParseVersionStorageKey) in E.
  rewrite !parse_version_key in E by done. by injection E.
Qed.

Lemma compare_version_keys l a b :
  is_u64 a -> is_u64 b ->
  compare (VersionStorageKey l a) (VersionStorageKey l b) = (a ?= b).
Proof.
  intros Ha Hb. rewrite !VersionStorageKey_digits, !compare_app_same by done.
  apply compare_fix_rev; by apply u64_fits_width.
Qed.

Lemma version_key_in_bounds l seq :
  is_u64 seq ->
  ble (VersionStorageKeyLowerBound l) (VersionStorageKey l seq) /\
  ble (VersionStorageKey l seq) (VersionStorageKeyUpperBound l).
Proof.
  intros H. unfold VersionStorageKeyLowerBound, VersionStorageKeyUpperBound, ble.
  rewrite !compare_version_keys by (done || (unfold is_u64; lia)).
  unfold is_u64 in H. split; apply Z.compare_le_iff; lia.
Qed.

(** ** Pointer keys and version keys never collide *)
Lemma last_app_ne {A} (l r : list A) : r <> [] -> last (l ++ r) = last r.
Proof. intros H. rewrite last_app. destruct (last r) eqn:E; [done|]. by apply last_None in E. Qed.

Lemma IsCurrent_spec k :
  IsCurrentStorageKey k = true <-> exists l, l <> [] /\ k = CurrentStorageKey l.
Proof.
  unfold IsCurrentStorageKey, CurrentStorageKey. rewrite andb_true_iff, HasSuffix_spec. split.
  - intros [[l ->] H]. exists l. split; [|done]. intros ->. cbn in H. lia.
  - intros (l & Hl & ->). split; [by exists l|]. rewrite len_app.
    destruct l; [done|]. rewrite len_cons. pose proof (len_nonneg l). lia.
Qed.

Lemma last_fix_rev w z : (0 < w)%nat -> last (rev (fix_rev w z)) = Some (digit (z mod 10)).
Proof. destruct w; [lia|]. simpl. by rewrite last_snoc. Qed.

Lemma IsCurrent_version_key l seq :
  is_u64 seq -> IsCurrentStorageKey (VersionStorageKey l seq) = false.
Proof.
  intros H. destruct (IsCurrentStorageKey _) eqn:E; [|done].
  apply IsCurrent_spec in E as (l' & _ & E). apply (f_equal last) in E.
  rewrite VersionStorageKey_digits in E by done. unfold CurrentStorageKey in E.
  rewrite app_assoc, (last_app_ne _ (seq_digits seq)), (last_app_ne _ currentSuffix) in E
    by first [apply seq_digits_ne | discriminate].
  unfold seq_digits in E. rewrite last_fix_rev in E by (unfold versionSeqWidth; lia).
  cbn in E. injection E as E. apply (f_equal byte.unsigned) in E.
  rewrite digit_val in E by (apply Z.mod_pos_bound; lia).
  pose proof (Z.mod_pos_bound seq 10). vm_compute (#_) in E. lia.
Qed.

Lemma Parse_current_key l : ParseVersionStorageKey (CurrentStorageKey l) = None.
Proof.
  destruct (ParseVersionStorageKey _) as [[l' s]|] eqn:E; [|done].
  apply parse_version_key_inv in E as [E U]. destruct l as [|c l].
  { apply (f_equal length) in E. rewrite VersionStorageKey_digits, !length_app, length_seq_digits in E by done.
    cbn in E. lia. }
  assert (C : IsCurrentStorageKey (CurrentStorageKey (c :: l)) = true)
    by (apply IsCurrent_spec; by exists (c :: l)).
  by rewrite E, IsCurrent_version_key in C.
Qed.

Lemma current_key_inj a b : CurrentStorageKey a = CurrentStorageKey b -> a = b.
Proof. apply app_inv_tail. Qed.

Lemma version_key_ne_current l s l' : is_u64 s -> VersionStorageKey l s <> CurrentStorageKey l'.
Proof.
  intros H E. pose proof (parse_version_key l s H) as P. by rewrite E, Parse_current_key in P.
Qed.

(** ** Value codecs *)

(** What the version key itself carries is not repeated in its value. *)
Definition strip_key (v : Version) : Version :=
  MkVersion [] 0 v.(WriteNanos) v.(Payload) v.(Source) v.(SchemaVer) v.(PersistedHash).

Definition envelope_ok (v : Version) : Prop :=
  is_s64 v.(WriteNanos) /\ len v.(Source) < 2 ^ 32 /\ is_u32 v.(SchemaVer) /\
  len v.(PersistedHash) < 2 ^ 16.

Lemma get_put_u16 z : 0 <= z < 2 ^ 16 -> get_le (put_le 2 (u16 z)) = z.
Proof. intros H. rewrite get_put_le. unfold u16. change (8 * Z.of_nat 2) with 16.
  rewrite Z.mod_mod by lia. by apply Z.mod_small. Qed.
Lemma get_put_u32 z : is_u32 z -> get_le (put_le 4 z) = z.
Proof. intros H. rewrite get_put_le. apply Z.mod_small, H. Qed.
Lemma get_put_u64 z : is_u64 z -> get_le (put_le 8 z) = z.
Proof. intros H. rewrite get_put_le. apply Z.mod_small, H. Qed.
Lemma get_put_s64 z : is_s64 z -> s64 (get_le (put_le 8 (u64 z))) = z.
Proof. intros H. rewrite get_put_u64 by apply u64_range. by apply s64_u64. Qed.

Lemma decode_encode_record v :
  envelope_ok v -> DecodeVersionRecord (EncodeVersionRecord v) = Ret (Some (strip_key v)).
Proof.
  intros (Hw & Hs & Hv & Hh). unfold EncodeVersionRecord, DecodeVersionRecord.
  len_test. go_slice. rewrite get_put_u64 by done.
  replace (Z.land _ _ =? 0) with false by done. cbv iota.
  len_test. go_slices.
  rewrite (u32_small (len (Source v))) by (split; [apply len_nonneg|done]).
  rewrite (get_put_u32 (len (Source v))) by (split; [apply len_nonneg|done]).
  len_test. go_slices. rewrite get_put_u16 by (split; [apply len_nonneg|done]).
  len_test. go_slices. rewrite get_put_s64, get_put_u32 by done. done.
Qed.

Lemma decode_encode_value writeNanos payload :
  is_s64 writeNanos ->
  DecodeVersionValue (EncodeVersionValue writeNanos payload) = Ret (Some (writeNanos, payload)).
Proof.
  intros H. unfold EncodeVersionValue, DecodeVersionValue. len_test. go_slices.
  by rewrite get_put_s64.
Qed.

Lemma marker_clear z : 0 <= z < 2 ^ 63 -> Z.land z envelopeMarkerBit = 0.
Proof.
  intros H. apply Z.bits_inj'. intros n Hn.
  rewrite Z.land_spec, Z.bits_0. unfold envelopeMarkerBit.
  rewrite Z.shiftl_1_l. destruct (Z.eq_dec n 63) as [->|Hne].
  - rewrite <- (Z.mod_small z (2 ^ 63)), Z.mod_pow2_bits_high by lia. done.
  - rewrite Z.pow2_bits_false by lia. apply andb_false_r.
Qed.

Lemma decode_legacy_record writeNanos payload :
  0 <= writeNanos < 2 ^ 63 ->
  DecodeVersionRecord (EncodeVersionValue writeNanos payload) =
  Ret (Some (MkVersion [] 0 writeNanos payload [] 0 [])).
Proof.
  intros H. unfold DecodeVersionRecord. rewrite decode_encode_value by (unfold is_s64; lia).
  unfold EncodeVersionValue. len_test. go_slice.
  rewrite u64_small, get_put_u64, marker_clear by (unfold is_u64; lia). done.
Qed.

Lemma DecodeVersionValue_safe raw : safe (DecodeVersionValue raw).
Proof. unfold DecodeVersionValue. go_safe. Qed.

Lemma DecodeVersionRecord_safe raw : safe (DecodeVersionRecord raw).
Proof.
  unfold DecodeVersionRecord. go_safe.
  destruct (DecodeVersionValue_safe raw) as [r ->]. apply safe_ret.
Qed.

Lemma DecodeCurrentValue_safe raw : safe (DecodeCurrentValue raw).
Proof.
  unfold DecodeCurrentValue. go_safe.
  le_bounds. go_safe.
Qed.

Lemma decode_encode_current cv :
  is_u64 cv.(CurSeq) -> len cv.(CurPayloadHash) < 2 ^ 16 ->
  DecodeCurrentValue (EncodeCurrentValue cv) = Ret (Some cv).
Proof.
  intros Hs Hh. unfold EncodeCurrentValue, DecodeCurrentValue. len_test. go_slices.
  rewrite get_put_u16 by (split; [apply len_nonneg|done]). len_test. go_slices.
  rewrite get_put_u64 by done. by destruct cv.
Qed.

(** ** As-of and latest selection *)
Lemma asof_step_out t acc v : t < v.(WriteNanos) -> asof_step t acc v = acc.
Proof. intros H. unfold asof_step. replace (WriteNanos v <=? t) with false by lia. done. Qed.

(** Running maximum: the selected version is a visible one of largest [Seq]. *)
Lemma AsOf_app vs ws t : AsOf (vs ++ ws) t = fold_left (asof_step t) ws (AsOf vs t).
Proof. unfold AsOf. apply fold_left_app. Qed.

Definition visible (t : Z) (v : Version) : Prop := v.(WriteNanos) <= t.

Definition is_asof (vs : list Version) (t : Z) (r : option Version) : Prop :=
  match r with
  | Some v => v ∈ vs /\ visible t v /\ forall v', v' ∈ vs -> visible t v' -> v'.(Seq) <= v.(Seq)
  | None => forall v', v' ∈ vs -> ~ visible t v'
  end.

Lemma asof_step_spec vs t r v :
  is_asof vs t r -> is_asof (vs ++ [v]) t (asof_step t r v).
Proof.
  intros H. unfold asof_step. destruct (Z.leb_spec (WriteNanos v) t) as [Hv|Hv].
  - destruct r as [b|]; simpl in *.
    + destruct H as (Hb & Hvis & Hmax).
      destruct (Z.ltb_spec (Seq b) (Seq v)); simpl; split_and!; auto; try set_solver;
        intros v' [Hin|Hin%list_elem_of_singleton]%elem_of_app Hvis'; subst; auto; try lia.
      specialize (Hmax v' Hin Hvis'). lia.
    + split_and!; [set_solver|done|].
      intros v' [Hin|Hin%list_elem_of_singleton]%elem_of_app Hvis'; subst; [|lia].
      by destruct (H v' Hin).
  - rewrite andb_false_l. unfold is_asof, visible in *. destruct r as [b|].
    + destruct H as (Hb & Hvis & Hmax). split_and!; [set_solver|done|].
      intros v' [Hin|Hin%list_elem_of_singleton]%elem_of_app Hvis'; subst; [auto|lia].
    + intros v' [Hin|Hin%list_elem_of_singleton]%elem_of_app; subst; [auto|lia].
Qed.

Lemma AsOf_spec vs t : is_asof vs t (AsOf vs t).
Proof.
  induction vs as [|v vs IH] using rev_ind; [intros ? ?; set_solver|].
  rewrite AsOf_app. simpl. by apply asof_step_spec.
Qed.

Lemma AsOf_future vs ws t :
  Forall (fun v => t < v.(WriteNanos)) ws -> AsOf (vs ++ ws) t = AsOf vs t.
Proof.
  intros H. rewrite AsOf_app. generalize (AsOf vs t) as r.
  induction H as [|v ws Hv Hws IH]; intros r; simpl; [done|]. by rewrite asof_step_out.
Qed.

Definition is_latest (vs : list Version) (v : Version) : Prop :=
  v ∈ vs /\ forall v', v' ∈ vs -> v'.(Seq) <= v.(Seq).

Lemma Latest_fold_spec rest done_ b :
  is_latest done_ b ->
  is_latest (done_ ++ rest)
    (fold_left (fun best v => if best.(Seq) <? v.(Seq) then v else best) rest b).
Proof.
  revert done_ b; induction rest as [|v rest IH]; intros done_ b H; [by rewrite app_nil_r|].
  simpl. rewrite (cons_middle v done_ rest), app_assoc. apply IH.
  destruct H as [Hin Hmax]. destruct (Z.ltb_spec (Seq b) (Seq v)); split; try set_solver;
    intros v' [Hi|Hi%list_elem_of_singleton]%elem_of_app; subst; try lia;
    specialize (Hmax _ Hi); lia.
Qed.

Lemma Latest_spec vs v : Latest vs = Some v -> is_latest vs v.
Proof.
  destruct vs as [|v0 rest]; [done|]. simpl. intros [= <-].
  apply (Latest_fold_spec rest [v0] v0). split; [set_solver|].
  intros v' ->%list_elem_of_singleton. lia.
Qed.

Lemma Latest_None vs : Latest vs = None <-> vs = [].
Proof. by destruct vs. Qed.

(** ** Fingerprint *)
Lemma entry_less_spec a b :
  entry_less a b = true <->
  blt a.(EKey) b.(EKey) \/ (a.(EKey) = b.(EKey) /\ a.(ESeq) < b.(ESeq)).
Proof.
  unfold entry_less. destruct (beqb (EKey a) (EKey b)) eqn:E; bcmp.
  - rewrite E, Z.ltb_lt. split; [tauto|]. intros [H|H]; [border|tauto].
  - rewrite bltb_lt. split; [tauto|]. intros [H|[H _]]; [done|]. by destruct E.
Qed.

Lemma entry_le_spec a b :
  entry_le a b <-> blt a.(EKey) b.(EKey) \/ (a.(EKey) = b.(EKey) /\ a.(ESeq) <= b.(ESeq)).
Proof.
  unfold entry_le. rewrite <- not_true_iff_false, entry_less_spec.
  destruct (blt_trichotomy (EKey a) (EKey b)) as [H|[H|H]].
  - split; [auto|]. intros _ [H'|[H' _]]; [border|]. rewrite H' in H. border.
  - rewrite H. split.
    + intros Hn. right. split; [done|]. destruct (Z_le_gt_dec (ESeq a) (ESeq b)); [done|].
      destruct Hn. right. split; [done|lia].
    + intros [H'|[_ H']] [C|[_ C]]; try border. lia.
  - split; [intros []; auto|]. intros [H'|[H' _]]; [border|]. rewrite H' in H. border.
Qed.

#[export] Instance entry_le_total : Total entry_le.
Proof.
  intros a b. rewrite !entry_le_spec.
  destruct (blt_trichotomy (EKey a) (EKey b)) as [H|[H|H]]; auto.
  rewrite H. destruct (Z.le_ge_cases (ESeq a) (ESeq b)); auto.
Qed.

#[export] Instance entry_le_trans : Transitive entry_le.
Proof.
  intros a b c. rewrite !entry_le_spec. intros [H|[H1 H2]] [H'|[H1' H2']].
  - left. by eapply blt_trans.
  - left. by rewrite <- H1'.
  - left. by rewrite H1.
  - right. split; [congruence|lia].
Qed.

(** The identity of a version inside a fingerprint. *)
Definition entry_id (e : Entry) : bytes * Z := (e.(EKey), e.(ESeq)).

Lemma merge_sort_unique es es' :
  NoDup (entry_id <$> es) -> es ≡ₚ es' -> merge_sort entry_le es = merge_sort entry_le es'.
Proof.
  intros Hnd Hp.
  apply (StronglySorted_unique_strong entry_le);
    [|apply StronglySorted_merge_sort; apply _|apply StronglySorted_merge_sort; apply _|
      by rewrite !merge_sort_Permutation].
  intros x1 x2 H1 H2 L1 L2. rewrite merge_sort_Permutation in H1.
  rewrite merge_sort_Permutation, <- Hp in H2.
  apply entry_le_spec in L1, L2.
  assert (entry_id x1 = entry_id x2) as E.
  { unfold entry_id. destruct L1 as [L1|[E1 L1]], L2 as [L2|[E2 L2]]; [border| | |].
    - rewrite E2 in L1. border.
    - rewrite E1 in L2. border.
    - rewrite E1. f_equal. lia. }
  apply list_elem_of_lookup in H1 as [i Hi]. apply list_elem_of_lookup in H2 as [j Hj].
  assert (i = j) as ->.
  { eapply NoDup_lookup; [exact Hnd| |]; rewrite list_lookup_fmap, ?Hi, ?Hj; simpl; [done|].
    by rewrite E. }
  congruence.
Qed.

Lemma split_at_sep (s : byte) a b x y :
  s ∉ a -> s ∉ b -> a ++ (s :: x) = b ++ (s :: y) -> a = b /\ x = y.
Proof.
  revert b; induction a as [|c a IH]; intros [|d b] Ha Hb; simpl.
  - by intros [= ->].
  - intros [= -> _]. set_solver.
  - intros [= -> _]. set_solver.
  - intros [= -> E]. destruct (IH b) as [-> ->]; [set_solver|set_solver|done|done].
Qed.

Definition pipe : byte := Byte.x7c.

Lemma show_dec_no_pipe z : 0 <= z -> pipe ∉ show_dec z.
Proof.
  intros H Hin. pose proof (show_dec_digits z H) as F.
  rewrite Forall_forall in F. specialize (F pipe Hin). done.
Qed.

Definition plain_entry (e : Entry) : Prop := (pipe ∉ e.(EKey)) /\ 0 <= e.(ESeq).

Lemma entry_line_inj e e' x y :
  plain_entry e -> plain_entry e' -> entry_line e ++ x = entry_line e' ++ y -> e = e' /\ x = y.
Proof.
  intros [Hk Hs] [Hk' Hs'] E. unfold entry_line in E. rewrite <- !app_assoc in E. cbn in E.
  apply split_at_sep in E as [Ek E]; [|done|done].
  apply split_at_sep in E as [Es E]; [|by apply show_dec_no_pipe..].
  apply split_at_sep in E as [El E]; [|apply show_dec_no_pipe, len_nonneg..].
  apply show_dec_inj in Es; [|done|done]. apply show_dec_inj in El; [|apply len_nonneg..].
  apply app_inj_1 in E as [Ep E]; [|unfold len in El; lia].
  injection E as ->. split; [|done]. destruct e, e'; simpl in *; congruence.
Qed.

Lemma lines_inj es es' :
  Forall plain_entry es -> Forall plain_entry es' ->
  concat (map entry_line es) = concat (map entry_line es') -> es = es'.
Proof.
  intros H; revert es'; induction H as [|e es He Hes IH]; intros es' H' E.
  - destruct es' as [|e' es']; [done|]. exfalso. simpl in E. unfold entry_line in E.
    destruct (EKey e'); done.
  - destruct es' as [|e' es'].
    + exfalso. simpl in E. unfold entry_line in E. destruct (EKey e); done.
    + inversion_clear H'. simpl in E. apply entry_line_inj in E as [-> E]; [|done|done].
      f_equal. by apply IH.
Qed.

(** ** Properties of the temporal kernel *)

(** [ParseVersionStorageKey] accepts exactly the keys [VersionStorageKey]
    renders from a 64-bit sequence number, and returns that logical key and
    number: the two functions are mutually inverse, whatever bytes (colons and
    ":v" included) the logical key contains. *)
Theorem version_key_codec k l seq :
  ParseVersionStorageKey k = Some (l, seq) <-> k = VersionStorageKey l seq /\ is_u64 seq.
Proof.
  split; [apply parse_version_key_inv|]. intros [-> H]. by apply parse_version_key.
Qed.

(** The byte order of the version keys of one logical key is the numeric
    order of their sequence numbers, and all of them lie in the closed scan
    interval [[VersionStorageKeyLowerBound, VersionStorageKeyUpperBound]]. *)
Theorem version_key_order l a b :
  is_u64 a -> is_u64 b ->
  compare (VersionStorageKey l a) (VersionStorageKey l b) = (a ?= b) /\
  ble (VersionStorageKeyLowerBound l) (VersionStorageKey l a) /\
  ble (VersionStorageKey l a) (VersionStorageKeyUpperBound l).
Proof.
  intros Ha Hb. split; [by apply compare_version_keys|]. by apply version_key_in_bounds.
Qed.

Lemma version_key_order_witness :
  compare (VersionStorageKey (str "order:1") 9) (VersionStorageKey (str "order:1") 10) = Lt.
Proof.
  rewrite (proj1 (version_key_order (str "order:1") 9 10 ltac:(unfold is_u64; lia)
                    ltac:(unfold is_u64; lia))).
  reflexivity.
Defined.

(** The scan interval of a logical key is not exact: a version key of a
    different logical key lies inside it, so [ListVersions] depends on the
    parsed logical key being compared with the requested one. *)
Theorem version_interval_not_exact :
  exists l l' seq,
    l <> l' /\ is_u64 seq /\
    ble (VersionStorageKeyLowerBound l) (VersionStorageKey l' seq) /\
    ble (VersionStorageKey l' seq) (VersionStorageKeyUpperBound l).
Proof.
  exists (str "a"), (str "a:v00000000000000000001"), 1.
  split; [discriminate|]. split; [unfold is_u64; lia|].
  split; apply bleb_le; vm_compute; reflexivity.
Qed.

(** The version value codec.  Decoding an encoded operation envelope
    returns every field it stores; a value of the older format with a
    non-negative write time (all that the clock produces) is told apart by the
    marker bit and decodes to its write time and payload with empty metadata;
    and no input at all makes the decoder index out of range. *)
Theorem version_record_codec :
  (forall v, envelope_ok v -> DecodeVersionRecord (EncodeVersionRecord v) = Ret (Some (strip_key v))) /\
  (forall writeNanos payload, 0 <= writeNanos < 2 ^ 63 ->
     DecodeVersionRecord (EncodeVersionValue writeNanos payload) =
     Ret (Some (MkVersion [] 0 writeNanos payload [] 0 []))) /\
  (forall raw, safe (DecodeVersionRecord raw)).
Proof.
  split; [apply decode_encode_record|]. split; [apply decode_legacy_record|].
  apply DecodeVersionRecord_safe.
Qed.

(** [AsOf] is point-in-time: it returns a version visible at the asked
    instant whose sequence number is the largest among the visible ones (or
    nothing when none is visible), and versions written after the instant do
    not change the answer. *)
Theorem asof_point_in_time vs future t :
  Forall (fun v => t < v.(WriteNanos)) future ->
  is_asof vs t (AsOf (vs ++ future) t) /\ AsOf (vs ++ future) t = AsOf vs t.
Proof. intros H. rewrite AsOf_future by done. split; [apply AsOf_spec|done]. Qed.

Lemma asof_point_in_time_witness :
  let v s t := MkVersion (str "k") s t (str "p") [] 0 [] in
  AsOf [v 1 10; v 2 20; v 3 30] 25 = Some (v 2 20).
Proof.
  intros v. destruct (asof_point_in_time [v 1 10; v 2 20] [v 3 30] 25) as [_ E].
  - by repeat constructor.
  - change [v 1 10; v 2 20; v 3 30] with ([v 1 10; v 2 20] ++ [v 3 30]). rewrite E. reflexivity.
Defined.

(** The state fingerprint does not depend on the order of its input
    entries (no two of which are the same version). *)
Theorem fingerprint_order_independent es es' :
  NoDup (entry_id <$> es) -> es ≡ₚ es' -> Fingerprint es = Fingerprint es'.
Proof.
  intros Hnd Hp. unfold Fingerprint, fingerprint_input. by rewrite (merge_sort_unique es es').
Qed.

Lemma fingerprint_order_independent_witness :
  let a := MkEntry (str "a") 1 (str "x") in
  let b := MkEntry (str "b") 2 (str "y") in
  Fingerprint [a; b] = Fingerprint [b; a].
Proof.
  intros a b. apply (fingerprint_order_independent [a; b] [b; a]).
  - apply NoDup_cons. split; [set_solver|]. apply NoDup_singleton.
  - apply Permutation_swap.
Defined.

(** What is hashed determines the state: two states whose keys contain no
    '|' feed the same bytes to the hash only when they are the same set of
    (key, sequence number, payload) entries. *)
Theorem fingerprint_input_injective es es' :
  Forall plain_entry es -> Forall plain_entry es' ->
  fingerprint_input es = fingerprint_input es' -> es ≡ₚ es'.
Proof.
  intros H H' E. apply lines_inj in E.
  - by rewrite <- (merge_sort_Permutation entry_le es), E, merge_sort_Permutation.
  - by rewrite merge_sort_Permutation.
  - by rewrite merge_sort_Permutation.
Qed.

Lemma fingerprint_input_injective_witness :
  let a := MkEntry (str "a") 1 (str "x") in
  let b := MkEntry (str "b") 2 (str "y") in
  [a; b] ≡ₚ [b; a].
Proof.
  intros a b. apply (fingerprint_input_injective [a; b] [b; a]).
  - repeat constructor; simpl; [set_solver|lia|set_solver|lia].
  - repeat constructor; simpl; [set_solver|lia|set_solver|lia].
  - vm_compute. reflexivity.
Defined.

(** Without that restriction the length prefix does not remove the
    ambiguity of the boundary between key and payload: one entry whose logical
    key holds a '|' and a newline has the fingerprint of two other entries. *)
Theorem fingerprint_key_ambiguity :
  exists e e1 e2, Fingerprint [e] = Fingerprint [e1; e2].
Proof.
  exists (MkEntry (str "a|1|1|x" ++ [Byte.x0a] ++ str "b") 2 (str "y")),
    (MkEntry (str "a") 1 (str "x")), (MkEntry (str "b") 2 (str "y")).
  unfold Fingerprint. apply (f_equal (fun b => hex (sha256 b))). vm_compute. reflexivity.
Qed.
