(* ===== verification/Entries.v ===== *)
(** * Sorted key/value entries ([storage/types.go])

    The currency of the storage layer: [LogEntry] lists in strictly ascending
    key order, where a [nil] value is a tombstone.  This file fixes the
    reference semantics (lookup, insert, newest-wins overlay) that the skip
    list, the SSTable files and the merge iterator are each shown to implement. *)
From Stdlib Require Export Sorted.
From S2P Require Import Prelude Bytes.

(** [LogEntry]: [Value = None] is Go's [nil], the tombstone. *)
Record LogEntry := MkLogEntry { Key : bytes; Value : option bytes }.

#[export] Instance LogEntry_eq_dec : EqDecision LogEntry.
Proof. solve_decision. Defined.

(** [nil] and the empty slice have length 0. *)
Definition vlen (v : option bytes) : Z := match v with Some b => len b | None => 0 end.
Definition entry_bytes (e : LogEntry) : Z := len e.(Key) + vlen e.(Value).
Definition total_bytes (es : list LogEntry) : Z := fold_right (fun e n => entry_bytes e + n) 0 es.

(** [append([]byte(nil), v...)]: copying a [nil] or empty slice gives [nil]. *)
Definition copy_value (v : option bytes) : option bytes :=
  match v with Some [] => None | _ => v end.
Definition copy_entry (e : LogEntry) : LogEntry := MkLogEntry e.(Key) (copy_value e.(Value)).

(** First match: [None] absent, [Some None] tombstone, [Some (Some v)] present. *)
Fixpoint find_key (k : bytes) (es : list LogEntry) : option (option bytes) :=
  match es with
  | [] => None
  | e :: es' => if beqb e.(Key) k then Some e.(Value) else find_key k es'
  end.

(** Insertion or overwrite in an ascending list. *)
Fixpoint put_key (k : bytes) (v : option bytes) (es : list LogEntry) : list LogEntry :=
  match es with
  | [] => [MkLogEntry k v]
  | e :: es' =>
      match compare e.(Key) k with
      | Lt => e :: put_key k v es'
      | Eq => MkLogEntry k v :: es'
      | Gt => MkLogEntry k v :: es
      end
  end.

Definition key_lt (a b : LogEntry) : Prop := blt a.(Key) b.(Key).
Notation ascending := (StronglySorted key_lt).

#[export] Instance key_lt_trans : Transitive key_lt.
Proof. intros a b c. apply blt_trans. Qed.

Lemma find_key_Some_in k v es : find_key k es = Some v -> MkLogEntry k v ∈ es.
Proof.
  induction es as [|e es IH]; simpl; [done|].
  destruct (beqb (Key e) k) eqn:E; bcmp; [|set_solver].
  intros [= <-]. subst. destruct e. set_solver.
Qed.

Lemma find_key_None k es : find_key k es = None <-> forall e, e ∈ es -> e.(Key) <> k.
Proof.
  induction es as [|e es IH]; simpl; [set_solver|].
  destruct (beqb (Key e) k) eqn:E; bcmp.
  - split; [done|]. intros H. exfalso. apply (H e); [set_solver|done].
  - rewrite IH. set_solver.
Qed.

Lemma ascending_cons_inv e es :
  ascending (e :: es) -> ascending es /\ forall e', e' ∈ es -> blt e.(Key) e'.(Key).
Proof.
  inversion_clear 1 as [|?? Hs Hf]. split; [done|].
  rewrite Forall_forall in Hf. exact Hf.
Qed.

Lemma ascending_app_inv a b :
  ascending (a ++ b) -> ascending a /\ ascending b /\
  forall x y, x ∈ a -> y ∈ b -> blt x.(Key) y.(Key).
Proof.
  induction a as [|e a IH]; simpl.
  - intros H. split_and!; [constructor|done|set_solver].
  - intros [H Hlt]%ascending_cons_inv. destruct (IH H) as (Ha & Hb & Hab). split_and!; [|done|].
    + constructor; [done|]. apply Forall_forall. intros x Hx. apply Hlt. set_solver.
    + intros x y [->|Hx]%elem_of_cons Hy; [apply Hlt; set_solver|by apply Hab].
Qed.

Lemma ascending_app a b :
  ascending a -> ascending b -> (forall x y, x ∈ a -> y ∈ b -> blt x.(Key) y.(Key)) ->
  ascending (a ++ b).
Proof.
  intros Ha Hb H. induction Ha as [|e a Hs IH Hf]; simpl; [done|].
  constructor; [apply IH; set_solver|]. rewrite Forall_forall in *.
  intros x [Hx|Hx]%elem_of_app; [by apply Hf|apply H; set_solver].
Qed.

Lemma find_key_in k v es : ascending es -> MkLogEntry k v ∈ es -> find_key k es = Some v.
Proof.
  induction es as [|e es IH]; [set_solver|]. intros [Hs Hlt]%ascending_cons_inv Hin. simpl.
  apply elem_of_cons in Hin as [<-|Hin]; simpl; [by rewrite beqb_refl|].
  destruct (beqb (Key e) k) eqn:E; bcmp; [|auto].
  specialize (Hlt _ Hin). simpl in Hlt. rewrite E in Hlt. border.
Qed.

Lemma find_key_app k a b :
  find_key k (a ++ b) = match find_key k a with Some v => Some v | None => find_key k b end.
Proof. induction a as [|e a IH]; simpl; [done|]. destruct (beqb (Key e) k); done. Qed.

Lemma put_key_in k v es e :
  e ∈ put_key k v es -> e = MkLogEntry k v \/ e ∈ es.
Proof.
  induction es as [|a es IH]; simpl; [set_solver|].
  destruct (compare (Key a) k); set_solver.
Qed.

Lemma put_key_ascending k v es : ascending es -> ascending (put_key k v es).
Proof.
  induction es as [|e es IH]; simpl.
  - intros _. constructor; constructor.
  - intros H. pose proof H as [Hs Hlt]%ascending_cons_inv.
    destruct (compare_case (Key e) k) as [Hc|Hc|Hc].
    + constructor; [by apply IH|]. apply Forall_forall. intros x Hx.
      apply put_key_in in Hx as [->|Hx]; [done|by apply Hlt].
    + constructor; [done|]. apply Forall_forall. intros x Hx. unfold key_lt. simpl.
      rewrite <- Hc. by apply Hlt.
    + constructor; [done|]. apply Forall_forall. intros x [->|Hx]%elem_of_cons; [done|].
      unfold key_lt. simpl. eapply blt_trans; [done|]. by apply Hlt.
Qed.

Lemma find_put_key k v es k' :
  ascending es ->
  find_key k' (put_key k v es) = if beqb k k' then Some v else find_key k' es.
Proof.
  induction es as [|e es IH]; simpl; [done|]. intros [Hs Hlt]%ascending_cons_inv.
  destruct (compare_case (Key e) k) as [Hc|Hc|Hc]; simpl.
  - rewrite IH by done. destruct (beqb (Key e) k') eqn:E; [|done].
    destruct (beqb k k') eqn:E'; [|done]. bcmp. subst. border.
  - rewrite Hc. by destruct (beqb k k').
  - destruct (beqb k k') eqn:E; [done|]. done.
Qed.

Lemma put_key_replace a e b k v :
  ascending (a ++ e :: b) -> e.(Key) = k -> put_key k v (a ++ e :: b) = a ++ MkLogEntry k v :: b.
Proof.
  intros H <-. induction a as [|x a IH]; simpl in *.
  - by rewrite compare_refl.
  - apply ascending_cons_inv in H as [Hs Hl].
    rewrite (Hl e) by set_solver. f_equal. by apply IH.
Qed.

Lemma put_key_new a b k v :
  (forall x, x ∈ a -> blt x.(Key) k) -> (forall x, x ∈ b -> blt k x.(Key)) ->
  put_key k v (a ++ b) = a ++ MkLogEntry k v :: b.
Proof.
  intros Ha Hb. induction a as [|x a IH]; simpl.
  - destruct b as [|y b]; simpl; [done|]. rewrite compare_opp, (Hb y) by set_solver. done.
  - rewrite (Ha x) by set_solver. f_equal. apply IH. set_solver.
Qed.

(** Bytes of an insertion, as the write path accounts for them. *)
Lemma total_bytes_put k v es :
  ascending es ->
  total_bytes (put_key k v es) =
  total_bytes es + match find_key k es with
                   | Some old => vlen v - vlen old
                   | None => len k + vlen v
                   end.
Proof.
  unfold entry_bytes.
  induction es as [|e es IH]; simpl; [unfold entry_bytes; simpl; lia|].
  intros [Hs Hlt]%ascending_cons_inv. specialize (IH Hs).
  destruct (compare_case (Key e) k) as [Hc|Hc|Hc]; simpl.
  - replace (beqb (Key e) k) with false by (symmetry; apply beqb_neq; by apply blt_neq). lia.
  - rewrite Hc, beqb_refl. unfold entry_bytes. simpl. rewrite Hc. lia.
  - replace (beqb (Key e) k) with false by (symmetry; apply beqb_neq; by apply not_eq_sym, blt_neq).
    replace (find_key k es) with (@None (option bytes)).
    + unfold entry_bytes. simpl. lia.
    + symmetry. apply find_key_None. intros e' He' <-.
      specialize (Hlt e' He'). border.
Qed.

Lemma total_bytes_nonneg es : 0 <= total_bytes es.
Proof.
  induction es as [|e es IH]; simpl; [lia|]. unfold entry_bytes, vlen.
  destruct (Value e); len_lia.
Qed.

(** Two ascending lists with the same lookups are equal. *)
Lemma ascending_ext a b :
  ascending a -> ascending b -> (forall k, find_key k a = find_key k b) -> a = b.
Proof.
  revert b; induction a as [|x a IH]; intros b Ha Hb H.
  - destruct b as [|y b]; [done|]. specialize (H (Key y)). simpl in H. by rewrite beqb_refl in H.
  - destruct b as [|y b]; [specialize (H (Key x)); simpl in H; by rewrite beqb_refl in H|].
    pose proof Ha as [Has Hal]%ascending_cons_inv. pose proof Hb as [Hbs Hbl]%ascending_cons_inv.
    assert (Key x = Key y) as E.
    { destruct (blt_trichotomy (Key x) (Key y)) as [L|[L|L]]; [|done|]; exfalso.
      - specialize (H (Key x)). simpl in H. rewrite beqb_refl in H.
        replace (beqb (Key y) (Key x)) with false in H
          by (symmetry; apply beqb_neq; by apply not_eq_sym, blt_neq).
        symmetry in H. apply find_key_Some_in in H. specialize (Hbl _ H). simpl in Hbl. border.
      - specialize (H (Key y)). simpl in H. rewrite beqb_refl in H.
        replace (beqb (Key x) (Key y)) with false in H
          by (symmetry; apply beqb_neq; by apply not_eq_sym, blt_neq).
        apply find_key_Some_in in H. specialize (Hal _ H). simpl in Hal. border. }
    assert (x = y) as ->.
    { specialize (H (Key x)). simpl in H. rewrite beqb_refl, E, beqb_refl in H.
      destruct x, y; simpl in *; congruence. }
    f_equal. apply IH; [done|done|]. intros k. specialize (H k). simpl in H.
    destruct (beqb (Key y) k) eqn:Ek; [|done]. bcmp.
    rewrite (proj2 (find_key_None k a)), (proj2 (find_key_None k b)); [done|..];
      intros e He Hk; [specialize (Hbl e He)|specialize (Hal e He)]; subst k;
      rewrite Hk in *; border.
Qed.

(** Restriction to the closed interval of a scan; an empty bound is no bound. *)
Definition in_range (lo hi k : bytes) : bool :=
  match lo with [] => true | _ => negb (bltb k lo) end &&
  match hi with [] => true | _ => negb (bltb hi k) end.

Lemma in_range_intro lo hi k : ble lo k -> ble k hi -> in_range lo hi k = true.
Proof.
  intros H1 H2. unfold in_range. apply andb_true_iff. split.
  - destruct lo; [done|]. apply negb_true_iff. by apply bltb_ge.
  - destruct hi; [done|]. apply negb_true_iff. by apply bltb_ge.
Qed.

Lemma filter_ascending (P : LogEntry -> bool) es : ascending es -> ascending (List.filter P es).
Proof.
  induction 1 as [|e es Hs IH Hf]; simpl; [constructor|].
  destruct (P e); [|done]. constructor; [done|]. rewrite Forall_forall in *.
  intros x Hx. apply Hf. apply list_elem_of_In in Hx. apply List.filter_In in Hx as [Hx _].
  by apply list_elem_of_In.
Qed.

Lemma find_key_filter (P : bytes -> bool) k es :
  find_key k (List.filter (fun e => P e.(Key)) es) = if P k then find_key k es else None.
Proof.
  induction es as [|e es IH]; simpl; [by destruct (P k)|].
  destruct (P (Key e)) eqn:E; simpl; destruct (beqb (Key e) k) eqn:B; bcmp; subst.
  - by rewrite E.
  - done.
  - rewrite IH, E. done.
  - done.
Qed.

Lemma filter_none {A} (P : A -> bool) l : (forall x, x ∈ l -> P x = false) -> List.filter P l = [].
Proof.
  induction l as [|x l IH]; intros H; simpl; [done|]. rewrite (H x) by set_solver. apply IH. set_solver.
Qed.

(** ** The interface of an in-memory table

    What the engine relies on: the operations of [SkipList] it calls, a
    representation relation to ascending entries, and the law of each
    operation.  [draws] feeds the random level of an insertion. *)
Class OrderedTable (T : Type) := {
  t_new : nat -> T;
  t_insert : list bool -> bytes -> option bytes -> T -> go (T * Z);
  t_search : T -> bytes -> go (option (option bytes));
  t_all : T -> go (list LogEntry);
  t_range : T -> bytes -> bytes -> go (list LogEntry);
  t_size : T -> Z;
  t_bytes : T -> Z;
  t_rep : T -> list LogEntry -> Prop;
  t_rep_ascending t es : t_rep t es -> ascending es;
  t_new_rep M : (1 <= M)%nat -> t_rep (t_new M) [];
  t_insert_rep draws k v t es :
    t_rep t es ->
    exists t', t_insert draws k v t = Ret (t', total_bytes (put_key k v es) - total_bytes es) /\
               t_rep t' (put_key k v es);
  t_search_rep t es k : t_rep t es -> t_search t k = Ret (find_key k es);
  t_all_rep t es : t_rep t es -> t_all t = Ret es;
  t_range_rep t es lo hi :
    t_rep t es ->
    t_range t lo hi = Ret (map copy_entry (List.filter (fun e => in_range lo hi e.(Key)) es));
  t_size_rep t es : t_rep t es -> t_size t = len es;
  t_bytes_rep t es : t_rep t es -> t_bytes t = total_bytes es
}.
