(* ===== verification/SkipList.v ===== *)
(** * The skip list ([storage/skiplist.go])

    The list is modelled at the pointer level: nodes live in a store indexed by
    location, [Next] is the slice of forward pointers whose length is the
    node's height, and insertion mutates the predecessors in place.  A nil
    dereference or an index out of range is [Panic].  Random level draws are
    an explicit input.

    The list is shown to implement the ascending-entries reference of [Entries]
    (search, insert, ordered traversal, size and byte accounting). *)
From S2P Require Import Prelude Bytes Entries.

Notation loc := nat.

Module Skip.

Record SkipNode := MkNode { Next : list (option loc); NKey : bytes; NValue : option bytes }.

Record SkipList := MkSkipList {
  sl_size : Z;
  sl_level : nat;
  sl_byteSize : Z;
  sl_maxLevel : nat;
  sl_nodes : list SkipNode }.

(** The head sentinel is the first node of the store. *)
Definition sl_head : loc := O.

Definition newSkipNode (level : nat) (key : bytes) (value : option bytes) : SkipNode :=
  MkNode (replicate level None) key value.

Definition newSkipList (maxLevel : nat) : SkipList :=
  MkSkipList 0 0 0 maxLevel [newSkipNode maxLevel [] None].

(** [randomLevel]: one draw per round, [true] standing for [rand.Float64() < p]. *)
Fixpoint random_rounds (draws : list bool) (maxLevel level : nat) : nat :=
  match draws with
  | true :: ds => if (level <? maxLevel)%nat then random_rounds ds maxLevel (S level) else level
  | _ => level
  end.
Definition randomLevel (maxLevel : nat) (draws : list bool) : nat := random_rounds draws maxLevel 1.

(** Dereference, and [p.Next[i]]. *)
Definition deref (h : list SkipNode) (p : loc) : go SkipNode :=
  match h !! p with Some n => Ret n | None => Panic end.
Definition next_of (h : list SkipNode) (p : loc) (i : nat) : go (option loc) :=
  n ← deref h p; match n.(Next) !! i with Some q => Ret q | None => Panic end.

(** [for p.Next[i] != nil && bytes.Compare(p.Next[i].Key, key) < 0 { p = p.Next[i] }] *)
Fixpoint walk (fuel : nat) (h : list SkipNode) (key : bytes) (i : nat) (p : loc) : go loc :=
  match fuel with
  | O => Panic
  | S fuel =>
      q ← next_of h p i;
      match q with
      | None => Ret p
      | Some q =>
          m ← deref h q;
          if bltb m.(NKey) key then walk fuel h key i q else Ret p
      end
  end.

(** The descent shared by [search], [firstGTE], [insert] and [delete]: [update]
    records the last node visited on each level. *)
Fixpoint descend (fuel : nat) (h : list SkipNode) (key : bytes) (i : nat) (p : loc)
    (update : list (option loc)) : go (loc * list (option loc)) :=
  match i with
  | O => Ret (p, update)
  | S i' =>
      p' ← walk fuel h key i' p;
      descend fuel h key i' p' (<[i' := Some p']> update)
  end.

Definition walk_fuel (sl : SkipList) : nat := S (length sl.(sl_nodes)).

Definition firstGTE (sl : SkipList) (key : bytes) : go (option loc) :=
  '(p, _) ← descend (walk_fuel sl) sl.(sl_nodes) key sl.(sl_level) sl_head
             (replicate sl.(sl_maxLevel) None);
  next_of sl.(sl_nodes) p 0.

Definition search (sl : SkipList) (key : bytes) : go (option (option bytes)) :=
  '(p, _) ← descend (walk_fuel sl) sl.(sl_nodes) key sl.(sl_level) sl_head
             (replicate sl.(sl_maxLevel) None);
  q ← next_of sl.(sl_nodes) p 0;
  match q with
  | None => Ret None
  | Some q =>
      n ← deref sl.(sl_nodes) q;
      Ret (if beqb n.(NKey) key then Some n.(NValue) else None)
  end.

(** The assignment [p.Next[i] = q]. *)
Definition set_next (h : list SkipNode) (p : loc) (i : nat) (q : option loc) : go (list SkipNode) :=
  n ← deref h p;
  if (i <? length n.(Next))%nat
  then Ret (<[p := MkNode (<[i := q]> n.(Next)) n.(NKey) n.(NValue)]> h)
  else Panic.

(** [newNode.Next[i] = update[i].Next[i]; update[i].Next[i] = newNode] for [i]
    from [i] on, [fuel] levels. *)
Fixpoint link (fuel : nat) (i : nat) (update : list (option loc)) (nw : loc)
    (h : list SkipNode) : go (list SkipNode) :=
  match fuel with
  | O => Ret h
  | S fuel =>
      match update !! i with
      | Some (Some u) =>
          q ← next_of h u i;
          h ← set_next h nw i q;
          h ← set_next h u i (Some nw);
          link fuel (S i) update nw h
      | _ => Panic
      end
  end.

(** [insert] returns the list and the change of [byteSize]. *)
Definition insert (draws : list bool) (key : bytes) (value : option bytes) (sl : SkipList)
    : go (SkipList * Z) :=
  let h := sl.(sl_nodes) in
  '(p, update) ← descend (walk_fuel sl) h key sl.(sl_level) sl_head (replicate sl.(sl_maxLevel) None);
  q ← next_of h p 0;
  hit ← match q with
        | None => Ret None
        | Some q => n ← deref h q; Ret (if beqb n.(NKey) key then Some (q, n) else None)
        end;
  match hit with
  | Some (q, n) =>
      let delta := vlen value - vlen n.(NValue) in
      let h := <[q := MkNode n.(Next) n.(NKey) value]> h in
      Ret (MkSkipList sl.(sl_size) sl.(sl_level) (sl.(sl_byteSize) + delta) sl.(sl_maxLevel) h, delta)
  | None =>
      let newLevel := randomLevel sl.(sl_maxLevel) draws in
      let update := if (sl.(sl_level) <? newLevel)%nat
                    then take sl.(sl_level) update ++
                         replicate (newLevel - sl.(sl_level)) (Some sl_head) ++ drop newLevel update
                    else update in
      let level := if (sl.(sl_level) <? newLevel)%nat then newLevel else sl.(sl_level) in
      let nw := length h in
      let h := h ++ [newSkipNode newLevel key value] in
      h ← link newLevel 0 update nw h;
      let delta := len key + vlen value in
      Ret (MkSkipList (sl.(sl_size) + 1) level (sl.(sl_byteSize) + delta) sl.(sl_maxLevel) h, delta)
  end.

(** [collectAllEntry]: the level-0 chain. *)
Fixpoint collect_from (fuel : nat) (h : list SkipNode) (p : option loc) : go (list LogEntry) :=
  match p with
  | None => Ret []
  | Some p =>
      match fuel with
      | O => Panic
      | S fuel =>
          n ← deref h p;
          q ← next_of h p 0;
          rest ← collect_from fuel h q;
          Ret (MkLogEntry n.(NKey) n.(NValue) :: rest)
      end
  end.

Definition collectAllEntry (sl : SkipList) : go (list LogEntry) :=
  p ← next_of sl.(sl_nodes) sl_head 0;
  collect_from (walk_fuel sl) sl.(sl_nodes) p.

(** [for p := sl.firstGTE(start); p != nil; p = p.Next[0]] of [collectRange],
    stopping above a non-empty [end]; key and value are copied. *)
Fixpoint collect_until (fuel : nat) (h : list SkipNode) (hi : bytes) (p : option loc)
    : go (list LogEntry) :=
  match p with
  | None => Ret []
  | Some p =>
      match fuel with
      | O => Panic
      | S fuel =>
          n ← deref h p;
          if (0 <? len hi) && bltb hi n.(NKey) then Ret []
          else
            q ← next_of h p 0;
            rest ← collect_until fuel h hi q;
            Ret (copy_entry (MkLogEntry n.(NKey) n.(NValue)) :: rest)
      end
  end.

Definition collectRange (sl : SkipList) (lo hi : bytes) : go (list LogEntry) :=
  p ← firstGTE sl lo;
  collect_until (walk_fuel sl) sl.(sl_nodes) hi p.

(** The unlinking loop of [delete]: stops at the first level that does not
    point at [q]. *)
Fixpoint unlink (fuel : nat) (i : nat) (update : list (option loc)) (q : loc) (h : list SkipNode)
    : go (list SkipNode) :=
  match fuel with
  | O => Ret h
  | S fuel =>
      match update !! i with
      | Some (Some u) =>
          x ← next_of h u i;
          if decide (x = Some q) then
            y ← next_of h q i;
            h ← set_next h u i y;
            unlink fuel (S i) update q h
          else Ret h
      | _ => Panic
      end
  end.

(** [for sl.level > 0 && sl.head.Next[sl.level-1] == nil { sl.level-- }] *)
Fixpoint lower_level (h : list SkipNode) (level : nat) : go nat :=
  match level with
  | O => Ret O
  | S l =>
      q ← next_of h sl_head l;
      match q with None => lower_level h l | Some _ => Ret level end
  end.

Definition delete (key : bytes) (sl : SkipList) : go (SkipList * bool) :=
  let h := sl.(sl_nodes) in
  '(p, update) ← descend (walk_fuel sl) h key sl.(sl_level) sl_head (replicate sl.(sl_maxLevel) None);
  q ← next_of h p 0;
  match q with
  | None => Ret (sl, false)
  | Some q =>
      n ← deref h q;
      if beqb n.(NKey) key then
        h ← unlink sl.(sl_level) 0 update q h;
        level ← lower_level h sl.(sl_level);
        Ret (MkSkipList (sl.(sl_size) - 1) level sl.(sl_byteSize) sl.(sl_maxLevel) h, true)
      else Ret (sl, false)
  end.

(** ** Representation invariant

    [ls] lists the locations of the level-0 chain.  On every level the pointer
    of a node is the first later node tall enough for that level. *)
Definition nkey (h : list SkipNode) (l : loc) : bytes := default [] (NKey <$> h !! l).
Definition nval (h : list SkipNode) (l : loc) : option bytes := mjoin (NValue <$> h !! l).
Definition nheight (h : list SkipNode) (l : loc) : nat := default 0%nat ((length ∘ Next) <$> h !! l).

(** The key a node bounds from below; the head bounds nothing. *)
Definition lo_of (h : list SkipNode) (p : loc) : option bytes :=
  if decide (p = sl_head) then None else Some (nkey h p).
Definition below (lo : option bytes) (k : bytes) : bool :=
  match lo with None => true | Some a => bltb a k end.
Definition cand (h : list SkipNode) (i : nat) (lo : option bytes) (l : loc) : bool :=
  (i <? nheight h l)%nat && below lo (nkey h l).
Definition first (h : list SkipNode) (ls : list loc) (i : nat) (lo : option bytes) : option loc :=
  List.find (cand h i lo) ls.

Definition chain (h : list SkipNode) : list loc -> Prop :=
  StronglySorted (fun a b => blt (nkey h a) (nkey h b)).

Definition contents (h : list SkipNode) (ls : list loc) : list LogEntry :=
  map (fun l => MkLogEntry (nkey h l) (nval h l)) ls.

Record heap_inv (h : list SkipNode) (ls : list loc) (maxLevel level : nat) : Prop := {
  hi_max : (1 <= maxLevel)%nat;
  hi_level : (level <= maxLevel)%nat;
  hi_head : nheight h sl_head = maxLevel;
  hi_nodes : forall l, l ∈ ls -> l <> sl_head /\ (l < length h)%nat /\ (1 <= nheight h l <= level)%nat;
  hi_sorted : chain h ls;
  hi_next : forall p i, p = sl_head \/ p ∈ ls -> (i < nheight h p)%nat ->
            next_of h p i = Ret (first h ls i (lo_of h p));
  hi_fuel : (length ls < length h)%nat }.

(** [Rep sl es]: the list is well formed and holds exactly [es]. *)
Definition Rep (sl : SkipList) (es : list LogEntry) : Prop :=
  exists ls, heap_inv sl.(sl_nodes) ls sl.(sl_maxLevel) sl.(sl_level) /\
             es = contents sl.(sl_nodes) ls /\
             sl.(sl_size) = len es /\ sl.(sl_byteSize) = total_bytes es.

Lemma chain_cons_inv h l ls :
  chain h (l :: ls) -> chain h ls /\ forall x, x ∈ ls -> blt (nkey h l) (nkey h x).
Proof. inversion_clear 1 as [|?? Hs Hf]. rewrite Forall_forall in Hf. done. Qed.

Lemma contents_ascending h ls : chain h ls -> ascending (contents h ls).
Proof.
  induction ls as [|l ls IH]; simpl; [constructor|]. intros [Hs Hl]%chain_cons_inv.
  constructor; [by apply IH|]. apply Forall_forall. intros e He.
  apply list_elem_of_fmap in He as (x & -> & Hx). by apply Hl.
Qed.

Lemma chain_key_inj h ls a b :
  chain h ls -> a ∈ ls -> b ∈ ls -> nkey h a = nkey h b -> a = b.
Proof.
  induction ls as [|l ls IH]; [set_solver|]. intros [Hs Hl]%chain_cons_inv.
  intros [->|Ha]%elem_of_cons [->|Hb]%elem_of_cons E; auto.
  - specialize (Hl _ Hb). rewrite E in Hl. border.
  - specialize (Hl _ Ha). rewrite E in Hl. border.
Qed.

(** [find] on a chain returns the candidate of smallest key. *)
Lemma first_Some h ls i lo q :
  chain h ls -> first h ls i lo = Some q ->
  q ∈ ls /\ cand h i lo q = true /\
  forall l, l ∈ ls -> cand h i lo l = true -> ble (nkey h q) (nkey h l).
Proof.
  unfold first. induction ls as [|x ls IH]; simpl; [done|]. intros [Hs Hl]%chain_cons_inv.
  destruct (cand h i lo x) eqn:E.
  - intros [= <-]. split_and!; [set_solver|done|].
    intros l [->|Hin]%elem_of_cons _; [apply ble_refl|by apply blt_ble, Hl].
  - intros H. destruct (IH Hs H) as (? & ? & Hmin). split_and!; [set_solver|done|].
    intros l [->|Hin]%elem_of_cons Hc; [congruence|by apply Hmin].
Qed.

Lemma first_None h ls i lo :
  first h ls i lo = None <-> forall l, l ∈ ls -> cand h i lo l = false.
Proof.
  unfold first. induction ls as [|x ls IH]; simpl; [set_solver|].
  destruct (cand h i lo x) eqn:E; [|rewrite IH; set_solver].
  split; [done|]. intros H. rewrite H in E; [done|set_solver].
Qed.

Lemma cand_spec h i lo l :
  cand h i lo l = true <-> (i < nheight h l)%nat /\ below lo (nkey h l) = true.
Proof. unfold cand. by rewrite andb_true_iff, Nat.ltb_lt. Qed.

Lemma below_trans lo a b : below lo a = true -> blt a b -> below lo b = true.
Proof. destruct lo as [x|]; [|done]. simpl. rewrite !bltb_lt. apply blt_trans. Qed.

Lemma deref_lt h l : (l < length h)%nat -> exists n, h !! l = Some n /\ deref h l = Ret n /\
  nkey h l = n.(NKey) /\ nval h l = n.(NValue) /\ nheight h l = length n.(Next).
Proof.
  intros H. apply lookup_lt_is_Some in H as [n Hn]. exists n.
  unfold deref, nkey, nval, nheight. rewrite Hn. done.
Qed.

(** ** The descent finds the predecessor on every level *)
Definition is_pred (h : list SkipNode) (ls : list loc) (i : nat) (p : loc) (k : bytes) : Prop :=
  (p = sl_head \/ p ∈ ls) /\ (i < nheight h p)%nat /\ below (lo_of h p) k = true /\
  forall l, l ∈ ls -> (i < nheight h l)%nat -> below (lo_of h p) (nkey h l) = true ->
            ble k (nkey h l).

Definition above (h : list SkipNode) (ls : list loc) (p : loc) : nat :=
  length (List.filter (fun l => below (lo_of h p) (nkey h l)) ls).

Lemma filter_length_lt {A} (P Q : A -> bool) (l : list A) x :
  (forall y, y ∈ l -> P y = true -> Q y = true) -> x ∈ l -> Q x = true -> P x = false ->
  (length (List.filter P l) < length (List.filter Q l))%nat.
Proof.
  assert (Hle : forall m, (forall y, y ∈ m -> P y = true -> Q y = true) ->
            (length (List.filter P m) <= length (List.filter Q m))%nat).
  { intros m. induction m as [|y m IH]; simpl; intros H; [lia|].
    specialize (IH ltac:(set_solver)). pose proof (H y ltac:(set_solver)).
    destruct (P y), (Q y); simpl; lia. }
  induction l as [|y l IH]; intros H Hin HQ HP; [set_solver|]. simpl.
  apply elem_of_cons in Hin as [->|Hin].
  - rewrite HQ, HP. simpl. specialize (Hle l ltac:(set_solver)). lia.
  - specialize (IH ltac:(set_solver) Hin HQ HP). pose proof (H y ltac:(set_solver)).
    destruct (P y), (Q y); simpl; lia.
Qed.

Lemma lo_of_node h ls M L l : heap_inv h ls M L -> l ∈ ls -> lo_of h l = Some (nkey h l).
Proof.
  intros HI Hl. unfold lo_of. rewrite decide_False; [done|]. by apply (hi_nodes _ _ _ _ HI).
Qed.

Lemma walk_ok h ls M L key i fuel p :
  heap_inv h ls M L -> p = sl_head \/ p ∈ ls -> (i < nheight h p)%nat ->
  below (lo_of h p) key = true -> (above h ls p < fuel)%nat ->
  exists p', walk fuel h key i p = Ret p' /\ is_pred h ls i p' key.
Proof.
  intros HI. revert p. induction fuel as [|fuel IH]; intros p Hp Hi Hb Hf; [lia|].
  simpl. rewrite (hi_next _ _ _ _ HI p i Hp Hi). simpl.
  destruct (first h ls i (lo_of h p)) as [q|] eqn:F.
  - apply first_Some in F as (Hq & Hc & Hmin); [|apply HI].
    apply cand_spec in Hc as [Hqi Hqb].
    pose proof (hi_nodes _ _ _ _ HI q Hq) as (Hq0 & Hql & _).
    destruct (deref_lt h q Hql) as (n & _ & Hd & Hk & _). rewrite Hd. simpl. rewrite <- Hk.
    pose proof (lo_of_node h ls M L q HI Hq) as Hlo.
    destruct (bltb (nkey h q) key) eqn:E; bcmp.
    + apply IH; [by right|done|rewrite Hlo; by apply bltb_lt|].
      eapply Nat.lt_le_trans; [|apply Nat.lt_succ_r, Hf]. unfold above.
      apply (filter_length_lt _ _ ls q); [|done|done|].
      * intros y _ Hy. rewrite Hlo in Hy. simpl in Hy. bcmp. by eapply below_trans.
      * rewrite Hlo. simpl. apply bltb_ge, ble_refl.
    + exists p. split; [done|]. split_and!; [done..|].
      intros l Hl Hli Hlb. eapply ble_trans; [done|]. apply Hmin; [done|]. by apply cand_spec.
  - exists p. split; [done|]. split_and!; [done..|].
    intros l Hl Hli Hlb. rewrite first_None in F. specialize (F l Hl).
    assert (cand h i (lo_of h p) l = true) by by apply cand_spec. congruence.
Qed.

Lemma above_fuel h ls M L p : heap_inv h ls M L -> (above h ls p < S (length h))%nat.
Proof.
  intros HI. pose proof (hi_fuel _ _ _ _ HI). unfold above.
  pose proof (List.filter_length_le (fun l => below (lo_of h p) (nkey h l)) ls). lia.
Qed.

Lemma descend_ok h ls M L key i p upd :
  heap_inv h ls M L -> p = sl_head \/ p ∈ ls -> (i <= nheight h p)%nat ->
  below (lo_of h p) key = true -> (i <= length upd)%nat ->
  exists p' upd',
    descend (S (length h)) h key i p upd = Ret (p', upd') /\ length upd' = length upd /\
    (forall j, (j < i)%nat -> exists u, upd' !! j = Some (Some u) /\ is_pred h ls j u key) /\
    (forall j, (i <= j)%nat -> upd' !! j = upd !! j) /\
    (i = O -> p' = p) /\ ((0 < i)%nat -> is_pred h ls 0 p' key).
Proof.
  intros HI. revert p upd. induction i as [|i IH]; intros p upd Hp Hi Hb Hu.
  - exists p, upd. split_and!; (done || lia).
  - cbn [descend].
    destruct (walk_ok h ls M L key i (S (length h)) p HI Hp Hi Hb) as (p1 & -> & Hpred);
      [by eapply above_fuel|]. cbn [mbind go_bind].
    pose proof Hpred as (Hp1 & Hi1 & Hb1 & _).
    destruct (IH p1 (<[i := Some p1]> upd) Hp1) as (p' & upd' & -> & Hl & Hlow & Hhigh & H0 & Hpos);
      [lia|done|rewrite length_insert; lia|].
    rewrite length_insert in Hl. exists p', upd'. split_and!; [done|done| | |lia|].
    + intros j Hj. destruct (decide (j < i)%nat) as [Hji|Hji]; [by apply Hlow|].
      assert (j = i) as -> by lia. exists p1. split; [|done].
      rewrite Hhigh by lia. apply list_lookup_insert_eq. lia.
    + intros j Hj. rewrite Hhigh by lia. apply list_lookup_insert_ne. lia.
    + intros _. destruct (decide (0 < i)%nat); [by apply Hpos|].
      assert (i = O) as -> by lia. by rewrite H0.
Qed.

(** The position of a key: its level-0 predecessor, and the first node at or
    above it. *)
Lemma descend_from_head h ls M L key :
  heap_inv h ls M L ->
  exists p upd,
    descend (S (length h)) h key L sl_head (replicate M None) = Ret (p, upd) /\
    length upd = M /\
    (forall j, (j < L)%nat -> exists u, upd !! j = Some (Some u) /\ is_pred h ls j u key) /\
    (forall j, (L <= j)%nat -> upd !! j = replicate M None !! j) /\ is_pred h ls 0 p key.
Proof.
  intros HI. pose proof (hi_level _ _ _ _ HI). pose proof (hi_max _ _ _ _ HI).
  destruct (descend_ok h ls M L key L sl_head (replicate M None) HI) as
    (p & upd & E & Hl & Hlow & Hhigh & Hz & Hpos).
  - by left.
  - by rewrite (hi_head _ _ _ _ HI).
  - done.
  - by rewrite length_replicate.
  - exists p, upd. rewrite length_replicate in Hl. split_and!; [done..|].
    destruct (decide (0 < L)%nat) as [HL|HL]; [by apply Hpos|].
    rewrite (Hz ltac:(lia)). split_and!; [by left|rewrite (hi_head _ _ _ _ HI); lia|done|].
    intros l Hl'. pose proof (hi_nodes _ _ _ _ HI l Hl'). lia.
Qed.

Lemma next_at_pred h ls M L key p :
  heap_inv h ls M L -> is_pred h ls 0 p key ->
  next_of h p 0 = Ret (first h ls 0 (lo_of h p)) /\
  match first h ls 0 (lo_of h p) with
  | Some q => q ∈ ls /\ ble key (nkey h q) /\ forall l, l ∈ ls -> ble key (nkey h l) -> ble (nkey h q) (nkey h l)
  | None => forall l, l ∈ ls -> blt (nkey h l) key
  end.
Proof.
  intros HI (Hp & Hh & Hb & Hpre). split; [exact (hi_next _ _ _ _ HI p 0%nat Hp Hh)|].
  destruct (first h ls 0 (lo_of h p)) as [q|] eqn:F.
  - apply first_Some in F as (Hq & [Hqh Hqb]%cand_spec & Hmin); [|apply HI].
    split_and!; [done|by apply Hpre|]. intros l Hl Hk. apply Hmin; [done|].
    apply cand_spec. split; [apply (hi_nodes _ _ _ _ HI l Hl)|].
    apply ble_lteq in Hk as [Hk| <-]; [exact (below_trans _ _ _ Hb Hk)|done].
  - rewrite first_None in F. intros l Hl.
    destruct (blt_trichotomy (nkey h l) key) as [C|C]; [done|]. exfalso.
    assert (cand h 0 (lo_of h p) l = true) as E; [|by rewrite F in E].
    apply cand_spec. split; [apply (hi_nodes _ _ _ _ HI l Hl)|].
    destruct C as [<-|C]; [done|exact (below_trans _ _ _ Hb C)].
Qed.

Lemma find_key_contents h ls k q :
  chain h ls -> q ∈ ls -> nkey h q = k -> find_key k (contents h ls) = Some (nval h q).
Proof.
  intros Hc Hq <-. apply find_key_in; [by apply contents_ascending|].
  apply list_elem_of_fmap. by exists q.
Qed.

Lemma find_key_contents_None h ls k :
  (forall l, l ∈ ls -> nkey h l <> k) -> find_key k (contents h ls) = None.
Proof.
  intros H. apply find_key_None. intros e (l & -> & Hl)%list_elem_of_fmap. by apply H.
Qed.

Lemma search_ok sl es key : Rep sl es -> search sl key = Ret (find_key key es).
Proof.
  intros (ls & HI & -> & _). unfold search, walk_fuel.
  destruct (descend_from_head _ _ _ _ key HI) as (p & upd & -> & _ & _ & _ & Hp).
  cbn [mbind go_bind]. destruct (next_at_pred _ _ _ _ key p HI Hp) as [-> F].
  cbn [mbind go_bind]. set (h := sl_nodes sl) in *.
  destruct (first h ls 0 (lo_of h p)) as [q|].
  - destruct F as (Hq & Hle & Hmin).
    destruct (deref_lt h q) as (n & _ & -> & Hk & Hv & _); [apply (hi_nodes _ _ _ _ HI q Hq)|].
    cbn [mbind go_bind]. rewrite <- Hk, <- Hv. f_equal.
    destruct (beqb (nkey h q) key) eqn:E; bcmp.
    + symmetry. apply find_key_contents; [apply HI|done|done].
    + symmetry. apply find_key_contents_None. intros l Hl Hlk. apply E.
      apply ble_antisym; [|done]. rewrite <- Hlk. apply Hmin; [done|].
      rewrite Hlk. apply ble_refl.
  - f_equal. symmetry. apply find_key_contents_None. intros l Hl Hlk.
    specialize (F l Hl). rewrite Hlk in F. border.
Qed.

(** ** Stores that differ only in pointers or values *)
Definition same_nodes (h h' : list SkipNode) : Prop :=
  length h' = length h /\ (forall l, nkey h' l = nkey h l) /\ (forall l, nheight h' l = nheight h l).

Lemma first_same h h' ls i lo : same_nodes h h' -> first h' ls i lo = first h ls i lo.
Proof.
  intros (_ & Hk & Hh). unfold first. induction ls as [|l ls IH]; simpl; [done|].
  unfold cand at 1 3. rewrite Hk, Hh. by destruct (_ && _).
Qed.

Lemma lo_of_same h h' p : same_nodes h h' -> lo_of h' p = lo_of h p.
Proof. intros (_ & Hk & _). unfold lo_of. by rewrite Hk. Qed.

Lemma chain_same h h' ls : same_nodes h h' -> chain h ls -> chain h' ls.
Proof.
  intros (_ & Hk & _). induction 1 as [|l ls Hs IH Hf]; constructor; [done|].
  eapply Forall_impl; [exact Hf|]. intros x. simpl. by rewrite !Hk.
Qed.

Lemma heap_inv_same h h' ls M L :
  same_nodes h h' -> (forall p i, next_of h' p i = next_of h p i) ->
  heap_inv h ls M L -> heap_inv h' ls M L.
Proof.
  intros HS HN HI. pose proof HS as (Hl & Hk & Hh). destruct HI. constructor; auto.
  - by rewrite Hh.
  - intros l. rewrite Hl, Hh. auto.
  - by eapply chain_same.
  - intros p i Hp Hi. rewrite Hh in Hi. rewrite HN, (first_same h), (lo_of_same h) by done. auto.
  - by rewrite Hl.
Qed.

Lemma set_value_same h q n v :
  h !! q = Some n ->
  let h' := <[q := MkNode n.(Next) n.(NKey) v]> h in
  same_nodes h h' /\ (forall p i, next_of h' p i = next_of h p i) /\
  (forall l, nval h' l = if decide (l = q) then v else nval h l).
Proof.
  intros Hq h'.
  assert (Hlt : (q < length h)%nat) by by eapply lookup_lt_Some.
  assert (Hx : forall l, h' !! l = if decide (l = q) then Some (MkNode (Next n) (NKey n) v) else h !! l).
  { intros l. unfold h'. destruct (decide (l = q)) as [->|Hne]; [by rewrite list_lookup_insert_eq|].
    by rewrite list_lookup_insert_ne. }
  unfold same_nodes, nkey, nheight, nval, next_of, deref. split_and!.
  - apply length_insert.
  - intros l. rewrite Hx. destruct (decide (l = q)) as [->|]; [by rewrite Hq|done].
  - intros l. rewrite Hx. destruct (decide (l = q)) as [->|]; [by rewrite Hq|done].
  - intros p i. rewrite Hx. destruct (decide (p = q)) as [->|]; [by rewrite Hq|done].
  - intros l. rewrite Hx. by destruct (decide (l = q)).
Qed.

Lemma set_next_ok h p i q :
  (p < length h)%nat -> (i < nheight h p)%nat ->
  exists h', set_next h p i q = Ret h' /\ same_nodes h h' /\ (forall l, nval h' l = nval h l) /\
    forall p' j, next_of h' p' j = if decide (p' = p /\ j = i) then Ret q else next_of h p' j.
Proof.
  intros Hp Hi. destruct (deref_lt h p Hp) as (n & Hn & Hd & _ & _ & Hh). rewrite Hh in Hi.
  unfold set_next. rewrite Hd. cbn [mbind go_bind].
  replace (i <? length (Next n))%nat with true by (symmetry; by apply Nat.ltb_lt).
  eexists. split; [done|]. set (h' := <[p := _]> h).
  assert (Hx : forall l, h' !! l = if decide (l = p)
            then Some (MkNode (<[i := q]> (Next n)) (NKey n) (NValue n)) else h !! l).
  { intros l. unfold h'. destruct (decide (l = p)) as [->|Hne]; [by rewrite list_lookup_insert_eq|].
    by rewrite list_lookup_insert_ne. }
  unfold same_nodes, nkey, nheight, nval, next_of, deref. split_and!.
  - apply length_insert.
  - intros l. rewrite Hx. destruct (decide (l = p)) as [->|]; [by rewrite Hn|done].
  - intros l. rewrite Hx. destruct (decide (l = p)) as [->|]; [|done].
    rewrite Hn. simpl. apply length_insert.
  - intros l. rewrite Hx. destruct (decide (l = p)) as [->|]; [by rewrite Hn|done].
  - intros p' j. rewrite Hx. destruct (decide (p' = p)) as [->|Hne].
    + rewrite Hn. cbn [mbind go_bind Next]. destruct (decide (p = p /\ j = i)) as [[_ ->]|Hj].
      * by rewrite list_lookup_insert_eq.
      * rewrite list_lookup_insert_ne; [done|]. intros ->. by apply Hj.
    + rewrite decide_False; [done|]. by intros [? _].
Qed.

Lemma same_nodes_trans a b c : same_nodes a b -> same_nodes b c -> same_nodes a c.
Proof.
  intros (L1 & K1 & H1) (L2 & K2 & H2). split_and!; [congruence| |]; intros l; congruence.
Qed.

(** The linking loop points every recorded predecessor at the new node, and the
    new node at the predecessors' old successors. *)
Lemma link_ok fuel i upd nw h :
  (nw < length h)%nat -> (i + fuel <= nheight h nw)%nat ->
  (forall j, (i <= j < i + fuel)%nat ->
     exists u, upd !! j = Some (Some u) /\ u <> nw /\ (u < length h)%nat /\ (j < nheight h u)%nat) ->
  exists h', link fuel i upd nw h = Ret h' /\ same_nodes h h' /\ (forall l, nval h' l = nval h l) /\
    (forall p j, p <> nw -> next_of h' p j =
       if decide ((i <= j < i + fuel)%nat /\ upd !! j = Some (Some p)) then Ret (Some nw)
       else next_of h p j) /\
    (forall j, (j < i)%nat -> next_of h' nw j = next_of h nw j) /\
    (forall j u, (i <= j < i + fuel)%nat -> upd !! j = Some (Some u) -> next_of h' nw j = next_of h u j).
Proof.
  revert i h. induction fuel as [|fuel IH]; intros i h Hnw Hh Hu.
  - exists h. simpl. split_and!; try done.
    + intros p j _. rewrite decide_False; [done|]. lia.
    + intros j u ?. lia.
  - destruct (Hu i) as (u & Eu & Hun & Hul & Huh); [lia|]. cbn [link]. rewrite Eu.
    assert (exists q, next_of h u i = Ret q) as [q Eq].
    { destruct (deref_lt h u Hul) as (n & Hn & Hd & _ & _ & Hhn). unfold next_of. rewrite Hd.
      cbn [mbind go_bind]. rewrite Hhn in Huh. apply lookup_lt_is_Some in Huh as [q ->]. by exists q. }
    rewrite Eq. cbn [mbind go_bind].
    destruct (set_next_ok h nw i q Hnw) as (h1 & -> & S1 & V1 & N1); [lia|]. cbn [mbind go_bind].
    pose proof S1 as (L1 & _ & H1).
    destruct (set_next_ok h1 u i (Some nw)) as (h2 & -> & S2 & V2 & N2);
      [by rewrite L1|by rewrite H1|]. cbn [mbind go_bind].
    pose proof S2 as (L2 & _ & H2).
    destruct (IH (S i) h2) as (h' & E & S3 & V3 & N3 & N3' & N3''); [lia|rewrite H2, H1; lia| |].
    { intros j Hj. destruct (Hu j) as (w & ? & ? & ? & ?); [lia|]. exists w.
      rewrite L2, L1, H2, H1. done. }
    exists h'. split_and!; [done|by eapply same_nodes_trans; [exact S1|eapply same_nodes_trans]| | | |].
    + intros l. congruence.
    + intros p j Hp. rewrite N3 by done. rewrite N2, N1.
      destruct (decide (j = i)) as [->|Hj].
      * rewrite (decide_False (P := _ /\ upd !! i = _)) by lia.
        destruct (decide (p = u /\ i = i)) as [[-> _]|Hpu].
        { rewrite decide_True; [done|]. split; [lia|done]. }
        rewrite (decide_False (P := p = nw /\ _)) by by intros [? _].
        rewrite decide_False; [done|]. intros [_ C]. rewrite Eu in C. injection C as ->. by apply Hpu.
      * rewrite (decide_False (P := p = u /\ _)) by by intros [_ ?].
        rewrite (decide_False (P := p = nw /\ _)) by by intros [_ ?].
        destruct (decide (_ /\ upd !! j = _)) as [[Hj1 Hj2]|Hj1].
        { rewrite decide_True; [done|]. split; [lia|done]. }
        rewrite decide_False; [done|]. intros [? ?]. apply Hj1. split; [lia|done].
    + intros j Hj. rewrite N3', N2, N1 by lia.
      rewrite (decide_False (P := nw = u /\ _)) by by intros [? _].
      rewrite decide_False; [done|]. lia.
    + intros j w Hj Ew. destruct (decide (j = i)) as [->|Hji].
      * rewrite N3', N2, N1 by lia. rewrite Eu in Ew. injection Ew as <-.
        rewrite (decide_False (P := nw = u /\ _)) by by intros [? _].
        rewrite decide_True by done. done.
      * rewrite (N3'' j w) by (lia || done). rewrite N2, N1.
        rewrite decide_False by by intros [_ ?]. rewrite decide_False by by intros [_ ?]. done.
Qed.

(** ** Insertion *)
Lemma split_chain_ge h ls key :
  chain h ls ->
  exists l1 l2, ls = l1 ++ l2 /\ (forall x, x ∈ l1 -> blt (nkey h x) key) /\
                (forall x, x ∈ l2 -> ble key (nkey h x)).
Proof.
  induction ls as [|l ls IH]; intros Hc; [exists [], []; split_and!; [done|set_solver..]|].
  apply chain_cons_inv in Hc as [Hs Hl].
  destruct (ble_total key (nkey h l)) as [C|C].
  - exists [], (l :: ls). split_and!; [done|set_solver|].
    intros x [->|Hx]%elem_of_cons; [done|]. apply blt_ble. eapply ble_blt_trans; [exact C|by apply Hl].
  - destruct (decide (nkey h l = key)) as [<-|Hne].
    + exists [], (l :: ls). split_and!; [done|set_solver|].
      intros x [->|Hx]%elem_of_cons; [apply ble_refl|]. by apply blt_ble, Hl.
    + destruct (IH Hs) as (l1 & l2 & -> & H1 & H2). exists (l :: l1), l2. split_and!; [done| |done].
      intros x [->|Hx]%elem_of_cons; [|by apply H1]. apply ble_lteq in C as [C|C]; [done|congruence].
Qed.

Lemma split_chain h ls key :
  chain h ls -> (forall l, l ∈ ls -> nkey h l <> key) ->
  exists l1 l2, ls = l1 ++ l2 /\ (forall x, x ∈ l1 -> blt (nkey h x) key) /\
                (forall x, x ∈ l2 -> blt key (nkey h x)).
Proof.
  intros Hc Hn. destruct (split_chain_ge h ls key Hc) as (l1 & l2 & -> & H1 & H2).
  exists l1, l2. split_and!; [done..|]. intros x Hx.
  destruct (proj1 (ble_lteq _ _) (H2 x Hx)) as [?|E]; [done|].
  exfalso. apply (Hn x); [set_solver|done].
Qed.

Lemma app_node_old h n l : (l < length h)%nat ->
  nkey (h ++ [n]) l = nkey h l /\ nval (h ++ [n]) l = nval h l /\
  nheight (h ++ [n]) l = nheight h l /\ forall i, next_of (h ++ [n]) l i = next_of h l i.
Proof.
  intros H. unfold nkey, nval, nheight, next_of, deref. by rewrite lookup_app_l.
Qed.

Lemma app_node_new h n :
  nkey (h ++ [n]) (length h) = n.(NKey) /\ nval (h ++ [n]) (length h) = n.(NValue) /\
  nheight (h ++ [n]) (length h) = length n.(Next).
Proof.
  unfold nkey, nval, nheight. rewrite lookup_app_r by lia. by rewrite Nat.sub_diag.
Qed.

Lemma nheight_head_lt h ls M L : heap_inv h ls M L -> (sl_head < length h)%nat.
Proof. intros HI. pose proof (hi_fuel _ _ _ _ HI). unfold sl_head. lia. Qed.

Lemma loc_lt h ls M L p : heap_inv h ls M L -> p = sl_head \/ p ∈ ls -> (p < length h)%nat.
Proof.
  intros HI [->|Hp]; [by eapply nheight_head_lt|]. by apply (hi_nodes _ _ _ _ HI).
Qed.

(** A node below [key] on level [i] with no level-[i] node between it and [key]
    is the recorded predecessor. *)
Lemma pred_unique h ls M L i key u p :
  heap_inv h ls M L -> is_pred h ls i u key -> is_pred h ls i p key -> p = u.
Proof.
  intros HI (Hu & Hui & Hub & Hum) (Hp & Hpi & Hpb & Hpm).
  assert (forall a b, (a = sl_head \/ a ∈ ls) -> b ∈ ls -> (i < nheight h b)%nat ->
            below (lo_of h b) key = true ->
            (forall l, l ∈ ls -> (i < nheight h l)%nat -> below (lo_of h a) (nkey h l) = true ->
               ble key (nkey h l)) ->
            below (lo_of h a) (nkey h b) = false) as Hord.
  { intros a b _ Hb Hbi Hbb Hm. destruct (below (lo_of h a) (nkey h b)) eqn:E; [|done].
    specialize (Hm b Hb Hbi E). rewrite (lo_of_node h ls M L b HI Hb) in Hbb. simpl in Hbb.
    bcmp. border. }
  destruct Hu as [->|Hu], Hp as [->|Hp]; [done| | |].
  - by specialize (Hord sl_head p (or_introl eq_refl) Hp Hpi Hpb Hum).
  - by specialize (Hord sl_head u (or_introl eq_refl) Hu Hui Hub Hpm).
  - pose proof (Hord p u (or_intror Hp) Hu Hui Hub Hpm) as E1.
    pose proof (Hord u p (or_intror Hu) Hp Hpi Hpb Hum) as E2.
    rewrite (lo_of_node h ls M L _ HI Hp) in E1. rewrite (lo_of_node h ls M L _ HI Hu) in E2.
    simpl in *. bcmp. apply (chain_key_inj h ls); [apply HI|done|done|]. by apply ble_antisym.
Qed.

Lemma find_app {A} (f : A -> bool) a b :
  List.find f (a ++ b) = match List.find f a with Some x => Some x | None => List.find f b end.
Proof. induction a as [|x a IH]; simpl; [done|]. by destruct (f x). Qed.

Lemma find_ext_in {A} (f g : A -> bool) l :
  (forall x, x ∈ l -> f x = g x) -> List.find f l = List.find g l.
Proof.
  induction l as [|x l IH]; intros H; simpl; [done|].
  rewrite (H x) by set_solver. destruct (g x); [done|]. apply IH. set_solver.
Qed.

Lemma find_None_in {A} (f : A -> bool) l : (forall x, x ∈ l -> f x = false) -> List.find f l = None.
Proof.
  induction l as [|x l IH]; intros H; simpl; [done|]. rewrite (H x) by set_solver.
  apply IH. set_solver.
Qed.

Section InsertNew.
Context (h h' : list SkipNode) (l1 l2 : list loc) (M L N : nat) (key : bytes) (v : option bytes).
Context (pred : nat -> loc).
Let nw := length h.
Let ls := l1 ++ l2.
Let ls' := l1 ++ nw :: l2.
Context (HI : heap_inv h ls M L) (HN : (1 <= N <= M)%nat).
Context (Hl1 : forall x, x ∈ l1 -> blt (nkey h x) key) (Hl2 : forall x, x ∈ l2 -> blt key (nkey h x)).
Context (Hpred : forall i, (i < N)%nat -> is_pred h ls i (pred i) key).
Context (HS : same_nodes (h ++ [newSkipNode N key v]) h').
Context (HV : forall l, nval h' l = nval (h ++ [newSkipNode N key v]) l).
Context (Hnext : forall p i, p <> nw -> next_of h' p i =
           if decide ((i < N)%nat /\ pred i = p) then Ret (Some nw)
           else next_of (h ++ [newSkipNode N key v]) p i).
Context (Hnew : forall i, (i < N)%nat ->
           next_of h' nw i = next_of (h ++ [newSkipNode N key v]) (pred i) i).

Lemma ls_lt x : x = sl_head \/ x ∈ ls -> (x < nw)%nat.
Proof. intros H. by eapply loc_lt. Qed.

Lemma old_node x : (x < nw)%nat ->
  nkey h' x = nkey h x /\ nval h' x = nval h x /\ nheight h' x = nheight h x.
Proof.
  intros Hx. destruct HS as (_ & Hk & Hh).
  destruct (app_node_old h (newSkipNode N key v) x Hx) as (E1 & E2 & E3 & _).
  rewrite Hk, HV, Hh. done.
Qed.

Lemma new_node : nkey h' nw = key /\ nval h' nw = v /\ nheight h' nw = N.
Proof.
  destruct HS as (_ & Hk & Hh). destruct (app_node_new h (newSkipNode N key v)) as (E1 & E2 & E3).
  rewrite Hk, HV, Hh. unfold nw. rewrite E1, E2, E3. simpl. by rewrite length_replicate.
Qed.

Lemma lo_of_old x : x = sl_head \/ x ∈ ls -> lo_of h' x = lo_of h x.
Proof. intros Hx. unfold lo_of. by rewrite (proj1 (old_node x (ls_lt x Hx))). Qed.

Lemma in_l1 x : x ∈ l1 -> x ∈ ls.
Proof. unfold ls. set_solver. Qed.
Lemma in_l2 x : x ∈ l2 -> x ∈ ls.
Proof. unfold ls. set_solver. Qed.

Lemma cand_old i lo x : x ∈ ls -> cand h' i lo x = cand h i lo x.
Proof.
  intros Hx. unfold cand.
  by destruct (old_node x (ls_lt x (or_intror Hx))) as (-> & _ & ->).
Qed.

(** No node of [l1] follows a level-[i] predecessor of [key] on level [i]. *)
Lemma no_cand_l1 i p : is_pred h ls i p key -> List.find (cand h' i (lo_of h p)) l1 = None.
Proof.
  intros (_ & _ & _ & Hm). apply find_None_in. intros x Hx.
  rewrite cand_old by by apply in_l1. destruct (cand h i (lo_of h p) x) eqn:E; [|done].
  apply cand_spec in E as [E1 E2]. specialize (Hm x (in_l1 x Hx) E1 E2).
  specialize (Hl1 x Hx). border.
Qed.

Lemma first_new i : (i < N)%nat ->
  Ret (first h' ls' i (Some key)) = next_of (h ++ [newSkipNode N key v]) (pred i) i.
Proof.
  intros Hi. pose proof (Hpred i Hi) as Hp. pose proof Hp as (Hpin & Hpi & Hpb & Hpm).
  destruct (app_node_old h (newSkipNode N key v) (pred i) (ls_lt _ Hpin)) as (_ & _ & _ & ->).
  rewrite (hi_next _ _ _ _ HI _ i Hpin Hpi). f_equal. unfold first, ls, ls'.
  rewrite !find_app. simpl.
  rewrite (find_None_in (cand h' i (Some key)) l1).
  2: { intros x Hx. rewrite cand_old by by apply in_l1. unfold cand. simpl.
       rewrite (proj2 (bltb_ge key (nkey h x))) by by apply blt_ble, Hl1. apply andb_false_r. }
  rewrite (find_None_in (cand h i (lo_of h (pred i))) l1).
  2: { intros x Hx. destruct (cand h i (lo_of h (pred i)) x) eqn:E; [|done].
       apply cand_spec in E as [E1 E2]. specialize (Hpm x (in_l1 x Hx) E1 E2).
       specialize (Hl1 x Hx). border. }
  replace (cand h' i (Some key) nw) with false.
  2: { unfold cand. rewrite (proj1 new_node). simpl.
       rewrite (proj2 (bltb_ge key key)) by apply ble_refl. by rewrite andb_false_r. }
  apply find_ext_in. intros x Hx. rewrite cand_old by by apply in_l2. unfold cand. f_equal. simpl.
  specialize (Hl2 x Hx). rewrite (proj2 (bltb_lt key (nkey h x))) by done.
  symmetry. by eapply below_trans.
Qed.

Lemma first_old p i : p = sl_head \/ p ∈ ls -> (i < nheight h p)%nat ->
  Ret (first h' ls' i (lo_of h p)) =
  if decide ((i < N)%nat /\ pred i = p) then Ret (Some nw) else next_of h p i.
Proof.
  intros Hp Hi. unfold first, ls'. rewrite find_app. simpl.
  destruct (decide ((i < N)%nat /\ pred i = p)) as [[HiN <-]|Hnp].
  - rewrite no_cand_l1 by by apply Hpred.
    replace (cand h' i (lo_of h (pred i)) nw) with true; [done|]. symmetry. apply cand_spec.
    destruct new_node as (-> & _ & ->). split; [done|]. apply (Hpred i HiN).
  - rewrite (hi_next _ _ _ _ HI p i Hp Hi). unfold first, ls. rewrite find_app.
    rewrite (find_ext_in (cand h' i (lo_of h p)) (cand h i (lo_of h p)) l1)
      by (intros x Hx; apply cand_old; by apply in_l1).
    destruct (List.find (cand h i (lo_of h p)) l1) as [x|] eqn:F; [done|].
    replace (cand h' i (lo_of h p) nw) with false.
    { rewrite (find_ext_in (cand h' i (lo_of h p)) (cand h i (lo_of h p)) l2); [done|].
      intros x Hx. apply cand_old. by apply in_l2. }
    symmetry. apply not_true_iff_false. rewrite cand_spec.
    destruct new_node as (-> & _ & ->). intros [HiN Hb]. apply Hnp. split; [done|].
    symmetry. eapply (pred_unique h ls M L i key); [done|by apply Hpred|].
    split_and!; [done..|]. intros x Hx Hxi Hxb. unfold ls in Hx.
    apply elem_of_app in Hx as [Hx|Hx]; [|by apply blt_ble, Hl2].
    exfalso. change (first h l1 i (lo_of h p) = None) in F. rewrite first_None in F.
    specialize (F x Hx). assert (cand h i (lo_of h p) x = true) by by apply cand_spec. congruence.
Qed.

Lemma chain_insert : chain h' ls'.
Proof.
  assert (Hc : chain h' ls).
  { pose proof (hi_sorted _ _ _ _ HI) as Hs.
    assert (Hall : forall x, x ∈ ls -> nkey h' x = nkey h x)
      by (intros x Hx; apply old_node, ls_lt; by right).
    revert Hs Hall. generalize ls as m. induction m as [|x m IH]; [constructor|].
    intros [Hs Hx]%chain_cons_inv Hall. constructor; [apply IH; set_solver|].
    apply Forall_forall. intros y Hy. rewrite !Hall by set_solver. by apply Hx. }
  unfold ls in Hc. unfold ls'.
  assert (H1 : forall x, x ∈ l1 -> blt (nkey h' x) (nkey h' nw)).
  { intros x Hx. rewrite (proj1 new_node), (proj1 (old_node x (ls_lt x (or_intror (in_l1 x Hx))))).
    by apply Hl1. }
  assert (H2 : forall x, x ∈ l2 -> blt (nkey h' nw) (nkey h' x)).
  { intros x Hx. rewrite (proj1 new_node), (proj1 (old_node x (ls_lt x (or_intror (in_l2 x Hx))))).
    by apply Hl2. }
  revert Hc H1. generalize l1 as m. induction m as [|x m IH]; simpl; intros Hc H1.
  - constructor; [done|]. apply Forall_forall. done.
  - apply chain_cons_inv in Hc as [Hs Hx]. constructor; [apply IH; [done|set_solver]|].
    apply Forall_forall. intros y [Hy|[->|Hy]%elem_of_cons]%elem_of_app.
    + apply Hx. set_solver.
    + apply H1. set_solver.
    + apply Hx. set_solver.
Qed.

Lemma insert_new_inv : heap_inv h' ls' M (Nat.max L N).
Proof.
  pose proof HI as HI'. destruct HI' as [A1 A2 A3 A4 A5 A6 A7].
  destruct HS as (Hlen & _ & _). rewrite length_app in Hlen. simpl in Hlen.
  assert (Hin : forall x, x ∈ ls' <-> x = nw \/ x ∈ ls) by (unfold ls, ls'; set_solver).
  constructor; [done|lia| | |exact chain_insert| |].
  - rewrite <- A3. apply old_node. apply ls_lt. by left.
  - intros x [->|Hx]%Hin.
    + rewrite (proj2 (proj2 new_node)). pose proof (ls_lt sl_head (or_introl eq_refl)).
      unfold sl_head in *. split_and!; unfold nw in *; lia.
    + destruct (A4 x Hx) as (? & ? & ?).
      rewrite (proj2 (proj2 (old_node x (ls_lt x (or_intror Hx))))). split_and!; [done|lia|lia|lia].
  - intros p i Hp Hi. destruct (decide (p = nw)) as [->|Hpn].
    + rewrite (proj2 (proj2 new_node)) in Hi. rewrite Hnew by done. rewrite <- first_new by done.
      unfold lo_of. rewrite decide_False, (proj1 new_node); [done|].
      pose proof (ls_lt sl_head (or_introl eq_refl)). unfold sl_head in *. lia.
    + assert (Hp' : p = sl_head \/ p ∈ ls) by (destruct Hp as [?|[?|?]%Hin]; auto; done).
      rewrite (proj2 (proj2 (old_node p (ls_lt p Hp')))) in Hi.
      rewrite lo_of_old, first_old by done. rewrite Hnext by done.
      destruct (app_node_old h (newSkipNode N key v) p (ls_lt p Hp')) as (_ & _ & _ & ->). done.
  - rewrite Hlen. unfold ls, ls' in *. rewrite length_app in *. simpl. lia.
Qed.

Lemma insert_new_contents : contents h' ls' = put_key key v (contents h ls).
Proof.
  unfold contents, ls, ls'. rewrite !map_app. simpl.
  destruct new_node as (-> & -> & _). rewrite put_key_new.
  - f_equal; [|f_equal]; apply map_ext_in; intros x Hx; apply list_elem_of_In in Hx;
      (destruct (old_node x) as (-> & -> & _); [apply ls_lt; right; unfold ls; set_solver|done]).
  - intros e (x & -> & Hx)%list_elem_of_fmap. by apply Hl1.
  - intros e (x & -> & Hx)%list_elem_of_fmap. by apply Hl2.
Qed.
End InsertNew.

Lemma random_rounds_bound draws M level :
  (level <= M)%nat -> (level <= random_rounds draws M level <= M)%nat.
Proof.
  revert level; induction draws as [|[] ds IH]; intros level H; simpl; try lia.
  destruct (Nat.ltb_spec level M); [|lia]. specialize (IH (S level)). lia.
Qed.

Lemma randomLevel_bound M draws : (1 <= M)%nat -> (1 <= randomLevel M draws <= M)%nat.
Proof. apply random_rounds_bound. Qed.

Lemma total_bytes_delta k v es :
  ascending es -> total_bytes (put_key k v es) - total_bytes es =
  match find_key k es with Some old => vlen v - vlen old | None => len k + vlen v end.
Proof. intros H. rewrite total_bytes_put by done. lia. Qed.

Lemma len_put_key k v es :
  ascending es -> len (put_key k v es) = len es + match find_key k es with Some _ => 0 | None => 1 end.
Proof.
  induction es as [|e es IH]; simpl; [done|]. intros [Hs Hl]%ascending_cons_inv.
  destruct (compare_case (Key e) k) as [C|C|C].
  - rewrite !len_cons, IH by done. rewrite (proj2 (beqb_neq _ _)) by by apply blt_neq. lia.
  - rewrite C, beqb_refl, !len_cons. lia.
  - rewrite (proj2 (beqb_neq _ _)) by by apply not_eq_sym, blt_neq.
    rewrite (proj2 (find_key_None k es)); [rewrite !len_cons; lia|].
    intros x Hx <-. specialize (Hl x Hx). border.
Qed.

(** The recorded predecessors after the head has been filled in for new levels. *)
Definition fill_update (L N : nat) (upd : list (option loc)) : list (option loc) :=
  if (L <? N)%nat then take L upd ++ replicate (N - L) (Some sl_head) ++ drop N upd else upd.

Lemma fill_update_pred h ls M L N key upd :
  heap_inv h ls M L -> length upd = M -> (N <= M)%nat ->
  (forall j, (j < L)%nat -> exists u, upd !! j = Some (Some u) /\ is_pred h ls j u key) ->
  forall j, (j < N)%nat ->
  exists u, fill_update L N upd !! j = Some (Some u) /\ is_pred h ls j u key.
Proof.
  intros HI HM HN Hu j Hj. pose proof (hi_level _ _ _ _ HI) as HL.
  unfold fill_update. destruct (Nat.ltb_spec L N) as [HLN|HLN]; [|apply Hu; lia].
  destruct (decide (j < L)%nat) as [HjL|HjL].
  - destruct (Hu j HjL) as (u & E & P). exists u. split; [|done].
    rewrite lookup_app_l by (rewrite length_take; lia). by rewrite lookup_take_lt.
  - exists sl_head. split.
    + rewrite lookup_app_r by (rewrite length_take; lia).
      rewrite length_take, lookup_app_l by (rewrite length_replicate; lia).
      apply lookup_replicate_2. lia.
    + split_and!; [by left|rewrite (hi_head _ _ _ _ HI); lia|done|].
      intros l Hl Hlj. pose proof (hi_nodes _ _ _ _ HI l Hl). lia.
Qed.

Lemma insert_hit_rep sl ls q n key value :
  heap_inv sl.(sl_nodes) ls sl.(sl_maxLevel) sl.(sl_level) ->
  sl.(sl_size) = len (contents sl.(sl_nodes) ls) ->
  sl.(sl_byteSize) = total_bytes (contents sl.(sl_nodes) ls) ->
  q ∈ ls -> sl.(sl_nodes) !! q = Some n -> nkey sl.(sl_nodes) q = key ->
  Rep (MkSkipList sl.(sl_size) sl.(sl_level) (sl.(sl_byteSize) + (vlen value - vlen n.(NValue)))
         sl.(sl_maxLevel) (<[q := MkNode n.(Next) n.(NKey) value]> sl.(sl_nodes)))
      (put_key key value (contents sl.(sl_nodes) ls)).
Proof.
  intros HI Hsz Hb Hq Hn Hk. destruct (set_value_same _ q n value Hn) as (HS & HN & HV).
  set (h := sl_nodes sl) in *. set (h' := <[q := _]> h) in *.
  assert (Hasc : ascending (contents h ls)) by apply contents_ascending, HI.
  assert (Hf : find_key key (contents h ls) = Some (nval h q))
    by (apply find_key_contents; [apply HI|done|done]).
  assert (Hv : nval h q = NValue n) by (unfold nval; by rewrite Hn).
  exists ls. simpl. split_and!.
  - by eapply heap_inv_same.
  - apply list_elem_of_split in Hq as (l1 & l2 & ->).
    pose proof (chain_key_inj h (l1 ++ q :: l2)) as Hinj.
    unfold contents in *. rewrite !map_app in *. simpl in *.
    rewrite put_key_replace by (try done; by rewrite Hk).
    destruct HS as (_ & HK & _). rewrite HV, decide_True, HK, Hk by done.
    pose proof (hi_sorted _ _ _ _ HI) as Hc.
    assert (Hd : forall x, x ∈ l1 \/ x ∈ l2 -> x <> q).
    { intros x Hx ->. clear - Hc Hx. apply contents_ascending in Hc. unfold contents in Hc.
      rewrite map_app in Hc. simpl in Hc. apply ascending_app_inv in Hc as (_ & Hb & Hab).
      apply ascending_cons_inv in Hb as [_ Hb]. destruct Hx as [Hx|Hx].
      - specialize (Hab (MkLogEntry (nkey h q) (nval h q)) (MkLogEntry (nkey h q) (nval h q))
          ltac:(apply list_elem_of_fmap; by exists q) ltac:(set_solver)). simpl in Hab. border.
      - specialize (Hb (MkLogEntry (nkey h q) (nval h q)) ltac:(apply list_elem_of_fmap; by exists q)).
        simpl in Hb. border. }
    f_equal; [|f_equal]; apply map_ext_in; intros x Hx; apply list_elem_of_In in Hx;
      rewrite HK, HV, decide_False by (apply Hd; auto); done.
  - rewrite len_put_key, Hf by done. lia.
  - rewrite total_bytes_put, Hf, Hb, Hv by done. done.
Qed.

(** What the position check of [insert] finds. *)
Lemma insert_position h ls M L key p :
  heap_inv h ls M L -> is_pred h ls 0 p key ->
  let found := match first h ls 0 (lo_of h p) with
               | None => Ret None
               | Some q => n ← deref h q; Ret (if beqb n.(NKey) key then Some (q, n) else None)
               end in
  (exists q n, found = Ret (Some (q, n)) /\ q ∈ ls /\ h !! q = Some n /\ nkey h q = key) \/
  (found = Ret None /\ forall l, l ∈ ls -> nkey h l <> key).
Proof.
  intros HI Hp. cbv zeta. destruct (next_at_pred _ _ _ _ key p HI Hp) as [_ F].
  destruct (first h ls 0 (lo_of h p)) as [q|].
  - destruct F as (Hq & Hle & Hmin).
    destruct (deref_lt h q) as (n & Hn & -> & Hk & _); [apply (hi_nodes _ _ _ _ HI q Hq)|].
    cbn [mbind go_bind]. rewrite <- Hk. destruct (beqb (nkey h q) key) eqn:E; bcmp.
    + left. by exists q, n.
    + right. split; [done|]. intros l Hl Hlk. apply E. apply ble_antisym; [|done].
      rewrite <- Hlk. apply Hmin; [done|]. rewrite Hlk. apply ble_refl.
  - right. split; [done|]. intros l Hl Hlk. specialize (F l Hl). rewrite Hlk in F. border.
Qed.

(** Linking a fresh node of height [N] behind the recorded predecessors. *)
Lemma insert_new_ok h l1 l2 M L N key value upd :
  heap_inv h (l1 ++ l2) M L -> (1 <= N <= M)%nat -> length upd = M ->
  (forall x, x ∈ l1 -> blt (nkey h x) key) -> (forall x, x ∈ l2 -> blt key (nkey h x)) ->
  (forall j, (j < L)%nat -> exists u, upd !! j = Some (Some u) /\ is_pred h (l1 ++ l2) j u key) ->
  exists h', link N 0 (fill_update L N upd) (length h) (h ++ [newSkipNode N key value]) = Ret h' /\
    heap_inv h' (l1 ++ length h :: l2) M (Nat.max L N) /\
    contents h' (l1 ++ length h :: l2) = put_key key value (contents h (l1 ++ l2)).
Proof.
  intros HI HN Hul H1 H2 Hlow.
  pose proof (fill_update_pred h _ _ _ N key upd HI Hul (proj2 HN) Hlow) as Hf.
  set (U := fill_update L N upd) in *.
  set (pr := fun i => match U !! i with Some (Some u) => u | _ => sl_head end).
  assert (Hpr : forall i, (i < N)%nat -> is_pred h (l1 ++ l2) i (pr i) key /\ U !! i = Some (Some (pr i))).
  { intros i Hi. destruct (Hf i Hi) as (u & E & P). unfold pr. rewrite E. done. }
  destruct (link_ok N 0 U (length h) (h ++ [newSkipNode N key value])) as
    (h' & El & HS & HV & HNx & _ & HNw).
  - rewrite length_app. simpl. lia.
  - rewrite (proj2 (proj2 (app_node_new h _))). simpl. rewrite length_replicate. lia.
  - intros j Hj. destruct (Hpr j) as [(Hin & Hh & _) EU]; [lia|].
    pose proof (loc_lt h _ _ _ _ HI Hin) as Hlt. exists (pr j). rewrite length_app. simpl.
    rewrite (proj1 (proj2 (proj2 (app_node_old h _ _ Hlt)))). split_and!; [done|lia|lia|done].
  - exists h'. split; [done|].
    assert (Hx : forall p' i, p' <> length h -> next_of h' p' i =
              if decide ((i < N)%nat /\ pr i = p') then Ret (Some (length h))
              else next_of (h ++ [newSkipNode N key value]) p' i).
    { intros p' i Hp'. rewrite HNx by done.
      destruct (decide (_ /\ U !! i = _)) as [[Hi E]|Hni].
      - rewrite decide_True; [done|]. split; [lia|]. unfold pr. by rewrite E.
      - rewrite decide_False; [done|]. intros [Hi <-]. apply Hni. split; [lia|]. by apply Hpr. }
    assert (Hw : forall i, (i < N)%nat -> next_of h' (length h) i =
              next_of (h ++ [newSkipNode N key value]) (pr i) i)
      by (intros i Hi; apply HNw; [lia|by apply Hpr]).
    assert (Hpr' : forall i, (i < N)%nat -> is_pred h (l1 ++ l2) i (pr i) key)
      by (intros i Hi; by apply Hpr).
    split; [eapply (insert_new_inv h h' l1 l2 _ _ N key value pr)|
            eapply (insert_new_contents h h' l1 l2 _ _ N key value)]; eassumption.
Qed.

Lemma insert_ok draws key value sl es :
  Rep sl es ->
  exists sl', insert draws key value sl =
              Ret (sl', total_bytes (put_key key value es) - total_bytes es) /\
              Rep sl' (put_key key value es).
Proof.
  intros (ls & HI & -> & Hsz & Hb). unfold insert, walk_fuel.
  assert (Hasc : ascending (contents (sl_nodes sl) ls)) by apply contents_ascending, HI.
  rewrite total_bytes_delta by done.
  destruct (descend_from_head _ _ _ _ key HI) as (p & upd & -> & Hul & Hlow & Hhigh & Hp).
  cbn [mbind go_bind]. destruct (next_at_pred _ _ _ _ key p HI Hp) as [-> _]. cbn [mbind go_bind].
  set (h := sl_nodes sl) in *.
  destruct (insert_position h ls _ _ key p HI Hp) as [(q & n & -> & Hq & Hn & Hk)|[-> Hno]];
    cbn [mbind go_bind].
  - rewrite (find_key_contents h ls key q) by (apply HI || done).
    assert (nval h q = NValue n) as -> by (unfold nval; by rewrite Hn).
    eexists. split; [done|]. by apply insert_hit_rep.
  - rewrite (find_key_contents_None h ls key) by done.
    destruct (split_chain h ls key) as (l1 & l2 & -> & H1 & H2); [apply HI|done|].
    pose proof (randomLevel_bound (sl_maxLevel sl) draws (hi_max _ _ _ _ HI)) as HN.
    set (N := randomLevel (sl_maxLevel sl) draws) in *. fold (fill_update (sl_level sl) N upd).
    destruct (insert_new_ok h l1 l2 _ _ N key value upd HI HN Hul H1 H2 Hlow) as (h' & -> & Hinv & Hc).
    cbn [mbind go_bind]. eexists. split; [done|].
    exists (l1 ++ length h :: l2). cbn [sl_nodes sl_maxLevel sl_level sl_size sl_byteSize].
    split_and!; [|done| |].
    + replace (if (sl_level sl <? N)%nat then N else sl_level sl) with (Nat.max (sl_level sl) N)
        by (destruct (Nat.ltb_spec (sl_level sl) N); lia). done.
    + rewrite len_put_key, (find_key_contents_None h) by done. lia.
    + rewrite total_bytes_put, (find_key_contents_None h) by done. lia.
Qed.

Lemma new_rep M : (1 <= M)%nat -> Rep (newSkipList M) [].
Proof.
  intros HM. exists []. simpl. split_and!; [|done..]. constructor; simpl; try (done || lia).
  - unfold nheight. simpl. apply length_replicate.
  - set_solver.
  - constructor.
  - intros p i [->|Hp] Hi; [|set_solver]. unfold nheight in Hi. simpl in Hi.
    rewrite length_replicate in Hi. unfold next_of, deref. simpl.
    by rewrite lookup_replicate_2.
Qed.

(** ** Ordered traversal *)

(** The level-0 successor of a chain node is the next node of the chain. *)
Lemma next0_chain h M L l1 q l2 :
  heap_inv h (l1 ++ q :: l2) M L -> next_of h q 0 = Ret (List.hd_error l2).
Proof.
  intros HI. assert (Hq : q ∈ l1 ++ q :: l2) by set_solver.
  pose proof (hi_nodes _ _ _ _ HI q Hq) as (Hq0 & Hql & Hh).
  rewrite (hi_next _ _ _ _ HI q 0%nat (or_intror Hq)) by lia. f_equal.
  rewrite (lo_of_node h _ _ _ q HI Hq). unfold first. rewrite find_app. simpl.
  pose proof (hi_sorted _ _ _ _ HI) as Hc. apply contents_ascending in Hc. unfold contents in Hc.
  rewrite map_app in Hc. apply ascending_app_inv in Hc as (_ & Hc & Hab).
  simpl in Hc. apply ascending_cons_inv in Hc as [_ Hc].
  rewrite (find_None_in _ l1).
  2: { intros x Hx. unfold cand. simpl. rewrite (proj2 (bltb_ge _ _)); [apply andb_false_r|].
       apply blt_ble.
       apply (Hab (MkLogEntry (nkey h x) (nval h x)) (MkLogEntry (nkey h q) (nval h q)));
         [apply list_elem_of_fmap; by exists x|set_solver]. }
  unfold cand at 1. simpl. rewrite (proj2 (bltb_ge _ _)) by apply ble_refl. rewrite andb_false_r.
  destruct l2 as [|x l2]; [done|]. simpl.
  replace (cand h 0 (Some (nkey h q)) x) with true; [done|]. symmetry. apply cand_spec. split.
  - pose proof (hi_nodes _ _ _ _ HI x ltac:(set_solver)). lia.
  - simpl. apply bltb_lt. apply (Hc (MkLogEntry (nkey h x) (nval h x))).
    apply list_elem_of_fmap. exists x. split; [done|set_solver].
Qed.

Lemma chain_deref h M L l1 q l2 :
  heap_inv h (l1 ++ q :: l2) M L ->
  exists n, deref h q = Ret n /\ NKey n = nkey h q /\ NValue n = nval h q.
Proof.
  intros HI. destruct (deref_lt h q) as (n & Hn & E & Hk & Hv & _).
  - apply (hi_nodes _ _ _ _ HI q). set_solver.
  - by exists n.
Qed.

Lemma collect_from_ok h M L fuel l1 l2 :
  heap_inv h (l1 ++ l2) M L -> (length l2 <= fuel)%nat ->
  collect_from fuel h (List.hd_error l2) = Ret (contents h l2).
Proof.
  intros HI. revert l1 fuel HI. induction l2 as [|q l2 IH]; intros l1 fuel HI Hf; [by destruct fuel|].
  simpl in *. destruct fuel as [|fuel]; [lia|]. simpl.
  destruct (chain_deref _ _ _ _ _ _ HI) as (n & -> & Hk & Hv). cbn [mbind go_bind].
  rewrite (next0_chain _ _ _ _ _ _ HI). cbn [mbind go_bind].
  rewrite (cons_middle q l1 l2), app_assoc in HI. rewrite (IH (l1 ++ [q]) fuel HI) by lia.
  cbn [mbind go_bind]. by rewrite Hk, Hv.
Qed.

(** Entries of the tail of a chain at or below [hi]. *)
Definition upto (hi : bytes) (e : LogEntry) : bool := negb ((0 <? len hi) && bltb hi e.(Key)).

Lemma filter_upto_none hi es e :
  ascending (e :: es) -> upto hi e = false -> List.filter (upto hi) (e :: es) = [].
Proof.
  intros [_ Hl]%ascending_cons_inv He. apply filter_none. intros x [->|Hx]%elem_of_cons; [done|].
  unfold upto in *. apply negb_false_iff, andb_true_iff in He as [-> He]. bcmp.
  rewrite (proj2 (bltb_lt hi (Key x))); [done|]. eapply blt_trans; [exact He|by apply Hl].
Qed.

Lemma collect_until_ok h M L fuel hi l1 l2 :
  heap_inv h (l1 ++ l2) M L -> (length l2 <= fuel)%nat ->
  collect_until fuel h hi (List.hd_error l2) =
  Ret (map copy_entry (List.filter (upto hi) (contents h l2))).
Proof.
  intros HI. revert l1 fuel HI. induction l2 as [|q l2 IH]; intros l1 fuel HI Hf; [by destruct fuel|].
  simpl in Hf. destruct fuel as [|fuel]; [lia|]. cbn [collect_until List.hd_error].
  destruct (chain_deref _ _ _ _ _ _ HI) as (n & -> & Hk & Hv). cbn [mbind go_bind].
  assert (Hasc : ascending (contents h (q :: l2))).
  { pose proof (contents_ascending _ _ (hi_sorted _ _ _ _ HI)) as Hc. unfold contents in *.
    rewrite map_app in Hc. by apply ascending_app_inv in Hc as (_ & Hc & _). }
  destruct (_ && bltb hi (NKey n)) eqn:E.
  - change (contents h (q :: l2)) with (MkLogEntry (nkey h q) (nval h q) :: contents h l2) in *.
    rewrite filter_upto_none; [done|done|]. unfold upto. simpl. by rewrite <- Hk, E.
  - rewrite (next0_chain _ _ _ _ _ _ HI). cbn [mbind go_bind].
    rewrite (cons_middle q l1 l2), app_assoc in HI. rewrite (IH (l1 ++ [q]) fuel HI) by lia.
    simpl. unfold upto at 2. simpl. rewrite <- Hk, E. simpl. by rewrite Hv.
Qed.

Lemma firstGTE_ok sl ls key :
  heap_inv sl.(sl_nodes) ls sl.(sl_maxLevel) sl.(sl_level) ->
  exists l1 l2, ls = l1 ++ l2 /\ firstGTE sl key = Ret (List.hd_error l2) /\
    (forall x, x ∈ l1 -> blt (nkey sl.(sl_nodes) x) key) /\
    (forall x, x ∈ l2 -> ble key (nkey sl.(sl_nodes) x)).
Proof.
  intros HI. set (h := sl_nodes sl) in *.
  destruct (split_chain_ge h ls key) as (l1 & l2 & -> & H1 & H2); [apply HI|].
  exists l1, l2. split_and!; [done| |done|done]. unfold firstGTE, walk_fuel. fold h.
  destruct (descend_from_head _ _ _ _ key HI) as (p & upd & -> & _ & _ & _ & Hp).
  cbn [mbind go_bind]. destruct (next_at_pred _ _ _ _ key p HI Hp) as [-> F]. f_equal.
  destruct (first h (l1 ++ l2) 0 (lo_of h p)) as [q|], l2 as [|x l2]; simpl.
  - destruct F as (Hq & Hle & _). rewrite app_nil_r in Hq. specialize (H1 q Hq). border.
  - destruct F as (Hq & Hle & Hmin). f_equal.
    eapply (chain_key_inj h); [apply HI|done|set_solver|]. apply ble_antisym.
    + apply Hmin; [set_solver|]. apply H2. set_solver.
    + apply elem_of_app in Hq as [Hq|Hq]; [specialize (H1 q Hq); border|].
      pose proof (hi_sorted _ _ _ _ HI) as Hc. clear - Hc Hq.
      induction l1 as [|y l1 IH]; simpl in Hc; apply chain_cons_inv in Hc as [Hs Hl]; [|auto].
      apply elem_of_cons in Hq as [->|Hq]; [apply ble_refl|]. by apply blt_ble, Hl.
  - done.
  - specialize (F x ltac:(set_solver)). specialize (H2 x ltac:(set_solver)). border.
Qed.

Lemma collectRange_ok sl es lo hi :
  Rep sl es ->
  collectRange sl lo hi = Ret (map copy_entry (List.filter (fun e => in_range lo hi e.(Key)) es)).
Proof.
  intros (ls & HI & -> & _). unfold collectRange, walk_fuel.
  destruct (firstGTE_ok sl ls lo HI) as (l1 & l2 & -> & -> & H1 & H2). cbn [mbind go_bind].
  rewrite (collect_until_ok _ _ _ _ hi l1 l2 HI)
    by (pose proof (hi_fuel _ _ _ _ HI); rewrite length_app in *; lia).
  do 2 f_equal. set (h := sl_nodes sl) in *. unfold contents. rewrite map_app, List.filter_app.
  rewrite (filter_none _ (map _ l1)).
  - apply List.filter_ext_in. intros e He. apply list_elem_of_In, list_elem_of_fmap in He as (x & -> & Hx).
    unfold upto, in_range. simpl. rewrite (proj2 (bltb_ge _ _) (H2 x Hx)). simpl.
    destruct lo; destruct hi; done.
  - intros e (x & -> & Hx)%list_elem_of_fmap. unfold in_range. simpl.
    specialize (H1 x Hx). destruct lo as [|b lo]; [by apply blt_nil in H1|].
    by rewrite (proj2 (bltb_lt _ _) H1).
Qed.

Lemma collectAllEntry_ok sl es : Rep sl es -> collectAllEntry sl = Ret es.
Proof.
  intros (ls & HI & -> & _). unfold collectAllEntry, walk_fuel.
  rewrite (hi_next _ _ _ _ HI sl_head 0%nat (or_introl eq_refl))
    by (rewrite (hi_head _ _ _ _ HI); apply HI).
  cbn [mbind go_bind].
  replace (first (sl_nodes sl) ls 0 (lo_of (sl_nodes sl) sl_head)) with (List.hd_error ls).
  - apply (collect_from_ok _ _ _ _ [] ls HI). pose proof (hi_fuel _ _ _ _ HI). lia.
  - destruct ls as [|x ls]; [done|]. unfold first, lo_of. simpl.
    replace (cand (sl_nodes sl) 0 None x) with true; [done|]. symmetry. apply cand_spec.
    split; [|done]. pose proof (hi_nodes _ _ _ _ HI x ltac:(set_solver)). lia.
Qed.

Lemma Rep_ascending sl es : Rep sl es -> ascending es.
Proof. intros (ls & HI & -> & _). apply contents_ascending, HI. Qed.

#[export] Instance skip_table : OrderedTable SkipList := {
  t_new := newSkipList; t_insert := insert; t_search := search; t_all := collectAllEntry;
  t_range := collectRange; t_size := sl_size; t_bytes := sl_byteSize; t_rep := Rep;
  t_rep_ascending := Rep_ascending; t_new_rep := new_rep; t_insert_rep := insert_ok;
  t_search_rep := search_ok; t_all_rep := collectAllEntry_ok; t_range_rep := collectRange_ok;
  t_size_rep := ltac:(by intros sl es (ls & _ & _ & H & _));
  t_bytes_rep := ltac:(by intros sl es (ls & _ & _ & _ & H)) }.

(** A history of insertions, each with its level draws. *)
Fixpoint insert_all (ops : list (list bool * LogEntry)) (sl : SkipList) : go SkipList :=
  match ops with
  | [] => Ret sl
  | (draws, e) :: ops => '(sl, _) ← insert draws e.(Key) e.(Value) sl; insert_all ops sl
  end.
Definition put_all (es : list LogEntry) (acc : list LogEntry) : list LogEntry :=
  fold_left (fun acc e => put_key e.(Key) e.(Value) acc) es acc.

Lemma insert_all_ok ops sl es :
  Rep sl es -> exists sl', insert_all ops sl = Ret sl' /\ Rep sl' (put_all (map snd ops) es).
Proof.
  revert sl es. induction ops as [|[draws e] ops IH]; intros sl es HR; simpl; [by exists sl|].
  destruct (insert_ok draws (Key e) (Value e) sl es HR) as (sl' & -> & HR'). by apply IH.
Qed.

(** C13: The skip list refines an ordered map.  After any sequence of
    insertions with any random levels, on the pointer structure: nothing
    panics; point search, full traversal and range collection return what the
    ascending list of last-written entries gives; [size] and [byteSize] are
    its entry count and byte count. *)
Theorem skiplist_refines_map M ops :
  (1 <= M)%nat ->
  let es := put_all (map snd ops) [] in
  exists sl, insert_all ops (newSkipList M) = Ret sl /\ ascending es /\
    (forall k, search sl k = Ret (find_key k es)) /\
    collectAllEntry sl = Ret es /\
    (forall lo hi, collectRange sl lo hi =
       Ret (map copy_entry (List.filter (fun e => in_range lo hi e.(Key)) es))) /\
    sl.(sl_size) = len es /\ sl.(sl_byteSize) = total_bytes es.
Proof.
  intros HM es. destruct (insert_all_ok ops _ _ (new_rep M HM)) as (sl & E & HR).
  exists sl. split_and!; [done|by eapply Rep_ascending| | | | |].
  - intros k. by apply search_ok.
  - by apply collectAllEntry_ok.
  - intros lo hi. by apply collectRange_ok.
  - by destruct HR as (ls & _ & _ & H & _).
  - by destruct HR as (ls & _ & _ & _ & H).
Qed.

Definition demo_ops : list (list bool * LogEntry) :=
  [([true; false], MkLogEntry (str "b") (Some (str "1"))); ([], MkLogEntry (str "a") None);
   ([true; true], MkLogEntry (str "c") (Some [])); ([], MkLogEntry (str "b") (Some (str "22")))].

Lemma skiplist_refines_map_witness :
  let es := put_all (map snd demo_ops) [] in
  es = [MkLogEntry (str "a") None; MkLogEntry (str "b") (Some (str "22")); MkLogEntry (str "c") (Some [])] /\
  exists sl, insert_all demo_ops (newSkipList 4) = Ret sl /\ ascending es /\
    (forall k, search sl k = Ret (find_key k es)) /\ collectAllEntry sl = Ret es /\
    (forall lo hi, collectRange sl lo hi =
       Ret (map copy_entry (List.filter (fun e => in_range lo hi e.(Key)) es))) /\
    sl.(sl_size) = len es /\ sl.(sl_byteSize) = total_bytes es.
Proof.
  split; [vm_compute; reflexivity|]. apply (skiplist_refines_map 4 demo_ops). lia.
Defined.

(** [delete] unlinks the node and decrements [size] but leaves
    [byteSize]: after inserting one entry and deleting it the list is empty
    and [byteSize] still counts the entry. *)
Theorem delete_keeps_byteSize :
  exists sl sl', insert [] (str "k") (Some (str "vv")) (newSkipList 4) = Ret (sl, 3) /\
    delete (str "k") sl = Ret (sl', true) /\ collectAllEntry sl' = Ret [] /\
    sl'.(sl_size) = 0 /\ sl'.(sl_level) = 0%nat /\ sl'.(sl_byteSize) = 3.
Proof. do 2 eexists. split_and!; vm_compute; reflexivity. Qed.

End Skip.
