(* ===== verification/Credit.v ===== *)
(** * The byte credit pool ([internal/credit/credit.go])

    Back-pressure for writers: [Acquire] blocks while the budget is exhausted,
    [Release] returns credit and wakes every waiter.  The pool is a record of
    64-bit integers; goroutines blocked in [cond.Wait] are an explicit list, and
    a release re-runs the test of each of them in an arbitrary order. *)
From S2P Require Import Prelude.

Module Credit.

Record Pool := MkPool { budget : Z; used : Z }.

Definition New (budget : Z) : Pool := MkPool budget 0.

(** Additions are on [int64]. *)
Definition fits (p : Pool) (n : Z) : bool :=
  (p.(budget) <=? 0) || (p.(used) =? 0) || (s64 (p.(used) + n) <=? p.(budget)).

Definition take_credit (p : Pool) (n : Z) : Pool := MkPool p.(budget) (s64 (p.(used) + n)).

Definition TryAcquire (p : Pool) (n : Z) : Pool * bool :=
  if fits p n then (take_credit p n, true) else (p, false).

(** [None]: the caller waits on the condition variable. *)
Definition Acquire (p : Pool) (n : Z) : option Pool :=
  if fits p n then Some (take_credit p n) else None.

Definition Release (p : Pool) (n : Z) : Pool :=
  let u := s64 (p.(used) - n) in
  MkPool p.(budget) (if u <? 0 then 0 else u).

Definition Used (p : Pool) : Z := p.(used).

(** Pool with its blocked [Acquire] callers. *)
Record sys := MkSys { pool : Pool; waiting : list Z }.

(** Woken waiters take the lock one after another and repeat their test. *)
Fixpoint wake (p : Pool) (ws : list Z) : sys :=
  match ws with
  | [] => MkSys p []
  | n :: ws =>
      match Acquire p n with
      | Some p => wake p ws
      | None => let s := wake p ws in MkSys s.(pool) (n :: s.(waiting))
      end
  end.

(** One action of any goroutine, credits being at most [N] each. *)
Inductive step (N : Z) (s : sys) : sys -> Prop :=
| step_try n : 0 <= n <= N ->
    step N s (MkSys (TryAcquire s.(pool) n).1 s.(waiting))
| step_acquire n p : 0 <= n <= N -> Acquire s.(pool) n = Some p ->
    step N s (MkSys p s.(waiting))
| step_block n : 0 <= n <= N -> Acquire s.(pool) n = None ->
    step N s (MkSys s.(pool) (s.(waiting) ++ [n]))
| step_release n order : 0 <= n <= N -> order ≡ₚ s.(waiting) ->
    step N s (wake (Release s.(pool) n) order).

(** ** Accounting within range *)
Section Range.
Context (b N : Z) (Hb : 0 < b) (HN : 0 <= N) (Hmax : Z.max b N + N < 2 ^ 63).

(** Credit in use never exceeds the budget, one oversized request aside; a
    blocked caller really does not fit. *)
Definition pool_ok (p : Pool) : Prop := p.(budget) = b /\ 0 <= p.(used) <= Z.max b N.
Definition blocked_ok (p : Pool) (n : Z) : Prop := 0 <= n <= N /\ fits p n = false.
Definition sys_ok (s : sys) : Prop := pool_ok s.(pool) /\ Forall (blocked_ok s.(pool)) s.(waiting).

Lemma fits_spec p n : pool_ok p -> 0 <= n <= N ->
  fits p n = (p.(used) =? 0) || (p.(used) + n <=? b).
Proof.
  intros [Hp Hu] Hn. unfold fits. rewrite Hp, s64_small by (unfold is_s64; lia).
  replace (b <=? 0) with false by lia. done.
Qed.

Lemma take_ok p n : pool_ok p -> 0 <= n <= N -> fits p n = true ->
  pool_ok (take_credit p n) /\ (take_credit p n).(used) = p.(used) + n.
Proof.
  intros Hp Hn Hf. pose proof Hp as [Hp1 Hp2]. rewrite fits_spec in Hf by done.
  unfold take_credit. simpl. rewrite s64_small by (unfold is_s64; lia).
  split; [split; [done|]|done]. simpl.
  apply orb_true_iff in Hf as [Hf|Hf]; lia.
Qed.

(** Blocking is stable under growth of [used]. *)
Lemma blocked_mono p p' n : pool_ok p -> pool_ok p' -> p.(used) <= p'.(used) ->
  blocked_ok p n -> blocked_ok p' n.
Proof.
  intros Hp Hp' Hle [Hn Hf]. split; [done|]. rewrite fits_spec in * by done.
  destruct Hp as [_ ?]. apply orb_false_iff in Hf as [H1 H2]. apply orb_false_iff. lia.
Qed.

Lemma Forall_blocked_mono p p' ws : pool_ok p -> pool_ok p' -> p.(used) <= p'.(used) ->
  Forall (blocked_ok p) ws -> Forall (blocked_ok p') ws.
Proof. intros Hp Hp' Hle H. eapply Forall_impl; [exact H|]. intros n. by apply blocked_mono. Qed.

Lemma Release_ok p n : pool_ok p -> 0 <= n <= N ->
  pool_ok (Release p n) /\ (Release p n).(used) = Z.max 0 (p.(used) - n).
Proof.
  intros [Hp Hu] Hn. unfold Release, pool_ok. simpl. rewrite s64_small by (unfold is_s64; lia).
  destruct (Z.ltb_spec (used p - n) 0); lia.
Qed.

Lemma wake_ok p ws : pool_ok p -> Forall (fun n => 0 <= n <= N) ws ->
  sys_ok (wake p ws) /\ p.(used) <= (wake p ws).(pool).(used).
Proof.
  intros Hp Hws. revert p Hp. induction Hws as [|n ws Hn Hws IH]; intros p Hp; simpl.
  - split; [|lia]. split; [done|constructor].
  - unfold Acquire. destruct (fits p n) eqn:Hf.
    + destruct (take_ok p n Hp Hn Hf) as [Hp' Hu']. destruct (IH _ Hp') as [Hs Hle].
      split; [done|lia].
    + destruct (IH p Hp) as [[Hs1 Hs2] Hle]. split; [|done]. split; [done|]. simpl.
      constructor; [|done]. by apply (blocked_mono p).
Qed.

Lemma step_sys_ok s s' : sys_ok s -> step N s s' -> sys_ok s'.
Proof.
  intros [Hp Hw] Hs. destruct Hs as [n Hn|n p' Hn Ha|n Hn Ha|n order Hn Ho]; simpl.
  - unfold TryAcquire. destruct (fits (pool s) n) eqn:Hf; simpl; [|by split].
    destruct (take_ok _ n Hp Hn Hf) as [Hp' Hu']. split; [done|].
    eapply Forall_blocked_mono; [exact Hp|done| |done]. simpl in *; lia.
  - unfold Acquire in Ha. destruct (fits (pool s) n) eqn:Hf; [|done]. injection Ha as <-.
    destruct (take_ok _ n Hp Hn Hf) as [Hp' Hu']. split; [done|].
    eapply Forall_blocked_mono; [exact Hp|done| |done]. simpl in *; lia.
  - unfold Acquire in Ha. destruct (fits (pool s) n) eqn:Hf; [done|].
    split; [done|]. apply Forall_app. split; [done|]. by constructor.
  - apply wake_ok; [by apply Release_ok|]. rewrite Ho.
    eapply Forall_impl; [exact Hw|]. by intros m [? _].
Qed.

Lemma reachable_ok s : rtc (step N) (MkSys (New b) []) s -> sys_ok s.
Proof.
  intros H. apply (rtc_ind_r (R := step N) sys_ok (MkSys (New b) [])); [| |done].
  - split; [split; simpl; [done|lia]|constructor].
  - intros y z _ Hyz Hy. by eapply step_sys_ok.
Qed.
End Range.

(** C15: Back-pressure bound and absence of lost wake-ups.  With a positive
    budget and requests of at most [N] bytes, in every state reachable by any
    interleaving of tries, acquisitions, blocked callers and releases (waiters
    waking in any order) the credit in use is between 0 and the larger of the
    budget and one request, and every caller still blocked does not fit: no
    waiter sleeps while its credit is available. *)
Theorem credit_bounded_no_lost_wakeup b N s :
  0 < b -> 0 <= N -> Z.max b N + N < 2 ^ 63 ->
  rtc (step N) (MkSys (New b) []) s ->
  0 <= Used s.(pool) <= Z.max b N /\ forall n, n ∈ s.(waiting) -> fits s.(pool) n = false.
Proof.
  intros Hb HN Hmax Hr. destruct (reachable_ok b N Hb HN Hmax s Hr) as [[_ Hu] Hw].
  split; [done|]. intros n Hn. rewrite Forall_forall in Hw. by apply Hw.
Qed.

Lemma credit_bounded_no_lost_wakeup_witness :
  let s := MkSys (MkPool 10 8) [5] in
  0 <= Used s.(pool) <= Z.max 10 20 /\ forall n, n ∈ s.(waiting) -> fits s.(pool) n = false.
Proof.
  apply (credit_bounded_no_lost_wakeup 10 20); [lia|lia|lia|].
  apply rtc_l with (y := MkSys (MkPool 10 8) []).
  - apply (step_try 20 (MkSys (New 10) []) 8). lia.
  - apply rtc_once. apply (step_block 20 (MkSys (MkPool 10 8) []) 5); [lia|reflexivity].
Defined.

(** Liveness of the empty pool: whatever its size, a request on a pool
    with no credit in use is granted at once, so a record larger than the whole
    budget cannot block forever; with the budget off nothing ever blocks. *)
Theorem credit_empty_grants p n :
  Used p = 0 \/ p.(budget) <= 0 ->
  Acquire p n = Some (MkPool p.(budget) (s64 (p.(used) + n))) /\ (TryAcquire p n).2 = true.
Proof.
  intros H. assert (fits p n = true) as Hf.
  { unfold fits. destruct H as [H|H]; [unfold Used in H|]; lia. }
  unfold Acquire, TryAcquire. rewrite Hf. done.
Qed.

Lemma credit_empty_grants_witness :
  Acquire (New 100) 1000000 = Some (MkPool 100 1000000) /\ (TryAcquire (New 100) 1000000).2 = true.
Proof. apply (credit_empty_grants (New 100) 1000000). left. reflexivity. Defined.

End Credit.
