(* ===== verification/Wal.v ===== *)
(** * The storage write-ahead log ([storage/wal.go])

    Record codec, group commit, atomic rewrite and replay.  The log file is its
    byte content together with the length known to be on stable storage; a
    crash keeps at least the stable part and any prefix of what was written
    after it.  Write and sync outcomes are explicit inputs, so short writes and
    failed syncs are part of the model. *)
From S2P Require Import Prelude Bytes Entries.

Definition WALOpPut : Z := 1.
Definition WALOpDelete : Z := 2.
Definition walMaxBatch : nat := 256.

Record WALRecord := MkRec { ROp : Z; RKey : bytes; RValue : option bytes }.

#[export] Instance WALRecord_eq_dec : EqDecision WALRecord.
Proof. solve_decision. Defined.

Module Wal.

(** ** Records *)
Definition encodeRecord (op : Z) (key : bytes) (value : option bytes) : bytes :=
  [byte.of_Z op] ++ put_be 4 (u32 (len key)) ++ put_be 4 (u32 (vlen value)) ++ key ++ default [] value.

Definition encode (r : WALRecord) : bytes := encodeRecord r.(ROp) r.(RKey) r.(RValue).
Definition encode_all (rs : list WALRecord) : bytes := concat (map encode rs).
#[global] Arguments encode_all : simpl never.

(** One round of the replay loop: [None] when a read comes up short. *)
Definition read_record (r : bytes) : option (WALRecord * bytes) :=
  if len r <? 9 then None
  else
    let hdr := take 9 r in
    let r := drop 9 r in
    let op := get_be (take 1 hdr) in
    let klen := get_be (take 4 (drop 1 hdr)) in
    let vlen := get_be (take 4 (drop 5 hdr)) in
    if len r <? klen then None
    else
      let key := take (Z.to_nat klen) r in
      let r := drop (Z.to_nat klen) r in
      if 0 <? vlen then
        if len r <? vlen then None
        else Some (MkRec op key (Some (take (Z.to_nat vlen) r)), drop (Z.to_nat vlen) r)
      else Some (MkRec op key None, r).

(** [Replay]: stops silently at a short read, propagates the callback's error.
    [fuel] bounds the number of records; every record is at least 9 bytes. *)
Fixpoint replay_loop {S E} (fn : S -> WALRecord -> result E S) (fuel : nat) (r : bytes) (s : S)
    : result E S :=
  match fuel with
  | O => Ok s
  | Datatypes.S fuel =>
      match read_record r with
      | None => Ok s
      | Some (rec, r) =>
          s ← fn s rec;
          replay_loop fn fuel r s
      end
  end.

(** [None] is a missing file. *)
Definition Replay {S E} (fn : S -> WALRecord -> result E S) (file : option bytes) (s : S)
    : result E S :=
  match file with
  | None => Ok s
  | Some f => replay_loop fn (length f) f s
  end.

(** The records a replay delivers. *)
Definition replayed (file : bytes) : list WALRecord :=
  match Replay (E := False) (fun acc r => Ok (acc ++ [r])) (Some file) [] with
  | Ok rs => rs
  | Err e => match e with end
  end.

(** ** The open log file

    [content] is what the open file holds, [stable] how much of it is known to
    be on stable storage, [opened] whether the handle is usable, [stale] the
    contents and stable lengths of earlier inodes the directory entry may still name after a crash
    (a rename whose directory sync failed). *)
Record log_file := MkLog { content : bytes; stable : nat; opened : bool; stale : list (bytes * nat) }.

(** [NewWAL] on an existing or new file: open for append, nothing truncated. *)
Definition NewWAL (file : option bytes) : log_file :=
  let f := default [] file in MkLog f (length f) true [].

(** Outcome of one [file.Write]: success, or an error after [n] bytes. *)
Notation write_outcome := (option nat).

(** A write on a closed handle fails without effect. *)
Definition writeRecord (o : write_outcome) (r : WALRecord) (w : log_file) : log_file * bool :=
  if w.(opened) then
    match o with
    | None => (MkLog (w.(content) ++ encode r) w.(stable) true w.(stale), true)
    | Some n => (MkLog (w.(content) ++ take n (encode r)) w.(stable) true w.(stale), false)
    end
  else (w, false).

(** [commit]: write the batch in order, stop writing at the first error, sync
    once, report one result to the whole batch.  [outs] lists the outcomes of
    the writes (success once exhausted). *)
Fixpoint write_batch (outs : list write_outcome) (batch : list WALRecord) (w : log_file)
    : log_file * bool :=
  match batch with
  | [] => (w, true)
  | r :: batch =>
      let '(w, ok) := writeRecord (mjoin (List.hd_error outs)) r w in
      if ok then write_batch (List.tl outs) batch w else (w, false)
  end.

Definition sync (w : log_file) : log_file :=
  MkLog w.(content) (length w.(content)) w.(opened) w.(stale).

Definition commit (outs : list write_outcome) (sync_ok : bool) (batch : list WALRecord)
    (w : log_file) : log_file * bool :=
  let '(w, ok) := write_batch outs batch w in
  if ok then if sync_ok then (sync w, true) else (w, false) else (w, false).

(** [drainInto]: at most [walMaxBatch] of the queued requests, [n] of them being
    ready when the loop polls. *)
Definition drainInto (n : nat) (queue : list WALRecord) : list WALRecord * list WALRecord :=
  let n := Nat.min n walMaxBatch in (take n queue, drop n queue).

(** What a crash may leave: the stable part and any prefix of the rest, or a
    file the directory still names. *)
Definition crash_image (w : log_file) (f : bytes) : Prop :=
  exists c k n, (c, k) ∈ (w.(content), w.(stable)) :: w.(stale) /\ (k <= n)%nat /\ f = take n c.

(** [doRewrite]: the records are written and synced to a temporary file which
    is then renamed over the log, reopened, and the directory synced.  The
    outcome says which of these steps failed. *)
Inductive rewrite_outcome :=
| TmpFails      (* open, write, sync, close or rename of the temporary file *)
| ReopenFails   (* renamed; the new file could not be opened *)
| DirSyncFails  (* renamed and reopened; [fsyncDir] failed *)
| RewriteOk.

Definition doRewrite (o : rewrite_outcome) (records : list WALRecord) (w : log_file)
    : log_file * bool :=
  let fresh := encode_all records in
  let before := (w.(content), w.(stable)) :: w.(stale) in
  match o with
  | TmpFails => (w, false)
  | ReopenFails => (MkLog fresh (length fresh) false before, false)
  | DirSyncFails => (MkLog fresh (length fresh) true before, false)
  | RewriteOk => (MkLog fresh (length fresh) true [], true)
  end.

(** ** The WAL process: blocked [Append] callers, the flush loop, answers *)
Record wal := MkWal {
  log : log_file;
  pending : list WALRecord;              (* callers blocked in [w.reqCh <- req] *)
  answers : list (WALRecord * bool);     (* what [<-req.done] returned, in order *)
  running : bool;                        (* [flushLoop] has not exited *)
  acked : list WALRecord                 (* ghost: the contents of the last successful rewrite,
                                            then the records acknowledged since *)
}.

Inductive event :=
| EvAppend (r : WALRecord)
| EvFlush (n : nat) (outs : list write_outcome) (sync_ok : bool)
| EvRewrite (o : rewrite_outcome) (records : list WALRecord)
| EvClose (n : nat) (outs : list write_outcome) (sync_ok : bool).

(** One drained batch is committed and every member gets the batch's result. *)
Definition flush_batch (n : nat) (outs : list write_outcome) (sync_ok : bool) (s : wal) : wal :=
  let '(batch, rest) := drainInto n s.(pending) in
  match batch with
  | [] => s
  | _ =>
      let '(w, ok) := commit outs sync_ok batch s.(log) in
      MkWal w rest (s.(answers) ++ map (fun r => (r, ok)) batch) s.(running)
        (if ok then s.(acked) ++ batch else s.(acked))
  end.

Definition exec (e : event) (s : wal) : wal :=
  match e with
  | EvAppend r => MkWal s.(log) (s.(pending) ++ [r]) s.(answers) s.(running) s.(acked)
  | EvFlush n outs sync_ok => if s.(running) then flush_batch n outs sync_ok s else s
  | EvRewrite o rs =>
      if s.(running) then
        let '(w, ok) := doRewrite o rs s.(log) in
        MkWal w s.(pending) s.(answers) true (if ok then rs else s.(acked))
      else s
  | EvClose n outs sync_ok =>
      if s.(running) then
        let s := flush_batch n outs sync_ok s in MkWal s.(log) s.(pending) s.(answers) false s.(acked)
      else s
  end.

Definition exec_all (es : list event) (s : wal) : wal := fold_left (fun s e => exec e s) es s.

(** A process opened on a file, [old] being the records it must keep. *)
Definition start (file : option bytes) (old : list WALRecord) : wal :=
  MkWal (NewWAL file) [] [] true old.

(** ** Codec *)
Definition rec_ok (r : WALRecord) : Prop :=
  0 <= r.(ROp) < 256 /\ len r.(RKey) < 2 ^ 32 /\ vlen r.(RValue) < 2 ^ 32.

(** Replay restores an empty value as [nil]. *)
Definition norm (r : WALRecord) : WALRecord :=
  MkRec r.(ROp) r.(RKey) match r.(RValue) with Some [] => None | v => v end.

Lemma get_be_byte op : 0 <= op < 256 -> get_be [byte.of_Z op] = op.
Proof.
  intros H. unfold get_be. simpl. rewrite LittleEndianList.le_combine_1, byte.unsigned_of_Z.
  unfold byte.wrap. by apply Z.mod_small.
Qed.

Lemma vlen_nonneg v : 0 <= vlen v.
Proof. destruct v; simpl; len_lia. Qed.

Lemma vlen_default v : len (default [] v) = vlen v.
Proof. by destruct v. Qed.

Lemma len_encode r : len (encode r) = 9 + len r.(RKey) + vlen r.(RValue).
Proof. unfold encode, encodeRecord. rewrite <- vlen_default. len_lia. Qed.

Definition header (r : WALRecord) : bytes :=
  [byte.of_Z r.(ROp)] ++ put_be 4 (u32 (len r.(RKey))) ++ put_be 4 (u32 (vlen r.(RValue))).

Lemma encode_header r : encode r = header r ++ r.(RKey) ++ default [] r.(RValue).
Proof. unfold encode, encodeRecord, header. by rewrite <- !app_assoc. Qed.

Lemma length_header r : length (header r) = 9%nat.
Proof. unfold header. by rewrite !length_app, !length_put_be. Qed.

Lemma len_header r : len (header r) = 9.
Proof. unfold len. by rewrite length_header. Qed.

Lemma header_fields r :
  rec_ok r ->
  get_be (take 1 (header r)) = r.(ROp) /\
  get_be (take 4 (drop 1 (header r))) = len r.(RKey) /\
  get_be (take 4 (drop 5 (header r))) = vlen r.(RValue).
Proof.
  intros (Ho & Hk & Hv). unfold header. pose proof (vlen_nonneg (RValue r)).
  split_and!.
  - rewrite take_app_length'. 2: done. by apply get_be_byte.
  - rewrite (drop_app_length' [_]), take_app_length' by (done || by rewrite length_put_be).
    rewrite u32_small, get_put_be by (split; len_lia). apply Z.mod_small. len_lia.
  - rewrite app_assoc, drop_app_length' by (rewrite length_app, length_put_be; done).
    rewrite take_ge by (rewrite length_put_be; lia).
    rewrite u32_small, get_put_be by (split; lia). apply Z.mod_small.
    change (2 ^ (8 * Z.of_nat 4)) with (2 ^ 32). lia.
Qed.

(** ** Reading back what was written *)
Lemma length_encode r : length (encode r) = (9 + length r.(RKey) + length (default [] r.(RValue)))%nat.
Proof. rewrite encode_header, !length_app, length_header. lia. Qed.

Lemma read_record_header r rest :
  rec_ok r ->
  read_record (header r ++ rest) =
    if len rest <? len r.(RKey) then None
    else
      let rest' := drop (length r.(RKey)) rest in
      if 0 <? vlen r.(RValue) then
        if len rest' <? vlen r.(RValue) then None
        else Some (MkRec r.(ROp) (take (length r.(RKey)) rest) (Some (take (Z.to_nat (vlen r.(RValue))) rest')),
                   drop (Z.to_nat (vlen r.(RValue))) rest')
      else Some (MkRec r.(ROp) (take (length r.(RKey)) rest) None, rest').
Proof.
  intros (Ho & Hk & Hv)%header_fields. unfold read_record.
  rewrite take_app_length', drop_app_length' by (symmetry; apply length_header).
  rewrite Ho, Hk, Hv.
  replace (len (header r ++ rest) <? 9) with false
    by (rewrite len_app, len_header; len_lia).
  replace (Z.to_nat (len (RKey r))) with (length (RKey r)) by (unfold len; lia). done.
Qed.

Lemma vlen_to_nat v : Z.to_nat (vlen v) = length (default [] v).
Proof. rewrite <- vlen_default. unfold len. lia. Qed.

(** Encoding then decoding a record returns it, up to [norm], with the rest. *)
Lemma read_encode r rest : rec_ok r -> read_record (encode r ++ rest) = Some (norm r, rest).
Proof.
  intros H. rewrite encode_header, <- !app_assoc, read_record_header by done.
  replace (_ <? _) with false by len_lia. cbv zeta.
  rewrite take_app_length, drop_app_length, !vlen_to_nat, take_app_length, drop_app_length.
  unfold norm. destruct (RValue r) as [[|b v]|]; simpl.
  - done.
  - replace (_ <? _) with false by len_lia. done.
  - done.
Qed.

(** A record cut short is not delivered. *)
Lemma read_torn r n : rec_ok r -> (n < length (encode r))%nat -> read_record (take n (encode r)) = None.
Proof.
  intros H Hn. rewrite length_encode in Hn. rewrite encode_header.
  destruct (decide (n < 9)%nat) as [L|L].
  { unfold read_record. rewrite (proj2 (Z.ltb_lt _ 9)); [done|]. unfold len. rewrite length_take. lia. }
  rewrite take_app_ge, length_header by (rewrite length_header; lia).
  rewrite read_record_header by done.
  destruct (_ <? len (RKey r)) eqn:K; [done|]. cbv zeta. apply Z.ltb_ge in K. unfold len in K.
  rewrite length_take, length_app in K.
  destruct (RValue r) as [v|]; simpl in *; [|lia].
  rewrite (proj2 (Z.ltb_lt 0 (len v))) by (unfold len; lia).
  rewrite (proj2 (Z.ltb_lt _ (len v))); [done|].
  unfold len. rewrite length_drop, length_take, length_app. lia.
Qed.

Lemma encode_all_app a b : encode_all (a ++ b) = encode_all a ++ encode_all b.
Proof. unfold encode_all. by rewrite map_app, concat_app. Qed.

Lemma encode_all_cons r ws : encode_all (r :: ws) = encode r ++ encode_all ws.
Proof. done. Qed.

(** Any cut of a log is some whole records and a torn tail. *)
Lemma take_encode_all ws n :
  Forall rec_ok ws ->
  exists j t, take n (encode_all ws) = encode_all (take j ws) ++ t /\ read_record t = None /\
    (j <= length ws)%nat /\
    forall k, (length (encode_all (take k ws)) <= n)%nat -> (k <= length ws)%nat -> (k <= j)%nat.
Proof.
  intros H. revert n. induction H as [|r ws Hr Hws IH]; intros n.
  - exists O, []. change (encode_all []) with (@nil byte). rewrite take_nil. split_and!; [done|done|lia|].
    intros k _ Hk. simpl in Hk. lia.
  - rewrite encode_all_cons. destruct (decide (n < length (encode r))%nat) as [L|L].
    + exists O, (take n (encode r)). rewrite take_app_le by lia.
      split_and!; [done|by apply read_torn|simpl; lia|].
      intros [|k] Hk _; [lia|]. cbn [take] in Hk. rewrite encode_all_cons, length_app in Hk. lia.
    + destruct (IH (n - length (encode r))%nat) as (j & t & E & Ht & Hj & Hm).
      exists (S j), t. rewrite take_app_ge, E by lia. cbn [take length]. rewrite encode_all_cons, app_assoc.
      split_and!; [done|done|lia|].
      intros [|k] Hk Hl; [lia|]. cbn [take length] in *. rewrite encode_all_cons, length_app in Hk.
      apply le_n_S, Hm; lia.
Qed.

Lemma encode_all_fuel ws : (length ws <= length (encode_all ws))%nat.
Proof.
  induction ws as [|r ws IH]; [simpl; lia|].
  rewrite encode_all_cons, length_app, length_encode. cbn [length]. lia.
Qed.

(** Replay of whole records followed by an unreadable tail: every record is
    delivered, in order, and the fuel suffices. *)
Lemma replay_loop_all {S E} (fn : S -> WALRecord -> result E S) fuel ws t s :
  Forall rec_ok ws -> read_record t = None -> (length ws <= fuel)%nat ->
  replay_loop fn fuel (encode_all ws ++ t) s =
  fold_left (fun acc r => mbind (fun s => fn s r) acc) (map norm ws) (Ok s).
Proof.
  intros H Ht. revert fuel s. induction H as [|r ws Hr Hws IH]; intros fuel s Hf; cbn [length] in Hf.
  - destruct fuel; simpl; [done|]. by rewrite Ht.
  - destruct fuel as [|fuel]; [lia|].
    rewrite encode_all_cons, <- app_assoc. cbn [replay_loop]. rewrite read_encode by done. simpl.
    destruct (fn s (norm r)) as [s'|e] eqn:F; simpl.
    + rewrite IH by (done || lia). done.
    + clear. induction (map norm ws); simpl; done.
Qed.

Lemma fold_ok_snoc ws acc :
  fold_left (fun (a : result False (list WALRecord)) r => mbind (fun s => Ok (s ++ [r])) a) ws (Ok acc)
  = Ok (acc ++ ws).
Proof.
  revert acc. induction ws as [|r ws IH]; intros acc; simpl; [by rewrite app_nil_r|].
  rewrite IH, <- app_assoc. done.
Qed.

Lemma Replay_whole {S E} (fn : S -> WALRecord -> result E S) ws t s :
  Forall rec_ok ws -> read_record t = None ->
  Replay fn (Some (encode_all ws ++ t)) s =
  fold_left (fun acc r => mbind (fun s => fn s r) acc) (map norm ws) (Ok s).
Proof.
  intros H Ht. apply replay_loop_all; [done|done|].
  rewrite length_app. pose proof (encode_all_fuel ws). lia.
Qed.

Lemma replayed_whole ws t :
  Forall rec_ok ws -> read_record t = None -> replayed (encode_all ws ++ t) = map norm ws.
Proof. intros H Ht. unfold replayed. by rewrite (Replay_whole _ ws t), fold_ok_snoc. Qed.

(** Replaying any cut of a log delivers a prefix of its records that includes
    everything before the cut. *)
Lemma replayed_cut ws n :
  Forall rec_ok ws ->
  exists j, (j <= length ws)%nat /\ replayed (take n (encode_all ws)) = map norm (take j ws) /\
    forall k, (length (encode_all (take k ws)) <= n)%nat -> (k <= length ws)%nat -> (k <= j)%nat.
Proof.
  intros H. destruct (take_encode_all ws n H) as (j & t & -> & Ht & Hj & Hk).
  exists j. split_and!; [done| |done]. apply replayed_whole; [by apply Forall_take|done].
Qed.

(** ** Durability of the process *)

(** No write stops part-way through a record, no rename is left unsynced. *)
Definition clean (e : event) : Prop :=
  match e with
  | EvAppend r => rec_ok r
  | EvFlush _ outs _ | EvClose _ outs _ => Forall (fun o => o = None \/ o = Some O) outs
  | EvRewrite o rs => Forall rec_ok rs /\ (o = TmpFails \/ o = RewriteOk)
  end.

(** The records ever handed to the log. *)
Definition submitted (es : list event) : list WALRecord :=
  concat (map (fun e => match e with EvAppend r => [r] | EvRewrite _ rs => rs | _ => [] end) es).

Record wal_inv (sub : list WALRecord) (s : wal) (ws : list WALRecord) (k : nat) : Prop := MkInv {
  inv_content : s.(log).(content) = encode_all ws;
  inv_stable : s.(log).(stable) = length (encode_all (take k ws));
  inv_k : (k <= length ws)%nat;
  inv_open : s.(log).(opened) = true;
  inv_stale : s.(log).(stale) = [];
  inv_ok : Forall rec_ok ws;
  inv_pending : Forall rec_ok s.(pending);
  inv_acked : s.(acked) `sublist_of` take k ws;
  inv_sub : ws ⊆ sub /\ s.(pending) ⊆ sub
}.

Lemma write_batch_clean batch outs w :
  w.(opened) = true -> Forall (fun o => o = None \/ o = Some O) outs ->
  exists j, (write_batch outs batch w).1 =
            MkLog (w.(content) ++ encode_all (take j batch)) w.(stable) true w.(stale) /\
            ((write_batch outs batch w).2 = true -> take j batch = batch).
Proof.
  revert outs w. induction batch as [|r batch IH]; intros outs w Ho Hc; simpl.
  - exists O. change (encode_all (take 0 [])) with (@nil byte). rewrite app_nil_r. split; [|done].
    destruct w; simpl in *; by subst.
  - unfold writeRecord. rewrite Ho.
    destruct outs as [|[n|] outs]; simpl; [|apply Forall_cons in Hc as [Hn Hc]..].
    + destruct (IH [] (MkLog (content w ++ encode r) (stable w) true (stale w))) as (j & E & Hj); [done..|].
      exists (S j). rewrite E. simpl. rewrite encode_all_cons, app_assoc. split; [done|].
      intros H. f_equal. by apply Hj.
    + destruct Hn as [|[= ->]]; [done|]. exists O. simpl. by split.
    + destruct (IH outs (MkLog (content w ++ encode r) (stable w) true (stale w))) as (j & E & Hj); [done..|].
      exists (S j). rewrite E. simpl. rewrite encode_all_cons, app_assoc. split; [done|].
      intros H. f_equal. by apply Hj.
Qed.

Lemma commit_clean batch outs sync_ok w :
  w.(opened) = true -> Forall (fun o => o = None \/ o = Some O) outs ->
  exists j, let '(w', ok) := commit outs sync_ok batch w in
    w'.(content) = w.(content) ++ encode_all (take j batch) /\
    w'.(opened) = true /\ w'.(stale) = w.(stale) /\
    if ok then take j batch = batch /\ w'.(stable) = length w'.(content)
    else w'.(stable) = w.(stable).
Proof.
  intros Ho Hc. unfold commit. destruct (write_batch_clean batch outs w Ho Hc) as (j & E & Hj).
  exists j. destruct (write_batch outs batch w) as [w' ok]. simpl in *. subst w'.
  destruct ok; [destruct sync_ok|]; simpl; split_and!; auto.
Qed.

Lemma subseteq_take_app {A} (a b sub : list A) n :
  a ⊆ sub -> b ⊆ sub -> a ++ take n b ⊆ sub.
Proof. intros Ha Hb x [Hx|Hx]%elem_of_app; [auto|]. eapply Hb, subseteq_take, Hx. Qed.

Lemma flush_inv sub s ws k n outs sync_ok :
  Forall (fun o => o = None \/ o = Some O) outs -> wal_inv sub s ws k ->
  exists ws' k', wal_inv sub (flush_batch n outs sync_ok s) ws' k'.
Proof.
  intros Hc I. unfold flush_batch, drainInto. set (m := (n `min` walMaxBatch)%nat).
  destruct (commit_clean (take m (pending s)) outs sync_ok (log s) (inv_open _ _ _ _ I) Hc) as (j & C).
  destruct (take m (pending s)) as [|r0 batch0] eqn:Eb; [by exists ws, k|].
  rewrite <- Eb in *. clear r0 batch0 Eb.
  destruct (commit outs sync_ok _ (log s)) as [w ok]. destruct C as (C1 & C2 & C3 & C4).
  destruct I as [Ic Is Ik Io Ist Iok Ip Ia [Is1 Is2]].
  set (b := take m (pending s)) in *.
  assert (Forall rec_ok b) as Hb by by apply Forall_take.
  assert (b ⊆ sub) as Hbs by (intros x Hx; eapply Is2, subseteq_take, Hx).
  exists (ws ++ take j b), (if ok then length (ws ++ take j b) else k). constructor; simpl.
  - by rewrite C1, Ic, encode_all_app.
  - destruct ok; [destruct C4 as [_ ->]; by rewrite firstn_all, C1, Ic, encode_all_app|].
    by rewrite C4, Is, take_app_le.
  - destruct ok; [done|]. rewrite length_app. lia.
  - done.
  - by rewrite C3.
  - apply Forall_app; auto using Forall_take.
  - by apply Forall_drop.
  - destruct ok; [|by rewrite take_app_le].
    destruct C4 as [-> _]. rewrite firstn_all. apply sublist_app; [|done].
    etrans; [done|]. apply sublist_take.
  - split; [by eapply subseteq_take_app|].
    intros x Hx. eapply Is2, subseteq_drop, Hx.
Qed.

Lemma wal_inv_weaken sub sub' s ws k : sub ⊆ sub' -> wal_inv sub s ws k -> wal_inv sub' s ws k.
Proof. intros H [? ? ? ? ? ? ? ? [? ?]]. constructor; try done. split; by etrans. Qed.

Lemma exec_inv sub e s ws k :
  clean e -> wal_inv sub s ws k ->
  exists ws' k', wal_inv (sub ++ submitted [e]) (exec e s) ws' k'.
Proof.
  intros Hc I0. assert (wal_inv (sub ++ submitted [e]) s ws k) as I
    by (eapply wal_inv_weaken; [|done]; by apply list_subseteq_app_l).
  destruct e as [r|n outs sync_ok|o rs|n outs sync_ok]; simpl in *.
  - exists ws, k. destruct I as [? ? ? ? ? ? ? ? [? Hp]]. constructor; simpl; try done.
    + apply Forall_app; auto.
    + split; [done|]. unfold submitted in *. set_solver.
  - destruct (running s); [by eapply flush_inv|by exists ws, k].
  - destruct (running s); [|by exists ws, k]. destruct Hc as [Hrs [-> | ->]]; simpl.
    + exists ws, k. destruct I. by constructor.
    + exists rs, (length rs). destruct I as [? ? ? ? ? ? ? ? [? Hp]]. constructor; simpl; try done.
      * by rewrite firstn_all.
      * by rewrite firstn_all.
      * split; [|done]. unfold submitted. set_solver.
  - destruct (running s); [|by exists ws, k].
    destruct (flush_inv _ s ws k n outs sync_ok Hc I) as (ws' & k' & []).
    exists ws', k'. by constructor.
Qed.

Lemma exec_all_inv sub es s ws k :
  Forall clean es -> wal_inv sub s ws k ->
  exists ws' k', wal_inv (sub ++ submitted es) (exec_all es s) ws' k'.
Proof.
  intros H. revert sub s ws k. induction H as [|e es He Hes IH]; intros sub s ws k I; simpl.
  - exists ws, k. eapply wal_inv_weaken; [|done]. set_solver.
  - destruct (exec_inv sub e s ws k He I) as (ws1 & k1 & I1).
    destruct (IH _ _ _ _ I1) as (ws2 & k2 & I2). exists ws2, k2.
    eapply wal_inv_weaken; [|done]. unfold submitted. simpl. set_solver.
Qed.

Lemma start_inv old : Forall rec_ok old ->
  wal_inv old (start (Some (encode_all old)) old) old (length old).
Proof. intros H. constructor; simpl; try done; try (by rewrite firstn_all). set_solver. Qed.

Lemma sublist_map {A B} (f : A -> B) a b : a `sublist_of` b -> map f a `sublist_of` map f b.
Proof. induction 1; simpl; by constructor. Qed.

(** C2: Durability contract of the log.  Start from a log holding the records
    [old] and run any sequence of appends, group commits, rewrites and a close,
    in which a write that fails has written nothing, syncs may fail, and a
    rewrite fails before its rename or succeeds completely; record sizes fit
    their fields.  Whatever a crash leaves of the file, replaying it delivers
    every record of the last successful rewrite and every record acknowledged
    since, in order, and nothing that was not handed to the log -- up to the
    log's own reading of an empty value as none (wal.go:261).  The excluded
    failures do lose acknowledged records: a short write
    ([wal_short_write_hides_acked]) and a directory sync that fails after the
    rename ([wal_unsynced_rename_hides_acked]). *)
Theorem wal_acked_durable old es f :
  Forall rec_ok old -> Forall clean es ->
  let s := exec_all es (start (Some (encode_all old)) old) in
  crash_image s.(log) f ->
  map norm s.(acked) `sublist_of` replayed f /\
  replayed f ⊆ map norm (old ++ submitted es).
Proof.
  intros Hold Hes s (c & k & n & Hin & Hk & ->).
  destruct (exec_all_inv old es _ _ _ Hes (start_inv old Hold)) as (ws & k' & I).
  fold s in I. rewrite (inv_stale _ _ _ _ I) in Hin. apply list_elem_of_singleton in Hin as [= -> ->].
  rewrite (inv_content _ _ _ _ I). destruct (replayed_cut ws n (inv_ok _ _ _ _ I)) as (j & Hj & -> & Hmax).
  split.
  - apply sublist_map. etrans; [apply I|]. assert (k' <= j)%nat as Hkj
      by (apply Hmax; [by rewrite <- (inv_stable _ _ _ _ I)|apply I]).
    replace (take k' ws) with (take k' (take j ws)) by (rewrite take_take; f_equal; lia).
    apply sublist_take.
  - intros x Hx. apply list_elem_of_fmap in Hx as (y & -> & Hy).
    apply list_elem_of_fmap_2. eapply (proj1 (inv_sub _ _ _ _ I)), subseteq_take, Hy.
Qed.

Lemma wal_acked_durable_witness :
  let r1 := MkRec WALOpPut (str "a") (Some (str "1")) in
  let r2 := MkRec WALOpDelete (str "b") None in
  let s := exec_all [EvAppend r1; EvAppend r2; EvFlush 2 [] true] (start (Some (encode_all [])) []) in
  map norm s.(acked) `sublist_of` replayed (s.(log).(content)) /\ s.(acked) = [r1; r2].
Proof.
  intros r1 r2 s. split; [|reflexivity].
  refine (proj1 (wal_acked_durable [] [EvAppend r1; EvAppend r2; EvFlush 2 [] true] _ _ _ _)).
  - constructor.
  - repeat constructor; vm_compute; congruence.
  - exists s.(log).(content), s.(log).(stable), s.(log).(stable).
    split; [apply list_elem_of_singleton; reflexivity|]. split; [lia|]. reflexivity.
Defined.

(** A directory sync that fails after the rename is reported, but the log goes
    on in the new file: a crash may bring the old directory entry back, and a
    record acknowledged since is gone. *)
Theorem wal_unsynced_rename_hides_acked :
  let r := MkRec WALOpPut (str "a") (Some (str "1")) in
  let s := exec_all [EvRewrite DirSyncFails []; EvAppend r; EvFlush 1 [] true] (start (Some []) []) in
  s.(acked) = [r] /\ crash_image s.(log) [] /\ replayed [] = [].
Proof.
  intros r s. split; [reflexivity|]. split; [|reflexivity].
  exists [], O, O. split; [right; left|]. split; [lia|reflexivity].
Qed.

(** Record round trip and torn tails.  A log of any records followed by
    any proper prefix of one more record replays to exactly those records, an
    empty value coming back as [nil]; the torn record is dropped silently. *)
Theorem wal_replay_roundtrip rs r n :
  Forall rec_ok (r :: rs) -> (n < length (encode r))%nat ->
  replayed (encode_all rs ++ take n (encode r)) = map norm rs.
Proof.
  intros [Hr Hrs]%Forall_cons Hn. apply replayed_whole; [done|]. by apply read_torn.
Qed.

Lemma wal_replay_roundtrip_witness :
  let r := MkRec WALOpPut (str "a") (Some (str "12")) in
  (5 < length (encode r))%nat /\ replayed (encode_all [r; r] ++ take 5 (encode r)) = map norm [r; r].
Proof.
  split; [vm_compute; lia|].
  apply (wal_replay_roundtrip [_; _] (MkRec WALOpPut (str "a") (Some (str "12"))) 5).
  - repeat constructor; vm_compute; congruence.
  - vm_compute; lia.
Defined.

(** A rewrite is atomic with respect to crashes: whichever of its steps
    fails, a crash after it leaves either a file the log could have left
    before, or the new records complete; when it reports success only the
    latter, and when it fails at or before the rename only the former. *)
Theorem wal_rewrite_atomic o records w f :
  crash_image (doRewrite o records w).1 f ->
  (crash_image w f /\ o <> RewriteOk) \/ (f = encode_all records /\ o <> TmpFails).
Proof.
  intros (c & k & n & Hin & Hk & ->).
  assert (forall l : bytes, (length l <= n)%nat -> take n l = l) as Hall by (intros l Hl; by apply take_ge).
  destruct o; simpl in *.
  - left. split; [|done]. by exists c, k, n.
  - apply elem_of_cons in Hin as [[= -> ->]|Hin]; [right; split; [auto|done]|].
    left. split; [|done]. by exists c, k, n.
  - apply elem_of_cons in Hin as [[= -> ->]|Hin]; [right; split; [auto|done]|].
    left. split; [|done]. by exists c, k, n.
  - apply list_elem_of_singleton in Hin as [= -> ->]. right. split; [auto|done].
Qed.

Lemma wal_rewrite_atomic_witness :
  let r := MkRec WALOpPut (str "a") (Some (str "1")) in
  let w := NewWAL (Some (encode_all [r])) in
  crash_image (doRewrite RewriteOk [r; r] w).1 (encode_all [r; r]) /\
  ((crash_image w (encode_all [r; r]) /\ RewriteOk <> RewriteOk) \/
   (encode_all [r; r] = encode_all [r; r] /\ RewriteOk <> TmpFails)).
Proof.
  intros r w.
  assert (crash_image (doRewrite RewriteOk [r; r] w).1 (encode_all [r; r])) as H.
  { exists (encode_all [r; r]), (length (encode_all [r; r])), (length (encode_all [r; r])).
    split; [apply list_elem_of_singleton; reflexivity|]. split; [lia|]. reflexivity. }
  split; [exact H|]. apply (wal_rewrite_atomic RewriteOk [r; r] w _ H).
Defined.

(** ** Group commit answers *)
Lemma flush_batch_answers n outs ok s :
  map fst (flush_batch n outs ok s).(answers) ++ (flush_batch n outs ok s).(pending) =
  map fst s.(answers) ++ s.(pending).
Proof.
  unfold flush_batch, drainInto. set (m := (n `min` walMaxBatch)%nat).
  destruct (take m (pending s)) as [|r0 b0] eqn:E; [done|]. rewrite <- E.
  destruct (commit _ _ _ _) as [w b]. simpl.
  rewrite map_app, map_map. simpl. rewrite map_id, <- app_assoc, take_drop. done.
Qed.

Definition appended (es : list event) : list WALRecord :=
  omap (fun e => match e with EvAppend r => Some r | _ => None end) es.

Lemma exec_answers e s :
  map fst (exec e s).(answers) ++ (exec e s).(pending) =
  (map fst s.(answers) ++ s.(pending)) ++ appended [e].
Proof.
  destruct e as [r|n outs ok|o rs|n outs ok]; simpl; rewrite ?app_nil_r.
  - by rewrite app_assoc.
  - destruct (running s); [apply flush_batch_answers|done].
  - destruct (running s); [|done]. destruct (doRewrite o rs (log s)). done.
  - destruct (running s); [apply flush_batch_answers|done].
Qed.

(** Every [Append] is answered at most once and in arrival order: at any
    time the answered requests followed by the blocked ones are the requests
    made, so no request is dropped, duplicated or reordered by batching. *)
Theorem wal_append_answered es file old :
  let s := exec_all es (start file old) in
  map fst s.(answers) ++ s.(pending) = appended es.
Proof.
  cbv zeta. enough (forall s, map fst (exec_all es s).(answers) ++ (exec_all es s).(pending) =
    (map fst s.(answers) ++ s.(pending)) ++ appended es) as H by apply H.
  induction es as [|e es IH]; intros s; [simpl; by rewrite app_nil_r|].
  change (exec_all (e :: es) s) with (exec_all es (exec e s)).
  change (appended (e :: es)) with (appended ([e] ++ es)).
  rewrite IH, exec_answers, <- app_assoc. unfold appended. by rewrite <- omap_app.
Qed.

(** ** What the log does not guarantee *)
Definition r_a : WALRecord := MkRec WALOpPut (str "a") (Some (str "1")).
Definition r_b : WALRecord := MkRec WALOpPut (str "b") (Some (str "22222222222222222222")).
Definition r_c : WALRecord := MkRec WALOpPut (str "c") (Some (str "3")).

(** Reopening a log after a crash keeps a torn tail in place, and later
    appends go behind it: a record acknowledged after such a restart is not
    delivered by the next replay. *)
Theorem wal_torn_tail_hides_acked :
  exists f,
    crash_image (exec_all [EvAppend r_a; EvFlush 1 [] true; EvAppend r_b; EvFlush 1 [] false]
                          (start None [])).(log) f /\
    replayed f = [r_a] /\
    let s := exec_all [EvAppend r_c; EvFlush 1 [] true] (start (Some f) [r_a]) in
    s.(answers) = [(r_c, true)] /\ s.(log).(stable) = length s.(log).(content) /\
    replayed s.(log).(content) = [r_a].
Proof.
  exists (take 21 (encode_all [r_a; r_b])). split; [|vm_compute; auto].
  eexists _, _, 21%nat. split; [apply list_elem_of_singleton; reflexivity|].
  split; [vm_compute; lia|vm_compute; reflexivity].
Qed.

(** The same happens without a crash when one write fails part-way: the
    failed caller gets an error, but every record acknowledged after it sits
    behind the torn bytes and is lost on restart. *)
Theorem wal_short_write_hides_acked :
  let s := exec_all [EvAppend r_b; EvFlush 1 [Some 10%nat] true; EvAppend r_c; EvFlush 1 [] true]
                    (start None []) in
  s.(answers) = [(r_b, false); (r_c, true)] /\ replayed s.(log).(content) = [].
Proof. split; vm_compute; reflexivity. Qed.

(** Once the flush loop has exited nothing is answered any more. *)
Lemma exec_all_stopped es s :
  s.(running) = false ->
  (exec_all es s).(answers) = s.(answers) /\ (exec_all es s).(pending) = s.(pending) ++ appended es.
Proof.
  revert s. induction es as [|e es IH]; intros s Hs; [simpl; by rewrite app_nil_r|].
  change (exec_all (e :: es) s) with (exec_all es (exec e s)).
  assert ((exec e s).(running) = false /\ (exec e s).(answers) = s.(answers) /\
          (exec e s).(pending) = s.(pending) ++ appended [e]) as (H1 & H2 & H3).
  { destruct e; simpl; rewrite ?Hs, ?app_nil_r; done. }
  destruct (IH _ H1) as [-> ->]. rewrite H2, H3, <- app_assoc. split; [done|].
  f_equal. unfold appended. by rewrite <- omap_app.
Qed.

(** Closing drains one batch only: with more than [walMaxBatch] callers
    blocked, those beyond the batch are never answered, whatever happens next. *)
Theorem wal_close_strands_callers n outs ok es s :
  s.(running) = true -> (walMaxBatch < length s.(pending))%nat ->
  let s0 := exec (EvClose n outs ok) s in
  (exec_all es s0).(answers) = s0.(answers) /\
  exists l, (exec_all es s0).(pending) = l ++ drop walMaxBatch s.(pending) ++ appended es.
Proof.
  intros Hr Hl s0. destruct (exec_all_stopped es s0) as [-> ->].
  { unfold s0. simpl. by rewrite Hr. }
  split; [done|]. unfold s0. simpl. rewrite Hr. simpl. unfold flush_batch, drainInto.
  destruct (take _ (pending s)) as [|r b]; simpl.
  - exists (take walMaxBatch (pending s)). by rewrite app_assoc, take_drop.
  - destruct (commit _ _ _ _) as [w okc]. simpl. set (m := (n `min` walMaxBatch)%nat).
    exists (take (walMaxBatch - m) (drop m (pending s))). rewrite app_assoc. f_equal.
    rewrite <- (take_drop (walMaxBatch - m) (drop m (pending s))) at 1. f_equal.
    rewrite drop_drop. f_equal. lia.
Qed.

Lemma wal_close_strands_callers_witness :
  let s := exec_all (replicate 257 (EvAppend r_a)) (start None []) in
  let s0 := exec (EvClose 257 [] true) s in
  (exec_all [EvAppend r_c] s0).(answers) = s0.(answers) /\
  exists l, (exec_all [EvAppend r_c] s0).(pending) = l ++ drop walMaxBatch s.(pending) ++ appended [EvAppend r_c].
Proof.
  apply (wal_close_strands_callers 257 [] true [EvAppend r_c]
           (exec_all (replicate 257 (EvAppend r_a)) (start None []))).
  - vm_compute. reflexivity.
  - apply Nat.ltb_lt. vm_compute. reflexivity.
Defined.
End Wal.
