(* ===== verification/Bloom.v ===== *)
(** * Bloom filters ([storage/bloom.go], [storage/partitioned_bloom.go])

    The bit array is a list of 64-bit words, hashes are FNV-1a on wrapping
    64-bit arithmetic, and an index out of range is [Panic].  The two results
    of the floating-point sizing formulas are parameters ([opt_m], [opt_k]);
    the clamping around them is the code's.  Go iterates a map in an
    unspecified order, so [Encode] of a partitioned filter takes the order of
    its partitions as an argument. *)
From S2P Require Import Prelude Bytes.

Module Bloom.

Record BloomFilter := MkBloom { bits : list Z; bm : Z; bk : Z }.

Definition bloomMinBits : Z := 64.
Definition fnvOffset64 : Z := 14695981039346656037.
Definition fnvPrime64 : Z := 1099511628211.
Definition bloomSeed2 : Z := 0x9e3779b97f4a7c15.

Definition fnv1a (data : bytes) (seed : Z) : Z :=
  fold_left (fun h c => u64 (Z.lxor h #c * fnvPrime64)) data (Z.lxor fnvOffset64 seed).

Definition hashPair (key : bytes) : Z * Z := (fnv1a key 0, fnv1a key bloomSeed2).

(** [(h1 + i*h2) % b.m] for [i] below [b.k]. *)
Definition bloom_pos (b : BloomFilter) (key : bytes) (i : Z) : Z :=
  let '(h1, h2) := hashPair key in u64 (h1 + u64 (i * h2)) mod b.(bm).
Definition positions (b : BloomFilter) (key : bytes) : list Z :=
  map (bloom_pos b key) (seqZ 0 b.(bk)).

(** [bits[pos/64] |= 1 << (pos % 64)] *)
Definition set_bit (ws : list Z) (pos : Z) : go (list Z) :=
  w ← index ws (pos / 64);
  Ret (<[Z.to_nat (pos / 64) := Z.lor w (Z.shiftl 1 (pos mod 64))]> ws).
(** [bits[pos/64] & (1 << (pos % 64)) == 0] *)
Definition bit_clear (ws : list Z) (pos : Z) : go bool :=
  w ← index ws (pos / 64); Ret (Z.land w (Z.shiftl 1 (pos mod 64)) =? 0).

Fixpoint set_bits (ws : list Z) (ps : list Z) : go (list Z) :=
  match ps with [] => Ret ws | p :: ps => ws ← set_bit ws p; set_bits ws ps end.
Definition Add (b : BloomFilter) (key : bytes) : go BloomFilter :=
  ws ← set_bits b.(bits) (positions b key); Ret (MkBloom ws b.(bm) b.(bk)).

Fixpoint all_set (ws : list Z) (ps : list Z) : go bool :=
  match ps with
  | [] => Ret true
  | p :: ps => c ← bit_clear ws p; if c : bool then Ret false else all_set ws ps
  end.
Definition MayContain (b : BloomFilter) (key : bytes) : go bool :=
  all_set b.(bits) (positions b key).

Definition Encode (b : BloomFilter) : bytes :=
  put_be 8 b.(bm) ++ put_be 8 b.(bk) ++ concat (map (put_be 8) b.(bits)).

Inductive bloom_error := TooShort | Corrupt | UnexpectedEOF.

Fixpoint read_words (n : nat) (data : bytes) : go (list Z) :=
  match n with
  | O => Ret []
  | S n => w ← slice data 0 8; ws ← read_words n (drop 8 data); Ret (get_be w :: ws)
  end.

Definition DecodeBloomFilter (data : bytes) : go (result bloom_error BloomFilter) :=
  if len data <? 16 then Ret (Err TooShort)
  else
    a ← slice data 0 8;
    b ← slice data 8 16;
    let m := get_be a in
    let k := get_be b in
    let words := u64 (m + 63) / 64 in
    if (k =? 0) || (m =? 0) || negb (len data - 16 =? u64 (words * 8)) then Ret (Err Corrupt)
    else ws ← read_words (Z.to_nat words) (drop 16 data); Ret (Ok (MkBloom ws m k)).

(** ** Construction and partitions *)
Section Sizing.
(** [ceil(-n ln p / ln2^2)] and [round(m/n ln2)] as converted to [uint64], for
    the configured false-positive rate. *)
Context (opt_m : Z -> Z) (opt_k : Z -> Z -> Z).

Definition NewBloomFilter (n : Z) : BloomFilter :=
  let n := if n <=? 0 then 1 else n in
  let m := opt_m n in
  let m := if m <? bloomMinBits then bloomMinBits else m in
  let k := opt_k m n in
  let k := if k <? 1 then 1 else k in
  MkBloom (replicate (Z.to_nat (u64 (m + 63) / 64)) 0) m k.

Record PartitionedBloom := MkPart {
  psep : byte; pn : Z; partitions : gmap bytes BloomFilter }.

Definition NewPartitionedBloom (sep : byte) (n : Z) : PartitionedBloom := MkPart sep n ∅.

(** [bytes.IndexByte] *)
Fixpoint IndexByte (b : bytes) (c : byte) : option nat :=
  match b with
  | [] => None
  | x :: b => if decide (x = c) then Some O else S <$> IndexByte b c
  end.

Definition splitNamespace (key : bytes) (sep : byte) : bytes * bytes :=
  match IndexByte key sep with
  | Some i => (take i key, drop (S i) key)
  | None => ([], key)
  end.

Definition count_one (sep : byte) (c : gmap bytes Z) (k : bytes) : gmap bytes Z :=
  let ns := (splitNamespace k sep).1 in <[ns := default 0 (c !! ns) + 1]> c.
Definition count_ns (sep : byte) (keys : list bytes) : gmap bytes Z := fold_left (count_one sep) keys ∅.

(** [pb.partitions[ns].Add(suf)], a nil filter panicking. *)
Definition add_existing (sep : byte) (ps : gmap bytes BloomFilter) (k : bytes)
    : go (gmap bytes BloomFilter) :=
  let '(ns, suf) := splitNamespace k sep in
  match ps !! ns with
  | Some bf => bf ← Add bf suf; Ret (<[ns := bf]> ps)
  | None => Panic
  end.

Fixpoint add_keys (sep : byte) (ps : gmap bytes BloomFilter) (keys : list bytes)
    : go (gmap bytes BloomFilter) :=
  match keys with [] => Ret ps | k :: keys => ps ← add_existing sep ps k; add_keys sep ps keys end.

Definition BuildPartitionedBloom (keys : list bytes) (sep : byte) : go PartitionedBloom :=
  ps ← add_keys sep (NewBloomFilter <$> count_ns sep keys) keys;
  Ret (MkPart sep (len keys) ps).

Definition PAdd (pb : PartitionedBloom) (key : bytes) : go PartitionedBloom :=
  let '(ns, suffix) := splitNamespace key pb.(psep) in
  let bf := default (NewBloomFilter pb.(pn)) (pb.(partitions) !! ns) in
  bf ← Add bf suffix;
  Ret (MkPart pb.(psep) pb.(pn) (<[ns := bf]> pb.(partitions))).

Definition PMayContain (pb : PartitionedBloom) (key : bytes) : go bool :=
  let '(ns, suffix) := splitNamespace key pb.(psep) in
  match pb.(partitions) !! ns with
  | None => Ret false
  | Some bf => MayContain bf suffix
  end.

Definition encode_part (p : bytes * BloomFilter) : bytes :=
  let enc := Encode p.2 in
  put_be 4 (u32 (len p.1)) ++ p.1 ++ put_be 4 (u32 (len enc)) ++ enc.
Definition encode_parts (sep : byte) (parts : list (bytes * BloomFilter)) : bytes :=
  sep :: put_be 4 (u32 (len parts)) ++ concat (map encode_part parts).
(** [order] is the iteration order of the map. *)
Definition PEncode (pb : PartitionedBloom) (order : list (bytes * BloomFilter)) : bytes :=
  encode_parts pb.(psep) order.

(** [io.ReadFull] of [n] bytes. *)
Definition read_full (n : Z) (r : bytes) : option (bytes * bytes) :=
  if len r <? n then None else Some (take (Z.to_nat n) r, drop (Z.to_nat n) r).

Fixpoint decode_parts (count : nat) (r : bytes) (ps : gmap bytes BloomFilter)
    : go (result bloom_error (gmap bytes BloomFilter)) :=
  match count with
  | O => Ret (Ok ps)
  | S count =>
      match read_full 4 r with
      | None => Ret (Err UnexpectedEOF)
      | Some (nsLen, r) =>
          match read_full (get_be nsLen) r with
          | None => Ret (Err UnexpectedEOF)
          | Some (ns, r) =>
              match read_full 4 r with
              | None => Ret (Err UnexpectedEOF)
              | Some (bloomLen, r) =>
                  match read_full (get_be bloomLen) r with
                  | None => Ret (Err UnexpectedEOF)
                  | Some (enc, r) =>
                      d ← DecodeBloomFilter enc;
                      match d with
                      | Err e => Ret (Err e)
                      | Ok bf => decode_parts count r (<[ns := bf]> ps)
                      end
                  end
              end
          end
      end
  end.

Definition DecodePartitionedBloom (data : bytes) (n : Z) : go (result bloom_error PartitionedBloom) :=
  if len data <? 5 then Ret (Err TooShort)
  else
    sep ← index data 0;
    match read_full 4 (drop 1 data) with
    | None => Ret (Err UnexpectedEOF)
    | Some (cnt, r) =>
        d ← decode_parts (Z.to_nat (get_be cnt)) r ∅;
        Ret match d with Err e => Err e | Ok ps => Ok (MkPart sep n ps) end
    end.
End Sizing.

(** ** Well-formed filters *)
Record wf (b : BloomFilter) : Prop := {
  wf_m : 1 <= b.(bm) < 2 ^ 64 - 63;
  wf_k : 1 <= b.(bk) < 2 ^ 64;
  wf_len : len b.(bits) = (b.(bm) + 63) / 64;
  wf_words : Forall is_u64 b.(bits) }.

(** Bit [pos] of the array. *)
Definition bit_at (ws : list Z) (pos : Z) : bool :=
  match ws !! Z.to_nat (pos / 64) with Some w => Z.testbit w (pos mod 64) | None => false end.
Definition covers (ws : list Z) (pos : Z) : Prop := 0 <= pos < 64 * len ws.

Lemma testbit_one s i : 0 <= s -> 0 <= i -> Z.testbit (Z.shiftl 1 s) i = (i =? s).
Proof.
  intros Hs Hi. rewrite Z.shiftl_spec by done. destruct (Z.eqb_spec i s) as [->|Hne].
  - by rewrite Z.sub_diag.
  - destruct (Z_lt_le_dec i s); [by apply Z.testbit_neg_r; lia|].
    rewrite <- (Z.pow_0_r 2). rewrite Z.pow2_bits_false by lia. done.
Qed.

Lemma land_one w s : 0 <= s -> (Z.land w (Z.shiftl 1 s) =? 0) = negb (Z.testbit w s).
Proof.
  intros Hs. destruct (Z.testbit w s) eqn:E; simpl.
  - apply Z.eqb_neq. intros H. assert (Z.testbit (Z.land w (Z.shiftl 1 s)) s = false) as F
      by by rewrite H, Z.bits_0.
    rewrite Z.land_spec, testbit_one, Z.eqb_refl, E in F by done. done.
  - apply Z.eqb_eq, Z.bits_inj_0. intros i. rewrite Z.land_spec.
    destruct (Z_lt_le_dec i 0); [by rewrite Z.testbit_neg_r|].
    rewrite testbit_one by done. destruct (Z.eqb_spec i s) as [->|]; [by rewrite E|apply andb_false_r].
Qed.

Lemma index_word ws pos : covers ws pos ->
  exists w, ws !! Z.to_nat (pos / 64) = Some w /\ index ws (pos / 64) = Ret w.
Proof.
  intros [H0 H1]. assert (0 <= pos / 64 < len ws) as H.
  { split; [by apply Z.div_pos|]. apply Z.div_lt_upper_bound; lia. }
  destruct (lookup_lt_is_Some_2 ws (Z.to_nat (pos / 64))) as [w Hw]; [unfold len in H; lia|].
  exists w. split; [done|]. unfold index. rewrite Hw.
  replace ((0 <=? pos / 64) && (pos / 64 <? len ws)) with true by lia. done.
Qed.

Lemma bit_clear_ok ws pos : covers ws pos -> bit_clear ws pos = Ret (negb (bit_at ws pos)).
Proof.
  intros H. destruct (index_word ws pos H) as (w & Hw & Hi). unfold bit_clear, bit_at.
  rewrite Hi, Hw. simpl. rewrite land_one; [done|]. by apply Z.mod_pos_bound.
Qed.

Lemma lor_u64 w s : is_u64 w -> 0 <= s < 64 -> is_u64 (Z.lor w (Z.shiftl 1 s)).
Proof.
  unfold is_u64. intros Hw Hs. rewrite Z.shiftl_1_l.
  assert (0 <= 2 ^ s < 2 ^ 64) as Hp by (split; [by apply Z.pow_nonneg|apply Z.pow_lt_mono_r; lia]).
  split; [apply Z.lor_nonneg; lia|].
  destruct (Z.eq_dec (Z.lor w (2 ^ s)) 0) as [->|Hne]; [done|].
  apply Z.log2_lt_pow2; [pose proof (proj2 (Z.lor_nonneg w (2 ^ s)) ltac:(lia)); lia|].
  rewrite Z.log2_lor by lia. apply Z.max_lub_lt; [|rewrite Z.log2_pow2; lia].
  destruct (Z.eq_dec w 0) as [->|]; [done|]. apply Z.log2_lt_pow2; lia.
Qed.

Lemma set_bit_ok ws pos : covers ws pos -> Forall is_u64 ws ->
  exists ws', set_bit ws pos = Ret ws' /\ len ws' = len ws /\ Forall is_u64 ws' /\
    forall q, 0 <= q -> bit_at ws' q = bit_at ws q || (q =? pos).
Proof.
  intros H Hu. destruct (index_word ws pos H) as (w & Hw & Hi). unfold set_bit. rewrite Hi. simpl.
  assert (0 <= pos mod 64 < 64) as Hs by by apply Z.mod_pos_bound.
  eexists. split_and!; [done|by unfold len; rewrite length_insert| |].
  - apply Forall_insert; [done|]. apply lor_u64; [|done]. by eapply Forall_lookup_1.
  - intros q Hq. unfold bit_at. destruct H as [H0 _].
    destruct (decide (Z.to_nat (q / 64) = Z.to_nat (pos / 64))) as [E|E].
    + rewrite E, Hw, list_lookup_insert_eq by by eapply lookup_lt_Some.
      rewrite Z.lor_spec, testbit_one by (done || by apply Z.mod_pos_bound). f_equal.
      assert (q / 64 = pos / 64) as E'
        by (apply Z2Nat.inj in E; [done|by apply Z.div_pos..]).
      pose proof (Z.div_mod q 64 ltac:(lia)). pose proof (Z.div_mod pos 64 ltac:(lia)). lia.
    + rewrite list_lookup_insert_ne by done.
      replace (q =? pos) with false; [by rewrite orb_false_r|].
      symmetry. apply Z.eqb_neq. by intros ->.
Qed.

Lemma set_bits_ok ps ws : Forall (covers ws) ps -> Forall is_u64 ws ->
  exists ws', set_bits ws ps = Ret ws' /\ len ws' = len ws /\ Forall is_u64 ws' /\
    forall q, 0 <= q -> bit_at ws' q = bit_at ws q || existsb (Z.eqb q) ps.
Proof.
  revert ws. induction ps as [|p ps IH]; intros ws Hc Hu; simpl.
  - exists ws. split_and!; try done. intros q _. by rewrite orb_false_r.
  - apply Forall_cons in Hc as [Hp Hc]. destruct (set_bit_ok ws p Hp Hu) as (w1 & -> & Hl & Hu1 & Hb).
    simpl. destruct (IH w1) as (w2 & -> & Hl2 & Hu2 & Hb2); [|done|].
    { unfold covers in *. by rewrite Hl. }
    exists w2. split_and!; [done|congruence|done|].
    intros q Hq. by rewrite Hb2, Hb, orb_assoc by done.
Qed.

Lemma all_set_ok ws ps : Forall (covers ws) ps -> all_set ws ps = Ret (forallb (bit_at ws) ps).
Proof.
  induction 1 as [|p ps Hp Hps IH]; simpl; [done|]. rewrite bit_clear_ok by done. simpl.
  by destruct (bit_at ws p).
Qed.

Lemma positions_covered b key ws : wf b -> len ws = len b.(bits) -> Forall (covers ws) (positions b key).
Proof.
  intros H Hl. apply Forall_forall. intros p (i & -> & _)%list_elem_of_fmap.
  unfold bloom_pos. destruct (hashPair key) as [h1 h2]. unfold covers. rewrite Hl, (wf_len _ H).
  pose proof (wf_m _ H). pose proof (Z.mod_pos_bound (u64 (h1 + u64 (i * h2))) (bm b) ltac:(lia)).
  pose proof (Z.div_mod (bm b + 63) 64 ltac:(lia)).
  pose proof (Z.mod_pos_bound (bm b + 63) 64 ltac:(lia)). lia.
Qed.

(** What a query computes on a well-formed filter. *)
Definition mem (b : BloomFilter) (key : bytes) : bool := forallb (bit_at b.(bits)) (positions b key).

Lemma MayContain_ok b key : wf b -> MayContain b key = Ret (mem b key).
Proof. intros H. unfold MayContain. rewrite all_set_ok; [done|]. by apply positions_covered. Qed.

Lemma mem_true b key : mem b key = true <-> forall p, p ∈ positions b key -> bit_at b.(bits) p = true.
Proof. unfold mem. rewrite forallb_forall. by setoid_rewrite list_elem_of_In. Qed.

Lemma Add_ok b key : wf b ->
  exists b', Add b key = Ret b' /\ wf b' /\ b'.(bm) = b.(bm) /\ b'.(bk) = b.(bk) /\
    mem b' key = true /\ forall k, mem b k = true -> mem b' k = true.
Proof.
  intros H. pose proof H as [Hm Hk Hl Hw].
  destruct (set_bits_ok (positions b key) (bits b)) as (ws & E & Hlen & Hu & Hb); [|done|].
  { by apply positions_covered. }
  unfold Add. rewrite E. simpl. eexists. split_and!; [done| |done|done| |].
  - constructor; simpl; [done|done|by rewrite Hlen|done].
  - apply mem_true. simpl. intros p Hp.
    assert (covers (bits b) p) as [Hp0 _] by (eapply Forall_forall; [by apply positions_covered|exact Hp]).
    rewrite Hb by done. apply orb_true_iff. right. apply existsb_exists. exists p.
    split; [by apply list_elem_of_In|apply Z.eqb_refl].
  - intros k Hmem. rewrite mem_true in *. simpl. intros p Hp. 
    assert (covers (bits b) p) as [Hp0 _] by (eapply Forall_forall; [by apply (positions_covered b k)|exact Hp]).
    rewrite Hb, Hmem by done. done.
Qed.

(** ** Codec *)
Lemma len_concat_words ws : len (concat (map (put_be 8) ws)) = 8 * len ws.
Proof. induction ws as [|w ws IH]; simpl; [done|]. len_lia. Qed.

Lemma len_Encode b : len (Encode b) = 16 + 8 * len b.(bits).
Proof. unfold Encode. rewrite !len_app, len_concat_words. len_lia. Qed.

Lemma get_put_be8 w : is_u64 w -> get_be (put_be 8 w) = w.
Proof. intros H. rewrite get_put_be. by apply Z.mod_small. Qed.

Lemma read_words_ok ws : Forall is_u64 ws ->
  read_words (length ws) (concat (map (put_be 8) ws)) = Ret ws.
Proof.
  induction 1 as [|w ws Hw Hws IH]; cbn [length map concat read_words]; [done|].
  go_slice. rewrite (drop_app_length' (put_be 8 w)) by by rewrite length_put_be.
  rewrite IH. simpl. by rewrite get_put_be8.
Qed.

Lemma decode_encode_bloom b : wf b -> DecodeBloomFilter (Encode b) = Ret (Ok b).
Proof.
  intros H. pose proof H as [Hm Hk Hl Hw]. unfold DecodeBloomFilter. rewrite len_Encode.
  replace (_ <? 16) with false by len_lia. unfold Encode.
  go_slices. rewrite !get_put_be8 by (unfold is_u64; lia).
  rewrite (u64_small (bm b + 63)) by (unfold is_u64; lia). rewrite <- Hl.
  assert (0 <= len (bits b) <= 2 ^ 58).
  { rewrite Hl. split; [apply Z.div_pos; lia|]. apply Z.div_le_upper_bound; lia. }
  rewrite u64_small by (unfold is_u64; lia).
  replace (_ || _) with false by lia.
  rewrite app_assoc, drop_app_length' by by rewrite length_app, !length_put_be.
  replace (Z.to_nat (len (bits b))) with (length (bits b)) by (unfold len; lia).
  rewrite read_words_ok by done. simpl. by destruct b.
Qed.

Lemma read_full_app a r : read_full (len a) (a ++ r) = Some (a, r).
Proof.
  unfold read_full. replace (_ <? _) with false by len_lia. unfold len. rewrite Nat2Z.id.
  by rewrite take_app_length, drop_app_length.
Qed.

Definition part_ok (p : bytes * BloomFilter) : Prop :=
  wf p.2 /\ len p.1 < 2 ^ 32 /\ len (Encode p.2) < 2 ^ 32.

Lemma get_put_be4 {A} (l : list A) : len l < 2 ^ 32 -> get_be (put_be 4 (u32 (len l))) = len l.
Proof.
  intros H. pose proof (len_nonneg l). rewrite u32_small by (unfold is_u32; lia).
  rewrite get_put_be. apply Z.mod_small. change (2 ^ (8 * Z.of_nat 4)) with (2 ^ 32). lia.
Qed.

Lemma read_full_4 z r : read_full 4 (put_be 4 z ++ r) = Some (put_be 4 z, r).
Proof. change 4 with (Z.of_nat 4) at 1. rewrite <- (len_put_be 4 z). apply read_full_app. Qed.

Lemma decode_parts_ok parts r ps : Forall part_ok parts ->
  decode_parts (length parts) (concat (map encode_part parts) ++ r) ps =
  Ret (Ok (fold_left (fun ps p => <[p.1 := p.2]> ps) parts ps)).
Proof.
  intros H. revert ps. induction H as [|[ns bf] parts (Hwf & Hn & He) Hps IH]; intros ps; [done|].
  cbn [fst snd length map concat decode_parts fold_left] in *. unfold encode_part at 1.
  cbn [fst snd]. rewrite <- !app_assoc.
  rewrite read_full_4, get_put_be4, read_full_app by done.
  rewrite read_full_4, get_put_be4, read_full_app by done.
  rewrite decode_encode_bloom by done. simpl. apply IH.
Qed.

Lemma index_nil {A} i : index (@nil A) i = Panic.
Proof. unfold index. by replace (_ && _) with false by len_lia. Qed.

Lemma index_head {A} (x : A) l : index (x :: l) 0 = Ret x.
Proof. unfold index. by replace (0 <? len (x :: l)) with true by len_lia. Qed.

Lemma decode_encode_partitioned pb order n :
  order ≡ₚ map_to_list pb.(partitions) -> Forall part_ok order -> len order < 2 ^ 32 ->
  DecodePartitionedBloom (PEncode pb order) n = Ret (Ok (MkPart pb.(psep) n pb.(partitions))).
Proof.
  intros Ho Hok Hlen. unfold DecodePartitionedBloom, PEncode, encode_parts.
  replace (_ <? 5) with false by len_lia.
  rewrite index_head, skipn_cons, drop_0. cbn [mbind go_bind]. rewrite read_full_4, get_put_be4 by done. unfold len at 1. rewrite Nat2Z.id.
  pose proof (decode_parts_ok order [] ∅ Hok) as D. rewrite app_nil_r in D. rewrite D. simpl.
  do 3 f_equal. rewrite <- fold_left_rev_right.
  change (list_to_map (rev order) = partitions pb). rewrite rev_alt, <- rev_alt.
  rewrite <- (list_to_map_to_list (partitions pb)).
  assert (rev order ≡ₚ map_to_list (partitions pb)) as HP by (by rewrite <- Permutation_rev).
  apply list_to_map_proper; [|done]. rewrite HP. apply NoDup_fst_map_to_list.
Qed.

(** ** Construction *)
Section Built.
Context (opt_m : Z -> Z) (opt_k : Z -> Z -> Z).
Context (Hm : forall n, opt_m n < 2 ^ 64 - 63) (Hk : forall m n, opt_k m n < 2 ^ 64).

Lemma New_wf n : wf (NewBloomFilter opt_m opt_k n).
Proof.
  unfold NewBloomFilter, bloomMinBits. cbv zeta. set (n' := if n <=? 0 then 1 else n).
  set (m := if opt_m n' <? 64 then 64 else opt_m n').
  assert (64 <= m < 2 ^ 64 - 63) as Hm'.
  { subst m. specialize (Hm n'). destruct (Z.ltb_spec (opt_m n') 64); lia. }
  set (k := if opt_k m n' <? 1 then 1 else opt_k m n').
  assert (1 <= k < 2 ^ 64) as Hk'.
  { subst k. specialize (Hk m n'). destruct (Z.ltb_spec (opt_k m n') 1); lia. }
  constructor; simpl; [lia|lia| |].
  - unfold len. rewrite length_replicate, u64_small by (unfold is_u64; lia).
    rewrite Z2Nat.id; [done|]. apply Z.div_pos; lia.
  - apply Forall_replicate. unfold is_u64. lia.
Qed.

(** Membership in the partition map. *)
Definition pmem (sep : byte) (ps : gmap bytes BloomFilter) (key : bytes) : bool :=
  match ps !! (splitNamespace key sep).1 with
  | Some bf => mem bf (splitNamespace key sep).2
  | None => false
  end.

Lemma PMayContain_ok pb key : map_Forall (fun _ => wf) pb.(partitions) ->
  PMayContain pb key = Ret (pmem pb.(psep) pb.(partitions) key).
Proof.
  intros H. unfold PMayContain, pmem. destruct (splitNamespace key (psep pb)) as [ns suf]. simpl.
  destruct (partitions pb !! ns) as [bf|] eqn:E; [|done]. apply MayContain_ok. by eapply H.
Qed.

Lemma pmem_insert sep ps k k' bf bf' :
  ps !! (splitNamespace k sep).1 = Some bf ->
  (forall x, mem bf x = true -> mem bf' x = true) ->
  pmem sep ps k' = true -> pmem sep (<[(splitNamespace k sep).1 := bf']> ps) k' = true.
Proof.
  intros Hk' Hmono. unfold pmem.
  destruct (decide ((splitNamespace k sep).1 = (splitNamespace k' sep).1)) as [E|E].
  - rewrite <- E, Hk', lookup_insert_eq. apply Hmono.
  - by rewrite lookup_insert_ne.
Qed.

Lemma add_keys_ok sep keys ps :
  (forall k, k ∈ keys -> is_Some (ps !! (splitNamespace k sep).1)) -> map_Forall (fun _ => wf) ps ->
  exists ps', add_keys sep ps keys = Ret ps' /\ map_Forall (fun _ => wf) ps' /\
    (forall k, k ∈ keys -> pmem sep ps' k = true) /\
    (forall k, pmem sep ps k = true -> pmem sep ps' k = true).
Proof.
  revert ps. induction keys as [|k keys IH]; intros ps Hs Hw; simpl.
  - exists ps. split_and!; [done|done|set_solver|done].
  - destruct (Hs k ltac:(set_solver)) as [bf Hbf]. unfold add_existing.
    destruct (splitNamespace k sep) as [ns suf] eqn:Esp. simpl in Hbf. rewrite Hbf.
    destruct (Add_ok bf suf) as (bf' & -> & Hwf' & _ & _ & Hin & Hmono); [by eapply Hw|]. simpl.
    destruct (IH (<[ns := bf']> ps)) as (ps' & E' & Hw' & Hall & Hm').
    + intros x Hx. apply lookup_insert_is_Some'. right. apply Hs. set_solver.
    + by apply map_Forall_insert_2.
    + exists ps'. rewrite E'. split_and!; [done|done| |].
      * intros x [->|Hx]%elem_of_cons; [|by apply Hall]. apply Hm'. unfold pmem. rewrite Esp. simpl.
        by rewrite lookup_insert_eq.
      * intros x Hx. apply Hm'. pose proof (pmem_insert sep ps k x bf bf') as P. rewrite Esp in P.
        by apply P.
Qed.

Lemma count_ns_mono (sep : byte) (keys : list bytes) (c : gmap bytes Z) (ns : bytes) :
  is_Some (c !! ns) -> is_Some (fold_left (count_one sep) keys c !! ns).
Proof.
  revert c. induction keys as [|k keys IH]; intros c H; simpl; [done|].
  apply IH. apply lookup_insert_is_Some'. by right.
Qed.

Lemma count_ns_some sep (keys : list bytes) k : k ∈ keys -> is_Some (count_ns sep keys !! (splitNamespace k sep).1).
Proof.
  unfold count_ns. generalize (∅ : gmap bytes Z). induction keys as [|x keys IH]; [set_solver|].
  intros c [->|Hin]%elem_of_cons; [|by apply IH]. simpl. apply count_ns_mono.
  unfold count_one. rewrite lookup_insert_eq. by eexists.
Qed.

Lemma Build_ok keys sep :
  exists pb, BuildPartitionedBloom opt_m opt_k keys sep = Ret pb /\ pb.(psep) = sep /\
    map_Forall (fun _ => wf) pb.(partitions) /\ (forall k, k ∈ keys -> pmem sep pb.(partitions) k = true).
Proof.
  unfold BuildPartitionedBloom.
  destruct (add_keys_ok sep keys (NewBloomFilter opt_m opt_k <$> count_ns sep keys)) as (ps & -> & Hw & Hall & _).
  - intros k Hin. rewrite lookup_fmap. apply fmap_is_Some. by apply count_ns_some.
  - intros ns bf. rewrite lookup_fmap. intros (c & _ & ->)%fmap_Some. by apply New_wf.
  - simpl. eexists. by split_and!.
Qed.
End Built.

(** A sizing in range, as the formulas give for any practical input. *)
Definition demo_m (n : Z) : Z := Z.min (10 * n) (2 ^ 40).
Definition demo_k (m n : Z) : Z := 7.

(** No false negatives.  Whatever sizes the floating-point formulas give
    (within 64 bits), building the partitioned filter over the keys of a table
    does not panic and every key queried afterwards is reported as possibly
    present. *)
Theorem bloom_no_false_negative opt_m opt_k keys sep k :
  (forall n, opt_m n < 2 ^ 64 - 63) -> (forall m n, opt_k m n < 2 ^ 64) -> k ∈ keys ->
  (pb ← BuildPartitionedBloom opt_m opt_k keys sep; PMayContain pb k) = Ret true.
Proof.
  intros Hm Hk Hin. destruct (Build_ok opt_m opt_k Hm Hk keys sep) as (pb & -> & Hs & Hw & Hall).
  simpl. rewrite PMayContain_ok, Hs, Hall by done. done.
Qed.

Lemma bloom_no_false_negative_witness :
  (pb ← BuildPartitionedBloom demo_m demo_k [str "log:1"; str "order:7"; str "x"] Byte.x3a;
   PMayContain pb (str "order:7")) = Ret true.
Proof.
  apply (bloom_no_false_negative demo_m demo_k).
  - intros n. unfold demo_m. lia.
  - intros m n. unfold demo_k. lia.
  - do 2 constructor.
Defined.

(** Filter round trip.  Encoding a partitioned filter (in whatever order
    the map is iterated) and decoding it gives back the same separator and the
    same partitions, so every query answers as before. *)
Theorem bloom_codec pb order n :
  order ≡ₚ map_to_list pb.(partitions) -> Forall part_ok order -> len order < 2 ^ 32 ->
  exists pb', DecodePartitionedBloom (PEncode pb order) n = Ret (Ok pb') /\
    pb'.(partitions) = pb.(partitions) /\ forall k, PMayContain pb' k = PMayContain pb k.
Proof.
  intros Ho Hok Hlen. rewrite (decode_encode_partitioned pb order n Ho Hok Hlen).
  eexists. split_and!; [done|done|]. intros k. reflexivity.
Qed.

Definition demo_pb : PartitionedBloom :=
  MkPart Byte.x3a 1 {[ str "log" := MkBloom [5] 64 2 ]}.
Lemma bloom_codec_witness :
  exists pb', DecodePartitionedBloom (PEncode demo_pb (map_to_list demo_pb.(partitions))) 1 = Ret (Ok pb') /\
    pb'.(partitions) = demo_pb.(partitions) /\ forall k, PMayContain pb' k = PMayContain demo_pb k.
Proof.
  apply (bloom_codec demo_pb (map_to_list demo_pb.(partitions)) 1); [reflexivity| |vm_compute; reflexivity].
  unfold demo_pb. cbn [partitions]. rewrite map_to_list_singleton. constructor; [|constructor].
  split; [|split; vm_compute; reflexivity].
  constructor; simpl; [lia|lia|reflexivity|]. constructor; [unfold is_u64; lia|constructor].
Defined.

(** The length check of [DecodeBloomFilter] wraps: a 16-byte block whose
    [m] field is [2^64 - 1] is accepted as a filter without words, and any
    query of it indexes out of range. *)
Theorem decode_bloom_accepts_wrapping_m :
  exists b, DecodeBloomFilter (put_be 8 (2 ^ 64 - 1) ++ put_be 8 1) = Ret (Ok b) /\
    b.(bits) = [] /\ forall key, MayContain b key = Panic.
Proof.
  eexists. split_and!; [vm_compute; reflexivity|reflexivity|].
  intros key. unfold MayContain, positions. cbn [bk bits seqZ]. simpl.
  unfold bit_clear. by rewrite index_nil.
Qed.

End Bloom.
