(* ===== verification/BlockCache.v ===== *)
(** * The data-block cache ([storage/block_cache.go])

    A sharded LRU of data blocks with a byte budget per shard.  A shard is its
    LRU list, most recent first; the [items] map of the code indexes the same
    elements by key, so a map lookup is a search of the list by key.  A cache
    that is switched off is [None], on which every method is a no-op. *)
From S2P Require Import Prelude Bytes.

Module Cache.

Definition blockCacheShards : nat := 16.

Record blockCacheKey := MkKey { path : bytes; offset : Z }.
#[export] Instance blockCacheKey_eq_dec : EqDecision blockCacheKey.
Proof. solve_decision. Defined.

Record blockCacheEntry := MkCacheEntry { ckey : blockCacheKey; cdata : bytes }.
Record blockCacheShard := MkShard { budget : Z; used : Z; lru : list blockCacheEntry }.
Definition blockCache : Type := option (list blockCacheShard).

Definition newBlockCache (budgetBytes : Z) : blockCache :=
  if budgetBytes <=? 0 then None
  else
    let per := budgetBytes / Z.of_nat blockCacheShards in
    let per := if per <? 1 then 1 else per in
    Some (replicate blockCacheShards (MkShard per 0 [])).

Definition fnv1aOffset64 : Z := 14695981039346656037.
Definition fnv1aPrime64 : Z := 1099511628211.

Definition blockCacheHashOf (p : bytes) (off : Z) : Z :=
  let h := fold_left (fun h c => u64 (Z.lxor h #c * fnv1aPrime64)) p fnv1aOffset64 in
  fold_left (fun h s => u64 (Z.lxor h (u8 (Z.shiftr off s)) * fnv1aPrime64))
            [0; 8; 16; 24; 32; 40; 48; 56] h.

(** [hash & (blockCacheShards - 1)] *)
Definition shard_of (k : blockCacheKey) : nat :=
  Z.to_nat (Z.land (blockCacheHashOf k.(path) k.(offset)) (Z.of_nat blockCacheShards - 1)).

(** [items[key]], and [MoveToFront] of its element. *)
Fixpoint lookup_key (k : blockCacheKey) (l : list blockCacheEntry) : option blockCacheEntry :=
  match l with
  | [] => None
  | e :: l => if decide (e.(ckey) = k) then Some e else lookup_key k l
  end.
Definition without (k : blockCacheKey) (l : list blockCacheEntry) : list blockCacheEntry :=
  List.filter (fun e => bool_decide (e.(ckey) <> k)) l.

Definition getShard (s : blockCacheShard) (k : blockCacheKey) : blockCacheShard * option bytes :=
  match lookup_key k s.(lru) with
  | None => (s, None)
  | Some e => (MkShard s.(budget) s.(used) (e :: without k s.(lru)), Some e.(cdata))
  end.

(** [for s.used > s.budget { evict s.lru.Back() }]; each round removes one element. *)
Fixpoint evict (fuel : nat) (s : blockCacheShard) : blockCacheShard :=
  match fuel with
  | O => s
  | S fuel =>
      if s.(budget) <? s.(used) then
        match last s.(lru) with
        | None => s
        | Some v => evict fuel (MkShard s.(budget) (s.(used) - len v.(cdata)) (removelast s.(lru)))
        end
      else s
  end.

Definition putShard (s : blockCacheShard) (k : blockCacheKey) (data : bytes) : blockCacheShard :=
  let size := len data in
  if (size =? 0) || (s.(budget) <? size) then s
  else
    match lookup_key k s.(lru) with
    | Some e => MkShard s.(budget) s.(used) (e :: without k s.(lru))
    | None =>
        evict (S (length s.(lru)))
              (MkShard s.(budget) (s.(used) + size) (MkCacheEntry k data :: s.(lru)))
    end.

Definition update_shard (c : list blockCacheShard) (k : blockCacheKey)
    (f : blockCacheShard -> blockCacheShard) : list blockCacheShard := alter f (shard_of k) c.

Definition get (c : blockCache) (p : bytes) (off : Z) : blockCache * option bytes :=
  match c with
  | None => (None, None)
  | Some sh =>
      let k := MkKey p off in
      (Some (update_shard sh k (fun s => (getShard s k).1)),
       s ← sh !! shard_of k; (getShard s k).2)
  end.

Definition put (c : blockCache) (p : bytes) (off : Z) (data : bytes) : blockCache :=
  match c with
  | None => None
  | Some sh => let k := MkKey p off in Some (update_shard sh k (fun s => putShard s k data))
  end.

Definition drop_shard (p : bytes) (s : blockCacheShard) : blockCacheShard :=
  let gone := List.filter (fun e => beqb e.(ckey).(path) p) s.(lru) in
  MkShard s.(budget) (fold_left (fun u e => u - len e.(cdata)) gone s.(used))
          (List.filter (fun e => negb (beqb e.(ckey).(path) p)) s.(lru)).
Definition dropFile (c : blockCache) (p : bytes) : blockCache := map (drop_shard p) <$> c.

(** ** Shard invariant *)
Definition bytes_of (l : list blockCacheEntry) : Z := fold_right (fun e n => len e.(cdata) + n) 0 l.

Section Coherent.
(** What every cached block satisfies: that it is the block of its file. *)
Context (Q : blockCacheEntry -> Prop).

Record shard_ok (s : blockCacheShard) : Prop := {
  sh_used : s.(used) = bytes_of s.(lru);
  sh_budget : s.(used) <= s.(budget);
  sh_nodup : NoDup (map ckey s.(lru));
  sh_data : Forall Q s.(lru) }.

Lemma bytes_of_app a b : bytes_of (a ++ b) = bytes_of a + bytes_of b.
Proof. induction a as [|e a IH]; simpl; [done|]. rewrite IH. lia. Qed.
Lemma bytes_of_nonneg l : 0 <= bytes_of l.
Proof. induction l as [|e l IH]; simpl; [done|]. len_lia. Qed.

Lemma lookup_key_split k l e : lookup_key k l = Some e -> exists a b, l = a ++ e :: b /\ e.(ckey) = k /\ k ∉ map ckey a.
Proof.
  induction l as [|x l IH]; simpl; [done|]. destruct (decide (ckey x = k)) as [E|E].
  - intros [= ->]. exists [], l. split_and!; [done|done|set_solver].
  - intros H. destruct (IH H) as (a & b & -> & He & Ha). exists (x :: a), b. split_and!; [done|done|set_solver].
Qed.

Lemma lookup_key_None k l : lookup_key k l = None -> k ∉ map ckey l.
Proof.
  induction l as [|x l IH]; simpl; [set_solver|]. destruct (decide (ckey x = k)); [done|].
  intros H. specialize (IH H). set_solver.
Qed.

Lemma without_notin k l : k ∉ map ckey l -> without k l = l.
Proof.
  induction l as [|x l IH]; simpl; [done|]. intros H. rewrite bool_decide_eq_true_2 by set_solver.
  f_equal. apply IH. set_solver.
Qed.

(** Moving an element to the front permutes the list. *)
Lemma move_front_perm k l e : NoDup (map ckey l) -> lookup_key k l = Some e -> e :: without k l ≡ₚ l.
Proof.
  intros Hnd H. destruct (lookup_key_split k l e H) as (a & b & -> & He & Ha).
  rewrite map_app in Hnd. simpl in Hnd. apply NoDup_app in Hnd as (_ & _ & Hnd).
  apply NoDup_cons in Hnd as [Hb _]. unfold without. rewrite List.filter_app. simpl.
  rewrite bool_decide_eq_false_2 by (rewrite He; tauto).
  fold (without k a). fold (without k b). rewrite !without_notin by (done || by rewrite <- He).
  apply Permutation_middle.
Qed.

Lemma bytes_of_perm a b : a ≡ₚ b -> bytes_of a = bytes_of b.
Proof. induction 1; simpl; lia. Qed.

Lemma shard_ok_perm s l : shard_ok s -> l ≡ₚ s.(lru) -> shard_ok (MkShard s.(budget) s.(used) l).
Proof.
  intros [H1 H2 H3 H4] HP. constructor; simpl; [by rewrite (bytes_of_perm _ _ HP)|done| |].
  - by rewrite HP.
  - by rewrite HP.
Qed.

Lemma getShard_ok s k : shard_ok s ->
  shard_ok (getShard s k).1 /\
  forall d, (getShard s k).2 = Some d -> Q (MkCacheEntry k d).
Proof.
  intros H. unfold getShard. destruct (lookup_key k (lru s)) as [e|] eqn:E; simpl; [|done].
  split; [by apply shard_ok_perm; [|apply move_front_perm; [apply H|]]|].
  intros d [= <-]. destruct (lookup_key_split k _ e E) as (a & b & El & Hk & _).
  pose proof (sh_data _ H) as Hd. rewrite El, Forall_app, Forall_cons in Hd. destruct Hd as (_ & Hq & _).
  rewrite <- Hk. by destruct e.
Qed.

(** Eviction restores the budget: the newest block alone fits it. *)
Lemma evict_ok fuel s : (length s.(lru) <= fuel)%nat -> 0 <= s.(budget) ->
  s.(used) = bytes_of s.(lru) -> NoDup (map ckey s.(lru)) ->
  Forall Q s.(lru) ->
  shard_ok (evict fuel s) /\ (evict fuel s).(budget) = s.(budget) /\ exists l, s.(lru) = (evict fuel s).(lru) ++ l.
Proof.
  revert s. induction fuel as [|fuel IH]; intros s Hf Hb Hu Hnd Hd; simpl.
  - destruct (lru s) as [|e l] eqn:E; [|simpl in Hf; lia]. simpl in Hu.
    split_and!; [|done|by exists []]. constructor; rewrite ?E; simpl; try done; lia.
  - destruct (Z.ltb_spec (budget s) (used s)) as [L|L].
    + destruct (last (lru s)) as [v|] eqn:E.
      * assert (exists l, lru s = l ++ [v]) as [l El].
        { destruct (decide (lru s = [])) as [E0|Hne]; [rewrite E0 in E; done|].
          destruct (exists_last Hne) as (l & x & El). rewrite El, last_snoc in E. injection E as ->. by exists l. }
        rewrite El in *. rewrite removelast_last. rewrite length_app in Hf. simpl in Hf.
        rewrite bytes_of_app in Hu. simpl in Hu. rewrite map_app in Hnd. apply NoDup_app in Hnd as (Hnd & _ & _).
        apply Forall_app in Hd as [Hd _].
        destruct (IH (MkShard (budget s) (used s - len (cdata v)) l)) as (H1 & H2 & l' & H3); simpl; try done; [lia|lia|].
        simpl in H3. split_and!; [done|done|]. exists (l' ++ [v]). rewrite app_assoc. by rewrite <- H3.
      * apply last_None in E. rewrite E in Hu. simpl in Hu. lia.
    + split_and!; [by constructor|done|]. exists []. by rewrite app_nil_r.
Qed.

Lemma putShard_ok s k data : shard_ok s -> 0 <= s.(budget) -> Q (MkCacheEntry k data) ->
  shard_ok (putShard s k data) /\ (putShard s k data).(budget) = s.(budget).
Proof.
  intros H Hb Hq. unfold putShard. destruct (_ || _) eqn:Es; [done|].
  destruct (lookup_key k (lru s)) as [e|] eqn:E.
  - split; [|done]. apply shard_ok_perm; [done|]. apply move_front_perm; [apply H|done].
  - pose proof H as [H1 H2 H3 H4].
    destruct (evict_ok (S (length (lru s)))
      (MkShard (budget s) (used s + len data) (MkCacheEntry k data :: lru s))) as (A & B & _); simpl; try done.
    + rewrite H1. lia.
    + apply NoDup_cons. split; [by apply lookup_key_None|done].
    + by constructor.
Qed.

Lemma fold_used l u : fold_left (fun u e => u - len (cdata e)) l u = u - bytes_of l.
Proof. revert u. induction l as [|e l IH]; intros u; simpl; [lia|]. rewrite IH. lia. Qed.

Lemma bytes_of_filter P l :
  bytes_of l = bytes_of (List.filter P l) + bytes_of (List.filter (fun e => negb (P e)) l).
Proof. induction l as [|e l IH]; simpl; [done|]. destruct (P e); simpl; lia. Qed.

Lemma drop_shard_ok s p : shard_ok s ->
  shard_ok (drop_shard p s) /\ Forall (fun e => e.(ckey).(path) <> p) (drop_shard p s).(lru).
Proof.
  intros [H1 H2 H3 H4]. unfold drop_shard. simpl.
  pose proof (bytes_of_filter (fun e => beqb (path (ckey e)) p) (lru s)) as Hb. cbv beta in Hb.
  pose proof (bytes_of_nonneg (List.filter (fun e => beqb (path (ckey e)) p) (lru s))) as Hn.
  split; [constructor; simpl|].
  - rewrite fold_used. lia.
  - rewrite fold_used. lia.
  - clear - H3. induction (lru s) as [|e l IH]; simpl; [done|]. simpl in H3. apply NoDup_cons in H3 as [Hi Hl].
    destruct (negb _); simpl; [|auto]. apply NoDup_cons. split; [|auto].
    intros (x & Hx & Hin)%list_elem_of_fmap. apply Hi. apply list_elem_of_fmap. exists x. split; [done|].
    apply list_elem_of_In in Hin. apply List.filter_In in Hin as [Hin _]. by apply list_elem_of_In.
  - rewrite Forall_forall in *. intros x Hx. apply H4. apply list_elem_of_In, List.filter_In in Hx as [Hx _].
    by apply list_elem_of_In.
  - apply Forall_forall. intros x Hx. apply list_elem_of_In, List.filter_In in Hx as [_ Hx].
    apply negb_true_iff in Hx. by bcmp.
Qed.

(** ** The sharded cache *)
Definition cache_ok (c : blockCache) : Prop :=
  match c with None => True | Some sh => Forall (fun s => shard_ok s /\ 0 <= s.(budget)) sh end.

Lemma newBlockCache_ok b : cache_ok (newBlockCache b).
Proof.
  unfold newBlockCache. destruct (b <=? 0) eqn:E; cbn [cache_ok]; [done|].
  assert (0 <= (if b / 16 <? 1 then 1 else b / 16)) as Hb by (destruct (Z.ltb_spec (b / 16) 1); lia).
  change (Z.of_nat blockCacheShards) with 16. apply (Forall_replicate _ blockCacheShards). split; [|done].
  constructor; simpl; [done|done|constructor|constructor].
Qed.

Lemma get_ok c p off : cache_ok c ->
  cache_ok (get c p off).1 /\ forall d, (get c p off).2 = Some d -> Q (MkCacheEntry (MkKey p off) d).
Proof.
  intros H. destruct c as [sh|]; [|done]. cbn [get fst snd]. split.
  - apply Forall_alter; [done|]. intros s Hs. apply (Forall_lookup_1 _ _ _ _ H) in Hs as [Hs Hb].
    split; [by apply getShard_ok|]. unfold getShard. by destruct (lookup_key _ _).
  - intros d. destruct (sh !! shard_of (MkKey p off)) as [s|] eqn:E; [|done]. simpl.
    intros Hd. apply (Forall_lookup_1 _ _ _ _ H) in E as [Hs _].
    by apply (getShard_ok s (MkKey p off) Hs).
Qed.

Lemma put_ok c p off data :
  cache_ok c -> Q (MkCacheEntry (MkKey p off) data) -> cache_ok (put c p off data).
Proof.
  intros H Hq. destruct c as [sh|]; [|done]. cbn [put]. apply Forall_alter; [done|].
  intros s Hs. apply (Forall_lookup_1 _ _ _ _ H) in Hs as [Hs Hb].
  destruct (putShard_ok s (MkKey p off) data Hs Hb Hq) as [A B]. split; [exact A|]. by rewrite B.
Qed.

Lemma dropFile_ok c p : cache_ok c -> cache_ok (dropFile c p).
Proof.
  intros H. destruct c as [sh|]; [|done]. simpl. apply Forall_fmap. eapply Forall_impl; [exact H|].
  intros s [Hs Hb]. split; [by apply drop_shard_ok|done].
Qed.
End Coherent.

(** Weakening what is known of the blocks. *)
Lemma cache_ok_impl (Q Q' : blockCacheEntry -> Prop) c :
  (forall e, Q e -> Q' e) -> cache_ok Q c -> cache_ok Q' c.
Proof.
  intros H Hc. destruct c as [sh|]; [|done]. eapply Forall_impl; [exact Hc|].
  intros s [[H1 H2 H3 H4] Hb]. split; [|done]. constructor; [done..|]. by eapply Forall_impl.
Qed.

Lemma dropFile_impl (Q Q' : blockCacheEntry -> Prop) c p :
  (forall e, Q e -> e.(ckey).(path) <> p -> Q' e) -> cache_ok Q c -> cache_ok Q' (dropFile c p).
Proof.
  intros H Hc. destruct c as [sh|]; [|done]. simpl. apply Forall_fmap. eapply Forall_impl; [exact Hc|].
  intros s [Hs Hb]. destruct (drop_shard_ok Q s p Hs) as [[H1 H2 H3 H4] Hp]. split; [|done].
  constructor; [done..|]. apply Forall_forall. intros e He. rewrite Forall_forall in H4, Hp. auto.
Qed.

(** A history of cache operations; a block is stored as it is in its file. *)
Inductive op := OpGet (p : bytes) (off : Z) | OpPut (p : bytes) (off : Z) | OpDrop (p : bytes).
Definition apply_op (content : bytes -> Z -> bytes) (c : blockCache) (o : op) : blockCache :=
  match o with
  | OpGet p off => (get c p off).1
  | OpPut p off => put c p off (content p off)
  | OpDrop p => dropFile c p
  end.

(** C14: The block cache is transparent and bounded.  After any sequence of
    lookups, insertions of blocks as their files hold them and file drops, a
    hit returns exactly the bytes of the block asked for; every shard's
    [used] is the sum of its block sizes and within its budget; and after
    [dropFile] no block of the file is left. *)
Theorem block_cache_coherent content budgetBytes ops :
  let c := fold_left (apply_op content) ops (newBlockCache budgetBytes) in
  (forall p off d, (get c p off).2 = Some d -> d = content p off) /\
  (forall sh s, c = Some sh -> s ∈ sh -> s.(used) = bytes_of s.(lru) /\ 0 <= s.(used) <= s.(budget)) /\
  (forall p sh s, dropFile c p = Some sh -> s ∈ sh -> Forall (fun e => e.(ckey).(path) <> p) s.(lru)).
Proof.
  intros c. set (Q := fun e => e.(cdata) = content e.(ckey).(path) e.(ckey).(offset)).
  assert (cache_ok Q c) as Hc.
  { subst c. generalize (newBlockCache_ok Q budgetBytes).
    generalize (newBlockCache budgetBytes). induction ops as [|o ops IH]; intros c Hc; simpl; [done|].
    apply IH. destruct o; simpl; [by apply get_ok|by apply put_ok|by apply dropFile_ok]. }
  split_and!.
  - intros p off. by apply (get_ok Q).
  - intros sh s -> Hs. simpl in Hc. rewrite Forall_forall in Hc. destruct (Hc s Hs) as [[H1 H2 _ _] _].
    split; [done|]. pose proof (bytes_of_nonneg (lru s)). lia.
  - intros p sh s Hd Hs. destruct c as [sh'|]; [|done]. injection Hd as <-.
    apply list_elem_of_fmap in Hs as (s' & -> & Hs'). simpl in Hc. rewrite Forall_forall in Hc.
    by apply (drop_shard_ok Q), Hc.
Qed.

End Cache.
