(* ===== verification/SSTFile.v ===== *)
(** * The SSTable file format ([storage/sstable_write.go], [sstable_read.go],
      [iterator.go], [sstable.go])

    A file is its byte content:

    [data section][block index][bloom blob][bloom length, magic][footer]

    The writer groups entries into blocks of [SSTableBlockSize] and records the
    last key and the start offset of each.  The readers are modelled on the
    bytes: footer and index parsing, bloom loading, point lookup by binary
    search and block scan, sequential iteration from a start key, and the
    footer-less full read.  Nothing in a reader assumes that the file came from
    the writer. *)
From S2P Require Import Prelude Bytes Entries Bloom.
Import Bloom.

Module Sst.

Definition SSTableBlockSize : nat := 64.
Definition indexFooterMagic : Z := 0x49445846.
Definition indexFooterSize : Z := 16.
Definition bloomTrailerMagic : Z := 0x424c4d46.
Definition bloomTrailerSize : Z := 12.
Definition maxBloomSectionBytes : Z := 2 ^ 30.
Definition tombstoneValLen : Z := 0xFFFFFFFF.
Definition DefaultNamespaceSep : byte := Byte.x3a.

(** [BlockIndexEntry] (and the builder's [blockMeta]). *)
Record BlockIndexEntry := MkBlock { LastKey : bytes; BlockOffset : Z }.
Record blockIndex := MkIndex { bi_entries : list BlockIndexEntry; dataEnd : Z }.

(** ** Writing *)
Definition write_entry (e : LogEntry) : bytes :=
  put_be 4 (u32 (len e.(Key))) ++ e.(Key) ++
  match e.(Value) with
  | None => put_be 4 tombstoneValLen
  | Some v => put_be 4 (u32 (len v)) ++ v
  end.
Definition write_data (es : list LogEntry) : bytes := concat (map write_entry es).

(** The loop over the entries: counter, data buffer, block index. *)
Record builder := MkBuilder { b_i : nat; b_buf : bytes; b_idx : list BlockIndexEntry }.

Definition build_step (st : builder) (e : LogEntry) : go builder :=
  let bi := (st.(b_i) / SSTableBlockSize)%nat in
  let idx := if (st.(b_i) mod SSTableBlockSize =? 0)%nat
             then st.(b_idx) ++ [MkBlock [] (len st.(b_buf))] else st.(b_idx) in
  match idx !! bi with
  | None => Panic
  | Some b => Ret (MkBuilder (S st.(b_i)) (st.(b_buf) ++ write_entry e)
                             (<[bi := MkBlock e.(Key) b.(BlockOffset)]> idx))
  end.

Fixpoint build_loop (st : builder) (es : list LogEntry) : go builder :=
  match es with [] => Ret st | e :: es => st ← build_step st e; build_loop st es end.

Definition write_index (blocks : list BlockIndexEntry) : bytes :=
  concat (map (fun b => put_be 4 (u32 (len b.(LastKey))) ++ b.(LastKey) ++ put_be 8 (u64 b.(BlockOffset))) blocks).

Section Write.
(** The sizing of bloom filters and the iteration order of Go maps. *)
Context (opt_m : Z -> Z) (opt_k : Z -> Z -> Z) (iter_order : gmap bytes BloomFilter -> list (bytes * BloomFilter)).

Definition writeBloomSection (keys : list bytes) : go (bytes * PartitionedBloom) :=
  pb ← BuildPartitionedBloom opt_m opt_k keys DefaultNamespaceSep;
  let blob := PEncode pb (iter_order pb.(partitions)) in
  Ret (blob ++ put_be 8 (u64 (len blob)) ++ put_be 4 bloomTrailerMagic, pb).

Definition writeTail (blocks : list BlockIndexEntry) (keys : list bytes) (indexStart : Z)
    : go (bytes * PartitionedBloom) :=
  '(bloom, pb) ← writeBloomSection keys;
  Ret (write_index blocks ++ bloom ++
       put_be 4 (u32 (len blocks)) ++ put_be 8 (u64 indexStart) ++ put_be 4 indexFooterMagic, pb).

(** The bytes of a new file, with the index and filter the writer caches. *)
Definition sst_contents (es : list LogEntry) : go (bytes * blockIndex * PartitionedBloom) :=
  st ← build_loop (MkBuilder 0 [] []) es;
  let indexStart := len st.(b_buf) in
  '(tail, pb) ← writeTail st.(b_idx) (map Key es) indexStart;
  Ret (st.(b_buf) ++ tail, MkIndex st.(b_idx) indexStart, pb).
End Write.

(** ** Reading *)

(** [f.Seek(-n, io.SeekEnd)]: fails before the start of the file. *)
Definition seek_end (f : bytes) (n : Z) : option bytes :=
  if len f <? n then None else Some (drop (Z.to_nat (len f - n)) f).

Fixpoint read_index (n : nat) (r : bytes) : option (list BlockIndexEntry) :=
  match n with
  | O => Some []
  | S n =>
      '(kl, r) ← read_full 4 r;
      '(k, r) ← read_full (get_be kl) r;
      '(off, r) ← read_full 8 r;
      rest ← read_index n r;
      Some (MkBlock k (s64 (get_be off)) :: rest)
  end.

(** Block count, index offset and magic of the last 16 bytes. *)
Definition read_footer (f : bytes) : option (Z * Z * Z) :=
  r ← seek_end f indexFooterSize;
  '(cnt, r) ← read_full 4 r;
  '(off, r) ← read_full 8 r;
  '(magic, r) ← read_full 4 r;
  Some (get_be cnt, s64 (get_be off), get_be magic).

Definition loadBlockIndexFromFile (f : bytes) : option blockIndex :=
  '(blockCount, indexOffset, magic) ← read_footer f;
  if negb (magic =? indexFooterMagic) || (blockCount =? 0) || (indexOffset <=? 0) then None
  else
    entries ← read_index (Z.to_nat blockCount) (drop (Z.to_nat indexOffset) f);
    Some (MkIndex entries indexOffset).

Definition sstableDataEnd (f : bytes) : Z :=
  match read_footer f with
  | None => -1
  | Some (blockCount, indexOffset, magic) =>
      if (magic =? indexFooterMagic) && (0 <? blockCount) && (0 <? indexOffset) then indexOffset else -1
  end.

Definition loadBloomFromFile (f : bytes) : go (option PartitionedBloom) :=
  match r ← seek_end f (indexFooterSize + bloomTrailerSize);
        '(bl, r) ← read_full 8 r;
        '(magic, _) ← read_full 4 r;
        let bloomLen := get_be bl in
        if negb (get_be magic =? bloomTrailerMagic) || (bloomLen =? 0) || (maxBloomSectionBytes <? bloomLen)
        then None
        else
          r ← seek_end f (indexFooterSize + bloomTrailerSize + bloomLen);
          '(blob, _) ← read_full bloomLen r;
          Some blob
  with
  | None => Ret None
  | Some blob =>
      d ← DecodePartitionedBloom blob 0;
      Ret match d with Ok pb => Some pb | Err _ => None end
  end.

(** [blockExtent] *)
Definition blockExtent (bi : blockIndex) (i : nat) : option (Z * Z) :=
  e ← bi.(bi_entries) !! i;
  Some (e.(BlockOffset), match bi.(bi_entries) !! S i with
                         | Some n => n.(BlockOffset)
                         | None => bi.(dataEnd)
                         end).

(** The binary search shared by [searchBlock] and [newSSTableIteratorFrom]; the
    interval shrinks every round, so [fuel] = its width is enough. *)
Fixpoint bsearch (fuel : nat) (idx : list BlockIndexEntry) (key : bytes) (lo hi : nat) : nat :=
  match fuel with
  | O => lo
  | S fuel =>
      if (lo <? hi)%nat then
        let mid := ((lo + hi) / 2)%nat in
        match idx !! mid with
        | Some b => if bleb key b.(LastKey) then bsearch fuel idx key lo mid
                    else bsearch fuel idx key (S mid) hi
        | None => lo
        end
      else lo
  end.
Definition find_block (idx : list BlockIndexEntry) (key : bytes) : nat :=
  bsearch (length idx) idx key 0 (length idx - 1).

(** The scan of one block: [None] not found, [Some None] tombstone. *)
Fixpoint scan_block (fuel : nat) (r : bytes) (key : bytes) : option (option bytes) :=
  match fuel with
  | O => None
  | S fuel =>
      if len r <? 4 then None
      else
        let kLen := get_be (take 4 r) in
        let r := drop 4 r in
        if len r <? kLen + 4 then None
        else
          let k := take (Z.to_nat kLen) r in
          let r := drop (Z.to_nat kLen) r in
          let vLen := get_be (take 4 r) in
          let r := drop 4 r in
          if vLen =? tombstoneValLen then
            match compare k key with
            | Eq => Some None
            | Gt => None
            | Lt => scan_block fuel r key
            end
          else if len r <? vLen then None
          else
            match compare k key with
            | Eq => Some (Some (take (Z.to_nat vLen) r))
            | Gt => None
            | Lt => scan_block fuel (drop (Z.to_nat vLen) r) key
            end
  end.

(** [f.ReadAt(buf, start)] filling [end - start] bytes. *)
Definition ReadAt (f : bytes) (start stop : Z) : option bytes :=
  if (0 <=? start) && (stop <=? len f)
  then Some (take (Z.to_nat (stop - start)) (drop (Z.to_nat start) f)) else None.

(** [searchBlock], over the block reader (cache or file). *)
Definition searchBlock (read : Z -> Z -> option bytes) (key : bytes) (bi : blockIndex)
    : option (option bytes) :=
  let idx := bi.(bi_entries) in
  let lo := find_block idx key in
  match blockExtent bi lo with
  | None => None
  | Some (start, stop) =>
      if stop <=? start then None
      else
        match read start stop with
        | None => None
        | Some buf => scan_block (length buf) buf key
        end
  end.

(** ** Sequential iteration *)
Inductive next_result := NEnd | NErr | NEntry (e : LogEntry) (size : Z) (rest : bytes).

(** One [Next] once the position test has passed: a header cut short ends the
    iteration, anything else cut short is an error. *)
Definition iter_read (r : bytes) : next_result :=
  match read_full 4 r with
  | None => NEnd
  | Some (kl, r) =>
      match read_full (get_be kl) r with
      | None => NErr
      | Some (k, r) =>
          match read_full 4 r with
          | None => NErr
          | Some (vl, r) =>
              let valLen := get_be vl in
              if valLen =? tombstoneValLen then NEntry (MkLogEntry k None) (8 + get_be kl) r
              else
                match read_full valLen r with
                | None => NErr
                | Some (v, r) => NEntry (MkLogEntry k (Some v)) (8 + get_be kl + valLen) r
                end
          end
      end
  end.

(** The entries an iterator yields from [pos], and whether it stops on an error.
    Every entry takes at least 8 bytes, so [fuel] = bytes left is enough. *)
Fixpoint iterate (fuel : nat) (dend pos : Z) (r : bytes) : list LogEntry * bool :=
  match fuel with
  | O => ([], false)
  | S fuel =>
      if (0 <? dend) && (dend <=? pos) then ([], false)
      else
        match iter_read r with
        | NEnd => ([], false)
        | NErr => ([], true)
        | NEntry e size r =>
            let '(es, err) := iterate fuel dend (pos + size) r in (e :: es, err)
        end
  end.

(** [newSSTableIterator] run to its end. *)
Definition iter_file (f : bytes) : list LogEntry * bool := iterate (S (length f)) (sstableDataEnd f) 0 f.

(** [newSSTableIteratorFrom]: skip to the block that may hold [start]. *)
Definition iter_file_from (f : bytes) (bi : option blockIndex) (start : bytes) : list LogEntry * bool :=
  match start, bi with
  | [], _ | _, None => iter_file f
  | _, Some bi =>
      match bi.(bi_entries) !! find_block bi.(bi_entries) start with
      | None => iter_file f
      | Some b =>
          if bltb b.(LastKey) start then ([], false)
          else
            let off := b.(BlockOffset) in
            iterate (S (length f)) (sstableDataEnd f) off (drop (Z.to_nat off) f)
      end
  end.

(** [ReadAllFromSSTable]: whatever cannot be parsed ends the read. *)
Definition ReadAllFromSSTable (f : bytes) : list LogEntry := (iter_file f).1.

Definition readFromSSTableFull (f : bytes) (key : bytes) : option (option bytes) :=
  find_key key (ReadAllFromSSTable f).

(** [ReadFromSSTable] given the filter and index of the file (cached or loaded)
    and a block reader: the filter rejects, the index locates, a file without a
    footer is read in full. *)
Definition ReadFromSSTable (bloom : option PartitionedBloom) (idx : option blockIndex)
    (read : Z -> Z -> option bytes) (f : bytes) (key : bytes) : go (option (option bytes)) :=
  may ← match bloom with None => Ret true | Some pb => PMayContain pb key end;
  Ret (if may : bool then
         match idx with
         | Some bi => searchBlock read key bi
         | None => readFromSSTableFull f key
         end
       else None).

(** The uncached lookup. *)
Definition lookup_file (f : bytes) (key : bytes) : go (option (option bytes)) :=
  bloom ← loadBloomFromFile f;
  ReadFromSSTable bloom (loadBlockIndexFromFile f) (ReadAt f) f key.

(** ** Entries read back *)
Definition entry_fits (e : LogEntry) : Prop := len e.(Key) < 2 ^ 32 /\ vlen e.(Value) < 2 ^ 32 - 1.

Lemma write_data_cons e es : write_data (e :: es) = write_entry e ++ write_data es.
Proof. done. Qed.
Lemma write_data_app a b : write_data (a ++ b) = write_data a ++ write_data b.
Proof. unfold write_data. by rewrite map_app, concat_app. Qed.

Lemma len_write_entry e : len (write_entry e) = 8 + len e.(Key) + vlen e.(Value).
Proof. unfold write_entry. destruct (Value e); simpl; len_lia. Qed.

Lemma get_put_tomb : get_be (put_be 4 tombstoneValLen) = tombstoneValLen.
Proof. reflexivity. Qed.

Lemma vlen_lt_tomb (v : bytes) : len v < 2 ^ 32 - 1 -> (len v =? tombstoneValLen) = false.
Proof. unfold tombstoneValLen. lia. Qed.

Lemma iter_read_entry e r : entry_fits e ->
  iter_read (write_entry e ++ r) = NEntry e (len (write_entry e)) r.
Proof.
  intros [Hk Hv]. rewrite len_write_entry. unfold iter_read, write_entry. rewrite <- !app_assoc.
  rewrite read_full_4, get_put_be4, read_full_app by done.
  destruct e as [k [v|]]; simpl Value in *; simpl Key in *; unfold vlen in *.
  - rewrite <- app_assoc, read_full_4, get_put_be4 by lia. rewrite vlen_lt_tomb, read_full_app by done. done.
  - rewrite read_full_4, get_put_tomb. replace (8 + len k + 0) with (8 + len k) by lia. done.
Qed.

Lemma scan_block_entry fuel e r key : entry_fits e ->
  scan_block (S fuel) (write_entry e ++ r) key =
  match compare e.(Key) key with
  | Eq => Some e.(Value)
  | Gt => None
  | Lt => scan_block fuel r key
  end.
Proof.
  intros [Hk Hv]. unfold write_entry. rewrite <- !app_assoc. cbn [scan_block].
  replace (_ <? 4) with false by len_lia.
  rewrite (take_app_length' (put_be 4 _)), (drop_app_length' (put_be 4 _)), get_put_be4
    by (done || by rewrite length_put_be).
  destruct e as [k v]. simpl Value in *. simpl Key in *.
  replace (_ <? len k + 4) with false by (destruct v; len_lia).
  replace (Z.to_nat (len k)) with (length k) by (unfold len; lia).
  rewrite take_app_length, drop_app_length. destruct v as [v|]; simpl vlen in *.
  - rewrite <- !app_assoc.
    rewrite (take_app_length' (put_be 4 _)), (drop_app_length' (put_be 4 _)), get_put_be4
      by (lia || by rewrite length_put_be).
    rewrite vlen_lt_tomb by done. replace (_ <? len v) with false by len_lia.
    replace (Z.to_nat (len v)) with (length v) by (unfold len; lia).
    by rewrite take_app_length, drop_app_length.
  - rewrite (take_app_length' (put_be 4 _)), (drop_app_length' (put_be 4 _)), get_put_tomb
      by by rewrite length_put_be. done.
Qed.

Lemma find_key_below k e es : ascending (e :: es) -> blt k e.(Key) -> find_key k (e :: es) = None.
Proof.
  intros [_ Hl]%ascending_cons_inv Hk. apply find_key_None. intros x [->|Hx]%elem_of_cons E; subst k.
  - border.
  - specialize (Hl x Hx). border.
Qed.

(** A block scan finds what the entries hold, stopping early past the key. *)
Lemma scan_block_ok fuel es key : ascending es -> Forall entry_fits es -> (length es < fuel)%nat ->
  scan_block fuel (write_data es) key = find_key key es.
Proof.
  revert fuel. induction es as [|e es IH]; intros fuel Ha Hf Hl; cbn [length] in Hl.
  - destruct fuel; [lia|]. done.
  - destruct fuel as [|fuel]; [lia|]. apply Forall_cons in Hf as [He Hf].
    rewrite write_data_cons, scan_block_entry by done.
    pose proof Ha as [Hs _]%ascending_cons_inv.
    destruct (compare_case (Key e) key) as [C|C|C].
    + rewrite IH by (done || lia). cbn [find_key].
      rewrite (proj2 (beqb_neq (Key e) key)); [done|by apply blt_neq].
    + cbn [find_key]. by rewrite C, beqb_refl.
    + symmetry. by apply find_key_below.
Qed.

(** ** The block index *)
Definition off (es : list LogEntry) (j : nat) : Z := len (write_data (take (SSTableBlockSize * j) es)).
Definition blk (es : list LogEntry) (j : nat) : list LogEntry :=
  take SSTableBlockSize (drop (SSTableBlockSize * j) es).
Definition nblk (es : list LogEntry) : nat := ((length es + 63) / SSTableBlockSize)%nat.
Definition index_entry (es : list LogEntry) (j : nat) : BlockIndexEntry :=
  MkBlock (default [] (Key <$> last (blk es j))) (off es j).
Definition mk_index (es : list LogEntry) : list BlockIndexEntry :=
  map (index_entry es) (seq 0 (nblk es)).
Definition built (es : list LogEntry) : builder := MkBuilder (length es) (write_data es) (mk_index es).

Lemma mk_index_lookup es j : (j < nblk es)%nat -> mk_index es !! j = Some (index_entry es j).
Proof. intros H. unfold mk_index. rewrite list_lookup_fmap, lookup_seq_lt by done. done. Qed.

Lemma length_mk_index es : length (mk_index es) = nblk es.
Proof. unfold mk_index. by rewrite length_map, length_seq. Qed.

(** Division facts the block arithmetic needs. *)
Lemma blk_div (n : nat) : exists q r, (n = 64 * q + r /\ r < 64 /\ n / SSTableBlockSize = q /\
  n mod SSTableBlockSize = r /\ (n + 63) / SSTableBlockSize = if (r =? 0)%nat then q else S q)%nat.
Proof.
  unfold SSTableBlockSize. pose proof (Nat.div_mod_eq n 64). pose proof (Nat.mod_upper_bound n 64 ltac:(lia)).
  exists (n / 64)%nat, (n mod 64)%nat. split_and!; try lia.
  destruct (Nat.eqb_spec (n mod 64) 0); symmetry; apply Nat.div_unique with (r := ((n mod 64 + 63) mod 64)%nat).
  - apply Nat.mod_upper_bound. lia.
  - rewrite e, Nat.add_0_l. rewrite (Nat.mod_small 63 64) by lia. lia.
  - apply Nat.mod_upper_bound. lia.
  - replace (n mod 64 + 63)%nat with (n mod 64 - 1 + 1 * 64)%nat by lia.
    rewrite Nat.Div0.mod_add, Nat.mod_small; lia.
Qed.

Lemma index_entry_old es e j : (64 * S j <= length es)%nat -> index_entry (es ++ [e]) j = index_entry es j.
Proof.
  intros H. unfold index_entry, blk, off, SSTableBlockSize.
  rewrite (drop_app_le es) by lia. rewrite take_app_le by (rewrite length_drop; lia).
  rewrite (take_app_le es) by lia. done.
Qed.

Lemma index_entry_new es e j :
  (64 * j <= length es < 64 * S j)%nat -> index_entry (es ++ [e]) j = MkBlock e.(Key) (off es j).
Proof.
  intros H. unfold index_entry, blk, off, SSTableBlockSize.
  rewrite (drop_app_le es), (take_app_le es) by lia.
  rewrite take_ge by (rewrite length_app, length_drop; simpl; lia).
  by rewrite last_snoc.
Qed.

Lemma off_end es j : (length es = 64 * j)%nat -> off es j = len (write_data es).
Proof. intros H. unfold off, SSTableBlockSize. by rewrite take_ge by lia. Qed.

Lemma build_step_ok es e : build_step (built es) e = Ret (built (es ++ [e])).
Proof.
  unfold build_step, built. cbn [b_i b_buf b_idx].
  destruct (blk_div (length es)) as (q & r & Hn & Hr & -> & -> & Hb).
  destruct (blk_div (S (length es))) as (q' & r' & Hn' & Hr' & _ & _ & Hb').
  assert (Hlen : length (es ++ [e]) = S (length es)) by (rewrite length_app; simpl; lia).
  assert (Hnb' : nblk (es ++ [e]) = S q).
  { unfold nblk. rewrite Hlen, Hb'. destruct (Nat.eqb_spec r' 0); lia. }
  assert (Hoff : r = O -> off es q = len (write_data es)) by (intros ->; apply off_end; lia).
  set (idx := if (r =? 0)%nat then mk_index es ++ [MkBlock [] (len (write_data es))] else mk_index es).
  assert (Hil : length idx = S q).
  { subst idx. unfold nblk in *. destruct (Nat.eqb_spec r 0);
      rewrite ?length_app, length_mk_index; unfold nblk; rewrite Hb; simpl; lia. }
  assert (Hold : forall j, (j < q)%nat -> idx !! j = Some (index_entry es j)).
  { intros j Hj. subst idx. assert (j < nblk es)%nat by (unfold nblk; rewrite Hb; destruct (r =? 0)%nat; lia).
    destruct (r =? 0)%nat; rewrite ?lookup_app_l by (rewrite length_mk_index; lia); by apply mk_index_lookup. }
  assert (exists b, idx !! q = Some b /\ BlockOffset b = off es q) as (b & Hq & Hbo).
  { subst idx. destruct (Nat.eqb_spec r 0) as [Hr0|Hr0].
    - exists (MkBlock [] (len (write_data es))). rewrite lookup_app_r, length_mk_index
        by (rewrite length_mk_index; unfold nblk; lia).
      replace (q - nblk es)%nat with O by (unfold nblk; lia). by rewrite Hoff.
    - exists (index_entry es q). split; [|done]. apply mk_index_lookup. unfold nblk. lia. }
  rewrite Hq. f_equal. f_equal; [by rewrite Hlen|by rewrite write_data_app; unfold write_data; simpl; rewrite app_nil_r|].
  apply (list_eq_same_length _ _ (S q)); [by rewrite length_mk_index|by rewrite length_insert|].
  intros j x y Hj. rewrite (mk_index_lookup (es ++ [e])) by lia.
  destruct (decide (j = q)) as [->|Hjq].
  - rewrite list_lookup_insert_eq by lia. rewrite index_entry_new by lia. rewrite Hbo. congruence.
  - rewrite list_lookup_insert_ne, Hold by lia. rewrite index_entry_old by lia. congruence.
Qed.

Lemma build_loop_ok es' es : build_loop (built es) es' = Ret (built (es ++ es')).
Proof.
  revert es. induction es' as [|e es' IH]; intros es; cbn [build_loop]; [by rewrite app_nil_r|].
  rewrite build_step_ok. cbn [mbind go_bind]. by rewrite IH, <- app_assoc.
Qed.

(** ** The layout of a written file *)
Definition footer (es : list LogEntry) : bytes :=
  put_be 4 (u32 (len (mk_index es))) ++ put_be 8 (u64 (len (write_data es))) ++ put_be 4 indexFooterMagic.
Definition trailer (blob : bytes) : bytes := put_be 8 (u64 (len blob)) ++ put_be 4 bloomTrailerMagic.
Definition layout (es : list LogEntry) (blob : bytes) : bytes :=
  write_data es ++ write_index (mk_index es) ++ blob ++ trailer blob ++ footer es.

(** What the readers need of a written file: entries in order, every length
    field in its width. *)
Record writable (es : list LogEntry) : Prop := {
  w_ne : es <> [];
  w_asc : ascending es;
  w_fits : Forall entry_fits es;
  w_data : len (write_data es) < 2 ^ 63;
  w_count : Z.of_nat (nblk es) < 2 ^ 32 }.

Lemma len_footer es : len (footer es) = 16.
Proof. unfold footer. len_lia. Qed.
Lemma len_trailer blob : len (trailer blob) = 12.
Proof. unfold trailer. len_lia. Qed.

Lemma seek_end_app a b n : n = len b -> seek_end (a ++ b) n = Some b.
Proof.
  intros ->. unfold seek_end. replace (_ <? _) with false by len_lia.
  replace (len (a ++ b) - len b) with (len a) by len_lia. unfold len. rewrite Nat2Z.id.
  by rewrite drop_app_length.
Qed.

Lemma read_full_8 z r : read_full 8 (put_be 8 z ++ r) = Some (put_be 8 z, r).
Proof. change 8 with (Z.of_nat 8) at 1. rewrite <- (len_put_be 8 z). apply read_full_app. Qed.
Lemma read_full_4_nil z : read_full 4 (put_be 4 z) = Some (put_be 4 z, []).
Proof. rewrite <- (app_nil_r (put_be 4 z)) at 1. apply read_full_4. Qed.
(** One step of an option-monad reader. *)
Ltac opt := cbn [mbind option_bind].

Lemma get_put_off z : 0 <= z < 2 ^ 63 -> s64 (get_be (put_be 8 (u64 z))) = z.
Proof.
  intros H. rewrite get_put_be8 by apply u64_range. apply s64_u64. unfold is_s64. lia.
Qed.

Definition block_fits (b : BlockIndexEntry) : Prop :=
  len b.(LastKey) < 2 ^ 32 /\ 0 <= b.(BlockOffset) < 2 ^ 63.

Lemma read_index_ok bs r : Forall block_fits bs -> read_index (length bs) (write_index bs ++ r) = Some bs.
Proof.
  induction 1 as [|b bs [Hk Ho] Hbs IH]; [done|].
  unfold write_index. cbn [map concat length read_index]. fold (write_index bs).
  rewrite <- !app_assoc.
  rewrite read_full_4. opt. rewrite get_put_be4, read_full_app by done. opt.
  rewrite read_full_8. opt. rewrite IH. opt. rewrite get_put_off by done. by destruct b.
Qed.

Lemma len_write_data_take es n : len (write_data (take n es)) <= len (write_data es).
Proof.
  rewrite <- (take_drop n es) at 2. rewrite write_data_app. len_lia.
Qed.

Lemma blk_in es j x : x ∈ blk es j -> x ∈ es.
Proof. unfold blk. intros H. eapply subseteq_drop, subseteq_take, H. Qed.

Lemma mk_index_fits es : writable es -> Forall block_fits (mk_index es).
Proof.
  intros [_ _ Hf Hd _]. apply Forall_forall. intros b (j & -> & _)%list_elem_of_fmap.
  split; simpl.
  - destruct (last (blk es j)) as [e|] eqn:E; simpl; [|len_lia].
    apply last_Some_elem_of, blk_in in E. rewrite Forall_forall in Hf. apply (Hf e E).
  - unfold off. pose proof (len_write_data_take es (SSTableBlockSize * j)). len_lia.
Qed.

Lemma nblk_pos es : es <> [] -> (1 <= nblk es)%nat.
Proof.
  intros H. destruct es as [|e es]; [done|]. unfold nblk.
  destruct (blk_div (length (e :: es))) as (q & r & Hn & _ & _ & _ & ->). cbn [length] in Hn.
  destruct (Nat.eqb_spec r 0); lia.
Qed.

Lemma write_data_pos es : es <> [] -> 0 < len (write_data es).
Proof.
  destruct es as [|e es]; [done|]. intros _. rewrite write_data_cons, len_app, len_write_entry.
  unfold vlen. destruct (Value e); len_lia.
Qed.

Lemma read_footer_layout es blob : writable es ->
  read_footer (layout es blob) = Some (Z.of_nat (nblk es), len (write_data es), indexFooterMagic).
Proof.
  intros H. unfold read_footer, layout. rewrite !app_assoc.
  rewrite seek_end_app by by rewrite len_footer. opt. unfold footer.
  rewrite read_full_4. opt. rewrite read_full_8. opt. rewrite read_full_4_nil. opt.
  pose proof (w_count _ H). pose proof (w_data _ H).
  rewrite get_put_be4 by (unfold len; rewrite length_mk_index; lia).
  rewrite get_put_off by len_lia. unfold len at 1. by rewrite length_mk_index.
Qed.

Lemma sstableDataEnd_layout es blob : writable es ->
  sstableDataEnd (layout es blob) = len (write_data es).
Proof.
  intros H. unfold sstableDataEnd. rewrite read_footer_layout by done.
  pose proof (nblk_pos es (w_ne _ H)). pose proof (write_data_pos es (w_ne _ H)).
  rewrite Z.eqb_refl. replace (0 <? Z.of_nat (nblk es)) with true by lia.
  replace (0 <? len (write_data es)) with true by lia. done.
Qed.

Lemma loadBlockIndex_layout es blob : writable es ->
  loadBlockIndexFromFile (layout es blob) = Some (MkIndex (mk_index es) (len (write_data es))).
Proof.
  intros H. unfold loadBlockIndexFromFile. rewrite read_footer_layout by done. opt. rewrite Z.eqb_refl.
  pose proof (nblk_pos es (w_ne _ H)). pose proof (write_data_pos es (w_ne _ H)).
  replace (Z.of_nat (nblk es) =? 0) with false by lia.
  replace (len (write_data es) <=? 0) with false by lia. cbn [negb orb].
  unfold layout. rewrite to_nat_len, drop_app_length, Nat2Z.id.
  rewrite <- length_mk_index, read_index_ok by by apply mk_index_fits. done.
Qed.

Lemma loadBloom_layout es blob : 0 < len blob <= maxBloomSectionBytes ->
  loadBloomFromFile (layout es blob) =
  (d ← DecodePartitionedBloom blob 0; Ret match d with Ok pb => Some pb | Err _ => None end).
Proof.
  intros H. unfold maxBloomSectionBytes in *. unfold loadBloomFromFile.
  assert (layout es blob = (write_data es ++ write_index (mk_index es) ++ blob) ++ trailer blob ++ footer es)
    as E1 by (unfold layout; by rewrite <- !app_assoc).
  assert (layout es blob = (write_data es ++ write_index (mk_index es)) ++ blob ++ trailer blob ++ footer es)
    as E2 by (unfold layout; by rewrite <- !app_assoc).
  rewrite E1 at 1. rewrite seek_end_app by (rewrite len_app, len_trailer, len_footer; done). opt.
  unfold trailer at 1. rewrite <- app_assoc, read_full_8. opt. rewrite read_full_4. opt.
  rewrite u64_small, get_put_be8 by (unfold is_u64; lia).
  change (get_be (put_be 4 bloomTrailerMagic)) with bloomTrailerMagic. rewrite Z.eqb_refl.
  replace (len blob =? 0) with false by lia.
  replace (maxBloomSectionBytes <? len blob) with false by (unfold maxBloomSectionBytes; lia). cbn [negb orb].
  rewrite E2, seek_end_app
    by (rewrite !len_app, len_trailer, len_footer; unfold indexFooterSize, bloomTrailerSize; lia).
  opt. by rewrite read_full_app.
Qed.

(** ** Point lookup *)
Lemma last_split {A} (l : list A) x : last l = Some x -> exists l', l = l' ++ [x].
Proof.
  destruct (decide (l = [])) as [->|Hne]; [done|].
  destruct (exists_last Hne) as (l' & y & ->). rewrite last_snoc. intros [= ->]. by exists l'.
Qed.

Lemma take_blk es j : take (SSTableBlockSize * S j) es = take (SSTableBlockSize * j) es ++ blk es j.
Proof.
  unfold blk. replace (SSTableBlockSize * S j)%nat with (SSTableBlockSize * j + SSTableBlockSize)%nat
    by (unfold SSTableBlockSize; lia).
  by rewrite <- take_take_drop.
Qed.

Lemma nblk_lt es j : (j < nblk es)%nat <-> (SSTableBlockSize * j < length es)%nat.
Proof.
  unfold nblk. destruct (blk_div (length es)) as (q & r & Hn & Hr & _ & _ & ->).
  unfold SSTableBlockSize. destruct (Nat.eqb_spec r 0); lia.
Qed.

(** The last entry of a block bounds everything up to the block, and is below
    everything after it. *)
Lemma last_blk es j : ascending es -> (j < nblk es)%nat ->
  exists e, last (blk es j) = Some e /\ e ∈ blk es j /\
    (forall x, x ∈ take (SSTableBlockSize * S j) es -> ble x.(Key) e.(Key)) /\
    (forall y, y ∈ drop (SSTableBlockSize * S j) es -> blt e.(Key) y.(Key)).
Proof.
  intros Ha Hj. apply nblk_lt in Hj.
  assert (blk es j <> []) as Hne.
  { unfold blk. intros E%(f_equal length). rewrite length_take, length_drop in E. cbn [length] in E.
    unfold SSTableBlockSize in *. lia. }
  destruct (last (blk es j)) as [e|] eqn:E; [|by apply last_None in E].
  exists e. split; [done|]. apply last_split in E as (l & E).
  rewrite <- (take_drop (SSTableBlockSize * S j) es), take_blk, E, app_assoc in Ha.
  apply ascending_app_inv in Ha as (Ha & _ & Hd). apply ascending_app_inv in Ha as (_ & _ & Hl).
  split_and!.
  - rewrite E. set_solver.
  - rewrite take_blk, E, app_assoc. intros x [Hx|Hx%list_elem_of_singleton]%elem_of_app.
    + apply blt_ble, Hl; [done|set_solver].
    + subst. apply ble_refl.
  - intros y Hy. apply Hd; [set_solver|done].
Qed.

Lemma index_lookup es j b : mk_index es !! j = Some b -> (j < nblk es)%nat /\ b = index_entry es j.
Proof.
  intros H. assert (j < nblk es)%nat as Hj by (rewrite <- length_mk_index; by eapply lookup_lt_Some).
  rewrite mk_index_lookup in H by done. by injection H as <-.
Qed.

Lemma index_lastkey es j b e : mk_index es !! j = Some b -> last (blk es j) = Some e -> b.(LastKey) = e.(Key).
Proof. intros [_ ->]%index_lookup H. unfold index_entry. simpl. by rewrite H. Qed.

Lemma bsearch_ok idx key n fuel lo hi :
  (forall i j a b, (i <= j)%nat -> idx !! i = Some a -> idx !! j = Some b -> ble a.(LastKey) b.(LastKey)) ->
  length idx = S n -> (hi - lo <= fuel)%nat -> (lo <= hi <= n)%nat ->
  (forall i a, (i < lo)%nat -> idx !! i = Some a -> blt a.(LastKey) key) ->
  (hi = n \/ forall a, idx !! hi = Some a -> ble key a.(LastKey)) ->
  let r := bsearch fuel idx key lo hi in
  (r <= n)%nat /\ (forall i a, (i < r)%nat -> idx !! i = Some a -> blt a.(LastKey) key) /\
  (r = n \/ forall a, idx !! r = Some a -> ble key a.(LastKey)).
Proof.
  intros Hsort Hlen. revert lo hi. induction fuel as [|fuel IH]; intros lo hi Hf Hlh Hlo Hhi; cbn [bsearch].
  - assert (lo = hi) as -> by lia. split_and!; [lia|done|done].
  - destruct (Nat.ltb_spec lo hi) as [L|L]; [|assert (lo = hi) as -> by lia; by split_and!; [lia| |]].
    pose proof (Nat.div_mod_eq (lo + hi) 2). pose proof (Nat.mod_upper_bound (lo + hi) 2 ltac:(lia)).
    set (mid := ((lo + hi) / 2)%nat) in *.
    destruct (lookup_lt_is_Some_2 idx mid) as [b Hb]; [lia|]. rewrite Hb.
    destruct (bleb key (LastKey b)) eqn:E; bcmp.
    + apply IH; [lia|lia|done|]. right. intros a Ha. congruence.
    + apply IH; [lia|lia| |done]. intros i a Hi Ha. eapply ble_blt_trans; [|exact E].
      apply (Hsort i mid); [lia|done|done].
Qed.

Lemma find_block_ok es key : ascending es -> es <> [] ->
  let r := find_block (mk_index es) key in
  (r < nblk es)%nat /\
  (forall x, x ∈ take (SSTableBlockSize * r) es -> blt x.(Key) key) /\
  ((forall x, x ∈ take (SSTableBlockSize * S r) es -> blt x.(Key) key) /\ nblk es = S r \/
   exists e, last (blk es r) = Some e /\ ble key e.(Key)).
Proof.
  intros Ha Hne r. pose proof (nblk_pos es Hne) as Hp.
  destruct (bsearch_ok (mk_index es) key (nblk es - 1) (length (mk_index es)) 0 (length (mk_index es) - 1))
    as (H1 & H2 & H3); rewrite ?length_mk_index; try lia.
  { intros i j a b Hij Hi Hj. pose proof (proj1 (index_lookup _ _ _ Hi)) as Hin.
    pose proof (proj1 (index_lookup _ _ _ Hj)) as Hjn.
    destruct (last_blk es i Ha Hin) as (e1 & E1 & Hin1 & _ & Hd1).
    destruct (last_blk es j Ha Hjn) as (e2 & E2 & Hin2 & _ & _).
    rewrite (index_lastkey _ _ _ _ Hi E1), (index_lastkey _ _ _ _ Hj E2).
    destruct (decide (i = j)) as [->|Hij']; [rewrite E1 in E2; injection E2 as ->; apply ble_refl|].
    apply blt_ble, Hd1. unfold blk in Hin2. apply subseteq_take in Hin2.
    replace (SSTableBlockSize * j)%nat with (SSTableBlockSize * S i + SSTableBlockSize * (j - S i))%nat in Hin2
      by (unfold SSTableBlockSize; lia).
    rewrite <- drop_drop in Hin2. by eapply subseteq_drop. }
  fold (find_block (mk_index es) key) in H1, H2, H3. fold r in H1, H2, H3.
  assert (Hpre : forall x, x ∈ take (SSTableBlockSize * r) es -> blt x.(Key) key).
  { intros x Hx. destruct r as [|r']; [rewrite Nat.mul_0_r in Hx; set_solver|].
    destruct (last_blk es r' Ha ltac:(lia)) as (e & E & _ & Hle & _).
    eapply ble_blt_trans; [by apply Hle|].
    rewrite <- (index_lastkey es r' _ e (mk_index_lookup es r' ltac:(lia)) E).
    eapply (H2 r'); [lia|]. by apply mk_index_lookup; lia. }
  split_and!; [lia|done|].
  destruct (last_blk es r Ha ltac:(lia)) as (e & E & _ & Hle & _).
  assert (Hle' : ble key (Key e) \/ blt (Key e) key) by (destruct (blt_trichotomy (Key e) key) as [?|[->| ?%blt_ble]]; auto; left; apply ble_refl).
  destruct Hle' as [Hk|Hk]; [right; by exists e|].
  destruct H3 as [H3|H3].
  - left. split; [|lia]. intros x Hx. eapply ble_blt_trans; [by apply Hle|done].
  - exfalso. specialize (H3 _ (mk_index_lookup es r ltac:(lia))). 
    rewrite (index_lastkey es r _ e (mk_index_lookup es r ltac:(lia)) E) in H3. border.
Qed.

(** The key, if present, is in the block the search selects. *)
Lemma find_key_block es key : ascending es -> es <> [] ->
  find_key key (blk es (find_block (mk_index es) key)) = find_key key es.
Proof.
  intros Ha Hne. destruct (find_block_ok es key Ha Hne) as (Hr & Hpre & Hcase).
  set (r := find_block (mk_index es) key) in *.
  rewrite <- (take_drop (SSTableBlockSize * S r) es) at 2. rewrite take_blk, !find_key_app.
  rewrite (proj2 (find_key_None key (take _ es))).
  2: { intros e He E. specialize (Hpre e He). rewrite E in Hpre. border. }
  destruct (find_key key (blk es r)) as [v|] eqn:F; [done|]. symmetry. apply find_key_None.
  intros y Hy E. destruct Hcase as [[_ Hn]|(e & Ee & Hk)].
  - rewrite drop_ge in Hy; [set_solver|].
    destruct (Nat.le_gt_cases (length es) (SSTableBlockSize * S r)) as [?|C]; [done|].
    apply nblk_lt in C. lia.
  - destruct (last_blk es r Ha Hr) as (e' & Ee' & _ & _ & Hd).
    rewrite Ee in Ee'. injection Ee' as <-. specialize (Hd y Hy). subst key. border.
Qed.

Lemma off_S es j : off es (S j) = off es j + len (write_data (blk es j)).
Proof. unfold off. by rewrite take_blk, write_data_app, len_app. Qed.

Lemma blockExtent_ok es j : (j < nblk es)%nat ->
  blockExtent (MkIndex (mk_index es) (len (write_data es))) j = Some (off es j, off es (S j)).
Proof.
  intros Hj. unfold blockExtent. cbn [bi_entries dataEnd]. rewrite (mk_index_lookup es j) by done. opt.
  destruct (mk_index es !! S j) as [b|] eqn:E.
  - by apply index_lookup in E as [_ ->].
  - apply lookup_ge_None in E. rewrite length_mk_index in E. do 2 f_equal.
    unfold off. rewrite take_ge; [done|].
    destruct (Nat.le_gt_cases (length es) (SSTableBlockSize * S j)) as [?|C]; [done|].
    apply nblk_lt in C. lia.
Qed.

Lemma ReadAt_block es blob j :
  ReadAt (layout es blob) (off es j) (off es (S j)) = Some (write_data (blk es j)).
Proof.
  unfold ReadAt. set (tl := write_index (mk_index es) ++ blob ++ trailer blob ++ footer es).
  assert (layout es blob = write_data (take (SSTableBlockSize * j) es) ++ write_data (blk es j) ++
            write_data (drop (SSTableBlockSize * S j) es) ++ tl) as ->.
  { unfold layout. fold tl. rewrite <- (take_drop (SSTableBlockSize * S j) es) at 1.
    by rewrite take_blk, !write_data_app, <- !app_assoc. }
  rewrite off_S. unfold off. replace (_ && _) with true by len_lia. f_equal.
  rewrite to_nat_len, drop_app_length, Z.add_simpl_l, to_nat_len. by rewrite take_app_length.
Qed.

Lemma blk_ascending es j : ascending es -> ascending (blk es j).
Proof.
  intros Ha. rewrite <- (take_drop (SSTableBlockSize * S j) es), take_blk, <- app_assoc in Ha.
  by apply ascending_app_inv in Ha as (_ & Ha & _); apply ascending_app_inv in Ha as (Ha & _ & _).
Qed.

Lemma length_write_data es : (length es <= length (write_data es))%nat.
Proof.
  induction es as [|e es IH]; [simpl; lia|]. rewrite write_data_cons, length_app. cbn [length].
  pose proof (len_write_entry e). unfold vlen in *. destruct (Value e); unfold len in *; lia.
Qed.

Lemma off_lt es i j : (i < j)%nat -> (i < nblk es)%nat -> off es i < off es j.
Proof.
  intros Hij Hi. assert (off es i < off es (S i)) as H1.
  { rewrite off_S. assert (blk es i <> []) as Hne; [|pose proof (write_data_pos _ Hne); lia].
    apply nblk_lt in Hi. unfold blk. intros E%(f_equal length).
    rewrite length_take, length_drop in E. cbn [length] in E. unfold SSTableBlockSize in *. lia. }
  assert (forall d, off es (S i) <= off es (S i + d)) as H2.
  { intros d. induction d as [|d IH]; [by rewrite Nat.add_0_r|].
    replace (S i + S d)%nat with (S (S i + d)) by lia.
    rewrite (off_S es (S i + d)). len_lia. }
  specialize (H2 (j - S i)%nat). replace (S i + (j - S i))%nat with j in H2 by lia. lia.
Qed.

(** Blocks start at distinct offsets. *)
Lemma off_inj es i j : (i < nblk es)%nat -> (j < nblk es)%nat -> off es i = off es j -> i = j.
Proof.
  intros Hi Hj E. destruct (Nat.lt_trichotomy i j) as [L|[L|L]]; [|done|].
  - pose proof (off_lt es i j L Hi). lia.
  - pose proof (off_lt es j i L Hj). lia.
Qed.

(** The lookup through the index equals the lookup in the entries, for any
    reader that returns the file's bytes. *)
Lemma searchBlock_ok es key read :
  writable es ->
  (forall j, (j < nblk es)%nat -> read (off es j) (off es (S j)) = Some (write_data (blk es j))) ->
  searchBlock read key (MkIndex (mk_index es) (len (write_data es))) = find_key key es.
Proof.
  intros H Hread. unfold searchBlock. cbn [bi_entries].
  destruct (find_block_ok es key (w_asc _ H) (w_ne _ H)) as (Hr & _ & _).
  set (r := find_block (mk_index es) key) in *. rewrite blockExtent_ok by done.
  destruct (last_blk es r (w_asc _ H) Hr) as (e & _ & Hin & _ & _).
  assert (blk es r <> []) as Hne by (intros E; rewrite E in Hin; set_solver).
  pose proof (write_data_pos _ Hne). rewrite off_S. replace (_ <=? _) with false by lia.
  rewrite <- off_S, Hread by done.
  rewrite <- (find_key_block es key (w_asc _ H) (w_ne _ H)). fold r.
  assert (Hfit : Forall entry_fits (blk es r)).
  { apply Forall_forall. intros x Hx. eapply Forall_forall; [apply (w_fits _ H)|by eapply blk_in]. }
  destruct (decide (length (blk es r) < length (write_data (blk es r)))%nat) as [L|L].
  - apply scan_block_ok; [by apply blk_ascending, H|done|done].
  - exfalso. destruct (blk es r) as [|x l]; [done|]. rewrite write_data_cons, length_app in L.
    pose proof (length_write_data l). pose proof (len_write_entry x). cbn [length] in L.
    unfold vlen, len in *. destruct (Value x); lia.
Qed.

(** ** Iteration *)
Lemma iterate_ok fuel es pos tl dend :
  Forall entry_fits es -> (length es < fuel)%nat -> 0 < dend -> pos + len (write_data es) = dend -> 
  iterate fuel dend pos (write_data es ++ tl) = (es, false).
Proof.
  revert fuel pos. induction es as [|e es IH]; intros fuel pos Hf Hl Hd Hp; cbn [length] in Hl;
    (destruct fuel as [|fuel]; [lia|]); cbn [iterate].
  - change (write_data []) with (@nil byte) in Hp.
    replace ((0 <? dend) && (dend <=? pos)) with true by len_lia. done.
  - apply Forall_cons in Hf as [He Hf]. rewrite write_data_cons in *. rewrite <- app_assoc.
    pose proof (len_write_entry e) as Hw. pose proof (len_nonneg (Key e)).
    assert (0 <= vlen (Value e)) by (unfold vlen; destruct (Value e); len_lia).
    replace ((0 <? dend) && (dend <=? pos)) with false by len_lia.
    rewrite iter_read_entry by done. rewrite IH; [done|done|lia|done|len_lia].
Qed.

Lemma iter_file_ok es blob : writable es -> iter_file (layout es blob) = (es, false).
Proof.
  intros H. unfold iter_file. rewrite sstableDataEnd_layout by done. apply iterate_ok.
  - apply H.
  - unfold layout. rewrite length_app. pose proof (length_write_data es). lia.
  - by apply write_data_pos, H.
  - lia.
Qed.

(** Starting from a key skips only smaller entries. *)
Lemma iter_file_from_ok es blob start : writable es ->
  exists skipped rest, es = skipped ++ rest /\ (forall x, x ∈ skipped -> blt x.(Key) start) /\
    iter_file_from (layout es blob) (loadBlockIndexFromFile (layout es blob)) start = (rest, false).
Proof.
  intros H. rewrite loadBlockIndex_layout by done. unfold iter_file_from.
  destruct start as [|c start']; [exists [], es; rewrite iter_file_ok by done; split_and!; [done|set_solver|done]|].
  set (start := c :: start'). cbn [bi_entries].
  destruct (find_block_ok es start (w_asc _ H) (w_ne _ H)) as (Hr & Hpre & Hcase).
  set (r := find_block (mk_index es) start) in *.
  rewrite mk_index_lookup by done.
  destruct (last_blk es r (w_asc _ H) Hr) as (e & Ee & _ & Hle & _).
  rewrite (index_lastkey es r _ e (mk_index_lookup es r Hr) Ee).
  destruct (bltb (Key e) start) eqn:E; bcmp.
  - exists es, []. rewrite app_nil_r. split_and!; [done| |done]. intros x Hx.
    destruct Hcase as [[Hall Hn]|(e' & Ee' & Hk)]; [|rewrite Ee in Ee'; injection Ee' as <-; border].
    apply Hall. rewrite take_ge; [done|].
    destruct (Nat.le_gt_cases (length es) (SSTableBlockSize * S r)) as [?|C]; [done|]. apply nblk_lt in C. lia.
  - exists (take (SSTableBlockSize * r) es), (drop (SSTableBlockSize * r) es).
    split_and!; [by rewrite take_drop|done|]. cbn [BlockOffset index_entry].
    unfold off. rewrite sstableDataEnd_layout by done.
    assert (Hl : layout es blob = write_data (take (SSTableBlockSize * r) es) ++
        write_data (drop (SSTableBlockSize * r) es) ++ write_index (mk_index es) ++ blob ++ trailer blob ++ footer es).
    { unfold layout. rewrite (app_assoc (write_data (take _ _))), <- write_data_app, take_drop. done. }
    rewrite Hl, to_nat_len, drop_app_length. apply iterate_ok.
    + apply Forall_drop, H.
    + rewrite !length_app. pose proof (length_write_data (drop (SSTableBlockSize * r) es)). lia.
    + by apply write_data_pos, H.
    + by rewrite <- len_app, <- write_data_app, take_drop.
Qed.

(** ** Writing then reading *)
Section Whole.
Context (opt_m : Z -> Z) (opt_k : Z -> Z -> Z) (iter_order : gmap bytes BloomFilter -> list (bytes * BloomFilter)).
Context (Hm : forall n, opt_m n < 2 ^ 64 - 63) (Hk : forall m n, opt_k m n < 2 ^ 64).
Context (Hord : forall ps, iter_order ps ≡ₚ map_to_list ps).

(** The filter of a key set admits all its keys. *)
Definition bloom_admits (es : list LogEntry) (bloom : option PartitionedBloom) : Prop :=
  match bloom with
  | None => True
  | Some pb => forall k, exists b, PMayContain pb k = Ret b /\ (b = false -> find_key k es = None)
  end.

Lemma sst_contents_ok es :
  exists blob pb, sst_contents opt_m opt_k iter_order es =
    Ret (layout es blob, MkIndex (mk_index es) (len (write_data es)), pb) /\
    blob = PEncode pb (iter_order pb.(partitions)) /\ map_Forall (fun _ => wf) pb.(partitions) /\
    bloom_admits es (Some pb).
Proof.
  unfold sst_contents. change (MkBuilder 0 [] []) with (built []). rewrite (build_loop_ok es []).
  change (built ([] ++ es)) with (built es). cbn [mbind go_bind b_buf b_idx built].
  unfold writeTail, writeBloomSection.
  destruct (Build_ok opt_m opt_k Hm Hk (map Key es) DefaultNamespaceSep) as (pb & -> & Hs & Hw & Hall).
  cbn [mbind go_bind]. exists (PEncode pb (iter_order (partitions pb))), pb.
  split_and!; [|done|done|].
  - unfold layout, footer, trailer. by rewrite <- !app_assoc.
  - intros k. rewrite PMayContain_ok, Hs by done. eexists. split; [done|].
    intros Hf. apply find_key_None. intros e He <-. rewrite Hall in Hf; [done|].
    by apply list_elem_of_fmap_2.
Qed.

Lemma len_concat_elem {A} (f : A -> bytes) l x : x ∈ l -> len (f x) <= len (concat (map f l)).
Proof.
  induction l as [|y l IH]; [set_solver|]. cbn [map concat].
  intros [->|Hx]%elem_of_cons; [|specialize (IH Hx)]; len_lia.
Qed.

Lemma len_concat_count {A} (f : A -> bytes) l : (forall x, 1 <= len (f x)) -> len l <= len (concat (map f l)).
Proof.
  intros H. induction l as [|y l IH]; [done|]. cbn [map concat]. specialize (H y). len_lia.
Qed.

(** A filter section within the reader's limit loads back as the filter. *)
Lemma loadBloom_ok es pb blob :
  blob = PEncode pb (iter_order pb.(partitions)) -> map_Forall (fun _ => wf) pb.(partitions) ->
  len blob < 2 ^ 63 ->
  loadBloomFromFile (layout es blob) = Ret (Some (MkPart pb.(psep) 0 pb.(partitions))) \/
  loadBloomFromFile (layout es blob) = Ret None.
Proof.
  intros Hb Hw Hlen. assert (5 <= len blob) as H5.
  { subst blob. unfold PEncode, encode_parts. len_lia. }
  destruct (Z_lt_le_dec maxBloomSectionBytes (len blob)) as [Hbig|Hsmall].
  - right. unfold loadBloomFromFile.
    assert (layout es blob = (write_data es ++ write_index (mk_index es) ++ blob) ++ trailer blob ++ footer es)
      as E1 by (unfold layout; by rewrite <- !app_assoc).
    rewrite E1 at 1. rewrite seek_end_app by (rewrite len_app, len_trailer, len_footer; done). opt.
    unfold trailer at 1. rewrite <- app_assoc, read_full_8. opt. rewrite read_full_4. opt.
    rewrite u64_small, get_put_be8 by (unfold is_u64; lia).
    replace (maxBloomSectionBytes <? len blob) with true by lia. by rewrite orb_true_r.
  - left. rewrite loadBloom_layout by lia. subst blob. unfold maxBloomSectionBytes in *.
    assert (Hp : Forall part_ok (iter_order (partitions pb))).
    { apply Forall_forall. intros [ns bf] Hin.
      assert (len (encode_part (ns, bf)) <= len (PEncode pb (iter_order (partitions pb)))) as Hle.
      { unfold PEncode, encode_parts. pose proof (len_concat_elem encode_part _ _ Hin). len_lia. }
      unfold encode_part in Hle. cbn [fst snd] in Hle. autorewrite with len in Hle.
      split_and!; cbn [fst snd]; [|len_lia..].
      rewrite Hord in Hin. apply elem_of_map_to_list in Hin. by eapply Hw. }
    rewrite decode_encode_partitioned by (done || by (unfold PEncode, encode_parts in Hsmall;
      pose proof (len_concat_count encode_part (iter_order (partitions pb))
        ltac:(intros [? ?]; unfold encode_part; len_lia)); len_lia)).
    done.
Qed.

Lemma lookup_layout es blob bloom key :
  writable es -> loadBloomFromFile (layout es blob) = Ret bloom -> bloom_admits es bloom ->
  lookup_file (layout es blob) key = Ret (find_key key es).
Proof.
  intros Hw Hl Ha. unfold lookup_file, ReadFromSSTable. rewrite Hl. cbn [mbind go_bind].
  rewrite loadBlockIndex_layout, (searchBlock_ok es) by (done || (intros; apply ReadAt_block)).
  destruct bloom as [pb|]; [|done]. destruct (Ha key) as (b & -> & Hb). cbn [mbind go_bind].
  destruct b; [done|]. by rewrite Hb.
Qed.

Lemma admits_reload es pb : bloom_admits es (Some pb) -> bloom_admits es (Some (MkPart pb.(psep) 0 pb.(partitions))).
Proof. done. Qed.

Lemma sst_lookup es : writable es ->
  exists f bi pb, sst_contents opt_m opt_k iter_order es = Ret (f, bi, pb) /\
    (len f < 2 ^ 63 -> loadBlockIndexFromFile f = Some bi /\ iter_file f = (es, false) /\
       forall key, lookup_file f key = Ret (find_key key es)).
Proof.
  intros Hw. destruct (sst_contents_ok es) as (blob & pb & E & Hb & Hwf & Ha).
  do 3 eexists. split; [exact E|]. intros Hlen.
  split_and!; [by apply loadBlockIndex_layout|by apply iter_file_ok|].
  intros key. assert (len blob < 2 ^ 63) as Hbl by (unfold layout in Hlen; len_lia).
  destruct (loadBloom_ok es pb blob Hb Hwf Hbl) as [L|L]; (eapply lookup_layout; [done|exact L|done]).
Qed.
End Whole.

(** C12: A written SSTable reads back.  For any non-empty ascending entries
    with lengths in their fields, whatever the filter sizing and the map
    iteration order: writing does not panic; the index parsed from the file is
    the one the writer cached; sequential iteration yields exactly the entries;
    iteration from a start key skips only smaller entries; and the point lookup
    (bloom filter, binary search over the block index, scan of one block)
    returns for every key what the entries hold, tombstones and empty values
    included. *)
Theorem sst_write_then_read opt_m opt_k iter_order es :
  (forall n, opt_m n < 2 ^ 64 - 63) -> (forall m n, opt_k m n < 2 ^ 64) ->
  (forall ps, iter_order ps ≡ₚ map_to_list ps) -> writable es ->
  exists f bi pb, sst_contents opt_m opt_k iter_order es = Ret (f, bi, pb) /\
    (len f < 2 ^ 63 ->
       loadBlockIndexFromFile f = Some bi /\ iter_file f = (es, false) /\
       (forall start, exists skipped rest, es = skipped ++ rest /\
          (forall x, x ∈ skipped -> blt x.(Key) start) /\ iter_file_from f (Some bi) start = (rest, false)) /\
       forall key, lookup_file f key = Ret (find_key key es)).
Proof.
  intros Hm Hk Ho Hw. destruct (sst_contents_ok opt_m opt_k iter_order Hm Hk es) as (blob & pb & E & _).
  destruct (sst_lookup opt_m opt_k iter_order Hm Hk Ho es Hw) as (f & bi & pb' & E' & H).
  rewrite E in E'. injection E' as <- <- <-. do 3 eexists. split; [exact E|].
  intros Hlen. destruct (H Hlen) as (H1 & H2 & H3). split_and!; [done|done| |done].
  intros start. rewrite <- H1. by apply iter_file_from_ok.
Qed.

Definition demo_entries : list LogEntry :=
  [MkLogEntry (str "a") (Some (str "1")); MkLogEntry (str "b") None; MkLogEntry (str "c:x") (Some [])].

Lemma demo_writable : writable demo_entries.
Proof.
  constructor; [done| | |vm_compute; reflexivity|vm_compute; reflexivity].
  - repeat (constructor; [|repeat constructor; reflexivity]). constructor.
  - repeat constructor; vm_compute; reflexivity.
Qed.

Lemma sst_write_then_read_witness :
  writable demo_entries /\
  exists f bi pb, sst_contents demo_m demo_k map_to_list demo_entries = Ret (f, bi, pb) /\
    (len f < 2 ^ 63 ->
       loadBlockIndexFromFile f = Some bi /\ iter_file f = (demo_entries, false) /\
       (forall start, exists skipped rest, demo_entries = skipped ++ rest /\
          (forall x, x ∈ skipped -> blt x.(Key) start) /\ iter_file_from f (Some bi) start = (rest, false)) /\
       forall key, lookup_file f key = Ret (find_key key demo_entries)).
Proof.
  split; [exact demo_writable|].
  apply (sst_write_then_read demo_m demo_k map_to_list demo_entries).
  - intros n. unfold demo_m. lia.
  - intros m n. unfold demo_k. lia.
  - intros ps. reflexivity.
  - exact demo_writable.
Defined.

End Sst.
