(* ===== verification/MergeIter.v ===== *)
(** * The k-way merge ([storage/merge_iterator.go], [storage/iterator.go])

    A source is what its iterator will still yield, and whether it then fails.
    Keys are [option]: a [nil] key from an iterator means "exhausted" to the
    merge, so an iterator that yields the empty key as [nil] is told apart from
    one that yields it as an empty slice.  [container/heap] is modelled by its
    contract: [Pop] removes the least element of [Less]. *)
From S2P Require Import Prelude Bytes Entries.

Module Merge.

(** ** Sources *)
Record entryIterator := MkIter { it_rest : list (option bytes * option bytes); it_fails : bool }.

(** [sliceIterator]: the slices hold copies made with [append([]byte(nil), k...)],
    so an empty key is [nil]. *)
Definition newSliceIterator (es : list LogEntry) : entryIterator :=
  MkIter (map (fun e => (copy_value (Some e.(Key)), e.(Value))) es) false.

(** An SSTable iterator allocates every key it yields. *)
Definition newFileIterator (r : list LogEntry * bool) : entryIterator :=
  MkIter (map (fun e => (Some e.(Key), e.(Value))) r.1) r.2.

(** [rangeIterator]: skip below [start], stop above [end]; an error of the
    source is still reported once the source is read to its end. *)
Fixpoint range_rest (start stop : bytes) (l : list (option bytes * option bytes)) (fails : bool)
    : entryIterator :=
  match l with
  | [] => MkIter [] fails
  | (k, v) :: l =>
      let kb := default [] k in
      if (0 <? len start) && bltb kb start then range_rest start stop l fails
      else if (0 <? len stop) && bltb stop kb then MkIter [] false
      else let r := range_rest start stop l fails in MkIter ((k, v) :: r.(it_rest)) r.(it_fails)
  end.
Definition newRangeIterator (it : entryIterator) (start stop : bytes) : entryIterator :=
  range_rest start stop it.(it_rest) it.(it_fails).

(** ** The merge *)
Record mergeSource := MkSrc {
  ms_it : entryIterator; srcIdx : nat; ms_key : option bytes; ms_value : option bytes; ms_prev : option bytes }.

Inductive merge_error := NotAscending | SourceFailed.

(** [mergeHeap.Less] *)
Definition Less (a b : mergeSource) : bool :=
  match compare (default [] a.(ms_key)) (default [] b.(ms_key)) with
  | Lt => true
  | Gt => false
  | Eq => (b.(srcIdx) <? a.(srcIdx))%nat
  end.

(** [heap.Pop]: the least element and the others. *)
Fixpoint pop_min (t : mergeSource) (h : list mergeSource) : mergeSource * list mergeSource :=
  match h with
  | [] => (t, [])
  | s :: h => if Less s t then let '(m, r) := pop_min s h in (m, t :: r)
              else let '(m, r) := pop_min t h in (m, s :: r)
  end.

Definition pull (s : mergeSource) : result merge_error mergeSource :=
  match s.(ms_it).(it_rest) with
  | (k, v) :: rest =>
      let it := MkIter rest s.(ms_it).(it_fails) in
      match s.(ms_prev) with
      | Some p => if bleb (default [] k) p then Err NotAscending else Ok (MkSrc it s.(srcIdx) k v k)
      | None => Ok (MkSrc it s.(srcIdx) k v k)
      end
  | [] => if s.(ms_it).(it_fails) then Err SourceFailed
          else Ok (MkSrc s.(ms_it) s.(srcIdx) None None s.(ms_prev))
  end.

Definition push (s : mergeSource) (h : list mergeSource) : list mergeSource :=
  match s.(ms_key) with Some _ => s :: h | None => h end.

Definition advance (s : mergeSource) (h : list mergeSource) : result merge_error (list mergeSource) :=
  s ← pull s; Ok (push s h).

(** [newMergeIterator] from source [idx] on. *)
Fixpoint init_from (idx : nat) (its : list entryIterator) (h : list mergeSource)
    : result merge_error (list mergeSource) :=
  match its with
  | [] => Ok h
  | it :: its => h ← advance (MkSrc it idx None None None) h; init_from (S idx) its h
  end.
Definition newMergeIterator (its : list entryIterator) : result merge_error (list mergeSource) :=
  init_from 0 its [].

(** The loop that discards older versions of [key]. *)
Fixpoint drop_dups (fuel : nat) (key : bytes) (h : list mergeSource) : result merge_error (list mergeSource) :=
  match fuel, h with
  | S fuel, s :: h' =>
      let '(t, r) := pop_min s h' in
      if beqb (default [] t.(ms_key)) key then h ← advance t r; drop_dups fuel key h else Ok h
  | _, _ => Ok h
  end.

(** [Next]: the output entry and the heap after it. *)
Definition merge_next (h : list mergeSource) : option (result merge_error (LogEntry * list mergeSource)) :=
  match h with
  | [] => None
  | s :: h' =>
      let '(top, r) := pop_min s h' in
      let key := default [] top.(ms_key) in
      Some (h ← advance top r; h ← drop_dups (S (length h)) key h;
            Ok (MkLogEntry key top.(ms_value), h))
  end.

(** Iterate to the end: the entries yielded and the final [Err()]. *)
Fixpoint merge_run (fuel : nat) (h : list mergeSource) : list LogEntry * option merge_error :=
  match fuel with
  | O => ([], None)
  | S fuel =>
      match merge_next h with
      | None => ([], None)
      | Some (Err e) => ([], Some e)
      | Some (Ok (e, h)) => let '(es, err) := merge_run fuel h in (e :: es, err)
      end
  end.

Definition heap_size (h : list mergeSource) : nat :=
  list_sum (map (fun s => S (length s.(ms_it).(it_rest))) h).
Definition merge_fuel (its : list entryIterator) : nat :=
  S (list_sum (map (fun it => length it.(it_rest)) its)).

(** Both callers of the merge run it to the end (or stop reading early). *)
Definition merge_all (its : list entryIterator) : list LogEntry * option merge_error :=
  match newMergeIterator its with
  | Err e => ([], Some e)
  | Ok h => merge_run (merge_fuel its) h
  end.

(** ** Reference: newest source wins *)
Definition newest (k : bytes) (srcs : list (list LogEntry)) : option (option bytes) :=
  fold_left (fun acc src => match find_key k src with Some v => Some v | None => acc end) srcs None.

(** What a heap source has left, as entries. *)
Definition plain (l : list (option bytes * option bytes)) : list LogEntry :=
  map (fun kv => MkLogEntry (default [] kv.1) kv.2) l.
Definition cur (s : mergeSource) : list LogEntry :=
  MkLogEntry (default [] s.(ms_key)) s.(ms_value) :: plain s.(ms_it).(it_rest).

Record src_ok (s : mergeSource) : Prop := {
  so_key : is_Some s.(ms_key);
  so_prev : s.(ms_prev) = s.(ms_key);
  so_fails : s.(ms_it).(it_fails) = false;
  so_keys : Forall (fun kv => is_Some kv.1) s.(ms_it).(it_rest);
  so_asc : ascending (cur s) }.

Definition heap_ok (h : list mergeSource) : Prop :=
  Forall src_ok h /\ NoDup (map srcIdx h).

(** [r] is the value of [k] in the newest source of the heap that has it. *)
Definition is_newest (k : bytes) (h : list mergeSource) (r : option (option bytes)) : Prop :=
  match r with
  | None => forall s, s ∈ h -> find_key k (cur s) = None
  | Some v => exists s, s ∈ h /\ find_key k (cur s) = Some v /\
      forall s', s' ∈ h -> find_key k (cur s') <> None -> (srcIdx s' <= srcIdx s)%nat
  end.

(** ** The heap *)
Notation skey s := (default [] (ms_key s)).

Lemma Less_spec a b : Less a b = true <->
  blt (skey a) (skey b) \/ skey a = skey b /\ (srcIdx b < srcIdx a)%nat.
Proof.
  unfold Less. destruct (compare_case (skey a) (skey b)) as [C|C|C].
  - split; auto.
  - rewrite Nat.ltb_lt. split; [auto|]. intros [H|[_ H]]; [rewrite C in H; border|done].
  - split; [done|]. intros [H|[H _]]; [border|rewrite H in C; border].
Qed.

Lemma Less_false a b : Less a b = false <->
  blt (skey b) (skey a) \/ skey a = skey b /\ (srcIdx a <= srcIdx b)%nat.
Proof.
  rewrite <- not_true_iff_false, Less_spec. split.
  - intros H. destruct (blt_trichotomy (skey a) (skey b)) as [C|[C|C]]; [tauto| |tauto].
    right. split; [done|]. destruct (Nat.le_gt_cases (srcIdx a) (srcIdx b)); [done|]. tauto.
  - intros [H|[E H]] [H'|[E' H']]; try lia; try (rewrite E in *); try (rewrite E' in *); border.
Qed.

Lemma Less_false_trans a b c : Less a b = false -> Less b c = false -> Less a c = false.
Proof.
  rewrite !Less_false. intros [H|[E H]] [H'|[E' H']].
  - left. by eapply blt_trans.
  - left. by rewrite <- E'.
  - left. by rewrite E.
  - right. split; [congruence|lia].
Qed.

Lemma Less_asym a b : Less a b = true -> Less b a = false.
Proof. rewrite Less_spec, Less_false. intros [H|[E H]]; [auto|]. right. split; [done|lia]. Qed.

Lemma pop_min_ok t h m r : pop_min t h = (m, r) ->
  t :: h ≡ₚ m :: r /\ forall x, x ∈ t :: h -> Less x m = false.
Proof.
  revert t m r. induction h as [|s h IH]; intros t m r; simpl.
  - intros [= <- <-]. split; [done|]. intros x ->%list_elem_of_singleton. apply Less_false. auto.
  - destruct (Less s t) eqn:L.
    + destruct (pop_min s h) as [m' r'] eqn:E. intros [= <- <-].
      destruct (IH _ _ _ E) as [HP HL]. split; [rewrite HP; apply perm_swap|].
      intros x [->|Hx]%elem_of_cons; [|by apply HL].
      eapply Less_false_trans; [by apply Less_asym|]. apply HL. set_solver.
    + destruct (pop_min t h) as [m' r'] eqn:E. intros [= <- <-].
      destruct (IH _ _ _ E) as [HP HL]. split; [rewrite perm_swap, HP; apply perm_swap|].
      intros x [->|[->|Hx]%elem_of_cons]%elem_of_cons; [apply HL; set_solver| |apply HL; set_solver].
      eapply Less_false_trans; [exact L|]. apply HL. set_solver.
Qed.

(** ** Invariance under permutation *)
Lemma heap_ok_perm h h' : h ≡ₚ h' -> heap_ok h -> heap_ok h'.
Proof. intros HP [H1 H2]. split; [by rewrite <- HP|]. by rewrite <- HP. Qed.

Lemma is_newest_perm k h h' r : h ≡ₚ h' -> is_newest k h r -> is_newest k h' r.
Proof. intros HP. destruct r as [v|]; cbn [is_newest]; by setoid_rewrite HP. Qed.

Lemma heap_size_perm h h' : h ≡ₚ h' -> heap_size h = heap_size h'.
Proof. intros HP. unfold heap_size. induction HP; simpl; lia. Qed.

Definition dups (k : bytes) (h : list mergeSource) : nat :=
  list_sum (map (fun s => if beqb (skey s) k then 1 else 0)%nat h).
Lemma dups_perm k h h' : h ≡ₚ h' -> dups k h = dups k h'.
Proof. intros HP. unfold dups. induction HP; simpl; lia. Qed.
Lemma dups_le k h : (dups k h <= length h)%nat.
Proof. unfold dups. induction h as [|s h IH]; simpl; [lia|]. destruct (beqb _ _); lia. Qed.

(** ** Advancing one source *)
Lemma pull_ok s : src_ok s ->
  exists s', pull s = Ok s' /\ srcIdx s' = srcIdx s /\
    (ms_key s' = None /\ plain s.(ms_it).(it_rest) = [] \/
     src_ok s' /\ cur s' = plain s.(ms_it).(it_rest) /\ blt (skey s) (skey s') /\
     S (length s'.(ms_it).(it_rest)) = length s.(ms_it).(it_rest)).
Proof.
  intros [[key Hkey] Hprev Hf Hks Ha]. unfold pull.
  destruct (ms_it s) as [[|[k v] rest] fails] eqn:E; simpl in *.
  - rewrite Hf. eexists. split_and!; [done|done|]. by left.
  - apply Forall_cons in Hks as [[k' Hk'] Hks]. simpl in Hk'. subst k.
    unfold cur in Ha. rewrite E, Hkey in Ha. simpl in Ha.
    pose proof Ha as [Hs Hl]%ascending_cons_inv. rewrite Hprev, Hkey.
    assert (blt key k') as Hlt by (apply (Hl (MkLogEntry k' v)); set_solver).
    simpl. rewrite (proj2 (bleb_gt _ _)) by done. eexists. split_and!; [done|done|]. right.
    split_and!; [|done|done|done]. constructor; simpl; [by eexists|done|done|done|done].
Qed.

Lemma find_key_cur_ge k s : src_ok s -> find_key k (cur s) <> None -> ble (skey s) k.
Proof.
  intros H Hf. destruct (ble_total (skey s) k) as [?|C]; [done|].
  apply ble_lteq in C as [C|C]; [|subst; apply ble_refl].
  exfalso. apply Hf. apply find_key_None. intros e He <-. pose proof (so_asc _ H) as Ha. unfold cur in *.
  apply ascending_cons_inv in Ha as [_ Hl]. apply elem_of_cons in He as [->|He]; simpl in *; [border|].
  specialize (Hl e He). simpl in Hl. border.
Qed.

Lemma find_key_cur_ne k s : k <> skey s -> find_key k (cur s) = find_key k (plain s.(ms_it).(it_rest)).
Proof. intros H. unfold cur. cbn [find_key Key]. rewrite (proj2 (beqb_neq (skey s) k)); [done|congruence]. Qed.

Lemma is_newest_drop k s h r : find_key k (cur s) = None -> is_newest k (s :: h) r <-> is_newest k h r.
Proof.
  intros H. destruct r as [v|]; cbn [is_newest].
  - split.
    + intros (x & [->|Hx]%elem_of_cons & Hv & Hm); [congruence|]. exists x. split_and!; [done|done|]. set_solver.
    + intros (x & Hx & Hv & Hm). exists x. split_and!; [set_solver|done|].
      intros y [->|Hy]%elem_of_cons Hne; [done|by apply Hm].
  - set_solver.
Qed.

Lemma is_newest_same k s s' h r : find_key k (cur s) = find_key k (cur s') -> srcIdx s = srcIdx s' ->
  is_newest k (s :: h) r -> is_newest k (s' :: h) r.
Proof.
  intros Hf Hi. destruct r as [v|]; cbn [is_newest].
  - intros (x & [->|Hx]%elem_of_cons & Hv & Hm).
    + exists s'. split_and!; [set_solver|congruence|]. intros y [->|Hy]%elem_of_cons Hne; [done|].
      rewrite <- Hi. apply Hm; [set_solver|done].
    + exists x. split_and!; [set_solver|done|]. intros y [->|Hy]%elem_of_cons Hne.
      * rewrite <- Hi. apply Hm; [set_solver|congruence].
      * apply Hm; [set_solver|done].
  - intros H y [->|Hy]%elem_of_cons; [rewrite <- Hf; apply H; set_solver|apply H; set_solver].
Qed.

(** What one [advance] keeps: the heap stays well formed, shrinks, and every
    other key keeps its newest value. *)
Record advanced (k0 : bytes) (h h' : list mergeSource) : Prop := {
  ad_ok : heap_ok h';
  ad_size : (heap_size h' <= heap_size h)%nat;
  ad_newest : forall k r, k <> k0 -> is_newest k h r <-> is_newest k h' r;
  ad_ge : (forall s, s ∈ h -> ble k0 (skey s)) -> forall s, s ∈ h' -> ble k0 (skey s) }.

Lemma advanced_trans k0 h1 h2 h3 : advanced k0 h1 h2 -> advanced k0 h2 h3 -> advanced k0 h1 h3.
Proof.
  intros [A1 A2 A3 A4] [B1 B2 B3 B4]. constructor; [done|lia| |auto].
  intros k r Hk. rewrite A3, B3 by done. done.
Qed.

Lemma advance_ok s h : heap_ok (s :: h) ->
  exists h', advance s h = Ok h' /\ advanced (skey s) (s :: h) h' /\
    (heap_size h' < heap_size (s :: h))%nat /\ (dups (skey s) h' < dups (skey s) (s :: h))%nat.
Proof.
  intros Hh. pose proof Hh as [[Hs Hall]%Forall_cons Hnd]. simpl in Hnd. apply NoDup_cons in Hnd as [Hni Hnd].
  unfold advance. destruct (pull_ok s Hs) as (s' & -> & Hi & Hcase). cbn [mbind result_bind].
  unfold push, heap_size, dups. simpl. rewrite beqb_refl.
  destruct Hcase as [[-> Hnil]|(Hs' & Hc & Hlt & Hlen)].
  - eexists. split_and!; [done| |simpl; lia|simpl; lia]. constructor.
    + by split.
    + unfold heap_size. simpl. lia.
    + intros k r Hk. apply is_newest_drop. by rewrite find_key_cur_ne, Hnil by done.
    + set_solver.
  - destruct (so_key _ Hs') as [key Hkey]. rewrite Hkey. eexists. split_and!; [done| |simpl; lia|].
    + constructor.
      * split; [by constructor|]. simpl. rewrite Hi. by apply NoDup_cons.
      * unfold heap_size. simpl. lia.
      * intros k r Hk. assert (find_key k (cur s) = find_key k (cur s')) as E by by rewrite find_key_cur_ne, Hc.
        split; apply is_newest_same; congruence.
      * intros Hge x [->|Hx]%elem_of_cons; [|apply Hge; set_solver].
        apply blt_ble. eapply ble_blt_trans; [|exact Hlt]. apply Hge. set_solver.
    + simpl. rewrite (proj2 (beqb_neq (skey s') (skey s))); [lia|]. by apply not_eq_sym, blt_neq.
Qed.

Lemma drop_dups_ok fuel k0 h : heap_ok h -> (dups k0 h < fuel)%nat ->
  (forall s, s ∈ h -> ble k0 (skey s)) ->
  exists h', drop_dups fuel k0 h = Ok h' /\ advanced k0 h h' /\ forall s, s ∈ h' -> blt k0 (skey s).
Proof.
  revert h. induction fuel as [|fuel IH]; intros h Hh Hd Hge; [lia|].
  destruct h as [|s h]; simpl.
  - exists []. split_and!; [done|by constructor|set_solver].
  - destruct (pop_min s h) as [t r] eqn:E. destruct (pop_min_ok _ _ _ _ E) as [HP HL].
    destruct (beqb (skey t) k0) eqn:B; bcmp.
    + destruct (advance_ok t r) as (h1 & E1 & A & Hsz & Hdd); [by eapply heap_ok_perm|].
      rewrite B in A, Hdd. rewrite E1. cbn [mbind result_bind].
      assert (advanced k0 (s :: h) h1) as A'.
      { destruct A as [A1 A2 A3 A4]. constructor; [done| | |].
        - by rewrite (heap_size_perm _ _ HP).
        - intros k v Hk. rewrite <- A3 by done.
          split; apply is_newest_perm; [done|by symmetry].
        - intros Hg. apply A4. intros x Hx. apply Hg. by rewrite HP. }
      destruct (IH h1) as (h' & E' & Adv & Hgt); [apply A| |by eapply A'|].
      { rewrite (dups_perm _ _ _ HP) in Hd. lia. }
      exists h'. split_and!; [done|by eapply advanced_trans|done].
    + exists (s :: h). split_and!; [done|by constructor|].
      intros x Hx. specialize (HL x Hx). apply Less_false in HL.
      assert (ble k0 (skey t)) as Ht by (apply Hge; rewrite HP; set_solver).
      apply ble_lteq in Ht as [Ht|Ht]; [|congruence].
      destruct HL as [HL|[HL _]]; [by eapply blt_trans|by rewrite HL].
Qed.

(** ** One [Next], and the whole run *)
Lemma is_newest_top t r s h : heap_ok (s :: h) -> pop_min s h = (t, r) ->
  is_newest (skey t) (s :: h) (Some (ms_value t)).
Proof.
  intros [Hall _] E. destruct (pop_min_ok _ _ _ _ E) as [HP HL].
  exists t. split_and!.
  - rewrite HP. set_solver.
  - unfold cur. cbn [find_key Key Value]. by rewrite beqb_refl.
  - intros s' Hs' Hne. specialize (HL s' Hs'). apply Less_false in HL.
    assert (src_ok s') as Hok by by eapply Forall_forall.
    pose proof (find_key_cur_ge _ s' Hok Hne) as Hle.
    destruct HL as [HL|[_ HL]]; [border|done].
Qed.

Lemma merge_next_ok s h : heap_ok (s :: h) ->
  exists e h', merge_next (s :: h) = Some (Ok (e, h')) /\ heap_ok h' /\
    (heap_size h' < heap_size (s :: h))%nat /\
    is_newest e.(Key) (s :: h) (Some e.(Value)) /\
    (forall x, x ∈ h' -> blt e.(Key) (skey x)) /\
    (forall k r, k <> e.(Key) -> is_newest k (s :: h) r <-> is_newest k h' r).
Proof.
  intros Hh. unfold merge_next. destruct (pop_min s h) as [t r] eqn:E.
  destruct (pop_min_ok _ _ _ _ E) as [HP HL].
  destruct (advance_ok t r) as (h1 & -> & [A1 A2 A3 A4] & Hsz & Hd); [by eapply heap_ok_perm|].
  cbn [mbind result_bind].
  assert (Hge : forall x, x ∈ t :: r -> ble (skey t) (skey x)).
  { intros x Hx. rewrite <- HP in Hx. specialize (HL x Hx). apply Less_false in HL as [HL|[HL _]].
    - by apply blt_ble.
    - rewrite HL. apply ble_refl. }
  destruct (drop_dups_ok (S (length h1)) (skey t) h1 A1) as (h2 & -> & [B1 B2 B3 B4] & Hgt).
  { pose proof (dups_le (skey t) h1). lia. }
  { by apply A4. }
  do 2 eexists. split_and!; [done|done| | |done|].
  - rewrite (heap_size_perm _ _ HP). lia.
  - cbn [Key Value]. by eapply is_newest_top.
  - cbn [Key]. intros k v Hk. rewrite <- B3, <- A3 by done.
    split; apply is_newest_perm; [done|by symmetry].
Qed.

Lemma merge_run_ok fuel h : heap_ok h -> (heap_size h < fuel)%nat ->
  exists es, merge_run fuel h = (es, None) /\ ascending es /\
    (forall k, is_newest k h (find_key k es)).
Proof.
  revert h. induction fuel as [|fuel IH]; intros h Hh Hf; [lia|]. cbn [merge_run].
  destruct h as [|s h].
  - exists []. split_and!; [done|constructor|]. intros k. cbn [find_key is_newest]. set_solver.
  - destruct (merge_next_ok s h Hh) as (e & h' & -> & Hh' & Hsz & Hnew & Hgt & Hoth).
    destruct (IH h' Hh') as (es & -> & Ha & Hn); [lia|].
    exists (e :: es). split_and!; [done| |].
    + constructor; [done|]. apply Forall_forall. intros x Hx. unfold key_lt.
      specialize (Hn (Key x)). rewrite (find_key_in (Key x) (Value x) es) in Hn
        by (done || by destruct x). destruct Hn as (y & Hy & Hfy & _).
      eapply blt_ble_trans; [by apply Hgt|]. apply find_key_cur_ge; [|congruence].
      eapply Forall_forall; [apply Hh'|done].
    + intros k. cbn [find_key]. destruct (beqb (Key e) k) eqn:B; bcmp; [by subst|].
      apply Hoth; [congruence|]. apply Hn.
Qed.

(** ** Initialisation *)
Record iter_ok (it : entryIterator) (es : list LogEntry) : Prop := {
  io_fails : it.(it_fails) = false;
  io_keys : Forall (fun kv => is_Some kv.1) it.(it_rest);
  io_plain : plain it.(it_rest) = es;
  io_asc : ascending es }.

Lemma length_plain l : length (plain l) = length l.
Proof. apply length_map. Qed.

Lemma is_newest_add k s h r : (forall x, x ∈ h -> (srcIdx x < srcIdx s)%nat) -> is_newest k h r ->
  is_newest k (s :: h) match find_key k (cur s) with Some v => Some v | None => r end.
Proof.
  intros Hlt H. destruct (find_key k (cur s)) as [v|] eqn:E; [|by apply is_newest_drop].
  exists s. split_and!; [set_solver|done|]. intros y [->|Hy]%elem_of_cons _; [done|].
  specialize (Hlt y Hy). lia.
Qed.

Lemma init_from_ok its srcs idx h (f : bytes -> option (option bytes)) :
  Forall2 iter_ok its srcs -> heap_ok h -> (forall x, x ∈ h -> (srcIdx x < idx)%nat) ->
  (forall k, is_newest k h (f k)) ->
  exists h', init_from idx its h = Ok h' /\ heap_ok h' /\
    heap_size h' = (heap_size h + list_sum (map (fun it => length it.(it_rest)) its))%nat /\
    forall k, is_newest k h' (fold_left (fun acc src => match find_key k src with Some v => Some v | None => acc end)
                                 srcs (f k)).
Proof.
  intros H. revert idx h f. induction H as [|it es its srcs Hit Hits IH]; intros idx h f Hh Hidx Hf; cbn [init_from].
  - exists h. simpl. split_and!; [done|done|lia|done].
  - destruct Hit as [If Ik Ip Ia]. destruct it as [[|[k v] rest] fails]; simpl in If, Ik, Ip; subst fails.
    + unfold advance, pull. cbn. subst es.
      destruct (IH (S idx) h f) as (h' & E & Hh' & Hsz & Hn); [done|intros x Hx; specialize (Hidx x Hx); lia|done|].
      exists h'. split_and!; [done|done|done|]. done.
    + apply Forall_cons in Ik as [[k' Hk'] Ik]. simpl in Hk'. subst k es.
      unfold advance, pull. cbn [it_rest ms_it it_fails ms_prev mbind result_bind push ms_key].
      set (s := MkSrc (MkIter rest false) idx (Some k') v (Some k')).
      destruct (IH (S idx) (s :: h) (fun k => match find_key k (cur s) with Some v => Some v | None => f k end))
        as (h' & E & Hh' & Hsz & Hn).
      * destruct Hh as [H1 H2]. split.
        -- constructor; [|done]. constructor; simpl; [by eexists|done|done|done|done].
        -- simpl. apply NoDup_cons. split; [|done]. intros (x & Hx & Hin)%list_elem_of_fmap.
           specialize (Hidx x Hin). lia.
      * intros x [->|Hx]%elem_of_cons; [simpl; lia|]. specialize (Hidx x Hx). lia.
      * intros k. by apply is_newest_add.
      * exists h'. split_and!; [exact E|done| |exact Hn].
        rewrite Hsz. unfold heap_size. simpl. lia.
Qed.

Lemma merge_all_ok its srcs : Forall2 iter_ok its srcs ->
  exists es, merge_all its = (es, None) /\ ascending es /\ forall k, find_key k es = newest k srcs.
Proof.
  intros H. unfold merge_all, newMergeIterator.
  destruct (init_from_ok its srcs 0 [] (fun _ => None) H) as (h & -> & Hh & Hsz & Hn).
  - split; constructor.
  - set_solver.
  - intros k. cbn [is_newest]. set_solver.
  - destruct (merge_run_ok (merge_fuel its) h Hh) as (es & E & Ha & Hes).
    { unfold merge_fuel. rewrite Hsz. unfold heap_size. simpl. lia. }
    exists es. split_and!; [done|done|]. intros k. specialize (Hes k). specialize (Hn k).
    change (is_newest k h (newest k srcs)) in Hn.
    destruct (find_key k es) as [v|], (newest k srcs) as [v'|]; cbn [is_newest] in *; [|..|done].
    + destruct Hes as (x & Hx & Hv & Hmx), Hn as (y & Hy & Hv' & Hmy).
      assert (srcIdx x = srcIdx y) as Hxy
        by (apply Nat.le_antisymm; [apply Hmy; [done|congruence]|apply Hmx; [done|congruence]]).
      destruct Hh as [_ Hnd]. apply list_elem_of_lookup in Hx as [i Hi], Hy as [j Hj].
      assert (i = j) as ->.
      { apply (NoDup_lookup (map srcIdx h) i j (srcIdx x)); [done| |]; rewrite list_lookup_fmap.
        - by rewrite Hi.
        - by rewrite Hj, Hxy. }
      rewrite Hi in Hj. injection Hj as ->. congruence.
    + destruct Hes as (x & Hx & Hv & _). rewrite (Hn x Hx) in Hv. done.
    + destruct Hn as (x & Hx & Hv & _). rewrite (Hes x Hx) in Hv. done.
Qed.

Lemma file_iter_ok es : ascending es -> iter_ok (newFileIterator (es, false)) es.
Proof.
  intros Ha. constructor; simpl; [done| | |done].
  - apply Forall_forall. intros kv (e & -> & _)%list_elem_of_fmap. by eexists.
  - unfold plain. rewrite map_map. simpl. rewrite <- (map_id es) at 2. apply map_ext. by intros [].
Qed.

Lemma slice_iter_ok es : ascending es -> (forall e, e ∈ es -> e.(Key) <> []) -> iter_ok (newSliceIterator es) es.
Proof.
  intros Ha Hne. constructor; simpl; [done| | |done].
  - apply Forall_forall. intros kv (e & -> & He)%list_elem_of_fmap. simpl. specialize (Hne e He).
    destruct (Key e); [done|by eexists].
  - unfold plain. rewrite map_map. simpl. rewrite <- (map_id es) at 2. apply map_ext_in.
    intros e He. specialize (Hne e ltac:(by apply list_elem_of_In)). destruct e as [[|c k] v]; done.
Qed.

(** A range iterator over an ascending source yields its entries in range. *)
Lemma range_rest_ok start stop l :
  ascending (plain l) ->
  exists rest, range_rest start stop l false = MkIter rest false /\ rest `sublist_of` l /\
    plain rest = List.filter (fun e => in_range start stop e.(Key)) (plain l).
Proof.
  assert (Hlo : forall k, ((0 <? len start) && bltb k start) =
            negb match start with [] => true | _ => negb (bltb k start) end).
  { intros k. destruct start as [|c st]; [done|]. rewrite negb_involutive.
    by replace (0 <? len (c :: st)) with true by len_lia. }
  assert (Hhi : forall k, ((0 <? len stop) && bltb stop k) =
            negb match stop with [] => true | _ => negb (bltb stop k) end).
  { intros k. destruct stop as [|c st]; [done|]. rewrite negb_involutive.
    by replace (0 <? len (c :: st)) with true by len_lia. }
  induction l as [|[k v] l IH]; intros Ha; [by exists []|].
  cbn [range_rest]. set (kb := default [] k). cbn [plain map] in *. cbn [fst snd] in *. fold kb in Ha |- *.
  pose proof Ha as [Hs Hl]%ascending_cons_inv. destruct (IH Hs) as (rest & E & Hsub & Hp).
  cbn [List.filter Key]. unfold in_range at 1. rewrite Hlo.
  destruct (match start with [] => true | _ => negb (bltb kb start) end) eqn:E1; simpl.
  - rewrite Hhi. destruct (match stop with [] => true | _ => negb (bltb stop kb) end) eqn:E2; simpl.
    + rewrite E. eexists. split_and!; [done|by constructor|]. simpl. by rewrite Hp.
    + exists []. split_and!; [done|apply sublist_nil_l|]. simpl. symmetry. apply filter_none.
      intros x Hx. specialize (Hl x Hx). simpl in Hl. unfold in_range.
      destruct stop as [|c st]; [done|]. apply negb_false_iff in E2. bcmp.
      rewrite (proj2 (bltb_lt (c :: st) (Key x)) (blt_trans _ _ _ E2 Hl)). apply andb_false_r.
  - exists rest. split_and!; [done|by constructor|done].
Qed.

Lemma range_iter_ok it es start stop : iter_ok it es ->
  iter_ok (newRangeIterator it start stop) (List.filter (fun e => in_range start stop e.(Key)) es).
Proof.
  intros [Hf Hk Hp Ha]. subst es. unfold newRangeIterator. rewrite Hf.
  destruct (range_rest_ok start stop (it_rest it) Ha) as (rest & -> & Hsub & Hp).
  constructor; simpl; [done| |done|by apply filter_ascending].
  rewrite Forall_forall in Hk. apply Forall_forall. intros x Hx. apply Hk.
  eapply sublist_subseteq; [exact Hsub|done].
Qed.

(** The merge iterator implements newest-wins.  For any sources that are
    ascending and read without error (files, ranges of files, memory-table
    copies without an empty key), the merge terminates without error, its
    output is strictly ascending without duplicates, and each key carries the
    value (or tombstone) of the last source in the list that has it. *)
Theorem merge_newest_wins its srcs :
  Forall2 iter_ok its srcs ->
  exists es, merge_all its = (es, None) /\ ascending es /\ forall k, find_key k es = newest k srcs.
Proof. apply merge_all_ok. Qed.

Definition demo_old : list LogEntry :=
  [MkLogEntry (str "a") (Some (str "1")); MkLogEntry (str "b") (Some (str "1"))].
Definition demo_new : list LogEntry := [MkLogEntry (str "b") None; MkLogEntry (str "c") (Some (str "2"))].

Lemma merge_newest_wins_witness :
  exists es, merge_all [newFileIterator (demo_old, false); newSliceIterator demo_new] = (es, None) /\
    ascending es /\ forall k, find_key k es = newest k [demo_old; demo_new].
Proof.
  apply (merge_newest_wins _ [demo_old; demo_new]).
  constructor; [apply file_iter_ok|constructor; [apply slice_iter_ok|constructor]].
  - repeat (constructor; [|repeat constructor; reflexivity]). constructor.
  - repeat (constructor; [|repeat constructor; reflexivity]). constructor.
  - intros e [->|[->|H%not_elem_of_nil]%elem_of_cons]%elem_of_cons; done.
Defined.

(** A source that is not strictly ascending is detected: the merge stops
    with an error instead of emitting its keys out of order.  (Here: a source
    whose second key does not exceed its first.) *)
Theorem merge_rejects_unsorted k v k' v' rest fails idx :
  ble k' k ->
  exists s, pull (MkSrc (MkIter ((Some k, v) :: (Some k', v') :: rest) fails) idx None None None) = Ok s /\
    s.(ms_key) = Some k /\ pull s = Err NotAscending.
Proof.
  intros H. eexists. split_and!; [reflexivity|reflexivity|].
  cbn. by rewrite (proj2 (bleb_le _ _) H).
Qed.

Lemma merge_rejects_unsorted_witness :
  exists s, pull (MkSrc (MkIter [(Some (str "b"), None); (Some (str "a"), None)] false) 0 None None None) = Ok s /\
    s.(ms_key) = Some (str "b") /\ pull s = Err NotAscending.
Proof. apply (merge_rejects_unsorted (str "b") None (str "a") None [] false 0). discriminate. Defined.

(** The empty key hides a memory table from scans: its copy is [nil],
    which the merge takes for an exhausted source, so everything the table
    holds behind it is dropped without an error. *)
Theorem empty_key_hides_slice es v :
  merge_all [newSliceIterator (MkLogEntry [] v :: es)] = ([], None).
Proof. reflexivity. Qed.

End Merge.
