(* ===== verification/SSTables.v ===== *)
(** * The set of SSTables ([storage/sstable.go], [sstable_meta.go],
      [sstable_read.go], [sstable_write.go], [compaction_stats.go])

    State: the metadata list (oldest first), the directory (file name to
    content), and the three caches (block index, bloom filter, data blocks).
    Every operation threads the state, cache fills included.  The clock and the
    outcome of file operations are inputs.  The directory part of a path is the
    same for every file and is leftover out of [Filepath]. *)
From stdpp Require Import sorting.
From S2P Require Import Prelude Bytes Entries Temporal Bloom BlockCache SSTFile MergeIter.
Import Bloom Sst Merge.

Module Tables.

(** ** File names *)
Definition l0_name (ts : Z) : bytes := str "sstable_L0_" ++ show_dec ts ++ str ".sst".
Definition merged_name (level ts : Z) : bytes :=
  str "sstable_merged_L" ++ show_dec level ++ str "_" ++ show_dec ts ++ str ".sst".

(** [strings.Index] *)
Fixpoint Index (s sep : bytes) : option nat :=
  if HasPrefix s sep then Some O
  else match s with [] => None | _ :: s => S <$> Index s sep end.

(** [strconv.ParseInt(s, 10, 64)], which [strconv.Atoi] is on 64-bit platforms. *)
Definition ParseInt (s : bytes) : option Z :=
  let '(neg, digits) := match s with
                        | c :: r => if decide (c = Byte.x2d) then (true, r)
                                    else if decide (c = Byte.x2b) then (false, r) else (false, s)
                        | [] => (false, [])
                        end in
  n ← ParseUint digits;
  if neg : bool then if n <=? 2 ^ 63 then Some (- n) else None
  else if n <? 2 ^ 63 then Some n else None.

Definition parseLevelFromName (name : bytes) : Z :=
  match Index name (str "_L") with
  | None => 0
  | Some i =>
      let rest := drop (i + 2) name in
      match IndexByte rest Byte.x5f with
      | None | Some O => 0
      | Some j =>
          match ParseInt (take j rest) with
          | Some level => if level <? 0 then 0 else level
          | None => 0
          end
      end
  end.

Definition TrimSuffix (s suf : bytes) : bytes :=
  if HasSuffix s suf then take (length s - length suf) s else s.

Definition parseCreateTsFromName (name : bytes) : Z :=
  let base := TrimSuffix name (str ".sst") in
  match LastIndex base (str "_") with
  | None => 0
  | Some i =>
      match ParseInt (drop (S i) base) with
      | Some ts => if ts <? 0 then 0 else ts
      | None => 0
      end
  end.

(** ** State *)
Record SSTableMeta := MkMeta {
  Level : Z; Filepath : bytes; MinKey : bytes; MaxKey : bytes; MSize : Z; MaxKeyKnown : bool }.

#[export] Instance SSTableMeta_eq_dec : EqDecision SSTableMeta.
Proof. solve_decision. Defined.

Record SSTable := MkSSTable {
  metas : list SSTableMeta;
  disk : gmap bytes bytes;
  indexCache : gmap bytes blockIndex;
  bloomCache : gmap bytes (option PartitionedBloom);
  blocks : Cache.blockCache }.

Definition NewSSTable (dir : gmap bytes bytes) (blockCacheBytes : Z) : SSTable :=
  MkSSTable [] dir ∅ ∅ (Cache.newBlockCache blockCacheBytes).

Definition set_metas (ms : list SSTableMeta) (ss : SSTable) : SSTable :=
  MkSSTable ms ss.(disk) ss.(indexCache) ss.(bloomCache) ss.(blocks).

Definition AddMeta (ss : SSTable) (m : SSTableMeta) : SSTable := set_metas (ss.(metas) ++ [m]) ss.

(** [RemoveMeta]: the first occurrence of the target. *)
Fixpoint remove_first (m : SSTableMeta) (l : list SSTableMeta) : list SSTableMeta :=
  match l with [] => [] | x :: l => if decide (x = m) then l else x :: remove_first m l end.
Definition RemoveMeta (ss : SSTable) (m : SSTableMeta) : SSTable :=
  set_metas (remove_first m ss.(metas)) ss.

Definition LevelFiles (ss : SSTable) (level : Z) : list SSTableMeta :=
  List.filter (fun m => m.(Level) =? level) ss.(metas).

(** [removed]: whether [os.Remove] succeeded. *)
Definition DeleteSSTable (removed : bool) (ss : SSTable) (m : SSTableMeta) : SSTable :=
  let p := m.(Filepath) in
  MkSSTable ss.(metas) (if removed then delete p ss.(disk) else ss.(disk))
            (delete p ss.(indexCache)) (delete p ss.(bloomCache)) (Cache.dropFile ss.(blocks) p).

(** ** Reading *)
Definition getBloom (ss : SSTable) (p : bytes) : go (SSTable * option PartitionedBloom) :=
  match ss.(bloomCache) !! p with
  | Some pb => Ret (ss, pb)
  | None =>
      pb ← match ss.(disk) !! p with Some f => loadBloomFromFile f | None => Ret None end;
      Ret (MkSSTable ss.(metas) ss.(disk) ss.(indexCache) (<[p := pb]> ss.(bloomCache)) ss.(blocks), pb)
  end.

Definition getBlockIndex (ss : SSTable) (p : bytes) : SSTable * option blockIndex :=
  match ss.(indexCache) !! p with
  | Some bi => (ss, Some bi)
  | None =>
      match f ← ss.(disk) !! p; loadBlockIndexFromFile f with
      | None => (ss, None)
      | Some bi => (MkSSTable ss.(metas) ss.(disk) (<[p := bi]> ss.(indexCache)) ss.(bloomCache) ss.(blocks), Some bi)
      end
  end.

(** The block read of [searchBlock]: from the cache, else from the file. *)
Definition read_block (ss : SSTable) (p : bytes) (start stop : Z) : option bytes :=
  match (Cache.get ss.(blocks) p start).2 with
  | Some buf => Some buf
  | None => f ← ss.(disk) !! p; ReadAt f start stop
  end.
(** Its effect on the cache: a hit moves up, a miss that reads is stored. *)
Definition touch_block (ss : SSTable) (p : bytes) (start stop : Z) : SSTable :=
  let '(c, hit) := Cache.get ss.(blocks) p start in
  let c := match hit with
           | Some _ => c
           | None => match f ← ss.(disk) !! p; ReadAt f start stop with
                     | Some buf => Cache.put c p start buf
                     | None => c
                     end
           end in
  MkSSTable ss.(metas) ss.(disk) ss.(indexCache) ss.(bloomCache) c.

Definition search_in (ss : SSTable) (p key : bytes) (bi : blockIndex) : SSTable * option (option bytes) :=
  let ss' := match blockExtent bi (find_block bi.(bi_entries) key) with
             | None => ss
             | Some (start, stop) => if stop <=? start then ss else touch_block ss p start stop
             end in
  (ss', searchBlock (read_block ss p) key bi).

Definition ReadFromSSTable (ss : SSTable) (p key : bytes) : go (SSTable * option (option bytes)) :=
  '(ss, bloom) ← getBloom ss p;
  may ← match bloom with None => Ret true | Some pb => PMayContain pb key end;
  if may : bool then
    let '(ss, idx) := getBlockIndex ss p in
    match idx with
    | Some bi => Ret (search_in ss p key bi)
    | None => Ret (ss, f ← ss.(disk) !! p; readFromSSTableFull f key)
    end
  else Ret (ss, None).

(** ** Writing *)
Section Write.
Context (opt_m : Z -> Z) (opt_k : Z -> Z -> Z) (iter_order : gmap bytes BloomFilter -> list (bytes * BloomFilter)).

(** How a file write ends: in success, or in an error that leaves [leftover] on
    disk (if anything) and, when [indexed], the block index already cached. *)
Inductive write_result := Written | Failed (leftover : option bytes) (indexed : bool).

Definition install (ss : SSTable) (level : Z) (name : bytes) (es : list LogEntry)
    (f : bytes) (bi : blockIndex) (pb : PartitionedBloom) : SSTable :=
  let ss := MkSSTable ss.(metas) (<[name := f]> ss.(disk)) (<[name := bi]> ss.(indexCache))
                      (<[name := Some pb]> ss.(bloomCache)) ss.(blocks) in
  AddMeta ss (MkMeta level name (default [] (Key <$> head es)) (default [] (Key <$> last es)) (len f) true).

Definition leave (ss : SSTable) (name : bytes) (leftover : option bytes) (indexed : bool) (bi : blockIndex) : SSTable :=
  MkSSTable ss.(metas) (match leftover with Some f => <[name := f]> ss.(disk) | None => ss.(disk) end)
            (if indexed then <[name := bi]> ss.(indexCache) else ss.(indexCache)) ss.(bloomCache) ss.(blocks).

Definition write_table (ss : SSTable) (level : Z) (name : bytes) (es : list LogEntry) (wr : write_result)
    : go (SSTable * bool) :=
  '(f, bi, pb) ← sst_contents opt_m opt_k iter_order es;
  Ret match wr with
      | Written => (install ss level name es f bi pb, true)
      | Failed leftover indexed => (leave ss name leftover indexed bi, false)
      end.

(** [false] is an error; no entries is [ErrNoEntries]. *)
Definition WriteToSSTable (ss : SSTable) (now : Z) (es : list LogEntry) (wr : write_result)
    : go (SSTable * bool) :=
  match es with
  | [] => Ret (ss, false)
  | _ => write_table ss 0 (l0_name now) es wr
  end.

(** [MergeSSTable]: [None] for the nil result. *)
Definition MergeSSTable (ss : SSTable) (now : Z) (files : list SSTableMeta) (targetLevel : Z) (wr : write_result)
    : go (SSTable * option SSTableMeta) :=
  match files with
  | [] => Ret (ss, None)
  | _ =>
      match mapM (fun m => newFileIterator ∘ iter_file <$> ss.(disk) !! m.(Filepath)) files with
      | None => Ret (ss, None)
      | Some its =>
          match merge_all its with
          | (_, Some _) | ([], None) => Ret (leave ss (merged_name targetLevel now)
              match wr with Failed leftover _ => leftover | Written => Some [] end false (MkIndex [] 0), None)
          | (es, None) =>
              '(ss, ok) ← write_table ss targetLevel (merged_name targetLevel now) es wr;
              Ret (ss, if ok : bool then last ss.(metas) else None)
          end
      end
  end.
End Write.

(** ** Loading the directory at start-up *)
Definition load_meta (name f : bytes) : option SSTableMeta :=
  '(kl, r) ← read_full 4 f;
  '(k, _) ← read_full (get_be kl) r;
  let max := match loadBlockIndexFromFile f with
             | Some bi => LastKey <$> last bi.(bi_entries)
             | None => None
             end in
  Some (MkMeta (parseLevelFromName name) name k (default [] max) (len f)
               match max with Some _ => true | None => false end).

Definition meta_less (a b : SSTableMeta) : bool :=
  let ta := parseCreateTsFromName a.(Filepath) in
  let tb := parseCreateTsFromName b.(Filepath) in
  if ta =? tb then bltb a.(Filepath) b.(Filepath) else ta <? tb.
Definition meta_le (a b : SSTableMeta) : Prop := meta_less b a = false.
#[export] Instance meta_le_dec : RelDecision meta_le.
Proof. intros a b. unfold meta_le. apply _. Defined.

(** Directory entries that are not ".sst" files are skipped, and so is a file
    whose first key cannot be read. *)
Definition LoadSSTableMetaList (ss : SSTable) : SSTable :=
  let names := List.filter (fun p => HasSuffix p.1 (str ".sst")) (map_to_list ss.(disk)) in
  set_metas (merge_sort meta_le (omap (fun p => load_meta p.1 p.2) names)) ss.

(** ** Store invariant

    Each table is its metadata and the entries its file was written from. *)
Notation table := (SSTableMeta * list LogEntry)%type.

Record table_ok (d : gmap bytes bytes) (t : table) : Prop := {
  to_writable : writable t.2;
  to_file : exists blob bloom, d !! t.1.(Filepath) = Some (layout t.2 blob) /\
      len (layout t.2 blob) < 2 ^ 63 /\ t.1.(MSize) = len (layout t.2 blob) /\
      loadBloomFromFile (layout t.2 blob) = Ret bloom /\ bloom_admits t.2 bloom;
  to_min : t.1.(MinKey) = default [] (Key <$> head t.2);
  to_max : t.1.(MaxKey) = default [] (Key <$> last t.2);
  to_known : t.1.(MaxKeyKnown) = true }.

(** A cached block is a block of a current table. *)
Definition block_of (tabs : list table) (e : Cache.blockCacheEntry) : Prop :=
  exists t j, t ∈ tabs /\ t.1.(Filepath) = e.(Cache.ckey).(Cache.path) /\ (j < nblk t.2)%nat /\
    e.(Cache.ckey).(Cache.offset) = off t.2 j /\ e.(Cache.cdata) = write_data (blk t.2 j).

Record store_ok (ss : SSTable) (tabs : list table) : Prop := {
  st_metas : ss.(metas) = map fst tabs;
  st_tables : Forall (table_ok ss.(disk)) tabs;
  st_nodup : NoDup (map (fun t => Filepath t.1) tabs);
  st_index : forall t bi, t ∈ tabs -> ss.(indexCache) !! t.1.(Filepath) = Some bi ->
      bi = MkIndex (mk_index t.2) (len (write_data t.2));
  st_bloom : forall t pb, t ∈ tabs -> ss.(bloomCache) !! t.1.(Filepath) = Some pb -> bloom_admits t.2 pb;
  st_blocks : Cache.cache_ok (block_of tabs) ss.(blocks) }.

Lemma path_inj tabs t t' : NoDup (map (fun t : table => Filepath t.1) tabs) -> t ∈ tabs -> t' ∈ tabs ->
  t.1.(Filepath) = t'.1.(Filepath) -> t = t'.
Proof.
  intros Hnd [i Hi]%list_elem_of_lookup [j Hj]%list_elem_of_lookup E.
  assert (i = j) as ->.
  { eapply (NoDup_lookup (map (fun t : table => Filepath t.1) tabs) i j (Filepath t.1)); [done| |];
      rewrite list_lookup_fmap; [by rewrite Hi|by rewrite Hj, E]. }
  congruence.
Qed.

Lemma getBloom_ok ss tabs t : store_ok ss tabs -> t ∈ tabs ->
  exists ss' pb, getBloom ss t.1.(Filepath) = Ret (ss', pb) /\ store_ok ss' tabs /\
    ss'.(disk) = ss.(disk) /\ bloom_admits t.2 pb.
Proof.
  intros H Ht. pose proof H as [H1 H2 H3 H4 H5 H6]. unfold getBloom.
  destruct (bloomCache ss !! Filepath t.1) as [pb|] eqn:E; [exists ss, pb; by split_and!; [..|by eapply H5]|].
  rewrite Forall_forall in H2. destruct (to_file _ _ (H2 t Ht)) as (blob & bloom & -> & _ & _ & -> & Ha).
  cbn [mbind go_bind]. do 2 eexists. split_and!; [done| |done|done].
  constructor; simpl; try done.
  - by apply Forall_forall.
  - intros t' pb' Ht' Hl. destruct (decide (Filepath t.1 = Filepath t'.1)) as [Ep|Ep].
    + assert (t = t') as <- by by eapply path_inj. rewrite lookup_insert_eq in Hl. by injection Hl as <-.
    + rewrite lookup_insert_ne in Hl by done. by eapply H5.
Qed.

Lemma getBlockIndex_ok ss tabs t : store_ok ss tabs -> t ∈ tabs ->
  exists ss', getBlockIndex ss t.1.(Filepath) =
    (ss', Some (MkIndex (mk_index t.2) (len (write_data t.2)))) /\ store_ok ss' tabs /\ ss'.(disk) = ss.(disk).
Proof.
  intros H Ht. pose proof H as [H1 H2 H3 H4 H5 H6]. unfold getBlockIndex.
  destruct (indexCache ss !! Filepath t.1) as [bi|] eqn:E.
  { exists ss. by rewrite (H4 t bi Ht E). }
  rewrite Forall_forall in H2. destruct (H2 t Ht) as [Hw (blob & bloom & -> & _) _ _ _].
  opt. rewrite loadBlockIndex_layout by done. eexists. split_and!; [done| |done].
  constructor; simpl; try done.
  - by apply Forall_forall.
  - intros t' bi' Ht' Hl. destruct (decide (Filepath t.1 = Filepath t'.1)) as [Ep|Ep].
    + assert (t = t') as <- by by eapply path_inj. rewrite lookup_insert_eq in Hl. by injection Hl as <-.
    + rewrite lookup_insert_ne in Hl by done. by eapply H4.
Qed.

(** Reading a block, through the cache or not, gives the block's bytes. *)
Lemma read_block_ok ss tabs t j : store_ok ss tabs -> t ∈ tabs -> (j < nblk t.2)%nat ->
  read_block ss t.1.(Filepath) (off t.2 j) (off t.2 (S j)) = Some (write_data (blk t.2 j)).
Proof.
  intros [H1 H2 H3 H4 H5 H6] Ht Hj. unfold read_block.
  destruct (Cache.get_ok (block_of tabs) (blocks ss) (Filepath t.1) (off t.2 j) H6) as [_ Hg].
  destruct (Cache.get (blocks ss) (Filepath t.1) (off t.2 j)).2 as [buf|] eqn:E; simpl.
  - destruct (Hg buf eq_refl) as (t' & j' & Ht' & Hp & Hj' & Ho & Hd). simpl in Hp, Ho, Hd.
    assert (t' = t) as -> by by eapply path_inj. rewrite Hd. do 3 f_equal. by eapply off_inj.
  - rewrite Forall_forall in H2. destruct (H2 t Ht) as [_ (blob & bloom & -> & _) _ _ _]. opt.
    apply ReadAt_block.
Qed.

Lemma touch_block_ok ss tabs t j : store_ok ss tabs -> t ∈ tabs -> (j < nblk t.2)%nat ->
  store_ok (touch_block ss t.1.(Filepath) (off t.2 j) (off t.2 (S j))) tabs /\
  (touch_block ss t.1.(Filepath) (off t.2 j) (off t.2 (S j))).(disk) = ss.(disk).
Proof.
  intros H Ht Hj. pose proof H as [H1 H2 H3 H4 H5 H6]. unfold touch_block.
  destruct (Cache.get_ok (block_of tabs) (blocks ss) (Filepath t.1) (off t.2 j) H6) as [Hc _].
  destruct (Cache.get (blocks ss) (Filepath t.1) (off t.2 j)) as [c [buf|]]; simpl in Hc.
  - split; [by constructor|done].
  - rewrite Forall_forall in H2. destruct (H2 t Ht) as [_ (blob & bloom & -> & _) _ _ _]. opt.
    rewrite ReadAt_block. split; [|done]. constructor; simpl; try done; [by apply Forall_forall|].
    apply Cache.put_ok; [done|]. exists t, j. by split_and!.
Qed.

Lemma ReadFromSSTable_ok ss tabs t key : store_ok ss tabs -> t ∈ tabs ->
  exists ss', ReadFromSSTable ss t.1.(Filepath) key = Ret (ss', find_key key t.2) /\ store_ok ss' tabs /\
    ss'.(disk) = ss.(disk).
Proof.
  intros H Ht. unfold ReadFromSSTable.
  destruct (getBloom_ok ss tabs t H Ht) as (s1 & pb & -> & Hs1 & Hd1 & Ha). cbn [mbind go_bind].
  assert (exists b, match pb with None => Ret true | Some pb => PMayContain pb key end = Ret b /\
            (b = false -> find_key key t.2 = None)) as (b & -> & Hb).
  { destruct pb as [pb|]; [apply Ha|]. by exists true. }
  cbn [mbind go_bind]. destruct b; [|exists s1; by rewrite Hb].
  destruct (getBlockIndex_ok s1 tabs t Hs1 Ht) as (s2 & -> & Hs2 & Hd2).
  pose proof (st_tables _ _ Hs2) as Hts. rewrite Forall_forall in Hts. pose proof (to_writable _ _ (Hts t Ht)) as Hw.
  unfold search_in. cbn [bi_entries].
  destruct (find_block_ok t.2 key (w_asc _ Hw) (w_ne _ Hw)) as (Hr & _ & _).
  rewrite blockExtent_ok by done. rewrite (searchBlock_ok t.2) by (done || by intros; apply read_block_ok with (tabs := tabs)).
  eexists. split; [done|].
  destruct (touch_block_ok s2 tabs t _ Hs2 Ht Hr) as [Hs3 Hd3].
  destruct (_ <=? _); split; congruence || done.
Qed.

(** ** Adding and removing tables *)
Lemma block_of_incl tabs tabs' e : (forall t, t ∈ tabs -> t ∈ tabs') -> block_of tabs e -> block_of tabs' e.
Proof. intros H (t & j & Ht & R). exists t, j. split; [by apply H|done]. Qed.

Lemma table_ok_disk d name f t : t.1.(Filepath) <> name -> table_ok d t -> table_ok (<[name := f]> d) t.
Proof.
  intros Hne [H1 (blob & bloom & Hd & R) H3 H4 H5]. constructor; try done.
  exists blob, bloom. split; [|done]. by rewrite lookup_insert_ne.
Qed.

Lemma in_paths tabs (t : table) : t ∈ tabs -> t.1.(Filepath) ∈ map (fun t : table => Filepath t.1) tabs.
Proof. intros H. apply list_elem_of_fmap. by exists t. Qed.

Lemma leave_ok ss tabs name leftover indexed bi :
  store_ok ss tabs -> name ∉ map (fun t : table => Filepath t.1) tabs ->
  store_ok (leave ss name leftover indexed bi) tabs.
Proof.
  intros [H1 H2 H3 H4 H5 H6] Hn.
  assert (forall t, t ∈ tabs -> t.1.(Filepath) <> name) as Hne by (intros t Ht E; apply Hn; rewrite <- E; by apply in_paths).
  constructor; simpl; try done.
  - destruct leftover as [f|]; [|done]. rewrite Forall_forall in *. intros t Ht.
    apply table_ok_disk; [by apply Hne|by apply H2].
  - intros t bi' Ht. destruct indexed; [|by apply H4]. rewrite lookup_insert_ne by by apply not_eq_sym, Hne.
    by apply H4.
Qed.

(** Deleting a table and dropping its metadata removes exactly that table. *)
Lemma delete_table_ok ss l1 t l2 removed : store_ok ss (l1 ++ t :: l2) ->
  store_ok (RemoveMeta (DeleteSSTable removed ss t.1) t.1) (l1 ++ l2).
Proof.
  intros [H1 H2 H3 H4 H5 H6].
  assert (Hsub : forall x, x ∈ l1 ++ l2 -> x ∈ l1 ++ t :: l2) by set_solver.
  assert (Hnd : NoDup (map (fun t : table => Filepath t.1) (l1 ++ l2)) /\
                Filepath t.1 ∉ map (fun t : table => Filepath t.1) (l1 ++ l2)).
  { rewrite map_app in *. simpl in H3. rewrite <- Permutation_middle in H3. by apply NoDup_cons in H3 as [? ?]. }
  destruct Hnd as [Hnd Hnt].
  assert (Hne : forall x, x ∈ l1 ++ l2 -> x.1.(Filepath) <> t.1.(Filepath))
    by (intros x Hx E; apply Hnt; rewrite <- E; by apply in_paths).
  constructor; cbn [RemoveMeta set_metas DeleteSSTable metas disk indexCache bloomCache blocks].
  - rewrite H1, !map_app. simpl.
    assert (forall l : list table, (forall x, x ∈ l -> x.1 <> t.1) ->
      remove_first t.1 (map fst l ++ t.1 :: map fst l2) = map fst l ++ map fst l2) as Hr.
    { induction l as [|x l IH]; simpl; intros Hl; [by rewrite decide_True|].
      rewrite decide_False by (apply Hl; set_solver). f_equal. apply IH. set_solver. }
    apply Hr. intros x Hx E. apply (Hne x); [set_solver|by rewrite E].
  - rewrite Forall_forall in *. intros x Hx. destruct (H2 x (Hsub x Hx)) as [W (blob & bloom & Hd & R) A B C].
    constructor; try done. exists blob, bloom. split; [|done].
    destruct removed; [|done]. rewrite lookup_delete_ne; [done|]. by apply not_eq_sym, Hne.
  - done.
  - intros x bi Hx Hl. rewrite lookup_delete_ne in Hl by by apply not_eq_sym, Hne. eapply H4; [by apply Hsub|done].
  - intros x pb Hx Hl. rewrite lookup_delete_ne in Hl by by apply not_eq_sym, Hne. eapply H5; [by apply Hsub|done].
  - eapply Cache.dropFile_impl; [|exact H6]. intros e (x & j & Hx & Hp & R) Hpe.
    exists x, j. split; [|exact (conj Hp R)].
    rewrite elem_of_app, elem_of_cons in Hx. destruct Hx as [Hx|[->|Hx]]; [set_solver|congruence|set_solver].
Qed.

(** ** Merging tables *)
Lemma newest_app k a b : newest k (a ++ b) = match newest k b with Some v => Some v | None => newest k a end.
Proof.
  unfold newest. rewrite fold_left_app. generalize (fold_left (fun acc src =>
    match find_key k src with Some v => Some v | None => acc end) a None) as acc.
  induction b as [|x b IH] using rev_ind; intros acc; simpl; [by destruct acc|].
  rewrite !fold_left_app. simpl. destruct (find_key k x); [done|]. by rewrite IH.
Qed.

Lemma newest_in k srcs v : newest k srcs = Some v -> exists src, src ∈ srcs /\ find_key k src = Some v.
Proof.
  induction srcs as [|x srcs IH] using rev_ind; [done|]. rewrite newest_app. simpl.
  change (newest k [x]) with (match find_key k x with Some v => Some v | None => None end).
  destruct (find_key k x) as [v'|] eqn:E.
  - intros [= ->]. exists x. split; [set_solver|done].
  - intros H. destruct (IH H) as (src & Hs & Hf). exists src. split; [set_solver|done].
Qed.

Lemma open_tables ss tabs sub : store_ok ss tabs -> sub ⊆ tabs ->
  exists its, mapM (fun m => newFileIterator ∘ iter_file <$> ss.(disk) !! m.(Filepath)) (map fst sub) = Some its /\
    Forall2 iter_ok its (map snd sub).
Proof.
  intros H. induction sub as [|t sub IH]; intros Hsub; [by exists []|].
  destruct IH as (its & E & Hits); [set_solver|].
  pose proof (st_tables _ _ H) as Ht. rewrite Forall_forall in Ht.
  destruct (Ht t) as [Hw (blob & bloom & Hd & _) _ _ _]; [set_solver|].
  exists (newFileIterator (t.2, false) :: its). split.
  - simpl. rewrite Hd. simpl. rewrite E. simpl. by rewrite iter_file_ok.
  - constructor; [|done]. apply file_iter_ok, Hw.
Qed.

Section Ops.
Context (opt_m : Z -> Z) (opt_k : Z -> Z -> Z) (iter_order : gmap bytes BloomFilter -> list (bytes * BloomFilter)).
Context (Hm : forall n, opt_m n < 2 ^ 64 - 63) (Hk : forall m n, opt_k m n < 2 ^ 64).
Context (Hord : forall ps, iter_order ps ≡ₚ map_to_list ps).

(** The file the entries make stays below the sizes its fields can hold. *)
Definition small (es : list LogEntry) : Prop :=
  Z.of_nat (nblk es) < 2 ^ 32 /\
  forall f bi pb, sst_contents opt_m opt_k iter_order es = Ret (f, bi, pb) -> len f < 2 ^ 63.

Lemma small_writable es : es <> [] -> ascending es -> Forall entry_fits es -> small es -> writable es.
Proof.
  intros Hne Ha Hf [Hc Hs]. constructor; try done.
  destruct (sst_contents_ok opt_m opt_k iter_order Hm Hk es) as (blob & pb & E & _).
  specialize (Hs _ _ _ E). unfold layout in Hs. len_lia.
Qed.

Definition new_meta (level : Z) (name : bytes) (es : list LogEntry) (size : Z) : SSTableMeta :=
  MkMeta level name (default [] (Key <$> head es)) (default [] (Key <$> last es)) size true.

Lemma write_table_ok ss tabs level name es :
  store_ok ss tabs -> name ∉ map (fun t : table => Filepath t.1) tabs -> writable es -> small es ->
  exists ss' size, write_table opt_m opt_k iter_order ss level name es Written = Ret (ss', true) /\
    store_ok ss' (tabs ++ [(new_meta level name es size, es)]).
Proof.
  intros [H1 H2 H3 H4 H5 H6] Hn Hw [_ Hs]. unfold write_table.
  destruct (sst_contents_ok opt_m opt_k iter_order Hm Hk es) as (blob & pb & E & Hb & Hwf & Ha).
  specialize (Hs _ _ _ E). rewrite E. cbn [mbind go_bind]. do 2 eexists. split; [done|].
  assert (forall t, t ∈ tabs -> t.1.(Filepath) <> name) as Hne by (intros t Ht Ep; apply Hn; rewrite <- Ep; by apply in_paths).
  constructor; cbn [install AddMeta set_metas metas disk indexCache bloomCache blocks].
  - rewrite map_app, H1. done.
  - apply Forall_app. split.
    + rewrite Forall_forall in *. intros t Ht. apply table_ok_disk; [by apply Hne|by apply H2].
    + constructor; [|constructor]. constructor; simpl; try done.
      assert (len blob < 2 ^ 63) as Hbl by (unfold layout in Hs; len_lia).
      destruct (loadBloom_ok opt_m opt_k iter_order Hm Hk Hord es pb blob Hb Hwf Hbl) as [L|L];
        (do 2 eexists; split_and!; [by rewrite lookup_insert_eq|done|done|exact L|done]).
  - rewrite map_app. apply NoDup_app. split_and!; [done| |apply NoDup_singleton].
    intros x Hx ->%list_elem_of_singleton. done.
  - intros t bi [Ht|Ht%list_elem_of_singleton]%elem_of_app Hl.
    + rewrite lookup_insert_ne in Hl by by apply not_eq_sym, Hne. by eapply H4.
    + subst t. simpl in Hl. rewrite lookup_insert_eq in Hl. by injection Hl as <-.
  - intros t ob [Ht|Ht%list_elem_of_singleton]%elem_of_app Hl.
    + rewrite lookup_insert_ne in Hl by by apply not_eq_sym, Hne. by eapply H5.
    + subst t. simpl in Hl. rewrite lookup_insert_eq in Hl. by injection Hl as <-.
  - eapply Cache.cache_ok_impl; [|exact H6]. intros e. apply block_of_incl. set_solver.
Qed.

Lemma write_table_failed ss tabs level name es leftover indexed :
  store_ok ss tabs -> name ∉ map (fun t : table => Filepath t.1) tabs ->
  exists ss', write_table opt_m opt_k iter_order ss level name es (Failed leftover indexed) = Ret (ss', false) /\
    store_ok ss' tabs.
Proof.
  intros H Hn. unfold write_table.
  destruct (sst_contents_ok opt_m opt_k iter_order Hm Hk es) as (blob & pb & -> & _).
  cbn [mbind go_bind]. eexists. split; [done|]. by apply leave_ok.
Qed.

(** A merge of some of the tables adds one table that holds, for every key, the
    value of the newest of them. *)
Lemma MergeSSTable_ok ss tabs sub now level :
  store_ok ss tabs -> sub ⊆ tabs -> sub <> [] -> merged_name level now ∉ map (fun t : table => Filepath t.1) tabs ->
  (forall es, ascending es -> (forall k, find_key k es = newest k (map snd sub)) -> small es) ->
  exists ss' es size, MergeSSTable opt_m opt_k iter_order ss now (map fst sub) level Written =
      Ret (ss', Some (new_meta level (merged_name level now) es size)) /\
    store_ok ss' (tabs ++ [(new_meta level (merged_name level now) es size, es)]) /\
    forall k, find_key k es = newest k (map snd sub).
Proof.
  intros H Hsub Hne Hn Hsmall. unfold MergeSSTable.
  destruct (open_tables ss tabs sub H Hsub) as (its & E & Hits).
  destruct (map fst sub) as [|m ms] eqn:Em; [by destruct sub|]. rewrite <- Em in *. clear m ms Em. rewrite E.
  destruct (merge_all_ok its (map snd sub) Hits) as (es & -> & Ha & Hf).
  specialize (Hsmall es Ha Hf). pose proof (st_tables _ _ H) as Ht. rewrite Forall_forall in Ht.
  assert (es <> []) as Hes.
  { intros ->. destruct sub as [|t sub'] using rev_ind; [done|]. clear IHsub'.
    destruct (Ht t) as [Hw _ _ _ _]; [set_solver|]. destruct t.2 as [|e l] eqn:Et; [by apply w_ne in Hw|].
    specialize (Hf (Key e)). rewrite map_app, newest_app in Hf. simpl map in Hf. rewrite Et in Hf.
    change (newest (Key e) [e :: l]) with (match find_key (Key e) (e :: l) with Some v => Some v | None => None end) in Hf.
    simpl in Hf. by rewrite beqb_refl in Hf. }
  assert (Forall entry_fits es) as Hfit.
  { apply Forall_forall. intros e He. pose proof (Hf (Key e)) as Hfe.
    rewrite (find_key_in (Key e) (Value e)) in Hfe by (done || by destruct e). symmetry in Hfe.
    apply newest_in in Hfe as (src & Hsrc & Hfs). apply list_elem_of_fmap in Hsrc as (t & -> & Htin).
    pose proof (w_fits _ (to_writable _ _ (Ht t (Hsub t Htin)))) as Hw. rewrite Forall_forall in Hw.
    apply find_key_Some_in in Hfs. specialize (Hw _ Hfs). by destruct e. }
  destruct es as [|e0 es0] eqn:Ees; [done|]. rewrite <- Ees in *.
  destruct (write_table_ok ss tabs level (merged_name level now) es H Hn) as (ss' & size & -> & Hs');
    [by apply small_writable|done|].
  cbn [mbind go_bind]. exists ss', es, size. split_and!; [|done|done].
  rewrite (st_metas _ _ Hs'), map_app. simpl. by rewrite last_snoc.
Qed.

Lemma MergeSSTable_failed ss tabs sub now level leftover indexed :
  store_ok ss tabs -> sub ⊆ tabs -> merged_name level now ∉ map (fun t : table => Filepath t.1) tabs ->
  exists ss', MergeSSTable opt_m opt_k iter_order ss now (map fst sub) level (Failed leftover indexed) =
      Ret (ss', None) /\ store_ok ss' tabs.
Proof.
  intros H Hsub Hn. unfold MergeSSTable.
  destruct (open_tables ss tabs sub H Hsub) as (its & E & Hits).
  destruct (map fst sub) as [|m ms] eqn:Em; [by exists ss|]. rewrite <- Em in *. clear m ms Em. rewrite E.
  destruct (merge_all_ok its (map snd sub) Hits) as (es & -> & _).
  destruct es as [|e es]; [eexists; split; [done|by apply leave_ok]|].
  destruct (write_table_failed ss tabs level (merged_name level now) (e :: es) leftover indexed H Hn) as (ss' & -> & Hs').
  by exists ss'.
Qed.
End Ops.

(** ** The directory holds the listed tables only *)
Definition tidy (ss : SSTable) : Prop :=
  forall p f, ss.(disk) !! p = Some f -> p ∈ map Filepath ss.(metas).

(** A file operation that leaves nothing behind when it fails. *)
Definition clean_result (wr : write_result) : Prop :=
  match wr with Written => True | Failed leftover _ => leftover = None end.

Lemma tidy_write opt_m opt_k iter_order ss level name es wr ss' ok :
  write_table opt_m opt_k iter_order ss level name es wr = Ret (ss', ok) -> clean_result wr -> tidy ss -> tidy ss'.
Proof.
  unfold write_table. destruct (sst_contents _ _ _ es) as [[[f bi] pb]|]; [|done]. cbn [mbind go_bind].
  intros [= E] Hc Ht. destruct wr as [|leftover indexed]; injection E as <- <-.
  - intros p g. cbn [install AddMeta set_metas metas disk]. rewrite map_app, elem_of_app. cbn [map Filepath].
    rewrite list_elem_of_singleton. destruct (decide (p = name)) as [->|Hne]; [by right|].
    rewrite lookup_insert_ne by done. intros Hl. left. by eapply Ht.
  - simpl in Hc. by subst leftover.
Qed.

Lemma tidy_delete ss m : tidy ss -> tidy (RemoveMeta (DeleteSSTable true ss m) m).
Proof.
  intros Ht p f. cbn [RemoveMeta set_metas DeleteSSTable metas disk]. intros Hl.
  destruct (decide (p = Filepath m)) as [->|Hne]; [by rewrite lookup_delete_eq in Hl|].
  rewrite lookup_delete_ne in Hl by done. specialize (Ht p f Hl). clear Hl.
  induction (metas ss) as [|x l IH]; [done|]. simpl. cbn [map] in Ht. rewrite elem_of_cons in Ht.
  destruct (decide (x = m)) as [->|Hx]; [by destruct Ht|]. cbn [map]. rewrite elem_of_cons.
  destruct Ht as [Ht|Ht]; [by left|right; by apply IH].
Qed.

Lemma tidy_merge opt_m opt_k iter_order ss now files level wr ss' o :
  MergeSSTable opt_m opt_k iter_order ss now files level wr = Ret (ss', o) ->
  is_Some o \/ (exists indexed, wr = Failed None indexed) -> tidy ss -> tidy ss'.
Proof.
  unfold MergeSSTable. intros E Ho Ht.
  destruct files as [|m files]; [by injection E as <- <-|].
  destruct (mapM _ (m :: files)) as [its|]; [|by injection E as <- <-].
  destruct (merge_all its) as [[|e es] [err|]].
  1-3: injection E as <- <-; (destruct Ho as [[x Hx]|[indexed ->]]; [done|]; exact Ht).
  destruct (write_table opt_m opt_k iter_order ss level (merged_name level now) (e :: es) wr) as [[s1 ok]|] eqn:Ew; [|done].
  cbn [mbind go_bind] in E. injection E as <- <-. eapply tidy_write; [exact Ew| |done].
  destruct Ho as [[x Hx]|[indexed ->]]; [|done]. destruct wr as [|leftover indexed]; [done|].
  unfold write_table in Ew. destruct (sst_contents _ _ _ (e :: es)) as [[[? ?] ?]|]; [|done]. by injection Ew as _ <-.
Qed.

(** ** Names *)
Lemma digits_no_sep d c : is_digit c = false -> Forall (fun b => is_digit b = true) d -> c ∉ d.
Proof. intros Hc Hd Hin. rewrite Forall_forall in Hd. specialize (Hd c Hin). congruence. Qed.

Lemma LastIndex_notin c d : c ∉ d -> LastIndex d [c] = None.
Proof.
  induction d as [|x d IH]; [done|]. intros Hn. simpl LastIndex. rewrite IH by set_solver.
  destruct (HasPrefix (x :: d) [c]) eqn:P; [|done].
  apply HasPrefix_spec in P as [t Ht]. injection Ht as -> _. set_solver.
Qed.

Lemma IndexByte_notin c d r : c ∉ d -> IndexByte (d ++ c :: r) c = Some (length d).
Proof.
  induction d as [|x d IH]; simpl; intros Hn; [by rewrite decide_True|].
  rewrite decide_False by set_solver. by rewrite IH by set_solver.
Qed.

Lemma show_dec_ne z : 0 <= z -> show_dec z <> [].
Proof.
  intros H E. pose proof (parse_show_dec z H) as P. rewrite E in P. simpl in P.
  assert (z = 0) as -> by congruence. done.
Qed.

Lemma ParseInt_show z : 0 <= z < 2 ^ 63 -> ParseInt (show_dec z) = Some z.
Proof.
  intros H. pose proof (show_dec_digits z ltac:(lia)) as Hd. pose proof (show_dec_ne z ltac:(lia)) as Hne.
  pose proof (parse_show_dec z ltac:(lia)) as P. unfold ParseInt.
  destruct (show_dec z) as [|c r]; [done|]. apply Forall_cons in Hd as [Hc _].
  rewrite !decide_False by (intros ->; done). unfold ParseUint. rewrite P.
  replace (z <? 2 ^ 64) with true by lia. simpl. replace (z <? 2 ^ 63) with true by lia. done.
Qed.

Lemma TrimSuffix_app a b : TrimSuffix (a ++ b) b = a.
Proof.
  unfold TrimSuffix. rewrite (proj2 (HasSuffix_spec (a ++ b) b)) by by exists a.
  rewrite length_app, Nat.add_sub. apply take_app_length.
Qed.

Lemma created_ts pre ts : 0 <= ts < 2 ^ 63 ->
  parseCreateTsFromName (pre ++ str "_" ++ show_dec ts ++ str ".sst") = ts.
Proof.
  intros H. unfold parseCreateTsFromName. rewrite !app_assoc, TrimSuffix_app, <- app_assoc.
  assert (Byte.x5f ∉ show_dec ts) as Hn by (apply digits_no_sep; [done|apply show_dec_digits; lia]).
  rewrite (LastIndex_app pre (str "_" ++ show_dec ts) (str "_") 0).
  2: { change (str "_") with [Byte.x5f]. cbn [app]. simpl LastIndex. by rewrite LastIndex_notin. }
  rewrite Nat.add_0_r. change (str "_" ++ show_dec ts) with ([Byte.x5f] ++ show_dec ts).
  rewrite app_assoc, drop_app_length' by (rewrite length_app; simpl; lia).
  rewrite ParseInt_show by done. by replace (ts <? 0) with false by lia.
Qed.

Lemma l0_ts ts : 0 <= ts < 2 ^ 63 -> parseCreateTsFromName (l0_name ts) = ts.
Proof. apply (created_ts (str "sstable_L0")). Qed.

Lemma merged_ts level ts : 0 <= ts < 2 ^ 63 -> parseCreateTsFromName (merged_name level ts) = ts.
Proof.
  intros H. unfold merged_name. rewrite app_assoc. by apply created_ts.
Qed.

Lemma l0_level ts : parseLevelFromName (l0_name ts) = 0.
Proof. reflexivity. Qed.

Lemma merged_level level ts : 0 <= level < 2 ^ 63 -> parseLevelFromName (merged_name level ts) = level.
Proof.
  intros H. unfold parseLevelFromName.
  assert (Index (merged_name level ts) (str "_L") = Some 14%nat) as -> by reflexivity.
  assert (drop (14 + 2) (merged_name level ts) = show_dec level ++ Byte.x5f :: show_dec ts ++ str ".sst") as -> by reflexivity.
  rewrite IndexByte_notin by (apply digits_no_sep; [done|apply show_dec_digits; lia]).
  pose proof (show_dec_ne level ltac:(lia)). destruct (length (show_dec level)) as [|n] eqn:E;
    [by apply nil_length_inv in E|].
  rewrite <- E, take_app_length, ParseInt_show by done. by replace (level <? 0) with false by lia.
Qed.

(** ** Restart *)

(** A table under the name its level and creation time give. *)
Definition named (m : SSTableMeta) (ts : Z) : Prop :=
  0 <= ts < 2 ^ 63 /\
  (m.(Level) = 0 /\ m.(Filepath) = l0_name ts \/
   0 <= m.(Level) < 2 ^ 63 /\ m.(Filepath) = merged_name m.(Level) ts).

Lemma named_parse m ts : named m ts ->
  parseCreateTsFromName m.(Filepath) = ts /\ parseLevelFromName m.(Filepath) = m.(Level) /\
  HasSuffix m.(Filepath) (str ".sst") = true.
Proof.
  intros (Hts & [[Hl ->]|[Hl ->]]).
  - split_and!; [by apply l0_ts|by rewrite Hl, l0_level|]. apply HasSuffix_spec. unfold l0_name.
    rewrite app_assoc. by eexists.
  - split_and!; [by apply merged_ts|by apply merged_level|]. apply HasSuffix_spec. unfold merged_name.
    rewrite !app_assoc. by eexists.
Qed.

Lemma last_mk_index es : es <> [] -> ascending es ->
  LastKey <$> last (mk_index es) = Key <$> last es.
Proof.
  intros Hne Ha. pose proof (nblk_pos es Hne) as Hp.
  rewrite last_lookup, length_mk_index.
  replace (pred (nblk es)) with (nblk es - 1)%nat by lia.
  rewrite mk_index_lookup by lia. simpl.
  destruct (last_blk es (nblk es - 1) Ha ltac:(lia)) as (e & E & _). rewrite E. simpl.
  rewrite <- (take_drop (SSTableBlockSize * (nblk es - 1)) es).
  rewrite last_app. unfold blk in E. rewrite take_ge in E; [by rewrite E|].
  rewrite length_drop. assert (length es <= SSTableBlockSize * S (nblk es - 1))%nat; [|unfold SSTableBlockSize in *; lia].
  destruct (Nat.le_gt_cases (length es) (SSTableBlockSize * S (nblk es - 1))) as [?|C]; [done|].
  apply nblk_lt in C. lia.
Qed.

Lemma read_first_key e es blob : len e.(Key) < 2 ^ 32 ->
  exists kl r r', read_full 4 (layout (e :: es) blob) = Some (kl, r) /\ read_full (get_be kl) r = Some (e.(Key), r').
Proof.
  intros H. unfold layout. rewrite write_data_cons. unfold write_entry. rewrite <- !app_assoc, read_full_4.
  do 3 eexists. split; [done|]. by rewrite get_put_be4, read_full_app.
Qed.

Lemma load_meta_ok d t ts : table_ok d t -> named t.1 ts ->
  exists f, d !! t.1.(Filepath) = Some f /\ load_meta t.1.(Filepath) f = Some t.1.
Proof.
  intros [Hw (blob & bloom & Hd & Hl & Hsz & _) Hmin Hmax Hkn] Hn.
  exists (layout t.2 blob). split; [done|]. unfold load_meta.
  pose proof (w_ne _ Hw) as Hne. pose proof (last_mk_index _ Hne (w_asc _ Hw)) as Hlast.
  rewrite loadBlockIndex_layout by done. cbn [bi_entries]. rewrite Hlast.
  destruct (last t.2) as [el|] eqn:El; [|by apply last_None in El]. simpl in Hmax.
  destruct t as [m es]. cbn [fst snd] in *. destruct es as [|e es]; [done|]. simpl in Hmin.
  pose proof (w_fits _ Hw) as Hfit. apply Forall_cons in Hfit as [[Hkl _] _].
  destruct (read_first_key e es blob Hkl) as (kl & r & r' & -> & E2). opt. rewrite E2. opt.
  destruct (named_parse _ _ Hn) as (_ & -> & _). simpl. destruct m; simpl in *. by subst.
Qed.

Lemma meta_le_ts a b ta tb : named a ta -> named b tb -> ta < tb -> meta_le a b /\ ~ meta_le b a.
Proof.
  intros Ha Hb Hlt. unfold meta_le, meta_less.
  destruct (named_parse _ _ Ha) as (-> & _ & _), (named_parse _ _ Hb) as (-> & _ & _).
  replace (tb =? ta) with false by lia. replace (ta =? tb) with false by lia.
  replace (tb <? ta) with false by lia. replace (ta <? tb) with true by lia. done.
Qed.

#[export] Instance meta_le_total : Total meta_le.
Proof.
  intros a b. unfold meta_le, meta_less.
  rewrite (Z.eqb_sym (parseCreateTsFromName (Filepath b))).
  destruct (Z.eqb_spec (parseCreateTsFromName (Filepath a)) (parseCreateTsFromName (Filepath b))) as [E|E].
  - destruct (ble_total (Filepath a) (Filepath b)) as [H|H]; [left|right]; by apply bltb_ge.
  - destruct (Z.lt_total (parseCreateTsFromName (Filepath a)) (parseCreateTsFromName (Filepath b))) as [H|[H|H]];
      [left|done|right]; lia.
Qed.

#[export] Instance meta_le_trans : Transitive meta_le.
Proof.
  intros a b c. unfold meta_le, meta_less.
  destruct (Z.eqb_spec (parseCreateTsFromName (Filepath b)) (parseCreateTsFromName (Filepath a))) as [E1|E1],
    (Z.eqb_spec (parseCreateTsFromName (Filepath c)) (parseCreateTsFromName (Filepath b))) as [E2|E2],
    (Z.eqb_spec (parseCreateTsFromName (Filepath c)) (parseCreateTsFromName (Filepath a))) as [E3|E3]; intros H1 H2;
    bcmp; try lia.
  apply bltb_ge. by eapply ble_trans.
Qed.

(** The tables in creation order, each file under its name, nothing else in
    the directory. *)
Record directory_ok (ss : SSTable) (tabs : list table) (tss : list Z) : Prop := {
  do_names : Forall2 (fun t ts => named t.1 ts) tabs tss;
  do_order : StronglySorted Z.lt tss;
  do_only : forall p f, ss.(disk) !! p = Some f -> HasSuffix p (str ".sst") = true ->
      exists t, t ∈ tabs /\ t.1.(Filepath) = p }.

Lemma metas_sorted (tabs : list table) tss : Forall2 (fun t ts => named t.1 ts) tabs tss -> StronglySorted Z.lt tss ->
  StronglySorted meta_le (map fst tabs).
Proof.
  intros H. induction H as [|t ts tabs tss Hn Hall IH]; intros Hs; simpl; [constructor|].
  inversion Hs as [|? ? Hs' Hf]; subst. constructor; [by apply IH|]. apply Forall_forall.
  intros m (t' & -> & Ht')%list_elem_of_fmap. apply list_elem_of_lookup in Ht' as [i Hi].
  destruct (Forall2_lookup_l _ _ _ _ _ Hall Hi) as (ts' & Hts' & Hn').
  rewrite Forall_forall in Hf. apply (meta_le_ts t.1 t'.1 ts ts' Hn Hn').
  apply Hf. by eapply list_elem_of_lookup_2.
Qed.

Lemma named_inj (tabs : list table) tss t t' : Forall2 (fun (t : table) ts => named t.1 ts) tabs tss ->
  StronglySorted Z.lt tss -> t ∈ tabs -> t' ∈ tabs -> meta_le t.1 t'.1 -> meta_le t'.1 t.1 -> t = t'.
Proof.
  intros H Hs [i Hi]%list_elem_of_lookup [j Hj]%list_elem_of_lookup L1 L2.
  destruct (Forall2_lookup_l _ _ _ _ _ H Hi) as (a & Ha & Hna), (Forall2_lookup_l _ _ _ _ _ H Hj) as (b & Hb & Hnb).
  assert (forall x y u v, (x < y)%nat -> tss !! x = Some u -> tss !! y = Some v -> u < v) as Hlt.
  { clear - Hs. induction Hs as [|z l Hs IH Hf]; intros x y u v Hxy Hx Hy; [done|].
    destruct y as [|y]; [lia|]. simpl in Hy. destruct x as [|x]; simpl in Hx.
    - injection Hx as ->. rewrite Forall_forall in Hf. apply Hf. by eapply list_elem_of_lookup_2.
    - by apply (IH x y); [lia|..]. }
  destruct (Nat.lt_trichotomy i j) as [L|[->|L]]; [|congruence|]; exfalso.
  - by destruct (meta_le_ts _ _ _ _ Hna Hnb (Hlt _ _ _ _ L Ha Hb)).
  - by destruct (meta_le_ts _ _ _ _ Hnb Hna (Hlt _ _ _ _ L Hb Ha)).
Qed.

Lemma NoDup_omap {A B} (f : A -> option B) l :
  (forall x y z, x ∈ l -> y ∈ l -> f x = Some z -> f y = Some z -> x = y) -> NoDup l -> NoDup (omap f l).
Proof.
  intros Hinj. induction 1 as [|x l Hx Hl IH]; simpl; [constructor|].
  assert (NoDup (omap f l)) as Hr by (apply IH; intros a b z Ha Hb; apply Hinj; set_solver).
  destruct (f x) as [z|] eqn:E; [|done]. apply NoDup_cons. split; [|done].
  intros (y & Hy & Hz)%list_elem_of_omap. assert (x = y) as -> by (eapply Hinj; [set_solver|set_solver|done|done]). done.
Qed.

Lemma load_all_perm ss tabs tss : store_ok ss tabs -> directory_ok ss tabs tss ->
  omap (fun p => load_meta p.1 p.2)
    (List.filter (fun p => HasSuffix p.1 (str ".sst")) (map_to_list ss.(disk))) ≡ₚ map fst tabs.
Proof.
  intros H [Hn Hs Ho]. pose proof (st_tables _ _ H) as Ht. rewrite Forall_forall in Ht.
  assert (Hnamed : forall t, t ∈ tabs -> exists ts, named t.1 ts).
  { intros t [i Hi]%list_elem_of_lookup. destruct (Forall2_lookup_l _ _ _ _ _ Hn Hi) as (ts & _ & Hts). by exists ts. }
  assert (Hload : forall p f m, ss.(disk) !! p = Some f -> HasSuffix p (str ".sst") = true ->
            load_meta p f = Some m <-> exists t, t ∈ tabs /\ t.1.(Filepath) = p /\ m = t.1).
  { intros p f m Hd Hsuf. destruct (Ho p f Hd Hsuf) as (t & Hin & <-). destruct (Hnamed t Hin) as [ts Hts].
    destruct (load_meta_ok _ _ _ (Ht t Hin) Hts) as (f' & Hd' & Hl). rewrite Hd in Hd'. injection Hd' as <-.
    rewrite Hl. split; [intros [= <-]; by exists t|]. intros (t' & Hin' & Hp & ->).
    by rewrite (path_inj tabs t' t (st_nodup _ _ H) Hin' Hin Hp). }
  apply NoDup_Permutation.
  - apply NoDup_omap.
    + intros [p f] [p' f'] m Hp Hp' Hm Hm'.
      apply list_elem_of_In, List.filter_In in Hp as [Hp Hps], Hp' as [Hp' Hps'].
      apply list_elem_of_In, elem_of_map_to_list in Hp, Hp'. cbn [fst snd] in *.
      apply (Hload p f m Hp Hps) in Hm as (t & _ & <- & ->).
      apply (Hload p' f' t.1 Hp' Hps') in Hm' as (t' & _ & Hpe & Hte). rewrite <- Hte in Hpe. subst p'. congruence.
    + apply NoDup_ListNoDup, List.NoDup_filter, NoDup_ListNoDup, NoDup_map_to_list.
  - eapply NoDup_fmap_1 with (f := Filepath). rewrite <- list_fmap_compose. apply (st_nodup _ _ H).
  - intros m. rewrite list_elem_of_omap. split.
    + intros ([p f] & Hp & Hm). apply list_elem_of_In, List.filter_In in Hp as [Hp Hps].
      apply list_elem_of_In, elem_of_map_to_list in Hp. cbn [fst snd] in *.
      apply (Hload p f m Hp Hps) in Hm as (t & Hin & _ & ->). apply list_elem_of_fmap. by exists t.
    + intros (t & -> & Hin)%list_elem_of_fmap. destruct (Hnamed t Hin) as [ts Hts].
      destruct (load_meta_ok _ _ _ (Ht t Hin) Hts) as (f & Hd & Hl). exists (t.1.(Filepath), f).
      split; [|done]. apply list_elem_of_In, List.filter_In. split; [|apply (named_parse _ _ Hts)].
      by apply list_elem_of_In, elem_of_map_to_list.
Qed.

Lemma reload_metas ss tabs tss : store_ok ss tabs -> directory_ok ss tabs tss ->
  (LoadSSTableMetaList ss).(metas) = ss.(metas).
Proof.
  intros H Hd. pose proof (load_all_perm ss tabs tss H Hd) as HP. destruct Hd as [Hn Hs _].
  unfold LoadSSTableMetaList. cbn [set_metas metas]. rewrite (st_metas _ _ H).
  apply (StronglySorted_unique_strong meta_le).
  - intros x1 x2 H1 H2 L1 L2. rewrite merge_sort_Permutation, HP in H1.
    apply list_elem_of_fmap in H1 as (t1 & -> & Ht1), H2 as (t2 & -> & Ht2).
    f_equal. by eapply named_inj.
  - apply StronglySorted_merge_sort; apply _.
  - by eapply metas_sorted.
  - by rewrite merge_sort_Permutation.
Qed.

Lemma reload_ok ss tabs tss cacheBytes :
  store_ok ss tabs -> directory_ok ss tabs tss ->
  let ss' := LoadSSTableMetaList (NewSSTable ss.(disk) cacheBytes) in
  ss'.(metas) = ss.(metas) /\ store_ok ss' tabs.
Proof.
  intros H Hd. cbv zeta.
  assert ((LoadSSTableMetaList (NewSSTable (disk ss) cacheBytes)).(metas) = metas ss) as E
    by exact (reload_metas ss tabs tss H Hd).
  split; [done|]. destruct H as [H1 H2 H3 _ _ _]. constructor; simpl; try done.
  - rewrite <- H1. exact E.
  - apply Cache.newBlockCache_ok.
Qed.

(** Restart recovers the table set.  When the directory holds exactly the
    current tables under the names of their level and creation time, and
    creation times increase along the metadata list, scanning the directory in
    a fresh process rebuilds the metadata list: same order (so newest-wins
    lookups agree), same levels, key bounds and sizes; and the new store, with
    empty caches, again satisfies the store invariant. *)
Theorem reload_recovers_tables ss tabs tss cacheBytes :
  store_ok ss tabs -> directory_ok ss tabs tss ->
  let ss' := LoadSSTableMetaList (NewSSTable ss.(disk) cacheBytes) in
  ss'.(metas) = ss.(metas) /\ store_ok ss' tabs.
Proof. exact (reload_ok ss tabs tss cacheBytes). Qed.

(** A one-table store, for the witnesses. *)
Lemma demo_small : small demo_m demo_k map_to_list demo_entries.
Proof.
  split; [vm_compute; reflexivity|]. intros f bi pb E.
  assert (match sst_contents demo_m demo_k map_to_list demo_entries with
          | Ret (f, _, _) => len f <? 2 ^ 63 | Panic => false end = true) as H by (vm_compute; reflexivity).
  rewrite E in H. by apply Z.ltb_lt.
Qed.

Lemma demo_sizing : (forall n, demo_m n < 2 ^ 64 - 63) /\ (forall m n, demo_k m n < 2 ^ 64) /\
  (forall ps : gmap bytes BloomFilter, map_to_list ps ≡ₚ map_to_list ps).
Proof.
  split_and!; [intros n; unfold demo_m; lia|intros m n; unfold demo_k; lia|done].
Qed.

Lemma empty_store_ok d b : store_ok (NewSSTable d b) [].
Proof.
  constructor; simpl; [done|constructor|constructor|set_solver|set_solver|apply Cache.newBlockCache_ok].
Qed.

Lemma write_table_disk opt_m opt_k iter_order ss level name es ss' :
  write_table opt_m opt_k iter_order ss level name es Written = Ret (ss', true) ->
  exists f, ss'.(disk) = <[name := f]> ss.(disk).
Proof.
  unfold write_table. destruct (sst_contents _ _ _ es) as [[[f bi] pb]|]; [|done].
  intros [= <-]. by exists f.
Qed.

Lemma demo_store : exists ss size,
  store_ok ss [(new_meta 0 (l0_name 5) demo_entries size, demo_entries)] /\
  directory_ok ss [(new_meta 0 (l0_name 5) demo_entries size, demo_entries)] [5].
Proof.
  destruct demo_sizing as (Hm & Hk & Ho).
  destruct (write_table_ok demo_m demo_k map_to_list Hm Hk Ho (NewSSTable ∅ 0) [] 0 (l0_name 5) demo_entries)
    as (ss & size & E & Hs); [apply empty_store_ok|set_solver|exact demo_writable|exact demo_small|].
  exists ss, size. split; [done|]. apply write_table_disk in E as [f Hf]. constructor.
  - constructor; [|constructor]. split; [lia|]. left. done.
  - constructor; constructor.
  - intros p g. rewrite Hf. intros Hl _. destruct (decide (p = l0_name 5)) as [->|Hp].
    + eexists. split; [by apply list_elem_of_singleton|done].
    + rewrite lookup_insert_ne in Hl by done. done.
Qed.

Lemma reload_recovers_tables_witness :
  exists ss tabs tss, tss = [5] /\
    (LoadSSTableMetaList (NewSSTable ss.(disk) 4096)).(metas) = ss.(metas) /\
    store_ok (LoadSSTableMetaList (NewSSTable ss.(disk) 4096)) tabs.
Proof.
  destruct demo_store as (ss & size & Hs & Hd).
  exists ss, [(new_meta 0 (l0_name 5) demo_entries size, demo_entries)], [5]. split; [reflexivity|].
  exact (reload_recovers_tables ss _ _ 4096 Hs Hd).
Defined.

End Tables.
