(* ===== verification/Engine.v ===== *)
(** * The storage engine ([storage/engine.go], [storage/options.go])

    The engine holds the active memory table, the table being flushed, the
    SSTables and the credit pool.  It is written against the [OrderedTable]
    interface, which the skip list implements.  Operations are atomic steps;
    what the background goroutines do on a signal ([Flush], [CompactSSTable])
    are operations of their own, so any sequential interleaving of foreground
    and background work is a list of operations.  [nil] tables are [None]. *)
From S2P Require Import Prelude Bytes Entries Bloom BlockCache SSTFile MergeIter SSTables Credit.
Import Bloom Merge Tables Credit.

Module Eng.

(** ** Options *)
Record Options := MkOptions {
  MaxMemTableSize : Z; MaxCompactionSize : Z; MaxInflightBytes : Z; BlockCacheBytes : Z; SkipListMaxLevel : Z }.

Definition withDefaults (o : Options) : Options :=
  MkOptions (if o.(MaxMemTableSize) <=? 0 then 1024 else o.(MaxMemTableSize))
            (if o.(MaxCompactionSize) <=? 0 then 4 else o.(MaxCompactionSize))
            o.(MaxInflightBytes) o.(BlockCacheBytes)
            (if o.(SkipListMaxLevel) <=? 0 then 32 else o.(SkipListMaxLevel)).

Inductive storage_error := ErrKeyNotFound | ErrMemTableUnavailable | ErrFlush.

Section Engine.
Context {T : Type} `{OT : OrderedTable T}.
Context (opt_m : Z -> Z) (opt_k : Z -> Z -> Z) (iter_order : gmap bytes BloomFilter -> list (bytes * BloomFilter)).

Record Engine := MkEngine {
  active : option T;
  dirty : option T;
  flushCh : bool;      (* a pending flush signal *)
  compactCh : bool;    (* a pending compaction signal *)
  sst : SSTable;
  credits : Pool;
  opts : Options }.

Definition new_table (o : Options) : T := t_new (Z.to_nat o.(SkipListMaxLevel)).

Definition NewEngine (o : Options) (dir : gmap bytes bytes) : Engine :=
  let o := withDefaults o in
  MkEngine (Some (new_table o)) None false false
           (LoadSSTableMetaList (NewSSTable dir o.(BlockCacheBytes))) (New o.(MaxInflightBytes)) o.

Definition set_sst (s : SSTable) (e : Engine) : Engine :=
  MkEngine e.(active) e.(dirty) e.(flushCh) e.(compactCh) s e.(credits) e.(opts).
Definition set_credits (p : Pool) (e : Engine) : Engine :=
  MkEngine e.(active) e.(dirty) e.(flushCh) e.(compactCh) e.(sst) p e.(opts).
Definition set_active (t : T) (e : Engine) : Engine :=
  MkEngine (Some t) e.(dirty) e.(flushCh) e.(compactCh) e.(sst) e.(credits) e.(opts).
Definition StartFlush (e : Engine) : Engine :=
  MkEngine e.(active) e.(dirty) true e.(compactCh) e.(sst) e.(credits) e.(opts).
Definition signal_compact (e : Engine) : Engine :=
  MkEngine e.(active) e.(dirty) e.(flushCh) true e.(sst) e.(credits) e.(opts).

Definition Size (e : Engine) : Z := match e.(active) with None => 0 | Some a => t_size a end.
Definition InflightBytes (e : Engine) : Z := Used e.(credits).

(** ** Reading *)

(** The loop of [getFromSSTables], newest table first. *)
Fixpoint get_loop (ss : SSTable) (key : bytes) (ms : list SSTableMeta) : go (SSTable * option (option bytes)) :=
  match ms with
  | [] => Ret (ss, None)
  | m :: ms =>
      if bltb key m.(MinKey) then get_loop ss key ms
      else if m.(MaxKeyKnown) && bltb m.(MaxKey) key then get_loop ss key ms
      else
        '(ss, r) ← ReadFromSSTable ss m.(Filepath) key;
        match r with
        | Some v => Ret (ss, Some v)
        | None => get_loop ss key ms
        end
  end.
Definition getFromSSTables (ss : SSTable) (key : bytes) : go (SSTable * option (option bytes)) :=
  get_loop ss key (rev ss.(metas)).

Definition found (v : option bytes) : result storage_error bytes :=
  match v with None => Err ErrKeyNotFound | Some b => Ok b end.

Definition Get (e : Engine) (key : bytes) : go (Engine * result storage_error bytes) :=
  match e.(active) with
  | None => Ret (e, Err ErrMemTableUnavailable)
  | Some a =>
      r ← t_search a key;
      match r with
      | Some v => Ret (e, found v)
      | None =>
          r ← match e.(dirty) with None => Ret None | Some d => t_search d key end;
          match r with
          | Some v => Ret (e, found v)
          | None =>
              '(ss, r) ← getFromSSTables e.(sst) key;
              Ret (set_sst ss e, match r with Some v => found v | None => Err ErrKeyNotFound end)
          end
      end
  end.

(** Whether [ScanRange] opens a table, and the iterator over it. *)
Definition scan_skips (m : SSTableMeta) (lo hi : bytes) : bool :=
  (m.(MaxKeyKnown) && (0 <? len lo) && bltb m.(MaxKey) lo) ||
  ((0 <? len hi) && (0 <? len m.(MinKey)) && bltb hi m.(MinKey)).

Fixpoint scan_sources (ss : SSTable) (lo hi : bytes) (ms : list SSTableMeta) : SSTable * list entryIterator :=
  match ms with
  | [] => (ss, [])
  | m :: ms =>
      if scan_skips m lo hi then scan_sources ss lo hi ms
      else
        match ss.(disk) !! m.(Filepath) with
        | None => scan_sources ss lo hi ms
        | Some f =>
            let '(ss, bi) := match lo with [] => (ss, None) | _ => getBlockIndex ss m.(Filepath) end in
            let it := newRangeIterator (newFileIterator (Sst.iter_file_from f bi lo)) lo hi in
            let '(ss, its) := scan_sources ss lo hi ms in
            (ss, it :: its)
        end
  end.

Definition collect_table (t : option T) (lo hi : bytes) : go (list LogEntry) :=
  match t with None => Ret [] | Some t => t_range t lo hi end.

(** The callback is called on the live entries in order until it returns
    false: the result is that sequence of calls. *)
Definition live (es : list LogEntry) : list (bytes * bytes) :=
  omap (fun e => pair e.(Key) <$> e.(Value)) es.

Definition ScanRange (e : Engine) (lo hi : bytes) : go (Engine * list (bytes * bytes)) :=
  activeEntries ← collect_table e.(active) lo hi;
  dirtyEntries ← collect_table e.(dirty) lo hi;
  let '(ss, files) := scan_sources e.(sst) lo hi e.(sst).(metas) in
  let mem es := match es with [] => [] | _ => [newSliceIterator es] end in
  let sources := files ++ mem dirtyEntries ++ mem activeEntries in
  Ret (set_sst ss e, live (merge_all sources).1).

(** [SnapshotLive]: the two-pointer merge, the active table winning. *)
Fixpoint merge2 (fuel : nat) (a d : list LogEntry) : list LogEntry :=
  match fuel with
  | O => []
  | S fuel =>
      match a, d with
      | [], [] => []
      | x :: a', [] => copy_entry x :: merge2 fuel a' []
      | [], y :: d' => copy_entry y :: merge2 fuel [] d'
      | x :: a', y :: d' =>
          match compare x.(Key) y.(Key) with
          | Lt => copy_entry x :: merge2 fuel a' d
          | Gt => copy_entry y :: merge2 fuel a d'
          | Eq => copy_entry x :: merge2 fuel a' d'
          end
      end
  end.

Definition SnapshotLive (e : Engine) : go (list LogEntry) :=
  a ← match e.(active) with None => Ret [] | Some t => t_all t end;
  d ← match e.(dirty) with None => Ret [] | Some t => t_all t end;
  Ret (merge2 (length a + length d) a d).

(** ** Writing *)

(** [acquireCredit]: [false] is a writer that blocks, having signalled a flush. *)
Definition acquireCredit (e : Engine) (n : Z) : Engine * bool :=
  let '(p, ok) := TryAcquire e.(credits) n in
  if ok then (set_credits p e, true)
  else
    let e := StartFlush e in
    match Acquire e.(credits) n with
    | Some p => (set_credits p e, true)
    | None => (e, false)
    end.

(** A write that completes, or one that blocks for credit. *)
Inductive write_outcome := Wrote (e : Engine) (r : result storage_error unit) | Blocked (e : Engine).

(** [Put] and [Delete] share their body; a tombstone has no value. *)
Definition write (e : Engine) (draws : list bool) (key : bytes) (value : option bytes) : go write_outcome :=
  let full := len key + vlen value in
  let '(e, ok) := acquireCredit e full in
  if ok then
    match e.(active) with
    | None => Ret (Wrote (set_credits (Release e.(credits) full) e) (Err ErrMemTableUnavailable))
    | Some a =>
        '(a, delta) ← t_insert draws key value a;
        let e := set_active a e in
        let e := if e.(opts).(MaxMemTableSize) <? t_size a then StartFlush e else e in
        let over := full - delta in
        Ret (Wrote (if over =? 0 then e else set_credits (Release e.(credits) over) e) (Ok tt))
    end
  else Ret (Blocked e).
Definition Put (e : Engine) (draws : list bool) (key : bytes) (value : option bytes) : go write_outcome :=
  write e draws key value.
Definition Delete (e : Engine) (draws : list bool) (key : bytes) : go write_outcome :=
  write e draws key None.

(** ** Flushing *)
Definition Flush (e : Engine) (now : Z) (wr : write_result) : go Engine :=
  (* a dirty table left by a failed flush is retried without swapping *)
  let start := match e.(dirty), e.(active) with
               | Some d, _ => Some (e, d)
               | None, Some a =>
                   if t_size a =? 0 then None
                   else Some (MkEngine (Some (new_table e.(opts))) (Some a) e.(flushCh) e.(compactCh)
                                       e.(sst) e.(credits) e.(opts), a)
               | None, None => None
               end in
  match start with
  | None => Ret e
  | Some (e, d) =>
      allEntries ← t_all d;
      '(ss, ok) ← WriteToSSTable opt_m opt_k iter_order e.(sst) now allEntries wr;
      let e := set_sst ss e in
      Ret (if ok : bool
           then MkEngine e.(active) None e.(flushCh) e.(compactCh) e.(sst)
                         (Release e.(credits) (t_bytes d)) e.(opts)
           else StartFlush e)
  end.

(** One turn of [FlushWorker] / [ListenCompactCh] consumes its signal first. *)
Definition take_flush_signal (e : Engine) : Engine :=
  MkEngine e.(active) e.(dirty) false e.(compactCh) e.(sst) e.(credits) e.(opts).

Fixpoint insert_entries (draws : list bool) (es : list LogEntry) (t : T) : go T :=
  match es with
  | [] => Ret t
  | x :: es => '(t, _) ← t_insert draws x.(Key) x.(Value) t; insert_entries draws es t
  end.

Definition FlushToSSTable (e : Engine) (draws : list bool) (es : list LogEntry) (now : Z) (wr : write_result)
    : go (Engine * result storage_error unit) :=
  match es with
  | [] => Ret (e, Ok tt)
  | _ =>
      tmp ← insert_entries draws es (new_table e.(opts));
      sorted ← t_all tmp;
      match sorted with
      | [] => Ret (e, Ok tt)
      | _ =>
          '(ss, ok) ← WriteToSSTable opt_m opt_k iter_order e.(sst) now sorted wr;
          let e := set_sst ss e in
          Ret (if ok : bool then (signal_compact e, Ok tt) else (e, Err ErrFlush))
      end
  end.

(** ** Compaction and reclamation *)
Definition delete_tables (removed : SSTableMeta -> bool) (ss : SSTable) (ms : list SSTableMeta) : SSTable :=
  fold_left (fun ss m => RemoveMeta (DeleteSSTable (removed m) ss m) m) ms ss.

(** One level of the loop; [now] is the clock at its merge, [wr] how it ends. *)
Definition compact_level (removed : SSTableMeta -> bool) (max : Z) (level : Z) (now : Z) (wr : write_result)
    (ss : SSTable) : go SSTable :=
  let files := LevelFiles ss level in
  if len files <? max then Ret ss
  else
    '(ss, newMeta) ← MergeSSTable opt_m opt_k iter_order ss now files (level + 1) wr;
    Ret match newMeta with
        | None => ss
        | Some _ => delete_tables removed ss files
        end.

Fixpoint compact_loop (removed : SSTableMeta -> bool) (max : Z) (levels : nat) (level : Z) (now : Z -> Z)
    (wr : Z -> write_result) (ss : SSTable) : go SSTable :=
  match levels with
  | O => Ret ss
  | S levels =>
      ss ← compact_level removed max level (now level) (wr level) ss;
      compact_loop removed max levels (level + 1) now wr ss
  end.

Definition compactMaxLevel : Z := 10.
(** One step: in the code a flush may add a table while a merge runs
    (engine.go:491); the merge works on the tables it listed at its start. *)
Definition CompactSSTable (e : Engine) (startLevel : Z) (removed : SSTableMeta -> bool)
    (now : Z -> Z) (wr : Z -> write_result) : go Engine :=
  ss ← compact_loop removed e.(opts).(MaxCompactionSize) (Z.to_nat (compactMaxLevel - startLevel)) startLevel now wr e.(sst);
  Ret (set_sst ss e).

Definition reclaimable (bound : bytes) (m : SSTableMeta) : bool :=
  m.(MaxKeyKnown) && bltb m.(MaxKey) bound.

Definition ReclaimUpTo (e : Engine) (removed : SSTableMeta -> bool) (bound : bytes) : Engine * Z :=
  match bound with
  | [] => (e, 0)
  | _ =>
      let ms := List.filter (reclaimable bound) e.(sst).(metas) in
      (set_sst (delete_tables removed e.(sst) ms) e, len ms)
  end.

End Engine.
End Eng.
