(* ===== verification/EngineOps.v ===== *)
(** * The storage engine implements a key/value map

    Invariant of the engine: the two memory tables represent ascending entry
    lists [am] and [dm], the SSTables are [tabs], and the credit in use is the
    bytes of the two memory tables.  What a reader sees is [view]: the newest
    of SSTables (oldest first), dirty table, active table.  Each operation is
    shown to keep the invariant and to change [view] as its contract says. *)
From S2P Require Import Prelude Bytes Entries Bloom BlockCache SSTFile MergeIter SSTables Credit Engine.
Import Bloom Merge Tables Credit Eng.

Module EngOps.

Definition view (am dm : list LogEntry) (tabs : list table) (k : bytes) : option (option bytes) :=
  newest k (map snd tabs ++ [dm; am]).

Lemma newest_one k es : newest k [es] = find_key k es.
Proof. unfold newest. simpl. by destruct (find_key k es). Qed.

Lemma newest_snoc k srcs es :
  newest k (srcs ++ [es]) = match find_key k es with Some v => Some v | None => newest k srcs end.
Proof. rewrite newest_app, newest_one. by destruct (find_key k es). Qed.

Lemma newest_nil k : newest k [] = None.
Proof. done. Qed.

Lemma newest_cons k es srcs :
  newest k (es :: srcs) = match newest k srcs with Some v => Some v | None => find_key k es end.
Proof. change (es :: srcs) with ([es] ++ srcs). by rewrite newest_app, newest_one. Qed.

Lemma view_eq am dm tabs k :
  view am dm tabs k = match find_key k am with
                      | Some v => Some v
                      | None => match find_key k dm with Some v => Some v | None => newest k (map snd tabs) end
                      end.
Proof.
  unfold view. change [dm; am] with ([dm] ++ [am]). rewrite app_assoc, newest_snoc, newest_snoc. done.
Qed.

(** Key bounds of a table. *)
Lemma below_min k es : ascending es -> blt k (default [] (Key <$> head es)) -> find_key k es = None.
Proof.
  intros Ha H. destruct es as [|e es]; [done|]. simpl in H. apply find_key_None. intros x Hx <-.
  apply ascending_cons_inv in Ha as [_ Hl]. apply elem_of_cons in Hx as [->|Hx]; [border|].
  specialize (Hl x Hx). border.
Qed.

Lemma above_max k es : ascending es -> blt (default [] (Key <$> last es)) k -> find_key k es = None.
Proof.
  intros Ha H. apply find_key_None. intros x Hx <-.
  destruct (last es) as [e|] eqn:E; [|by apply last_None in E; subst; set_solver]. simpl in H.
  apply Sst.last_split in E as [l ->]. apply ascending_app_inv in Ha as (_ & _ & Hl).
  apply elem_of_app in Hx as [Hx|Hx%list_elem_of_singleton]; [|subst; border].
  specialize (Hl x e Hx ltac:(set_solver)). border.
Qed.

Section Ops.
Context {T : Type} `{OT : OrderedTable T}.
Notation Engine := (Engine (T := T)).
Implicit Type e : Engine.

Record engine_ok (e : Engine) (am dm : list LogEntry) (tabs : list table) : Prop := {
  eo_active : exists a, e.(active) = Some a /\ t_rep a am;
  eo_dirty : match e.(dirty) with None => dm = [] | Some d => t_rep d dm /\ dm <> [] end;
  eo_store : store_ok e.(sst) tabs;
  eo_level : 1 <= e.(opts).(SkipListMaxLevel);
  eo_credit : e.(credits).(used) = total_bytes am + total_bytes dm;
  eo_range : total_bytes am + total_bytes dm < 2 ^ 63 }.

Lemma eo_am_asc e am dm tabs : engine_ok e am dm tabs -> ascending am.
Proof. intros H. destruct (eo_active _ _ _ _ H) as (a & _ & Hr). by eapply t_rep_ascending. Qed.
Lemma eo_dm_asc e am dm tabs : engine_ok e am dm tabs -> ascending dm.
Proof.
  intros H. pose proof (eo_dirty _ _ _ _ H) as Hd. destruct (dirty e); [|subst; constructor].
  destruct Hd as [Hd _]. by eapply t_rep_ascending.
Qed.

Lemma set_sst_ok e am dm tabs ss tabs' : engine_ok e am dm tabs -> store_ok ss tabs' ->
  engine_ok (set_sst ss e) am dm tabs'.
Proof. intros [H1 H2 H3 H4 H5 H6] Hs. by constructor. Qed.

(** ** Get *)
Lemma get_loop_ok ss tabs sub k : store_ok ss tabs -> sub ⊆ tabs ->
  exists ss', get_loop ss k (rev (map fst sub)) = Ret (ss', newest k (map snd sub)) /\ store_ok ss' tabs /\
    ss'.(disk) = ss.(disk).
Proof.
  revert ss. induction sub as [|t sub IH] using rev_ind; intros ss H Hsub; [by exists ss|].
  rewrite !map_app, rev_app_distr. cbn [map rev app get_loop]. rewrite newest_snoc.
  pose proof (st_tables _ _ H) as Ht. rewrite Forall_forall in Ht.
  destruct (Ht t ltac:(set_solver)) as [Hw _ Hmin Hmax Hkn].
  assert (Hskip : find_key k t.2 = None -> exists ss', get_loop ss k (rev (map fst sub)) =
    Ret (ss', match find_key k t.2 with Some v => Some v | None => newest k (map snd sub) end) /\
    store_ok ss' tabs /\ disk ss' = disk ss).
  { intros ->. apply IH; [done|set_solver]. }
  destruct (bltb k (MinKey t.1)) eqn:E1.
  { apply Hskip. apply below_min; [apply Hw|]. rewrite <- Hmin. by apply bltb_lt. }
  rewrite Hkn. cbn [andb]. destruct (bltb (MaxKey t.1) k) eqn:E2.
  { apply Hskip. apply above_max; [apply Hw|]. rewrite <- Hmax. by apply bltb_lt. }
  destruct (ReadFromSSTable_ok ss tabs t k H ltac:(set_solver)) as (s1 & -> & Hs1 & Hd1).
  cbn [mbind go_bind]. destruct (find_key k t.2) as [v|] eqn:E; [by exists s1|].
  destruct (IH s1 Hs1) as (s2 & -> & Hs2 & Hd2); [set_solver|]. exists s2. split_and!; [done|done|congruence].
Qed.

Definition get_result (v : option (option bytes)) : result storage_error bytes :=
  match v with Some v => found v | None => Err ErrKeyNotFound end.

Lemma Get_ok e am dm tabs k : engine_ok e am dm tabs ->
  exists ss, Get e k = Ret (set_sst ss e, get_result (view am dm tabs k)) /\ store_ok ss tabs /\
    ss.(disk) = e.(sst).(disk).
Proof.
  intros H. pose proof H as [(a & Ha & Hra) Hd Hs _ _ _]. unfold Get.
  assert (set_sst (sst e) e = e) as Eid by by destruct e.
  rewrite view_eq, Ha, (t_search_rep a am k Hra). cbn [mbind go_bind].
  destruct (find_key k am) as [v|]; [exists (sst e); by rewrite Eid|].
  assert (match dirty e with None => Ret None | Some d => t_search d k end = Ret (find_key k dm)) as ->.
  { destruct (dirty e) as [d|]; [|by subst dm]. destruct Hd as [Hd _]. by apply t_search_rep. }
  cbn [mbind go_bind]. destruct (find_key k dm) as [v|]; [exists (sst e); by rewrite Eid|].
  unfold getFromSSTables. rewrite (st_metas _ _ Hs).
  destruct (get_loop_ok (sst e) tabs tabs k Hs) as (ss & -> & Hss & Hdk); [done|]. by exists ss.
Qed.

(** ** Put and Delete *)
Lemma view_put am dm tabs k v k' : ascending am ->
  view (put_key k v am) dm tabs k' = if beqb k k' then Some v else view am dm tabs k'.
Proof. intros Ha. rewrite !view_eq, find_put_key by done. by destruct (beqb k k'). Qed.

Lemma StartFlush_ok e am dm tabs : engine_ok e am dm tabs -> engine_ok (StartFlush e) am dm tabs.
Proof. intros [H1 H2 H3 H4 H5 H6]. by constructor. Qed.

Lemma fits_credit p n : 0 <= p.(used) -> 0 <= n -> p.(used) + n < 2 ^ 63 ->
  fits p n = (p.(budget) <=? 0) || (p.(used) =? 0) || (p.(used) + n <=? p.(budget)).
Proof. intros H1 H2 H3. unfold fits. rewrite s64_small; [done|]. unfold is_s64. lia. Qed.

Lemma acquireCredit_eq e n : 0 <= n -> 0 <= e.(credits).(used) -> e.(credits).(used) + n < 2 ^ 63 ->
  acquireCredit e n =
    if fits e.(credits) n
    then (set_credits (MkPool e.(credits).(budget) (e.(credits).(used) + n)) e, true)
    else (StartFlush e, false).
Proof.
  intros H1 H2 H3. unfold acquireCredit, TryAcquire. destruct (fits (credits e) n) eqn:F.
  - unfold take_credit. rewrite s64_small; [done|]. unfold is_s64. lia.
  - cbn [StartFlush credits]. unfold Acquire. by rewrite F.
Qed.

(** Replacing an entry takes back at least what the old one held. *)
Lemma put_delta k v es : ascending es ->
  0 <= len k + vlen v - (total_bytes (put_key k v es) - total_bytes es).
Proof.
  intros Ha. rewrite total_bytes_put by done. unfold vlen.
  destruct (find_key k es) as [[o|]|], v as [b|]; len_lia.
Qed.

Lemma write_ok e am dm tabs draws k v : engine_ok e am dm tabs ->
  total_bytes am + total_bytes dm + len k + vlen v < 2 ^ 63 ->
  write e draws k v = Ret (Blocked (StartFlush e)) /\ fits e.(credits) (len k + vlen v) = false \/
  exists e', write e draws k v = Ret (Wrote e' (Ok tt)) /\ engine_ok e' (put_key k v am) dm tabs /\
    e'.(sst) = e.(sst) /\ e'.(opts) = e.(opts) /\ e'.(credits).(budget) = e.(credits).(budget) /\
    e'.(flushCh) = (e.(flushCh) || (e.(opts).(MaxMemTableSize) <? len (put_key k v am))).
Proof.
  intros H Hlt. pose proof H as [(a & Ha & Hra) Hd Hs Hl Hu Hr]. unfold write.
  pose proof (total_bytes_nonneg am) as Nam. pose proof (total_bytes_nonneg dm) as Ndm.
  assert (0 <= len k + vlen v) as Hn by (unfold vlen; destruct v; len_lia).
  pose proof (t_rep_ascending _ _ Hra) as Hasc. pose proof (put_delta k v am Hasc) as Hover.
  rewrite acquireCredit_eq by lia. destruct (fits (credits e) (len k + vlen v)) eqn:F; [right|by left].
  cbn [set_credits active]. rewrite Ha.
  destruct (t_insert_rep draws k v a am Hra) as (a' & -> & Hra'). cbn [mbind go_bind].
  rewrite (t_size_rep _ _ Hra'). cbn [set_active opts].
  pose proof (total_bytes_nonneg (put_key k v am)) as Npk.
  set (over := len k + vlen v - (total_bytes (put_key k v am) - total_bytes am)) in *.
  assert (Hrel : (Release (MkPool (budget (credits e)) (used (credits e) + (len k + vlen v))) over).(used) =
                 total_bytes (put_key k v am) + total_bytes dm).
  { unfold Release. cbn [used]. rewrite s64_small by (unfold is_s64; lia).
    destruct (Z.ltb_spec (used (credits e) + (len k + vlen v) - over) 0); lia. }
  assert (forall p, p.(used) = total_bytes (put_key k v am) + total_bytes dm ->
    engine_ok (MkEngine (Some a') (dirty e) (flushCh e || (MaxMemTableSize (opts e) <? len (put_key k v am)))
                        (compactCh e) (sst e) p (opts e)) (put_key k v am) dm tabs) as Hok.
  { intros p Hp. constructor; cbn [active dirty sst opts credits]; try done; [by exists a'|lia]. }
  eexists. split; [done|]. cbn [set_credits set_active opts].
  destruct (MaxMemTableSize (opts e) <? len (put_key k v am)) eqn:Em;
    (destruct (Z.eqb_spec over 0) as [Eo|Eo];
     cbn [StartFlush set_credits credits active dirty sst opts used budget flushCh compactCh set_active];
     rewrite ?orb_true_r, ?orb_false_r in *; (split; [apply Hok; first [exact Hrel|cbn [used set_active set_credits credits]; unfold over in *; lia]|]; by split_and!)).
Qed.

(** ** ScanRange *)
Notation ranged lo hi es := (List.filter (fun e : LogEntry => in_range lo hi e.(Key)) es).

Lemma scan_skips_empty ss tabs t lo hi k : store_ok ss tabs -> t ∈ tabs -> scan_skips t.1 lo hi = true ->
  in_range lo hi k = true -> find_key k t.2 = None.
Proof.
  intros H Ht Hs Hr. pose proof (st_tables _ _ H) as Hts. rewrite Forall_forall in Hts.
  destruct (Hts t Ht) as [Hw _ Hmin Hmax Hkn]. unfold scan_skips in Hs. rewrite Hkn, Hmin, Hmax in Hs.
  unfold in_range in Hr. apply andb_true_iff in Hr as [Hlo Hhi].
  apply orb_true_iff in Hs as [Hs|Hs]; apply andb_true_iff in Hs as [Hs Hc]; apply andb_true_iff in Hs as [Hne Hl]; bcmp.
  - apply above_max; [apply Hw|]. destruct lo as [|c lo]; [done|]. apply negb_true_iff in Hlo. bcmp.
    by eapply blt_ble_trans.
  - apply below_min; [apply Hw|]. destruct hi as [|c hi]; [done|]. apply negb_true_iff in Hhi. bcmp.
    by eapply ble_blt_trans.
Qed.

Lemma table_iter_ok es blob lo hi bi : Sst.writable es ->
  bi = match lo with [] => None | _ => Sst.loadBlockIndexFromFile (Sst.layout es blob) end ->
  iter_ok (newRangeIterator (newFileIterator (Sst.iter_file_from (Sst.layout es blob) bi lo)) lo hi) (ranged lo hi es).
Proof.
  intros Hw ->. destruct (Sst.iter_file_from_ok es blob lo Hw) as (skipped & rest & Hes & Hlt & E).
  assert (Sst.iter_file_from (Sst.layout es blob)
    match lo with [] => None | _ => Sst.loadBlockIndexFromFile (Sst.layout es blob) end lo = (rest, false)) as ->
    by by destruct lo.
  assert (ranged lo hi es = ranged lo hi rest) as ->.
  { rewrite Hes, List.filter_app, (filter_none _ skipped); [done|]. intros x Hx. specialize (Hlt x Hx).
    unfold in_range. destruct lo as [|c lo]; [by apply blt_nil in Hlt|].
    by rewrite (proj2 (bltb_lt _ _) Hlt). }
  apply range_iter_ok, file_iter_ok. pose proof (Sst.w_asc _ Hw) as Ha. rewrite Hes in Ha.
  by apply ascending_app_inv in Ha as (_ & ? & _).
Qed.

Lemma scan_sources_ok ss tabs sub lo hi : store_ok ss tabs -> sub ⊆ tabs ->
  exists ss' its srcs, scan_sources ss lo hi (map fst sub) = (ss', its) /\ store_ok ss' tabs /\
    ss'.(disk) = ss.(disk) /\ Forall2 iter_ok its srcs /\
    forall k, newest k srcs = if in_range lo hi k then newest k (map snd sub) else None.
Proof.
  revert ss. induction sub as [|t sub IH]; intros ss H Hsub.
  { exists ss, [], []. split_and!; [done|done|done|constructor|]. intros k. by destruct (in_range lo hi k). }
  cbn [map scan_sources]. destruct (scan_skips t.1 lo hi) eqn:Es.
  { destruct (IH ss H) as (s' & its & srcs & E & Hs' & Hdk & Hit & Hn); [set_solver|].
    exists s', its, srcs. split_and!; [done|done|done|done|]. intros k. rewrite Hn, newest_cons.
    destruct (in_range lo hi k) eqn:Er; [|done].
    rewrite (scan_skips_empty ss tabs t lo hi k) by (done || set_solver). by destruct (newest k (map snd sub)). }
  pose proof (st_tables _ _ H) as Hts. rewrite Forall_forall in Hts.
  destruct (Hts t ltac:(set_solver)) as [Hw (blob & bloom & Hd & _) _ _ _]. rewrite Hd.
  assert (exists s1, match lo with [] => (ss, None) | _ => getBlockIndex ss t.1.(Filepath) end =
      (s1, match lo with [] => None | _ => Sst.loadBlockIndexFromFile (Sst.layout t.2 blob) end) /\ store_ok s1 tabs /\
      s1.(disk) = ss.(disk)) as (s1 & -> & Hs1 & Hd1).
  { destruct lo as [|c lo]; [by exists ss|].
    destruct (getBlockIndex_ok ss tabs t H ltac:(set_solver)) as (s1 & -> & Hs1 & Hd1).
    exists s1. by rewrite Sst.loadBlockIndex_layout. }
  destruct (IH s1 Hs1) as (s2 & its & srcs & -> & Hs2 & Hd2 & Hit & Hn); [set_solver|].
  do 3 eexists. split_and!; [done|done|congruence|constructor; [by eapply table_iter_ok|done]|].
  intros k. rewrite newest_cons, Hn. cbn [map]. rewrite newest_cons, (find_key_filter (in_range lo hi)).
  by destruct (in_range lo hi k).
Qed.

(** Copying the memory tables. *)
Lemma map_copy_ascending es : ascending es -> ascending (map copy_entry es).
Proof.
  induction 1 as [|e es Hs IH Hf]; simpl; [constructor|]. constructor; [done|].
  rewrite Forall_forall in *. intros x (y & -> & Hy)%list_elem_of_fmap. apply (Hf y Hy).
Qed.

Lemma find_key_copy k es : find_key k (map copy_entry es) = copy_value <$> find_key k es.
Proof. induction es as [|e es IH]; simpl; [done|]. destruct (beqb (Key e) k); done. Qed.

Lemma find_ranged_copy k lo hi es :
  find_key k (map copy_entry (ranged lo hi es)) =
  if in_range lo hi k then find_key k (map copy_entry es) else None.
Proof.
  rewrite !find_key_copy, (find_key_filter (in_range lo hi)). by destruct (in_range lo hi k).
Qed.

Lemma collect_ok (o : option T) es lo hi :
  match o with None => es = [] | Some d => t_rep d es end ->
  collect_table o lo hi = Ret (map copy_entry (ranged lo hi es)).
Proof. destruct o as [t|]; simpl; [by apply t_range_rep|by intros ->]. Qed.

Lemma dirty_rep e am dm tabs : engine_ok e am dm tabs ->
  match e.(dirty) with None => dm = [] | Some d => t_rep d dm end.
Proof. intros [_ H _ _ _ _]. destruct (dirty e); [apply H|done]. Qed.

Lemma mem_source_ok es lo hi : ascending es -> (forall x, x ∈ es -> x.(Key) <> []) ->
  let l := map copy_entry (ranged lo hi es) in
  exists srcs, Forall2 iter_ok match l with [] => [] | _ => [newSliceIterator l] end srcs /\
    forall k, newest k srcs = if in_range lo hi k then find_key k (map copy_entry es) else None.
Proof.
  intros Ha Hne. cbv zeta.
  assert (forall k, newest k [map copy_entry (ranged lo hi es)] =
    if in_range lo hi k then find_key k (map copy_entry es) else None) as Hk'
    by (intros k; rewrite newest_one; apply find_ranged_copy).
  destruct (map copy_entry (ranged lo hi es)) as [|x l] eqn:E.
  - exists []. split; [constructor|]. intros k. by rewrite <- Hk'.
  - rewrite <- E in *. exists [map copy_entry (ranged lo hi es)]. split; [|done]. constructor; [|constructor].
    apply slice_iter_ok; [by apply map_copy_ascending, filter_ascending|].
    intros y (z & -> & Hz)%list_elem_of_fmap. apply list_elem_of_In, List.filter_In in Hz as [Hz _].
    apply (Hne z). by apply list_elem_of_In.
Qed.

Definition copied_view (am dm : list LogEntry) (tabs : list table) (k : bytes) : option (option bytes) :=
  view (map copy_entry am) (map copy_entry dm) tabs k.

Lemma ScanRange_ok e am dm tabs lo hi : engine_ok e am dm tabs ->
  (forall x, x ∈ am ++ dm -> x.(Key) <> []) ->
  exists ss es, ScanRange e lo hi = Ret (set_sst ss e, live es) /\ store_ok ss tabs /\
    ss.(disk) = e.(sst).(disk) /\ ascending es /\
    forall k, find_key k es = if in_range lo hi k then copied_view am dm tabs k else None.
Proof.
  intros H Hne. pose proof H as [(a & Ha & Hra) _ Hs _ _ _]. unfold ScanRange.
  rewrite (collect_ok (active e) am) by by rewrite Ha. cbn [mbind go_bind].
  rewrite (collect_ok (dirty e) dm) by by eapply dirty_rep. cbn [mbind go_bind].
  rewrite (st_metas _ _ Hs).
  destruct (scan_sources_ok (sst e) tabs tabs lo hi Hs ltac:(done)) as (ss & its & srcs & -> & Hss & Hdk & Hit & Hn).
  destruct (mem_source_ok dm lo hi (eo_dm_asc _ _ _ _ H) ltac:(set_solver)) as (ds & Hds & Hnd).
  destruct (mem_source_ok am lo hi (eo_am_asc _ _ _ _ H) ltac:(set_solver)) as (as_ & Has & Hna).
  destruct (merge_all_ok _ (srcs ++ ds ++ as_) (Forall2_app Hit (Forall2_app Hds Has)))
    as (es & E & Hasc & Hes).
  exists ss, es. rewrite E. split_and!; [done|done|done|done|]. intros k.
  rewrite Hes, !newest_app, Hn, Hnd, Hna. unfold copied_view. rewrite view_eq.
  destruct (in_range lo hi k); [|done]. by destruct (find_key k (map copy_entry am)).
Qed.

(** ** SnapshotLive *)
Lemma copy_keys es x : x ∈ map copy_entry es -> exists y, y ∈ es /\ x.(Key) = y.(Key).
Proof. intros (y & -> & Hy)%list_elem_of_fmap. by exists y. Qed.

Lemma merge2_keys fuel a d x : x ∈ merge2 fuel a d -> exists y, y ∈ a ++ d /\ x.(Key) = y.(Key).
Proof.
  revert a d. induction fuel as [|fuel IH]; intros a d; [set_solver|].
  assert (Hgo : forall z a' d', x ∈ copy_entry z :: merge2 fuel a' d' -> z ∈ a ++ d -> a' ++ d' ⊆ a ++ d ->
    exists y, y ∈ a ++ d /\ x.(Key) = y.(Key)).
  { intros z a' d' [->|Hx]%elem_of_cons Hz Hsub; [by exists z|].
    destruct (IH a' d' Hx) as (y & Hy & E). exists y. split; [by apply Hsub|done]. }
  destruct a as [|p a], d as [|q d]; simpl; [set_solver|..].
  - intros Hx. eapply Hgo; [exact Hx|set_solver|set_solver].
  - intros Hx. eapply Hgo; [exact Hx|set_solver|set_solver].
  - destruct (compare (Key p) (Key q)); intros Hx; (eapply Hgo; [exact Hx|set_solver|set_solver]).
Qed.

Ltac find_step :=
  cbn [find_key copy_entry Key Value]; rewrite !newest_cons in *; cbn [find_key newest fold_left] in *.

Lemma merge2_ok fuel a d : (length a + length d <= fuel)%nat -> ascending a -> ascending d ->
  ascending (merge2 fuel a d) /\
  forall k, find_key k (merge2 fuel a d) = copy_value <$> newest k [d; a].
Proof.
  assert (Hcons : forall fuel z a d, ascending (merge2 fuel a d) -> (forall y, y ∈ a ++ d -> blt (Key z) (Key y)) ->
    ascending (copy_entry z :: merge2 fuel a d)).
  { intros f z a' d' Ha Hlt. constructor; [done|]. apply Forall_forall. intros x Hx.
    destruct (merge2_keys _ _ _ _ Hx) as (y & Hy & E). unfold key_lt. rewrite E. by apply Hlt. }
  assert (Hnone : forall k l, (forall y, y ∈ l -> blt k (Key y)) -> find_key k l = None).
  { intros k l Hl. apply find_key_None. intros y Hy <-. specialize (Hl y Hy). border. }
  revert a d. induction fuel as [|fuel IH]; intros a d Hlen Ha Hd.
  { destruct a, d; simpl in *; try lia. split; [constructor|done]. }
  destruct a as [|p a], d as [|q d]; cbn [merge2]; simpl in Hlen.
  - split; [constructor|done].
  - apply ascending_cons_inv in Hd as [Hd Hlt].
    destruct (IH [] d ltac:(simpl; lia) Ha Hd) as [Hs Hf]. split; [by apply Hcons|].
    intros k. specialize (Hf k). find_step.
    destruct (beqb (Key q) k); done.
  - apply ascending_cons_inv in Ha as [Ha Hlt].
    destruct (IH a [] ltac:(simpl; lia) Ha Hd) as [Hs Hf].
    split; [apply Hcons; [done|]; by rewrite app_nil_r|].
    intros k. specialize (Hf k). find_step.
    destruct (beqb (Key p) k); [done|]. done.
  - pose proof Ha as [Ha' Hla]%ascending_cons_inv. pose proof Hd as [Hd' Hld]%ascending_cons_inv.
    destruct (compare_case (Key p) (Key q)) as [C|C|C].
    + destruct (IH a (q :: d) ltac:(simpl; lia) Ha' Hd) as [Hs Hf]. split.
      * apply Hcons; [done|]. intros y [Hy|[->|Hy]%elem_of_cons]%elem_of_app; [by apply Hla|done|].
        eapply blt_trans; [exact C|by apply Hld].
      * intros k. specialize (Hf k). find_step.
        destruct (beqb (Key p) k); done.
    + destruct (IH a d ltac:(simpl; lia) Ha' Hd') as [Hs Hf]. split.
      * apply Hcons; [done|]. intros y [Hy|Hy]%elem_of_app; [by apply Hla|rewrite C; by apply Hld].
      * intros k. specialize (Hf k). find_step.
        rewrite <- C. destruct (beqb (Key p) k) eqn:B; done.
    + destruct (IH (p :: a) d ltac:(simpl; lia) Ha Hd') as [Hs Hf]. split.
      * apply Hcons; [done|]. intros y [[->|Hy]%elem_of_cons|Hy]%elem_of_app; [done| |by apply Hld].
        eapply blt_trans; [exact C|by apply Hla].
      * intros k. specialize (Hf k). find_step.
        destruct (beqb (Key q) k) eqn:B; [|done]. bcmp. subst k.
        rewrite (proj2 (beqb_neq (Key p) (Key q))) by by apply not_eq_sym, blt_neq.
        rewrite (Hnone (Key q) a); [done|]. intros y Hy. eapply blt_trans; [exact C|by apply Hla].
Qed.

Lemma SnapshotLive_ok e am dm tabs : engine_ok e am dm tabs ->
  exists es, SnapshotLive e = Ret es /\ ascending es /\
    forall k, find_key k es = copy_value <$> newest k [dm; am].
Proof.
  intros H. pose proof H as [(a & Ha & Hra) _ _ _ _ _]. pose proof (dirty_rep _ _ _ _ H) as Hd.
  unfold SnapshotLive. rewrite Ha, (t_all_rep _ _ Hra). cbn [mbind go_bind].
  assert (match dirty e with None => Ret [] | Some t => t_all t end = Ret dm) as ->
    by (destruct (dirty e); [by apply t_all_rep|by subst]).
  cbn [mbind go_bind]. eexists. split; [done|].
  apply merge2_ok; [lia|by eapply eo_am_asc|by eapply eo_dm_asc].
Qed.

(** ** Removing tables *)
Lemma delete_tables_ok removed (P : SSTableMeta -> bool) ss l1 l2 : store_ok ss (l1 ++ l2) ->
  store_ok (delete_tables removed ss (List.filter P (map fst l2)))
           (l1 ++ List.filter (fun t : table => negb (P t.1)) l2).
Proof.
  revert ss l1. induction l2 as [|t l2 IH]; intros ss l1 H; simpl; [done|].
  destruct (P t.1); simpl.
  - apply IH. by apply delete_table_ok.
  - rewrite (cons_middle t l1), app_assoc. apply IH. by rewrite <- app_assoc.
Qed.

Definition retained (bound : bytes) (tabs : list table) : list table :=
  List.filter (fun t : table => negb (reclaimable bound t.1)) tabs.

Lemma ReclaimUpTo_ok e am dm tabs removed bound : engine_ok e am dm tabs -> bound <> [] ->
  exists e', ReclaimUpTo e removed bound = (e', len tabs - len (retained bound tabs)) /\
    engine_ok e' am dm (retained bound tabs) /\ e'.(opts) = e.(opts) /\ e'.(credits) = e.(credits).
Proof.
  intros H Hb. unfold ReclaimUpTo. destruct bound as [|c b]; [done|]. rewrite (st_metas _ _ (eo_store _ _ _ _ H)).
  eexists. split; [f_equal|].
  - unfold retained. clear. induction tabs as [|t tabs IH]; simpl; [done|].
    destruct (reclaimable (c :: b) t.1); simpl; rewrite !len_cons, IH; simpl; rewrite ?len_cons; lia.
  - split_and!; [|done|done]. eapply set_sst_ok; [done|].
    apply (delete_tables_ok removed (reclaimable (c :: b)) (sst e) [] tabs). apply H.
Qed.

Lemma newest_retained ss tabs bound k : store_ok ss tabs -> ble bound k ->
  newest k (map snd (retained bound tabs)) = newest k (map snd tabs).
Proof.
  intros H Hle. pose proof (st_tables _ _ H) as Ht. unfold retained. clear H.
  induction Ht as [|t tabs [Hw _ _ Hmax Hkn] Ht IH]; simpl; [done|]. rewrite newest_cons.
  unfold reclaimable at 1. rewrite Hkn, Hmax. cbn [andb].
  destruct (bltb (default [] (Key <$> last t.2)) bound) eqn:E; cbn [negb].
  - rewrite IH. bcmp. rewrite (above_max k t.2); [by destruct (newest k (map snd tabs))|apply Hw|].
    by eapply blt_ble_trans.
  - cbn [map]. rewrite newest_cons, IH. done.
Qed.

End Ops.

(** ** Writing tables out *)
Section Writes.
Context {T : Type} `{OT : OrderedTable T}.
Context (opt_m : Z -> Z) (opt_k : Z -> Z -> Z) (iter_order : gmap bytes BloomFilter -> list (bytes * BloomFilter)).
Context (Hm : forall n, opt_m n < 2 ^ 64 - 63) (Hk : forall m n, opt_k m n < 2 ^ 64).
Context (Hord : forall ps, iter_order ps ≡ₚ map_to_list ps).

Notation Engine := (Engine (T := T)).
Implicit Type e : Engine.

(** ** Flush *)

(** What a flush writes: the dirty table if a failed flush left one, else the
    active table. *)
Definition to_flush (am dm : list LogEntry) : list LogEntry := match dm with [] => am | _ => dm end.

(** The tables after it. *)
Definition flushed (tabs : list table) (now size : Z) (es : list LogEntry) : list table :=
  match es with [] => tabs | _ => tabs ++ [(new_meta 0 (l0_name now) es size, es)] end.

Lemma new_table_ok e am dm tabs : engine_ok e am dm tabs -> t_rep (new_table e.(opts)) [].
Proof. intros H. apply t_new_rep. pose proof (eo_level _ _ _ _ H). lia. Qed.

Lemma view_shift am tabs m k : view [] [] (tabs ++ [(m, am)]) k = view am [] tabs k.
Proof. rewrite !view_eq, map_app. simpl. by rewrite newest_snoc. Qed.
Lemma view_dirty am dm tabs m k : view am [] (tabs ++ [(m, dm)]) k = view am dm tabs k.
Proof. rewrite !view_eq, map_app. simpl. by rewrite newest_snoc. Qed.
Lemma view_swap am tabs k : view [] am tabs k = view am [] tabs k.
Proof. rewrite !view_eq. done. Qed.

(** The table being flushed, after the swap. *)
Lemma flush_write_ok e am dm tabs now : engine_ok e am dm tabs -> dm <> [] ->
  l0_name now ∉ map (fun t : table => Filepath t.1) tabs -> Forall Sst.entry_fits dm -> small opt_m opt_k iter_order dm ->
  exists d ss size, e.(dirty) = Some d /\ t_all d = Ret dm /\ t_bytes d = total_bytes dm /\
    WriteToSSTable opt_m opt_k iter_order e.(sst) now dm Written = Ret (ss, true) /\
    store_ok ss (tabs ++ [(new_meta 0 (l0_name now) dm size, dm)]) /\
    Release e.(credits) (t_bytes d) = MkPool e.(credits).(budget) (total_bytes am).
Proof.
  intros H Hne Hn Hf Hsm. pose proof H as [_ Hd Hs _ Hu Hr].
  destruct (dirty e) as [d|]; [|done]. destruct Hd as [Hd _].
  pose proof (t_rep_ascending _ _ Hd) as Ha.
  destruct (write_table_ok opt_m opt_k iter_order Hm Hk Hord (sst e) tabs 0 (l0_name now) dm Hs Hn) as (ss & size & E & Hss);
    [by eapply small_writable|done|].
  exists d, ss, size. split_and!; [done|by apply t_all_rep|by apply t_bytes_rep| |done|].
  - unfold WriteToSSTable. by destruct dm.
  - rewrite (t_bytes_rep _ _ Hd). unfold Release. rewrite Hu.
    pose proof (total_bytes_nonneg am). pose proof (total_bytes_nonneg dm).
    replace (total_bytes am + total_bytes dm - total_bytes dm) with (total_bytes am) by lia.
    rewrite s64_small by (unfold is_s64; lia). by replace (total_bytes am <? 0) with false by lia.
Qed.

(** The engine with the active table swapped to dirty. *)
Definition swapped e (a : T) : Engine :=
  MkEngine (Some (new_table e.(opts))) (Some a) e.(flushCh) e.(compactCh) e.(sst) e.(credits) e.(opts).

Lemma swapped_ok e am tabs a : engine_ok e am [] tabs -> e.(active) = Some a -> am <> [] ->
  engine_ok (swapped e a) [] am tabs.
Proof.
  intros H Ha Hne. pose proof H as [(a' & Ha' & Hr) _ Hs Hl Hu Hrg].
  rewrite Ha in Ha'. injection Ha' as <-. constructor; simpl; try done.
  - eexists. split; [done|]. by eapply new_table_ok.
  - simpl in *. lia.
  - simpl in *. lia.
Qed.

(** The body of [Flush] after the swap. *)
Definition flush_body e (d : T) (now : Z) (wr : write_result) : go Engine :=
  allEntries ← t_all d;
  '(ss, ok) ← WriteToSSTable opt_m opt_k iter_order e.(sst) now allEntries wr;
  let e := set_sst ss e in
  Ret (if ok : bool
       then MkEngine e.(active) None e.(flushCh) e.(compactCh) e.(sst) (Release e.(credits) (t_bytes d)) e.(opts)
       else StartFlush e).

Lemma Flush_eq e am dm tabs now wr : engine_ok e am dm tabs ->
  (dm = [] /\ am = [] /\ Flush opt_m opt_k iter_order e now wr = Ret e) \/
  (exists e1 am1 d, Flush opt_m opt_k iter_order e now wr = flush_body e1 d now wr /\
     engine_ok e1 am1 (to_flush am dm) tabs /\ e1.(dirty) = Some d /\ to_flush am dm <> [] /\
     am1 = match dm with [] => [] | _ => am end /\
     e1.(sst) = e.(sst) /\ e1.(credits) = e.(credits) /\ e1.(opts) = e.(opts)).
Proof.
  intros H. pose proof H as [(a & Ha & Hra) Hd Hs _ _ _]. unfold Flush, flush_body. rewrite Ha.
  destruct (dirty e) as [d|] eqn:Ed.
  - right. destruct Hd as [Hd Hne]. exists e, am, d. destruct dm as [|x dm]; [done|]. by split_and!.
  - subst dm. rewrite (t_size_rep _ _ Hra). destruct am as [|x am]; [by left|right].
    replace (len (x :: am) =? 0) with false by len_lia.
    exists (swapped e a), [], a. simpl to_flush. split_and!; try done. by apply swapped_ok.
Qed.

Lemma view_to_flush am dm tabs k :
  view match dm with [] => [] | _ => am end (to_flush am dm) tabs k = view am dm tabs k.
Proof. destruct dm; [apply view_swap|done]. Qed.

Lemma Flush_ok e am dm tabs now : engine_ok e am dm tabs ->
  l0_name now ∉ map (fun t : table => Filepath t.1) tabs ->
  Forall Sst.entry_fits (to_flush am dm) -> small opt_m opt_k iter_order (to_flush am dm) ->
  exists e' size, Flush opt_m opt_k iter_order e now Written = Ret e' /\
    let am' := match dm with [] => [] | _ => am end in
    let tabs' := flushed tabs now size (to_flush am dm) in
    engine_ok e' am' [] tabs' /\ (forall k, view am' [] tabs' k = view am dm tabs k) /\
    e'.(opts) = e.(opts) /\ e'.(credits).(budget) = e.(credits).(budget).
Proof.
  intros H Hn Hf Hsm.
  destruct (Flush_eq e am dm tabs now Written H) as [(-> & -> & ->)|(e1 & am1 & d & -> & H1 & Hd1 & Hne & Ham & Hs1 & Hc1 & Ho1)].
  { exists e, 0. simpl. by split_and!. }
  destruct (flush_write_ok e1 am1 (to_flush am dm) tabs now H1 Hne Hn Hf Hsm)
    as (d' & ss & size & Hd' & Hall & Hb & Hw & Hss & Hrel).
  rewrite Hd1 in Hd'. injection Hd' as <-. unfold flush_body. rewrite Hall. cbn [mbind go_bind].
  rewrite Hw. cbn [mbind go_bind]. eexists _, size. split; [done|]. cbv zeta. rewrite <- Ham.
  assert (flushed tabs now size (to_flush am dm) =
          tabs ++ [(new_meta 0 (l0_name now) (to_flush am dm) size, to_flush am dm)]) as -> by by destruct (to_flush am dm).
  cbn [set_sst active dirty flushCh compactCh sst credits opts]. rewrite Hrel.
  split_and!; [|intros k; rewrite view_dirty, Ham; apply view_to_flush|by rewrite Ho1|by rewrite Hc1].
  destruct H1 as [A1 A2 A3 A4 A5 A6]. pose proof (total_bytes_nonneg (to_flush am dm)).
  constructor; simpl; try done; lia.
Qed.

Lemma Flush_failed e am dm tabs now leftover indexed : engine_ok e am dm tabs ->
  l0_name now ∉ map (fun t : table => Filepath t.1) tabs ->
  exists e', Flush opt_m opt_k iter_order e now (Failed leftover indexed) = Ret e' /\
    let am' := match dm with [] => [] | _ => am end in
    engine_ok e' am' (to_flush am dm) tabs /\ (forall k, view am' (to_flush am dm) tabs k = view am dm tabs k) /\
    (to_flush am dm <> [] -> e'.(flushCh) = true) /\ e'.(credits) = e.(credits) /\ e'.(opts) = e.(opts).
Proof.
  intros H Hn.
  destruct (Flush_eq e am dm tabs now (Failed leftover indexed) H)
    as [(-> & -> & ->)|(e1 & am1 & d & -> & H1 & Hd1 & Hne & Ham & Hs1 & Hc1 & Ho1)].
  { exists e. by split_and!. }
  pose proof H1 as [_ Hd Hs _ _ _]. rewrite Hd1 in Hd. destruct Hd as [Hd _].
  destruct (write_table_failed opt_m opt_k iter_order Hm Hk (sst e1) tabs 0 (l0_name now) (to_flush am dm) leftover indexed Hs Hn)
    as (ss & Hw & Hss).
  unfold flush_body. rewrite (t_all_rep _ _ Hd). cbn [mbind go_bind].
  assert (WriteToSSTable opt_m opt_k iter_order (sst e1) now (to_flush am dm) (Failed leftover indexed) = Ret (ss, false)) as ->
    by (unfold WriteToSSTable; by destruct (to_flush am dm)).
  cbn [mbind go_bind]. eexists. split; [done|]. cbv zeta. rewrite <- Ham.
  split_and!; [|intros k; rewrite Ham; apply view_to_flush|done|done|done].
  apply StartFlush_ok. by eapply set_sst_ok.
Qed.

(** ** FlushToSSTable *)
Definition put_all (es base : list LogEntry) : list LogEntry :=
  fold_left (fun acc x => put_key x.(Key) x.(Value) acc) es base.

Lemma insert_entries_ok draws es t base : t_rep t base ->
  exists t', insert_entries draws es t = Ret t' /\ t_rep t' (put_all es base).
Proof.
  revert t base. induction es as [|x es IH]; intros t base H; [by exists t|]. simpl.
  destruct (t_insert_rep draws (Key x) (Value x) t base H) as (t1 & -> & H1). by apply IH.
Qed.

Lemma put_all_ascending es base : ascending base -> ascending (put_all es base).
Proof. revert base. induction es as [|x es IH]; intros base H; simpl; [done|]. by apply IH, put_key_ascending. Qed.

(** Later entries win. *)
Lemma find_put_all k es base : ascending base ->
  find_key k (put_all es base) = match find_key k (rev es) with Some v => Some v | None => find_key k base end.
Proof.
  revert base. induction es as [|x es IH]; intros base H; simpl; [done|].
  rewrite IH by by apply put_key_ascending. rewrite find_key_app, find_put_key by done. simpl.
  destruct (find_key k (rev es)); [done|]. by destruct (beqb (Key x) k).
Qed.

Lemma put_all_ne es base : es <> [] \/ base <> [] -> ascending base -> put_all es base <> [].
Proof.
  intros H Ha E. destruct H as [H|H].
  - destruct es as [|x es] using rev_ind; [done|]. pose proof (find_put_all (Key x) (es ++ [x]) base Ha) as F.
    rewrite E, rev_app_distr in F. simpl in F. by rewrite beqb_refl in F.
  - destruct base as [|x base]; [done|]. pose proof (find_put_all (Key x) es (x :: base) Ha) as F.
    rewrite E in F. simpl in F. rewrite beqb_refl in F. by destruct (find_key (Key x) (rev es)).
Qed.

Lemma FlushToSSTable_ok e am dm tabs draws es now : engine_ok e am dm tabs -> es <> [] ->
  l0_name now ∉ map (fun t : table => Filepath t.1) tabs ->
  Forall Sst.entry_fits (put_all es []) -> small opt_m opt_k iter_order (put_all es []) ->
  exists e' size, FlushToSSTable opt_m opt_k iter_order e draws es now Written = Ret (e', Ok tt) /\
    engine_ok e' am dm (tabs ++ [(new_meta 0 (l0_name now) (put_all es []) size, put_all es [])]) /\
    e'.(compactCh) = true /\ e'.(opts) = e.(opts) /\ e'.(credits) = e.(credits).
Proof.
  intros H Hne Hn Hf Hsm. unfold FlushToSSTable. destruct es as [|x es]; [done|].
  destruct (insert_entries_ok draws (x :: es) (new_table (opts e)) [] (new_table_ok _ _ _ _ H)) as (t & -> & Ht).
  cbn [mbind go_bind]. rewrite (t_all_rep _ _ Ht). cbn [mbind go_bind].
  assert (put_all (x :: es) [] <> []) as Hpn by (apply put_all_ne; [by left|constructor]).
  set (l := put_all (x :: es) []) in *.
  destruct (write_table_ok opt_m opt_k iter_order Hm Hk Hord (sst e) tabs 0 (l0_name now) l (eo_store _ _ _ _ H) Hn)
    as (ss & size & E & Hss); [eapply small_writable; eauto; apply put_all_ascending; constructor|done|].
  assert (WriteToSSTable opt_m opt_k iter_order (sst e) now l Written = Ret (ss, true)) as Ew
    by (unfold WriteToSSTable; by destruct l).
  destruct l as [|y l'] eqn:El; [done|]. rewrite Ew. cbn [mbind go_bind]. exists (signal_compact (set_sst ss e)), size.
  split_and!; [done| |done|done|done].
  pose proof (set_sst_ok e am dm tabs ss _ H Hss) as [A1 A2 A3 A4 A5 A6]. by constructor.
Qed.

End Writes.
End EngOps.
