(* ===== verification/EngineRun.v ===== *)
(** * Compaction and whole runs of the engine

    [CompactSSTable] keeps what every lookup returns.  Newest-wins is decided
    by position in the metadata list alone, so this rests on an invariant of
    the level structure ([levels_ok]): levels never increase along the list, and
    every level from 1 to 9 holds fewer files than the compaction threshold.
    Then whole runs of the engine refine a map. *)
From S2P Require Import Prelude Bytes Entries Bloom BlockCache SSTFile MergeIter SSTables Credit SkipList Engine EngineOps.
Import Bloom Merge Tables Credit Eng EngOps.

Module EngRun.

(** ** Clocks and names *)

(** File names carry creation times below [c], increasing along the list. *)
Definition clocked (c : Z) (tabs : list table) : Prop :=
  exists tss, Forall2 (fun (t : table) ts => named t.1 ts) tabs tss /\ StronglySorted Z.lt tss /\ Forall (fun ts => ts < c) tss.

Notation paths tabs := (map (fun t : table => Filepath t.1) tabs).

Lemma clocked_fresh c tabs name : clocked c tabs -> c <= parseCreateTsFromName name -> name ∉ paths tabs.
Proof.
  intros (tss & Hn & _ & Hc) Hle (t & -> & Ht)%list_elem_of_fmap. apply list_elem_of_lookup in Ht as [i Hi].
  destruct (Forall2_lookup_l _ _ _ _ _ Hn Hi) as (ts & Hts & Hnm). rewrite Forall_forall in Hc.
  specialize (Hc ts ltac:(by eapply list_elem_of_lookup_2)). destruct (named_parse _ _ Hnm) as (E & _). lia.
Qed.

Lemma clocked_mono c c' tabs : clocked c tabs -> c <= c' -> clocked c' tabs.
Proof.
  intros (tss & H1 & H2 & H3) Hle. exists tss. split_and!; [done|done|].
  eapply Forall_impl; [exact H3|]. simpl. lia.
Qed.

Lemma clocked_nil c : clocked c [].
Proof. exists []. split_and!; constructor. Qed.

Lemma clocked_snoc c tabs (t : table) ts : clocked c tabs -> named t.1 ts -> c <= ts -> clocked (ts + 1) (tabs ++ [t]).
Proof.
  intros (tss & H1 & H2 & H3) Hn Hle. exists (tss ++ [ts]). split_and!.
  - apply Forall2_app; [done|]. by constructor.
  - clear H1. induction H2 as [|x l Hs IH Hf]; simpl; [repeat constructor|].
    apply Forall_cons in H3 as [Hx H3]. constructor; [by apply IH|]. apply Forall_app. split; [done|].
    constructor; [lia|constructor].
  - apply Forall_app. split; [|constructor; [lia|constructor]]. eapply Forall_impl; [exact H3|]. simpl. lia.
Qed.

Lemma filter_names (P : table -> bool) tabs tss :
  Forall2 (fun (t : table) ts => named t.1 ts) tabs tss -> StronglySorted Z.lt tss ->
  exists tss', Forall2 (fun (t : table) ts => named t.1 ts) (List.filter P tabs) tss' /\
    StronglySorted Z.lt tss' /\ tss' ⊆ tss.
Proof.
  induction 1 as [|t ts tabs tss Hn Hall IH]; intros Hs; simpl.
  { exists []. split_and!; (constructor || done). }
  inversion Hs as [|? ? Hs' Hf]; subst. destruct (IH Hs') as (l & B1 & B2 & B3). destruct (P t).
  - exists (ts :: l). split_and!; [by constructor| |set_solver].
    constructor; [done|]. rewrite Forall_forall in *. intros x Hx. by apply Hf, B3.
  - exists l. split_and!; [done|done|set_solver].
Qed.

Lemma clocked_filter c (P : table -> bool) tabs : clocked c tabs -> clocked c (List.filter P tabs).
Proof.
  intros (tss & H1 & H2 & H3). destruct (filter_names P tabs tss H1 H2) as (l & B1 & B2 & B3).
  exists l. split_and!; [done|done|]. rewrite Forall_forall in *. auto.
Qed.

Lemma clock_advances (now : Z -> Z) l d : (forall j, l <= j -> now j < now (j + 1)) -> 0 <= d -> now l + d <= now (l + d).
Proof.
  intros Hinc Hd. pattern d. apply natlike_ind; [rewrite !Z.add_0_r; lia| |done].
  intros x Hx Ix. specialize (Hinc (l + x) ltac:(lia)). replace (l + Z.succ x) with (l + x + 1) by lia. lia.
Qed.

(** ** Levels *)
Definition count (level : Z) (tabs : list table) : Z := len (List.filter (fun t : table => t.1.(Level) =? level) tabs).
Definition level_ge (a b : table) : Prop := b.1.(Level) <= a.1.(Level).

(** Levels never increase along the list, and hold fewer than [max] files from
    1 to 9. *)
Record levels_ok (max : Z) (tabs : list table) : Prop := {
  lo_sorted : StronglySorted level_ge tabs;
  lo_nonneg : Forall (fun t : table => 0 <= t.1.(Level)) tabs;
  lo_count : forall l, 1 <= l <= 9 -> count l tabs < max }.

Lemma count_app l a b : count l (a ++ b) = count l a + count l b.
Proof. unfold count. rewrite List.filter_app. by rewrite len_app. Qed.

Lemma count_filter_ne l l' tabs :
  count l (List.filter (fun t : table => negb (t.1.(Level) =? l')) tabs) = if l =? l' then 0 else count l tabs.
Proof.
  unfold count. induction tabs as [|t tabs IH]; simpl; [by destruct (l =? l')|].
  destruct (Z.eqb_spec (Level t.1) l'), (Z.eqb_spec (Level t.1) l); simpl;
    destruct (Z.eqb_spec (Level t.1) l); try lia;
    destruct (Z.eqb_spec l l'); rewrite ?len_cons; try lia.
Qed.

Lemma sorted_filter (P : table -> bool) tabs : StronglySorted level_ge tabs -> StronglySorted level_ge (List.filter P tabs).
Proof.
  induction 1 as [|t tabs Hs IH Hf]; simpl; [constructor|]. destruct (P t); [|done].
  constructor; [done|]. rewrite Forall_forall in *. intros x Hx. apply Hf.
  apply list_elem_of_In in Hx. apply List.filter_In in Hx as [Hx _]. by apply list_elem_of_In.
Qed.

Lemma sorted_snoc tabs t : StronglySorted level_ge tabs -> Forall (fun x => level_ge x t) tabs ->
  StronglySorted level_ge (tabs ++ [t]).
Proof.
  induction 1 as [|x tabs Hs IH Hf]; simpl; intros Ht; [repeat constructor|].
  apply Forall_cons in Ht as [Hx Ht]. constructor; [by apply IH|]. apply Forall_app. split; [done|].
  by constructor.
Qed.

(** When nothing lies above level [l] in recency, the files of [l] are the end
    of the list. *)
Lemma level_split l tabs : StronglySorted level_ge tabs -> Forall (fun t : table => l <= t.1.(Level)) tabs ->
  tabs = List.filter (fun t : table => negb (t.1.(Level) =? l)) tabs ++ List.filter (fun t : table => t.1.(Level) =? l) tabs.
Proof.
  induction 1 as [|t tabs Hs IH Hf]; intros Hl; simpl; [done|]. apply Forall_cons in Hl as [Ht Hl].
  destruct (Z.eqb_spec (Level t.1) l) as [E|E]; simpl; [|by f_equal; apply IH].
  assert (forall x, x ∈ tabs -> x.1.(Level) = l) as Hall.
  { intros x Hx. rewrite Forall_forall in Hf, Hl. specialize (Hf x Hx). specialize (Hl x Hx). unfold level_ge in Hf. lia. }
  rewrite (filter_none (fun t : table => negb (t.1.(Level) =? l)) tabs)
    by (intros x Hx; rewrite (Hall x Hx), Z.eqb_refl; done).
  simpl. f_equal. specialize (IH Hl).
  rewrite (filter_none (fun t : table => negb (t.1.(Level) =? l)) tabs) in IH
    by (intros x Hx; rewrite (Hall x Hx), Z.eqb_refl; done). done.
Qed.

(** ** One level of the compaction loop *)
Section Compact.
Context (opt_m : Z -> Z) (opt_k : Z -> Z -> Z) (iter_order : gmap bytes BloomFilter -> list (bytes * BloomFilter)).
Context (Hm : forall n, opt_m n < 2 ^ 64 - 63) (Hk : forall m n, opt_k m n < 2 ^ 64).
Context (Hord : forall ps, iter_order ps ≡ₚ map_to_list ps).

(** Every table the entries of [U] can form is within the file format's sizes. *)
Definition roomy (U : list LogEntry) : Prop :=
  forall es, ascending es -> es ⊆ U -> small opt_m opt_k iter_order es.
Definition within (U : list LogEntry) (tabs : list table) : Prop := forall t, t ∈ tabs -> t.2 ⊆ U.

Lemma newest_within U k tabs v : within U tabs -> newest k (map snd tabs) = Some v -> MkLogEntry k v ∈ U.
Proof.
  intros H (src & (t & -> & Ht)%list_elem_of_fmap & Hf)%newest_in. by apply (H t Ht), find_key_Some_in.
Qed.

Lemma within_merge U sub es : within U sub -> ascending es -> (forall k, find_key k es = newest k (map snd sub)) -> es ⊆ U.
Proof.
  intros H Ha Hf x Hx. destruct x as [k v]. eapply (newest_within U k sub); [done|].
  rewrite <- Hf. by apply find_key_in.
Qed.

Lemma map_fst_filter (P : SSTableMeta -> bool) (tabs : list table) :
  List.filter P (map fst tabs) = map fst (List.filter (fun t => P t.1) tabs).
Proof. induction tabs as [|t tabs IH]; simpl; [done|]. destruct (P t.1); simpl; by rewrite IH. Qed.

Definition level_of (l : Z) (tabs : list table) : list table := List.filter (fun t : table => t.1.(Level) =? l) tabs.
Definition not_level (l : Z) (tabs : list table) : list table := List.filter (fun t : table => negb (t.1.(Level) =? l)) tabs.

Lemma level_of_sub l tabs : level_of l tabs ⊆ tabs.
Proof. intros x Hx. apply list_elem_of_In, List.filter_In in Hx as [Hx _]. by apply list_elem_of_In. Qed.
Lemma not_level_sub l tabs : not_level l tabs ⊆ tabs.
Proof. intros x Hx. apply list_elem_of_In, List.filter_In in Hx as [Hx _]. by apply list_elem_of_In. Qed.

Lemma LevelFiles_eq ss tabs l : store_ok ss tabs -> LevelFiles ss l = map fst (level_of l tabs).
Proof. intros H. unfold LevelFiles. rewrite (st_metas _ _ H). apply map_fst_filter. Qed.

Lemma tidy_deletes removed ss ms : (forall m, removed m = true) -> tidy ss -> tidy (delete_tables removed ss ms).
Proof.
  intros Hr. unfold delete_tables. revert ss. induction ms as [|m ms IH]; intros ss Ht; simpl; [done|].
  apply IH. rewrite Hr. by apply tidy_delete.
Qed.

(** A successful merge of level [l]. *)
Lemma merge_level_ok U removed max l now ss tabs :
  store_ok ss tabs -> roomy U -> within U tabs -> max <= count l tabs -> 1 <= max ->
  merged_name (l + 1) now ∉ paths tabs ->
  exists ss' es size, compact_level opt_m opt_k iter_order removed max l now Written ss = Ret ss' /\
    store_ok ss' (not_level l tabs ++ [(new_meta (l + 1) (merged_name (l + 1) now) es size, es)]) /\
    es ⊆ U /\ ((forall m, removed m = true) -> tidy ss -> tidy ss') /\
    forall k, find_key k es = newest k (map snd (level_of l tabs)).
Proof.
  intros H HU HW Hc Hmax Hn. unfold compact_level. rewrite (LevelFiles_eq ss tabs) by done.
  assert (len (map fst (level_of l tabs)) = count l tabs) as Hlen by (unfold count, len; by rewrite length_map).
  rewrite Hlen. replace (count l tabs <? max) with false by lia.
  assert (level_of l tabs <> []) as Hne by (intros E; unfold count in Hc; fold (level_of l tabs) in Hc; rewrite E in Hc; len_lia).
  assert (within U (level_of l tabs)) as HWl by (intros t Ht; by apply HW, (level_of_sub l)).
  destruct (MergeSSTable_ok opt_m opt_k iter_order Hm Hk Hord ss tabs (level_of l tabs) now (l + 1) H (level_of_sub l tabs) Hne Hn)
    as (s1 & es & size & Emerge & Hs1 & Hf).
  { intros es Ha Hf. apply HU; [done|]. by eapply within_merge. }
  rewrite Emerge. cbn [mbind go_bind]. do 3 eexists. split_and!; [done| | | |exact Hf].
  - unfold level_of. rewrite <- (map_fst_filter (fun m => Level m =? l)).
    assert (List.filter (fun m => Level m =? l) (map fst tabs) =
            List.filter (fun m => (Level m =? l)) (map fst (tabs ++ [(new_meta (l + 1) (merged_name (l + 1) now) es size, es)]))) as ->.
    { rewrite map_app, List.filter_app. simpl. replace (l + 1 =? l) with false by lia. by rewrite app_nil_r. }
    pose proof (delete_tables_ok removed (fun m => Level m =? l) s1 [] _ Hs1) as Hd.
    rewrite List.filter_app in Hd. simpl in Hd. replace (l + 1 =? l) with false in Hd by lia. exact Hd.
  - eapply within_merge; [exact HWl| |exact Hf].
    pose proof (st_tables _ _ Hs1) as Ht. apply Forall_app in Ht as [_ Ht]. apply Forall_cons in Ht as [[Hw _ _ _ _] _]. apply Hw.
  - intros Hr Ht. apply tidy_deletes; [done|]. eapply tidy_merge; [exact Emerge|left; by eexists|done].
Qed.

Lemma compact_level_failed removed max l now ss tabs leftover indexed :
  store_ok ss tabs -> merged_name (l + 1) now ∉ paths tabs ->
  exists ss', compact_level opt_m opt_k iter_order removed max l now (Failed leftover indexed) ss = Ret ss' /\ store_ok ss' tabs /\
    (leftover = None -> tidy ss -> tidy ss').
Proof.
  intros H Hn. unfold compact_level. rewrite (LevelFiles_eq ss tabs) by done.
  destruct (len (map fst (level_of l tabs)) <? max); [by exists ss|].
  destruct (MergeSSTable_failed opt_m opt_k iter_order Hm Hk ss tabs (level_of l tabs) now (l + 1) leftover indexed H (level_of_sub l tabs) Hn)
    as (s1 & E & Hs1). rewrite E. exists s1. split_and!; [done|done|].
  intros -> Ht. eapply tidy_merge; [exact E|right; by eexists|done].
Qed.

(** ** The whole pass *)

(** What holds when the loop reaches level [l]. *)
Record pass_ok (max l : Z) (tabs : list table) : Prop := {
  po_sorted : StronglySorted level_ge tabs;
  po_nonneg : Forall (fun t : table => 0 <= t.1.(Level)) tabs;
  po_others : forall j, 1 <= j <= 9 -> j <> l -> count j tabs < max;
  po_here : l <= 9 -> max <= count l tabs -> Forall (fun t : table => l <= t.1.(Level)) tabs }.

Lemma pass_skip max l tabs : 0 <= l -> pass_ok max l tabs -> count l tabs < max \/ l = 0 -> pass_ok max (l + 1) tabs.
Proof.
  intros Hl [H1 H2 H3 H4] Hc. constructor; [done|done| |].
  - intros j Hj Hne. destruct (Z.eq_dec j l) as [->|]; [lia|by apply H3].
  - intros Hl9 Hc'. specialize (H3 (l + 1)). lia.
Qed.

Lemma pass_merged max l tabs (t : table) : 0 <= l -> 1 <= max -> pass_ok max l tabs ->
  Forall (fun t : table => l <= t.1.(Level)) tabs -> t.1.(Level) = l + 1 ->
  pass_ok max (l + 1) (not_level l tabs ++ [t]).
Proof.
  intros Hl Hmax [H1 H2 H3 H4] Hge Ht.
  assert (Forall (fun t : table => l + 1 <= t.1.(Level)) (not_level l tabs)) as Hgt.
  { rewrite Forall_forall in *. intros x Hx. pose proof (Hge x (not_level_sub l tabs x Hx)).
    apply list_elem_of_In, List.filter_In in Hx as [_ Hx]. lia. }
  constructor.
  - apply sorted_snoc; [by apply sorted_filter|]. eapply Forall_impl; [exact Hgt|]. unfold level_ge. simpl. lia.
  - apply Forall_app. split; [eapply Forall_impl; [exact Hgt|simpl; lia]|]. constructor; [lia|constructor].
  - intros j Hj Hne. rewrite count_app. unfold not_level. rewrite count_filter_ne.
    unfold count at 2, len. simpl. rewrite Ht. replace (l + 1 =? j) with false by lia. cbn [length Z.of_nat].
    destruct (Z.eqb_spec j l); [lia|]. specialize (H3 j). lia.
  - intros _ _. apply Forall_app. split; [done|]. constructor; [lia|constructor].
Qed.

Lemma newest_merged l tabs m es k : StronglySorted level_ge tabs -> Forall (fun t : table => l <= t.1.(Level)) tabs ->
  find_key k es = newest k (map snd (level_of l tabs)) ->
  newest k (map snd (not_level l tabs ++ [(m, es)])) = newest k (map snd tabs).
Proof.
  intros Hs Hge Hf. rewrite map_app. simpl. rewrite newest_snoc, Hf.
  replace (newest k (map snd tabs)) with (newest k (map snd (not_level l tabs ++ level_of l tabs)))
    by (unfold not_level, level_of; by rewrite <- level_split).
  by rewrite map_app, newest_app.
Qed.

Lemma compact_loop_ok U removed max now wr n l ss tabs c :
  store_ok ss tabs -> roomy U -> within U tabs -> 1 <= max -> 0 <= l -> Z.of_nat n + l = 10 ->
  pass_ok max l tabs -> clocked c tabs -> 0 <= c <= now l -> (forall j, l <= j -> now j < now (j + 1)) -> now 10 <= 2 ^ 63 ->
  (forall j, 1 <= j -> wr j = Written) ->
  exists ss' tabs', compact_loop opt_m opt_k iter_order removed max n l now wr ss = Ret ss' /\
    store_ok ss' tabs' /\ within U tabs' /\ pass_ok max 10 tabs' /\ clocked (now 10) tabs' /\
    ((forall m, removed m = true) -> clean_result (wr 0) -> tidy ss -> tidy ss') /\
    forall k, newest k (map snd tabs') = newest k (map snd tabs).
Proof.
  revert l ss tabs c. induction n as [|n IH]; intros l ss tabs c H HU HW Hmax Hl Hn Hp Hc Hnow Hinc Hend Hwr.
  { assert (l = 10) as -> by lia. exists ss, tabs. split_and!; try done. eapply clocked_mono; [done|lia]. }
  pose proof (clock_advances now l (10 - l) Hinc ltac:(lia)) as Hlt. replace (l + (10 - l)) with 10 in Hlt by lia.
  assert (Hfresh : merged_name (l + 1) (now l) ∉ paths tabs)
    by (apply (clocked_fresh c); [done|]; rewrite merged_ts; lia).
  pose proof (Hinc l ltac:(lia)) as Hstep.
  assert (Hskip : forall s1, store_ok s1 tabs -> count l tabs < max \/ l = 0 ->
    (clean_result (wr 0) -> tidy ss -> tidy s1) ->
    compact_level opt_m opt_k iter_order removed max l (now l) (wr l) ss = Ret s1 ->
    exists ss' tabs', compact_loop opt_m opt_k iter_order removed max (S n) l now wr ss = Ret ss' /\
    store_ok ss' tabs' /\ within U tabs' /\ pass_ok max 10 tabs' /\ clocked (now 10) tabs' /\
    ((forall m, removed m = true) -> clean_result (wr 0) -> tidy ss -> tidy ss') /\
    forall k, newest k (map snd tabs') = newest k (map snd tabs)).
  { intros s1 Hs1 Hcl Htd E. cbn [compact_loop]. rewrite E. cbn [mbind go_bind].
    destruct (IH (l + 1) s1 tabs c) as (s2 & tabs2 & E2 & A1 & A2 & A3 & A4 & A5 & A6); try done; try lia;
      [by apply pass_skip|intros j Hj; apply Hinc; lia|]. exists s2, tabs2. split_and!; try done. auto. }
  destruct (Z_lt_le_dec (count l tabs) max) as [Hcl|Hcl].
  { apply (Hskip ss); [done|by left|done|]. unfold compact_level. rewrite (LevelFiles_eq ss tabs) by done.
    unfold len. rewrite length_map. unfold count, len in Hcl. fold (level_of l tabs) in Hcl.
    by replace (Z.of_nat (length (level_of l tabs)) <? max) with true by lia. }
  destruct (wr l) as [|leftover indexed] eqn:Ew.
  2: { assert (l = 0) by (destruct (Z.eq_dec l 0); [done|]; rewrite Hwr in Ew by lia; done).
       destruct (compact_level_failed removed max l (now l) ss tabs leftover indexed H Hfresh) as (s1 & E & Hs1 & Htd).
       apply (Hskip s1); [done|by right| |done]. intros Hc0. apply Htd. subst l. by rewrite Ew in Hc0. }
  destruct (merge_level_ok U removed max l (now l) ss tabs H HU HW Hcl Hmax Hfresh) as (s1 & es & size & E & Hs1 & Hes & Htd & Hf).
  cbn [compact_loop]. rewrite Ew, E. cbn [mbind go_bind].
  pose proof (po_here _ _ _ Hp ltac:(lia) Hcl) as Hge. pose proof (po_sorted _ _ _ Hp) as Hsort.
  destruct (IH (l + 1) s1 _ (now l + 1) Hs1 HU) as (s2 & tabs2 & -> & Hs2 & HW2 & Hp2 & Hc2 & Htd2 & Hnew); try done; try lia.
  - intros t [Ht|Ht%list_elem_of_singleton]%elem_of_app; [by apply HW, (not_level_sub l)|by subst t].
  - by apply pass_merged.
  - apply (clocked_snoc c); [by apply clocked_filter| |lia]. split; [lia|]. right. split; [simpl; lia|done].
  - intros j Hj. apply Hinc. lia.
  - exists s2, tabs2. split_and!; try done; [auto|]. intros k. rewrite Hnew. by apply newest_merged.
Qed.
End Compact.

Lemma levels_pass max tabs : levels_ok max tabs -> pass_ok max 0 tabs.
Proof. intros [H1 H2 H3]. constructor; [done|done|auto|done]. Qed.
Lemma pass_levels max tabs : pass_ok max 10 tabs -> levels_ok max tabs.
Proof. intros [H1 H2 H3 _]. constructor; [done|done|]. intros l Hl. apply H3; lia. Qed.

Lemma levels_flush max tabs now es size : levels_ok max tabs -> levels_ok max (flushed tabs now size es).
Proof.
  intros [H1 H2 H3]. destruct es as [|x es]; [done|]. cbn [flushed]. constructor.
  - apply sorted_snoc; [done|]. eapply Forall_impl; [exact H2|]. done.
  - apply Forall_app. split; [done|]. constructor; [done|constructor].
  - intros l Hl. rewrite count_app. specialize (H3 l Hl).
    assert (count l [(new_meta 0 (l0_name now) (x :: es) size, x :: es)] = 0) as ->; [|lia].
    unfold count. cbn [List.filter fst new_meta Level]. by replace (0 =? l) with false by lia.
Qed.

(** ** Runs *)
Inductive op :=
| OPut (k : bytes) (v : option bytes) (draws : list bool)
| ODelete (k : bytes) (draws : list bool)
| OGet (k : bytes)
| OFlush (now : Z) (wr : write_result)                                        (* a turn of FlushWorker *)
| OCompact (removed : SSTableMeta -> bool) (now : Z -> Z) (wr : Z -> write_result).  (* of ListenCompactCh *)

Inductive answer := ADone | ABlocked | AFailed (e : storage_error) | AValue (r : result storage_error bytes).

(** Reference: a map from keys to live values. *)
Definition apply_op (m : bytes -> option bytes) (o : op) (a : answer) : bytes -> option bytes :=
  match o, a with
  | OPut k v _, ADone => fun k' => if beqb k k' then v else m k'
  | ODelete k _, ADone => fun k' => if beqb k k' then None else m k'
  | _, _ => m
  end.

(** The answers the map allows; a write may block only under a byte budget. *)
Definition answer_ok (budget : Z) (m : bytes -> option bytes) (o : op) (a : answer) : Prop :=
  match o with
  | OPut _ _ _ | ODelete _ _ => a = ADone \/ a = ABlocked /\ 0 < budget
  | OGet k => a = AValue match m k with Some v => Ok v | None => Err ErrKeyNotFound end
  | OFlush _ _ | OCompact _ _ _ => a = ADone
  end.

Fixpoint spec_run (budget : Z) (m : bytes -> option bytes) (ops : list op) (answers : list answer) : Prop :=
  match ops, answers with
  | [], [] => True
  | o :: ops, a :: answers => answer_ok budget m o a /\ spec_run budget (apply_op m o a) ops answers
  | _, _ => False
  end.

(** The map after a run. *)
Fixpoint final (m : bytes -> option bytes) (ops : list op) (answers : list answer) : bytes -> option bytes :=
  match ops, answers with
  | o :: ops, a :: answers => final (apply_op m o a) ops answers
  | _, _ => m
  end.

(** Maps are compared pointwise. *)
Notation same := (pointwise_relation bytes (@eq (option bytes))).

#[export] Instance apply_op_proper : Proper (same ==> eq ==> eq ==> same) apply_op.
Proof.
  intros m m' Hm o ? <- a ? <- k. destruct o, a; simpl; try apply Hm; destruct (beqb _ k); [done|apply Hm|done|apply Hm].
Qed.

Lemma spec_run_ext b m m' ops answers : same m m' -> spec_run b m ops answers -> spec_run b m' ops answers.
Proof.
  revert m m' answers. induction ops as [|o ops IH]; intros m m' [|a answers] Hm; simpl; try done.
  intros [Ha Hr]. split; [|eapply IH; [|exact Hr]; by rewrite Hm].
  destruct o; simpl in *; try done. by rewrite <- (Hm k).
Qed.

#[export] Instance final_proper : Proper (same ==> eq ==> eq ==> same) final.
Proof.
  intros m m' Hm ops ? <- answers ? <-. revert m m' answers Hm.
  induction ops as [|o ops IH]; intros m m' [|a answers] Hm; simpl; try done. apply IH. by rewrite Hm.
Qed.

(** Clocks advance; a merge above level 0 succeeds. *)
Fixpoint timed (c : Z) (ops : list op) : Prop :=
  match ops with
  | [] => True
  | OFlush now _ :: ops => c <= now < 2 ^ 63 /\ timed (now + 1) ops
  | OCompact _ now wr :: ops =>
      c <= now 0 /\ (forall j, 0 <= j -> now j < now (j + 1)) /\ now 10 <= 2 ^ 63 /\
      (forall j, 1 <= j -> wr j = Written) /\ timed (now 10) ops
  | _ :: ops => timed c ops
  end.

Definition written (ops : list op) : list LogEntry :=
  omap (fun o => match o with
                 | OPut k v _ => Some (MkLogEntry k v)
                 | ODelete k _ => Some (MkLogEntry k None)
                 | _ => None
                 end) ops.

(** Entries scans and snapshots copy faithfully. *)
Definition plain_entry (x : LogEntry) : Prop := x.(Key) <> [] /\ x.(Value) <> Some [].

Lemma copy_plain es U : Forall plain_entry U -> es ⊆ U -> map copy_entry es = es.
Proof.
  intros HU Hsub. rewrite Forall_forall in HU. induction es as [|x es IH]; [done|]. simpl.
  rewrite IH by set_solver. f_equal. destruct (HU x) as [_ Hv]; [set_solver|].
  destruct x as [k [[|c v]|]]; simpl in Hv; done.
Qed.

Lemma live_in es k v : ascending es -> (k, v) ∈ live es <-> find_key k es = Some (Some v).
Proof.
  intros Ha. unfold live. rewrite list_elem_of_omap. split.
  - intros ([k' v'] & Hx & E). simpl in E. destruct v' as [b|]; [|done]. injection E as -> ->. by apply find_key_in.
  - intros Hf. exists (MkLogEntry k (Some v)). split; [by apply find_key_Some_in|done].
Qed.

Lemma live_sorted es : ascending es -> StronglySorted (fun a b => blt a.1 b.1) (live es).
Proof.
  induction 1 as [|x es Hs IH Hf]; simpl; [constructor|]. destruct (Value x) as [v|]; simpl; [|done].
  constructor; [done|]. apply Forall_forall. intros [k' v'] (y & Hy & E)%list_elem_of_omap.
  rewrite Forall_forall in Hf. specialize (Hf y Hy). destruct y as [ky [vy|]]; [|done]. simpl in E. by injection E as <- <-.
Qed.

Section Run.
Context {T : Type} `{OT : OrderedTable T}.
Context (opt_m : Z -> Z) (opt_k : Z -> Z -> Z) (iter_order : gmap bytes BloomFilter -> list (bytes * BloomFilter)).
Context (Hm : forall n, opt_m n < 2 ^ 64 - 63) (Hk : forall m n, opt_k m n < 2 ^ 64).
Context (Hord : forall ps, iter_order ps ≡ₚ map_to_list ps).
Notation Engine := (Engine (T := T)).
Implicit Type e : Engine.

Definition of_write (w : write_outcome) : Engine * answer :=
  match w with
  | Wrote e (Ok _) => (e, ADone)
  | Wrote e (Err err) => (e, AFailed err)
  | Blocked e => (e, ABlocked)
  end.

Definition exec_op (e : Engine) (o : op) : go (Engine * answer) :=
  match o with
  | OPut k v draws => w ← Put e draws k v; Ret (of_write w)
  | ODelete k draws => w ← Delete e draws k; Ret (of_write w)
  | OGet k => '(e, r) ← Get e k; Ret (e, AValue r)
  | OFlush now wr => e ← Flush opt_m opt_k iter_order (take_flush_signal e) now wr; Ret (e, ADone)
  | OCompact removed now wr => e ← CompactSSTable opt_m opt_k iter_order e 0 removed now wr; Ret (e, ADone)
  end.

Fixpoint exec_ops (e : Engine) (ops : list op) : go (Engine * list answer) :=
  match ops with
  | [] => Ret (e, [])
  | o :: ops =>
      '(e, a) ← exec_op e o;
      '(e, l) ← exec_ops e ops;
      Ret (e, a :: l)
  end.

(** The invariant of a run over entries [U], at clock [c]. *)
Record run_ok (U : list LogEntry) (c b : Z) (e : Engine) (am dm : list LogEntry) (tabs : list table) : Prop := {
  ro_engine : engine_ok e am dm tabs;
  ro_levels : levels_ok e.(opts).(MaxCompactionSize) tabs;
  ro_max : 1 <= e.(opts).(MaxCompactionSize);
  ro_clock : clocked c tabs;
  ro_pos : 0 <= c;
  ro_tabs : within U tabs;
  ro_am : am ⊆ U;
  ro_dm : dm ⊆ U;
  ro_budget : e.(credits).(budget) = b }.

(** The live value of a key. *)
Definition live_of (am dm : list LogEntry) (tabs : list table) (k : bytes) : option bytes := mjoin (view am dm tabs k).

Lemma put_sub k v es U : es ⊆ U -> MkLogEntry k v ∈ U -> put_key k v es ⊆ U.
Proof. intros H Hin x Hx. apply put_key_in in Hx as [->|Hx]; [done|by apply H]. Qed.

Lemma run_write U c b e am dm tabs draws k v : run_ok U c b e am dm tabs -> MkLogEntry k v ∈ U ->
  total_bytes am + total_bytes dm + len k + vlen v < 2 ^ 63 ->
  exists e' a am', (w ← write e draws k v; Ret (of_write w)) = Ret (e', a) /\ run_ok U c b e' am' dm tabs /\
    (a = ADone \/ a = ABlocked /\ 0 < b) /\
    total_bytes am' <= total_bytes am + len k + vlen v /\
    forall k', live_of am' dm tabs k' = apply_op (live_of am dm tabs) (OPut k v draws) a k'.
Proof.
  intros [He Hl Hmx Hc Hp Ht Ha Hd Hb] Hin Hlt.
  destruct (write_ok e am dm tabs draws k v He Hlt) as [[-> F]|(e' & -> & He' & Hs & Ho & Hbu & _)].
  - exists (StartFlush e), ABlocked, am. split_and!; [done| | | |done].
    + constructor; try done. by apply StartFlush_ok.
    + right. split; [done|]. unfold fits in F. rewrite !orb_false_iff in F. lia.
    + unfold vlen. destruct v; len_lia.
  - exists e', ADone, (put_key k v am). split_and!; [done| |by left| |].
    + constructor; try done; [by rewrite Ho|by rewrite Ho|by apply put_sub|congruence].
    + pose proof (eo_am_asc _ _ _ _ He) as Hasc. rewrite total_bytes_put by done.
      destruct (find_key k am) as [[o|]|]; unfold vlen; destruct v; len_lia.
    + intros k'. unfold live_of. rewrite view_put by by eapply eo_am_asc. simpl. by destruct (beqb k k').
Qed.

Lemma fits_sub U es : Forall Sst.entry_fits U -> es ⊆ U -> Forall Sst.entry_fits es.
Proof. rewrite !Forall_forall. auto. Qed.

Lemma take_signal_ok e am dm tabs : engine_ok e am dm tabs -> engine_ok (take_flush_signal e) am dm tabs.
Proof. intros [H1 H2 H3 H4 H5 H6]. by constructor. Qed.

Lemma tidy_flush e now wr e' : Flush opt_m opt_k iter_order e now wr = Ret e' ->
  clean_result wr -> tidy e.(sst) -> tidy e'.(sst).
Proof.
  assert (Hbody : forall e1 d, flush_body opt_m opt_k iter_order e1 d now wr = Ret e' -> clean_result wr ->
    tidy (sst e1) -> tidy (sst e')).
  { intros e1 d. unfold flush_body. destruct (t_all d) as [es|]; [|done]. cbn [mbind go_bind].
    unfold WriteToSSTable. destruct es as [|x es].
    - cbn [mbind go_bind]. intros [= <-] _ Ht. exact Ht.
    - destruct (write_table opt_m opt_k iter_order (sst e1) 0 (l0_name now) (x :: es) wr) as [[ss ok]|] eqn:Ew; [|done].
      cbn [mbind go_bind]. intros [= <-] Hc Ht. destruct ok; by eapply (tidy_write opt_m opt_k iter_order). }
  unfold Flush. destruct (dirty e) as [d|]; [by apply Hbody|].
  destruct (active e) as [a|]; [|by intros [= <-]].
  destruct (t_size a =? 0); [by intros [= <-]|]. exact (Hbody (swapped e a) a).
Qed.

Lemma run_flush U c b e am dm tabs now wr : run_ok U c b e am dm tabs ->
  roomy opt_m opt_k iter_order U -> Forall Sst.entry_fits U -> c <= now < 2 ^ 63 ->
  exists e' am' dm' tabs', Flush opt_m opt_k iter_order (take_flush_signal e) now wr = Ret e' /\
    run_ok U (now + 1) b e' am' dm' tabs' /\
    total_bytes am' + total_bytes dm' <= total_bytes am + total_bytes dm /\
    (wr = Written -> dm' = [] /\ am' = match dm with [] => [] | _ => am end) /\
    (clean_result wr -> tidy e.(sst) -> tidy e'.(sst)) /\ e'.(opts) = e.(opts) /\
    (forall k, find_key k am = None -> find_key k dm = None ->
       find_key k am' = None /\ find_key k dm' = None /\ newest k (map snd tabs') = newest k (map snd tabs)) /\
    (forall k, view am' dm' tabs' k = view am dm tabs k) /\
    forall k, live_of am' dm' tabs' k = live_of am dm tabs k.
Proof.
  intros [He Hl Hmx Hc Hp Ht Ha Hd Hb] HU HF Hnow.
  pose proof (take_signal_ok _ _ _ _ He) as Hte.
  assert (Hn : l0_name now ∉ paths tabs) by (apply (clocked_fresh c); [done|]; rewrite l0_ts; lia).
  assert (Hsub : to_flush am dm ⊆ U) by by destruct dm.
  assert (Hasc : ascending (to_flush am dm)) by (destruct dm; [by eapply eo_am_asc|by eapply eo_dm_asc]).
  assert (Ham : match dm with [] => [] | _ => am end ⊆ U) by (destruct dm; [set_solver|done]).
  pose proof (total_bytes_nonneg am). pose proof (total_bytes_nonneg dm).
  assert (Htidy : forall e', Flush opt_m opt_k iter_order (take_flush_signal e) now wr = Ret e' ->
    clean_result wr -> tidy (sst e) -> tidy (sst e')) by (intros e' E; exact (tidy_flush _ _ _ _ E)).
  assert (Hnone : forall k, find_key k am = None -> find_key k dm = None ->
    find_key k match dm with [] => [] | _ => am end = None /\ find_key k (to_flush am dm) = None) by (by destruct dm).
  destruct wr as [|leftover indexed].
  - destruct (Flush_ok opt_m opt_k iter_order Hm Hk Hord _ am dm tabs now Hte Hn (fits_sub U _ HF Hsub) (HU _ Hasc Hsub))
      as (e' & size & E & He' & Hv & Ho & Hbu).
    do 4 eexists. split_and!; [exact E| | |done|by apply Htidy|done| |done|intros k; unfold live_of; by rewrite Hv].
    + constructor; try done.
      * rewrite Ho. by apply levels_flush.
      * by rewrite Ho.
      * destruct (to_flush am dm) as [|x es]; [by apply (clocked_mono c); [done|lia]|].
        apply (clocked_snoc c); [done| |lia]. split; [lia|]. left. done.
      * lia.
      * destruct (to_flush am dm) as [|x es] eqn:Ef; [done|]. intros t [Hin|Hin%list_elem_of_singleton]%elem_of_app;
          [by apply Ht|]. by subst t.
      * set_solver.
      * rewrite Hbu. done.
    + destruct dm; simpl in *; lia.
    + intros k Ka Kd. destruct (Hnone k Ka Kd) as [N1 N2]. split_and!; [done|done|].
      destruct (to_flush am dm) as [|x es] eqn:Ef; [done|]. cbn [flushed]. rewrite map_app. cbn [map snd].
      by rewrite newest_snoc, N2.
  - destruct (Flush_failed opt_m opt_k iter_order Hm Hk _ am dm tabs now leftover indexed Hte Hn)
      as (e' & E & He' & Hv & _ & Hcr & Ho).
    do 4 eexists. split_and!; [exact E| | |done|by apply Htidy|done| |done|intros k; unfold live_of; by rewrite Hv].
    + constructor; try done; [by rewrite Ho|by rewrite Ho|apply (clocked_mono c); [done|lia]|lia|by rewrite Hcr].
    + destruct dm; simpl in *; lia.
    + intros k Ka Kd. destruct (Hnone k Ka Kd) as [N1 N2]. by split_and!.
Qed.

Lemma run_compact U c b e am dm tabs removed now wr : run_ok U c b e am dm tabs ->
  roomy opt_m opt_k iter_order U -> c <= now 0 -> (forall j, 0 <= j -> now j < now (j + 1)) -> now 10 <= 2 ^ 63 ->
  (forall j, 1 <= j -> wr j = Written) ->
  exists e' tabs', CompactSSTable opt_m opt_k iter_order e 0 removed now wr = Ret e' /\
    run_ok U (now 10) b e' am dm tabs' /\
    ((forall m, removed m = true) -> clean_result (wr 0) -> tidy e.(sst) -> tidy e'.(sst)) /\
    e'.(opts) = e.(opts) /\ forall k, newest k (map snd tabs') = newest k (map snd tabs).
Proof.
  intros [He Hl Hmx Hc Hp Ht Ha Hd Hb] HU Hnow Hinc Hend Hwr. unfold CompactSSTable.
  assert (0 <= now 10) as Hpos by (pose proof (clock_advances now 0 10 Hinc ltac:(lia)) as A; change (0 + 10) with 10 in A; lia).
  destruct (compact_loop_ok opt_m opt_k iter_order Hm Hk Hord U removed (MaxCompactionSize (opts e)) now wr
    (Z.to_nat (compactMaxLevel - 0)) 0 (sst e) tabs c) as (ss & tabs' & -> & Hs & Ht' & Hpass & Hc' & Htd & Hnew);
    try done; [by apply He|by apply levels_pass|].
  cbn [mbind go_bind]. exists (set_sst ss e), tabs'. split_and!; [done| |done|done|done].
  constructor; try done; [by eapply set_sst_ok|by apply pass_levels].
Qed.

Definition op_bytes (o : op) : Z :=
  match o with OPut k v _ => len k + vlen v | ODelete k _ => len k + 0 | _ => 0 end.

Lemma total_written o ops : total_bytes (written (o :: ops)) = op_bytes o + total_bytes (written ops).
Proof. destruct o; simpl; unfold entry_bytes; simpl; lia. Qed.

Lemma exec_op_ok U c b e am dm tabs o ops : run_ok U c b e am dm tabs ->
  roomy opt_m opt_k iter_order U -> Forall Sst.entry_fits U -> written [o] ⊆ U -> timed c (o :: ops) ->
  total_bytes am + total_bytes dm + op_bytes o < 2 ^ 63 ->
  exists e' a am' dm' tabs' c', exec_op e o = Ret (e', a) /\ run_ok U c' b e' am' dm' tabs' /\ timed c' ops /\
    answer_ok b (live_of am dm tabs) o a /\ total_bytes am' + total_bytes dm' <= total_bytes am + total_bytes dm + op_bytes o /\
    same (live_of am' dm' tabs') (apply_op (live_of am dm tabs) o a).
Proof.
  intros H HU HF HW Htm Hlt. destruct o as [k v draws|k draws|k|now wr|removed now wr].
  - destruct (run_write U c b e am dm tabs draws k v H) as (e' & a & am' & E & H' & Ha & Hle & Hv);
      [apply HW; simpl; set_solver|simpl in Hlt; lia|].
    exists e', a, am', dm, tabs, c. split_and!; [exact E|done|done|done|simpl; lia|exact Hv].
  - destruct (run_write U c b e am dm tabs draws k None H) as (e' & a & am' & E & H' & Ha & Hle & Hv);
      [apply HW; simpl; set_solver|simpl in *; lia|].
    exists e', a, am', dm, tabs, c. split_and!; [exact E|done|done|done|simpl in *; lia|exact Hv].
  - pose proof H as [He Hl Hmx Hc Hp Ht Ha Hd Hb]. destruct (Get_ok e am dm tabs k He) as (ss & E & Hs & _).
    exists (set_sst ss e), (AValue (get_result (view am dm tabs k))), am, dm, tabs, c. unfold exec_op. rewrite E.
    split_and!; [done| |done| |simpl; lia|done].
    + constructor; try done. by eapply set_sst_ok.
    + simpl. unfold live_of. by destruct (view am dm tabs k) as [[v|]|].
  - destruct Htm as [Hnow Htm].
    destruct (run_flush U c b e am dm tabs now wr H HU HF Hnow) as (e' & am' & dm' & tabs' & E & H' & Hle & _ & _ & _ & _ & _ & Hv).
    exists e', ADone, am', dm', tabs', (now + 1). unfold exec_op. rewrite E.
    split_and!; [done|done|done|done|simpl; lia|exact Hv].
  - destruct Htm as (Hnow & Hinc & Hend & Hwr & Htm).
    destruct (run_compact U c b e am dm tabs removed now wr H HU Hnow Hinc Hend Hwr) as (e' & tabs' & E & H' & _ & _ & Hv).
    exists e', ADone, am, dm, tabs', (now 10). unfold exec_op. rewrite E.
    split_and!; [done|done|done|done|simpl; lia|]. intros k. cbn [apply_op]. unfold live_of. rewrite !view_eq. by rewrite Hv.
Qed.

Lemma exec_ops_ok U c b e am dm tabs ops rest : run_ok U c b e am dm tabs ->
  roomy opt_m opt_k iter_order U -> Forall Sst.entry_fits U -> written ops ⊆ U -> timed c (ops ++ rest) ->
  total_bytes am + total_bytes dm + total_bytes (written ops) < 2 ^ 63 ->
  exists e' answers am' dm' tabs' c', exec_ops e ops = Ret (e', answers) /\ run_ok U c' b e' am' dm' tabs' /\
    timed c' rest /\ spec_run b (live_of am dm tabs) ops answers /\
    same (live_of am' dm' tabs') (final (live_of am dm tabs) ops answers) /\
    total_bytes am' + total_bytes dm' <= total_bytes am + total_bytes dm + total_bytes (written ops).
Proof.
  revert c e am dm tabs. induction ops as [|o ops IH]; intros c e am dm tabs H HU HF HW Htm Hlt.
  { exists e, [], am, dm, tabs, c. simpl. split_and!; [done|done|done|done|done|lia]. }
  rewrite total_written in Hlt. pose proof (total_bytes_nonneg (written ops)).
  destruct (exec_op_ok U c b e am dm tabs o (ops ++ rest) H HU HF) as (e1 & a & am1 & dm1 & tabs1 & c1 & E & H1 & Htm1 & Ha & Hle & Hv); [|done|lia|].
  { intros x Hx. apply HW. destruct o; simpl in *; set_solver. }
  destruct (IH c1 e1 am1 dm1 tabs1 H1 HU HF) as (e2 & l & am2 & dm2 & tabs2 & c2 & E2 & H2 & Htm2 & Hs & Hfin & Hle2); try done.
  { intros x Hx. apply HW. destruct o; simpl; set_solver. }
  { lia. }
  exists e2, (a :: l), am2, dm2, tabs2, c2. cbn [exec_ops]. rewrite E. cbn [mbind go_bind]. rewrite E2.
  rewrite total_written. split_and!; [done|done|done| | |lia].
  - split; [done|]. by eapply spec_run_ext.
  - cbn [final]. by rewrite Hfin, Hv.
Qed.

Lemma new_engine_ok U o : run_ok U 0 (MaxInflightBytes o) (NewEngine o ∅) [] [] [].
Proof.
  assert (LoadSSTableMetaList (NewSSTable ∅ (BlockCacheBytes (withDefaults o))) =
          NewSSTable ∅ (BlockCacheBytes (withDefaults o))) as E by reflexivity.
  unfold NewEngine. rewrite E. clear E.
  assert (1 <= SkipListMaxLevel (withDefaults o)) as Hlv
    by (unfold withDefaults; simpl; destruct (Z.leb_spec (SkipListMaxLevel o) 0); lia).
  assert (1 <= MaxCompactionSize (withDefaults o)) as Hmx
    by (unfold withDefaults; simpl; destruct (Z.leb_spec (MaxCompactionSize o) 0); lia).
  constructor; cbn [opts active dirty sst credits];
    [| |done|apply clocked_nil|done|set_solver|set_solver|set_solver|done].
  - constructor; try done; [|apply empty_store_ok]. eexists. split; [done|]. apply t_new_rep. lia.
  - constructor; [constructor|constructor|]. intros l Hl. change (count l []) with 0. lia.
Qed.

(** What a run from an empty directory assumes of its operations. *)
Record run_hyps (ops : list op) : Prop := {
  rh_roomy : roomy opt_m opt_k iter_order (written ops);
  rh_fits : Forall Sst.entry_fits (written ops);
  rh_bytes : total_bytes (written ops) < 2 ^ 63;
  rh_timed : timed 0 ops }.

Lemma run_state o ops : run_hyps ops ->
  exists e answers am dm tabs c, exec_ops (NewEngine o ∅) ops = Ret (e, answers) /\
    run_ok (written ops) c (MaxInflightBytes o) e am dm tabs /\
    spec_run (MaxInflightBytes o) (fun _ => None) ops answers /\
    same (live_of am dm tabs) (final (fun _ => None) ops answers) /\
    total_bytes am + total_bytes dm <= total_bytes (written ops).
Proof.
  intros [H1 H2 H3 H4].
  destruct (exec_ops_ok (written ops) 0 (MaxInflightBytes o) (NewEngine o ∅) [] [] [] ops [])
    as (e & answers & am & dm & tabs & c & E & Hr & _ & Hs & Hf & Hle); try done.
  { apply new_engine_ok. }
  { by rewrite app_nil_r. }
  exists e, answers, am, dm, tabs, c. split_and!; [done|done|done|exact Hf|simpl in Hle; lia].
Qed.

(** C1: The engine refines a map.  Take any sequence of puts, deletes, reads,
    background flushes (succeeding or failing, leaving any bytes behind) and
    compaction passes, run on an engine opened on an empty directory, with
    advancing clocks and merges above level 0 succeeding, and with keys, values
    and tables that fit the widths of the file format.  The run never panics,
    and its answers are those of a map from keys to values: every read returns
    the last value written and not deleted, wherever it has moved to (memory
    table, dirty table, any SSTable level); a write completes or, only when a
    byte budget is set, blocks without effect. *)
Theorem engine_refines_map o ops : run_hyps ops ->
  exists e answers, exec_ops (NewEngine o ∅) ops = Ret (e, answers) /\
    spec_run (MaxInflightBytes o) (fun _ => None) ops answers /\
    0 <= InflightBytes e <= total_bytes (written ops).
Proof.
  intros H. destruct (run_state o ops H) as (e & answers & am & dm & tabs & c & E & Hr & Hs & _ & Hle).
  exists e, answers. split_and!; [done|done| |]; unfold InflightBytes, Used;
    rewrite (eo_credit _ _ _ _ (ro_engine _ _ _ _ _ _ _ Hr)); [|done].
  pose proof (total_bytes_nonneg am). pose proof (total_bytes_nonneg dm). lia.
Qed.

(** C3: A scan is exact.  After any such run (with no empty key and no empty
    value written) a scan of a closed interval, either bound open when empty,
    reports the live keys of the map in the interval in ascending order, each
    once, with the value a read would return, and nothing else. *)
Theorem engine_scan_exact o ops e answers lo hi : run_hyps ops -> Forall plain_entry (written ops) ->
  exec_ops (NewEngine o ∅) ops = Ret (e, answers) ->
  exists e' l, ScanRange e lo hi = Ret (e', l) /\ StronglySorted (fun a b => blt a.1 b.1) l /\
    forall k v, (k, v) ∈ l <-> in_range lo hi k = true /\ final (fun _ => None) ops answers k = Some v.
Proof.
  intros H Hp E0. destruct (run_state o ops H) as (e1 & l1 & am & dm & tabs & c & E & Hr & _ & Hf & _).
  rewrite E in E0. injection E0 as <- <-. pose proof Hr as [He _ _ _ _ _ Ha Hd _].
  destruct (ScanRange_ok e1 am dm tabs lo hi He) as (ss & es & -> & _ & _ & Hasc & Hes).
  { intros x Hx. rewrite Forall_forall in Hp. apply (Hp x). apply elem_of_app in Hx as [Hx|Hx]; auto. }
  do 2 eexists. split_and!; [done|by apply live_sorted|]. intros k v. rewrite live_in by done.
  rewrite Hes. unfold copied_view. rewrite (copy_plain am (written ops)), (copy_plain dm (written ops)) by done.
  rewrite <- (Hf k). unfold live_of. destruct (in_range lo hi k); [|naive_solver].
  destruct (view am dm tabs k) as [[b|]|]; simpl; naive_solver.
Qed.

(** The checkpoint snapshot loses nothing.  After any such run the
    snapshot of the memory tables is ascending, and for every key it either has
    an entry, which is the map's value (a tombstone for a deleted key), or the
    SSTables alone answer for the key as the map does: replaying the snapshot
    over the SSTables restores the map. *)
Theorem snapshot_covers_memory o ops e answers : run_hyps ops -> Forall plain_entry (written ops) ->
  exec_ops (NewEngine o ∅) ops = Ret (e, answers) ->
  exists es, SnapshotLive e = Ret es /\ ascending es /\
    forall k, match find_key k es with
              | Some v => final (fun _ => None) ops answers k = v
              | None => exists ss r, getFromSSTables e.(sst) k = Ret (ss, r) /\
                                     final (fun _ => None) ops answers k = mjoin r
              end.
Proof.
  intros H Hp E0. destruct (run_state o ops H) as (e1 & l1 & am & dm & tabs & c & E & Hr & _ & Hf & _).
  rewrite E in E0. injection E0 as <- <-. pose proof Hr as [He _ _ _ _ _ Ha Hd _].
  destruct (SnapshotLive_ok e1 am dm tabs He) as (es & -> & Hasc & Hes).
  exists es. split_and!; [done|done|]. intros k. rewrite Hes, <- (Hf k). unfold live_of. rewrite view_eq.
  assert (copy_value <$> newest k [dm; am] = newest k [dm; am]) as ->.
  { rewrite <- (copy_plain am (written ops)), <- (copy_plain dm (written ops)) by done.
    rewrite !newest_cons, newest_nil, !find_key_copy.
    destruct (find_key k am) as [[[|]|]|], (find_key k dm) as [[[|]|]|]; done. }
  rewrite !newest_cons, newest_nil. pose proof (eo_store _ _ _ _ He) as Hs.
  destruct (find_key k am) as [v|]; [by destruct v|].
  destruct (find_key k dm) as [v|]; [by destruct v|].
  unfold getFromSSTables. rewrite (st_metas _ _ Hs).
  destruct (get_loop_ok (sst e1) tabs tabs k Hs) as (ss & -> & _); [done|].
  do 2 eexists. split; done.
Qed.

(** Retention only drops what was delivered.  After any such run,
    reclaiming up to a non-empty bound drops exactly the files whose largest key
    is below the bound and reports their number, whether or not the file
    removals succeed; every key from the bound on reads as before. *)
Theorem reclaim_keeps_undelivered o ops e answers removed bound : run_hyps ops -> bound <> [] ->
  exec_ops (NewEngine o ∅) ops = Ret (e, answers) ->
  exists e' n, ReclaimUpTo e removed bound = (e', n) /\
    e'.(sst).(metas) = List.filter (fun m => negb (bltb m.(MaxKey) bound)) e.(sst).(metas) /\
    n = len e.(sst).(metas) - len e'.(sst).(metas) /\
    forall k, ble bound k ->
      exists e'', Get e' k = Ret (e'', match final (fun _ => None) ops answers k with
                                       | Some v => Ok v | None => Err ErrKeyNotFound end).
Proof.
  intros H Hb E0. destruct (run_state o ops H) as (e1 & l1 & am & dm & tabs & c & E & Hr & _ & Hf & _).
  rewrite E in E0. injection E0 as <- <-. pose proof (ro_engine _ _ _ _ _ _ _ Hr) as He.
  destruct (ReclaimUpTo_ok e1 am dm tabs removed bound He Hb) as (e' & -> & He' & _ & _).
  exists e', (len tabs - len (retained bound tabs)). pose proof (eo_store _ _ _ _ He) as Hs.
  assert (metas (sst e') = map fst (retained bound tabs)) as Em by apply (st_metas _ _ (eo_store _ _ _ _ He')).
  split_and!; [done| | |].
  - rewrite Em, (st_metas _ _ Hs), map_fst_filter. unfold retained, reclaimable. f_equal.
    apply List.filter_ext_in. intros t Ht%list_elem_of_In. pose proof (st_tables _ _ Hs) as Hts. rewrite Forall_forall in Hts.
    by rewrite (to_known _ _ (Hts t Ht)).
  - rewrite Em, (st_metas _ _ Hs). unfold len. by rewrite !length_map.
  - intros k Hle. destruct (Get_ok e' am dm _ k He') as (ss & -> & _). eexists. do 2 f_equal.
    rewrite <- (Hf k). unfold live_of. rewrite !view_eq, (newest_retained (sst e1)) by done.
    destruct (find_key k am) as [[|]|], (find_key k dm) as [[|]|], (newest k (map snd tabs)) as [[|]|]; done.
Qed.

Lemma exec_ops_app e ops rest e' l : exec_ops e ops = Ret (e', l) ->
  exec_ops e (ops ++ rest) = '(e2, l2) ← exec_ops e' rest; Ret (e2, l ++ l2).
Proof.
  revert e l. induction ops as [|o ops IH]; intros e l; simpl.
  - intros [= -> <-]. simpl. by destruct (exec_ops e' rest) as [[]|].
  - destruct (exec_op e o) as [[e1 a]|]; [|done]. cbn [mbind go_bind].
    destruct (exec_ops e1 ops) as [[e2 l2]|] eqn:E2; [|done]. cbn [mbind go_bind]. intros [= -> <-].
    rewrite (IH e1 l2 E2). by destruct (exec_ops e' rest) as [[]|].
Qed.

Lemma written_app a b : written (a ++ b) = written a ++ written b.
Proof. unfold written. apply omap_app. Qed.
Lemma total_bytes_app a b : total_bytes (a ++ b) = total_bytes a + total_bytes b.
Proof. induction a as [|x a IH]; simpl; lia. Qed.

(** Two completed flushes admit a writer.  Whatever the run before, once
    the background worker completes two flushes (one for the table a failed
    flush left behind, one for the active table) all credit is back and the
    next write is admitted, however large and however small the budget. *)
Theorem flushes_unblock_writer o ops n1 n2 k v draws :
  run_hyps (ops ++ [OFlush n1 Written; OFlush n2 Written; OPut k v draws]) ->
  exists e answers, exec_ops (NewEngine o ∅) (ops ++ [OFlush n1 Written; OFlush n2 Written; OPut k v draws]) =
    Ret (e, answers ++ [ADone; ADone; ADone]).
Proof.
  intros [H1 H2 H3 H4]. set (rest := [OFlush n1 Written; OFlush n2 Written; OPut k v draws]) in *.
  set (U := written (ops ++ rest)) in *.
  assert (HU : U = written ops ++ [MkLogEntry k v]) by (unfold U; by rewrite written_app).
  assert (Hb : total_bytes U = total_bytes (written ops) + (len k + vlen v + 0)) by (rewrite HU, total_bytes_app; done).
  assert (0 <= len k + vlen v) by (unfold vlen; destruct v; len_lia).
  destruct (exec_ops_ok U 0 (MaxInflightBytes o) (NewEngine o ∅) [] [] [] ops rest)
    as (e & answers & am & dm & tabs & c & E & Hr & Htm & _ & _ & Hle); try done.
  { apply new_engine_ok. }
  { rewrite HU. set_solver. }
  { simpl. lia. }
  simpl in Hle. destruct Htm as (Hn1 & Hn2 & _).
  destruct (run_flush U c _ e am dm tabs n1 Written Hr H1 H2 Hn1) as (e1 & am1 & dm1 & tabs1 & E1 & Hr1 & _ & Hd1 & _).
  destruct (Hd1 eq_refl) as [-> ->]. clear Hd1.
  destruct (run_flush U (n1 + 1) _ e1 _ [] tabs1 n2 Written Hr1 H1 H2 Hn2) as (e2 & am2 & dm2 & tabs2 & E2 & Hr2 & _ & Hd2 & _).
  destruct (Hd2 eq_refl) as [-> ->]. clear Hd2. pose proof (total_bytes_nonneg (written ops)).
  destruct (write_ok e2 [] [] tabs2 draws k v (ro_engine _ _ _ _ _ _ _ Hr2)) as [[_ F]|(e3 & E3 & _)]; [simpl; lia| |].
  - exfalso. unfold fits in F. rewrite (eo_credit _ _ _ _ (ro_engine _ _ _ _ _ _ _ Hr2)) in F.
    simpl in F. by rewrite orb_true_r in F.
  - exists e3, answers. rewrite (exec_ops_app _ _ _ _ _ E). unfold rest. cbn [exec_ops exec_op]. rewrite E1.
    cbn [mbind go_bind]. rewrite E2. cbn [mbind go_bind]. unfold Put. rewrite E3. done.
Qed.
End Run.


(** ** Concrete runs *)

(** [roomy] for a given list of entries, by computation. *)
Fixpoint words (n : nat) (U : list LogEntry) : list (list LogEntry) :=
  match n with
  | O => [[]]
  | S n => [] :: flat_map (fun x => map (cons x) (words n U)) U
  end.
Fixpoint sorted_b (es : list LogEntry) : bool :=
  match es with
  | x :: ((y :: _) as es) => if bltb x.(Key) y.(Key) then sorted_b es else false
  | _ => true
  end.
Definition small_b (es : list LogEntry) : bool :=
  if negb (sorted_b es) then true
  else (Z.of_nat (Sst.nblk es) <? 2 ^ 32) &&
  match Sst.sst_contents demo_m demo_k map_to_list es with
  | Ret (f, _, _) => len f <? 2 ^ 63
  | Panic => true
  end.

Lemma words_ok n U es : es ⊆ U -> (length es <= n)%nat -> es ∈ words n U.
Proof.
  revert es. induction n as [|n IH]; intros [|x es] Hsub Hl; simpl in *; try lia; [set_solver|set_solver|].
  apply elem_of_cons. right. apply list_elem_of_In, List.in_flat_map. exists x.
  split; [apply list_elem_of_In; set_solver|]. apply List.in_map, list_elem_of_In, IH; [set_solver|lia].
Qed.

Lemma ascending_NoDup es : ascending es -> NoDup es.
Proof.
  induction 1 as [|x es Hs IH Hf]; constructor; [|done]. intros Hx. rewrite Forall_forall in Hf.
  by apply (blt_irrefl (Key x)), (Hf x Hx).
Qed.

Lemma sorted_b_ok es : ascending es -> sorted_b es = true.
Proof.
  induction 1 as [|x es Hs IH Hf]; [done|]. destruct es as [|y es]; [done|]. apply Forall_cons in Hf as [Hf _].
  apply bltb_lt in Hf. cbn [sorted_b]. by rewrite Hf.
Qed.

Lemma roomy_check U : forallb small_b (words (length U) U) = true -> roomy demo_m demo_k map_to_list U.
Proof.
  intros H es Ha Hsub. rewrite forallb_forall in H.
  assert (length es <= length U)%nat as Hl
    by (apply submseteq_length, NoDup_submseteq; [by apply ascending_NoDup|done]).
  specialize (H es ltac:(by apply list_elem_of_In, words_ok)). unfold small_b in H.
  rewrite sorted_b_ok in H by done. cbn [negb] in H. apply andb_true_iff in H as [H1 H2].
  split; [by apply Z.ltb_lt|]. intros f bi pb E. rewrite E in H2. by apply Z.ltb_lt.
Qed.

#[local] Existing Instance Skip.skip_table.

Definition demo_put (k v : bytes) : op := OPut k (Some v) [true].
Definition demo_now (c j : Z) : Z := c + j.
Definition demo_compact (c : Z) : op := OCompact (fun _ => true) (demo_now c) (fun _ => Written).
Definition demo_opts : Options := MkOptions 100 1 3 4096 4.

Definition demo_ops : list op :=
  [demo_put (str "a") (str "1"); OFlush 1 Written; demo_put (str "a") (str "2"); demo_put (str "c") (str "3");
   OFlush 2 (Failed None false); OGet (str "a"); OFlush 3 Written; demo_compact 4; OGet (str "a")].

Lemma demo_run_hyps ops : forallb small_b (words (length (written ops)) (written ops)) = true ->
  Forall Sst.entry_fits (written ops) -> total_bytes (written ops) < 2 ^ 63 -> timed 0 ops ->
  run_hyps demo_m demo_k map_to_list ops.
Proof. intros H1 H2 H3 H4. constructor; [by apply roomy_check|done|done|done]. Qed.

Ltac demo_run :=
  apply demo_run_hyps;
    [vm_compute; reflexivity|repeat (constructor; [vm_compute; split; reflexivity|]); constructor|vm_compute; reflexivity|
     cbn; unfold demo_now; split_and!; try done; intros; lia].

Lemma demo_ops_hyps : run_hyps demo_m demo_k map_to_list demo_ops.
Proof. demo_run. Qed.

Lemma engine_refines_map_witness :
  exists (e : Engine (T := Skip.SkipList)) answers,
    exec_ops demo_m demo_k map_to_list (NewEngine demo_opts ∅) demo_ops = Ret (e, answers) /\
    spec_run 3 (fun _ => None) demo_ops answers /\ 0 <= InflightBytes e <= total_bytes (written demo_ops).
Proof.
  destruct demo_sizing as (Hm & Hk & Ho).
  exact (engine_refines_map demo_m demo_k map_to_list Hm Hk Ho demo_opts demo_ops demo_ops_hyps).
Defined.

(** A run for the scan, snapshot and retention theorems: "a" deleted after its
    value reached an SSTable, "b" on disk, "c" in memory. *)
Definition demo_ops2 : list op :=
  [demo_put (str "a") (str "1"); demo_put (str "b") (str "1"); OFlush 1 Written;
   ODelete (str "a") [true]; demo_put (str "c") (str "3")].
Definition demo_opts2 : Options := MkOptions 100 2 0 4096 4.

Lemma demo_ops2_hyps : run_hyps demo_m demo_k map_to_list demo_ops2.
Proof. demo_run. Qed.
Lemma demo_ops2_plain : Forall plain_entry (written demo_ops2).
Proof. repeat (constructor; [split; discriminate|]). constructor. Qed.

Lemma demo_ops2_run : exists (e : Engine (T := Skip.SkipList)) answers,
  exec_ops demo_m demo_k map_to_list (NewEngine demo_opts2 ∅) demo_ops2 = Ret (e, answers).
Proof.
  destruct demo_sizing as (Hm & Hk & Ho).
  destruct (run_state demo_m demo_k map_to_list Hm Hk Ho demo_opts2 demo_ops2 demo_ops2_hyps) as (e & l & _ & _ & _ & _ & E & _).
  by exists e, l.
Qed.

Lemma engine_scan_exact_witness :
  exists (e e' : Engine (T := Skip.SkipList)) answers l, ScanRange e (str "a") [] = Ret (e', l) /\
    forall k v, (k, v) ∈ l <-> in_range (str "a") [] k = true /\ final (fun _ => None) demo_ops2 answers k = Some v.
Proof.
  destruct demo_sizing as (Hm & Hk & Ho). destruct demo_ops2_run as (e & answers & E).
  destruct (engine_scan_exact demo_m demo_k map_to_list Hm Hk Ho demo_opts2 demo_ops2 e answers (str "a") []
    demo_ops2_hyps demo_ops2_plain E) as (e' & l & H1 & _ & H2).
  exists e, e', answers, l. split; [exact H1|exact H2].
Defined.

Lemma snapshot_covers_memory_witness :
  exists (e : Engine (T := Skip.SkipList)) es, SnapshotLive e = Ret es /\ ascending es.
Proof.
  destruct demo_sizing as (Hm & Hk & Ho). destruct demo_ops2_run as (e & answers & E).
  destruct (snapshot_covers_memory demo_m demo_k map_to_list Hm Hk Ho demo_opts2 demo_ops2 e answers
    demo_ops2_hyps demo_ops2_plain E) as (es & H1 & H2 & _).
  exists e, es. split; [exact H1|exact H2].
Defined.

Lemma reclaim_keeps_undelivered_witness :
  exists (e e' : Engine (T := Skip.SkipList)) n, ReclaimUpTo e (fun _ => true) (str "c") = (e', n) /\
    n = len e.(sst).(metas) - len e'.(sst).(metas).
Proof.
  destruct demo_sizing as (Hm & Hk & Ho). destruct demo_ops2_run as (e & answers & E).
  destruct (reclaim_keeps_undelivered demo_m demo_k map_to_list Hm Hk Ho demo_opts2 demo_ops2 e answers
    (fun _ => true) (str "c") demo_ops2_hyps ltac:(discriminate) E) as (e' & n & H1 & _ & H2 & _).
  exists e, e', n. split; [exact H1|exact H2].
Defined.

Lemma flushes_unblock_writer_witness :
  exists (e : Engine (T := Skip.SkipList)) answers,
    exec_ops demo_m demo_k map_to_list (NewEngine demo_opts ∅)
      ([demo_put (str "a") (str "1")] ++ [OFlush 1 Written; OFlush 2 Written; OPut (str "b") (Some (str "2222")) [true]]) =
    Ret (e, answers ++ [ADone; ADone; ADone]).
Proof.
  destruct demo_sizing as (Hm & Hk & Ho).
  apply (flushes_unblock_writer demo_m demo_k map_to_list Hm Hk Ho demo_opts
           [demo_put (str "a") (str "1")] 1 2 (str "b") (Some (str "2222")) [true]).
  demo_run.
Defined.

(** ** Where the level invariant fails *)

(** A failed level-1 merge leaves two files at level 1; the next pass merges
    them although a newer level-0 file exists. *)
Definition failing_pass (c : Z) : op :=
  OCompact (fun _ => true) (demo_now c) (fun l => if l =? 1 then Failed None false else Written).
Definition stale_ops : list op :=
  [demo_put (str "a") (str "1"); OFlush 1 Written; demo_put (str "b") (str "1"); OFlush 2 Written; demo_compact 10;
   demo_put (str "a") (str "2"); OFlush 30 Written; demo_put (str "b") (str "2"); OFlush 31 Written; failing_pass 40;
   demo_put (str "a") (str "3"); OFlush 60 Written; demo_compact 70; OGet (str "a")].

Definition last_answer {T} (r : go (Engine (T := T) * list answer)) : option answer :=
  match r with Ret (_, l) => last l | Panic => None end.

(** One failed merge above level 0 breaks newest-wins.  With the threshold
    at 2, "a" is written three times with flushes and compaction passes in
    between, one level-1 merge failing (say, disk full); every write is
    acknowledged, yet the final read returns the second value: the level-1
    files were merged into a file listed after the level-0 file that holds the
    third. *)
Theorem failed_merge_returns_stale_value :
  last_answer (exec_ops (T := Skip.SkipList) demo_m demo_k map_to_list (NewEngine demo_opts2 ∅) stale_ops) =
  Some (AValue (Ok (str "2"))).
Proof. vm_compute. reflexivity. Qed.

(** A flush that completes while a level-0 merge runs: the files are listed,
    the flush adds its file, then the merge adds its own after it. *)
Definition racing_pass (e : Engine (T := Skip.SkipList)) : go (Engine (T := Skip.SkipList)) :=
  let files := LevelFiles e.(sst) 0 in
  e ← Flush demo_m demo_k map_to_list e 20 Written;
  '(ss, newMeta) ← MergeSSTable demo_m demo_k map_to_list e.(sst) 21 files 1 Written;
  Ret (set_sst (delete_tables (fun _ => true) ss files) e).
Definition race_ops : list op :=
  [demo_put (str "a") (str "1"); OFlush 1 Written; demo_put (str "b") (str "1"); OFlush 2 Written;
   demo_put (str "a") (str "2")].

(** Compaction does not exclude flushes ([fileMu] is not taken by
    [Flush]): when a flush completes between the listing of level 0 and the
    registration of the merged file, the merged file is listed after the flushed
    one, and reads return the older value of every key in both. *)
Theorem flush_during_merge_returns_stale_value :
  match exec_ops demo_m demo_k map_to_list (NewEngine demo_opts2 ∅) race_ops with
  | Ret (e, _) => match racing_pass e with
                  | Ret e => match Get e (str "a") with Ret (_, r) => Some r | Panic => None end
                  | Panic => None
                  end
  | Panic => None
  end = Some (Ok (str "1")).
Proof. vm_compute. reflexivity. Qed.

(** Retention can bring a deleted key back: the file with the tombstone
    may be reclaimed while an older file, whose range reaches past the bound,
    still holds the deleted value.  Here "a" is deleted and reads as absent;
    after reclaiming up to "b" it reads as "1". *)
Theorem reclaim_revives_deleted_key :
  match exec_ops (T := Skip.SkipList) demo_m demo_k map_to_list (NewEngine demo_opts2 ∅)
          [demo_put (str "a") (str "1"); demo_put (str "b") (str "1"); OFlush 1 Written;
           ODelete (str "a") [true]; OFlush 2 Written] with
  | Ret (e, _) =>
      match Get e (str "a"), Get (ReclaimUpTo e (fun _ => true) (str "b")).1 (str "a") with
      | Ret (_, r1), Ret (_, r2) => Some (r1, r2)
      | _, _ => None
      end
  | Panic => None
  end = Some (Err ErrKeyNotFound, Ok (str "1")).
Proof. vm_compute. reflexivity. Qed.

(** An empty value is a value to reads and a tombstone to scans and
    snapshots: copying it with [append([]byte(nil), v...)] makes it [nil].  After
    writing an empty value a read returns it, while a scan of everything reports
    nothing and the snapshot taken for a checkpoint records a deletion. *)
Theorem empty_value_lost_by_copies :
  match Put (T := Skip.SkipList) (NewEngine demo_opts2 ∅) [true] (str "a") (Some []) with
  | Ret (Wrote e _) =>
      match Get e (str "a"), ScanRange e [] [], SnapshotLive e with
      | Ret (_, r), Ret (_, l), Ret es => Some (r, l, es)
      | _, _, _ => None
      end
  | _ => None
  end = Some (Ok [], [], [MkLogEntry (str "a") None]).
Proof. vm_compute. reflexivity. Qed.

End EngRun.
