(* ===== verification/KVServer.v ===== *)
(** * The standalone key/value server ([service/fsm.go])

    The server in standalone mode: the engine and the write-ahead log, the
    write path (log first, then memory table), checkpoints, start-up replay,
    reads with the fall-back through the [:current] pointer, filtered and raw
    scans, and retention.  A write that waits for credit holds the checkpoint
    lock, so the server is a state machine with three phases: replaying the log
    ([Starting], the bytes not yet read), [Serving], and [Writing] (a record on
    the log whose memory-table write waits for credit).  Raft mode is not part
    of this file. *)
From S2P Require Import Prelude Bytes Entries Temporal Bloom BlockCache SSTFile MergeIter SSTables Credit SkipList.
From S2P Require Import Wal Engine EngineOps EngineRun.
Import Bloom Merge Tables Credit Eng EngOps EngRun.

Module Kv.

(** ** Commands *)
Definition CommandPut : bytes := str "Put".
Definition CommandDelete : bytes := str "Delete".
Record Command := MkCommand { CType : bytes; CKey : bytes; CValue : option bytes }.

(** The log record of a command; any other type writes nothing. *)
Definition record_of (cmd : Command) : option WALRecord :=
  if beqb cmd.(CType) CommandPut then Some (MkRec WALOpPut cmd.(CKey) cmd.(CValue))
  else if beqb cmd.(CType) CommandDelete then Some (MkRec WALOpDelete cmd.(CKey) None)
  else None.

(** [offset.ReservedPrefix] *)
Definition ReservedPrefix : bytes := str "__offset__/".
Definition maxScanResults : Z := 10000.

(** The callback of [Scan] over the entries a range scan yields. *)
Definition internal_key (key : bytes) : bool :=
  match ParseVersionStorageKey key with Some _ => true | None => IsCurrentStorageKey key end.
Fixpoint scan_collect (pred : bytes -> bool) (limit : Z) (out l : list (bytes * bytes)) : list (bytes * bytes) :=
  match l with
  | [] => out
  | (k, v) :: l =>
      if internal_key k then scan_collect pred limit out l
      else if negb (pred v) then scan_collect pred limit out l
      else
        let out := out ++ [(k, v)] in
        if limit <=? len out then out else scan_collect pred limit out l
  end.

Section Server.
Context {T : Type} `{OT : OrderedTable T}.
Context (opt_m : Z -> Z) (opt_k : Z -> Z -> Z) (iter_order : gmap bytes BloomFilter -> list (bytes * BloomFilter)).
(** [config.G.MaxMemTableSize], which the checkpoint interval is computed from. *)
Context (gMaxMemTableSize : Z).

Notation Engine := (Engine (T := T)).

Inductive phase := Starting (unread : bytes) | Serving | Writing (r : WALRecord).

Record KVServer := MkKV { storage : Engine; wal : Wal.log_file; writeCount : Z; at_phase : phase }.

Definition newKVServer (o : Options) (dir : gmap bytes bytes) (walfile : option bytes) : KVServer :=
  MkKV (NewEngine o dir) (Wal.NewWAL walfile) 0 (Starting (default [] walfile)).

Definition set_storage (e : Engine) (p : phase) (k : KVServer) : KVServer :=
  MkKV e k.(wal) k.(writeCount) p.

(** The memory-table half of a record: [None] while it waits for credit. *)
Definition apply_record (draws : list bool) (r : WALRecord) (e : Engine)
    : go (Engine * option (result storage_error unit)) :=
  w ← if r.(ROp) =? WALOpPut then Put e draws r.(RKey) r.(RValue) else Delete e draws r.(RKey);
  Ret match w with Wrote e res => (e, Some res) | Blocked e => (e, None) end.

(** One record of [replayWAL]; an unknown operation is skipped, an error ends
    the replay. *)
Definition replay_step (draws : list bool) (k : KVServer) : go KVServer :=
  match k.(at_phase) with
  | Starting unread =>
      match Wal.read_record unread with
      | None => Ret (set_storage k.(storage) Serving k)
      | Some (r, rest) =>
          if (r.(ROp) =? WALOpPut) || (r.(ROp) =? WALOpDelete) then
            '(e, res) ← apply_record draws r k.(storage);
            Ret (set_storage e match res with
                               | Some (Ok _) => Starting rest
                               | Some (Err _) => Serving
                               | None => Starting unread
                               end k)
          else Ret (set_storage k.(storage) (Starting rest) k)
      end
  | _ => Ret k
  end.

(** ** Writing *)
Definition checkpoint_record (e : LogEntry) : WALRecord :=
  MkRec match e.(Value) with None => WALOpDelete | Some _ => WALOpPut end e.(Key) e.(Value).

Definition Checkpoint (rw : Wal.rewrite_outcome) (k : KVServer) : go KVServer :=
  live ← SnapshotLive k.(storage);
  Ret (MkKV k.(storage) (Wal.doRewrite rw (map checkpoint_record live) k.(wal)).1 k.(writeCount) k.(at_phase)).

Definition checkpointInterval : Z := s64 (2 * gMaxMemTableSize).

Definition maybeCheckpoint (rw : Wal.rewrite_outcome) (k : KVServer) : go KVServer :=
  if checkpointInterval <=? 0 then Ret k
  else
    let n := s64 (k.(writeCount) + 1) in
    let k := MkKV k.(storage) k.(wal) n k.(at_phase) in
    if Z.rem n checkpointInterval =? 0 then Checkpoint rw k else Ret k.

(** What the caller of [Write] gets; [Pending] while it waits for credit. *)
Inductive write_answer := Done | WalError | StorageError (e : storage_error) | Pending.

(** The part of a write after its log record, run again when credit returns. *)
Definition finish_write (draws : list bool) (rw : Wal.rewrite_outcome) (r : WALRecord) (k : KVServer)
    : go (KVServer * write_answer) :=
  '(e, res) ← apply_record draws r k.(storage);
  match res with
  | None => Ret (set_storage e (Writing r) k, Pending)
  | Some (Err err) => Ret (set_storage e Serving k, StorageError err)
  | Some (Ok _) => k ← maybeCheckpoint rw (set_storage e Serving k); Ret (k, Done)
  end.

(** [writeStandalone]: [out] and [sync_ok] are the outcomes of the log's write
    and sync.  One writer at a time; the code lets writers overlap under
    [cpMu.RLock]. *)
Definition writeStandalone (cmd : Command) (draws : list bool) (out : option nat) (sync_ok : bool)
    (rw : Wal.rewrite_outcome) (k : KVServer) : go (KVServer * write_answer) :=
  match record_of cmd with
  | None => k ← maybeCheckpoint rw k; Ret (k, Done)
  | Some r =>
      let '(log, ok) := Wal.commit [out] sync_ok [r] k.(wal) in
      let k := MkKV k.(storage) log k.(writeCount) k.(at_phase) in
      if ok : bool then finish_write draws rw r k else Ret (k, WalError)
  end.

Definition resume_write (draws : list bool) (rw : Wal.rewrite_outcome) (k : KVServer)
    : go (KVServer * write_answer) :=
  match k.(at_phase) with
  | Writing r => finish_write draws rw r k
  | _ => Ret (k, Done)
  end.

Definition ReclaimDelivered (removed : SSTableMeta -> bool) (bound : bytes) (k : KVServer) : KVServer * Z :=
  match bound with
  | [] => (k, 0)
  | _ =>
      let bound := if bltb ReservedPrefix bound then ReservedPrefix else bound in
      let '(e, n) := ReclaimUpTo k.(storage) removed bound in
      (set_storage e k.(at_phase) k, n)
  end.

(** ** Reading *)
Definition getViaCurrentPointer (e : Engine) (key : bytes) : go (Engine * result storage_error bytes) :=
  '(e, r) ← Get e (CurrentStorageKey key);
  match r with
  | Err _ => Ret (e, Err ErrKeyNotFound)
  | Ok curRaw =>
      cur ← DecodeCurrentValue curRaw;
      match cur with
      | None => Ret (e, Err ErrKeyNotFound)
      | Some cur =>
          '(e, r) ← Get e (VersionStorageKey key cur.(CurSeq));
          match r with
          | Err _ => Ret (e, Err ErrKeyNotFound)
          | Ok verRaw =>
              rec ← DecodeVersionRecord verRaw;
              Ret (e, match rec with None => Err ErrKeyNotFound | Some rec => Ok rec.(Payload) end)
          end
      end
  end.

Definition KVGet (key : bytes) (k : KVServer) : go (KVServer * result storage_error bytes) :=
  '(e, r) ← Get k.(storage) key;
  '(e, r) ← match r with
            | Ok v => Ret (e, Ok v)
            | Err ErrKeyNotFound => getViaCurrentPointer e key
            | Err err => Ret (e, Err err)
            end;
  Ret (set_storage e k.(at_phase) k, r).

Definition Scan (start stop : bytes) (pred : bytes -> bool) (limit : Z) (k : KVServer)
    : go (KVServer * list (bytes * bytes)) :=
  let limit := if (limit <=? 0) || (maxScanResults <? limit) then maxScanResults else limit in
  '(e, l) ← ScanRange k.(storage) start stop;
  Ret (set_storage e k.(at_phase) k, scan_collect pred limit [] l).

Definition ScanRaw (start stop : bytes) (k : KVServer) : go (KVServer * list (bytes * bytes)) :=
  '(e, l) ← ScanRange k.(storage) start stop;
  Ret (set_storage e k.(at_phase) k, l).

End Server.
End Kv.
