(* ===== verification/KVRun.v ===== *)
(** * Crash recovery of the standalone server

    The server as a transition system: client writes, credit returning to a
    waiting write, background flush and compaction turns, checkpoints, crashes
    and restarts, log replay.  The ghost history lists the committed writes in
    commit order.  The invariant: the log replayed over the SSTables, and what
    is still to be replayed over the readers' view, both give the last committed
    write of every key. *)
From S2P Require Import Prelude Bytes Entries Temporal Bloom BlockCache SSTFile MergeIter SSTables Credit SkipList.
From S2P Require Import Wal Engine EngineOps EngineRun KVServer.
Import Bloom Merge Tables Credit Eng EngOps EngRun Kv.

Module KvRun.

(** ** Histories *)
Definition entry_of (r : WALRecord) : LogEntry :=
  MkLogEntry r.(RKey) (if r.(ROp) =? WALOpPut then r.(RValue) else None).

(** The last write of a key in [es], else [base]. *)
Definition over (es : list LogEntry) (base : option (option bytes)) (k : bytes) : option (option bytes) :=
  match find_key k (rev es) with Some v => Some v | None => base end.

Lemma over_snoc es e base k :
  over (es ++ [e]) base k = if beqb e.(Key) k then Some e.(Value) else over es base k.
Proof. unfold over. rewrite rev_app_distr. simpl. by destruct (beqb (Key e) k). Qed.

Lemma over_cons e es base k :
  over (e :: es) base k = over es (if beqb e.(Key) k then Some e.(Value) else base) k.
Proof.
  unfold over. simpl. rewrite find_key_app. destruct (find_key k (rev es)); [done|]. simpl.
  by destruct (beqb (Key e) k).
Qed.

Lemma over_app a b base k : over (a ++ b) base k = over b (over a base k) k.
Proof. unfold over. rewrite rev_app_distr, find_key_app. by destruct (find_key k (rev b)). Qed.

Lemma over_none es k v : find_key k (rev es) = None -> over es v k = v.
Proof. unfold over. by intros ->. Qed.

Lemma elem_of_rev {A} (x : A) l : x ∈ rev l <-> x ∈ l.
Proof. rewrite !list_elem_of_In. symmetry. apply in_rev. Qed.

Lemma find_key_rev_none k es : find_key k (rev es) = None <-> find_key k es = None.
Proof. rewrite !find_key_None. setoid_rewrite elem_of_rev. done. Qed.

Lemma find_key_rev_asc k es : ascending es -> find_key k (rev es) = find_key k es.
Proof.
  intros Ha. destruct (find_key k es) as [v|] eqn:E; [|by apply find_key_rev_none].
  destruct (find_key k (rev es)) as [v'|] eqn:E'; [|apply (proj1 (find_key_rev_none k es)) in E'; congruence].
  apply find_key_Some_in in E'. rewrite elem_of_rev in E'.
  apply (find_key_in _ _ _ Ha) in E'. congruence.
Qed.

(** ** Reads of the engine under the server *)
Section Reads.
Context {T : Type} `{OT : OrderedTable T}.
Implicit Type k : KVServer (T := T).

(** What a read of a map with tombstones returns: the literal key, else the
    version the [:current] pointer names. *)
Definition kv_read (m : bytes -> option (option bytes)) (key : bytes) : go (result storage_error bytes) :=
  match mjoin (m key) with
  | Some v => Ret (Ok v)
  | None =>
      match mjoin (m (CurrentStorageKey key)) with
      | None => Ret (Err ErrKeyNotFound)
      | Some curRaw =>
          cur ← DecodeCurrentValue curRaw;
          match cur with
          | None => Ret (Err ErrKeyNotFound)
          | Some cur =>
              match mjoin (m (VersionStorageKey key cur.(CurSeq))) with
              | None => Ret (Err ErrKeyNotFound)
              | Some verRaw =>
                  rec ← DecodeVersionRecord verRaw;
                  Ret match rec with None => Err ErrKeyNotFound | Some rec => Ok rec.(Payload) end
              end
          end
      end
  end.

Lemma get_result_join v : get_result v = match mjoin v with Some b => Ok b | None => Err ErrKeyNotFound end.
Proof. by destruct v as [[b|]|]. Qed.

Lemma KVGet_ok k am dm tabs m key : engine_ok k.(storage) am dm tabs -> (forall key, view am dm tabs key = m key) ->
  exists ss r, KVGet key k = Ret (set_storage (set_sst ss k.(storage)) k.(at_phase) k, r) /\
    kv_read m key = Ret r /\ store_ok ss tabs /\ ss.(disk) = k.(storage).(sst).(disk).
Proof.
  intros He Hv. unfold KVGet, kv_read.
  assert (Hget : forall ss key', store_ok ss tabs -> exists ss', store_ok ss' tabs /\ ss'.(disk) = ss.(disk) /\
    Get (set_sst ss k.(storage)) key' = Ret (set_sst ss' k.(storage),
      match mjoin (m key') with Some b => Ok b | None => Err ErrKeyNotFound end)).
  { intros ss key' Hs. destruct (Get_ok (set_sst ss (storage k)) am dm tabs key') as (ss' & E & Hs' & Hd'); [by eapply set_sst_ok|].
    exists ss'. split_and!; [done|done|]. by rewrite E, Hv, get_result_join. }
  destruct (Get_ok (storage k) am dm tabs key He) as (s1 & -> & Hs1 & Hd1). cbn [mbind go_bind].
  rewrite Hv, get_result_join. destruct (mjoin (m key)) as [v|].
  { cbn [mbind go_bind]. do 2 eexists. split_and!; [done|done|done|congruence]. }
  unfold getViaCurrentPointer. destruct (Hget s1 (CurrentStorageKey key) Hs1) as (s2 & Hs2 & Hd2 & ->). cbn [mbind go_bind].
  destruct (mjoin (m (CurrentStorageKey key))) as [raw|].
  2: { cbn [mbind go_bind]. do 2 eexists. split_and!; [done|done|done|congruence]. }
  destruct (DecodeCurrentValue_safe raw) as [cur ->]. cbn [mbind go_bind]. destruct cur as [cur|].
  2: { cbn [mbind go_bind]. do 2 eexists. split_and!; [done|done|done|congruence]. }
  destruct (Hget s2 (VersionStorageKey key (CurSeq cur)) Hs2) as (s3 & Hs3 & Hd3 & ->). cbn [mbind go_bind].
  destruct (mjoin (m (VersionStorageKey key (CurSeq cur)))) as [vraw|].
  2: { cbn [mbind go_bind]. do 2 eexists. split_and!; [done|done|done|congruence]. }
  destruct (DecodeVersionRecord_safe vraw) as [rec ->]. cbn [mbind go_bind].
  do 2 eexists. split_and!; [done|done|done|congruence].
Qed.

End Reads.

Section KvRun.
Context {T : Type} `{OT : OrderedTable T}.
Context (opt_m : Z -> Z) (opt_k : Z -> Z -> Z) (iter_order : gmap bytes BloomFilter -> list (bytes * BloomFilter)).
Context (gMaxMemTableSize : Z).
(** The options the process is always started with, and the entries it handles. *)
Context (o : Options) (U : list LogEntry).

Notation KVServer := (KVServer (T := T)).
Implicit Type k : KVServer.

(** A record the server may log. *)
Definition rec_good (r : WALRecord) : Prop :=
  (r.(ROp) = WALOpPut \/ r.(ROp) = WALOpDelete /\ r.(RValue) = None) /\ entry_of r ∈ U.

(** State of the system: the process, the committed history, the clock. *)
Notation state := (KVServer * list LogEntry * Z)%type.

(** Turns of the background workers, and of the replay at start-up. *)
Inductive bstep : state -> state -> Prop :=
| b_replay k h c draws k' : replay_step draws k = Ret k' -> bstep (k, h, c) (k', h, c)
| b_flush k h c now wr e : c <= now < 2 ^ 63 -> clean_result wr ->
    Flush opt_m opt_k iter_order (take_flush_signal k.(storage)) now wr = Ret e ->
    bstep (k, h, c) (set_storage e k.(at_phase) k, h, now + 1)
| b_compact k h c now wr e : c <= now 0 -> (forall j, 0 <= j -> now j < now (j + 1)) -> now 10 <= 2 ^ 63 ->
    clean_result (wr 0) -> (forall j, 1 <= j -> wr j = Written) ->
    CompactSSTable opt_m opt_k iter_order k.(storage) 0 (fun _ => true) now wr = Ret e ->
    bstep (k, h, c) (set_storage e k.(at_phase) k, h, now 10).

(** Rewrites that either replace the log or leave it. *)
Definition safe_rewrite (rw : Wal.rewrite_outcome) : Prop := rw = Wal.TmpFails \/ rw = Wal.RewriteOk.

(** All steps: a write whose log record commits enters the history, one whose
    record is refused before a byte is written does not; a process may die at
    any point and restart on what is on disk. *)
Inductive kstep : state -> state -> Prop :=
| k_bg s s' : bstep s s' -> kstep s s'
| k_write k h c cmd r draws rw k' a : k.(at_phase) = Serving -> record_of cmd = Some r -> rec_good r ->
    safe_rewrite rw -> total_bytes (h ++ [entry_of r]) < 2 ^ 63 ->
    writeStandalone gMaxMemTableSize cmd draws None true rw k = Ret (k', a) ->
    kstep (k, h, c) (k', h ++ [entry_of r], c)
| k_refused k h c cmd r draws sync_ok rw k' a : k.(at_phase) = Serving -> record_of cmd = Some r ->
    writeStandalone gMaxMemTableSize cmd draws (Some 0%nat) sync_ok rw k = Ret (k', a) ->
    kstep (k, h, c) (k', h, c)
| k_resume k h c draws rw k' a : safe_rewrite rw ->
    resume_write gMaxMemTableSize draws rw k = Ret (k', a) -> kstep (k, h, c) (k', h, c)
| k_checkpoint k h c rw k' : k.(at_phase) = Serving -> safe_rewrite rw ->
    Checkpoint rw k = Ret k' -> kstep (k, h, c) (k', h, c)
| k_get k h c key k' r : KVGet key k = Ret (k', r) -> kstep (k, h, c) (k', h, c)
| k_scan k h c lo hi k' l : ScanRaw lo hi k = Ret (k', l) -> kstep (k, h, c) (k', h, c)
| k_crash k h c f : Wal.crash_image k.(wal) f ->
    kstep (k, h, c) (newKVServer o k.(storage).(sst).(disk) (Some f), h, c).

(** ** Invariant *)
Record kv_inv (k : KVServer) (h : list LogEntry) (c : Z) (t : bytes)
    (rs todo : list WALRecord) (am dm : list LogEntry) (tabs : list table) : Prop := {
  ki_run : run_ok U c o.(MaxInflightBytes) k.(storage) am dm tabs;
  ki_tidy : tidy k.(storage).(sst);
  ki_opts : k.(storage).(opts) = withDefaults o;
  ki_content : k.(wal).(Wal.content) = Wal.encode_all rs ++ t;
  ki_log : k.(wal).(Wal.opened) = true /\ k.(wal).(Wal.stable) = length k.(wal).(Wal.content) /\ k.(wal).(Wal.stale) = [];
  ki_torn : Wal.read_record t = None;
  ki_recs : Forall rec_good rs;
  ki_suffix : exists done, rs = done ++ todo;
  ki_phase : match k.(at_phase) with
             | Starting unread => unread = Wal.encode_all todo ++ t
             | Serving => todo = []
             | Writing r => todo = [r]
             end;
  ki_keys : forall key, find_key key (map entry_of rs) = None -> find_key key am = None /\ find_key key dm = None;
  ki_disk : forall key, over (map entry_of rs) (newest key (map snd tabs)) key = find_key key (rev h);
  ki_mem : forall key, over (map entry_of todo) (view am dm tabs key) key = find_key key (rev h);
  ki_bytes : total_bytes am + total_bytes dm + total_bytes (map entry_of todo) <= total_bytes h;
  ki_logged : total_bytes (map entry_of rs) <= total_bytes h;
  ki_range : total_bytes h < 2 ^ 63 }.

Context (Hm : forall n, opt_m n < 2 ^ 64 - 63) (Hk : forall m n, opt_k m n < 2 ^ 64).
Context (Hord : forall ps, iter_order ps ≡ₚ map_to_list ps).
Context (HU : roomy opt_m opt_k iter_order U) (HF : Forall Sst.entry_fits U) (HP : Forall plain_entry U).

(** ** Records survive the log *)
Lemma rec_good_ok r : rec_good r -> Wal.rec_ok r /\ Wal.norm r = r.
Proof.
  intros [Hop Hin]. rewrite Forall_forall in HF, HP. destruct (HF _ Hin) as [Hkl Hvl]. destruct (HP _ Hin) as [_ Hv].
  destruct r as [op key v]. unfold entry_of, Wal.rec_ok, Wal.norm in *. cbn [ROp RKey RValue Key Value] in *.
  destruct Hop as [->|[-> ->]].
  - cbn in Hkl, Hvl, Hv. split; [split_and!; [done|done|done|lia]|]. by destruct v as [[|]|].
  - split; [split_and!; done|done].
Qed.

Lemma good_all rs : Forall rec_good rs -> Forall Wal.rec_ok rs.
Proof. intros H. eapply Forall_impl; [exact H|]. intros r Hr. by apply rec_good_ok. Qed.

Lemma read_good r todo t : rec_good r ->
  Wal.read_record (Wal.encode_all (r :: todo) ++ t) = Some (r, Wal.encode_all todo ++ t).
Proof.
  intros Hr. destruct (rec_good_ok r Hr) as [H1 H2].
  rewrite Wal.encode_all_cons, <- app_assoc, Wal.read_encode by done. by rewrite H2.
Qed.

Lemma entry_value r : rec_good r ->
  (if r.(ROp) =? WALOpPut then RValue r else None) = Value (entry_of r) /\ (r.(ROp) =? WALOpPut) || (r.(ROp) =? WALOpDelete) = true.
Proof. intros [[H|[H _]] _]; unfold entry_of; simpl; rewrite H; done. Qed.

(** ** Applying one logged record to the engine *)
Lemma apply_record_ok c b e am dm tabs draws r : run_ok U c b e am dm tabs -> rec_good r ->
  total_bytes am + total_bytes dm + entry_bytes (entry_of r) < 2 ^ 63 ->
  exists e', (apply_record draws r e = Ret (e', None) /\ run_ok U c b e' am dm tabs /\ e'.(sst) = e.(sst) /\ e'.(opts) = e.(opts) /\
              (am ++ dm <> [] /\ 0 < b) \/
              apply_record draws r e = Ret (e', Some (Ok tt)) /\ e'.(sst) = e.(sst) /\ e'.(opts) = e.(opts) /\
              let am' := put_key (entry_of r).(Key) (entry_of r).(Value) am in
              run_ok U c b e' am' dm tabs /\
              total_bytes am' <= total_bytes am + entry_bytes (entry_of r)).
Proof.
  intros Hr Hg Hlt. pose proof Hr as [He Hl Hmx Hc Hp Ht Ha Hd Hb].
  assert (apply_record draws r e = (w ← write e draws (Key (entry_of r)) (Value (entry_of r));
            Ret match w with Wrote e res => (e, Some res) | Blocked e => (e, None) end)) as ->.
  { unfold apply_record, Put, Delete. destruct (entry_value r Hg) as [Hv _]. rewrite <- Hv.
    by destruct (ROp r =? WALOpPut). }
  destruct Hg as [_ Hin]. destruct (entry_of r) as [key v] eqn:Ee. unfold entry_bytes in *. cbn [Key Value] in *.
  destruct (write_ok e am dm tabs draws key v He) as [[-> F]|(e' & -> & He' & Hs & Ho & Hbu & _)]; [lia| |].
  - exists (StartFlush e). left. split_and!; [done| |done|done| |].
    + constructor; try done. by apply StartFlush_ok.
    + intros [-> ->]%app_nil. unfold fits in F. rewrite (eo_credit _ _ _ _ He) in F. simpl in F. by rewrite orb_true_r in F.
    + unfold fits in F. rewrite !orb_false_iff in F. lia.
  - exists e'. right. cbv zeta. split_and!; [done|done|done| |].
    + constructor; try done; [by rewrite Ho|by rewrite Ho|by apply put_sub|congruence].
    + rewrite total_bytes_put by by eapply eo_am_asc. destruct (find_key key am) as [[old|]|]; unfold vlen; destruct v; len_lia.
Qed.

(** ** The invariant is kept *)
Notation at_state k h c t := (exists rs todo am dm tabs, kv_inv k h c t rs todo am dm tabs).

(** The engine moves on without touching the tables or what is to be done. *)
Lemma inv_engine k h c t rs todo am dm tabs e : kv_inv k h c t rs todo am dm tabs ->
  run_ok U c o.(MaxInflightBytes) e am dm tabs -> e.(sst) = k.(storage).(sst) -> e.(opts) = k.(storage).(opts) ->
  kv_inv (set_storage e k.(at_phase) k) h c t rs todo am dm tabs.
Proof. intros [] He Es Eo. constructor; simpl; try done; [by rewrite Es|by rewrite Eo]. Qed.

(** The next pending record reaches the memory table. *)
Lemma inv_consume k h c t rs r todo am dm tabs e p : kv_inv k h c t rs (r :: todo) am dm tabs ->
  let am' := put_key (entry_of r).(Key) (entry_of r).(Value) am in
  run_ok U c o.(MaxInflightBytes) e am' dm tabs -> e.(sst) = k.(storage).(sst) -> e.(opts) = k.(storage).(opts) ->
  total_bytes am' <= total_bytes am + entry_bytes (entry_of r) ->
  match p with Starting unread => unread = Wal.encode_all todo ++ t | Serving => todo = [] | Writing r => todo = [r] end ->
  kv_inv (set_storage e p k) h c t rs todo am' dm tabs.
Proof.
  intros [R Td Op Ct Lg Tn Rc [dn Sf] Ph Ky Dk Me By Lo Rg] am' He Es Eo Hle Hp.
  pose proof (eo_am_asc _ _ _ _ (ro_engine _ _ _ _ _ _ _ R)) as Hasc.
  constructor; simpl; try done; [by rewrite Es|by rewrite Eo| | | |].
  - exists (dn ++ [r]). by rewrite <- app_assoc.
  - intros key Hn. destruct (Ky key Hn) as [Ka Kd]. split; [|done]. unfold am'. rewrite find_put_key by done.
    rewrite (proj2 (beqb_neq _ _)); [done|]. intros <-.
    rewrite find_key_None in Hn. apply (Hn (entry_of r)); [|done]. apply list_elem_of_fmap. exists r. split; [done|].
    rewrite Sf. set_solver.
  - intros key. rewrite <- Me. cbn [map]. rewrite over_cons. unfold am'. by rewrite view_put.
  - cbn [map total_bytes fold_right] in By. fold (total_bytes (map entry_of todo)) in By. lia.
Qed.

Lemma inv_apply k h c t rs r todo am dm tabs draws : kv_inv k h c t rs (r :: todo) am dm tabs ->
  exists e res, apply_record draws r k.(storage) = Ret (e, res) /\
    (res = None /\ (am ++ dm <> [] /\ 0 < o.(MaxInflightBytes)) /\ kv_inv (set_storage e k.(at_phase) k) h c t rs (r :: todo) am dm tabs \/
     res = Some (Ok tt) /\ exists am', forall p,
       match p with Starting unread => unread = Wal.encode_all todo ++ t | Serving => todo = [] | Writing r => todo = [r] end ->
       kv_inv (set_storage e p k) h c t rs todo am' dm tabs).
Proof.
  intros H. pose proof H as [R Td Op Ct Lg Tn Rc [dn Sf] Ph Ky Dk Me By Lo Rg].
  assert (rec_good r) as Hg by (rewrite Sf in Rc; apply Forall_app in Rc as [_ Rc]; by apply Forall_cons in Rc as [? _]).
  cbn [map total_bytes fold_right] in By. fold (total_bytes (map entry_of todo)) in By.
  pose proof (total_bytes_nonneg (map entry_of todo)).
  destruct (apply_record_ok c _ (storage k) am dm tabs draws r R Hg) as (e & [(E & R' & Es & Eo & Hne)|(E & Es & Eo & R' & Hle)]); [lia|..].
  - exists e, None. split; [done|]. left. split; [done|]. split; [done|]. by apply inv_engine.
  - exists e, (Some (Ok tt)). split; [done|]. right. split; [done|]. eexists. intros p Hp. by eapply inv_consume.
Qed.

Lemma inv_replay k h c t rs todo am dm tabs draws : kv_inv k h c t rs todo am dm tabs ->
  exists k', replay_step draws k = Ret k' /\ at_state k' h c t.
Proof.
  intros H. unfold replay_step. pose proof (ki_phase _ _ _ _ _ _ _ _ _ H) as Ph.
  destruct (at_phase k) as [unread| |r'] eqn:Ep; [|by exists k; split; [|do 5 eexists]..]. subst unread.
  destruct todo as [|r todo].
  - change (Wal.encode_all []) with (@nil byte). cbn [app]. rewrite (ki_torn _ _ _ _ _ _ _ _ _ H).
    eexists. split; [done|]. exists rs, [], am, dm, tabs. destruct H. constructor; try done.
  - assert (rec_good r) as Hg.
    { destruct H as [_ _ _ _ _ _ Rc [dn Sf] _ _ _ _ _ _ _]. rewrite Sf in Rc. apply Forall_app in Rc as [_ Rc].
      by apply Forall_cons in Rc as [? _]. }
    rewrite read_good by done. rewrite (proj2 (entry_value r Hg)).
    destruct (inv_apply k h c t rs r todo am dm tabs draws H) as (e & res & -> & [(-> & _ & H')|[-> [am' H']]]); cbn [mbind go_bind].
    + eexists. split; [done|]. rewrite Ep in H'. by do 5 eexists.
    + eexists. split; [done|]. do 5 eexists. by apply H'.
Qed.

Lemma over_ext es a b key : a = b \/ find_key key (rev es) <> None -> over es a key = over es b key.
Proof. unfold over. intros [->|H]; [done|]. by destruct (find_key key (rev es)). Qed.

Lemma inv_flush k h c t rs todo am dm tabs now wr : kv_inv k h c t rs todo am dm tabs ->
  c <= now < 2 ^ 63 -> clean_result wr ->
  exists e am' dm' tabs', Flush opt_m opt_k iter_order (take_flush_signal k.(storage)) now wr = Ret e /\
    kv_inv (set_storage e k.(at_phase) k) h (now + 1) t rs todo am' dm' tabs' /\
    (wr = Written -> dm' = [] /\ am' = match dm with [] => [] | _ => am end).
Proof.
  intros [R Td Op Ct Lg Tn Rc Sf Ph Ky Dk Me By Lo Rg] Hnow Hc.
  destruct (run_flush opt_m opt_k iter_order Hm Hk Hord U c _ (storage k) am dm tabs now wr R HU HF Hnow)
    as (e & am' & dm' & tabs' & E & R' & Hle & Hw & Htd & Ho & Hnone & Hview & _).
  exists e, am', dm', tabs'. split; [done|]. split; [|done]. constructor; simpl; try done; [auto|by rewrite Ho| | | |lia].
  - intros key Hn. destruct (Ky key Hn) as [Ka Kd]. by destruct (Hnone key Ka Kd) as (? & ? & _).
  - intros key. rewrite <- Dk. apply over_ext. destruct (find_key key (rev (map entry_of rs))) eqn:F; [by right|left].
    apply (proj1 (find_key_rev_none key _)) in F. destruct (Ky key F) as [Ka Kd]. by destruct (Hnone key Ka Kd) as (_ & _ & ?).
  - intros key. rewrite <- Me. apply over_ext. left. apply Hview.
Qed.

Lemma inv_compact k h c t rs todo am dm tabs now wr : kv_inv k h c t rs todo am dm tabs ->
  c <= now 0 -> (forall j, 0 <= j -> now j < now (j + 1)) -> now 10 <= 2 ^ 63 ->
  clean_result (wr 0) -> (forall j, 1 <= j -> wr j = Written) ->
  exists e tabs', CompactSSTable opt_m opt_k iter_order k.(storage) 0 (fun _ => true) now wr = Ret e /\
    kv_inv (set_storage e k.(at_phase) k) h (now 10) t rs todo am dm tabs'.
Proof.
  intros [R Td Op Ct Lg Tn Rc Sf Ph Ky Dk Me By Lo Rg] Hnow Hinc Hend Hc Hwr.
  destruct (run_compact opt_m opt_k iter_order Hm Hk Hord U c _ (storage k) am dm tabs (fun _ => true) now wr R HU Hnow Hinc Hend Hwr)
    as (e & tabs' & E & R' & Htd & Ho & Hnew).
  exists e, tabs'. split; [done|]. constructor; simpl; try done; [auto|by rewrite Ho| |].
  - intros key. rewrite <- Dk. apply over_ext. left. apply Hnew.
  - intros key. rewrite <- Me. apply over_ext. left. rewrite !view_eq. by rewrite Hnew.
Qed.

(** Committing a record. *)
Lemma inv_commit k h c rs am dm tabs r : kv_inv k h c [] rs [] am dm tabs -> rec_good r ->
  total_bytes (h ++ [entry_of r]) < 2 ^ 63 ->
  exists log, Wal.commit [None] true [r] k.(wal) = (log, true) /\
    kv_inv (MkKV k.(storage) log k.(writeCount) (Writing r)) (h ++ [entry_of r]) c [] (rs ++ [r]) [r] am dm tabs.
Proof.
  intros [R Td Op Ct (L1 & L2 & L3) Tn Rc Sf Ph Ky Dk Me By Lo Rg] Hg Hlt.
  unfold Wal.commit, Wal.write_batch, Wal.writeRecord. cbn [List.hd_error mjoin option_join]. rewrite L1.
  eexists. split; [done|]. rewrite total_bytes_app in *. cbn [map total_bytes fold_right] in *.
  constructor; simpl; try done.
  - rewrite Ct, app_nil_r, Wal.encode_all_app, app_nil_r. f_equal. unfold Wal.encode_all. simpl. by rewrite app_nil_r.
  - apply Forall_app. split; [done|by constructor].
  - by exists rs.
  - intros key. rewrite map_app, find_key_app. destruct (find_key key (map entry_of rs)) eqn:F; [done|]. intros _. by apply Ky.
  - intros key. rewrite map_app. cbn [map]. rewrite over_snoc, rev_app_distr. cbn [rev app find_key]. by rewrite Dk.
  - intros key. rewrite rev_app_distr. unfold over. cbn [rev app find_key]. rewrite <- Me. unfold over. simpl.
    by destruct (beqb (RKey r) key).
  - rewrite total_bytes_app. simpl. lia.
  - rewrite map_app, !total_bytes_app. simpl. lia.
  - rewrite total_bytes_app. simpl. lia.
Qed.

(** ** Checkpoints *)
Lemma total_submseteq a b : a ⊆+ b -> total_bytes a <= total_bytes b.
Proof.
  induction 1 as [|x a b _ IH|x y a|x a b _ IH|a b c _ IH1 _ IH2]; simpl; try lia.
  unfold entry_bytes, vlen. destruct (Value x); len_lia.
Qed.

Lemma snapshot_sub es am dm : ascending es -> (forall key, find_key key es = newest key [dm; am]) -> es ⊆ am ++ dm.
Proof.
  intros Ha Hf [key v] Hx. apply (find_key_in _ _ _ Ha) in Hx. rewrite Hf in Hx.
  apply newest_in in Hx as (src & Hs & Hin). apply find_key_Some_in in Hin. set_solver.
Qed.

Lemma newest_copy am dm key : am ⊆ U -> dm ⊆ U -> copy_value <$> newest key [dm; am] = newest key [dm; am].
Proof.
  intros Ha Hd. destruct (newest key [dm; am]) as [v|] eqn:E; [|done]. simpl. f_equal.
  apply newest_in in E as (src & Hs & Hin). apply find_key_Some_in in Hin.
  assert (MkLogEntry key v ∈ U) as HinU by set_solver. rewrite Forall_forall in HP.
  destruct (HP _ HinU) as [_ Hv]. by destruct v as [[|]|].
Qed.

Lemma checkpoint_good es : es ⊆ U -> Forall rec_good (map checkpoint_record es) /\ map entry_of (map checkpoint_record es) = es.
Proof.
  intros Hsub.
  assert (forall x, entry_of (checkpoint_record x) = x) as He by (by intros [key [v|]]).
  split.
  - apply Forall_forall. intros r (x & -> & Hx)%list_elem_of_fmap. split; [|rewrite He; by apply Hsub].
    destruct x as [key [v|]]; [by left|by right].
  - rewrite map_map. rewrite <- (map_id es) at 2. by apply map_ext.
Qed.

Lemma inv_checkpoint k h c t rs am dm tabs rw : kv_inv k h c t rs [] am dm tabs -> k.(at_phase) = Serving ->
  safe_rewrite rw ->
  exists k' t', Checkpoint rw k = Ret k' /\ k'.(at_phase) = Serving /\ (t = [] -> t' = []) /\ at_state k' h c t'.
Proof.
  intros H Hs Hrw. pose proof H as [R Td Op Ct Lg Tn Rc Sf Ph Ky Dk Me By Lo Rg].
  pose proof R as [He _ _ _ _ _ Ha Hd _]. unfold Checkpoint.
  destruct (SnapshotLive_ok _ am dm tabs He) as (es & -> & Hasc & Hf). cbn [mbind go_bind].
  assert (Hf' : forall key, find_key key es = newest key [dm; am]) by (intros key; rewrite Hf; by apply newest_copy).
  pose proof (snapshot_sub es am dm Hasc Hf') as Hsub.
  destruct (checkpoint_good es) as [Hg Hes]; [set_solver|].
  destruct Hrw as [-> | ->].
  - eexists _, t. split_and!; [done|done|done|]. exists rs, [], am, dm, tabs. destruct H. constructor; try done; simpl; by rewrite ?Hs in *.
  - eexists _, []. split_and!; [done|done|done|]. exists (map checkpoint_record es), [], am, dm, tabs.
    assert (Hnone : forall key, newest key [dm; am] = None -> find_key key am = None /\ find_key key dm = None).
    { intros key. rewrite !newest_cons, newest_nil. by destruct (find_key key am), (find_key key dm). }
    constructor; cbn [Wal.doRewrite fst storage wal at_phase Wal.content Wal.opened Wal.stable Wal.stale]; try done.
    + by rewrite app_nil_r.
    + exists (map checkpoint_record es). by rewrite app_nil_r.
    + by rewrite Hs.
    + rewrite Hes. intros key Hn. apply Hnone. by rewrite <- Hf'.
    + rewrite Hes. intros key. unfold over. rewrite find_key_rev_asc, Hf' by done. rewrite <- Me. simpl.
      rewrite !newest_cons, newest_nil. unfold over. simpl. rewrite view_eq.
      by destruct (find_key key am), (find_key key dm).
    + rewrite Hes. simpl in By. etrans; [|apply Z.le_trans with (total_bytes am + total_bytes dm); [|lia]]; [|reflexivity].
      rewrite <- total_bytes_app. apply total_submseteq. apply NoDup_submseteq; [by apply ascending_NoDup|done].
Qed.

Lemma inv_maybe k h c t rs am dm tabs rw : kv_inv k h c t rs [] am dm tabs -> k.(at_phase) = Serving ->
  safe_rewrite rw ->
  exists k' t', maybeCheckpoint gMaxMemTableSize rw k = Ret k' /\ k'.(at_phase) = Serving /\ (t = [] -> t' = []) /\ at_state k' h c t'.
Proof.
  intros H Hs Hrw. unfold maybeCheckpoint. destruct (_ <=? 0).
  { exists k, t. split_and!; [done|done|done|]. by do 5 eexists. }
  set (k1 := MkKV _ _ _ _).
  assert (kv_inv k1 h c t rs [] am dm tabs) as H1 by (destruct H; by constructor).
  destruct (_ =? 0); [by apply (inv_checkpoint k1 h c t rs am dm tabs)|].
  exists k1, t. split_and!; [done|done|done|]. by do 5 eexists.
Qed.

Lemma inv_finish k h c t rs r am dm tabs draws rw : kv_inv k h c t rs [r] am dm tabs -> k.(at_phase) = Writing r ->
  safe_rewrite rw ->
  exists k' a t', finish_write gMaxMemTableSize draws rw r k = Ret (k', a) /\ (t = [] -> t' = []) /\ at_state k' h c t'.
Proof.
  intros H Hp Hrw. unfold finish_write.
  destruct (inv_apply k h c t rs r [] am dm tabs draws H) as (e & res & -> & [(-> & _ & H')|[-> [am' H']]]); cbn [mbind go_bind].
  - eexists _, _, t. split_and!; [done|done|]. rewrite Hp in H'. by do 5 eexists.
  - specialize (H' Serving eq_refl).
    destruct (inv_maybe _ h c t rs am' dm tabs rw H' eq_refl Hrw) as (k' & t' & -> & _ & Ht & Hst).
    cbn [mbind go_bind]. by do 3 eexists.
Qed.

(** Reads only fill caches. *)
Lemma inv_read k h c t rs todo am dm tabs ss : kv_inv k h c t rs todo am dm tabs -> store_ok ss tabs ->
  ss.(disk) = k.(storage).(sst).(disk) ->
  kv_inv (set_storage (set_sst ss k.(storage)) k.(at_phase) k) h c t rs todo am dm tabs.
Proof.
  intros [R Td Op Ct Lg Tn Rc Sf Ph Ky Dk Me By Lo Rg] Hs Hd. constructor; try done.
  - destruct R as [He Hl Hmx Hc Hp Ht Ha Hdm Hb]. constructor; try done. by eapply set_sst_ok.
  - intros p f Hl. simpl in *. rewrite Hd in Hl. apply Td in Hl.
    rewrite (st_metas _ _ (eo_store _ _ _ _ (ro_engine _ _ _ _ _ _ _ R))) in Hl. by rewrite (st_metas _ _ Hs).
Qed.

Lemma scan_keys k h c t rs todo am dm tabs x : kv_inv k h c t rs todo am dm tabs -> x ∈ am ++ dm -> x.(Key) <> [].
Proof.
  intros H Hx. destruct (ki_run _ _ _ _ _ _ _ _ _ H) as [_ _ _ _ _ _ Ha Hd _]. rewrite Forall_forall in HP.
  apply (HP x). set_solver.
Qed.

(** ** Crash and restart *)

(** The engine of a new process on the directory the old one left. *)
Lemma reopen_ok c e am dm tabs : run_ok U c o.(MaxInflightBytes) e am dm tabs -> tidy e.(sst) -> e.(opts) = withDefaults o ->
  run_ok U c o.(MaxInflightBytes) (NewEngine o e.(sst).(disk)) [] [] tabs /\ tidy (NewEngine (T := T) o e.(sst).(disk)).(sst).
Proof.
  intros [He Hl Hmx Hc Hp Ht Ha Hd Hb] Htd Ho. pose proof (eo_store _ _ _ _ He) as Hs.
  destruct Hc as (tss & Hn & Hsort & Hlt).
  assert (directory_ok (sst e) tabs tss) as Hdir.
  { constructor; [done|done|]. intros p f Hl' _. apply Htd in Hl'. rewrite (st_metas _ _ Hs), map_map in Hl'.
    apply list_elem_of_fmap in Hl' as (x & -> & Hx). by exists x. }
  destruct (reload_ok (sst e) tabs tss (BlockCacheBytes (withDefaults o)) Hs Hdir) as [Em Hs'].
  assert (1 <= SkipListMaxLevel (withDefaults o)) as Hlv
    by (unfold withDefaults; simpl; destruct (Z.leb_spec (SkipListMaxLevel o) 0); lia).
  split.
  - constructor; cbn [NewEngine opts credits active dirty sst]; [| | | |done|done|set_solver|set_solver|done].
    + constructor; try done. eexists. split; [done|]. apply t_new_rep. lia.
    + by rewrite <- Ho.
    + by rewrite <- Ho.
    + by exists tss.
  - intros p f Hl'. cbn [NewEngine sst]. rewrite Em. by apply (Htd p f).
Qed.

(** Restarting on a log that holds [rs'] and an unreadable tail. *)
Lemma inv_restart k h c t t' rs todo am dm tabs : kv_inv k h c t rs todo am dm tabs -> Wal.read_record t' = None ->
  kv_inv (newKVServer o k.(storage).(sst).(disk) (Some (Wal.encode_all rs ++ t'))) h c t' rs rs [] [] tabs.
Proof.
  intros [R Td Op Ct Lg Tn Rc Sf Ph Ky Dk Me By Lo Rg] Ht'.
  destruct (reopen_ok c (storage k) am dm tabs R Td Op) as [R' Td'].
  constructor; cbn [newKVServer storage wal at_phase]; try done.
  - by exists [].
  - intros key. rewrite <- Dk. apply over_ext. left. by rewrite view_eq.
Qed.

Lemma crash_clean w f : w.(Wal.stable) = length w.(Wal.content) -> w.(Wal.stale) = [] -> Wal.crash_image w f ->
  f = w.(Wal.content).
Proof.
  intros E1 E2 (c & k & n & Hin & Hn & ->). rewrite E2 in Hin. apply list_elem_of_singleton in Hin. injection Hin as -> ->.
  apply take_ge. lia.
Qed.

(** ** Every step keeps the invariant *)
Definition good (t : bytes) (s : state) : Prop := at_state s.1.1 s.1.2 s.2 t.

Lemma bstep_good t s s' : good t s -> bstep s s' -> good t s'.
Proof.
  intros (rs & todo & am & dm & tabs & H) Hs. destruct Hs as [k h c draws k' E|k h c now wr e Hn Hc E|k h c now wr e H1 H2 H3 H4 H5 E];
    simpl in *.
  - destruct (inv_replay k h c t rs todo am dm tabs draws H) as (k1 & E1 & G). rewrite E in E1. injection E1 as <-. exact G.
  - destruct (inv_flush k h c t rs todo am dm tabs now wr H Hn Hc) as (e1 & am' & dm' & tabs' & E1 & G & _).
    rewrite E in E1. injection E1 as <-. by do 5 eexists.
  - destruct (inv_compact k h c t rs todo am dm tabs now wr H H1 H2 H3 H4 H5) as (e1 & tabs' & E1 & G).
    rewrite E in E1. injection E1 as <-. by do 5 eexists.
Qed.

Lemma serving_todo k h c t rs todo am dm tabs : kv_inv k h c t rs todo am dm tabs -> k.(at_phase) = Serving -> todo = [].
Proof. intros H E. pose proof (ki_phase _ _ _ _ _ _ _ _ _ H) as Ph. by rewrite E in Ph. Qed.

Lemma refused_commit sy r w : Wal.commit [Some 0%nat] sy [r] w = (w, false).
Proof. destruct w as [c st [] sl]; cbn; [rewrite app_nil_r|]; done. Qed.

Lemma kstep_good s s' : good [] s -> kstep s s' -> good [] s'.
Proof.
  intros G Hs. destruct Hs as [s s' Hs|k h c cmd r draws rw k' a Hp Hr Hg Hrw Hlt E|k h c cmd r draws sy rw k' a Hp Hr E|k h c draws rw k' a Hrw E|k h c rw k' Hp Hrw E|k h c key k' r E|k h c lo hi k' l E|k h c f Hf].
  - by eapply bstep_good.
  - destruct G as (rs & todo & am & dm & tabs & H). simpl in *. pose proof (serving_todo _ _ _ _ _ _ _ _ _ H Hp) as ->.
    unfold writeStandalone in E. rewrite Hr in E.
    destruct (inv_commit k h c rs am dm tabs r H Hg Hlt) as (log & Ec & H1). rewrite Ec in E.
    destruct (inv_finish _ _ c [] _ r am dm tabs draws rw H1 eq_refl Hrw) as (k1 & a1 & t' & E1 & Ht & G).
    change (finish_write gMaxMemTableSize draws rw r (MkKV (storage k) log (writeCount k) (Writing r)) = Ret (k1, a1)) in E1.
    assert (finish_write gMaxMemTableSize draws rw r (MkKV (storage k) log (writeCount k) (at_phase k)) =
            finish_write gMaxMemTableSize draws rw r (MkKV (storage k) log (writeCount k) (Writing r))) as Eq by done.
    rewrite Eq, E1 in E. injection E as <- <-. specialize (Ht eq_refl) as ->. exact G.
  - unfold writeStandalone in E. rewrite Hr in E. rewrite refused_commit in E. injection E as <- <-. by destruct k.
  - unfold resume_write in E. destruct (at_phase k) as [u| |r] eqn:Ep; [by injection E as <- <-..|].
    destruct G as (rs & todo & am & dm & tabs & H). simpl in *. pose proof (ki_phase _ _ _ _ _ _ _ _ _ H) as Ph. rewrite Ep in Ph. subst todo.
    destruct (inv_finish k h c [] rs r am dm tabs draws rw H Ep Hrw) as (k1 & a1 & t' & E1 & Ht & G).
    rewrite E1 in E. injection E as <- <-. specialize (Ht eq_refl) as ->. exact G.
  - destruct G as (rs & todo & am & dm & tabs & H). simpl in *. pose proof (serving_todo _ _ _ _ _ _ _ _ _ H Hp) as ->.
    destruct (inv_checkpoint k h c [] rs am dm tabs rw H Hp Hrw) as (k1 & t' & E1 & _ & Ht & G).
    rewrite E1 in E. injection E as <-. specialize (Ht eq_refl) as ->. exact G.
  - destruct G as (rs & todo & am & dm & tabs & H). simpl in *.
    destruct (KVGet_ok k am dm tabs (view am dm tabs) key (ro_engine _ _ _ _ _ _ _ (ki_run _ _ _ _ _ _ _ _ _ H)) ltac:(done))
      as (ss & r' & E' & _ & Hss & Hdk). rewrite E in E'. injection E' as -> _. do 5 eexists. by eapply inv_read.
  - destruct G as (rs & todo & am & dm & tabs & H). simpl in *. unfold ScanRaw in E.
    destruct (ScanRange_ok (storage k) am dm tabs lo hi (ro_engine _ _ _ _ _ _ _ (ki_run _ _ _ _ _ _ _ _ _ H))
                (fun x => scan_keys _ _ _ _ _ _ _ _ _ x H)) as (ss & es & E' & Hss & Hdk & _).
    rewrite E' in E. injection E as <- _. do 5 eexists. by eapply inv_read.
  - destruct G as (rs & todo & am & dm & tabs & H). simpl in *.
    destruct (ki_log _ _ _ _ _ _ _ _ _ H) as (_ & L2 & L3). rewrite (crash_clean _ _ L2 L3 Hf).
    rewrite (ki_content _ _ _ _ _ _ _ _ _ H). do 5 eexists. by eapply inv_restart.
Qed.

Definition init : state := (newKVServer o ∅ None, [], 0).

Lemma init_good : good [] init.
Proof.
  exists [], [], [], [], []. constructor; simpl; try done; [by apply (new_engine_ok opt_m opt_k iter_order)|by exists []].
Qed.

Lemma reach_good s : rtc kstep init s -> good [] s.
Proof.
  intros H. apply (rtc_ind_r (R := kstep) (good []) init); [apply init_good| |done].
  intros y z _ Hyz Hy. by eapply kstep_good.
Qed.


(** ** Recovery completes *)








(** Without a credit budget no write waits. *)
Lemma serving_write k h c cmd r draws rw : good [] (k, h, c) -> k.(at_phase) = Serving -> o.(MaxInflightBytes) <= 0 ->
  record_of cmd = Some r -> rec_good r -> safe_rewrite rw -> total_bytes (h ++ [entry_of r]) < 2 ^ 63 ->
  exists k', writeStandalone gMaxMemTableSize cmd draws None true rw k = Ret (k', Done) /\ k'.(at_phase) = Serving.
Proof.
  intros (rs & todo & am & dm & tabs & H) Hp Hb Hr Hg Hrw Hlt. simpl in H. pose proof (serving_todo _ _ _ _ _ _ _ _ _ H Hp) as ->.
  unfold writeStandalone. rewrite Hr. destruct (inv_commit k h c rs am dm tabs r H Hg Hlt) as (log & -> & H1).
  unfold finish_write. cbn [storage wal writeCount at_phase].
  destruct (inv_apply _ _ c [] _ r [] am dm tabs draws H1) as (e & res & E & [(_ & [_ C] & _)|[-> [am' H2]]]); [lia|].
  cbn [storage] in E. rewrite E. cbn [mbind go_bind]. specialize (H2 Serving eq_refl).
  destruct (inv_maybe _ _ c [] _ am' dm tabs rw H2 eq_refl Hrw) as (k' & t' & Em & Hs & _).
  exists k'. split; [|done]. unfold set_storage in *. cbn [wal writeCount] in *. by rewrite Em.
Qed.

(** The engine of a serving process, and its view. *)
Lemma serving_engine k h c : rtc kstep init (k, h, c) -> k.(at_phase) = Serving ->
  exists am dm tabs, engine_ok k.(storage) am dm tabs /\ am ⊆ U /\ dm ⊆ U /\
    forall key, view am dm tabs key = find_key key (rev h).
Proof.
  intros Hr Hs. destruct (reach_good _ Hr) as (rs & todo & am & dm & tabs & H). simpl in H.
  pose proof (serving_todo _ _ _ _ _ _ _ _ _ H Hs) as ->. pose proof (ki_run _ _ _ _ _ _ _ _ _ H) as [He _ _ _ _ _ Ha Hd _].
  exists am, dm, tabs. split_and!; [done|done|done|]. intros key. by rewrite <- (ki_mem _ _ _ _ _ _ _ _ _ H).
Qed.

(** Reads of the server.  In every serving state of such a run a read
    returns the last committed value of the literal key; for a key never
    written literally, or deleted, it follows the [:current] pointer to the
    version it names and returns that version's payload; a missing or damaged
    pointer or version reads as not found.  No read panics. *)
Theorem kv_get_committed k h c key :
  rtc kstep init (k, h, c) -> k.(at_phase) = Serving ->
  exists k' r, KVGet key k = Ret (k', r) /\ kv_read (fun key => find_key key (rev h)) key = Ret r.
Proof.
  intros Hr Hs. destruct (serving_engine k h c Hr Hs) as (am & dm & tabs & He & _ & _ & Hv).
  destruct (KVGet_ok k am dm tabs _ key He Hv) as (ss & r & E & Er & _ & _). by do 2 eexists.
Qed.






(** ** Retention *)

(** Retention never reaches the delivery offsets.  Reclaiming up to any
    cursor leaves every key from the cursor on, and every key from the reserved
    offset prefix on, reading as before, even when the cursor sorts after that
    prefix. *)
Theorem kv_reclaim_keeps_offsets k h c removed bound key :
  rtc kstep init (k, h, c) -> k.(at_phase) = Serving -> ble bound key \/ ble ReservedPrefix key ->
  exists e', Get (ReclaimDelivered removed bound k).1.(storage) key = Ret (e', get_result (find_key key (rev h))).
Proof.
  intros Hr Hs Hkey. destruct (serving_engine k h c Hr Hs) as (am & dm & tabs & He & _ & _ & Hv).
  unfold ReclaimDelivered. destruct bound as [|x bound].
  { cbn [fst]. destruct (Get_ok (storage k) am dm tabs key He) as (ss & -> & _). rewrite Hv. by eexists. }
  set (b := if bltb ReservedPrefix (x :: bound) then ReservedPrefix else x :: bound).
  assert (ble b key) as Hb.
  { unfold b. destruct (bltb ReservedPrefix (x :: bound)) eqn:B; bcmp.
    - destruct Hkey as [Hkey|Hkey]; [|done]. apply blt_ble. by eapply blt_ble_trans.
    - destruct Hkey as [Hkey|Hkey]; [done|]. by eapply ble_trans. }
  destruct (ReclaimUpTo_ok (storage k) am dm tabs removed b He) as (e' & -> & He' & _ & _).
  { unfold b. by destruct (bltb ReservedPrefix (x :: bound)). }
  cbn [fst set_storage storage]. destruct (Get_ok e' am dm _ key He') as (ss & -> & _). eexists. do 3 f_equal.
  rewrite <- Hv, !view_eq. by rewrite (newest_retained (sst (storage k))) by (apply He || done).
Qed.
End KvRun.

(** ** A concrete server *)
#[local] Existing Instance Skip.skip_table.

Definition demo_U : list LogEntry :=
  [MkLogEntry (str "a") (Some (str "1")); MkLogEntry (str "b") (Some (str "2"))].
Definition demo_a : WALRecord := MkRec WALOpPut (str "a") (Some (str "1")).
Definition demo_b : WALRecord := MkRec WALOpPut (str "b") (Some (str "2")).

Lemma demo_U_ok : roomy demo_m demo_k map_to_list demo_U /\ Forall Sst.entry_fits demo_U /\ Forall plain_entry demo_U.
Proof.
  split_and!.
  - apply roomy_check. vm_compute. reflexivity.
  - repeat (constructor; [vm_compute; split; reflexivity|]). constructor.
  - repeat (constructor; [split; discriminate|]). constructor.
Qed.

Lemma demo_good : rec_good demo_U demo_a /\ rec_good demo_U demo_b.
Proof. split; (split; [by left|]); [apply elem_of_cons; by left|apply elem_of_cons; right; apply elem_of_cons; by left]. Qed.

(** A server that has committed one write. *)
Lemma demo_server : exists k : KVServer (T := Skip.SkipList),
  rtc (kstep demo_m demo_k map_to_list 1 demo_opts2 demo_U) (init demo_opts2) (k, [entry_of demo_a], 0) /\
  k.(at_phase) = Serving.
Proof.
  set (k0 := newKVServer (T := Skip.SkipList) demo_opts2 ∅ None).
  set (k1 := set_storage (storage k0) Serving k0).
  assert (exists k2 a, writeStandalone 1 (MkCommand CommandPut (str "a") (Some (str "1"))) [true] None true Wal.RewriteOk k1
            = Ret (k2, a) /\ at_phase k2 = Serving) as (k2 & a & E & Hs).
  { do 2 eexists. split; [vm_compute; reflexivity|reflexivity]. }
  exists k2. split; [|done]. eapply rtc_l; [apply k_bg, (b_replay _ _ _ k0 [] 0 [] k1); reflexivity|].
  apply rtc_once. change [entry_of demo_a] with ([] ++ [entry_of demo_a]).
  eapply (k_write _ _ _ 1 _ _ k1 [] 0 (MkCommand CommandPut (str "a") (Some (str "1")))); [reflexivity|reflexivity|apply demo_good|by right|reflexivity|exact E].
Qed.


Lemma kv_get_committed_witness :
  exists (k k' : KVServer (T := Skip.SkipList)) r, KVGet (str "a") k = Ret (k', r) /\
    kv_read (fun key => find_key key (rev [entry_of demo_a])) (str "a") = Ret r.
Proof.
  destruct demo_sizing as (Hm & Hk & Ho), demo_U_ok as (HU & HF & HP), demo_server as (k & Hr & Hs).
  destruct (kv_get_committed demo_m demo_k map_to_list 1 demo_opts2 demo_U Hm Hk Ho HU HF HP k _ _ (str "a") Hr Hs) as (k' & r & E).
  exists k, k', r. exact E.
Defined.


Lemma kv_reclaim_keeps_offsets_witness :
  exists (k : KVServer (T := Skip.SkipList)) e',
    Get (ReclaimDelivered (fun _ => true) (str "zzz") k).1.(storage) (str "__offset__/s") =
    Ret (e', get_result (find_key (str "__offset__/s") (rev [entry_of demo_a]))).
Proof.
  destruct demo_sizing as (Hm & Hk & Ho), demo_U_ok as (HU & HF & HP), demo_server as (k & Hr & Hs). exists k.
  apply (kv_reclaim_keeps_offsets demo_m demo_k map_to_list 1 demo_opts2 demo_U Hm Hk Ho HU HF HP k _ _ (fun _ => true) (str "zzz")
           (str "__offset__/s") Hr Hs).
  right. apply bleb_le. reflexivity.
Defined.

(** An acknowledged empty value does not survive a restart.  The log
    stores it with value length 0, which replay turns into [nil], a tombstone:
    the value reads back before the restart and as not found after it. *)
Theorem kv_empty_value_lost_on_restart :
  let started := replay_step (T := Skip.SkipList) [] (newKVServer demo_opts2 ∅ None) in
  match (k ← started; writeStandalone 1 (MkCommand CommandPut (str "a") (Some [])) [true] None true Wal.TmpFails k) with
  | Ret (k, a) =>
      let restarted := k' ← replay_step [true] (newKVServer demo_opts2 k.(storage).(sst).(disk) (Some k.(wal).(Wal.content)));
                       replay_step [] k' in
      match KVGet (str "a") k, (k' ← restarted; KVGet (str "a") k') with
      | Ret (_, before), Ret (k', after) => Some (a, before, k'.(at_phase), after)
      | _, _ => None
      end
  | Panic => None
  end = Some (Done, Ok [], Serving, Err ErrKeyNotFound).
Proof. vm_compute. reflexivity. Qed.

End KvRun.
