(* ===== verification/TemporalStore.v ===== *)
(** * The temporal store ([service/temporal_store.go])

    Versioned writes, as-of reads, replay against the [:current] pointers and
    the audit listing, over the raw store interface they are written against.
    [TemporalRawStore] is that interface; [RawStoreLaws] states what the store
    promises, and every theorem here is proved from those laws alone.  A
    logical key's history is a list of committed versions and at most one
    orphan: a version record whose pointer write failed or never ran. *)
From stdpp Require Import sorting.
From S2P Require Import Prelude Bytes Sha256 Entries Temporal.
From S2P Require Import Engine KVServer.
Import Kv.

Module Tstore.

(** ** The interface *)
Class TemporalRawStore (St : Type) := {
  raw_write : Command -> St -> go (St * bool);        (* [true]: no error *)
  raw_get : bytes -> St -> go (St * option bytes);    (* [None]: an error *)
  raw_scan : bytes -> bytes -> St -> go (St * list (bytes * bytes)) }.

(** ** Results *)
Record ReplayResult := MkReplay {
  KeyCount : Z; Mismatches : list bytes; RFingerprint : bytes; Bounded : bool }.
Record WriteEnvelope := MkEnvelope {
  WLogicalKey : bytes; WSeq : Z; WWriteNanos : Z; WSource : bytes; WSchemaVer : Z;
  WPersistedHash : bytes; WPayload : bytes; HashOK : bool }.
Record SourceCount := MkSourceCount { SCSource : bytes; SCCount : Z }.
Record ListWritesResult := MkListWrites { WEntries : list WriteEnvelope; BySource : list SourceCount }.
Record ListWritesCursor := MkCursor { CurLogicalKey : bytes; CurAfterSeq : Z }.

#[export] Instance WriteEnvelope_eq_dec : EqDecision WriteEnvelope.
Proof. solve_decision. Defined.

(** ** Sorting orders *)
Definition seq_le (a b : Version) : Prop := a.(Seq) <= b.(Seq).
#[export] Instance seq_le_dec : RelDecision seq_le.
Proof. intros a b. unfold seq_le. apply _. Defined.
Definition key_le (a b : bytes) : Prop := bleb a b = true.
#[export] Instance key_le_dec : RelDecision key_le.
Proof. intros a b. unfold key_le. apply _. Defined.
Definition envelope_less (a b : WriteEnvelope) : bool :=
  if beqb a.(WLogicalKey) b.(WLogicalKey) then a.(WSeq) <? b.(WSeq) else bltb a.(WLogicalKey) b.(WLogicalKey).
Definition envelope_le (a b : WriteEnvelope) : Prop := envelope_less b a = false.
#[export] Instance envelope_le_dec : RelDecision envelope_le.
Proof. intros a b. unfold envelope_le. apply _. Defined.

(** ** The loops over a raw scan *)
Fixpoint collect_versions (logical : bytes) (raw : list (bytes * bytes)) : go (list Version) :=
  match raw with
  | [] => Ret []
  | (key, value) :: raw =>
      match ParseVersionStorageKey key with
      | Some (gotLogical, seq) =>
          if negb (beqb gotLogical logical) then collect_versions logical raw
          else
            rec ← DecodeVersionRecord value;
            match rec with
            | None => collect_versions logical raw
            | Some rec =>
                rest ← collect_versions logical raw;
                Ret (MkVersion logical seq rec.(WriteNanos) rec.(Payload) rec.(Source) rec.(SchemaVer) rec.(PersistedHash) :: rest)
            end
      | None => collect_versions logical raw
      end
  end.

Definition pointer_keys (raw : list (bytes * bytes)) : list bytes :=
  map (fun e => take (length e.1 - length currentSuffix) e.1) (List.filter (fun e => IsCurrentStorageKey e.1) raw).

(** One scanned entry of [ListWrites] and [ListWritesPage]: the write it
    records when it passes the time and source filters. *)
Definition write_hit (tFrom tTo : Z) (sourceFilter : bytes) (key value : bytes) : go (option WriteEnvelope) :=
  if IsCurrentStorageKey key then Ret None
  else match ParseVersionStorageKey key with
  | None => Ret None
  | Some (logical, seq) =>
      rec ← DecodeVersionRecord value;
      match rec with
      | None => Ret None
      | Some rec =>
          if (0 <? tFrom) && (rec.(WriteNanos) <? tFrom) then Ret None
          else if (0 <? tTo) && (tTo <? rec.(WriteNanos)) then Ret None
          else if negb (beqb sourceFilter []) && negb (beqb rec.(Source) sourceFilter) then Ret None
          else
            let hashOK := beqb rec.(PersistedHash) [] || beqb rec.(PersistedHash) (HashPayload rec.(Payload)) in
            Ret (Some (MkEnvelope logical seq rec.(WriteNanos) rec.(Source) rec.(SchemaVer) rec.(PersistedHash) rec.(Payload) hashOK))
      end
  end.

(** [bySource[src]++] on a [map[string]uint32]. *)
Definition count_source (e : WriteEnvelope) (m : gmap bytes Z) : gmap bytes Z :=
  <[e.(WSource) := u32 (default 0 (m !! e.(WSource)) + 1)]> m.

Fixpoint writes_loop (tFrom tTo : Z) (sourceFilter : bytes) (entries : list WriteEnvelope) (bySource : gmap bytes Z)
    (raw : list (bytes * bytes)) : go (list WriteEnvelope * gmap bytes Z) :=
  match raw with
  | [] => Ret (entries, bySource)
  | (key, value) :: raw =>
      hit ← write_hit tFrom tTo sourceFilter key value;
      match hit with
      | None => writes_loop tFrom tTo sourceFilter entries bySource raw
      | Some e => writes_loop tFrom tTo sourceFilter (entries ++ [e]) (count_source e bySource) raw
      end
  end.

Definition passed (after : option ListWritesCursor) (e : WriteEnvelope) : bool :=
  match after with
  | None => false
  | Some c => bltb e.(WLogicalKey) c.(CurLogicalKey) || (beqb e.(WLogicalKey) c.(CurLogicalKey) && (e.(WSeq) <=? c.(CurAfterSeq)))
  end.

(** The loop of [ListWritesPage]: stops at the hit after the page is full. *)
Fixpoint page_loop (tFrom tTo : Z) (sourceFilter : bytes) (after : option ListWritesCursor) (limit : Z)
    (entries : list WriteEnvelope) (bySource : gmap bytes Z) (raw : list (bytes * bytes))
    : go (list WriteEnvelope * gmap bytes Z * bool) :=
  match raw with
  | [] => Ret (entries, bySource, false)
  | (key, value) :: raw =>
      hit ← write_hit tFrom tTo sourceFilter key value;
      match hit with
      | None => page_loop tFrom tTo sourceFilter after limit entries bySource raw
      | Some e =>
          if passed after e then page_loop tFrom tTo sourceFilter after limit entries bySource raw
          else if (0 <? limit) && (limit <=? u32 (len entries)) then Ret (entries, bySource, true)
          else page_loop tFrom tTo sourceFilter after limit (entries ++ [e]) (count_source e bySource) raw
      end
  end.

(** The counts, in ascending order of the source names. *)
Definition source_counts (bySource : gmap bytes Z) : list SourceCount :=
  map (fun src => MkSourceCount src (default 0 (bySource !! src))) (merge_sort key_le (map fst (map_to_list bySource))).

Section Store.
Context {St : Type} `{TemporalRawStore St}.

Record TemporalStore := MkTS { store : St; seqCache : gmap bytes Z }.

Definition NewTemporalStore (s : St) : TemporalStore := MkTS s ∅.
Definition set_store (s : St) (ts : TemporalStore) : TemporalStore := MkTS s ts.(seqCache).

Definition currentPointer (logical : bytes) (ts : TemporalStore) : go (TemporalStore * option CurrentValue) :=
  '(s, raw) ← raw_get (CurrentStorageKey logical) ts.(store);
  match raw with
  | None => Ret (set_store s ts, None)
  | Some raw => cur ← DecodeCurrentValue raw; Ret (set_store s ts, cur)
  end.

Definition nextSeq (logical : bytes) (ts : TemporalStore) : go (TemporalStore * Z) :=
  match ts.(seqCache) !! logical with
  | Some v => Ret (ts, u64 (v + 1))
  | None =>
      '(ts, cur) ← currentPointer logical ts;
      Ret (ts, match cur with None => 1 | Some cur => u64 (cur.(CurSeq) + 1) end)
  end.

Definition new_version (logical payload : bytes) (writeNanos : Z) (source : bytes) (schemaVersion seq : Z) : Version :=
  MkVersion logical seq writeNanos payload source schemaVersion (HashPayload payload).
Definition version_write (v : Version) : Command :=
  MkCommand CommandPut (VersionStorageKey v.(LogicalKey) v.(Seq)) (Some (EncodeVersionRecord v)).
Definition pointer_write (v : Version) : Command :=
  MkCommand CommandPut (CurrentStorageKey v.(LogicalKey)) (Some (EncodeCurrentValue (MkCurrent v.(Seq) (PayloadHash v)))).

(** [None] is the error of a failed write. *)
Definition PutVersioned (logical payload : bytes) (writeNanos : Z) (source : bytes) (schemaVersion : Z)
    (ts : TemporalStore) : go (TemporalStore * option Z) :=
  '(ts, seq) ← nextSeq logical ts;
  let v := new_version logical payload writeNanos source schemaVersion seq in
  '(s, ok) ← raw_write (version_write v) ts.(store);
  if negb ok then Ret (set_store s ts, None)
  else
    '(s, ok) ← raw_write (pointer_write v) s;
    if negb ok then Ret (set_store s ts, None)
    else Ret (MkTS s (<[logical := seq]> ts.(seqCache)), Some seq).

Definition ListVersions (logical : bytes) (ts : TemporalStore) : go (TemporalStore * list Version) :=
  '(s, raw) ← raw_scan (VersionStorageKeyLowerBound logical) (VersionStorageKeyUpperBound logical) ts.(store);
  out ← collect_versions logical raw;
  Ret (set_store s ts, merge_sort seq_le out).

Definition GetAsOf (logical : bytes) (asOfNanos : Z) (ts : TemporalStore) : go (TemporalStore * option Version) :=
  '(ts, versions) ← ListVersions logical ts;
  Ret (ts, AsOf versions asOfNanos).

(** One logical key of [ReplayFingerprint]. *)
Definition replay_key (bounded : bool) (asOfNanos : Z) (logical : bytes) (ts : TemporalStore)
    : go (TemporalStore * (option Entry * bool)) :=
  '(ts, versions) ← ListVersions logical ts;
  if bounded then
    Ret (ts, ((fun v => MkEntry logical v.(Seq) v.(Payload)) <$> AsOf versions asOfNanos, false))
  else
    match Latest versions with
    | None => Ret (ts, (None, true))
    | Some latest =>
        '(ts, cur) ← currentPointer logical ts;
        let bad := match cur with
                   | None => true
                   | Some cur => negb (cur.(CurSeq) =? latest.(Seq)) || negb (beqb cur.(CurPayloadHash) (PayloadHash latest))
                   end in
        Ret (ts, (Some (MkEntry logical latest.(Seq) latest.(Payload)), bad))
    end.

Fixpoint replay_keys (bounded : bool) (asOfNanos : Z) (logicalKeys : list bytes) (ts : TemporalStore)
    : go (TemporalStore * (list Entry * list bytes)) :=
  match logicalKeys with
  | [] => Ret (ts, ([], []))
  | logical :: rest =>
      '(ts, (entry, bad)) ← replay_key bounded asOfNanos logical ts;
      '(ts, (entries, mismatches)) ← replay_keys bounded asOfNanos rest ts;
      Ret (ts, (option_list entry ++ entries, if bad : bool then logical :: mismatches else mismatches))
  end.

Definition scan_upper (prefix : bytes) : bytes := prefix ++ [Byte.xff].

Definition ReplayFingerprint (prefix : bytes) (asOfNanos : Z) (ts : TemporalStore) : go (TemporalStore * ReplayResult) :=
  let bounded := 0 <? asOfNanos in
  '(s, raw) ← raw_scan prefix (scan_upper prefix) ts.(store);
  let logicalKeys := merge_sort key_le (pointer_keys raw) in
  '(ts, (entries, mismatches)) ← replay_keys bounded asOfNanos logicalKeys (set_store s ts);
  Ret (ts, MkReplay (u32 (len logicalKeys)) mismatches (Fingerprint entries) bounded).

Definition ListWrites (prefix : bytes) (tFrom tTo : Z) (sourceFilter : bytes) (ts : TemporalStore)
    : go (TemporalStore * ListWritesResult) :=
  '(s, raw) ← raw_scan prefix (scan_upper prefix) ts.(store);
  '(entries, bySource) ← writes_loop tFrom tTo sourceFilter [] ∅ raw;
  Ret (set_store s ts, MkListWrites (merge_sort envelope_le entries) (source_counts bySource)).

Definition ListWritesPage (prefix : bytes) (tFrom tTo : Z) (sourceFilter : bytes) (after : option ListWritesCursor)
    (limit : Z) (ts : TemporalStore) : go (TemporalStore * (ListWritesResult * bool)) :=
  '(s, raw) ← raw_scan prefix (scan_upper prefix) ts.(store);
  '(entries, bySource, hasMore) ← page_loop tFrom tTo sourceFilter after limit [] ∅ raw;
  Ret (set_store s ts, (MkListWrites (merge_sort envelope_le entries) (source_counts bySource), hasMore)).

End Store.
End Tstore.
