(* ===== verification/TemporalRun.v ===== *)
(** * Correctness of the temporal store

    What a raw store promises ([RawStoreLaws]), the abstract temporal database
    ([tdb]: plain keys, and per logical key its committed versions and the
    orphan a failed pointer write leaves), the invariant that ties the two, and
    the theorems on every operation of [service/temporal_store.go]. *)
From stdpp Require Import sorting functions.
From S2P Require Import Prelude Bytes Sha256 Entries Temporal.
From S2P Require Import Engine KVServer TemporalStore.
Import Kv Tstore.

Module TsRun.

(** ** What the raw store promises *)
Notation live_map := (bytes -> option bytes).

(** A write's effect on the live entries; a [nil] value is a tombstone. *)
Definition cmd_effect (cmd : Command) (m : live_map) : live_map :=
  if beqb cmd.(CType) CommandPut then <[cmd.(CKey) := cmd.(CValue)]> m
  else if beqb cmd.(CType) CommandDelete then <[cmd.(CKey) := None]> m
  else m.
Definition cmd_cost (cmd : Command) : Z := len cmd.(CKey) + vlen cmd.(CValue).

(** A read: the literal key, else the version its [:current] pointer names. *)
Definition map_read (m : live_map) (key : bytes) : go (option bytes) :=
  match m key with
  | Some v => Ret (Some v)
  | None =>
      match m (CurrentStorageKey key) with
      | None => Ret None
      | Some curRaw =>
          cur ← DecodeCurrentValue curRaw;
          match cur with
          | None => Ret None
          | Some cur =>
              match m (VersionStorageKey key cur.(CurSeq)) with
              | None => Ret None
              | Some verRaw => rec ← DecodeVersionRecord verRaw; Ret (option_map Payload rec)
              end
          end
      end
  end.

Definition is_scan (m : live_map) (lo hi : bytes) (l : list (bytes * bytes)) : Prop :=
  StronglySorted (fun a b => blt a.1 b.1) l /\
  forall key v, (key, v) ∈ l <-> in_range lo hi key = true /\ m key = Some v.

Class RawStoreLaws (St : Type) `{TemporalRawStore St} := {
  raw_rep : St -> live_map -> Prop;
  raw_accepts : Command -> Prop;
  raw_room : St -> Z -> Prop;
  raw_room_le s n n' : raw_room s n -> n' <= n -> raw_room s n';
  raw_write_ok s m cmd n : raw_rep s m -> raw_accepts cmd -> raw_room s n -> cmd_cost cmd <= n ->
    exists s' ok, raw_write cmd s = Ret (s', ok) /\ raw_rep s' (if ok : bool then cmd_effect cmd m else m) /\
      raw_room s' (n - cmd_cost cmd);
  raw_get_ok s m key : raw_rep s m ->
    exists s' r, raw_get key s = Ret (s', r) /\ map_read m key = Ret r /\ raw_rep s' m /\
      forall n, raw_room s n -> raw_room s' n;
  raw_scan_ok s m lo hi : raw_rep s m ->
    exists s' l, raw_scan lo hi s = Ret (s', l) /\ is_scan m lo hi l /\ raw_rep s' m /\
      forall n, raw_room s n -> raw_room s' n }.

(** ** The abstract temporal database *)
Record vhist := MkHist { committed : list Version; orphan : option Version }.
Record tdb := MkTdb { plain : live_map; hist : bytes -> vhist }.
Definition no_hist : vhist := MkHist [] None.

(** Everything a listing shows, in sequence order. *)
Definition versions_of (x : vhist) : list Version := committed x ++ option_list (orphan x).

Definition next_seq (x : vhist) : Z := len (committed x) + 1.

Definition pointer_of (x : vhist) : option CurrentValue :=
  (fun v => MkCurrent v.(Seq) (PayloadHash v)) <$> last (committed x).

Definition version_at (vs : list Version) (s : Z) : option Version :=
  if 1 <=? s then vs !! Z.to_nat (s - 1) else None.

(** Logical keys that are no pointer keys themselves. *)
Definition clean (l : bytes) : bool := negb (beqb l []) && negb (HasSuffix l currentSuffix).

Definition version_ok (l : bytes) (i : nat) (v : Version) : Prop :=
  v.(LogicalKey) = l /\ v.(Seq) = Z.of_nat i + 1 /\ envelope_ok v /\ v.(PersistedHash) = HashPayload v.(Payload).
Definition numbered (l : bytes) (vs : list Version) : Prop := forall i v, vs !! i = Some v -> version_ok l i v.

(** ** Facts on histories *)
Lemma versions_orphan c v : versions_of (MkHist c (Some v)) = c ++ [v].
Proof. done. Qed.
Lemma versions_done c : versions_of (MkHist c None) = c.
Proof. apply app_nil_r. Qed.

Lemma hash_short p : len (HashPayload p) < 2 ^ 16.
Proof. unfold HashPayload. rewrite len_hex_sha256. lia. Qed.

Lemma version_at_seq l vs v : numbered l vs -> v ∈ vs -> version_at vs v.(Seq) = Some v.
Proof.
  intros Hn [i Hi]%list_elem_of_lookup. destruct (Hn i v Hi) as (_ & -> & _). unfold version_at.
  destruct (Z.leb_spec 1 (Z.of_nat i + 1)); [|lia]. by replace (Z.to_nat (Z.of_nat i + 1 - 1)) with i by lia.
Qed.

Lemma version_at_in vs s v : version_at vs s = Some v -> v ∈ vs.
Proof. unfold version_at. destruct (1 <=? s); [|done]. intros H. by eapply list_elem_of_lookup_2. Qed.

Lemma version_at_Seq l vs s v : numbered l vs -> version_at vs s = Some v -> version_ok l (Z.to_nat (s - 1)) v /\ v.(Seq) = s.
Proof.
  intros Hn. unfold version_at. destruct (Z.leb_spec 1 s); [|done]. intros Hi.
  pose proof (Hn _ _ Hi) as Hv. split; [done|]. destruct Hv as (_ & -> & _). lia.
Qed.

Lemma numbered_sorted l vs : numbered l vs -> StronglySorted (strictly seq_le) vs.
Proof.
  intros Hn. induction vs as [|v vs IH] using rev_ind; [constructor|].
  apply StronglySorted_app; split_and!.
  - intros x y Hx ->%list_elem_of_singleton. apply list_elem_of_lookup in Hx as [i Hi].
    destruct (Hn i x) as (_ & Ex & _); [by apply lookup_app_l_Some|].
    destruct (Hn (length vs) v) as (_ & Ev & _); [by apply list_lookup_middle|].
    apply lookup_lt_Some in Hi. unfold strictly, seq_le. lia.
  - apply IH. intros i x Hi. apply Hn. by apply lookup_app_l_Some.
  - repeat constructor.
Qed.

#[export] Instance seq_le_trans : Transitive seq_le.
Proof. intros a b c. unfold seq_le. lia. Qed.
#[export] Instance seq_le_total : Total seq_le.
Proof. intros a b. unfold seq_le. lia. Qed.
#[export] Instance key_le_trans : Transitive key_le.
Proof. intros a b c. unfold key_le. rewrite !bleb_le. apply ble_trans. Qed.
#[export] Instance key_le_total : Total key_le.
Proof. intros a b. unfold key_le. rewrite !bleb_le. apply ble_total. Qed.

Lemma key_strict a b : strictly key_le a b <-> blt a b.
Proof.
  unfold strictly, key_le. rewrite !bleb_le. split.
  - intros [H1 H2]. apply ble_lteq in H1 as [H1| ->]; [done|]. destruct H2. apply ble_refl.
  - intros H. split; [by apply blt_ble|]. intros C. apply ble_nlt in C. done.
Qed.

Lemma next_seq_numbered l x v : numbered l (versions_of x) -> version_ok l (length (committed x)) v ->
  numbered l (versions_of (MkHist (committed x) (Some v))) /\ numbered l (versions_of (MkHist (committed x ++ [v]) None)).
Proof.
  intros Hn Hv. assert (numbered l (committed x ++ [v])) as H.
  { intros i w Hi. apply lookup_app_Some in Hi as [Hi|[Hge Hi]].
    - apply Hn. by apply lookup_app_l_Some.
    - apply list_lookup_singleton_Some in Hi as [Ei <-]. by replace i with (length (committed x)) by lia. }
  by rewrite versions_orphan, versions_done.
Qed.

Lemma version_at_snoc vs v s : 1 <= s ->
  version_at (vs ++ [v]) s = if s =? len vs + 1 then Some v else if s <=? len vs then version_at vs s else None.
Proof.
  intros Hs. unfold version_at, len. destruct (Z.leb_spec 1 s); [|lia].
  destruct (Z.eqb_spec s (Z.of_nat (length vs) + 1)) as [E|E].
  - apply list_lookup_middle. lia.
  - destruct (Z.leb_spec s (Z.of_nat (length vs))).
    + apply lookup_app_l. lia.
    + rewrite lookup_app_r by lia. apply lookup_ge_None. cbn [length]. lia.
Qed.
Lemma clean_spec l : clean l = true <-> l <> [] /\ ~ currentSuffix `suffix_of` l.
Proof.
  unfold clean. rewrite andb_true_iff, !negb_true_iff, beqb_neq, <- not_true_iff_false, HasSuffix_spec. done.
Qed.

Lemma current_not_clean l : clean (CurrentStorageKey l) = false.
Proof.
  apply not_true_iff_false. rewrite clean_spec. intros [_ H]. apply H. by exists l.
Qed.

Lemma current_not_nil l : CurrentStorageKey l <> [].
Proof. by destruct l. Qed.

Lemma internal_version l s : is_u64 s -> internal_key (VersionStorageKey l s) = true.
Proof. intros H. unfold internal_key. by rewrite parse_version_key. Qed.

Lemma internal_current l : l <> [] -> internal_key (CurrentStorageKey l) = true.
Proof. intros H. unfold internal_key. rewrite Parse_current_key. apply IsCurrent_spec. by exists l. Qed.

(** ** The invariant *)
Section Ops.
Context {St : Type} `{RawStoreLaws St}.
Implicit Type ts : TemporalStore (St := St).

Record ts_ok (ts : TemporalStore (St := St)) (D : tdb) (m : live_map) : Prop := {
  to_rep : raw_rep ts.(store) m;
  to_plain : forall k, internal_key k = false -> m k = D.(plain) k;
  to_version : forall l s, is_u64 s -> m (VersionStorageKey l s) = EncodeVersionRecord <$> version_at (versions_of (hist D l)) s;
  to_pointer : forall l, l <> [] -> m (CurrentStorageKey l) = EncodeCurrentValue <$> pointer_of (hist D l);
  to_numbered : forall l, numbered l (versions_of (hist D l));
  to_cache : forall l n, ts.(seqCache) !! l = Some n -> n = len (committed (hist D l));
  to_clean : forall l, versions_of (hist D l) <> [] -> clean l = true;
  to_short : forall l, next_seq (hist D l) < 2 ^ 64 }.

Notation same_room s s' := (forall n, raw_room s n -> raw_room s' n).

Lemma ts_ok_store ts D m s : ts_ok ts D m -> raw_rep s m -> ts_ok (set_store s ts) D m.
Proof. intros [] Hs. by constructor. Qed.

(** A restarted process starts with an empty cache. *)
Lemma ts_ok_restart ts D m : ts_ok ts D m -> ts_ok (NewTemporalStore ts.(store)) D m.
Proof. intros []. constructor; try done. Qed.

Lemma hist_nil D l : versions_of (hist D l) = [] -> committed (hist D l) = [] /\ orphan (hist D l) = None.
Proof.
  unfold versions_of. destruct (hist D l) as [c o]. cbn. intros E. apply app_eq_nil in E as [-> E].
  split; [done|]. by destruct o.
Qed.

Lemma unclean_nil ts D m l : ts_ok ts D m -> clean l = false -> committed (hist D l) = [] /\ orphan (hist D l) = None.
Proof.
  intros Ht Hc. apply hist_nil. destruct (versions_of (hist D l)) eqn:E; [done|].
  rewrite (to_clean _ _ _ Ht l) in Hc; [done|]. by rewrite E.
Qed.

Lemma last_committed ts D m l v : ts_ok ts D m -> last (committed (hist D l)) = Some v ->
  v.(Seq) = len (committed (hist D l)) /\ is_u64 v.(Seq) /\ version_at (versions_of (hist D l)) v.(Seq) = Some v.
Proof.
  intros Ht Hv. pose proof (to_numbered _ _ _ Ht l) as Hn. pose proof (to_short _ _ _ Ht l) as Hl.
  rewrite last_lookup in Hv. assert (versions_of (hist D l) !! pred (length (committed (hist D l))) = Some v) as Hv'
    by by apply lookup_app_l_Some.
  pose proof (lookup_lt_Some _ _ _ Hv) as Hlt. destruct (Hn _ _ Hv') as (_ & E & _). unfold next_seq, len in *.
  assert (Seq v = Z.of_nat (length (committed (hist D l)))) as E' by lia. split_and!; [done|unfold is_u64; lia|].
  apply (version_at_seq l); [done|]. by eapply list_elem_of_lookup_2.
Qed.

(** ** Pointers *)
Lemma currentPointer_ok ts D m l : ts_ok ts D m -> clean l = true ->
  exists s, currentPointer l ts = Ret (set_store s ts, pointer_of (hist D l)) /\
    ts_ok (set_store s ts) D m /\ same_room ts.(store) s.
Proof.
  intros Ht Hc. apply clean_spec in Hc as Hc'. unfold currentPointer.
  destruct (raw_get_ok (store ts) m (CurrentStorageKey l) (to_rep _ _ _ Ht)) as (s & r & -> & Hr & Hs & Hroom).
  cbn [mbind go_bind]. exists s. split_and!; [|by apply ts_ok_store|done].
  revert Hr. unfold map_read. rewrite (to_pointer _ _ _ Ht) by by destruct Hc'.
  rewrite (to_pointer _ _ _ Ht) by apply current_not_nil.
  destruct (unclean_nil ts D m (CurrentStorageKey l) Ht (current_not_clean l)) as [En _].
  unfold pointer_of at 2. rewrite En. unfold pointer_of. destruct (last (committed (hist D l))) as [v|] eqn:E; cbn.
  - intros [= <-]. destruct (last_committed ts D m l v Ht E) as (_ & Hu & _).
    by rewrite decode_encode_current by (done || apply hash_short).
  - by intros [= <-].
Qed.

Lemma nextSeq_ok ts D m l : ts_ok ts D m -> clean l = true ->
  exists s, nextSeq l ts = Ret (set_store s ts, next_seq (hist D l)) /\
    ts_ok (set_store s ts) D m /\ same_room ts.(store) s.
Proof.
  intros Ht Hc. pose proof (to_short _ _ _ Ht l) as Hl. unfold nextSeq.
  destruct (seqCache ts !! l) as [n|] eqn:E.
  - apply (to_cache _ _ _ Ht) in E as ->. exists (store ts). unfold next_seq in *.
    rewrite u64_small by (unfold is_u64; pose proof (len_nonneg (committed (hist D l))); lia).
    destruct ts. by split_and!.
  - destruct (currentPointer_ok ts D m l Ht Hc) as (s & -> & Hs & Hroom). cbn [mbind go_bind]. exists s.
    split_and!; [|done|done]. do 2 f_equal. unfold pointer_of, next_seq in *.
    destruct (last (committed (hist D l))) as [v|] eqn:El; cbn.
    + destruct (last_committed ts D m l v Ht El) as (-> & _ & _). apply u64_small. unfold is_u64.
      pose proof (len_nonneg (committed (hist D l))). lia.
    + apply last_None in El. by rewrite El.
Qed.

(** ** Writing a version *)
Definition set_hist (l : bytes) (x : vhist) (D : tdb) : tdb := MkTdb D.(plain) (<[l := x]> D.(hist)).

Lemma put_effect k v m : cmd_effect (MkCommand CommandPut k (Some v)) m = <[k := Some v]> m.
Proof. done. Qed.

Lemma hist_set_eq l x D : hist (set_hist l x D) l = x.
Proof. unfold set_hist. cbn. by rewrite fn_lookup_insert. Qed.
Lemma hist_set_ne l l' x D : l <> l' -> hist (set_hist l x D) l' = hist D l'.
Proof. intros E. unfold set_hist. cbn. by rewrite fn_lookup_insert_ne. Qed.

(** The version record is in the store, the pointer not yet. *)
Lemma orphan_ok ts D m l v s : ts_ok ts D m -> clean l = true -> version_ok l (length (committed (hist D l))) v ->
  raw_rep s (cmd_effect (version_write v) m) ->
  ts_ok (set_store s ts) (set_hist l (MkHist (committed (hist D l)) (Some v)) D) (cmd_effect (version_write v) m).
Proof.
  intros Ht Hc Hv Hs. pose proof Hv as (El & Es & He & Hh). pose proof (to_short _ _ _ Ht l) as Hl.
  assert (is_u64 (Seq v)) as Hu by (unfold next_seq, len, is_u64 in *; lia).
  unfold version_write in *. rewrite put_effect in *. rewrite El in *. constructor; cbn [set_store store seqCache]; [done|..].
  - intros k Hk. rewrite fn_lookup_insert_ne; [by apply Ht|]. intros <-. by rewrite internal_version in Hk.
  - intros l' s' Hs'. destruct (decide (l = l')) as [<-|Hne].
    + rewrite hist_set_eq, versions_orphan. destruct (decide (s' = Seq v)) as [->|Hns].
      * rewrite fn_lookup_insert, version_at_snoc by lia. unfold len. by replace (_ =? _) with true by lia.
      * rewrite fn_lookup_insert_ne by (intros [_ E]%version_key_inj; done). rewrite (to_version _ _ _ Ht) by done.
        f_equal. destruct (Z_lt_le_dec s' 1); [unfold version_at; by replace (1 <=? s') with false by lia|].
        rewrite version_at_snoc by done. replace (s' =? _) with false by (unfold len; lia).
        unfold versions_of, version_at, len. destruct (Z.leb_spec 1 s'); [|lia].
        destruct (Z.leb_spec s' (Z.of_nat (length (committed (hist D l))))); [by rewrite lookup_app_l by lia|].
        apply lookup_ge_None. rewrite length_app. destruct (orphan (hist D l)); simpl; lia.
    + rewrite hist_set_ne by done. rewrite fn_lookup_insert_ne by (intros [E _]%version_key_inj; done). by apply Ht.
  - intros l' Hl'. rewrite fn_lookup_insert_ne by (by apply version_key_ne_current). rewrite (to_pointer _ _ _ Ht) by done.
    destruct (decide (l = l')) as [<-|Hne]; [by rewrite hist_set_eq|by rewrite hist_set_ne].
  - intros l'. destruct (decide (l = l')) as [<-|Hne]; [|rewrite hist_set_ne by done; apply Ht].
    rewrite hist_set_eq. apply next_seq_numbered; [apply Ht|done].
  - intros l' n Hn. destruct (decide (l = l')) as [<-|Hne]; [rewrite hist_set_eq|rewrite hist_set_ne by done]; by eapply Ht.
  - intros l'. destruct (decide (l = l')) as [<-|Hne]; [done|rewrite hist_set_ne by done; apply Ht].
  - intros l'. destruct (decide (l = l')) as [<-|Hne]; [by rewrite hist_set_eq|rewrite hist_set_ne by done; apply Ht].
Qed.

(** The pointer follows: the orphan becomes the last committed version. *)
Lemma commit_ok ts D m l v s : ts_ok ts D m -> clean l = true -> orphan (hist D l) = Some v ->
  next_seq (hist D l) + 1 < 2 ^ 64 -> raw_rep s (cmd_effect (pointer_write v) m) ->
  ts_ok (MkTS s (<[l := v.(Seq)]> ts.(seqCache))) (set_hist l (MkHist (committed (hist D l) ++ [v]) None) D)
    (cmd_effect (pointer_write v) m).
Proof.
  intros Ht Hc Ho Hl Hs. apply clean_spec in Hc as Hc'. destruct Hc' as [Hnil _].
  assert (versions_of (hist D l) = committed (hist D l) ++ [v]) as Ev by (unfold versions_of; by rewrite Ho).
  assert (version_ok l (length (committed (hist D l))) v) as (El & Es & He & Hh).
  { apply (to_numbered _ _ _ Ht l). rewrite Ev. by apply list_lookup_middle. }
  assert (forall l', versions_of (hist (set_hist l (MkHist (committed (hist D l) ++ [v]) None) D) l') = versions_of (hist D l')) as Evs.
  { intros l'. destruct (decide (l = l')) as [<-|Hne]; [|by rewrite hist_set_ne]. by rewrite hist_set_eq, Ev, versions_done. }
  unfold pointer_write in *. rewrite put_effect in *. rewrite El in *. constructor; cbn [store seqCache]; [done|..].
  - intros k Hk. rewrite fn_lookup_insert_ne; [by apply Ht|]. intros <-. by rewrite internal_current in Hk.
  - intros l' s' Hs'. rewrite Evs, fn_lookup_insert_ne by (intros E; by apply (version_key_ne_current l' s' l)). by apply Ht.
  - intros l' Hl'. destruct (decide (l = l')) as [<-|Hne].
    + rewrite fn_lookup_insert, hist_set_eq. unfold pointer_of. cbn [committed]. by rewrite last_snoc.
    + rewrite hist_set_ne by done. rewrite fn_lookup_insert_ne by (intros E%current_key_inj; done). by apply Ht.
  - intros l'. rewrite Evs. apply Ht.
  - intros l' n Hn. destruct (decide (l = l')) as [<-|Hne].
    + rewrite lookup_insert_eq in Hn. injection Hn as <-. rewrite hist_set_eq. cbn [committed]. unfold len. rewrite length_app, Es. cbn [length]. lia.
    + rewrite lookup_insert_ne in Hn by done. rewrite hist_set_ne by done. by eapply Ht.
  - intros l'. rewrite Evs. apply Ht.
  - intros l'. destruct (decide (l = l')) as [<-|Hne]; [|rewrite hist_set_ne by done; apply Ht].
    rewrite hist_set_eq. unfold next_seq in *. cbn [committed]. len_lia.
Qed.

Lemma PutVersioned_ok ts D m l payload nanos source schema n :
  let v := new_version l payload nanos source schema (next_seq (hist D l)) in
  ts_ok ts D m -> clean l = true -> envelope_ok v -> next_seq (hist D l) + 1 < 2 ^ 64 ->
  raw_accepts (version_write v) -> raw_accepts (pointer_write v) ->
  raw_room ts.(store) n -> cmd_cost (version_write v) + cmd_cost (pointer_write v) <= n ->
  exists ts' m' a D', PutVersioned l payload nanos source schema ts = Ret (ts', a) /\ ts_ok ts' D' m' /\
    (a = Some v.(Seq) /\ D' = set_hist l (MkHist (committed (hist D l) ++ [v]) None)
                               (set_hist l (MkHist (committed (hist D l)) (Some v)) D)
     \/ a = None /\ (D' = D \/ D' = set_hist l (MkHist (committed (hist D l)) (Some v)) D)) /\
    raw_room ts'.(store) (n - cmd_cost (version_write v) - cmd_cost (pointer_write v)).
Proof.
  intros v Ht Hc He Hl Ha1 Ha2 Hroom Hn.
  assert (forall cmd, 0 <= cmd_cost cmd) as Hpos.
  { intros [ty k [b|]]; unfold cmd_cost; cbn [CKey CValue vlen]; [pose proof (len_nonneg b)|]; pose proof (len_nonneg k); lia. }
  pose proof (Hpos (version_write v)) as Hp1. pose proof (Hpos (pointer_write v)) as Hp2.
  assert (version_ok l (length (committed (hist D l))) v) as Hv by done.
  unfold PutVersioned. destruct (nextSeq_ok ts D m l Ht Hc) as (s0 & -> & Ht0 & Hr0). cbn [mbind go_bind set_store store seqCache].
  fold v. destruct (raw_write_ok s0 m (version_write v) n) as (s1 & ok1 & -> & Hs1 & Hr1); [apply Ht0|done|by apply Hr0|lia|].
  cbn [mbind go_bind set_store store seqCache]. destruct ok1; cbn [negb].
  2: { do 4 eexists. split; [done|]. split; [by apply (ts_ok_store ts)|]. split; [right; by split; [|left]|].
       eapply raw_room_le; [exact Hr1|lia]. }
  pose proof (orphan_ok _ D m l v s1 Ht0 Hc Hv Hs1) as Ht1.
  destruct (raw_write_ok s1 _ (pointer_write v) (n - cmd_cost (version_write v)) Hs1 Ha2 Hr1) as (s2 & ok2 & -> & Hs2 & Hr2); [lia|].
  cbn [mbind go_bind set_store store seqCache]. destruct ok2; cbn [negb].
  - do 4 eexists. split; [done|]. split; [|split; [left; split; [done|]|done]].
    + apply (commit_ok _ _ _ l v s2 Ht1); [done|by rewrite hist_set_eq|by rewrite hist_set_eq|done].
    + by rewrite hist_set_eq.
  - do 4 eexists. split; [done|]. split; [by apply (ts_ok_store (set_store s1 ts))|]. split; [right; by split; [|right]|done].
Qed.

(** ** Listing and as-of reads *)
Lemma version_seq_u64 ts D m l v : ts_ok ts D m -> v ∈ versions_of (hist D l) -> is_u64 v.(Seq).
Proof.
  intros Ht [i Hi]%list_elem_of_lookup. pose proof (to_short _ _ _ Ht l) as Hl.
  destruct (to_numbered _ _ _ Ht l i v Hi) as (_ & -> & _). apply lookup_lt_Some in Hi.
  unfold versions_of in Hi. rewrite length_app in Hi. unfold next_seq, len, is_u64 in *.
  destruct (orphan (hist D l)); simpl in Hi; lia.
Qed.

(** What a scanned key stands for. *)
Lemma scanned_version ts D m k val l s : ts_ok ts D m -> m k = Some val -> ParseVersionStorageKey k = Some (l, s) ->
  exists v, k = VersionStorageKey l s /\ is_u64 s /\ version_at (versions_of (hist D l)) s = Some v /\
    version_ok l (Z.to_nat (s - 1)) v /\ v.(Seq) = s /\ v ∈ versions_of (hist D l) /\
    val = EncodeVersionRecord v /\ DecodeVersionRecord val = Ret (Some (strip_key v)).
Proof.
  intros Ht Hm [-> Hu]%parse_version_key_inv. rewrite (to_version _ _ _ Ht) in Hm by done.
  destruct (version_at (versions_of (hist D l)) s) as [v|] eqn:E; [|done]. cbn in Hm. injection Hm as <-.
  destruct (version_at_Seq l _ s v (to_numbered _ _ _ Ht l) E) as [Hv Es]. exists v. split_and!; try done.
  - by eapply version_at_in.
  - apply decode_encode_record. by destruct Hv as (_ & _ & ? & _).
Qed.

Definition pick (D : tdb) (l : bytes) (kv : bytes * bytes) : option Version :=
  match ParseVersionStorageKey kv.1 with
  | Some (g, s) => if beqb g l then version_at (versions_of (hist D l)) s else None
  | None => None
  end.

Lemma collect_versions_ok ts D m l raw : ts_ok ts D m -> (forall k val, (k, val) ∈ raw -> m k = Some val) ->
  collect_versions l raw = Ret (omap (pick D l) raw).
Proof.
  intros Ht. induction raw as [|[k val] raw IH]; intros Hin; [done|].
  assert (collect_versions l raw = Ret (omap (pick D l) raw)) as E by (apply IH; set_solver).
  cbn [collect_versions omap list_omap]. unfold pick at 1. cbn [fst].
  destruct (ParseVersionStorageKey k) as [[g s]|] eqn:P; [|done]. destruct (beqb g l) eqn:G; [|done]. cbn [negb]. bcmp. subst g.
  destruct (scanned_version ts D m k val l s Ht) as (v & _ & _ & -> & (El & _) & Es & _ & _ & ->); [set_solver|done|].
  cbn [mbind go_bind]. rewrite E. cbn [mbind go_bind]. do 2 f_equal. rewrite <- Es, <- El. by destruct v.
Qed.

Lemma pick_Some ts D m l k val v : ts_ok ts D m -> m k = Some val -> pick D l (k, val) = Some v ->
  k = VersionStorageKey l v.(Seq) /\ is_u64 v.(Seq) /\ v ∈ versions_of (hist D l).
Proof.
  intros Ht Hm. unfold pick. cbn [fst]. destruct (ParseVersionStorageKey k) as [[g s]|] eqn:P; [|done].
  destruct (beqb g l) eqn:G; [|done]. bcmp. subst g. intros E.
  destruct (scanned_version ts D m k val l s Ht Hm P) as (v' & -> & Hu & E' & _ & Es & Hin & _).
  assert (v' = v) as -> by congruence. by rewrite Es.
Qed.

Lemma picks_sorted ts D m l raw : ts_ok ts D m -> (forall k val, (k, val) ∈ raw -> m k = Some val) ->
  StronglySorted (fun a b => blt a.1 b.1) raw -> StronglySorted (strictly seq_le) (omap (pick D l) raw).
Proof.
  intros Ht Hin. induction 1 as [|[k val] raw Hs IH Hk]; [constructor|]. cbn [omap list_omap].
  destruct (pick D l (k, val)) as [v|] eqn:P; [|apply IH; set_solver]. constructor; [apply IH; set_solver|].
  apply Forall_forall. intros w ([k' val'] & Hk' & Pw)%list_elem_of_omap. rewrite Forall_forall in Hk. specialize (Hk _ Hk').
  apply (pick_Some ts _ m) in P as (-> & Hu & _); [|done|set_solver].
  apply (pick_Some ts _ m) in Pw as (-> & Hu' & _); [|done|set_solver].
  cbn [fst] in Hk. unfold blt in Hk. rewrite compare_version_keys in Hk by done. unfold strictly, seq_le. 
  apply (proj1 (Z.compare_lt_iff _ _)) in Hk. lia.
Qed.

Lemma ListVersions_ok ts D m l : ts_ok ts D m ->
  exists s, ListVersions l ts = Ret (set_store s ts, versions_of (hist D l)) /\
    ts_ok (set_store s ts) D m /\ same_room ts.(store) s.
Proof.
  intros Ht. unfold ListVersions.
  destruct (raw_scan_ok (store ts) m (VersionStorageKeyLowerBound l) (VersionStorageKeyUpperBound l) (to_rep _ _ _ Ht))
    as (s & raw & -> & [Hsort Hraw] & Hs & Hroom).
  assert (forall k val, (k, val) ∈ raw -> m k = Some val) as Hin by (intros k val; apply Hraw).
  cbn [mbind go_bind]. rewrite (collect_versions_ok ts D m) by done. cbn [mbind go_bind]. exists s.
  split_and!; [|by apply ts_ok_store|done]. do 2 f_equal.
  apply merge_sort_is; [apply _..| | |by eapply numbered_sorted, to_numbered].
  { apply (strict_sorted_NoDup seq_le). by eapply picks_sorted. }
  intros v. rewrite list_elem_of_omap. split.
  - intros ([k val] & Hk & P). by eapply pick_Some in P as (_ & _ & ?); [|exact Ht|by apply Hin].
  - intros Hv. pose proof (version_seq_u64 ts D m l v Ht Hv) as Hu.
    pose proof (version_at_seq l _ v (to_numbered _ _ _ Ht l) Hv) as Ev.
    exists (VersionStorageKey l (Seq v), EncodeVersionRecord v). split.
    + apply Hraw. rewrite (to_version _ _ _ Ht), Ev by done. split; [|done].
      destruct (version_key_in_bounds l (Seq v) Hu) as [H1 H2]. by apply in_range_intro.
    + unfold pick. cbn [fst]. by rewrite parse_version_key, beqb_refl by done.
Qed.

Lemma GetAsOf_ok ts D m l t : ts_ok ts D m ->
  exists s, GetAsOf l t ts = Ret (set_store s ts, AsOf (versions_of (hist D l)) t) /\
    ts_ok (set_store s ts) D m /\ same_room ts.(store) s.
Proof.
  intros Ht. unfold GetAsOf. destruct (ListVersions_ok ts D m l Ht) as (s & -> & Hs). by exists s.
Qed.

(** ** Plain keys next to versioned ones *)
Lemma cmd_effect_ne cmd m k : k <> cmd.(CKey) -> cmd_effect cmd m k = m k.
Proof.
  intros Hk. unfold cmd_effect. destruct (beqb (CType cmd) CommandPut); [by rewrite fn_lookup_insert_ne|].
  destruct (beqb (CType cmd) CommandDelete); [by rewrite fn_lookup_insert_ne|done].
Qed.

Lemma cmd_effect_ext cmd m m' k : m k = m' k -> cmd_effect cmd m k = cmd_effect cmd m' k.
Proof.
  intros E. destruct (decide (k = CKey cmd)) as [->|Hk]; [|by rewrite !cmd_effect_ne].
  unfold cmd_effect. destruct (beqb (CType cmd) CommandPut); [by rewrite !fn_lookup_insert|].
  destruct (beqb (CType cmd) CommandDelete); [by rewrite !fn_lookup_insert|done].
Qed.

Lemma plain_ok ts D m cmd s : ts_ok ts D m -> internal_key cmd.(CKey) = false -> raw_rep s (cmd_effect cmd m) ->
  ts_ok (set_store s ts) (MkTdb (cmd_effect cmd D.(plain)) D.(hist)) (cmd_effect cmd m).
Proof.
  intros Ht Hc Hs. constructor; cbn [set_store store seqCache plain hist]; [done|..]; try apply Ht.
  - intros k Hk. by apply cmd_effect_ext, Ht.
  - intros l s' Hs'. rewrite cmd_effect_ne; [by apply Ht|]. intros E. by rewrite <- E, internal_version in Hc.
  - intros l Hl. rewrite cmd_effect_ne; [by apply Ht|]. intros E. by rewrite <- E, internal_current in Hc.
Qed.

(** A read of a business key: its plain value, else the payload of the last
    committed version. *)
Definition spec_get (D : tdb) (key : bytes) : option bytes :=
  match D.(plain) key with Some v => Some v | None => Payload <$> last (committed (hist D key)) end.

Lemma read_ok ts D m key : ts_ok ts D m -> clean key = true -> internal_key key = false ->
  map_read m key = Ret (spec_get D key).
Proof.
  intros Ht Hc Hi. unfold map_read, spec_get. rewrite (to_plain _ _ _ Ht key Hi). destruct (plain D key); [done|].
  apply clean_spec in Hc as [Hn _]. rewrite (to_pointer _ _ _ Ht key Hn). unfold pointer_of.
  destruct (last (committed (hist D key))) as [v|] eqn:E; [|done]. cbn [fmap option_fmap option_map].
  destruct (last_committed ts D m key v Ht E) as (_ & Hu & Hv).
  rewrite decode_encode_current by (done || apply hash_short). cbn [mbind go_bind CurSeq].
  rewrite (to_version _ _ _ Ht), Hv by done. cbn [fmap option_fmap option_map].
  destruct (version_at_Seq key _ _ v (to_numbered _ _ _ Ht key) Hv) as [(_ & _ & He & _) _].
  by rewrite decode_encode_record.
Qed.

(** ** Runs *)
Inductive top :=
| TPut (l payload : bytes) (nanos : Z) (source : bytes) (schema : Z)
| TPlain (cmd : Command)
| TGet (key : bytes)
| TList (l : bytes)
| TAsOf (l : bytes) (t : Z)
| TRestart.

Inductive tanswer :=
| ASeq (seq : option Z) | AWrote (ok : bool) | AValue (v : option bytes)
| AVersions (vs : list Version) | AVersion (v : option Version) | ARestarted.

Definition exec_top (op : top) ts : go (TemporalStore (St := St) * tanswer) :=
  match op with
  | TPut l payload nanos source schema => '(ts, a) ← PutVersioned l payload nanos source schema ts; Ret (ts, ASeq a)
  | TPlain cmd => '(s, ok) ← raw_write cmd ts.(store); Ret (set_store s ts, AWrote ok)
  | TGet key => '(s, v) ← raw_get key ts.(store); Ret (set_store s ts, AValue v)
  | TList l => '(ts, vs) ← ListVersions l ts; Ret (ts, AVersions vs)
  | TAsOf l t => '(ts, v) ← GetAsOf l t ts; Ret (ts, AVersion v)
  | TRestart => Ret (NewTemporalStore ts.(store), ARestarted)
  end.

Fixpoint exec_tops (ops : list top) ts : go (TemporalStore (St := St) * list tanswer) :=
  match ops with
  | [] => Ret (ts, [])
  | op :: ops => '(ts, a) ← exec_top op ts; '(ts, l) ← exec_tops ops ts; Ret (ts, a :: l)
  end.

(** The same operations on the abstract database.  A put that reports an error
    has left nothing, or a version without its pointer. *)
Inductive tspec : tdb -> top -> tanswer -> tdb -> Prop :=
| s_put D l payload nanos source schema :
    let v := new_version l payload nanos source schema (next_seq (hist D l)) in
    tspec D (TPut l payload nanos source schema) (ASeq (Some v.(Seq)))
      (set_hist l (MkHist (committed (hist D l) ++ [v]) None) (set_hist l (MkHist (committed (hist D l)) (Some v)) D))
| s_put_failed D l payload nanos source schema : tspec D (TPut l payload nanos source schema) (ASeq None) D
| s_put_half D l payload nanos source schema :
    let v := new_version l payload nanos source schema (next_seq (hist D l)) in
    tspec D (TPut l payload nanos source schema) (ASeq None) (set_hist l (MkHist (committed (hist D l)) (Some v)) D)
| s_plain D cmd : tspec D (TPlain cmd) (AWrote true) (MkTdb (cmd_effect cmd D.(plain)) D.(hist))
| s_plain_failed D cmd : tspec D (TPlain cmd) (AWrote false) D
| s_get D key : tspec D (TGet key) (AValue (spec_get D key)) D
| s_list D l : tspec D (TList l) (AVersions (versions_of (hist D l))) D
| s_asof D l t : tspec D (TAsOf l t) (AVersion (AsOf (versions_of (hist D l)) t)) D
| s_restart D : tspec D TRestart ARestarted D.

Inductive tspecs : tdb -> list top -> list tanswer -> tdb -> Prop :=
| ss_nil D : tspecs D [] [] D
| ss_cons D op a D' ops l D'' : tspec D op a D' -> tspecs D' ops l D'' -> tspecs D (op :: ops) (a :: l) D''.

Definition op_ok (N : Z) (op : top) : Prop :=
  match op with
  | TPut l payload nanos source schema =>
      clean l = true /\ is_s64 nanos /\ len source < 2 ^ 32 /\ is_u32 schema /\
      forall seq, 1 <= seq < N -> let v := new_version l payload nanos source schema seq in
        raw_accepts (version_write v) /\ raw_accepts (pointer_write v)
  | TPlain cmd => internal_key cmd.(CKey) = false /\ raw_accepts cmd
  | TGet key => clean key = true /\ internal_key key = false
  | _ => True
  end.

Definition op_cost (op : top) : Z :=
  match op with
  | TPut l payload nanos source schema =>
      let v := new_version l payload nanos source schema 1 in cmd_cost (version_write v) + cmd_cost (pointer_write v)
  | TPlain cmd => cmd_cost cmd
  | _ => 0
  end.

Lemma put_cost l payload nanos source schema seq : is_u64 seq ->
  let v := new_version l payload nanos source schema seq in
  cmd_cost (version_write v) + cmd_cost (pointer_write v) = op_cost (TPut l payload nanos source schema).
Proof.
  intros Hu v. assert (forall s, is_u64 s -> len (VersionStorageKey l s) = len l + 22) as E.
  { intros s Hs. rewrite VersionStorageKey_digits by done. rewrite !len_app. unfold len at 3. by rewrite length_seq_digits. }
  cbn [op_cost]. unfold cmd_cost, version_write, pointer_write, v. cbn [CKey CValue vlen new_version LogicalKey Seq].
  rewrite !E by (done || (unfold is_u64; lia)). f_equal.
Qed.

Lemma envelope_new l payload nanos source schema seq :
  is_s64 nanos -> len source < 2 ^ 32 -> is_u32 schema -> envelope_ok (new_version l payload nanos source schema seq).
Proof. intros H1 H2 H3. split_and!; [done|done|done|apply hash_short]. Qed.

Lemma exec_top_ok ts D m op N n : ts_ok ts D m -> op_ok N op -> N < 2 ^ 64 ->
  (forall l, next_seq (hist D l) + 1 <= N) -> raw_room ts.(store) n -> op_cost op <= n ->
  exists ts' a D' m', exec_top op ts = Ret (ts', a) /\ tspec D op a D' /\ ts_ok ts' D' m' /\
    raw_room ts'.(store) (n - op_cost op) /\ forall l, next_seq (hist D' l) <= next_seq (hist D l) + 1.
Proof.
  intros Ht Hop HN Hs Hroom Hn. destruct op as [l payload nanos source schema|cmd|key|l|l t|]; cbn [exec_top op_ok] in *.
  - destruct Hop as (Hc & Hna & Hso & Hsc & Hacc). pose proof (Hs l) as Hsl. pose proof (len_nonneg (committed (hist D l))) as Hnn.
    destruct (Hacc (next_seq (hist D l))) as [Ha1 Ha2]; [unfold next_seq in *; lia|].
    pose proof (put_cost l payload nanos source schema (next_seq (hist D l))) as Ecost. cbv zeta in Ecost.
    destruct (PutVersioned_ok ts D m l payload nanos source schema n Ht Hc) as (ts' & m' & a & D' & -> & Ht' & Hcase & Hr');
      [by apply envelope_new|lia|done|done|done|rewrite Ecost; [done|unfold is_u64, next_seq in *; lia]|].
    rewrite <- Z.sub_add_distr, Ecost in Hr' by (unfold is_u64, next_seq in *; lia). cbn [mbind go_bind].
    exists ts', (ASeq a), D', m'. split_and!; [done| |done|done|].
    + destruct Hcase as [[-> ->]|[-> [->| ->]]]; constructor.
    + intros l'. destruct Hcase as [[_ ->]|[_ [->| ->]]]; [|lia|]; destruct (decide (l = l')) as [<-|Hne];
        rewrite ?hist_set_eq, ?hist_set_ne by done; unfold next_seq; cbn [committed]; len_lia.
  - destruct Hop as [Hi Ha]. destruct (raw_write_ok (store ts) m cmd n (to_rep _ _ _ Ht) Ha Hroom Hn) as (s & ok & -> & Hs' & Hr').
    cbn [mbind go_bind]. destruct ok; do 4 eexists; (split; [done|]); (split; [constructor|]); (split; [|split; [exact Hr'|]]).
    + by apply plain_ok.
    + cbn [hist]. lia.
    + by apply ts_ok_store.
    + lia.
  - destruct Hop as [Hc Hi]. destruct (raw_get_ok (store ts) m key (to_rep _ _ _ Ht)) as (s & r & -> & Hr & Hs' & Hroom').
    rewrite (read_ok ts D m) in Hr by done. injection Hr as <-. cbn [mbind go_bind op_cost]. rewrite Z.sub_0_r.
    do 4 eexists. split_and!; [done|constructor|by apply ts_ok_store|by apply Hroom'|lia].
  - destruct (ListVersions_ok ts D m l Ht) as (s & -> & Hs' & Hroom'). cbn [mbind go_bind op_cost]. rewrite Z.sub_0_r.
    do 4 eexists. split_and!; [done|constructor|done|by apply Hroom'|lia].
  - destruct (GetAsOf_ok ts D m l t Ht) as (s & -> & Hs' & Hroom'). cbn [mbind go_bind op_cost]. rewrite Z.sub_0_r.
    do 4 eexists. split_and!; [done|constructor|done|by apply Hroom'|lia].
  - cbn [op_cost]. rewrite Z.sub_0_r. do 4 eexists. split_and!; [done|constructor|by apply ts_ok_restart|done|lia].
Qed.

Definition total_cost (ops : list top) : Z := fold_right (fun op n => op_cost op + n) 0 ops.

Lemma op_cost_nonneg op : 0 <= op_cost op.
Proof.
  destruct op as [l p na so sc|[ty k [v|]]| | | |]; cbn; unfold cmd_cost, version_write, pointer_write; cbn [CKey CValue vlen]; try lia;
    len_facts; lia.
Qed.

Lemma total_cost_nonneg ops : 0 <= total_cost ops.
Proof. induction ops as [|op ops IH]; [done|]. cbn [total_cost fold_right]. fold (total_cost ops). pose proof (op_cost_nonneg op). lia. Qed.

Lemma exec_tops_ok ops ts D m N n : ts_ok ts D m -> Forall (op_ok N) ops -> N < 2 ^ 64 ->
  (forall l, next_seq (hist D l) + len ops <= N) -> raw_room ts.(store) n -> total_cost ops <= n ->
  exists ts' l D' m', exec_tops ops ts = Ret (ts', l) /\ tspecs D ops l D' /\ ts_ok ts' D' m' /\
    raw_room ts'.(store) (n - total_cost ops) /\ forall k, next_seq (hist D' k) <= next_seq (hist D k) + len ops.
Proof.
  revert ts D m n. induction ops as [|op ops IH]; intros ts D m n Ht Hok HN Hs Hroom Hn; cbn [exec_tops].
  { do 4 eexists. split_and!; [done|constructor|done|by rewrite Z.sub_0_r|]. intros k. rewrite len_nil. lia. }
  apply Forall_cons in Hok as [Hop Hok]. cbn [total_cost fold_right] in Hn. fold (total_cost ops) in Hn.
  pose proof (total_cost_nonneg ops) as Hpos.
  destruct (exec_top_ok ts D m op N n Ht Hop HN) as (ts' & a & D' & m' & -> & Hsp & Ht' & Hr' & Hmono);
    [intros l; specialize (Hs l); len_lia|done|lia|].
  destruct (IH ts' D' m' (n - op_cost op) Ht' Hok HN) as (ts2 & l2 & D2 & m2 & E & Hsp2 & Ht2 & Hr2 & Hl2);
    [intros l; specialize (Hs l); specialize (Hmono l); len_lia|done|lia|].
  cbn [mbind go_bind]. rewrite E. cbn [mbind go_bind]. do 4 eexists. split_and!; [done|by econstructor|done| |].
  - cbn [total_cost fold_right]. fold (total_cost ops). by rewrite Z.sub_add_distr.
  - intros k. specialize (Hmono k). specialize (Hl2 k). len_lia.
Qed.

Lemma tspecs_app D ops l D' ops' l' D'' : tspecs D ops l D' -> tspecs D' ops' l' D'' -> tspecs D (ops ++ ops') (l ++ l') D''.
Proof. induction 1; [done|]. intros H'. cbn [app]. econstructor; [done|]. by apply IHtspecs. Qed.

(** A store that holds no internal key yet. *)
Lemma fresh_ok s m : raw_rep s m -> (forall k, internal_key k = true -> m k = None) ->
  ts_ok (NewTemporalStore s) (MkTdb m (fun _ => no_hist)) m.
Proof.
  intros Hs Hi. constructor; cbn [NewTemporalStore store seqCache plain hist]; try done.
  - intros l q Hq. rewrite Hi by by apply internal_version. unfold version_at. by destruct (1 <=? q).
  - intros l Hl. by rewrite Hi by by apply internal_current.
Qed.

(** C9: The temporal store implements the abstract temporal database.  Run a
    sequence of versioned puts, plain puts and deletes, reads, version listings,
    as-of reads and restarts over a raw store that keeps its promises and holds
    no internal key yet; each of a put's two writes may fail.  Keys of versioned
    puts and of reads are not empty and do not end in [:current], and plain keys
    lie outside the kernel's name space: other keys collide
    ([pointer_read_from_other_key], [plain_put_forges_version]).  The run never
    panics and every answer is the abstract one: a put reports the next number
    of its key and appends one version, or an error having left nothing or one
    orphan version; a listing returns the versions in order, an as-of read the
    newest one written by then, a read the plain value or the payload of the
    last committed version. *)
Theorem temporal_store_refines s m ops N n :
  raw_rep s m -> (forall k, internal_key k = true -> m k = None) ->
  Forall (op_ok N) ops -> len ops < N < 2 ^ 64 -> raw_room s n -> total_cost ops <= n ->
  exists ts' l D', exec_tops ops (NewTemporalStore s) = Ret (ts', l) /\
    tspecs (MkTdb m (fun _ => no_hist)) ops l D'.
Proof.
  intros Hs Hi Hok HN Hroom Hn.
  destruct (exec_tops_ok ops (NewTemporalStore s) _ m N n (fresh_ok s m Hs Hi) Hok) as (ts' & l & D' & m' & E & Hsp & _);
    [lia|intros k; cbn; change (next_seq no_hist) with 1; lia|done|done|].
  by exists ts', l, D'.
Qed.
End Ops.

(** ** A reference store

    A finite map with a script of write failures: it satisfies the laws, and
    the concrete runs of this development use it. *)
Record mem_store := MkMem { mem_data : gmap bytes bytes; mem_faults : list bool }.

Definition mem_effect (cmd : Command) (d : gmap bytes bytes) : gmap bytes bytes :=
  if beqb cmd.(CType) CommandPut
  then match cmd.(CValue) with Some v => <[cmd.(CKey) := v]> d | None => delete cmd.(CKey) d end
  else if beqb cmd.(CType) CommandDelete then delete cmd.(CKey) d
  else d.

Definition pair_le (a b : bytes * bytes) : Prop := key_le a.1 b.1.
#[export] Instance pair_le_dec : RelDecision pair_le.
Proof. intros a b. unfold pair_le. apply _. Defined.
#[export] Instance pair_le_trans : Transitive pair_le.
Proof. intros a b c. apply key_le_trans. Qed.
#[export] Instance pair_le_total : Total pair_le.
Proof. intros a b. apply key_le_total. Qed.

#[export] Instance mem_raw : TemporalRawStore mem_store := {
  raw_write cmd s :=
    Ret match s.(mem_faults) with
        | true :: fs => (MkMem s.(mem_data) fs, false)
        | fs => (MkMem (mem_effect cmd s.(mem_data)) (tail fs), true)
        end;
  raw_get key s := v ← map_read (fun k => s.(mem_data) !! k) key; Ret (s, v);
  raw_scan lo hi s :=
    Ret (s, merge_sort pair_le (List.filter (fun e => in_range lo hi e.1) (map_to_list s.(mem_data)))) }.

Lemma mem_effect_ok cmd d m : (forall k, d !! k = m k) -> forall k, mem_effect cmd d !! k = cmd_effect cmd m k.
Proof.
  intros E k. unfold mem_effect, cmd_effect. destruct (decide (cmd.(CKey) = k)) as [<-|Hk].
  - destruct (beqb (CType cmd) CommandPut).
    { rewrite fn_lookup_insert. destruct (CValue cmd); [apply lookup_insert_eq|apply lookup_delete_eq]. }
    destruct (beqb (CType cmd) CommandDelete); [rewrite fn_lookup_insert; apply lookup_delete_eq|done].
  - destruct (beqb (CType cmd) CommandPut).
    { rewrite fn_lookup_insert_ne by done. destruct (CValue cmd); [by rewrite lookup_insert_ne|by rewrite lookup_delete_ne]. }
    destruct (beqb (CType cmd) CommandDelete); [rewrite fn_lookup_insert_ne by done; by rewrite lookup_delete_ne|done].
Qed.

Lemma map_read_ext m m' key : (forall k, m k = m' k) -> map_read m key = map_read m' key.
Proof.
  intros E. unfold map_read. rewrite !E. destruct (m' key); [done|]. destruct (m' (CurrentStorageKey key)) as [raw|]; [|done].
  destruct (DecodeCurrentValue_safe raw) as [[cur|] ->]; cbn [mbind go_bind]; [|done]. by rewrite E.
Qed.

Lemma map_read_safe m key : safe (map_read m key).
Proof.
  unfold map_read. destruct (m key); [by eexists|]. destruct (m (CurrentStorageKey key)) as [raw|]; [|by eexists].
  destruct (DecodeCurrentValue_safe raw) as [[cur|] ->]; cbn [mbind go_bind]; [|by eexists].
  destruct (m (VersionStorageKey key (CurSeq cur))) as [vr|]; [|by eexists].
  destruct (DecodeVersionRecord_safe vr) as [rec ->]. by eexists.
Qed.

Lemma mem_scan_ok d m lo hi : (forall k, d !! k = m k) ->
  is_scan m lo hi (merge_sort pair_le (List.filter (fun e => in_range lo hi e.1) (map_to_list d))).
Proof.
  intros E. set (l := List.filter _ _).
  assert (forall k v, (k, v) ∈ merge_sort pair_le l <-> in_range lo hi k = true /\ m k = Some v) as Hin.
  { intros k v. rewrite merge_sort_Permutation. unfold l. rewrite list_elem_of_In, filter_In, <- list_elem_of_In, elem_of_map_to_list, E. tauto. }
  split; [|done]. assert (NoDup (merge_sort pair_le l).*1) as Hnd.
  { rewrite merge_sort_Permutation. eapply sublist_NoDup; [apply (NoDup_fst_map_to_list d)|]. apply fmap_sublist.
    clear. unfold l. induction (map_to_list d) as [|x r IH]; [constructor|]. cbn [List.filter].
    destruct (in_range lo hi x.1); by constructor. }
  pose proof (StronglySorted_merge_sort pair_le l) as Hs. revert Hnd Hs. generalize (merge_sort pair_le l) as r.
  clear. induction r as [|a r IH]; intros Hnd Hs; [constructor|]. cbn [fmap list_fmap] in Hnd. apply NoDup_cons in Hnd as [Ha Hnd].
  apply StronglySorted_inv in Hs as [Hs Hall]. constructor; [by apply IH|]. rewrite Forall_forall in Hall |- *.
  intros b Hb. specialize (Hall b Hb). unfold pair_le, key_le in Hall. rewrite bleb_le in Hall.
  apply ble_lteq in Hall as [?|E]; [done|]. destruct Ha. rewrite E. by apply list_elem_of_fmap_2.
Qed.

#[export] Program Instance mem_laws : RawStoreLaws mem_store := {
  raw_rep s m := forall k, s.(mem_data) !! k = m k;
  raw_accepts cmd := True;
  raw_room s n := True }.
Next Obligation. done. Qed.
Next Obligation.
  intros [d fs] m cmd n Hs _ _ _. cbn in *. destruct fs as [|[] fs]; do 2 eexists; (split; [done|]); (split; [|done]); cbn;
    [by apply mem_effect_ok|done|by apply mem_effect_ok].
Qed.
Next Obligation.
  intros [d fs] m key Hs. cbn in *. rewrite (map_read_ext _ m) by done.
  destruct (map_read_safe m key) as [r ->]. by exists (MkMem d fs), r.
Qed.
Next Obligation.
  intros [d fs] m lo hi Hs. cbn in *. do 2 eexists. split; [done|]. split_and!; [by apply mem_scan_ok|done|done].
Qed.

(** A run in which the pointer write of the second put fails. *)
Definition demo_store : mem_store := MkMem ∅ [false; false; false; true].
Definition demo_put (payload : bytes) (nanos : Z) : top := TPut (str "quote:1") payload nanos (str "feed") 1.
Definition demo_tops : list top :=
  [demo_put (str "p1") 10; demo_put (str "p2") 20; TList (str "quote:1"); TAsOf (str "quote:1") 25; TGet (str "quote:1"); TRestart;
   demo_put (str "p3") 30; TAsOf (str "quote:1") 25; TGet (str "quote:1")].

Lemma demo_put_ok payload nanos : 0 <= nanos < 100 -> op_ok (St := mem_store) 10 (demo_put payload nanos).
Proof.
  intros Hn. split; [reflexivity|]. split; [unfold is_s64; lia|]. split; [reflexivity|]. split; [unfold is_u32; lia|].
  intros seq _. split; exact I.
Qed.

Lemma demo_tops_ok : Forall (op_ok (St := mem_store) 10) demo_tops.
Proof.
  unfold demo_tops. repeat (apply Forall_cons; split; [first [apply demo_put_ok; lia | exact I | split; reflexivity]|]). constructor.
Qed.

Lemma temporal_store_refines_witness :
  exists ts' l D', exec_tops demo_tops (NewTemporalStore demo_store) = Ret (ts', l) /\
    tspecs (MkTdb (fun _ => None) (fun _ => no_hist)) demo_tops l D'.
Proof.
  apply (temporal_store_refines demo_store (fun _ => None) demo_tops 10 (total_cost demo_tops)).
  - intros k. apply lookup_empty.
  - done.
  - apply demo_tops_ok.
  - by vm_compute.
  - exact I.
  - reflexivity.
Defined.

Definition seqs_of (a : tanswer) : option (option Z + list Z + option bytes) :=
  match a with
  | ASeq q => Some (inl (inl q))
  | AVersions vs => Some (inl (inr (map Seq vs)))
  | AVersion v => Some (inr (Payload <$> v))
  | AValue v => Some (inr v)
  | _ => None
  end.

(** A put that reported an error is visible and later replaced.  The version of
    the second put stays behind when its pointer write fails: listings and
    as-of reads show it although the caller got an error, and the next put
    reuses its number, so an as-of read of the past changes its answer. *)
Theorem failed_put_visible_then_replaced :
  match exec_tops demo_tops (NewTemporalStore demo_store) with
  | Ret (_, l) => map seqs_of l
  | Panic => []
  end = [Some (inl (inl (Some 1))); Some (inl (inl None)); Some (inl (inr [1; 2])); Some (inr (Some (str "p2"))); Some (inr (Some (str "p1"))); None;
         Some (inl (inl (Some 2))); Some (inr (Some (str "p1"))); Some (inr (Some (str "p3")))].
Proof. vm_compute. reflexivity. Qed.

(** The pointer of one logical key is read from another one's payload.  After a
    versioned put to "k:current", whose payload decodes as a pointer, the first
    put to "k" takes its number from that payload instead of starting at 1. *)
Theorem pointer_read_from_other_key :
  let forged := EncodeCurrentValue (MkCurrent 41 []) in
  match exec_tops [TPut (str "k:current") forged 1 [] 0; TPut (str "k") (str "p") 2 [] 0] (NewTemporalStore (MkMem ∅ [])) with
  | Ret (_, l) => map seqs_of l
  | Panic => []
  end = [Some (inl (inl (Some 1))); Some (inl (inl (Some 42)))].
Proof. vm_compute. reflexivity. Qed.
End TsRun.
