(* ===== verification/TemporalAudit.v ===== *)
(** * Replay and audit of the temporal store

    [ReplayFingerprint] on any contents of the store; [ReplayFingerprint],
    [ListWrites] and [ListWritesPage] in every state the temporal store can
    reach: which keys a replay counts and which it reports,
    that an audit lists exactly the writes that match, and when the pages of an
    audit add up to it. *)
From stdpp Require Import sorting.
From S2P Require Import Prelude Bytes Sha256 Entries Temporal.
From S2P Require Import Engine KVServer TemporalStore TemporalRun.
Import Kv Tstore TsRun.

Module TsAudit.
Section Audit.
Context {St : Type} `{RawStoreLaws St}.
Implicit Type ts : TemporalStore (St := St).

(** ** Replay *)
Lemma strip_current l : take (length (CurrentStorageKey l) - length currentSuffix) (CurrentStorageKey l) = l.
Proof. unfold CurrentStorageKey. rewrite length_app. replace (_ - _)%nat with (length l) by lia. apply take_app_length. Qed.

Lemma pointer_keys_in raw l : l ∈ pointer_keys raw <-> l <> [] /\ exists val, (CurrentStorageKey l, val) ∈ raw.
Proof.
  unfold pointer_keys. rewrite list_elem_of_In, in_map_iff. split.
  - intros ([k val] & E & Hin). apply filter_In in Hin as [Hin Hc]. apply IsCurrent_spec in Hc as (l' & Hl' & Ek).
    cbn [fst] in *. subst k. rewrite strip_current in E. subst l'. split; [done|]. exists val. by apply list_elem_of_In.
  - intros (Hl & val & Hin). exists (CurrentStorageKey l, val). cbn [fst]. split; [apply strip_current|]. apply filter_In.
    split; [by apply list_elem_of_In|]. apply IsCurrent_spec. by exists l.
Qed.

Lemma pointer_keys_NoDup raw : StronglySorted (fun a b => blt a.1 b.1) raw -> NoDup (pointer_keys raw).
Proof.
  induction 1 as [|[k val] raw Hs IH Hk]; [constructor|]. unfold pointer_keys. cbn [List.filter fst].
  destruct (IsCurrentStorageKey k) eqn:C; [|done]. cbn [map fst]. constructor; [|done].
  apply IsCurrent_spec in C as (l & Hl & ->). rewrite strip_current. intros (_ & v & Hin)%pointer_keys_in.
  rewrite Forall_forall in Hk. specialize (Hk _ Hin). by apply blt_irrefl in Hk.
Qed.

(** The logical keys a replay of a prefix visits. *)
Definition replayed (D : tdb) (prefix : bytes) (ks : list bytes) : Prop :=
  StronglySorted blt ks /\
  forall l, l ∈ ks <-> in_range prefix (scan_upper prefix) (CurrentStorageKey l) = true /\ committed (hist D l) <> [].

Lemma sorted_keys l : StronglySorted key_le l -> NoDup l -> StronglySorted blt l.
Proof.
  induction 1 as [|x l Hl IH Hx]; intros Hn; [constructor|]. apply NoDup_cons in Hn as [Hnx Hn]. constructor; [by apply IH|].
  rewrite Forall_forall in Hx |- *. intros y Hy. specialize (Hx y Hy). unfold key_le in Hx. rewrite bleb_le in Hx.
  apply ble_lteq in Hx as [?| ->]; done.
Qed.

Lemma replayed_ok ts D m prefix raw : ts_ok ts D m -> is_scan m prefix (scan_upper prefix) raw ->
  replayed D prefix (merge_sort key_le (pointer_keys raw)).
Proof.
  intros Ht [Hsort Hraw]. split.
  - apply sorted_keys; [by apply StronglySorted_merge_sort; apply _|]. rewrite merge_sort_Permutation. by apply pointer_keys_NoDup.
  - intros l. rewrite merge_sort_Permutation, pointer_keys_in. split.
    + intros (Hl & val & [Hr Hm]%Hraw). split; [done|]. rewrite (to_pointer _ _ _ Ht) in Hm by done. unfold pointer_of in Hm.
      intros C. by rewrite C in Hm.
    + intros [Hr Hc]. assert (clean l = true) as Hcl.
      { apply (to_clean _ _ _ Ht). unfold versions_of. by destruct (committed (hist D l)). }
      apply clean_spec in Hcl as [Hl _]. split; [done|]. destruct (last (committed (hist D l))) as [v|] eqn:E.
      * exists (EncodeCurrentValue (MkCurrent v.(Seq) (PayloadHash v))). apply Hraw. split; [done|].
        rewrite (to_pointer _ _ _ Ht) by done. unfold pointer_of. by rewrite E.
      * by apply last_None in E.
Qed.

(** The version that stands for a key, and the entry it gives. *)
Definition shown (D : tdb) (t : Z) (l : bytes) : option Version :=
  if 0 <? t then AsOf (versions_of (hist D l)) t else last (versions_of (hist D l)).
Definition shown_entry (D : tdb) (t : Z) (l : bytes) : option Entry :=
  (fun v => MkEntry l v.(Seq) v.(Payload)) <$> shown D t l.
Definition half_written (D : tdb) (t : Z) (l : bytes) : bool :=
  negb (0 <? t) && match orphan (hist D l) with Some _ => true | None => false end.

Lemma Latest_last l vs : numbered l vs -> Latest vs = last vs.
Proof.
  intros Hn. destruct (Latest vs) as [v|] eqn:E.
  - apply Latest_spec in E as [Hin Hmax]. destruct (last vs) as [w|] eqn:El.
    2: { apply last_None in El as ->. set_solver. }
    f_equal. pose proof El as Hw. rewrite last_lookup in Hw. pose proof (list_elem_of_lookup_2 _ _ _ Hw) as Hwin.
    apply list_elem_of_lookup in Hin as [i Hi]. destruct (Hn _ _ Hw) as (_ & Ew & _), (Hn _ _ Hi) as (_ & Ei & _).
    specialize (Hmax w Hwin). pose proof (lookup_lt_Some _ _ _ Hi). assert (i = pred (length vs)) as -> by lia. congruence.
  - apply (proj1 (Latest_None vs)) in E as ->. done.
Qed.

Lemma replay_key_ok ts D m t l : ts_ok ts D m -> committed (hist D l) <> [] ->
  exists s, replay_key (0 <? t) t l ts = Ret (set_store s ts, (shown_entry D t l, half_written D t l)) /\
    ts_ok (set_store s ts) D m.
Proof.
  intros Ht Hc. unfold replay_key, shown_entry, shown, half_written.
  destruct (ListVersions_ok ts D m l Ht) as (s & -> & Hs & _). cbn [mbind go_bind].
  destruct (0 <? t); cbn [negb andb]; [by exists s|].
  rewrite (Latest_last l) by apply Ht. assert (clean l = true) as Hcl.
  { apply (to_clean _ _ _ Ht). unfold versions_of. by destruct (committed (hist D l)). }
  destruct (last (versions_of (hist D l))) as [w|] eqn:El.
  2: { apply last_None in El. unfold versions_of in El. apply app_eq_nil in El as [El _]. done. }
  destruct (currentPointer_ok _ D m l Hs Hcl) as (s' & -> & Hs' & _). cbn [mbind go_bind fmap option_fmap option_map].
  exists s'. split; [|done]. do 3 f_equal. unfold pointer_of.
  destruct (last (committed (hist D l))) as [v|] eqn:Ev; [|by apply last_None in Ev]. cbn [fmap option_fmap option_map].
  cbn [CurSeq CurPayloadHash]. unfold versions_of in El. destruct (orphan (hist D l)) as [x|] eqn:Eo.
  - change (option_list (Some x)) with [x] in El. rewrite last_snoc in El. injection El as <-.
    destruct (last_committed ts D m l v Ht Ev) as (-> & _).
    destruct (to_numbered _ _ _ Ht l (length (committed (hist D l))) x) as (_ & -> & _).
    { unfold versions_of. rewrite Eo. by apply list_lookup_middle. }
    unfold len. by replace (_ =? _) with false by lia.
  - change (option_list None) with (@nil Version) in El. rewrite app_nil_r, Ev in El. injection El as <-.
    by rewrite Z.eqb_refl, beqb_refl.
Qed.

Lemma replay_keys_ok ts D m t ks : ts_ok ts D m -> Forall (fun l => committed (hist D l) <> []) ks ->
  exists s, replay_keys (0 <? t) t ks ts =
      Ret (set_store s ts, (omap (shown_entry D t) ks, List.filter (half_written D t) ks)) /\
    ts_ok (set_store s ts) D m.
Proof.
  intros Ht Hks. revert ts Ht. induction Hks as [|l ks Hl Hks IH]; intros ts Ht; cbn [replay_keys].
  { exists (store ts). destruct ts. done. }
  destruct (replay_key_ok ts D m t l Ht Hl) as (s & -> & Hs). cbn [mbind go_bind].
  destruct (IH _ Hs) as (s' & -> & Hs'). cbn [mbind go_bind]. exists s'. split; [|done]. cbn [omap list_omap List.filter].
  destruct (shown_entry D t l); by destruct (half_written D t l).
Qed.

(** A replay reports exactly the half-finished writes.  In every reachable
    state it visits, in key order and each once, the logical keys with a
    committed version whose pointer lies in the scanned interval; its
    fingerprint is that of their current versions, or of the versions visible
    at the bound; without a bound the reported mismatches are exactly the keys
    left with an orphan version by a failed pointer write, with a bound none.
    It never panics. *)
Theorem replay_reports_half_writes ts D m prefix t :
  ts_ok ts D m ->
  exists s ks, replayed D prefix ks /\ ts_ok (set_store s ts) D m /\
    ReplayFingerprint prefix t ts = Ret (set_store s ts,
      MkReplay (u32 (len ks)) (List.filter (half_written D t) ks) (Fingerprint (omap (shown_entry D t) ks)) (0 <? t)).
Proof.
  intros Ht. unfold ReplayFingerprint.
  destruct (raw_scan_ok (store ts) m prefix (scan_upper prefix) (to_rep _ _ _ Ht)) as (s & raw & -> & Hraw & Hs & _).
  cbn [mbind go_bind]. pose proof (replayed_ok ts D m prefix raw Ht Hraw) as Hks.
  destruct (replay_keys_ok (set_store s ts) D m t (merge_sort key_le (pointer_keys raw))) as (s' & -> & Hs').
  { by apply ts_ok_store. }
  { apply Forall_forall. intros l Hl. by apply Hks. }
  by exists s', (merge_sort key_le (pointer_keys raw)).
Qed.

(** ** Replay of a store with any contents *)

(** The version record of a logical key in a store, damaged or not. *)
Definition stamp (l : bytes) (seq : Z) (rec : Version) : Version :=
  MkVersion l seq rec.(WriteNanos) rec.(Payload) rec.(Source) rec.(SchemaVer) rec.(PersistedHash).
Definition recorded (m : live_map) (l : bytes) (v : Version) : Prop :=
  is_u64 v.(Seq) /\ exists val rec, m (VersionStorageKey l v.(Seq)) = Some val /\
    DecodeVersionRecord val = Ret (Some rec) /\ v = stamp l v.(Seq) rec.
(** The newest recorded version, or the newest one written by [t]. *)
Definition counts (t : Z) (v : Version) : Prop := 0 < t -> v.(WriteNanos) <= t.
Definition chosen (m : live_map) (t : Z) (l : bytes) (r : option Version) : Prop :=
  match r with
  | Some v => (recorded m l v /\ counts t v) /\ forall w, recorded m l w -> counts t w -> w.(Seq) <= v.(Seq)
  | None => forall w, recorded m l w -> ~ counts t w
  end.
(** The pointer of the key names that version and has the hash of its payload. *)
Definition agrees (m : live_map) (row : bytes * option Version) : bool :=
  match row.2, m (CurrentStorageKey row.1) with
  | Some v, Some raw =>
      match DecodeCurrentValue raw with
      | Ret (Some cur) => (cur.(CurSeq) =? v.(Seq)) && beqb cur.(CurPayloadHash) (HashPayload v.(Payload))
      | _ => false
      end
  | _, _ => false
  end.
Definition row_entry (row : bytes * option Version) : option Entry := (fun v => MkEntry row.1 v.(Seq) v.(Payload)) <$> row.2.
Definition reported (m : live_map) (t : Z) (row : bytes * option Version) : bool := negb (0 <? t) && negb (agrees m row).

Definition pick_raw (l : bytes) (kv : bytes * bytes) : option Version :=
  match ParseVersionStorageKey kv.1 with
  | Some (g, s) =>
      if beqb g l then match DecodeVersionRecord kv.2 with Ret (Some rec) => Some (stamp l s rec) | _ => None end else None
  | None => None
  end.

Lemma collect_versions_any l raw : collect_versions l raw = Ret (omap (pick_raw l) raw).
Proof.
  induction raw as [|[k val] raw IH]; [done|]. cbn [collect_versions omap list_omap]. unfold pick_raw at 1. cbn [fst snd].
  destruct (ParseVersionStorageKey k) as [[g s]|]; [|done]. destruct (beqb g l); [|done]. cbn [negb].
  destruct (DecodeVersionRecord_safe val) as [rec ->]. cbn [mbind go_bind]. destruct rec; [|done]. rewrite IH. done.
Qed.

Lemma pick_raw_recorded m l v raw : is_scan m (VersionStorageKeyLowerBound l) (VersionStorageKeyUpperBound l) raw ->
  v ∈ omap (pick_raw l) raw <-> recorded m l v.
Proof.
  intros [_ Hraw]. rewrite list_elem_of_omap. split.
  - intros ([k val] & Hk & P). apply Hraw in Hk as [_ Hm]. unfold pick_raw in P. cbn [fst snd] in P.
    destruct (ParseVersionStorageKey k) as [[g s]|] eqn:E; [|done]. destruct (beqb g l) eqn:G; [|done]. bcmp. subst g.
    apply parse_version_key_inv in E as [-> Hu]. destruct (DecodeVersionRecord val) as [[rec|]|] eqn:Ed; [|done|done].
    injection P as <-. split; [done|]. by exists val, rec.
  - intros (Hu & val & rec & Hm & Hd & Ev). exists (VersionStorageKey l v.(Seq), val). split.
    + apply Hraw. split; [|done]. destruct (version_key_in_bounds l v.(Seq) Hu) as [H1 H2]. by apply in_range_intro.
    + unfold pick_raw. cbn [fst snd]. rewrite parse_version_key, beqb_refl, Hd by done. by rewrite <- Ev.
Qed.

Lemma ListVersions_any ts m l : raw_rep ts.(store) m ->
  exists s vs, ListVersions l ts = Ret (set_store s ts, vs) /\ raw_rep s m /\ forall v, v ∈ vs <-> recorded m l v.
Proof.
  intros Hs. unfold ListVersions.
  destruct (raw_scan_ok ts.(store) m (VersionStorageKeyLowerBound l) (VersionStorageKeyUpperBound l) Hs) as (s & raw & -> & Hraw & Hs' & _).
  cbn [mbind go_bind]. rewrite collect_versions_any. cbn [mbind go_bind]. do 2 eexists. split; [done|]. split; [done|].
  intros v. rewrite merge_sort_Permutation. by apply pick_raw_recorded.
Qed.

Lemma currentPointer_any ts m l raw : raw_rep ts.(store) m -> m (CurrentStorageKey l) = Some raw ->
  exists s cur, currentPointer l ts = Ret (set_store s ts, cur) /\ raw_rep s m /\ DecodeCurrentValue raw = Ret cur.
Proof.
  intros Hs Hm. unfold currentPointer. destruct (raw_get_ok ts.(store) m (CurrentStorageKey l) Hs) as (s & r & -> & Hr & Hs' & _).
  unfold map_read in Hr. rewrite Hm in Hr. injection Hr as <-. cbn [mbind go_bind].
  destruct (DecodeCurrentValue_safe raw) as [cur ->]. by exists s, cur.
Qed.

Lemma replay_key_any ts m t l raw : raw_rep ts.(store) m -> m (CurrentStorageKey l) = Some raw ->
  exists s r, replay_key (0 <? t) t l ts = Ret (set_store s ts, (row_entry (l, r), reported m t (l, r))) /\ raw_rep s m /\ chosen m t l r.
Proof.
  intros Hs Hm. unfold replay_key. destruct (ListVersions_any ts m l Hs) as (s & vs & -> & Hs' & Hvs). cbn [mbind go_bind].
  unfold reported. destruct (Z.ltb_spec 0 t) as [Ht | Ht]; cbn [negb andb].
  - exists s, (AsOf vs t). split; [done|]. split; [done|]. pose proof (AsOf_spec vs t) as Ha. unfold chosen, counts.
    destruct (AsOf vs t) as [v|]; cbn [is_asof] in Ha.
    + destruct Ha as (Hin & Hv & Hmax). split; [split; [by apply Hvs|done]|]. intros w Hw Hc. apply Hmax; [by apply Hvs|]. by apply Hc.
    + intros w Hw%Hvs Hc. apply (Ha w Hw). by apply Hc.
  - destruct (Latest vs) as [v|] eqn:El.
    + destruct (currentPointer_any (set_store s ts) m l raw Hs' Hm) as (s' & cur & -> & Hs'' & Hd). cbn [mbind go_bind].
      exists s', (Some v). split; [|split; [done|]].
      * unfold agrees. cbn [fst snd]. rewrite Hm, Hd. destruct cur as [cur|]; [|done]. by rewrite negb_andb.
      * apply Latest_spec in El as [Hin Hmax]. split; [split; [by apply Hvs|unfold counts; lia]|]. intros w Hw _. by apply Hmax, Hvs.
    + apply Latest_None in El as ->. exists s, None. split; [done|]. split; [done|]. intros w Hw%Hvs. by apply elem_of_nil in Hw.
Qed.

Lemma replay_keys_any ts m t ks : raw_rep ts.(store) m -> Forall (fun l => exists raw, m (CurrentStorageKey l) = Some raw) ks ->
  exists s rows, replay_keys (0 <? t) t ks ts = Ret (set_store s ts, (omap row_entry rows, map fst (List.filter (reported m t) rows))) /\
    raw_rep s m /\ map fst rows = ks /\ Forall (fun row => chosen m t row.1 row.2) rows.
Proof.
  intros Hs Hks. revert ts Hs. induction Hks as [|l ks [raw Hl] _ IH]; intros ts Hs; cbn [replay_keys].
  { exists ts.(store), []. destruct ts. done. }
  destruct (replay_key_any ts m t l raw Hs Hl) as (s & r & -> & Hs' & Hr). cbn [mbind go_bind].
  destruct (IH (set_store s ts) Hs') as (s' & rows & -> & Hs'' & <- & Hrows). cbn [mbind go_bind].
  exists s', ((l, r) :: rows). split; [|split; [done|]; split; [done|]; by constructor].
  cbn [omap list_omap List.filter]. destruct (row_entry (l, r)); by destruct (reported m t (l, r)).
Qed.

(** C10: What a replay reports, whatever the store holds, damaged or forged
    records included.  It never panics; it visits, in key order and each once,
    the non-empty logical keys whose pointer lies in the scanned interval; for
    each it chooses the recorded version with the greatest number (with a time
    bound: the greatest written by then), also when that version is an orphan
    left by a failed put; the fingerprint is that of the chosen versions; and
    without a bound the mismatches are exactly the keys that have no readable
    version, whose pointer does not decode, names another number than the
    chosen version, or has another hash than the hash of its payload.  With a
    bound nothing is reported.  The raw store keeps its promises. *)
Theorem replay_reports_mismatches ts m prefix t :
  raw_rep ts.(store) m ->
  exists s rows, ReplayFingerprint prefix t ts = Ret (set_store s ts,
      MkReplay (u32 (len rows)) (map fst (List.filter (reported m t) rows)) (Fingerprint (omap row_entry rows)) (0 <? t)) /\
    raw_rep s m /\ StronglySorted blt (map fst rows) /\ Forall (fun row => chosen m t row.1 row.2) rows /\
    forall l, l ∈ map fst rows <-> l <> [] /\ in_range prefix (scan_upper prefix) (CurrentStorageKey l) = true /\ m (CurrentStorageKey l) <> None.
Proof.
  intros Hs. unfold ReplayFingerprint.
  destruct (raw_scan_ok ts.(store) m prefix (scan_upper prefix) Hs) as (s & raw & -> & [Hsort Hraw] & Hs' & _). cbn [mbind go_bind].
  set (ks := merge_sort key_le (pointer_keys raw)).
  assert (forall l, l ∈ ks <-> l <> [] /\ in_range prefix (scan_upper prefix) (CurrentStorageKey l) = true /\ m (CurrentStorageKey l) <> None) as Hks.
  { intros l. unfold ks. rewrite merge_sort_Permutation, pointer_keys_in. split.
    - intros (Hl & val & [Hr Hm]%Hraw). by rewrite Hm.
    - intros (Hl & Hr & Hm). split; [done|]. destruct (m (CurrentStorageKey l)) as [val|] eqn:E; [|done]. exists val. by apply Hraw. }
  destruct (replay_keys_any (set_store s ts) m t ks) as (s' & rows & -> & Hs'' & Erows & Hrows); [done| |].
  { apply Forall_forall. intros l (_ & _ & Hm)%Hks. destruct (m (CurrentStorageKey l)) as [val|]; [by exists val|done]. }
  cbn [mbind go_bind]. exists s', rows. split; [|split; [done|]; rewrite Erows; split; [|done]].
  - do 3 f_equal. rewrite <- Erows. unfold len. by rewrite length_map.
  - apply sorted_keys; [by apply StronglySorted_merge_sort; apply _|]. unfold ks. rewrite merge_sort_Permutation. by apply pointer_keys_NoDup.
Qed.

(** ** Listing writes *)
Definition in_window (tFrom tTo : Z) (src : bytes) (v : Version) : bool :=
  negb ((0 <? tFrom) && (v.(WriteNanos) <? tFrom)) && negb ((0 <? tTo) && (tTo <? v.(WriteNanos))) &&
  (beqb src [] || beqb v.(Source) src).

Definition env_of (v : Version) : WriteEnvelope :=
  MkEnvelope v.(LogicalKey) v.(Seq) v.(WriteNanos) v.(Source) v.(SchemaVer) v.(PersistedHash) v.(Payload) true.

Definition hit (D : tdb) (tFrom tTo : Z) (src : bytes) (kv : bytes * bytes) : option WriteEnvelope :=
  match ParseVersionStorageKey kv.1 with
  | Some (l, s) =>
      v ← version_at (versions_of (hist D l)) s; if in_window tFrom tTo src v then Some (env_of v) else None
  | None => None
  end.

Lemma write_hit_ok ts D m tFrom tTo src k val : ts_ok ts D m -> m k = Some val ->
  write_hit tFrom tTo src k val = Ret (hit D tFrom tTo src (k, val)).
Proof.
  intros Ht Hm. unfold write_hit, hit. cbn [fst]. destruct (IsCurrentStorageKey k) eqn:C.
  { apply IsCurrent_spec in C as (l & _ & ->). by rewrite Parse_current_key. }
  destruct (ParseVersionStorageKey k) as [[l s]|] eqn:P; [|done].
  destruct (scanned_version ts D m k val l s Ht Hm P) as (v & _ & _ & -> & (El & _ & _ & Hh) & Es & _ & _ & ->).
  cbn [mbind go_bind option_bind strip_key WriteNanos Source PersistedHash Payload SchemaVer]. unfold in_window.
  destruct ((0 <? tFrom) && (WriteNanos v <? tFrom)); [done|]. destruct ((0 <? tTo) && (tTo <? WriteNanos v)); [done|].
  cbn [negb andb]. destruct (beqb src []), (beqb (Source v) src); cbn [negb andb orb]; try done;
    unfold env_of; rewrite Hh, beqb_refl, orb_true_r, El, Es; done.
Qed.

Lemma writes_loop_ok ts D m tFrom tTo src raw acc by_src : ts_ok ts D m -> (forall k val, (k, val) ∈ raw -> m k = Some val) ->
  writes_loop tFrom tTo src acc by_src raw =
    Ret (acc ++ omap (hit D tFrom tTo src) raw,
         fold_left (fun c e => count_source e c) (omap (hit D tFrom tTo src) raw) by_src).
Proof.
  intros Ht. revert acc by_src. induction raw as [|[k val] raw IH]; intros acc by_src Hin; cbn [writes_loop omap list_omap].
  { by rewrite app_nil_r. }
  rewrite (write_hit_ok ts D m) by (done || set_solver). cbn [mbind go_bind].
  destruct (hit D tFrom tTo src (k, val)) as [e|]; rewrite IH by set_solver; [|done]. by rewrite <- app_assoc.
Qed.

(** *** The order of the listing *)
Lemma envelope_less_spec a b : envelope_less a b = true <->
  blt a.(WLogicalKey) b.(WLogicalKey) \/ (a.(WLogicalKey) = b.(WLogicalKey) /\ a.(WSeq) < b.(WSeq)).
Proof.
  unfold envelope_less. destruct (beqb (WLogicalKey a) (WLogicalKey b)) eqn:E; bcmp.
  - rewrite E, Z.ltb_lt. split; [tauto|]. intros [H'|H']; [border|tauto].
  - rewrite bltb_lt. split; [tauto|]. intros [H'|[H' _]]; [done|]. by destruct E.
Qed.

Lemma envelope_le_spec a b : envelope_le a b <->
  blt a.(WLogicalKey) b.(WLogicalKey) \/ (a.(WLogicalKey) = b.(WLogicalKey) /\ a.(WSeq) <= b.(WSeq)).
Proof.
  unfold envelope_le. rewrite <- not_true_iff_false, envelope_less_spec.
  destruct (blt_trichotomy (WLogicalKey a) (WLogicalKey b)) as [H'|[H'|H']].
  - split; [auto|]. intros _ [C|[C _]]; [border|]. rewrite C in H'. border.
  - rewrite H'. split.
    + intros Hn. right. split; [done|]. destruct (Z_le_gt_dec (WSeq a) (WSeq b)); [done|].
      destruct Hn. right. split; [done|lia].
    + intros [C|[_ C]] [C'|[_ C']]; try border. lia.
  - split; [intros []; auto|]. intros [C|[C _]]; [border|]. rewrite C in H'. border.
Qed.

#[local] Instance envelope_le_total : Total envelope_le.
Proof.
  intros a b. rewrite !envelope_le_spec.
  destruct (blt_trichotomy (WLogicalKey a) (WLogicalKey b)) as [C|[C|C]]; auto.
  rewrite C. destruct (Z.le_ge_cases (WSeq a) (WSeq b)); auto.
Qed.
#[local] Instance envelope_le_trans : Transitive envelope_le.
Proof.
  intros a b c. rewrite !envelope_le_spec. intros [C|[H1 H2]] [C'|[H1' H2']].
  - left. by eapply blt_trans.
  - left. by rewrite <- H1'.
  - left. by rewrite H1.
  - right. split; [congruence|lia].
Qed.

Lemma envelope_strict a b : strictly envelope_le a b <-> envelope_less a b = true.
Proof.
  unfold strictly. rewrite <- (not_false_iff_true (envelope_less a b)). unfold envelope_le at 2. split; [by intros []|].
  intros Hn. split; [|done]. apply envelope_le_spec. apply not_false_is_true, envelope_less_spec in Hn.
  destruct Hn as [?|[? ?]]; [by left|right; split; [done|lia]].
Qed.

(** The writes an audit is to return. *)
Definition audited (D : tdb) (prefix : bytes) (tFrom tTo : Z) (src : bytes) (e : WriteEnvelope) : Prop :=
  exists l v, v ∈ versions_of (hist D l) /\ in_range prefix (scan_upper prefix) (VersionStorageKey l v.(Seq)) = true /\
    in_window tFrom tTo src v = true /\ e = env_of v.

Lemma hit_Some ts D m tFrom tTo src k val e : ts_ok ts D m -> m k = Some val -> hit D tFrom tTo src (k, val) = Some e ->
  exists v, k = VersionStorageKey e.(WLogicalKey) e.(WSeq) /\ is_u64 e.(WSeq) /\
    v ∈ versions_of (hist D e.(WLogicalKey)) /\ in_window tFrom tTo src v = true /\ e = env_of v.
Proof.
  intros Ht Hm. unfold hit. cbn [fst]. destruct (ParseVersionStorageKey k) as [[l s]|] eqn:P; [|done].
  destruct (scanned_version ts D m k val l s Ht Hm P) as (v & -> & Hu & -> & (El & _) & Es & Hin & _).
  cbn [mbind option_bind]. destruct (in_window tFrom tTo src v) eqn:W; [|done]. intros [= <-]. exists v.
  cbn [env_of WLogicalKey WSeq]. rewrite El, Es. done.
Qed.

Lemma hits_in ts D m tFrom tTo src prefix raw e : ts_ok ts D m -> is_scan m prefix (scan_upper prefix) raw ->
  e ∈ omap (hit D tFrom tTo src) raw <-> audited D prefix tFrom tTo src e.
Proof.
  intros Ht [_ Hraw]. rewrite list_elem_of_omap. split.
  - intros ([k val] & Hin & Hh). apply Hraw in Hin as [Hr Hm].
    destruct (hit_Some ts D m tFrom tTo src k val e Ht Hm Hh) as (v & -> & _ & Hv & Hw & ->). by exists (LogicalKey v), v.
  - intros (l & v & Hv & Hr & Hw & ->). pose proof (version_seq_u64 ts D m l v Ht Hv) as Hu.
    pose proof (version_at_seq l _ v (to_numbered _ _ _ Ht l) Hv) as Ev.
    exists (VersionStorageKey l (Seq v), EncodeVersionRecord v). split.
    + apply Hraw. by rewrite (to_version _ _ _ Ht), Ev by done.
    + unfold hit. cbn [fst]. rewrite parse_version_key by done. cbv beta iota. rewrite Ev. cbn [mbind option_bind]. by rewrite Hw.
Qed.

Lemma hits_NoDup ts D m tFrom tTo src raw : ts_ok ts D m -> (forall k val, (k, val) ∈ raw -> m k = Some val) ->
  StronglySorted (fun a b => blt a.1 b.1) raw -> NoDup (omap (hit D tFrom tTo src) raw).
Proof.
  intros Ht Hin. induction 1 as [|[k val] raw Hs IH Hk]; [constructor|]. cbn [omap list_omap].
  destruct (hit D tFrom tTo src (k, val)) as [e|] eqn:E; [|apply IH; set_solver]. constructor; [|apply IH; set_solver].
  intros ([k' val'] & Hk' & E')%list_elem_of_omap. rewrite Forall_forall in Hk. specialize (Hk _ Hk').
  apply (hit_Some ts _ m) in E as (_ & -> & _); [|done|set_solver].
  apply (hit_Some ts _ m) in E' as (_ & -> & _); [|done|set_solver]. by apply blt_irrefl in Hk.
Qed.

(** *** Counts by source *)
Definition from_source (src : bytes) (e : WriteEnvelope) : bool := beqb e.(WSource) src.

Lemma u32_succ a : u32 (u32 a + 1) = u32 (a + 1).
Proof. unfold u32. by rewrite Zplus_mod_idemp_l. Qed.

Lemma count_sources_ok es src :
  fold_left (fun c e => count_source e c) es ∅ !! src =
  if decide (List.filter (from_source src) es = []) then None else Some (u32 (len (List.filter (from_source src) es))).
Proof.
  induction es as [|e es IH] using rev_ind; [done|]. rewrite fold_left_app, List.filter_app. cbn [fold_left List.filter].
  unfold count_source at 1. destruct (from_source src e) eqn:F; unfold from_source in F; bcmp.
  - subst src. rewrite lookup_insert_eq, decide_False by (intros [_ [=]]%app_eq_nil). rewrite IH.
    f_equal. rewrite len_app. destruct (decide _) as [->|]; [done|]. cbn [default]. apply u32_succ.
  - rewrite lookup_insert_ne by done. by rewrite app_nil_r.
Qed.

(** The totals of a listing: one line per source, in order, none empty. *)
Definition totals (es : list WriteEnvelope) (cs : list SourceCount) : Prop :=
  StronglySorted (fun a b => blt a.(SCSource) b.(SCSource)) cs /\
  forall c, c ∈ cs <-> (exists e, e ∈ es /\ e.(WSource) = c.(SCSource)) /\
                       c.(SCCount) = u32 (len (List.filter (from_source c.(SCSource)) es)).

Lemma sorted_map_counts (f : bytes -> Z) names : StronglySorted blt names ->
  StronglySorted (fun a b => blt a.(SCSource) b.(SCSource)) (map (fun src => MkSourceCount src (f src)) names).
Proof.
  induction 1 as [|x r Hr IH Hx]; cbn [map]; constructor; [done|]. rewrite Forall_forall in Hx. apply Forall_forall.
  intros c Hc. rewrite list_elem_of_In, in_map_iff in Hc. destruct Hc as (y & <- & Hy). cbn [SCSource].
  apply Hx. by apply list_elem_of_In.
Qed.

Lemma source_counts_ok es : totals es (source_counts (fold_left (fun c e => count_source e c) es ∅)).
Proof.
  set (bs := fold_left _ es ∅). set (names := merge_sort key_le (map fst (map_to_list bs))).
  assert (NoDup names) as Hnd by (unfold names; rewrite merge_sort_Permutation; apply NoDup_fst_map_to_list).
  assert (forall src, src ∈ names <-> exists e, e ∈ es /\ WSource e = src) as Hin.
  { intros src. unfold names. rewrite merge_sort_Permutation, list_elem_of_In, in_map_iff.
    assert (is_Some (bs !! src) <-> exists e, e ∈ es /\ WSource e = src) as <-.
    { unfold bs. rewrite count_sources_ok. destruct (decide _) as [E|E].
      - split; [by intros [? [=]]|]. intros (e & He & Es). rewrite list_elem_of_In in He.
        assert (In e (List.filter (from_source src) es)) as C by (apply filter_In; split; [done|]; by apply beqb_eq). by rewrite E in C.
      - split; [|done]. intros _. destruct (List.filter (from_source src) es) as [|e r] eqn:F; [done|].
        assert (In e (e :: r)) as C by by left. rewrite <- F in C. apply filter_In in C as [C1 C2]. exists e.
        split; [by apply list_elem_of_In|]. by apply beqb_eq. }
    split.
    - intros ([k v] & <- & Hk). apply list_elem_of_In, elem_of_map_to_list in Hk. by eexists.
    - intros [v Hv]. exists (src, v). split; [done|]. by apply list_elem_of_In, elem_of_map_to_list. }
  assert (forall src, src ∈ names -> default 0 (bs !! src) = u32 (len (List.filter (from_source src) es))) as Hval.
  { intros src (e & He & Es)%Hin. unfold bs. rewrite count_sources_ok, decide_False; [done|]. intros E.
    rewrite list_elem_of_In in He.
    assert (In e (List.filter (from_source src) es)) as C by (apply filter_In; split; [done|]; by apply beqb_eq). by rewrite E in C. }
  unfold source_counts. fold names. split.
  - assert (StronglySorted blt names) as Hs by (apply sorted_keys; [by apply StronglySorted_merge_sort; apply _|done]).
    by apply sorted_map_counts.
  - intros [src n]. cbn [SCSource SCCount]. rewrite list_elem_of_In, in_map_iff. split.
    + intros (x & [= <- <-] & Hx). apply list_elem_of_In in Hx. split; [by apply Hin|by apply Hval].
    + intros [He ->]. exists src. apply Hin in He. rewrite Hval by done. split; [done|]. by apply list_elem_of_In.
Qed.

Lemma totals_perm es es' cs : es ≡ₚ es' -> totals es cs -> totals es' cs.
Proof.
  intros Hp [Hs Hc]. split; [done|]. intros c. rewrite Hc.
  assert (len (List.filter (from_source (SCSource c)) es) = len (List.filter (from_source (SCSource c)) es')) as ->.
  { unfold len. f_equal. apply Permutation_length. clear -Hp. induction Hp; cbn [List.filter].
    - done.
    - destruct (from_source _ _); [by constructor|done].
    - destruct (from_source _ _), (from_source _ _); try done. constructor.
    - by etrans. }
  by setoid_rewrite Hp.
Qed.

(** A version is identified by its logical key and number. *)
Lemma audited_inj ts D m prefix tFrom tTo src e e' : ts_ok ts D m ->
  audited D prefix tFrom tTo src e -> audited D prefix tFrom tTo src e' -> envelope_le e e' -> envelope_le e' e -> e = e'.
Proof.
  intros Ht (l & v & Hv & _ & _ & ->) (l' & v' & Hv' & _ & _ & ->) H1 H2. apply envelope_le_spec in H1, H2.
  cbn [env_of WLogicalKey WSeq] in *. assert (LogicalKey v = LogicalKey v' /\ Seq v = Seq v') as [El Es].
  { destruct H1 as [H1|[H1 H1']], H2 as [H2|[H2 H2']]; [border|rewrite H2 in H1; border|rewrite H1 in H2; border|].
    split; [done|lia]. }
  pose proof (to_numbered _ _ _ Ht) as Hn. assert (l = LogicalKey v /\ l' = LogicalKey v') as [-> ->].
  { apply list_elem_of_lookup in Hv as [i Hi], Hv' as [i' Hi']. by destruct (Hn _ _ _ Hi) as [-> _], (Hn _ _ _ Hi') as [-> _]. }
  rewrite <- El in Hv'. pose proof (version_at_seq _ _ v (Hn _) Hv). pose proof (version_at_seq _ _ v' (Hn _) Hv').
  f_equal. congruence.
Qed.

Lemma listing_ok ts D m prefix tFrom tTo src :
  ts_ok ts D m ->
  exists s es cs, ListWrites prefix tFrom tTo src ts = Ret (set_store s ts, MkListWrites es cs) /\
    ts_ok (set_store s ts) D m /\
    StronglySorted (fun a b => envelope_less a b = true) es /\
    (forall e, e ∈ es <-> audited D prefix tFrom tTo src e) /\ totals es cs.
Proof.
  intros Ht. unfold ListWrites.
  destruct (raw_scan_ok (store ts) m prefix (scan_upper prefix) (to_rep _ _ _ Ht)) as (s & raw & -> & Hraw & Hs & _).
  assert (forall k val, (k, val) ∈ raw -> m k = Some val) as Hin by (intros k val; apply Hraw).
  cbn [mbind go_bind]. rewrite (writes_loop_ok ts D m) by done. cbn [mbind go_bind app].
  do 3 eexists. split; [done|]. split; [by apply ts_ok_store|]. set (hs := omap _ raw).
  assert (NoDup (merge_sort envelope_le hs)) as Hnd by (rewrite merge_sort_Permutation; by eapply hits_NoDup; [..|apply Hraw]).
  assert (forall e, e ∈ merge_sort envelope_le hs <-> audited D prefix tFrom tTo src e) as Hes
    by (intros e; rewrite merge_sort_Permutation; by eapply hits_in).
  split_and!; [|done|eapply totals_perm; [|apply source_counts_ok]; by rewrite merge_sort_Permutation].
  apply (StronglySorted_impl (strictly envelope_le)); [intros a b; apply envelope_strict|]. apply sorted_strict; [|done|].
  - apply StronglySorted_merge_sort; apply _.
  - intros e e' He He'. eapply audited_inj; [done|by apply Hes..].
Qed.

(** An audit lists exactly the writes that match.  In every reachable
    state the listing of a prefix holds, each once and in ascending (logical
    key, sequence) order, every version stored under a scanned key that was
    written inside the time window by the requested source, orphans of failed
    puts included; every record passes its hash check; and the totals give for
    each source that occurs the number of its writes. *)
Theorem list_writes_exact ts D m prefix tFrom tTo src :
  ts_ok ts D m ->
  exists s es cs, ListWrites prefix tFrom tTo src ts = Ret (set_store s ts, MkListWrites es cs) /\
    ts_ok (set_store s ts) D m /\
    StronglySorted (fun a b => envelope_less a b = true) es /\
    (forall e, e ∈ es <-> audited D prefix tFrom tTo src e) /\ totals es cs.
Proof. apply listing_ok. Qed.

(** ** Pages *)
Lemma page_loop_ok ts D m tFrom tTo src after limit raw acc by_src : ts_ok ts D m ->
  (forall k val, (k, val) ∈ raw -> m k = Some val) -> 0 < limit < 2 ^ 32 -> len acc <= limit ->
  let rest := List.filter (fun e => negb (passed after e)) (omap (hit D tFrom tTo src) raw) in
  let page := take (Z.to_nat (limit - len acc)) rest in
  page_loop tFrom tTo src after limit acc by_src raw =
    Ret (acc ++ page, fold_left (fun c e => count_source e c) page by_src, limit <? len acc + len rest).
Proof.
  intros Ht Hin Hl. revert acc by_src Hin. induction raw as [|[k val] raw IH]; intros acc by_src Hin Ha; cbn [page_loop omap list_omap].
  { cbn [List.filter]. rewrite take_nil, app_nil_r, len_nil. by replace (limit <? _) with false by lia. }
  rewrite (write_hit_ok ts D m) by (done || set_solver). cbn [mbind go_bind].
  destruct (hit D tFrom tTo src (k, val)) as [e|]; [|apply IH; [set_solver|done]]. cbn [List.filter].
  destruct (passed after e); cbn [negb]; [apply IH; [set_solver|done]|].
  rewrite u32_small by (unfold is_u32; len_facts; lia). replace (0 <? limit) with true by lia. cbn [andb].
  destruct (Z.leb_spec limit (len acc)) as [Hf|Hf].
  - replace (Z.to_nat (limit - len acc)) with 0%nat by lia. rewrite take_0, app_nil_r, len_cons. cbn [fold_left].
    replace (limit <? _) with true; [done|]. len_facts. lia.
  - rewrite IH by (set_solver || len_lia). rewrite !len_app, !len_cons, len_nil.
    replace (Z.to_nat (limit - len acc)) with (S (Z.to_nat (limit - (len acc + (1 + 0))))) by lia. cbn [take fold_left].
    rewrite <- app_assoc. cbn [app]. do 2 f_equal. f_equal. lia.
Qed.

(** No logical key is a proper prefix of another one. *)
Definition prefix_free (D : tdb) : Prop :=
  forall l l', versions_of (hist D l) <> [] -> versions_of (hist D l') <> [] -> l `prefix_of` l' -> l = l'.

(** Then the order of the storage keys is the order of the listing. *)
Lemma hits_sorted ts D m tFrom tTo src raw : ts_ok ts D m -> prefix_free D -> (forall k val, (k, val) ∈ raw -> m k = Some val) ->
  StronglySorted (fun a b => blt a.1 b.1) raw -> StronglySorted (strictly envelope_le) (omap (hit D tFrom tTo src) raw).
Proof.
  intros Ht Hp Hin. induction 1 as [|[k val] raw Hs IH Hk]; [constructor|]. cbn [omap list_omap].
  destruct (hit D tFrom tTo src (k, val)) as [e|] eqn:E; [|apply IH; set_solver]. constructor; [apply IH; set_solver|].
  apply Forall_forall. intros e' ([k' val'] & Hk' & E')%list_elem_of_omap. rewrite Forall_forall in Hk. specialize (Hk _ Hk').
  apply (hit_Some ts _ m) in E as (v & -> & Hu & Hv & _); [|done|set_solver].
  apply (hit_Some ts _ m) in E' as (v' & -> & Hu' & Hv' & _); [|done|set_solver].
  cbn [fst] in Hk. apply envelope_strict, envelope_less_spec. destruct (decide (WLogicalKey e = WLogicalKey e')) as [El|El].
  - right. split; [done|]. rewrite El in Hk. unfold blt in Hk. rewrite compare_version_keys in Hk by done.
    by apply (proj1 (Z.compare_lt_iff _ _)) in Hk.
  - left. revert Hk. rewrite !VersionStorageKey_digits by done. unfold blt. rewrite compare_app_diverge; [done|..];
      intros C; apply El; [|symmetry]; (apply Hp; [..|done]); intros C'; rewrite C' in *; set_solver.
Qed.

Definition cursor_of (e : WriteEnvelope) : ListWritesCursor := MkCursor e.(WLogicalKey) e.(WSeq).

(** An audit by pages, as a client runs it: go on from the last entry of a page
    while the page says there is more. *)
Fixpoint all_pages (fuel : nat) (prefix : bytes) (tFrom tTo : Z) (src : bytes) (limit : Z) (after : option ListWritesCursor) ts
    : go (TemporalStore (St := St) * list WriteEnvelope) :=
  '(ts, (r, more)) ← ListWritesPage prefix tFrom tTo src after limit ts;
  match fuel, more, last r.(WEntries) with
  | S fuel, true, Some e =>
      '(ts, es) ← all_pages fuel prefix tFrom tTo src limit (Some (cursor_of e)) ts; Ret (ts, r.(WEntries) ++ es)
  | _, _, _ => Ret (ts, r.(WEntries))
  end.

Lemma passed_spec e x : passed (Some (cursor_of e)) x = true <-> envelope_le x e.
Proof.
  unfold passed, cursor_of. cbn [CurLogicalKey CurAfterSeq].
  rewrite orb_true_iff, andb_true_iff, bltb_lt, beqb_eq, Z.leb_le, envelope_le_spec. done.
Qed.

Lemma drop_passed done_ e rest : StronglySorted (strictly envelope_le) (done_ ++ e :: rest) ->
  List.filter (fun x => negb (passed (Some (cursor_of e)) x)) (done_ ++ e :: rest) = rest.
Proof.
  intros Hs. apply StronglySorted_app in Hs as (Hx & _ & Hs). apply StronglySorted_inv in Hs as [_ Hr]. rewrite Forall_forall in Hr.
  rewrite List.filter_app. cbn [List.filter]. assert (envelope_le e e) as He.
  { apply envelope_le_spec. right. split; [done|lia]. }
  rewrite (proj2 (passed_spec e e) He). cbn [negb].
  assert (List.filter (fun x => negb (passed (Some (cursor_of e)) x)) done_ = []) as ->.
  { clear Hr. induction done_ as [|x d IH]; [done|]. cbn [List.filter].
    rewrite (proj2 (passed_spec e x)) by (apply Hx; set_solver). cbn [negb]. apply IH. intros; apply Hx; set_solver. }
  cbn [app]. clear Hx. induction rest as [|x r IH]; [done|]. cbn [List.filter].
  assert (passed (Some (cursor_of e)) x = false) as ->.
  { apply not_true_iff_false. rewrite passed_spec. apply Hr. set_solver. }
  cbn [negb]. f_equal. apply IH. intros; apply Hr; set_solver.
Qed.

Lemma page_ok ts D m prefix tFrom tTo src after limit hs : ts_ok ts D m -> prefix_free D -> 0 < limit < 2 ^ 32 ->
  StronglySorted (strictly envelope_le) hs -> (forall e, e ∈ hs <-> audited D prefix tFrom tTo src e) ->
  let rest := List.filter (fun e => negb (passed after e)) hs in
  exists s cs, ListWritesPage prefix tFrom tTo src after limit ts =
      Ret (set_store s ts, (MkListWrites (take (Z.to_nat limit) rest) cs, limit <? len rest)) /\ ts_ok (set_store s ts) D m.
Proof.
  intros Ht Hp Hl Hhs Hin rest. unfold ListWritesPage.
  destruct (raw_scan_ok (store ts) m prefix (scan_upper prefix) (to_rep _ _ _ Ht)) as (s & raw & -> & Hraw & Hs & _).
  assert (forall k val, (k, val) ∈ raw -> m k = Some val) as Hm by (intros k val; apply Hraw).
  pose proof (hits_sorted ts D m tFrom tTo src raw Ht Hp Hm (proj1 Hraw)) as Hsr.
  assert (omap (hit D tFrom tTo src) raw = hs) as E.
  { pose proof (strict_sorted_NoDup envelope_le _ Hsr) as Hn.
    rewrite <- (merge_sort_is envelope_le _ _ Hn (fun x => iff_refl _) Hsr). apply merge_sort_is; [apply _..|done| |done].
    intros e. rewrite Hin. by eapply hits_in. }
  cbn [mbind go_bind]. rewrite (page_loop_ok ts D m) by (done || (rewrite len_nil; lia)). rewrite E, len_nil, Z.sub_0_r, Z.add_0_l.
  cbn [mbind go_bind app]. fold rest. do 2 eexists. split; [|by apply ts_ok_store]. do 4 f_equal.
  assert (StronglySorted (strictly envelope_le) (take (Z.to_nat limit) rest)) as Hst.
  { apply (StronglySorted_app_1_l _ _ (drop (Z.to_nat limit) rest)). rewrite take_drop. by apply StronglySorted_filter. }
  apply merge_sort_is; [apply _..|by apply (strict_sorted_NoDup envelope_le)|done|done].
Qed.

Lemma all_pages_ok fuel ts D m prefix tFrom tTo src limit after done_ rest : ts_ok ts D m -> prefix_free D -> 0 < limit < 2 ^ 32 ->
  StronglySorted (strictly envelope_le) (done_ ++ rest) -> (forall e, e ∈ done_ ++ rest <-> audited D prefix tFrom tTo src e) ->
  List.filter (fun e => negb (passed after e)) (done_ ++ rest) = rest -> (length rest <= fuel)%nat ->
  exists s, all_pages fuel prefix tFrom tTo src limit after ts = Ret (set_store s ts, rest).
Proof.
  intros Ht Hp Hl. revert ts Ht after done_ rest. induction fuel as [|fuel IH]; intros ts Ht after done_ rest Hs Hin Hr Hf; cbn [all_pages].
  - destruct rest; [|cbn in Hf; lia].
    destruct (page_ok ts D m prefix tFrom tTo src after limit (done_ ++ []) Ht Hp Hl Hs Hin) as (s & cs & -> & _).
    rewrite Hr. cbn [mbind go_bind WEntries]. rewrite take_nil. by exists s.
  - destruct (page_ok ts D m prefix tFrom tTo src after limit (done_ ++ rest) Ht Hp Hl Hs Hin) as (s & cs & -> & Ht').
    rewrite Hr. cbn [mbind go_bind WEntries]. destruct (Z.ltb_spec limit (len rest)) as [Hm|Hm].
    2: { exists s. rewrite take_ge; [done|]. unfold len in Hm. lia. }
    destruct (last (take (Z.to_nat limit) rest)) as [e|] eqn:El.
    2: { apply last_None, (f_equal length) in El. rewrite length_take in El. unfold len in Hm. cbn in El. lia. }
    apply last_Some in El as [p El]. set (rest' := drop (Z.to_nat limit) rest).
    assert (rest = (p ++ [e]) ++ rest') as E by (rewrite <- El; symmetry; apply take_drop).
    destruct (IH _ Ht' (Some (cursor_of e)) (done_ ++ p ++ [e]) rest') as (s' & Es).
    + rewrite <- app_assoc, <- E. done.
    + intros x. rewrite <- app_assoc, <- E. done.
    + assert (forall x, (done_ ++ p ++ [e]) ++ x = (done_ ++ p) ++ e :: x) as Ea by (intros x; by rewrite <- !app_assoc).
      rewrite Ea. apply drop_passed. by rewrite <- Ea, <- app_assoc, <- E.
    + apply (f_equal length) in E. rewrite !length_app in E. cbn [length] in E. lia.
    + rewrite Es. cbn [mbind go_bind]. exists s'. by rewrite El, <- E.
Qed.

(** C11: Pages add up to the audit.  When no logical key is a proper prefix of
    another one, reading an audit page by page with any page size, each page
    continuing behind the last entry of the page before, ends after at most one
    page per entry and returns exactly the entries of the unpaged listing in
    its order: none lost, none twice. *)
Theorem list_writes_pages_complete ts D m prefix tFrom tTo src limit :
  ts_ok ts D m -> prefix_free D -> 0 < limit < 2 ^ 32 ->
  exists s es cs, ListWrites prefix tFrom tTo src ts = Ret (set_store s ts, MkListWrites es cs) /\
    forall fuel, (length es <= fuel)%nat ->
      exists s', all_pages fuel prefix tFrom tTo src limit None ts = Ret (set_store s' ts, es).
Proof.
  intros Ht Hp Hl. destruct (listing_ok ts D m prefix tFrom tTo src Ht) as (s & es & cs & E & _ & Hs & Hin & _).
  exists s, es, cs. split; [done|]. intros fuel Hf. apply (all_pages_ok fuel ts D m _ _ _ _ _ _ [] es); try done.
  - eapply StronglySorted_impl; [|exact Hs]. intros a b. apply envelope_strict.
  - clear. cbn [app passed negb]. induction es as [|e es IH]; [done|]. cbn [List.filter]. by rewrite IH.
Qed.

(** The paged audit without cursor and limit is the unpaged one, on every
    store, whatever it holds: the same entries in the same order, the same
    totals, no further page, and a panic exactly where the other panics. *)
Theorem unlimited_page_is_listing prefix tFrom tTo src ts :
  ListWritesPage prefix tFrom tTo src None 0 ts =
  match ListWrites prefix tFrom tTo src ts with
  | Ret (ts1, r) => Ret (ts1, (r, false))
  | Panic => Panic
  end.
Proof.
  unfold ListWritesPage, ListWrites. destruct (raw_scan prefix (scan_upper prefix) (store ts)) as [[s raw]|]; [|done].
  cbn [mbind go_bind].
  assert (forall acc by_src, page_loop tFrom tTo src None 0 acc by_src raw =
    ('(es, b) ← writes_loop tFrom tTo src acc by_src raw; Ret (es, b, false))) as ->.
  { induction raw as [|[k v] raw IH]; intros acc by_src; [done|]. cbn [page_loop writes_loop].
    destruct (write_hit tFrom tTo src k v) as [[e|]|]; cbn [mbind go_bind passed Z.ltb andb]; [|apply IH|done]. apply IH. }
  by destruct (writes_loop tFrom tTo src [] ∅ raw) as [[es b]|].
Qed.
End Audit.

(** ** Concrete states *)
Lemma demo_state : exists (ts : TemporalStore (St := mem_store)) D m, ts_ok ts D m /\ prefix_free D /\
  map Seq (versions_of (hist D (str "quote:1"))) = [1].
Proof.
  assert (ts_ok (NewTemporalStore (MkMem ∅ [])) (MkTdb (fun _ => None) (fun _ => no_hist)) (fun _ => None)) as H0.
  { apply fresh_ok; [|done]. intros k. apply lookup_empty. }
  assert (exists ts, PutVersioned (str "quote:1") (str "p1") 10 (str "feed") 1 (NewTemporalStore (MkMem ∅ [])) = Ret (ts, Some 1)) as [ts E].
  { eexists. vm_compute. reflexivity. }
  destruct (PutVersioned_ok _ _ _ (str "quote:1") (str "p1") 10 (str "feed") 1 1000 H0) as (ts' & m' & a & D' & E' & Ht & Hc & _).
  - reflexivity.
  - apply envelope_new; [unfold is_s64; lia|reflexivity|unfold is_u32; lia].
  - reflexivity.
  - exact I.
  - exact I.
  - exact I.
  - by vm_compute.
  - rewrite E in E'. injection E' as <- <-. destruct Hc as [[_ ->]|[C _]]; [|done].
    exists ts. do 2 eexists. split; [exact Ht|]. split; [|by rewrite hist_set_eq].
    assert (forall l, versions_of (hist (set_hist (str "quote:1") (MkHist [new_version (str "quote:1") (str "p1") 10 (str "feed") 1 1] None)
      (set_hist (str "quote:1") (MkHist [] (Some (new_version (str "quote:1") (str "p1") 10 (str "feed") 1 1)))
        (MkTdb (fun _ => None) (fun _ => no_hist)))) l) <> [] -> l = str "quote:1") as Honly.
    { intros l Hl. destruct (decide (str "quote:1" = l)) as [<-|Hne]; [done|]. by rewrite !hist_set_ne in Hl. }
    intros l l' Hl Hl' _. rewrite (Honly l Hl), (Honly l' Hl'). done.
Qed.

Lemma replay_reports_half_writes_witness :
  exists (ts : TemporalStore (St := mem_store)) D m s ks, ts_ok ts D m /\
    ReplayFingerprint (str "quote:") 0 ts = Ret (set_store s ts,
      MkReplay (u32 (len ks)) (List.filter (half_written D 0) ks) (Fingerprint (omap (shown_entry D 0) ks)) (0 <? 0)).
Proof.
  destruct demo_state as (ts & D & m & Ht & _). destruct (replay_reports_half_writes ts D m (str "quote:") 0 Ht) as (s & ks & _ & _ & E).
  by exists ts, D, m, s, ks.
Defined.

(** A payload changed under its pointer: the number agrees, the hash does not. *)
Definition forged_store : mem_store :=
  let k := str "quote:1" in
  MkMem (<[VersionStorageKey k 1 := EncodeVersionRecord (new_version k (str "p2") 10 (str "feed") 1 1)]>
    (<[CurrentStorageKey k := EncodeCurrentValue (MkCurrent 1 (HashPayload (str "p1")))]> ∅)) [].
Example forged_payload_reported :
  match ReplayFingerprint (str "quote:") 0 (NewTemporalStore forged_store) with Ret (_, r) => (r.(KeyCount), r.(Mismatches)) | Panic => (0, []) end
  = (1, [str "quote:1"]).
Proof. vm_compute. reflexivity. Qed.

Lemma replay_reports_mismatches_witness :
  let m k := forged_store.(mem_data) !! k in
  exists s rows, ReplayFingerprint (str "quote:") 0 (NewTemporalStore forged_store) = Ret (set_store s (NewTemporalStore forged_store),
      MkReplay (u32 (len rows)) (map fst (List.filter (reported m 0) rows)) (Fingerprint (omap row_entry rows)) (0 <? 0)) /\
    Forall (fun row => chosen m 0 row.1 row.2) rows.
Proof.
  intros m. destruct (replay_reports_mismatches (NewTemporalStore forged_store) m (str "quote:") 0) as (s & rows & E & _ & _ & Hc & _); [done|].
  exists s, rows. split; [exact E|exact Hc].
Defined.

Lemma list_writes_exact_witness :
  exists (ts : TemporalStore (St := mem_store)) D m s es cs, ts_ok ts D m /\
    ListWrites (str "quote:") 5 15 (str "feed") ts = Ret (set_store s ts, MkListWrites es cs) /\ totals es cs.
Proof.
  destruct demo_state as (ts & D & m & Ht & _).
  destruct (list_writes_exact ts D m (str "quote:") 5 15 (str "feed") Ht) as (s & es & cs & E & _ & _ & _ & Hc).
  by exists ts, D, m, s, es, cs.
Defined.

Lemma list_writes_pages_complete_witness :
  exists (ts : TemporalStore (St := mem_store)) s es cs,
    ListWrites (str "quote:") 0 0 [] ts = Ret (set_store s ts, MkListWrites es cs) /\
    forall fuel, (length es <= fuel)%nat ->
      exists s', all_pages fuel (str "quote:") 0 0 [] 1 None ts = Ret (set_store s' ts, es).
Proof.
  destruct demo_state as (ts & D & m & Ht & Hp & _). exists ts.
  apply (list_writes_pages_complete ts D m (str "quote:") 0 0 [] 1 Ht Hp). lia.
Defined.

(** Pages lose writes when one logical key is a prefix of another.  The page
    loop runs in storage order, where "a!:v1" comes before "a:v1", but the
    cursor skips by (logical key, sequence), where "a" comes before "a!": with
    pages of one entry the write to "a" is on no page. *)
Theorem pages_drop_writes :
  match exec_tops [TPut (str "a") (str "p") 1 [] 0; TPut (str "a!") (str "q") 2 [] 0] (NewTemporalStore (MkMem ∅ [])) with
  | Ret (ts, _) =>
      match ListWrites (str "a") 0 0 [] ts, all_pages 5 (str "a") 0 0 [] 1 None ts with
      | Ret (_, r), Ret (_, es) => Some (map WLogicalKey r.(WEntries), map WLogicalKey es)
      | _, _ => None
      end
  | Panic => None
  end = Some ([str "a"; str "a!"], [str "a!"]).
Proof. vm_compute. reflexivity. Qed.
End TsAudit.
