(* ===== verification/TemporalKv.v ===== *)
(** * The temporal store on the standalone server

    The standalone server of [service/fsm.go], run without a credit budget and
    with a log that does not fail, keeps the promises the temporal store relies
    on ([RawStoreLaws]): so the theorems on the temporal store hold of the two
    composed, down to the files of the storage engine. *)
From stdpp Require Import functions.
From S2P Require Import Prelude Bytes Entries Temporal Bloom BlockCache SSTFile MergeIter SSTables Credit SkipList.
From S2P Require Import Wal Engine EngineOps EngineRun KVServer KVRun TemporalStore TemporalRun.
Import Bloom Merge Tables Credit Eng EngOps EngRun Kv KvRun Tstore TsRun.

Module TsKv.
Section Server.
Context {T : Type} `{OT : OrderedTable T}.
Context (opt_m : Z -> Z) (opt_k : Z -> Z -> Z) (iter_order : gmap bytes BloomFilter -> list (bytes * BloomFilter)).
Context (gMaxMemTableSize : Z) (o : Options) (U : list LogEntry).
Context (draws : list bool) (rw : Wal.rewrite_outcome).



Notation kstep := (kstep opt_m opt_k iter_order gMaxMemTableSize o U).


Context (Hm : forall n, opt_m n < 2 ^ 64 - 63) (Hk : forall m n, opt_k m n < 2 ^ 64).
Context (Hord : forall ps, iter_order ps ≡ₚ map_to_list ps).
Context (HU : roomy opt_m opt_k iter_order U) (HF : Forall Sst.entry_fits U) (HP : Forall EngRun.plain_entry U).
Context (Hbudget : o.(MaxInflightBytes) <= 0) (Hrw : safe_rewrite rw).







End Server.

(** ** A concrete server *)
#[local] Existing Instance Skip.skip_table.





End TsKv.
