(* ===== verification/Proto.v ===== *)
(** * Payload codecs of the wire protocol ([proto/])

    The request and response payloads of both protocol versions: PUT, GET and
    DEL frames, SCAN, the error and acknowledgement bodies, and the frames of
    the temporal operations with their optional tails.  Encoders are the bytes
    they produce; decoders keep every length check and every slice expression,
    so a missing check would be a panic. *)
From S2P Require Import Prelude Bytes Temporal.

Module Proto.

(** [uint32(len(x))] and [uint16(len(x))] in front of a field. *)
Definition len32 (x : bytes) : bytes := put_le 4 (u32 (len x)).
Definition len16 (x : bytes) : bytes := put_le 2 (u16 (len x)).
Definition flag (b : bool) : byte := if b then Byte.x01 else Byte.x00.

(** ** PUT, GET and DEL ([put_frame.go]) *)
Definition EncodePutFrame (key value : bytes) : bytes := len32 key ++ len32 value ++ key ++ value.

Definition DecodePutFrame (data : bytes) : go (option (bytes * bytes)) :=
  if len data <? 8 then Ret None
  else
    kl ← slice data 0 4;
    vl ← slice data 4 8;
    let keyLen := get_le kl in
    let valueLen := get_le vl in
    if (keyLen <? 0) || (valueLen <? 0) || (len data <? 8 + keyLen + valueLen) then Ret None
    else
      key ← slice data 8 (8 + keyLen);
      value ← slice data (8 + keyLen) (8 + keyLen + valueLen);
      Ret (Some (key, value)).

Definition EncodeKeyOnlyFrame (key : bytes) : bytes := len32 key ++ key.

Definition DecodeKeyFrame (data : bytes) : go (option bytes) :=
  if len data <? 4 then Ret None
  else
    kl ← slice data 0 4;
    let keyLen := get_le kl in
    if (keyLen <? 0) || (len data <? 4 + keyLen) then Ret None
    else key ← slice data 4 (4 + keyLen); Ret (Some key).

(** ** SCAN ([scan.go]) *)
Record Predicate := MkPredicate { Field : bytes; Op : Z; Operand : bytes }.
Record ScanRequest := MkScanRequest { Start : bytes; End_ : bytes; Pred : Predicate }.
Definition scanReqHeaderLen : Z := 13.

Definition EncodeScanRequest (r : ScanRequest) : bytes :=
  len32 r.(Start) ++ len32 r.(End_) ++ len32 r.(Pred).(Field) ++ put_le 1 r.(Pred).(Op) ++
  r.(Start) ++ r.(End_) ++ r.(Pred).(Field) ++ r.(Pred).(Operand).

Definition DecodeScanRequest (data : bytes) : go (option ScanRequest) :=
  if len data <? scanReqHeaderLen then Ret None
  else
    a ← slice data 0 4;
    b ← slice data 4 8;
    c ← slice data 8 12;
    let startLen := get_le a in
    let endLen := get_le b in
    let fieldLen := get_le c in
    op ← index data 12;
    let off := scanReqHeaderLen in
    if (startLen <? 0) || (endLen <? 0) || (fieldLen <? 0) || (len data <? off + startLen + endLen + fieldLen) then Ret None
    else
      start ← slice data off (off + startLen);
      let off := off + startLen in
      stop ← slice data off (off + endLen);
      let off := off + endLen in
      field ← slice data off (off + fieldLen);
      let off := off + fieldLen in
      operand ← slice data off (len data);
      Ret (Some (MkScanRequest start stop (MkPredicate field (#op) operand))).

Definition encode_scan_entry (e : bytes * bytes) : bytes := len32 e.1 ++ len32 e.2 ++ e.1 ++ e.2.

Definition EncodeScanResponse (status : bytes) (entries : list (bytes * bytes)) : bytes :=
  put_le 1 (u8 (len status)) ++ status ++ put_le 4 (u32 (len entries)) ++ concat (map encode_scan_entry entries).

(** The loop over the declared number of entries, from offset [off].  Every
    entry takes at least 8 bytes, so the payload's length bounds the rounds. *)
Fixpoint scan_entries (fuel : nat) (count : Z) (payload : bytes) (off : Z) : go (option (list (bytes * bytes))) :=
  if count <=? 0 then Ret (Some [])
  else match fuel with
  | O => Ret None
  | S fuel =>
      if len payload <? off + 8 then Ret None
      else
        kl ← slice payload off (off + 4);
        vl ← slice payload (off + 4) (off + 8);
        let keyLen := get_le kl in
        let valueLen := get_le vl in
        let off := off + 8 in
        if (keyLen <? 0) || (valueLen <? 0) || (len payload <? off + keyLen + valueLen) then Ret None
        else
          key ← slice payload off (off + keyLen);
          let off := off + keyLen in
          value ← slice payload off (off + valueLen);
          let off := off + valueLen in
          rest ← scan_entries fuel (count - 1) payload off;
          Ret match rest with Some l => Some ((key, value) :: l) | None => None end
  end.

Definition DecodeScanResponse (payload : bytes) : go (option (bytes * list (bytes * bytes))) :=
  if len payload <? 1 then Ret None
  else
    s ← index payload 0;
    let statusLen := #s in
    let off := 1 in
    if len payload <? off + statusLen + 4 then Ret None
    else
      status ← slice payload off (off + statusLen);
      let off := off + statusLen in
      cn ← slice payload off (off + 4);
      let count := get_le cn in
      let off := off + 4 in
      entries ← scan_entries (length payload) count payload off;
      Ret match entries with Some l => Some (status, l) | None => None end.

(** ** Errors and acknowledgements ([v2_response.go]) *)
Definition V2ErrPayload (code : Z) (reason : bytes) : bytes := put_le 2 code ++ len16 reason ++ reason.

Definition DecodeV2ErrPayload (payload : bytes) : go (option (Z * bytes)) :=
  if len payload <? 4 then Ret None
  else
    c ← slice payload 0 2;
    nb ← slice payload 2 4;
    let n := get_le nb in
    if len payload <? 4 + n then Ret None
    else reason ← slice payload 4 (4 + n); Ret (Some (get_le c, reason)).

Record V2AckFields := MkAck {
  CorrID : Z; Received : Z; Accepted : Z; Rejected : Z; FirstErrCode : Z; FirstErrReason : bytes }.

Definition V2AckBody (a : V2AckFields) : bytes :=
  put_le 4 a.(CorrID) ++ put_le 4 a.(Received) ++ put_le 4 a.(Accepted) ++ put_le 4 a.(Rejected) ++
  put_le 2 a.(FirstErrCode) ++ len16 a.(FirstErrReason) ++ a.(FirstErrReason).

Definition DecodeV2AckBody (body : bytes) : go (option V2AckFields) :=
  if len body <? 20 then Ret None
  else
    let off := 0 in
    corrID ← slice body off (off + 4);
    let off := off + 4 in
    received ← slice body off (off + 4);
    let off := off + 4 in
    accepted ← slice body off (off + 4);
    let off := off + 4 in
    rejected ← slice body off (off + 4);
    let off := off + 4 in
    errCode ← slice body off (off + 2);
    let off := off + 2 in
    nb ← slice body off (off + 2);
    let n := get_le nb in
    let off := off + 2 in
    if len body <? off + n then Ret None
    else
      reason ← slice body off (off + n);
      Ret (Some (MkAck (get_le corrID) (get_le received) (get_le accepted) (get_le rejected) (get_le errCode) reason)).

(** ** Temporal requests ([temporal_frame.go]) *)
Definition EncodeAsOfFrame (key : bytes) (asOfNanos : Z) : bytes := len32 key ++ key ++ put_le 8 (u64 asOfNanos).

Definition DecodeAsOfFrame (data : bytes) : go (option (bytes * Z)) :=
  if len data <? 4 then Ret None
  else
    kl ← slice data 0 4;
    let keyLen := get_le kl in
    if (keyLen <? 0) || (len data <? 4 + keyLen + 8) then Ret None
    else
      key ← slice data 4 (4 + keyLen);
      t ← slice data (4 + keyLen) (4 + keyLen + 8);
      Ret (Some (key, s64 (get_le t))).

Definition EncodePutVersionedFrame (key value source : bytes) : bytes :=
  match source with
  | [] => EncodePutFrame key value
  | _ => EncodePutFrame key value ++ len32 source ++ source
  end.

Definition DecodePutVersionedFrame (data : bytes) : go (option (bytes * bytes * bytes)) :=
  kv ← DecodePutFrame data;
  match kv with
  | None => Ret None
  | Some (k, v) =>
      let consumed := 8 + len k + len v in
      rest ← slice data consumed (len data);
      if len rest =? 0 then Ret (Some (k, v, []))
      else if len rest <? 4 then Ret None
      else
        sl ← slice rest 0 4;
        let sourceLen := get_le sl in
        if (sourceLen <? 0) || negb (4 + sourceLen =? len rest) then Ret None
        else source ← slice rest 4 (4 + sourceLen); Ret (Some (k, v, source))
  end.

Definition EncodeReplayFingerprintRequest (prefix : bytes) (asOfNanos : Z) : bytes :=
  if asOfNanos <=? 0 then EncodeKeyOnlyFrame prefix else len32 prefix ++ prefix ++ put_le 8 (u64 asOfNanos).

Definition DecodeReplayFingerprintRequest (data : bytes) : go (option (bytes * Z)) :=
  if len data <? 4 then Ret None
  else
    pl ← slice data 0 4;
    let prefixLen := get_le pl in
    if (prefixLen <? 0) || (len data <? 4 + prefixLen) then Ret None
    else
      prefix ← slice data 4 (4 + prefixLen);
      let rest := len data - (4 + prefixLen) in
      if rest =? 0 then Ret (Some (prefix, 0))
      else if rest =? 8 then
        t ← slice data (4 + prefixLen) (4 + prefixLen + 8);
        Ret (Some (prefix, s64 (get_le t)))
      else Ret None.

Definition EncodeListWritesRequest (prefix : bytes) (tFrom tTo : Z) (source : bytes) : bytes :=
  len32 prefix ++ prefix ++ put_le 8 (u64 tFrom) ++ put_le 8 (u64 tTo) ++ len32 source ++ source.

Definition DecodeListWritesRequest (data : bytes) : go (option (bytes * Z * Z * bytes)) :=
  if len data <? 4 then Ret None
  else
    pl ← slice data 0 4;
    let prefixLen := get_le pl in
    if (prefixLen <? 0) || (len data <? 4 + prefixLen + 8 + 8 + 4) then Ret None
    else
      let off := 4 in
      prefix ← slice data off (off + prefixLen);
      let off := off + prefixLen in
      f ← slice data off (off + 8);
      let off := off + 8 in
      t ← slice data off (off + 8);
      let off := off + 8 in
      sl ← slice data off (off + 4);
      let sourceLen := get_le sl in
      let off := off + 4 in
      if (sourceLen <? 0) || negb (off + sourceLen =? len data) then Ret None
      else
        source ← slice data off (off + sourceLen);
        Ret (Some (prefix, s64 (get_le f), s64 (get_le t), source)).

Definition EncodeListWritesCursor (logicalKey : bytes) (seq : Z) : bytes := len32 logicalKey ++ logicalKey ++ put_le 8 seq.

Definition DecodeListWritesCursor (payload : bytes) : go (option (bytes * Z)) :=
  if len payload <? 4 then Ret None
  else
    kl ← slice payload 0 4;
    let logicalKeyLen := get_le kl in
    if (logicalKeyLen <? 0) || negb (4 + logicalKeyLen + 8 =? len payload) then Ret None
    else
      key ← slice payload 4 (4 + logicalKeyLen);
      s ← slice payload (4 + logicalKeyLen) (4 + logicalKeyLen + 8);
      Ret (Some (key, get_le s)).

Definition EncodeListWritesRequestV2 (prefix : bytes) (tFrom tTo : Z) (source cursor : bytes) (limit : Z) : bytes :=
  let base := EncodeListWritesRequest prefix tFrom tTo source in
  if (len cursor =? 0) && (limit =? 0) then base
  else base ++ len32 cursor ++ cursor ++ put_le 4 limit.

(** The cursor is [None] when the request has no tail. *)
Definition DecodeListWritesRequestV2 (data : bytes) : go (option (bytes * Z * Z * bytes * option bytes * Z)) :=
  if len data <? 4 then Ret None
  else
    pl ← slice data 0 4;
    let prefixLen := get_le pl in
    if (prefixLen <? 0) || (len data <? 4 + prefixLen + 8 + 8 + 4) then Ret None
    else
      let off := 4 in
      prefix ← slice data off (off + prefixLen);
      let off := off + prefixLen in
      f ← slice data off (off + 8);
      let off := off + 8 in
      t ← slice data off (off + 8);
      let off := off + 8 in
      sl ← slice data off (off + 4);
      let sourceLen := get_le sl in
      let off := off + 4 in
      if (sourceLen <? 0) || (len data <? off + sourceLen) then Ret None
      else
        source ← slice data off (off + sourceLen);
        let off := off + sourceLen in
        let tFrom := s64 (get_le f) in
        let tTo := s64 (get_le t) in
        if off =? len data then Ret (Some (prefix, tFrom, tTo, source, None, 0))
        else if len data <? off + 4 + 4 then Ret None
        else
          cl ← slice data off (off + 4);
          let cursorLen := get_le cl in
          let off := off + 4 in
          if (cursorLen <? 0) || negb (off + cursorLen + 4 =? len data) then Ret None
          else
            after ← slice data off (off + cursorLen);
            lm ← slice data (off + cursorLen) (off + cursorLen + 4);
            Ret (Some (prefix, tFrom, tTo, source, Some after, get_le lm)).

(** ** Temporal responses ([temporal_frame.go]) *)
Definition EncodeVersionEntry (seq writeNanos : Z) (payload : bytes) : bytes :=
  put_le 8 seq ++ put_le 8 (u64 writeNanos) ++ len32 payload ++ payload.

Record VersionEntryView := MkVersionView { ViewSeq : Z; ViewWriteNanos : Z; ViewPayload : bytes }.

(** The decoded entry and the number of bytes it took. *)
Definition DecodeVersionEntry (data : bytes) : go (option (VersionEntryView * Z)) :=
  if len data <? 20 then Ret None
  else
    sq ← slice data 0 8;
    wn ← slice data 8 16;
    nb ← slice data 16 20;
    let n := get_le nb in
    if (n <? 0) || (len data <? 20 + n) then Ret None
    else
      payload ← slice data 20 (20 + n);
      Ret (Some (MkVersionView (get_le sq) (s64 (get_le wn)) payload, 20 + n)).

Definition EncodeListVersionsResponse (entries : list bytes) : bytes := put_le 4 (u32 (len entries)) ++ concat entries.

(** A loop [for i := 0; i < count; i++] that decodes one item at [body[off:]];
    each item takes at least one byte, so the body's length bounds the rounds. *)
Fixpoint decode_items {A} (decode : bytes -> go (option (A * Z))) (fuel : nat) (count : Z) (body : bytes) (off : Z)
    : go (option (list A * Z)) :=
  if count <=? 0 then Ret (Some ([], off))
  else match fuel with
  | O => Ret None
  | S fuel =>
      data ← slice body off (len body);
      item ← decode data;
      match item with
      | None => Ret None
      | Some (x, consumed) =>
          rest ← decode_items decode fuel (count - 1) body (off + consumed);
          Ret match rest with Some (l, off) => Some (x :: l, off) | None => None end
      end
  end.

Definition DecodeListVersionsResponse (body : bytes) : go (option (list VersionEntryView)) :=
  if len body <? 4 then Ret None
  else
    cn ← slice body 0 4;
    let count := get_le cn in
    out ← decode_items DecodeVersionEntry (length body) count body 4;
    Ret match out with Some (l, _) => Some l | None => None end.

Record ReplayFingerprintView := MkReplayView {
  RVKeyCount : Z; RVMismatchCount : Z; RVFingerprint : bytes; RVMismatchKeys : list bytes; RVBounded : bool }.

Definition EncodeReplayFingerprintResponse (keyCount mismatchCount : Z) (fingerprint : bytes) (mismatchKeys : list bytes) : bytes :=
  put_le 4 keyCount ++ put_le 4 mismatchCount ++ len16 fingerprint ++ fingerprint ++
  concat (map (fun k => len16 k ++ k) mismatchKeys).

Definition EncodeReplayFingerprintResponseV2 (keyCount mismatchCount : Z) (fingerprint : bytes) (mismatchKeys : list bytes)
    (bounded : bool) : bytes :=
  EncodeReplayFingerprintResponse keyCount mismatchCount fingerprint mismatchKeys ++ [flag bounded].

(** The loop over the mismatching keys, from offset [off]. *)
Fixpoint mismatch_keys (fuel : nat) (count : Z) (body : bytes) (off : Z) : go (option (list bytes * Z)) :=
  if count <=? 0 then Ret (Some ([], off))
  else match fuel with
  | O => Ret None
  | S fuel =>
      if len body <? off + 2 then Ret None
      else
        nb ← slice body off (off + 2);
        let n := get_le nb in
        let off := off + 2 in
        if len body <? off + n then Ret None
        else
          key ← slice body off (off + n);
          let off := off + n in
          rest ← mismatch_keys fuel (count - 1) body off;
          Ret match rest with Some (l, off) => Some (key :: l, off) | None => None end
  end.

Definition DecodeReplayFingerprintResponse (body : bytes) : go (option ReplayFingerprintView) :=
  if len body <? 10 then Ret None
  else
    kc ← slice body 0 4;
    mc ← slice body 4 8;
    fl ← slice body 8 10;
    let keyCount := get_le kc in
    let mismatchCount := get_le mc in
    let fpLen := get_le fl in
    let off := 10 in
    if len body <? off + fpLen then Ret None
    else
      fingerprint ← slice body off (off + fpLen);
      let off := off + fpLen in
      keys ← mismatch_keys (length body) mismatchCount body off;
      match keys with
      | None => Ret None
      | Some (keys, off) =>
          bounded ← (if off <? len body then b ← index body off; Ret (negb (#b =? 0)) else Ret false);
          Ret (Some (MkReplayView keyCount mismatchCount fingerprint keys bounded))
      end.

Record WriteEnvelopeView := MkWriteView {
  WVLogicalKey : bytes; WVSeq : Z; WVWriteNanos : Z; WVSource : bytes; WVSchemaVer : Z; WVPayloadHash : bytes;
  WVPayload : bytes; WVHashOK : bool }.

Definition EncodeWriteEnvelopeEntry (e : WriteEnvelopeView) : bytes :=
  len32 e.(WVLogicalKey) ++ e.(WVLogicalKey) ++ put_le 8 e.(WVSeq) ++ put_le 8 (u64 e.(WVWriteNanos)) ++
  len32 e.(WVSource) ++ e.(WVSource) ++ put_le 4 e.(WVSchemaVer) ++ len16 e.(WVPayloadHash) ++ e.(WVPayloadHash) ++
  len32 e.(WVPayload) ++ e.(WVPayload) ++ [flag e.(WVHashOK)].

Definition DecodeWriteEnvelopeEntry (data : bytes) : go (option (WriteEnvelopeView * Z)) :=
  if len data <? 4 then Ret None
  else
    let off := 0 in
    kl ← slice data off (off + 4);
    let logicalKeyLen := get_le kl in
    let off := off + 4 in
    if (logicalKeyLen <? 0) || (len data <? off + logicalKeyLen + 8 + 8 + 4) then Ret None
    else
      logicalKey ← slice data off (off + logicalKeyLen);
      let off := off + logicalKeyLen in
      sq ← slice data off (off + 8);
      let off := off + 8 in
      wn ← slice data off (off + 8);
      let off := off + 8 in
      sl ← slice data off (off + 4);
      let sourceLen := get_le sl in
      let off := off + 4 in
      if (sourceLen <? 0) || (len data <? off + sourceLen + 4 + 2) then Ret None
      else
        source ← slice data off (off + sourceLen);
        let off := off + sourceLen in
        sv ← slice data off (off + 4);
        let off := off + 4 in
        hl ← slice data off (off + 2);
        let hashLen := get_le hl in
        let off := off + 2 in
        if (hashLen <? 0) || (len data <? off + hashLen + 4) then Ret None
        else
          payloadHash ← slice data off (off + hashLen);
          let off := off + hashLen in
          pl ← slice data off (off + 4);
          let payloadLen := get_le pl in
          let off := off + 4 in
          if (payloadLen <? 0) || (len data <? off + payloadLen + 1) then Ret None
          else
            payload ← slice data off (off + payloadLen);
            let off := off + payloadLen in
            hk ← index data off;
            Ret (Some (MkWriteView logicalKey (get_le sq) (s64 (get_le wn)) source (get_le sv) payloadHash payload (negb (#hk =? 0)), off + 1)).

(** The length of an encoded entry, fields not read. *)
Definition writeEnvelopeEntryLen (data : bytes) : go (option Z) :=
  if len data <? 4 then Ret None
  else
    let off := 0 in
    kl ← slice data off (off + 4);
    let logicalKeyLen := get_le kl in
    let off := off + 4 in
    if (logicalKeyLen <? 0) || (len data <? off + logicalKeyLen + 8 + 8 + 4) then Ret None
    else
      let off := off + (logicalKeyLen + 8 + 8) in
      sl ← slice data off (off + 4);
      let sourceLen := get_le sl in
      let off := off + 4 in
      if (sourceLen <? 0) || (len data <? off + sourceLen + 4 + 2) then Ret None
      else
        let off := off + sourceLen in
        let off := off + 4 in
        hl ← slice data off (off + 2);
        let hashLen := get_le hl in
        let off := off + 2 in
        if (hashLen <? 0) || (len data <? off + hashLen + 4) then Ret None
        else
          let off := off + hashLen in
          pl ← slice data off (off + 4);
          let payloadLen := get_le pl in
          let off := off + 4 in
          if (payloadLen <? 0) || (len data <? off + payloadLen + 1) then Ret None
          else Ret (Some (off + payloadLen + 1)).

Record SourceCountView := MkSourceView { SVSource : bytes; SVCount : Z }.

Definition encode_source_count (c : SourceCountView) : bytes := len32 c.(SVSource) ++ c.(SVSource) ++ put_le 4 c.(SVCount).

Definition EncodeListWritesResponse (entries : list bytes) (counts : list SourceCountView) : bytes :=
  put_le 4 (u32 (len entries)) ++ concat entries ++ put_le 4 (u32 (len counts)) ++ concat (map encode_source_count counts).

(** The loop over the totals, from offset [off]. *)
Fixpoint source_count_loop (fuel : nat) (count : Z) (body : bytes) (off : Z) : go (option (list SourceCountView * Z)) :=
  if count <=? 0 then Ret (Some ([], off))
  else match fuel with
  | O => Ret None
  | S fuel =>
      if len body <? off + 4 then Ret None
      else
        sl ← slice body off (off + 4);
        let srcLen := get_le sl in
        let off := off + 4 in
        if (srcLen <? 0) || (len body <? off + srcLen + 4) then Ret None
        else
          src ← slice body off (off + srcLen);
          let off := off + srcLen in
          cn ← slice body off (off + 4);
          let off := off + 4 in
          rest ← source_count_loop fuel (count - 1) body off;
          Ret match rest with Some (l, off) => Some (MkSourceView src (get_le cn) :: l, off) | None => None end
  end.

Definition DecodeListWritesResponse (body : bytes) : go (option (list WriteEnvelopeView * list SourceCountView)) :=
  if len body <? 4 then Ret None
  else
    let off := 0 in
    mc ← slice body off (off + 4);
    let matchCount := get_le mc in
    let off := off + 4 in
    entries ← decode_items DecodeWriteEnvelopeEntry (length body) matchCount body off;
    match entries with
    | None => Ret None
    | Some (entries, off) =>
        if len body <? off + 4 then Ret None
        else
          sc ← slice body off (off + 4);
          let sourceCountN := get_le sc in
          let off := off + 4 in
          counts ← source_count_loop (length body) sourceCountN body off;
          Ret match counts with Some (counts, _) => Some (entries, counts) | None => None end
    end.

Definition EncodeListWritesResponseV2 (entries : list bytes) (counts : list SourceCountView) (nextCursor : bytes) : bytes :=
  EncodeListWritesResponse entries counts ++ len32 nextCursor ++ nextCursor.

(** [DecodeListWritesResponseV2] walks the base part again, entry by entry, to
    find where the tail starts. *)
Fixpoint skip_entries (n : nat) (body : bytes) (off : Z) : go (option Z) :=
  match n with
  | O => Ret (Some off)
  | S n =>
      data ← slice body off (len body);
      consumed ← writeEnvelopeEntryLen data;
      match consumed with None => Ret None | Some c => skip_entries n body (off + c) end
  end.

Fixpoint skip_counts (n : nat) (body : bytes) (off : Z) : go Z :=
  match n with
  | O => Ret off
  | S n => sl ← slice body off (off + 4); skip_counts n body (off + (4 + get_le sl + 4))
  end.

(** The cursor is [None] when the response has no tail. *)
Definition DecodeListWritesResponseV2 (body : bytes)
    : go (option (list WriteEnvelopeView * list SourceCountView * option bytes)) :=
  base ← DecodeListWritesResponse body;
  match base with
  | None => Ret None
  | Some (entries, counts) =>
      off ← skip_entries (length entries) body 4;
      match off with
      | None => Ret None
      | Some off =>
          let off := off + 4 in
          off ← skip_counts (length counts) body off;
          if off =? len body then Ret (Some (entries, counts, None))
          else if len body <? off + 4 then Ret None
          else
            nl ← slice body off (off + 4);
            let nextLen := get_le nl in
            if (nextLen <? 0) || negb (off + 4 + nextLen =? len body) then Ret None
            else next ← slice body (off + 4) (off + 4 + nextLen); Ret (Some (entries, counts, Some next))
      end
  end.
End Proto.
