(* ===== verification/ProtoSpec.v ===== *)
(** * Properties of the payload codecs

    No decoder panics on any input; every payload decodes to what was encoded;
    old decoders read new responses and new decoders read old requests. *)
From S2P Require Import Prelude Bytes Temporal Proto.
Import Proto.

Module ProtoSpec.

Notation fits32 x := (len x < 2 ^ 32).
Notation fits16 x := (len x < 2 ^ 16).

Lemma len_len32 x : len (len32 x) = 4.
Proof. apply len_put_le. Qed.
Lemma len_len16 x : len (len16 x) = 2.
Proof. apply len_put_le. Qed.
#[local] Hint Rewrite len_len32 len_len16 : len.

Lemma get_len32 x : fits32 x -> get_le (len32 x) = len x.
Proof.
  intros H. unfold len32. assert (is_u32 (len x)) by (split; [apply len_nonneg|done]). rewrite u32_small by done. by apply get_put_u32.
Qed.
Lemma get_len16 x : fits16 x -> get_le (len16 x) = len x.
Proof. intros H. unfold len16. apply get_put_u16. split; [apply len_nonneg|done]. Qed.

(** Runs a decoder over an encoded value: decides its length tests, evaluates
    its slices and reads back its length fields. *)
Ltac read_fields := repeat first
  [ rewrite get_len32 by done | rewrite get_len16 by done | rewrite get_put_s64 by done
  | rewrite get_put_u32 by done | rewrite get_put_u64 by done ].
Ltac run_codec := repeat (first [progress read_fields | len_test | go_slice]).

(** ** Requests *)
Lemma put_frame_codec key value tail : fits32 key -> fits32 value ->
  DecodePutFrame (EncodePutFrame key value ++ tail) = Ret (Some (key, value)).
Proof. intros Hk Hv. unfold DecodePutFrame, EncodePutFrame. rewrite <- !app_assoc. run_codec. done. Qed.

Lemma key_frame_codec key : fits32 key -> DecodeKeyFrame (EncodeKeyOnlyFrame key) = Ret (Some key).
Proof. intros Hk. unfold DecodeKeyFrame, EncodeKeyOnlyFrame. run_codec. done. Qed.

Lemma as_of_codec key t : fits32 key -> is_s64 t -> DecodeAsOfFrame (EncodeAsOfFrame key t) = Ret (Some (key, t)).
Proof. intros Hk Ht. unfold DecodeAsOfFrame, EncodeAsOfFrame. run_codec. done. Qed.

Lemma put_versioned_codec key value source : fits32 key -> fits32 value -> fits32 source ->
  DecodePutVersionedFrame (EncodePutVersionedFrame key value source) = Ret (Some (key, value, source)).
Proof.
  intros Hk Hv Hs. unfold DecodePutVersionedFrame.
  assert (len (EncodePutFrame key value) = 8 + len key + len value) as El by (unfold EncodePutFrame; len_lia).
  destruct source as [|c source]; unfold EncodePutVersionedFrame.
  - rewrite <- (app_nil_r (EncodePutFrame key value)), put_frame_codec by done. cbn [mbind go_bind].
    rewrite slice_suffix by (rewrite ?app_nil_r; lia). done.
  - rewrite put_frame_codec by done. cbn [mbind go_bind]. rewrite slice_suffix by lia. cbn [mbind go_bind].
    set (src := c :: source) in *. run_codec. done.
Qed.

Lemma replay_request_codec prefix t : fits32 prefix -> is_s64 t ->
  DecodeReplayFingerprintRequest (EncodeReplayFingerprintRequest prefix t) = Ret (Some (prefix, Z.max 0 t)).
Proof.
  intros Hp Ht. unfold DecodeReplayFingerprintRequest, EncodeReplayFingerprintRequest, EncodeKeyOnlyFrame.
  destruct (Z.leb_spec t 0); run_codec; do 3 f_equal; lia.
Qed.

Lemma list_writes_request_codec prefix f t source : fits32 prefix -> fits32 source -> is_s64 f -> is_s64 t ->
  DecodeListWritesRequest (EncodeListWritesRequest prefix f t source) = Ret (Some (prefix, f, t, source)).
Proof. intros Hp Hs Hf Ht. unfold DecodeListWritesRequest, EncodeListWritesRequest. run_codec. done. Qed.

Lemma cursor_codec key seq : fits32 key -> is_u64 seq -> DecodeListWritesCursor (EncodeListWritesCursor key seq) = Ret (Some (key, seq)).
Proof. intros Hk Hs. unfold DecodeListWritesCursor, EncodeListWritesCursor. run_codec. done. Qed.

(** The tail is read back, and a request without tail as "no cursor, no limit". *)
Lemma list_writes_request_v2_codec prefix f t source cursor limit :
  fits32 prefix -> fits32 source -> fits32 cursor -> is_s64 f -> is_s64 t -> is_u32 limit ->
  DecodeListWritesRequestV2 (EncodeListWritesRequestV2 prefix f t source cursor limit) =
    Ret (Some (prefix, f, t, source, if (len cursor =? 0) && (limit =? 0) then None else Some cursor, limit)).
Proof.
  intros Hp Hs Hc Hf Ht Hl. unfold DecodeListWritesRequestV2, EncodeListWritesRequestV2, EncodeListWritesRequest.
  destruct ((len cursor =? 0) && (limit =? 0)) eqn:E; rewrite <- ?app_assoc; run_codec; [|done].
  apply andb_true_iff in E as [_ E]. by apply Z.eqb_eq in E as ->.
Qed.

Lemma index_one {A} (x : A) l i : i = 0 -> index ([x] ++ l) i = Ret x.
Proof.
  intros ->. unfold index. rewrite len_app. change (len [x]) with 1. pose proof (len_nonneg l).
  by replace ((0 <=? 0) && (0 <? 1 + len l)) with true by lia.
Qed.

Lemma unsigned_byte z : 0 <= z < 2 ^ 8 -> #(byte.of_Z z) = z.
Proof. intros H. rewrite byte.unsigned_of_Z. unfold byte.wrap. by apply Z.mod_small. Qed.

Lemma put_byte z : put_le 1 z = [byte.of_Z z].
Proof. done. Qed.

Ltac go_index := eapply go_bind_eq; [repeat rewrite index_skip by len_lia; apply index_one; len_lia|]; cbv beta zeta.
Ltac run_codec ::= repeat (first [progress read_fields | len_test | go_index | go_slice]).

Definition scan_request_ok (r : ScanRequest) : Prop :=
  fits32 r.(Start) /\ fits32 r.(End_) /\ fits32 r.(Pred).(Field) /\ 0 <= r.(Pred).(Op) < 2 ^ 8.

Lemma scan_request_codec r : scan_request_ok r -> DecodeScanRequest (EncodeScanRequest r) = Ret (Some r).
Proof.
  intros (H1 & H2 & H3 & H4). unfold DecodeScanRequest, EncodeScanRequest, scanReqHeaderLen. rewrite put_byte. run_codec.
  rewrite unsigned_byte by done. by destruct r as [? ? []].
Qed.

(** ** Responses *)
Lemma err_codec code reason : 0 <= code < 2 ^ 16 -> fits16 reason ->
  DecodeV2ErrPayload (V2ErrPayload code reason) = Ret (Some (code, reason)).
Proof.
  intros Hc Hr. unfold DecodeV2ErrPayload, V2ErrPayload. run_codec. rewrite get_put_le. do 3 f_equal. by apply Z.mod_small.
Qed.

Definition ack_ok (a : V2AckFields) : Prop :=
  is_u32 a.(CorrID) /\ is_u32 a.(Received) /\ is_u32 a.(Accepted) /\ is_u32 a.(Rejected) /\
  0 <= a.(FirstErrCode) < 2 ^ 16 /\ fits16 a.(FirstErrReason).

Lemma ack_codec a : ack_ok a -> DecodeV2AckBody (V2AckBody a) = Ret (Some a).
Proof.
  intros (H1 & H2 & H3 & H4 & H5 & H6). unfold DecodeV2AckBody, V2AckBody. run_codec.
  rewrite get_put_le. change (8 * Z.of_nat 2) with 16. rewrite Z.mod_small by done. by destruct a.
Qed.

Definition fits_pair (e : bytes * bytes) : Prop := fits32 e.1 /\ fits32 e.2.

Lemma scan_entries_codec es : forall fuel pre tail, Forall fits_pair es -> (length es <= fuel)%nat ->
  scan_entries fuel (len es) (pre ++ concat (map encode_scan_entry es) ++ tail) (len pre) = Ret (Some es).
Proof.
  induction es as [|[k v] es IH]; intros fuel pre tail Hes Hf; [by destruct fuel|].
  apply Forall_cons in Hes as [[Hk Hv] Hes]. cbn [fst snd] in *. destruct fuel as [|fuel]; [cbn in Hf; lia|].
  cbn [scan_entries map concat]. rewrite len_cons. pose proof (len_nonneg es). replace (1 + len es <=? 0) with false by lia.
  assert (forall r, pre ++ (encode_scan_entry (k, v) ++ r) ++ tail = pre ++ len32 k ++ len32 v ++ k ++ v ++ r ++ tail) as ->
    by (intros r; unfold encode_scan_entry; cbn [fst snd]; by rewrite <- !app_assoc).
  run_codec.
  specialize (IH fuel (pre ++ len32 k ++ len32 v ++ k ++ v) tail Hes). rewrite <- !app_assoc in IH.
  replace (1 + len es - 1) with (len es) by lia.
  replace (len pre + 8 + len k + len v) with (len (pre ++ len32 k ++ len32 v ++ k ++ v)) by len_lia.
  rewrite IH by (cbn in Hf; lia). done.
Qed.

Lemma concat_long {A} (f : A -> bytes) (es : list A) : (forall e, 1 <= len (f e)) -> (length es <= length (concat (map f es)))%nat.
Proof.
  intros Hf. induction es as [|e es IH]; [done|]. cbn [map concat length]. rewrite length_app. specialize (Hf e). unfold len in Hf. lia.
Qed.

Lemma scan_response_codec status es : len status < 2 ^ 8 -> len es < 2 ^ 32 -> Forall fits_pair es ->
  DecodeScanResponse (EncodeScanResponse status es) = Ret (Some (status, es)).
Proof.
  intros Hs Hn Hes. unfold DecodeScanResponse, EncodeScanResponse. pose proof (len_nonneg status).
  assert (u8 (len status) = len status) as -> by by apply Z.mod_small.
  rewrite put_byte. set (enc := concat (map encode_scan_entry es)).
  assert (is_u32 (len es)) as Hu by (split; [apply len_nonneg|done]). rewrite u32_small by done.
  len_test. go_index. rewrite unsigned_byte by done. run_codec.
  set (body := [_] ++ _).
  assert (body = ([byte.of_Z (len status)] ++ status ++ put_le 4 (len es)) ++ enc ++ []) as -> by (unfold body; by rewrite app_nil_r, <- !app_assoc).
  replace (1 + len status + 4) with (len ([byte.of_Z (len status)] ++ status ++ put_le 4 (len es))) by len_lia.
  rewrite (scan_entries_codec es); [done|done|]. rewrite !length_app.
  assert (length es <= length enc)%nat by (apply concat_long; intros e; unfold encode_scan_entry; len_lia). lia.
Qed.

(** *** Lists of items *)

(** An item codec: what [decode] reads off the front of any buffer. *)
Definition item_codec {A} (encode : A -> bytes) (decode : bytes -> go (option (A * Z))) (ok : A -> Prop) : Prop :=
  forall x tail, ok x -> decode (encode x ++ tail) = Ret (Some (x, len (encode x))).

Lemma decode_items_codec {A} (encode : A -> bytes) decode ok xs : item_codec encode decode ok ->
  forall fuel pre tail, Forall ok xs -> (length xs <= fuel)%nat ->
  decode_items decode fuel (len xs) (pre ++ concat (map encode xs) ++ tail) (len pre) =
    Ret (Some (xs, len pre + len (concat (map encode xs)))).
Proof.
  intros Hc. induction xs as [|x xs IH]; intros fuel pre tail Hxs Hf.
  { destruct fuel; cbn; by rewrite len_nil, Z.add_0_r. }
  apply Forall_cons in Hxs as [Hx Hxs]. destruct fuel as [|fuel]; [cbn in Hf; lia|].
  cbn [decode_items map concat]. rewrite len_cons. pose proof (len_nonneg xs). replace (1 + len xs <=? 0) with false by lia.
  rewrite <- app_assoc. rewrite slice_suffix by len_lia. cbn [mbind go_bind]. rewrite Hc by done. cbn [mbind go_bind].
  specialize (IH fuel (pre ++ encode x) tail Hxs). rewrite <- !app_assoc in IH. rewrite len_app in IH.
  replace (1 + len xs - 1) with (len xs) by lia. rewrite IH by (cbn in Hf; lia). cbn [mbind go_bind]. rewrite len_app, Z.add_assoc. done.
Qed.

(** *** Versions *)
Definition version_view_ok (v : VersionEntryView) : Prop :=
  is_u64 v.(ViewSeq) /\ is_s64 v.(ViewWriteNanos) /\ fits32 v.(ViewPayload).
Definition encode_version_view (v : VersionEntryView) : bytes :=
  EncodeVersionEntry v.(ViewSeq) v.(ViewWriteNanos) v.(ViewPayload).

Lemma version_entry_codec : item_codec encode_version_view DecodeVersionEntry version_view_ok.
Proof.
  intros v tail (H1 & H2 & H3). unfold encode_version_view, EncodeVersionEntry, DecodeVersionEntry. rewrite <- !app_assoc.
  run_codec. do 3 f_equal; [by destruct v|len_lia].
Qed.

Lemma list_versions_codec vs : len vs < 2 ^ 32 -> Forall version_view_ok vs ->
  DecodeListVersionsResponse (EncodeListVersionsResponse (map encode_version_view vs)) = Ret (Some vs).
Proof.
  intros Hn Hvs. unfold DecodeListVersionsResponse, EncodeListVersionsResponse.
  assert (len (map encode_version_view vs) = len vs) as -> by (unfold len; by rewrite length_map).
  assert (is_u32 (len vs)) as Hu by (split; [apply len_nonneg|done]). rewrite u32_small by done. run_codec.
  set (enc := concat _). replace (put_le 4 (len vs) ++ enc) with (put_le 4 (len vs) ++ enc ++ []) by by rewrite app_nil_r.
  replace 4 with (len (put_le 4 (len vs))) at 3 by len_lia.
  unfold enc. rewrite (decode_items_codec encode_version_view DecodeVersionEntry version_view_ok vs version_entry_codec); [done|done|].
  rewrite !length_app.
  assert (length vs <= length (concat (map encode_version_view vs)))%nat
    by (apply concat_long; intros e; unfold encode_version_view, EncodeVersionEntry; len_lia). lia.
Qed.

(** *** Replay results *)
Lemma flag_read b : negb (#(flag b) =? 0) = b.
Proof. by destruct b. Qed.

Lemma mismatch_keys_codec ks : forall fuel pre tail, Forall (fun k => fits16 k) ks -> (length ks <= fuel)%nat ->
  mismatch_keys fuel (len ks) (pre ++ concat (map (fun k => len16 k ++ k) ks) ++ tail) (len pre) =
    Ret (Some (ks, len pre + len (concat (map (fun k => len16 k ++ k) ks)))).
Proof.
  induction ks as [|k ks IH]; intros fuel pre tail Hks Hf.
  { destruct fuel; cbn; by rewrite len_nil, Z.add_0_r. }
  apply Forall_cons in Hks as [Hk Hks]. destruct fuel as [|fuel]; [cbn in Hf; lia|].
  cbn [mismatch_keys map concat]. rewrite len_cons. pose proof (len_nonneg ks). replace (1 + len ks <=? 0) with false by lia.
  rewrite <- !app_assoc. run_codec. specialize (IH fuel (pre ++ len16 k ++ k) tail Hks). rewrite <- !app_assoc in IH.
  replace (1 + len ks - 1) with (len ks) by lia.
  replace (len pre + 2 + len k) with (len (pre ++ len16 k ++ k)) by len_lia. rewrite IH by (cbn in Hf; lia). cbn [mbind go_bind].
  do 3 f_equal. len_lia.
Qed.

Definition replay_view_ok (v : ReplayFingerprintView) : Prop :=
  is_u32 v.(RVKeyCount) /\ v.(RVMismatchCount) = len v.(RVMismatchKeys) /\ len v.(RVMismatchKeys) < 2 ^ 32 /\
  fits16 v.(RVFingerprint) /\ Forall (fun k => fits16 k) v.(RVMismatchKeys).

(** With [bounded = None] the older response, which has no last byte. *)
Definition encode_replay_view (v : ReplayFingerprintView) (tail : bytes) : bytes :=
  EncodeReplayFingerprintResponse v.(RVKeyCount) v.(RVMismatchCount) v.(RVFingerprint) v.(RVMismatchKeys) ++ tail.

Lemma replay_response_gen v tail : replay_view_ok v ->
  DecodeReplayFingerprintResponse (encode_replay_view v tail) =
    (bounded ← (if 0 <? len tail then b ← index tail 0; Ret (negb (#b =? 0)) else Ret false);
     Ret (Some (MkReplayView v.(RVKeyCount) v.(RVMismatchCount) v.(RVFingerprint) v.(RVMismatchKeys) bounded))).
Proof.
  intros (H1 & H2 & H3 & H4 & H5). destruct v as [kc mc fp ks bd]. cbn [RVKeyCount RVMismatchCount RVFingerprint RVMismatchKeys] in *.
  subst mc. unfold DecodeReplayFingerprintResponse, encode_replay_view, EncodeReplayFingerprintResponse.
  cbn [RVKeyCount RVMismatchCount RVFingerprint RVMismatchKeys].
  assert (is_u32 (len ks)) as Hu by (split; [apply len_nonneg|done]). set (enc := concat _). rewrite <- !app_assoc. run_codec.
  set (pre := put_le 4 kc ++ put_le 4 (len ks) ++ len16 fp ++ fp).
  assert (put_le 4 kc ++ put_le 4 (len ks) ++ len16 fp ++ fp ++ enc ++ tail = pre ++ enc ++ tail) as -> by (unfold pre; by rewrite <- !app_assoc).
  replace (10 + len fp) with (len pre) by (unfold pre; len_lia). unfold enc at 2.
  rewrite mismatch_keys_codec; [|done|].
  - fold enc. cbn [mbind go_bind]. rewrite !len_app. replace (len pre + len enc <? len pre + (len enc + len tail)) with (0 <? len tail)
      by (apply Bool.eq_iff_eq_true; rewrite !Z.ltb_lt; lia).
    rewrite app_assoc, index_skip, len_app by (rewrite len_app; lia). by rewrite Z.sub_diag.
  - rewrite !length_app. assert (length ks <= length enc)%nat by (apply concat_long; intros e; len_lia). lia.
Qed.

Lemma replay_response_codec v : replay_view_ok v ->
  DecodeReplayFingerprintResponse (EncodeReplayFingerprintResponseV2 v.(RVKeyCount) v.(RVMismatchCount) v.(RVFingerprint)
    v.(RVMismatchKeys) v.(RVBounded)) = Ret (Some v) /\
  DecodeReplayFingerprintResponse (EncodeReplayFingerprintResponse v.(RVKeyCount) v.(RVMismatchCount) v.(RVFingerprint)
    v.(RVMismatchKeys)) = Ret (Some (MkReplayView v.(RVKeyCount) v.(RVMismatchCount) v.(RVFingerprint) v.(RVMismatchKeys) false)).
Proof.
  intros Hv. split.
  - pose proof (replay_response_gen v [flag (RVBounded v)] Hv) as E. unfold encode_replay_view in E.
    unfold EncodeReplayFingerprintResponseV2. rewrite E. change (0 <? len [flag (RVBounded v)]) with true.
    assert (index [flag (RVBounded v)] 0 = Ret (flag (RVBounded v))) as -> by by apply (index_one _ []).
    cbn [mbind go_bind]. rewrite flag_read. by destruct v.
  - pose proof (replay_response_gen v [] Hv) as E. unfold encode_replay_view in E. rewrite app_nil_r in E. rewrite E. done.
Qed.

(** *** Audited writes *)
Definition write_view_ok (e : WriteEnvelopeView) : Prop :=
  fits32 e.(WVLogicalKey) /\ is_u64 e.(WVSeq) /\ is_s64 e.(WVWriteNanos) /\ fits32 e.(WVSource) /\ is_u32 e.(WVSchemaVer) /\
  fits16 e.(WVPayloadHash) /\ fits32 e.(WVPayload).

Lemma write_entry_codec : item_codec EncodeWriteEnvelopeEntry DecodeWriteEnvelopeEntry write_view_ok.
Proof.
  intros e tail (H1 & H2 & H3 & H4 & H5 & H6 & H7). unfold EncodeWriteEnvelopeEntry, DecodeWriteEnvelopeEntry. rewrite <- !app_assoc.
  run_codec. rewrite flag_read. do 3 f_equal; [by destruct e|]. rewrite !len_app. change (len [flag (WVHashOK e)]) with 1. len_lia.
Qed.

Lemma index_safe {A} (l : list A) i : 0 <= i < len l -> exists x, index l i = Ret x.
Proof.
  intros H. unfold index. replace ((0 <=? i) && (i <? len l)) with true by lia.
  destruct (l !! Z.to_nat i) eqn:E; [by eexists|]. apply lookup_ge_None in E. unfold len in H. lia.
Qed.

(** One step of a decoder on an arbitrary buffer: a test, or a slice or an
    index that the tests so far keep in bounds. *)
Ltac go_case :=
  cbn [mbind go_bind];
  match goal with
  | |- context [slice ?d ?a ?b ≫= _] =>
      let s := fresh "s" in let E := fresh "E" in
      destruct (slice_safe d a b) as (s & E & ?); [le_bounds; len_lia|le_bounds; len_lia|rewrite E]
  | |- context [index ?d ?i ≫= _] =>
      let x := fresh "x" in let E := fresh "E" in destruct (index_safe d i) as (x & E); [le_bounds; len_lia|rewrite E]
  | |- context [if ?c then _ else _] => destruct c eqn:?
  end.

(** The skipping walk agrees with the decoder on every buffer. *)
Lemma entry_len_agrees data :
  writeEnvelopeEntryLen data = (r ← DecodeWriteEnvelopeEntry data; Ret match r with Some (_, n) => Some n | None => None end).
Proof.
  unfold writeEnvelopeEntryLen, DecodeWriteEnvelopeEntry.
  assert (forall l, 0 + 4 + (l + 8 + 8) = 0 + 4 + l + 8 + 8) as Eo by lia. cbv zeta.
  go_case; [done|]. go_case. cbn [mbind go_bind]. rewrite Eo. repeat (go_case; try done).
Qed.

Lemma source_count_codec cs : forall fuel pre tail, Forall (fun c => fits32 c.(SVSource) /\ is_u32 c.(SVCount)) cs -> (length cs <= fuel)%nat ->
  source_count_loop fuel (len cs) (pre ++ concat (map encode_source_count cs) ++ tail) (len pre) =
    Ret (Some (cs, len pre + len (concat (map encode_source_count cs)))).
Proof.
  induction cs as [|[src n] cs IH]; intros fuel pre tail Hcs Hf.
  { destruct fuel; cbn; by rewrite len_nil, Z.add_0_r. }
  apply Forall_cons in Hcs as [[Hs Hn] Hcs]. cbn [SVSource SVCount] in *. destruct fuel as [|fuel]; [cbn in Hf; lia|].
  cbn [source_count_loop map concat]. rewrite len_cons. pose proof (len_nonneg cs). replace (1 + len cs <=? 0) with false by lia.
  assert (forall r, pre ++ (encode_source_count (MkSourceView src n) ++ r) ++ tail = pre ++ len32 src ++ src ++ put_le 4 n ++ r ++ tail) as Eb
    by (intros r; unfold encode_source_count; cbn [SVSource SVCount]; by rewrite <- !app_assoc).
  rewrite !Eb. run_codec. specialize (IH fuel (pre ++ len32 src ++ src ++ put_le 4 n) tail Hcs). rewrite <- !app_assoc in IH.
  replace (1 + len cs - 1) with (len cs) by lia.
  replace (len pre + 4 + len src + 4) with (len (pre ++ len32 src ++ src ++ put_le 4 n)) by len_lia.
  rewrite IH by (cbn in Hf; lia). cbn [mbind go_bind]. do 3 f_equal. rewrite len_app. unfold encode_source_count. cbn [SVSource SVCount]. len_lia.
Qed.

Definition counts_ok (cs : list SourceCountView) : Prop :=
  len cs < 2 ^ 32 /\ Forall (fun c => fits32 c.(SVSource) /\ is_u32 c.(SVCount)) cs.
Definition writes_ok (es : list WriteEnvelopeView) : Prop := len es < 2 ^ 32 /\ Forall write_view_ok es.

Lemma list_writes_response_codec es cs tail : writes_ok es -> counts_ok cs ->
  DecodeListWritesResponse (EncodeListWritesResponse (map EncodeWriteEnvelopeEntry es) cs ++ tail) = Ret (Some (es, cs)).
Proof.
  intros [Hn Hes] [Hm Hcs]. unfold DecodeListWritesResponse, EncodeListWritesResponse.
  assert (len (map EncodeWriteEnvelopeEntry es) = len es) as -> by (unfold len; by rewrite length_map).
  assert (is_u32 (len es)) as Hu by (split; [apply len_nonneg|done]). assert (is_u32 (len cs)) as Hv by (split; [apply len_nonneg|done]).
  rewrite !u32_small by done. set (enc := concat (map EncodeWriteEnvelopeEntry es)). set (tot := concat (map encode_source_count cs)).
  rewrite <- !app_assoc. run_codec. set (body := put_le 4 (len es) ++ _).
  assert (length es <= length enc)%nat by (apply concat_long; intros e; unfold EncodeWriteEnvelopeEntry; len_lia).
  assert (length cs <= length tot)%nat by (apply concat_long; intros c; unfold encode_source_count; len_lia).
  assert (decode_items DecodeWriteEnvelopeEntry (length body) (len es) body (0 + 4) = Ret (Some (es, 4 + len enc))) as ->.
  { pose proof (decode_items_codec EncodeWriteEnvelopeEntry DecodeWriteEnvelopeEntry write_view_ok es write_entry_codec
      (length body) (put_le 4 (len es)) (put_le 4 (len cs) ++ tot ++ tail) Hes) as E.
    rewrite len_put_le in E. apply E. unfold body. rewrite !length_app. lia. }
  cbn [mbind go_bind]. unfold body. run_codec. set (pre := put_le 4 (len es) ++ enc ++ put_le 4 (len cs)).
  assert (put_le 4 (len es) ++ enc ++ put_le 4 (len cs) ++ tot ++ tail = pre ++ tot ++ tail) as -> by (unfold pre; by rewrite <- !app_assoc).
  replace (4 + len enc + 4) with (len pre) by (unfold pre; len_lia). unfold tot at 2. rewrite source_count_codec; [done|done|].
  rewrite !length_app. lia.
Qed.

(** ** The second walk over a response finds the same places *)
Lemma skip_entries_ok fuel : forall count body off xs off',
  decode_items DecodeWriteEnvelopeEntry fuel count body off = Ret (Some (xs, off')) -> skip_entries (length xs) body off = Ret (Some off').
Proof.
  induction fuel as [|fuel IH]; intros count body off xs off'; cbn [decode_items]; destruct (count <=? 0);
    try (by intros [= <- <-]); try done.
  destruct (slice body off (len body)) as [data|] eqn:Es; cbn [mbind go_bind]; [|done].
  destruct (DecodeWriteEnvelopeEntry data) as [[[x n]|]|] eqn:Ed; cbn [mbind go_bind]; [|done|done].
  destruct (decode_items DecodeWriteEnvelopeEntry fuel (count - 1) body (off + n)) as [[[l o]|]|] eqn:Er; cbn [mbind go_bind]; [|done|done].
  intros [= <- <-]. cbn [length skip_entries]. rewrite Es. cbn [mbind go_bind]. rewrite entry_len_agrees, Ed. cbn [mbind go_bind].
  by eapply IH.
Qed.

Lemma skip_counts_ok fuel : forall count body off cs off', 
  source_count_loop fuel count body off = Ret (Some (cs, off')) -> skip_counts (length cs) body off = Ret off'.
Proof.
  induction fuel as [|fuel IH]; intros count body off cs off'; cbn [source_count_loop]; destruct (count <=? 0);
    try (by intros [= <- <-]); try done.
  destruct (len body <? off + 4); [done|]. destruct (slice body off (off + 4)) as [sl|] eqn:Es; cbn [mbind go_bind]; [|done].
  destruct (_ || _); [done|]. destruct (slice body (off + 4) _) as [src|]; cbn [mbind go_bind]; [|done].
  destruct (slice body (off + 4 + get_le sl) _) as [cn|]; cbn [mbind go_bind]; [|done].
  destruct (source_count_loop fuel (count - 1) body _) as [[[l o]|]|] eqn:Er; cbn [mbind go_bind]; [|done|done].
  intros [= <- <-]. cbn [length skip_counts]. rewrite Es. cbn [mbind go_bind].
  replace (off + (4 + get_le sl + 4)) with (off + 4 + get_le sl + 4) by lia. by eapply IH.
Qed.

(** ** No panic, and where the loops stop *)
Definition stops {A} (m : go (option (A * Z))) (lo hi : Z) : Prop :=
  exists r, m = Ret r /\ forall x o, r = Some (x, o) -> lo <= o <= hi.

Lemma stops_none {A} lo hi : stops (A := A) (Ret None) lo hi.
Proof. by exists None. Qed.
Lemma stops_some {A} (x : A) o lo hi : lo <= o <= hi -> stops (Ret (Some (x, o))) lo hi.
Proof. intros H. exists (Some (x, o)). split; [done|]. by intros ? ? [= _ <-]. Qed.

(** An item decoder takes between one byte and the whole buffer. *)
Definition item_reader {A} (decode : bytes -> go (option (A * Z))) : Prop := forall data, stops (decode data) 1 (len data).

Ltac reader_case := go_case; try (by apply stops_none).

Lemma version_entry_reader : item_reader DecodeVersionEntry.
Proof. intros data. unfold DecodeVersionEntry. cbv zeta. repeat reader_case. cbn [mbind go_bind]. apply stops_some. le_bounds. lia. Qed.

Lemma write_entry_reader : item_reader DecodeWriteEnvelopeEntry.
Proof. intros data. unfold DecodeWriteEnvelopeEntry. cbv zeta. repeat reader_case. cbn [mbind go_bind]. apply stops_some. le_bounds. lia. Qed.

Lemma decode_items_stops {A} (decode : bytes -> go (option (A * Z))) fuel : item_reader decode ->
  forall count body off, 0 <= off <= len body -> stops (decode_items decode fuel count body off) off (len body).
Proof.
  intros Hd. induction fuel as [|fuel IH]; intros count body off Hoff; cbn [decode_items]; destruct (count <=? 0);
    try (apply stops_some; lia); try apply stops_none.
  destruct (slice_safe body off (len body)) as (data & -> & El); [lia|lia|]. cbn [mbind go_bind].
  destruct (Hd data) as (r & -> & Hr). cbn [mbind go_bind]. destruct r as [[x n]|]; [|apply stops_none].
  specialize (Hr x n eq_refl). destruct (IH (count - 1) body (off + n)) as (r' & -> & Hr'); [lia|]. cbn [mbind go_bind].
  destruct r' as [[l o]|]; [|apply stops_none]. apply stops_some. specialize (Hr' l o eq_refl). lia.
Qed.

Lemma mismatch_keys_stops fuel : forall count body off, 0 <= off <= len body -> stops (mismatch_keys fuel count body off) off (len body).
Proof.
  induction fuel as [|fuel IH]; intros count body off Hoff; cbn [mismatch_keys]; destruct (count <=? 0);
    try (apply stops_some; lia); try apply stops_none.
  cbv zeta. do 4 (try reader_case). cbn [mbind go_bind]. le_bounds.
  match goal with |- context [mismatch_keys fuel ?c body ?o] => destruct (IH c body o) as (r' & -> & Hr'); [lia|] end.
  cbn [mbind go_bind]. destruct r' as [[l o]|]; [|apply stops_none]. apply stops_some. specialize (Hr' l o eq_refl). lia.
Qed.

Lemma source_count_stops fuel : forall count body off, 0 <= off <= len body -> stops (source_count_loop fuel count body off) off (len body).
Proof.
  induction fuel as [|fuel IH]; intros count body off Hoff; cbn [source_count_loop]; destruct (count <=? 0);
    try (apply stops_some; lia); try apply stops_none.
  cbv zeta. do 5 (try reader_case). cbn [mbind go_bind]. le_bounds.
  match goal with |- context [source_count_loop fuel ?c body ?o] => destruct (IH c body o) as (r' & -> & Hr'); [lia|] end.
  cbn [mbind go_bind]. destruct r' as [[l o]|]; [|apply stops_none]. apply stops_some. specialize (Hr' l o eq_refl). lia.
Qed.

Lemma scan_entries_safe fuel : forall count payload off, 0 <= off <= len payload -> safe (scan_entries fuel count payload off).
Proof.
  induction fuel as [|fuel IH]; intros count payload off Hoff; cbn [scan_entries]; destruct (count <=? 0); try apply safe_ret.
  cbv zeta. do 6 (try (go_case; try apply safe_ret)). cbn [mbind go_bind]. le_bounds.
  match goal with |- context [scan_entries fuel ?c payload ?o] => destruct (IH c payload o) as (r' & ->); [lia|] end.
  apply safe_ret.
Qed.

Ltac decoder_safe := cbv zeta; repeat (go_case; try apply safe_ret); cbn [mbind go_bind]; try apply safe_ret.

Lemma stops_safe {A} (m : go (option (A * Z))) lo hi : stops m lo hi -> safe m.
Proof. intros (r & -> & _). apply safe_ret. Qed.

Lemma put_frame_reads data : exists r, DecodePutFrame data = Ret r /\ forall k v, r = Some (k, v) -> 8 + len k + len v <= len data.
Proof.
  unfold DecodePutFrame. cbv zeta. repeat (go_case; try (by eexists; split; [reflexivity|])). cbn [mbind go_bind].
  eexists. split; [done|]. intros k v [= <- <-]. le_bounds. lia.
Qed.

Lemma list_writes_response_reads body : exists r, DecodeListWritesResponse body = Ret r /\
  forall entries counts, r = Some (entries, counts) -> exists o1 o2, 0 <= o1 /\ o1 + 4 <= o2 <= len body /\
    skip_entries (length entries) body 4 = Ret (Some o1) /\ skip_counts (length counts) body (o1 + 4) = Ret o2.
Proof.
  unfold DecodeListWritesResponse. cbv zeta. go_case; [by eexists|]. go_case. cbn [mbind go_bind].
  destruct (decode_items_stops DecodeWriteEnvelopeEntry (length body) write_entry_reader (get_le s) body (0 + 4)) as (r & Er & Hr); [lia|].
  rewrite Er. cbn [mbind go_bind]. destruct r as [[entries o1]|]; [|by eexists]. specialize (Hr entries o1 eq_refl).
  go_case; [by eexists|]. go_case. cbn [mbind go_bind].
  destruct (source_count_stops (length body) (get_le s0) body (o1 + 4)) as (r & Er' & Hr'); [lia|].
  rewrite Er'. cbn [mbind go_bind]. eexists. split; [done|]. intros es cs. destruct r as [[counts o2]|]; [|done]. intros [= <- <-].
  specialize (Hr' counts o2 eq_refl). exists o1, o2. split; [lia|]. split; [lia|]. split.
  - by eapply skip_entries_ok.
  - by eapply skip_counts_ok.
Qed.

(** ** The rounds are enough: more fuel than remaining bytes changes nothing *)
Lemma decode_items_fuel {A} (decode : bytes -> go (option (A * Z))) : item_reader decode ->
  forall fuel fuel' count body off, 0 <= off <= len body -> len body - off <= Z.of_nat fuel -> len body - off <= Z.of_nat fuel' ->
  decode_items decode fuel count body off = decode_items decode fuel' count body off.
Proof.
  intros Hd. induction fuel as [|fuel IH]; intros [|fuel'] count body off Hoff H1 H2; [done| | |]; cbn [decode_items];
    destruct (count <=? 0); try done; destruct (slice_safe body off (len body)) as (data & -> & El); try lia; cbn [mbind go_bind];
    destruct (Hd data) as (r & -> & Hr); cbn [mbind go_bind]; (destruct r as [[x n]|]; [|done]); specialize (Hr x n eq_refl); try lia.
  rewrite (IH fuel') by lia. done.
Qed.

Lemma mismatch_keys_fuel fuel : forall fuel' count body off, 0 <= off <= len body -> len body - off <= Z.of_nat fuel -> len body - off <= Z.of_nat fuel' ->
  mismatch_keys fuel count body off = mismatch_keys fuel' count body off.
Proof.
  induction fuel as [|fuel IH]; intros [|fuel'] count body off Hoff H1 H2; [done| | |]; cbn [mismatch_keys]; destruct (count <=? 0); try done;
    cbv zeta; do 4 (try (go_case; try done; try lia)). le_bounds. cbn [mbind go_bind]. rewrite (IH fuel') by lia. done.
Qed.

Lemma source_count_fuel fuel : forall fuel' count body off, 0 <= off <= len body -> len body - off <= Z.of_nat fuel -> len body - off <= Z.of_nat fuel' ->
  source_count_loop fuel count body off = source_count_loop fuel' count body off.
Proof.
  induction fuel as [|fuel IH]; intros [|fuel'] count body off Hoff H1 H2; [done| | |]; cbn [source_count_loop]; destruct (count <=? 0); try done;
    cbv zeta; do 5 (try (go_case; try done; try lia)). le_bounds. cbn [mbind go_bind]. rewrite (IH fuel') by lia. done.
Qed.

Lemma scan_entries_fuel fuel : forall fuel' count body off, 0 <= off <= len body -> len body - off <= Z.of_nat fuel -> len body - off <= Z.of_nat fuel' ->
  scan_entries fuel count body off = scan_entries fuel' count body off.
Proof.
  induction fuel as [|fuel IH]; intros [|fuel'] count body off Hoff H1 H2; [done| | |]; cbn [scan_entries]; destruct (count <=? 0); try done;
    cbv zeta; do 6 (try (go_case; try done; try lia)). le_bounds. cbn [mbind go_bind]. rewrite (IH fuel') by lia. done.
Qed.

Lemma list_writes_v2_codec es cs next : writes_ok es -> counts_ok cs -> fits32 next ->
  DecodeListWritesResponseV2 (EncodeListWritesResponseV2 (map EncodeWriteEnvelopeEntry es) cs next) = Ret (Some (es, cs, Some next)) /\
  DecodeListWritesResponseV2 (EncodeListWritesResponse (map EncodeWriteEnvelopeEntry es) cs) = Ret (Some (es, cs, None)).
Proof.
  intros Hes Hcs Hn. set (base := EncodeListWritesResponse (map EncodeWriteEnvelopeEntry es) cs).
  assert (forall tail, exists o1 o2, DecodeListWritesResponse (base ++ tail) = Ret (Some (es, cs)) /\ o2 = len base /\
    skip_entries (length es) (base ++ tail) 4 = Ret (Some o1) /\ skip_counts (length cs) (base ++ tail) (o1 + 4) = Ret o2) as Hbase.
  { intros tail. pose proof (list_writes_response_codec es cs tail Hes Hcs) as E. fold base in E.
    set (enc := concat (map EncodeWriteEnvelopeEntry es)). set (tot := concat (map encode_source_count cs)).
    assert (base = put_le 4 (u32 (len es)) ++ enc ++ put_le 4 (u32 (len cs)) ++ tot) as Eb.
    { unfold base, EncodeListWritesResponse. do 3 f_equal. unfold len. by rewrite length_map. }
    destruct Hes as [Hn1 Hes], Hcs as [Hn2 Hcs].
    pose proof (decode_items_codec EncodeWriteEnvelopeEntry DecodeWriteEnvelopeEntry write_view_ok es write_entry_codec
      (length es) (put_le 4 (u32 (len es))) (put_le 4 (u32 (len cs)) ++ tot ++ tail) Hes ltac:(lia)) as E1.
    pose proof (source_count_codec cs (length cs) (put_le 4 (u32 (len es)) ++ enc ++ put_le 4 (u32 (len cs))) tail Hcs ltac:(lia)) as E2.
    apply skip_entries_ok in E1. apply skip_counts_ok in E2. fold enc in E1. fold tot in E2. rewrite len_put_le in E1.
    rewrite Eb. rewrite <- !app_assoc in E2. rewrite <- !app_assoc. exists (4 + len enc), (len base). split_and!; [|done|exact E1|].
    - rewrite Eb, <- !app_assoc in E. exact E.
    - rewrite !len_app, !len_put_le in E2. change (Z.of_nat 4) with 4 in E2.
      replace (4 + len enc + 4) with (4 + (len enc + 4)) by lia. rewrite E2, Eb. f_equal. len_lia. }
  unfold DecodeListWritesResponseV2. split.
  - destruct (Hbase (len32 next ++ next)) as (o1 & o2 & E & -> & E1 & E2). unfold EncodeListWritesResponseV2. fold base.
    rewrite E. cbn [mbind go_bind]. rewrite E1. cbn [mbind go_bind]. rewrite E2. cbn [mbind go_bind]. run_codec. done.
  - destruct (Hbase []) as (o1 & o2 & E & -> & E1 & E2). rewrite app_nil_r in *. rewrite E. cbn [mbind go_bind]. rewrite E1.
    cbn [mbind go_bind]. rewrite E2. cbn [mbind go_bind]. by rewrite Z.eqb_refl.
Qed.

(** ** No panics *)
Lemma err_payload_safe data : safe (DecodeV2ErrPayload data).
Proof. unfold DecodeV2ErrPayload. decoder_safe. Qed.
Lemma version_entry_safe data : safe (DecodeVersionEntry data).
Proof. eapply stops_safe, version_entry_reader. Qed.
Lemma list_versions_safe data : safe (DecodeListVersionsResponse data).
Proof.
  unfold DecodeListVersionsResponse. cbv zeta. do 2 (go_case; try apply safe_ret). cbn [mbind go_bind].
  destruct (decode_items_stops _ (length data) version_entry_reader (get_le s) data 4) as (r & -> & _); [lia|]. apply safe_ret.
Qed.

(** ** Theorems *)

(** C16: No payload crashes a decoder.  Every decoder of the protocol, for both
    protocol versions and in both directions, returns on every byte string: it
    either decodes or reports a malformed payload, and none of its slice or
    index expressions can be out of range.  (Running out of memory is not
    modelled: some decoders reserve space for an announced count.) *)
Theorem decoders_never_panic data :
  safe (DecodePutFrame data) /\ safe (DecodeKeyFrame data) /\ safe (DecodeScanRequest data) /\ safe (DecodeScanResponse data) /\
  safe (DecodeV2ErrPayload data) /\ safe (DecodeV2AckBody data) /\ safe (DecodeAsOfFrame data) /\
  safe (DecodePutVersionedFrame data) /\ safe (DecodeVersionEntry data) /\ safe (DecodeListVersionsResponse data) /\
  safe (DecodeReplayFingerprintRequest data) /\ safe (DecodeReplayFingerprintResponse data) /\
  safe (DecodeListWritesRequest data) /\ safe (DecodeListWritesRequestV2 data) /\ safe (DecodeListWritesCursor data) /\
  safe (DecodeWriteEnvelopeEntry data) /\ safe (DecodeListWritesResponse data) /\ safe (DecodeListWritesResponseV2 data).
Proof.
  split_and!.
  - destruct (put_frame_reads data) as (r & -> & _). apply safe_ret.
  - unfold DecodeKeyFrame. decoder_safe.
  - unfold DecodeScanRequest, scanReqHeaderLen. decoder_safe.
  - unfold DecodeScanResponse. cbv zeta. do 2 (go_case; try apply safe_ret).
    assert (0 <= #x) by apply byte.unsigned_range. do 3 (go_case; try apply safe_ret).
    cbn [mbind go_bind]. destruct (scan_entries_safe (length data) (get_le s0) data (1 + #x + 4)) as (r & ->); [lia|]. apply safe_ret.
  - apply err_payload_safe.
  - unfold DecodeV2AckBody. decoder_safe.
  - unfold DecodeAsOfFrame. decoder_safe.
  - unfold DecodePutVersionedFrame. destruct (put_frame_reads data) as (r & -> & Hr). cbn [mbind go_bind].
    destruct r as [[k v]|]; [|apply safe_ret]. specialize (Hr k v eq_refl). len_facts. decoder_safe.
  - apply version_entry_safe.
  - apply list_versions_safe.
  - unfold DecodeReplayFingerprintRequest. decoder_safe.
  - unfold DecodeReplayFingerprintResponse. cbv zeta. do 6 (go_case; try apply safe_ret). cbn [mbind go_bind]. le_bounds.
    destruct (mismatch_keys_stops (length data) (get_le s0) data (10 + get_le s1)) as (r & -> & Hr); [lia|]. cbn [mbind go_bind].
    destruct r as [[keys off]|]; [|apply safe_ret]. specialize (Hr keys off eq_refl). decoder_safe.
  - unfold DecodeListWritesRequest. decoder_safe.
  - unfold DecodeListWritesRequestV2. decoder_safe.
  - unfold DecodeListWritesCursor. decoder_safe.
  - eapply stops_safe, write_entry_reader.
  - destruct (list_writes_response_reads data) as (r & -> & _). apply safe_ret.
  - unfold DecodeListWritesResponseV2. destruct (list_writes_response_reads data) as (r & -> & Hr). cbn [mbind go_bind].
    destruct r as [[es cs]|]; [|apply safe_ret]. destruct (Hr es cs eq_refl) as (o1 & o2 & Ho1 & Ho2 & E1 & E2).
    rewrite E1. cbn [mbind go_bind]. rewrite E2. decoder_safe.
Qed.

(** Requests decode to what was encoded: writes, reads, scans, versioned
    writes with and without a source, as-of reads, replays with and without a
    time bound, audits with and without a page, and page cursors.  A replay
    without bound reads back as time 0, and an audit request without cursor and
    limit keeps the old layout and reads back as having no cursor. *)
Theorem request_payloads_roundtrip key value source cursor f t seq limit r :
  fits32 key -> fits32 value -> fits32 source -> fits32 cursor -> is_s64 f -> is_s64 t -> is_u64 seq -> is_u32 limit -> scan_request_ok r ->
  DecodePutFrame (EncodePutFrame key value) = Ret (Some (key, value)) /\
  DecodeKeyFrame (EncodeKeyOnlyFrame key) = Ret (Some key) /\
  DecodeScanRequest (EncodeScanRequest r) = Ret (Some r) /\
  DecodePutVersionedFrame (EncodePutVersionedFrame key value source) = Ret (Some (key, value, source)) /\
  DecodeAsOfFrame (EncodeAsOfFrame key t) = Ret (Some (key, t)) /\
  DecodeReplayFingerprintRequest (EncodeReplayFingerprintRequest key t) = Ret (Some (key, Z.max 0 t)) /\
  DecodeListWritesRequest (EncodeListWritesRequest key f t source) = Ret (Some (key, f, t, source)) /\
  DecodeListWritesCursor (EncodeListWritesCursor key seq) = Ret (Some (key, seq)) /\
  DecodeListWritesRequestV2 (EncodeListWritesRequestV2 key f t source cursor limit) =
    Ret (Some (key, f, t, source, if (len cursor =? 0) && (limit =? 0) then None else Some cursor, limit)).
Proof.
  intros. split_and!.
  - rewrite <- (app_nil_r (EncodePutFrame key value)). by apply put_frame_codec.
  - by apply key_frame_codec.
  - by apply scan_request_codec.
  - by apply put_versioned_codec.
  - by apply as_of_codec.
  - by apply replay_request_codec.
  - by apply list_writes_request_codec.
  - by apply cursor_codec.
  - by apply list_writes_request_v2_codec.
Qed.

Lemma request_payloads_roundtrip_witness :
  let r := MkScanRequest (str "a") (str "z") (MkPredicate (str "price") 1 (str "9.9")) in
  DecodeScanRequest (EncodeScanRequest r) = Ret (Some r) /\
  DecodeListWritesRequestV2 (EncodeListWritesRequestV2 (str "q:") (-1) 5 (str "feed") (str "cur") 7) =
    Ret (Some (str "q:", -1, 5, str "feed", Some (str "cur"), 7)).
Proof.
  set (r := MkScanRequest _ _ _).
  assert (scan_request_ok r) as Hr by (split; [reflexivity|]; split; [reflexivity|]; split; [reflexivity|]; cbn; lia).
  destruct (request_payloads_roundtrip (str "q:") [] (str "feed") (str "cur") (-1) 5 1 7 r) as (_ & _ & E1 & _ & _ & _ & _ & _ & E2);
    try reflexivity; try (unfold is_s64, is_u64, is_u32; lia); [exact Hr|]. split; [exact E1|exact E2].
Defined.

(** Responses decode to what was encoded: scans, errors, window and
    connection acknowledgements, version lists, replay results and audits with
    their page cursor.  Additions stay compatible in both directions: the older
    decoder reads the base part of a paged audit response, and the newer ones
    read the older replay and audit responses, as unbounded and unpaged. *)
Theorem response_payloads_roundtrip status scanned code reason ack vs rv es cs next :
  len status < 2 ^ 8 -> len scanned < 2 ^ 32 -> Forall fits_pair scanned -> 0 <= code < 2 ^ 16 -> fits16 reason -> ack_ok ack ->
  len vs < 2 ^ 32 -> Forall version_view_ok vs -> replay_view_ok rv -> writes_ok es -> counts_ok cs -> fits32 next ->
  let entries := map EncodeWriteEnvelopeEntry es in
  DecodeScanResponse (EncodeScanResponse status scanned) = Ret (Some (status, scanned)) /\
  DecodeV2ErrPayload (V2ErrPayload code reason) = Ret (Some (code, reason)) /\
  DecodeV2AckBody (V2AckBody ack) = Ret (Some ack) /\
  DecodeListVersionsResponse (EncodeListVersionsResponse (map encode_version_view vs)) = Ret (Some vs) /\
  DecodeReplayFingerprintResponse (EncodeReplayFingerprintResponseV2 rv.(RVKeyCount) rv.(RVMismatchCount) rv.(RVFingerprint)
    rv.(RVMismatchKeys) rv.(RVBounded)) = Ret (Some rv) /\
  DecodeReplayFingerprintResponse (EncodeReplayFingerprintResponse rv.(RVKeyCount) rv.(RVMismatchCount) rv.(RVFingerprint)
    rv.(RVMismatchKeys)) = Ret (Some (MkReplayView rv.(RVKeyCount) rv.(RVMismatchCount) rv.(RVFingerprint) rv.(RVMismatchKeys) false)) /\
  DecodeListWritesResponseV2 (EncodeListWritesResponseV2 entries cs next) = Ret (Some (es, cs, Some next)) /\
  DecodeListWritesResponseV2 (EncodeListWritesResponse entries cs) = Ret (Some (es, cs, None)) /\
  DecodeListWritesResponse (EncodeListWritesResponseV2 entries cs next) = Ret (Some (es, cs)).
Proof.
  intros Hst Hsc Hp Hc Hre Ha Hn Hvs Hrv Hes Hcs Hnx. cbv zeta.
  destruct (replay_response_codec rv Hrv) as [Er1 Er2], (list_writes_v2_codec es cs next Hes Hcs Hnx) as [El1 El2].
  split; [by apply scan_response_codec|]. split; [by apply err_codec|]. split; [by apply ack_codec|].
  split; [by apply list_versions_codec|]. do 4 (split; [assumption|]). by apply list_writes_response_codec.
Qed.

Ltac eval_bound := first [reflexivity | cbn; unfold is_u64, is_s64, is_u32; lia | repeat constructor].
Ltac eval_bounds := repeat (split; [eval_bound|]); eval_bound.

Lemma response_payloads_roundtrip_witness :
  let e := MkWriteView (str "k") 3 10 (str "feed") 1 (str "h") (str "p") true in
  DecodeListWritesResponseV2 (EncodeListWritesResponseV2 [EncodeWriteEnvelopeEntry e] [MkSourceView (str "feed") 1] (str "c")) =
    Ret (Some ([e], [MkSourceView (str "feed") 1], Some (str "c"))).
Proof.
  intros e. assert (writes_ok [e]) as He.
  { split; [reflexivity|]. constructor; [|constructor]. eval_bounds. }
  assert (counts_ok [MkSourceView (str "feed") 1]) as Hc.
  { split; [reflexivity|]. constructor; [|constructor]. eval_bounds. }
  assert (ack_ok (MkAck 1 2 1 1 5 (str "r"))) as Ha by eval_bounds.
  assert (replay_view_ok (MkReplayView 2 1 (str "ab") [str "k"] false)) as Hr by eval_bounds.
  assert (Forall fits_pair [(str "a", str "1")]) as Hp by (constructor; [split; reflexivity|constructor]).
  assert (Forall version_view_ok [MkVersionView 1 2 (str "p")]) as Hv.
  { constructor; [|constructor]. split; [unfold is_u64; cbn; lia|]. split; [unfold is_s64; cbn; lia|reflexivity]. }
  apply (response_payloads_roundtrip (str "ok") [(str "a", str "1")] 1 (str "r") (MkAck 1 2 1 1 5 (str "r"))
    [MkVersionView 1 2 (str "p")] (MkReplayView 2 1 (str "ab") [str "k"] false) [e] [MkSourceView (str "feed") 1] (str "c"));
    [reflexivity|reflexivity|exact Hp|lia|reflexivity|exact Ha|reflexivity|exact Hv|exact Hr|exact He|exact Hc|reflexivity].
Defined.

(** The length-only walk over an encoded audit entry agrees with the
    decoder on every buffer, well-formed or not: it fails exactly when the
    decoder fails and otherwise reports the same number of consumed bytes. *)
Theorem entry_length_matches_decoder data :
  writeEnvelopeEntryLen data = (r ← DecodeWriteEnvelopeEntry data; Ret match r with Some (_, n) => Some n | None => None end).
Proof. apply entry_len_agrees. Qed.

(** A mismatching key of 65536 bytes or more breaks the replay response: its
    length is written in 16 bits. *)
Theorem replay_response_long_key :
  let k := replicate (2 ^ 16) Byte.x61 in
  match DecodeReplayFingerprintResponse (EncodeReplayFingerprintResponseV2 1 1 [] [k] false) with
  | Ret (Some v) => v.(RVMismatchKeys) = [[]] /\ v.(RVBounded) = true
  | _ => False
  end.
Proof. vm_compute. split; reflexivity. Qed.
End ProtoSpec.
