(* ===== verification/Frames.v ===== *)
(** * Frames, version negotiation and the read loop of a connection
    ([kairnet/codec], [kairnet/negotiate], [Connection.StartReader])

    Both frame formats with their decoders over a byte stream, the HELLO
    negotiation on the server and on the client, and the loop that reads a
    connection: frames of the first protocol until a HELLO probe switches the
    connection to the second. *)
From S2P Require Import Prelude Bytes.

Module Frames.

(** ** Reading from a connection

    A peer's stream is the bytes still to come and how it ends after them.  The
    sizes of the buffers the code allocates for its reads are logged: the size
    of a buffer is what a hostile header can influence. *)
Inductive ending := AtEOF | AtTimeout | AtFailure.
Record reader := MkReader { unread : bytes; ends : ending; allocs : list Z }.
Inductive read_err := EOF | ErrUnexpectedEOF | ErrTimeout | ErrRead.

#[export] Instance ending_eq_dec : EqDecision ending.
Proof. solve_decision. Defined.

(** [io.ReadFull] into a buffer of [n] bytes: the bytes, or how many were read
    before the error. *)
Inductive read_result := Full (b : bytes) | Short (n : Z) (e : read_err).
Definition short_err (e : ending) (n : Z) : read_err :=
  match e with AtEOF => if n =? 0 then EOF else ErrUnexpectedEOF | AtTimeout => ErrTimeout | AtFailure => ErrRead end.
Definition ReadFull (n : Z) (r : reader) : read_result * reader :=
  let r' rest := MkReader rest r.(ends) (r.(allocs) ++ [n]) in
  if n <=? len r.(unread) then (Full (firstn (Z.to_nat n) r.(unread)), r' (skipn (Z.to_nat n) r.(unread)))
  else (Short (len r.(unread)) (short_err r.(ends) (len r.(unread))), r' []).

(** ** First protocol: [codec.DataPack] *)
Record Message := MkMessage { ID : bytes; IDLen : Z; DataLen : Z; Data : bytes }.
Definition NewMessage (id data : bytes) : Message := MkMessage id 0 (u32 (len data)) data.

Definition HeadLen : Z := 6.

(** [None] is the error: the message identifier does not fit 16 bits. *)
Definition Pack (msg : Message) : option bytes :=
  if 65535 <? len msg.(ID) then None
  else Some (put_le 4 msg.(DataLen) ++ put_le 2 (u16 (len msg.(ID))) ++ msg.(ID) ++ msg.(Data)).

Definition UnPack (data : bytes) : go (option Message) :=
  if len data <? HeadLen then Ret None
  else
    dl ← slice data 0 4;
    il ← slice data 4 6;
    Ret (Some (MkMessage [] (get_le il) (get_le dl) [])).

Definition hardMaxPackageSize : Z := Z.shiftl 256 20.
Definition EffectiveMaxSize (configured : Z) : Z := if configured =? 0 then hardMaxPackageSize else configured.

Inductive unpack_err := HeaderTooShort | ErrNotV2Magic | ErrUnsupportedV2Version.
Inductive decode_err :=
  | ReadHeader (e : read_err) | UnpackHeader (e : unpack_err) | ErrFrameTooLarge | ReadMsgID (e : read_err) | ReadBody (e : read_err).

Definition Decode (maxSize : Z) (r : reader) : go (result decode_err Message * reader) :=
  let effMax := EffectiveMaxSize maxSize in
  let (headData, r) := ReadFull HeadLen r in
  match headData with
  | Short _ e => Ret (Err (ReadHeader e), r)
  | Full headData =>
      msg ← UnPack headData;
      match msg with
      | None => Ret (Err (UnpackHeader HeaderTooShort), r)
      | Some msg =>
          if effMax <? msg.(DataLen) then Ret (Err ErrFrameTooLarge, r)
          else
            let (idBuf, r) := if 0 <? msg.(IDLen) then ReadFull msg.(IDLen) r else (Full [], r) in
            match idBuf with
            | Short _ e => Ret (Err (ReadMsgID e), r)
            | Full idBuf =>
                let (data, r) := if 0 <? msg.(DataLen) then ReadFull msg.(DataLen) r else (Full [], r) in
                match data with
                | Short _ e => Ret (Err (ReadBody e), r)
                | Full data => Ret (Ok (MkMessage idBuf msg.(IDLen) msg.(DataLen) data), r)
                end
            end
      end
  end.

(** ** Second protocol: [codec.DataPackV2] *)
Definition MagicV2 : Z := 0xBA.
Definition VersionV2 : Z := 0x02.
Definition HeaderV2Len : Z := 14.
Definition TypeUnspecified : Z := 0.
Definition OpcodeOK : Z := 0x80.

Definition EncodeMagicVer (magic version : Z) : Z := Z.lor (u16 (Z.shiftl magic 8)) version.
Definition DecodeMagicVer (v : Z) : Z * Z := (u8 (Z.shiftr v 8), u8 v).

Inductive SniffResult := SniffV1 | SniffV2 | SniffUnsupportedVersion.
Definition SniffVersion (first2Bytes : bytes) : go SniffResult :=
  b ← slice first2Bytes 0 2;
  let (magic, version) := DecodeMagicVer (get_le b) in
  Ret (if negb (magic =? MagicV2) then SniffV1 else if negb (version =? VersionV2) then SniffUnsupportedVersion else SniffV2).

Record HeaderV2 := MkHeader { Flags : Z; Opcode : Z; Type_ : Z; CorrID : Z; HDataLen : Z }.
Record MessageV2 := MkMessageV2 { Header : HeaderV2; Payload : bytes }.
Definition NewMessageV2 (h : HeaderV2) (payload : bytes) : MessageV2 :=
  MkMessageV2 (MkHeader h.(Flags) h.(Opcode) h.(Type_) h.(CorrID) (u32 (len payload))) payload.

(** The announced length is the payload's own; [Pack] never fails. *)
Definition PackV2 (msg : MessageV2) : bytes :=
  put_le 2 (EncodeMagicVer MagicV2 VersionV2) ++ put_le 1 msg.(Header).(Flags) ++ put_le 1 msg.(Header).(Opcode) ++
  put_le 2 msg.(Header).(Type_) ++ put_le 4 msg.(Header).(CorrID) ++ put_le 4 (u32 (len msg.(Payload))) ++ msg.(Payload).

Definition UnPackV2 (head : bytes) : go (result unpack_err HeaderV2) :=
  if len head <? HeaderV2Len then Ret (Err HeaderTooShort)
  else
    mv ← slice head 0 2;
    let (magic, version) := DecodeMagicVer (get_le mv) in
    if negb (magic =? MagicV2) then Ret (Err ErrNotV2Magic)
    else if negb (version =? VersionV2) then Ret (Err ErrUnsupportedV2Version)
    else
      flags ← index head 2;
      opcode ← index head 3;
      ty ← slice head 4 6;
      corr ← slice head 6 10;
      dl ← slice head 10 14;
      Ret (Ok (MkHeader #flags #opcode (get_le ty) (get_le corr) (get_le dl))).

Definition DecodeV2 (maxSize : Z) (r : reader) : go (result decode_err MessageV2 * reader) :=
  let effMax := EffectiveMaxSize maxSize in
  let (headBuf, r) := ReadFull HeaderV2Len r in
  match headBuf with
  | Short _ e => Ret (Err (ReadHeader e), r)
  | Full headBuf =>
      h ← UnPackV2 headBuf;
      match h with
      | Err e => Ret (Err (UnpackHeader e), r)
      | Ok h =>
          if effMax <? h.(HDataLen) then Ret (Err ErrFrameTooLarge, r)
          else
            let (payload, r) := if 0 <? h.(HDataLen) then ReadFull h.(HDataLen) r else (Full [], r) in
            match payload with
            | Short _ e => Ret (Err (ReadBody e), r)
            | Full payload => Ret (Ok (MkMessageV2 h payload), r)
            end
      end
  end.

(** ** Negotiation ([kairnet/negotiate]) *)
Inductive Version := VersionUnknown | VersionIsV1 | VersionIsV2.
Inductive AckTier := AckEvery | AckWindow | AckNone.

#[export] Instance AckTier_eq_dec : EqDecision AckTier.
Proof. solve_decision. Defined.

Definition tier_byte (t : AckTier) : Z := match t with AckEvery => 0 | AckWindow => 1 | AckNone => 2 end.
(** [isValidAckTier] with the conversion [AckTier(v)]. *)
Definition isValidAckTier (v : Z) : option AckTier :=
  if v =? tier_byte AckEvery then Some AckEvery
  else if v =? tier_byte AckWindow then Some AckWindow
  else if v =? tier_byte AckNone then Some AckNone else None.

Definition MsgHello : bytes := str "HELLO".

Definition encodeHelloProbe (want : AckTier) : option bytes :=
  Pack (NewMessage MsgHello (put_le 1 VersionV2 ++ put_le 1 (tier_byte want))).

Definition BuildHelloResponseV2WithAck (ack : AckTier) : bytes :=
  PackV2 (NewMessageV2 (MkHeader 0 OpcodeOK TypeUnspecified 0 0) (put_le 1 VersionV2 ++ put_le 1 (tier_byte ack))).

(** The response frame and the tier, when the message is a probe. *)
Definition ServerHandleProbe (msg : Message) : go (option (bytes * AckTier)) :=
  if negb (beqb msg.(ID) MsgHello) then Ret None
  else
    let payload := msg.(Data) in
    requested ← (if 2 <=? len payload then b ← index payload 1; Ret (default AckEvery (isValidAckTier #b)) else Ret AckEvery);
    Ret (Some (BuildHelloResponseV2WithAck requested, requested)).

Inductive negotiate_err :=
  | ErrProbe | ErrFirstBytes (e : read_err) | ErrRestOfHeader (e : read_err) | ErrBadHeader (e : unpack_err)
  | ErrPayload (e : read_err) | ErrProtocol.

Definition finishReadV2Response (magicVer : bytes) (r : reader) : go (result negotiate_err (Version * AckTier) * reader) :=
  let (rest, r) := ReadFull (HeaderV2Len - 2) r in
  match rest with
  | Short _ e => Ret (Err (ErrRestOfHeader e), r)
  | Full rest =>
      h ← UnPackV2 (magicVer ++ rest);
      match h with
      | Err e => Ret (Err (ErrBadHeader e), r)
      | Ok h =>
          if negb (h.(Opcode) =? OpcodeOK) then Ret (Err ErrProtocol, r)
          else
            let (payload, r) := if 0 <? h.(HDataLen) then ReadFull h.(HDataLen) r else (Full [], r) in
            match payload with
            | Short _ e => Ret (Err (ErrPayload e), r)
            | Full payload =>
                if len payload <? 2 then Ret (Err ErrProtocol, r)
                else
                  serverVersion ← index payload 0;
                  if negb (#serverVersion =? VersionV2) then Ret (Err ErrProtocol, r)
                  else
                    b ← index payload 1;
                    match isValidAckTier #b with
                    | None => Ret (Err ErrProtocol, r)
                    | Some ack => Ret (Ok (VersionIsV2, ack), r)
                    end
            end
      end
  end.

(** What the client concludes from the server's stream after writing the probe. *)
Definition ClientNegotiateWithAck (r : reader) : go (result negotiate_err (Version * AckTier) * reader) :=
  let (magicVer, r) := ReadFull 2 r in
  match magicVer with
  | Short n e =>
      Ret (if (n =? 0) && (match e with ErrTimeout => true | _ => false end) then Ok (VersionIsV1, AckEvery) else Err (ErrFirstBytes e), r)
  | Full magicVer =>
      s ← SniffVersion magicVer;
      match s with
      | SniffV2 => finishReadV2Response magicVer r
      | SniffUnsupportedVersion | SniffV1 => Ret (Err ErrProtocol, r)
      end
  end.

(** ** The read loop ([Connection.StartReader])

    What the loop does with the stream, in order: frames handed to [OnFrame] and
    [OnFrameV2], and probes answered (the response is queued and the tier is
    stored as a property of the connection). *)
Inductive action :=
  | OnFrame (msg : Message) | OnFrameV2 (msg : MessageV2) | Negotiated (respond : bytes) (ack : AckTier).

Inductive Event := EventEOF | EventReadTimeout | EventReadError.

(** Whether the wrapped error is [io.EOF] or a timeout ([errors.Is], [errors.As]). *)
Definition wrapped (e : decode_err) : option read_err :=
  match e with ReadHeader e | ReadMsgID e | ReadBody e => Some e | UnpackHeader _ | ErrFrameTooLarge => None end.
Definition handleDecodeError (e : decode_err) : Event :=
  match e with
  | ErrFrameTooLarge => EventReadError
  | e => match wrapped e with Some EOF => EventEOF | Some ErrTimeout => EventReadTimeout | _ => EventReadError end
  end.

(** How the loop stands: still reading, left because the stream ended or broke,
    left because the response could not be queued, left because the connection
    drains. *)
Inductive loop_end := Reading | ReadEnded (e : Event) | SendFailed | Drained.

(** The environment of one iteration: whether a response can be queued (it
    cannot once the connection is closed), and whether the connection drains
    when the iteration ends. *)
Record turn := MkTurn { sendable : bool; draining : bool }.

(** One iteration: the action, then either why the loop is left or the protocol
    and the stream of the next iteration. *)
Definition iteration (maxPackageSize : Z) (t : turn) (usingV2 : bool) (r : reader)
    : go (list action * (loop_end + bool * reader)) :=
  let next a (v2 : bool) r := (a, if t.(draining) then inl Drained else inr (v2, r)) in
  if usingV2 then
    d ← DecodeV2 maxPackageSize r;
    match d with
    | (Err e, _) => Ret ([], inl (ReadEnded (handleDecodeError e)))
    | (Ok msg, r) => Ret (next [OnFrameV2 msg] true r)
    end
  else
    d ← Decode maxPackageSize r;
    match d with
    | (Err e, _) => Ret ([], inl (ReadEnded (handleDecodeError e)))
    | (Ok msg, r) =>
        n ← ServerHandleProbe msg;
        match n with
        | None => Ret (next [OnFrame msg] false r)
        | Some (respond, ack) =>
            if t.(sendable) then Ret (next [Negotiated respond ack] true r) else Ret ([], inl SendFailed)
        end
    end.

Fixpoint StartReader (maxPackageSize : Z) (env : list turn) (usingV2 : bool) (r : reader) : go (list action * loop_end) :=
  match env with
  | [] => Ret ([], Reading)
  | t :: env =>
      i ← iteration maxPackageSize t usingV2 r;
      match i with
      | (acts, inl e) => Ret (acts, e)
      | (acts, inr (v2, r)) => rest ← StartReader maxPackageSize env v2 r; Ret (acts ++ rest.1, rest.2)
      end
  end.
End Frames.
