(* ===== verification/FrameSpec.v ===== *)
(** * Properties of frames, negotiation and the read loop

    A stream of packed frames is read back frame by frame in order, across the
    switch of protocols; client and server agree on what was negotiated; and no
    stream makes a decoder panic or allocate beyond the frame limit. *)
From S2P Require Import Prelude Bytes Temporal Proto ProtoSpec Frames.
Import Frames ProtoSpec.

Module FrameSpec.

Lemma ReadFull_app b rest e al n : n = len b ->
  ReadFull n (MkReader (b ++ rest) e al) = (Full b, MkReader rest e (al ++ [n])).
Proof.
  intros ->. unfold ReadFull. cbn [unread ends allocs]. rewrite len_app. pose proof (len_nonneg rest).
  replace (len b <=? len b + len rest) with true by lia. rewrite to_nat_len.
  by rewrite take_app_length, drop_app_length.
Qed.

(** A read that is skipped because its length is zero reads nothing. *)
Lemma read_opt_app b rest e al : exists al',
  (if 0 <? len b then ReadFull (len b) (MkReader (b ++ rest) e al) else (Full [], MkReader (b ++ rest) e al)) =
    (Full b, MkReader rest e al').
Proof.
  destruct (Z.ltb_spec 0 (len b)) as [H|H].
  - exists (al ++ [len b]). by apply ReadFull_app.
  - destruct b; [|rewrite len_cons in H; pose proof (len_nonneg b0); lia]. by exists al.
Qed.

(** ** First protocol *)
Definition frame (m : bytes * bytes) : bytes := default [] (Pack (NewMessage m.1 m.2)).
Definition received (m : bytes * bytes) : Message := MkMessage m.1 (len m.1) (len m.2) m.2.
Definition v1_ok (maxSize : Z) (m : bytes * bytes) : Prop :=
  len m.1 < 2 ^ 16 /\ len m.2 < 2 ^ 32 /\ len m.2 <= EffectiveMaxSize maxSize.

Lemma pack_is m : len m.1 < 2 ^ 16 -> len m.2 < 2 ^ 32 ->
  frame m = put_le 4 (len m.2) ++ put_le 2 (u16 (len m.1)) ++ m.1 ++ m.2.
Proof.
  intros H1 H2. unfold frame, Pack. cbn [NewMessage ID DataLen Data]. replace (65535 <? len m.1) with false by lia.
  cbn [default]. by rewrite u32_small by (split; [apply len_nonneg|done]).
Qed.

Lemma unpack_header d i : is_u32 d -> 0 <= i < 2 ^ 16 -> UnPack (put_le 4 d ++ put_le 2 (u16 i)) = Ret (Some (MkMessage [] i d [])).
Proof.
  intros Hd Hi. unfold UnPack, HeadLen. len_test. go_slices. by rewrite get_put_u16, get_put_u32 by done.
Qed.

Lemma decode_frame maxSize m rest e al : v1_ok maxSize m -> exists al',
  Decode maxSize (MkReader (frame m ++ rest) e al) = Ret (Ok (received m), MkReader rest e al').
Proof.
  intros (H1 & H2 & H3). rewrite pack_is by done. unfold Decode. cbv zeta. pose proof (len_nonneg m.1). pose proof (len_nonneg m.2).
  replace ((put_le 4 (len m.2) ++ put_le 2 (u16 (len m.1)) ++ m.1 ++ m.2) ++ rest)
    with ((put_le 4 (len m.2) ++ put_le 2 (u16 (len m.1))) ++ m.1 ++ m.2 ++ rest) by (by rewrite <- !app_assoc).
  rewrite ReadFull_app by done. rewrite unpack_header by done. cbn [mbind go_bind IDLen DataLen].
  replace (EffectiveMaxSize maxSize <? len m.2) with false by lia.
  destruct (read_opt_app m.1 (m.2 ++ rest) e (al ++ [HeadLen])) as (a1 & ->). destruct (read_opt_app m.2 rest e a1) as (a2 & ->).
  by exists a2.
Qed.

(** ** Second protocol *)
Definition v2_ok (maxSize : Z) (m : MessageV2) : Prop :=
  0 <= m.(Header).(Flags) < 2 ^ 8 /\ 0 <= m.(Header).(Opcode) < 2 ^ 8 /\ 0 <= m.(Header).(Type_) < 2 ^ 16 /\
  is_u32 m.(Header).(CorrID) /\ m.(Header).(HDataLen) = len m.(Payload) /\ len m.(Payload) < 2 ^ 32 /\
  len m.(Payload) <= EffectiveMaxSize maxSize.

Definition header_bytes (h : HeaderV2) : bytes :=
  put_le 2 (EncodeMagicVer MagicV2 VersionV2) ++ put_le 1 h.(Flags) ++ put_le 1 h.(Opcode) ++
  put_le 2 h.(Type_) ++ put_le 4 h.(CorrID) ++ put_le 4 h.(HDataLen).

Lemma get_put_u16' z : 0 <= z < 2 ^ 16 -> get_le (put_le 2 z) = z.
Proof. intros H. rewrite get_put_le. by rewrite Z.mod_small. Qed.

Lemma unpack_header_v2 h :
  0 <= h.(Flags) < 2 ^ 8 -> 0 <= h.(Opcode) < 2 ^ 8 -> 0 <= h.(Type_) < 2 ^ 16 -> is_u32 h.(CorrID) -> is_u32 h.(HDataLen) ->
  UnPackV2 (header_bytes h) = Ret (Ok h).
Proof.
  intros H1 H2 H3 H4 H5. unfold UnPackV2, header_bytes, HeaderV2Len. len_test. go_slice. cbv [DecodeMagicVer].
  change (u8 (Z.shiftr (get_le (put_le 2 (EncodeMagicVer MagicV2 VersionV2))) 8)) with MagicV2.
  change (u8 (get_le (put_le 2 (EncodeMagicVer MagicV2 VersionV2)))) with VersionV2. rewrite !Z.eqb_refl. cbn [negb].
  rewrite !put_byte. do 2 go_index. go_slices. rewrite !unsigned_byte, get_put_u16', !get_put_u32 by done. by destruct h.
Qed.

Lemma len_header_v2 h : len (header_bytes h) = HeaderV2Len.
Proof. done. Qed.

Lemma packv2_is maxSize m : v2_ok maxSize m -> PackV2 m = header_bytes m.(Header) ++ m.(Payload).
Proof.
  intros (_ & _ & _ & _ & E & H & _). unfold PackV2, header_bytes. rewrite u32_small by (split; [apply len_nonneg|done]).
  by rewrite E, <- !app_assoc.
Qed.

Lemma decode_frame_v2 maxSize m rest e al : v2_ok maxSize m -> exists al',
  DecodeV2 maxSize (MkReader (PackV2 m ++ rest) e al) = Ret (Ok m, MkReader rest e al').
Proof.
  intros Hok. rewrite (packv2_is maxSize) by done. destruct Hok as (H1 & H2 & H3 & H4 & E & H5 & H6).
  unfold DecodeV2. cbv zeta. pose proof (len_nonneg m.(Payload)).
  rewrite <- app_assoc, ReadFull_app by done. rewrite unpack_header_v2 by (done || by rewrite E). cbn [mbind go_bind]. rewrite E.
  replace (EffectiveMaxSize maxSize <? len m.(Payload)) with false by lia.
  destruct (read_opt_app m.(Payload) rest e (al ++ [HeaderV2Len])) as (a1 & ->). exists a1. by destruct m.
Qed.

(** ** The read loop *)
Definition alive (n : nat) : list turn := replicate n (MkTurn true false).
Definition prefixed (acts : list action) (m : go (list action * loop_end)) : go (list action * loop_end) :=
  r ← m; Ret (acts ++ r.1, r.2).

Lemma prefixed_prefixed a b m : prefixed a (prefixed b m) = prefixed (a ++ b) m.
Proof. destruct m as [[]|]; unfold prefixed; cbn; [by rewrite app_assoc|done]. Qed.
Lemma prefixed_nil m : prefixed [] m = m.
Proof. by destruct m as [[]|]. Qed.

Lemma loop_step maxSize n v2 r acts v2' r' :
  iteration maxSize (MkTurn true false) v2 r = Ret (acts, inr (v2', r')) ->
  StartReader maxSize (alive (S n)) v2 r = prefixed acts (StartReader maxSize (alive n) v2' r').
Proof. intros H. cbn [alive replicate StartReader]. by rewrite H. Qed.

Lemma loop_v1 maxSize ms n rest e al :
  Forall (v1_ok maxSize) ms -> Forall (fun m => m.1 <> MsgHello) ms -> exists al',
  StartReader maxSize (alive (length ms + n)) false (MkReader (concat (map frame ms) ++ rest) e al) =
    prefixed (map (OnFrame ∘ received) ms) (StartReader maxSize (alive n) false (MkReader rest e al')).
Proof.
  revert al. induction ms as [|m ms IH]; intros al Hok Hid; cbn [map concat length app Nat.add].
  - exists al. by rewrite prefixed_nil.
  - apply Forall_cons in Hok as [Hm Hok], Hid as [Hi Hid]. rewrite <- app_assoc.
    destruct (decode_frame maxSize m (concat (map frame ms) ++ rest) e al Hm) as (a1 & E). destruct (IH a1 Hok Hid) as (a2 & E2).
    exists a2. erewrite loop_step.
    2:{ unfold iteration. rewrite E. cbn [mbind go_bind]. unfold ServerHandleProbe. cbn [received ID].
        replace (beqb m.1 MsgHello) with false by (symmetry; by apply beqb_neq). reflexivity. }
    by rewrite E2, prefixed_prefixed.
Qed.

Lemma loop_v2 maxSize ms n rest e al : Forall (v2_ok maxSize) ms -> exists al',
  StartReader maxSize (alive (length ms + n)) true (MkReader (concat (map PackV2 ms) ++ rest) e al) =
    prefixed (map OnFrameV2 ms) (StartReader maxSize (alive n) true (MkReader rest e al')).
Proof.
  revert al. induction ms as [|m ms IH]; intros al Hok; cbn [map concat length app Nat.add].
  - exists al. by rewrite prefixed_nil.
  - apply Forall_cons in Hok as [Hm Hok]. rewrite <- app_assoc.
    destruct (decode_frame_v2 maxSize m (concat (map PackV2 ms) ++ rest) e al Hm) as (a1 & E). destruct (IH a1 Hok) as (a2 & E2).
    exists a2. erewrite loop_step by (unfold iteration; rewrite E; reflexivity). by rewrite E2, prefixed_prefixed.
Qed.

(** ** Negotiation *)
Definition hello (want : AckTier) : bytes * bytes := (MsgHello, put_le 1 VersionV2 ++ put_le 1 (tier_byte want)).

Lemma probe_is_frame want : encodeHelloProbe want = Some (frame (hello want)).
Proof. by destruct want. Qed.

Lemma server_probe want : ServerHandleProbe (received (hello want)) = Ret (Some (BuildHelloResponseV2WithAck want, want)).
Proof. by destruct want. Qed.

Lemma loop_probe maxSize n want rest e al : 2 <= EffectiveMaxSize maxSize -> exists al',
  StartReader maxSize (alive (S n)) false (MkReader (frame (hello want) ++ rest) e al) =
    prefixed [Negotiated (BuildHelloResponseV2WithAck want) want] (StartReader maxSize (alive n) true (MkReader rest e al')).
Proof.
  intros Hm. assert (v1_ok maxSize (hello want)) as Hok.
  { split; [done|]. split; [done|]. change (len (hello want).2) with 2. lia. }
  destruct (decode_frame maxSize (hello want) rest e al Hok) as (a1 & E).
  exists a1. erewrite loop_step; [reflexivity|]. unfold iteration. rewrite E. cbn [mbind go_bind]. by rewrite server_probe.
Qed.

Lemma client_reads_response want rest e al : exists al',
  ClientNegotiateWithAck (MkReader (BuildHelloResponseV2WithAck want ++ rest) e al) = Ret (Ok (VersionIsV2, want), MkReader rest e al').
Proof.
  set (b := BuildHelloResponseV2WithAck want).
  assert (exists x y p1 p2 h, b = (x ++ y) ++ [p1; p2] /\ len x = 2 /\ len y = 12 /\ SniffVersion x = Ret SniffV2 /\
    UnPackV2 (x ++ y) = Ret (Ok h) /\ h.(Opcode) = OpcodeOK /\ h.(HDataLen) = 2 /\ #p1 = VersionV2 /\ isValidAckTier #p2 = Some want)
    as (x & y & p1 & p2 & h & -> & Hx & Hy & Es & Eu & Eo & El & E1 & E2).
  { exists (firstn 2 b), (firstn 12 (skipn 2 b)), Byte.x02, (byte.of_Z (tier_byte want)), (MkHeader 0 OpcodeOK 0 0 2).
    destruct want; repeat (split; [reflexivity|]); reflexivity. }
  unfold ClientNegotiateWithAck. rewrite <- !app_assoc, ReadFull_app by done. rewrite Es. cbn [mbind go_bind].
  unfold finishReadV2Response. rewrite ReadFull_app by done. rewrite Eu. cbn [mbind go_bind]. rewrite Eo, El.
  change (negb (OpcodeOK =? OpcodeOK)) with false. change (0 <? 2) with true. cbv iota. rewrite ReadFull_app by done.
  change (len [p1; p2] <? 2) with false. cbv iota. change (index [p1; p2] 0) with (Ret p1). change (index [p1; p2] 1) with (Ret p2).
  cbn [mbind go_bind]. rewrite E1, E2. eexists. reflexivity.
Qed.

(** ** Any stream *)
Definition within (lim : Z) (r r' : reader) : Prop :=
  r'.(ends) = r.(ends) /\ exists new, r'.(allocs) = r.(allocs) ++ new /\ Forall (fun n => 0 <= n <= lim) new.

Lemma within_refl lim r : within lim r r.
Proof. split; [done|]. exists []. by rewrite app_nil_r. Qed.
Lemma within_trans lim r1 r2 r3 : within lim r1 r2 -> within lim r2 r3 -> within lim r1 r3.
Proof.
  intros (E1 & n1 & A1 & F1) (E2 & n2 & A2 & F2). split; [congruence|]. exists (n1 ++ n2).
  rewrite A2, A1, app_assoc. split; [done|by apply Forall_app].
Qed.

Definition read_spec (n : Z) (r : reader) (res : read_result) (r' : reader) : Prop :=
  match res with
  | Full b => r.(unread) = b ++ r'.(unread) /\ len b = n
  | Short k e => k = len r.(unread) /\ e = short_err r.(ends) k
  end.

Lemma read_full_any lim n r : 0 <= n <= lim -> exists res r',
  ReadFull n r = (res, r') /\ within lim r r' /\ read_spec n r res r'.
Proof.
  intros Hn. unfold ReadFull. destruct (Z.leb_spec n (len r.(unread))) as [H|H]; eexists _, _; (split; [reflexivity|]).
  - split; [split; [done|exists [n]; split; [done|by constructor]]|]. cbn. split; [by rewrite take_drop|].
    unfold len in *. rewrite length_take. lia.
  - split; [split; [done|exists [n]; split; [done|by constructor]]|]. done.
Qed.

Lemma read_opt_any lim n r : 0 <= n <= lim -> exists res r',
  (if 0 <? n then ReadFull n r else (Full [], r)) = (res, r') /\ within lim r r' /\ read_spec n r res r'.
Proof.
  intros Hn. destruct (Z.ltb_spec 0 n) as [H|H]; [by apply read_full_any|].
  exists (Full []), r. split; [done|]. split; [apply within_refl|]. split; [done|]. rewrite len_nil. lia.
Qed.

Lemma len_length {A} (l : list A) n : len l = Z.of_nat n -> length l = n.
Proof. unfold len. lia. Qed.

Lemma unpack_any h : len h = 6 -> exists i d, UnPack h = Ret (Some (MkMessage [] i d [])) /\
  0 <= i < 2 ^ 16 /\ is_u32 d /\ h = put_le 4 d ++ put_le 2 (u16 i).
Proof.
  intros H. change 6 with (Z.of_nat 6) in H. apply len_length in H. do 6 (destruct h as [|? h]; [discriminate H|]). destruct h; [|discriminate H].
  eexists _, _. split; [reflexivity|].
  match goal with |- 0 <= get_le ?b < _ /\ is_u32 (get_le ?a) /\ _ =>
    pose proof (get_le_bound b) as Hb; pose proof (get_le_bound a) as Ha; split; [exact Hb|]; split; [exact Ha|];
    unfold u16; rewrite Z.mod_small by exact Hb; change 4%nat with (length a); change 2%nat with (length b); by rewrite !put_get_le
  end.
Qed.

Lemma magic_bytes v : 0 <= v < 2 ^ 16 -> u8 (Z.shiftr v 8) = MagicV2 -> u8 v = VersionV2 -> v = EncodeMagicVer MagicV2 VersionV2.
Proof.
  intros Hv. rewrite Z.shiftr_div_pow2 by done. unfold u8, MagicV2, VersionV2. change (EncodeMagicVer 186 2) with 47618.
  intros H1 H2. Z.to_euclidean_division_equations. lia.
Qed.

Lemma put_unsigned b : put_le 1 #b = [b].
Proof. rewrite put_byte. by rewrite byte.of_Z_unsigned. Qed.

Definition header_ok (h : HeaderV2) : Prop :=
  0 <= h.(Flags) < 2 ^ 8 /\ 0 <= h.(Opcode) < 2 ^ 8 /\ 0 <= h.(Type_) < 2 ^ 16 /\ is_u32 h.(CorrID) /\ is_u32 h.(HDataLen).

Lemma unpack_v2_any b : len b = HeaderV2Len -> exists res, UnPackV2 b = Ret res /\
  match res with Ok h => header_ok h /\ b = header_bytes h | Err _ => True end.
Proof.
  intros H. change HeaderV2Len with (Z.of_nat 14) in H. apply len_length in H.
  do 14 (destruct b as [|? b]; [discriminate H|]). destruct b; [|discriminate H].
  unfold UnPackV2. match goal with |- context [len ?l <? _] => change (len l <? HeaderV2Len) with false end. cbv iota.
  match goal with |- context [slice (?a :: ?b :: ?l) 0 2] => change (slice (a :: b :: l) 0 2) with (Ret [a; b]); set (mv := [a; b]) end.
  cbn [mbind go_bind]. cbv [DecodeMagicVer].
  destruct (Z.eqb_spec (u8 (Z.shiftr (get_le mv) 8)) MagicV2) as [E1|]; cbn [negb]; [|by eexists].
  destruct (Z.eqb_spec (u8 (get_le mv)) VersionV2) as [E2|]; cbn [negb]; [|by eexists].
  eexists. split; [reflexivity|]. cbv beta iota. pose proof (magic_bytes _ (get_le_bound mv) E1 E2) as E.
  split; [split; [apply byte.unsigned_range|]; split; [apply byte.unsigned_range|]; split; [apply get_le_bound|]; split; apply get_le_bound|].
  unfold header_bytes. cbn [Flags Opcode Type_ CorrID HDataLen]. rewrite <- E, !put_unsigned.
  change 2%nat with (length mv) at 1. rewrite put_get_le.
  repeat match goal with |- context [put_le ?n (get_le ?l)] => change n with (length l); rewrite (put_get_le l) end. reflexivity.
Qed.

(** What a decoder may do with any stream: read within the limit, and accept
    only a whole frame, which it removes from the stream. *)
Lemma decode_any maxSize r : exists res r', Decode maxSize r = Ret (res, r') /\
  within (Z.max 65535 (EffectiveMaxSize maxSize)) r r' /\
  match res with
  | Ok m => r.(unread) = frame (m.(ID), m.(Data)) ++ r'.(unread) /\ v1_ok maxSize (m.(ID), m.(Data)) /\ m = received (m.(ID), m.(Data))
  | Err _ => True
  end.
Proof.
  unfold Decode. cbv zeta. set (lim := Z.max _ _).
  destruct (read_full_any lim HeadLen r) as (h & r1 & -> & W1 & S1); [unfold HeadLen; lia|].
  destruct h as [h|]; [|by eexists _, _]. destruct S1 as [E1 L1].
  destruct (unpack_any h L1) as (i & d & -> & Hi & Hd & Eh). cbn [mbind go_bind IDLen DataLen].
  destruct (Z.ltb_spec (EffectiveMaxSize maxSize) d) as [|Hmax]; [by eexists _, _|]. unfold is_u32 in Hd.
  destruct (read_opt_any lim i r1) as (b & r2 & -> & W2 & S2); [lia|]. pose proof (within_trans _ _ _ _ W1 W2) as W12.
  destruct b as [b|]; [|by eexists _, _]. destruct S2 as [E2 L2].
  destruct (read_opt_any lim d r2) as (c & r3 & -> & W3 & S3); [lia|]. pose proof (within_trans _ _ _ _ W12 W3).
  destruct c as [c|]; [|by eexists _, _]. destruct S3 as [E3 L3]. eexists _, _. split; [reflexivity|]. split; [done|].
  cbn [ID Data IDLen DataLen]. assert (v1_ok maxSize (b, c)) as Hok by (unfold v1_ok; cbn; lia).
  split; [|split; [done|unfold received; cbn; by rewrite L2, L3]].
  rewrite pack_is by apply Hok. cbn [fst snd]. rewrite E1, E2, E3, Eh, L2, L3, <- !app_assoc. done.
Qed.

Lemma decode_v2_any maxSize r : exists res r', DecodeV2 maxSize r = Ret (res, r') /\
  within (Z.max 65535 (EffectiveMaxSize maxSize)) r r' /\
  match res with Ok m => r.(unread) = PackV2 m ++ r'.(unread) /\ v2_ok maxSize m | Err _ => True end.
Proof.
  unfold DecodeV2. cbv zeta. set (lim := Z.max _ _).
  destruct (read_full_any lim HeaderV2Len r) as (h & r1 & -> & W1 & S1); [unfold HeaderV2Len; lia|].
  destruct h as [h|]; [|by eexists _, _]. destruct S1 as [E1 L1].
  destruct (unpack_v2_any h L1) as (u & -> & Hu). cbn [mbind go_bind]. destruct u as [hd|]; [|by eexists _, _].
  destruct Hu as [(H1 & H2 & H3 & H4 & H5) Eh].
  destruct (Z.ltb_spec (EffectiveMaxSize maxSize) hd.(HDataLen)) as [|Hmax]; [by eexists _, _|]. unfold is_u32 in H5.
  destruct (read_opt_any lim hd.(HDataLen) r1) as (c & r2 & -> & W2 & S2); [lia|]. pose proof (within_trans _ _ _ _ W1 W2).
  destruct c as [c|]; [|by eexists _, _]. destruct S2 as [E2 L2]. eexists _, _. split; [reflexivity|]. split; [done|].
  assert (v2_ok maxSize (MkMessageV2 hd c)) as Hok.
  { split; [done|]. split; [done|]. split; [done|]. split; [done|]. cbn. split; [done|]. lia. }
  split; [|done]. rewrite (packv2_is maxSize) by done. cbn [Header Payload]. by rewrite E1, E2, Eh, <- app_assoc.
Qed.

Lemma probe_safe msg : safe (ServerHandleProbe msg).
Proof.
  unfold ServerHandleProbe. destruct (negb _); [apply safe_ret|]. cbv zeta.
  destruct (Z.leb_spec 2 (len msg.(Data))) as [H|H]; [|apply safe_ret].
  unfold index. destruct msg.(Data) as [|a [|b l]]; [exfalso; revert H; by vm_compute|exfalso; revert H; by vm_compute|].
  rewrite !len_cons. pose proof (len_nonneg l). replace ((0 <=? 1) && (1 <? 1 + (1 + len l))) with true by lia. apply safe_ret.
Qed.

(** An iteration takes a whole frame off the stream or leaves the loop. *)
Lemma iteration_progress maxSize t v2 r : exists acts x, iteration maxSize t v2 r = Ret (acts, x) /\
  match x with inl e => e <> Reading | inr (_, r') => (length r'.(unread) < length r.(unread))%nat end.
Proof.
  assert (forall a (v : bool) r', (length r'.(unread) < length r.(unread))%nat -> exists acts x,
    Ret (a, if t.(draining) then inl Drained else inr (v, r')) = Ret (A := list action * (loop_end + bool * reader)) (acts, x) /\
    match x with inl e => e <> Reading | inr (_, r') => (length r'.(unread) < length r.(unread))%nat end) as Hnext.
  { intros a v r' Hr. eexists _, _. split; [done|]. by destruct t.(draining). }
  unfold iteration. destruct v2.
  - destruct (decode_v2_any maxSize r) as ([m|] & r' & -> & _ & H); cbn [mbind go_bind]; [|by eexists _, _].
    apply Hnext. destruct H as [-> Hok]. rewrite (packv2_is maxSize) by done. unfold header_bytes. rewrite !length_app, !length_put_le. lia.
  - destruct (decode_any maxSize r) as ([m|] & r' & -> & _ & H); cbn [mbind go_bind]; [|by eexists _, _].
    assert (length r'.(unread) < length r.(unread))%nat as Hr.
    { destruct H as (-> & Hok & _). rewrite pack_is by apply Hok. rewrite !length_app, !length_put_le. lia. }
    destruct (probe_safe m) as ([[respond ack]|] & ->); cbn [mbind go_bind]; [destruct t.(sendable)|]; [by apply Hnext|by eexists _, _|by apply Hnext].
Qed.

(** The loop ends: a stream of [n] bytes is left after at most [n + 1] turns. *)
Lemma loop_left maxSize env v2 r : exists acts e, StartReader maxSize env v2 r = Ret (acts, e) /\
  ((length r.(unread) < length env)%nat -> e <> Reading).
Proof.
  revert v2 r. induction env as [|t env IH]; intros v2 r; cbn [StartReader]; [eexists _, _; split; [done|cbn; lia]|].
  destruct (iteration_progress maxSize t v2 r) as (acts & [e|[v2' r']] & -> & Hx); cbn [mbind go_bind]; [by eexists _, _|].
  destruct (IH v2' r') as (acts' & e & -> & He). cbn [mbind go_bind]. eexists _, _. split; [done|]. cbn [length snd]. intros H. apply He. lia.
Qed.

Lemma tier_valid v t : isValidAckTier v = Some t -> v = tier_byte t.
Proof. unfold isValidAckTier. repeat case_match; intros [= <-]; by apply Z.eqb_eq. Qed.

Lemma index_0 {A} (a : A) l : index (a :: l) 0 = Ret a.
Proof. apply index_one. done. Qed.
Lemma index_1 {A} (a b : A) l : index (a :: b :: l) 1 = Ret b.
Proof. change (a :: b :: l) with ([a] ++ [b] ++ l). rewrite index_skip by done. by apply index_one. Qed.

Definition v2_response (stream rest : bytes) (t : AckTier) : Prop := exists h version pref more,
  stream = header_bytes h ++ ([version; pref] ++ more) ++ rest /\
  h.(Opcode) = OpcodeOK /\ #version = VersionV2 /\ #pref = tier_byte t.

Lemma finish_any mv r : len mv = 2 -> exists res r', finishReadV2Response mv r = Ret (res, r') /\
  match res with Ok (v, t) => v = VersionIsV2 /\ v2_response (mv ++ r.(unread)) r'.(unread) t | Err _ => True end.
Proof.
  intros Hmv. unfold finishReadV2Response.
  destruct (read_full_any 12 (HeaderV2Len - 2) r) as (h & r1 & -> & _ & S1); [done|].
  destruct h as [h|]; [|by eexists _, _]. destruct S1 as [E1 L1].
  destruct (unpack_v2_any (mv ++ h)) as (u & -> & Hu); [by rewrite len_app, Hmv, L1|]. cbn [mbind go_bind].
  destruct u as [hd|]; [|by eexists _, _]. destruct Hu as [(_ & _ & _ & _ & Hd) Eh].
  destruct (Z.eqb_spec hd.(Opcode) OpcodeOK) as [Eo|]; cbn [negb]; [|by eexists _, _]. unfold is_u32 in Hd.
  destruct (read_opt_any hd.(HDataLen) hd.(HDataLen) r1) as (c & r2 & -> & _ & S2); [lia|].
  destruct c as [c|]; [|by eexists _, _]. destruct S2 as [E2 L2].
  destruct (Z.ltb_spec (len c) 2) as [|Hc]; [by eexists _, _|].
  destruct c as [|x [|y c]]; [exfalso; revert Hc; by vm_compute|exfalso; revert Hc; by vm_compute|].
  rewrite index_0, index_1. cbn [mbind go_bind]. destruct (Z.eqb_spec #x VersionV2) as [Ev|]; cbn [negb]; [|by eexists _, _].
  destruct (isValidAckTier #y) as [t|] eqn:Et; [|by eexists _, _]. eexists _, _. split; [reflexivity|]. split; [done|].
  exists hd, x, y, c. rewrite E1, E2, app_assoc, Eh. split; [done|]. split; [done|]. split; [done|by apply tier_valid].
Qed.

Lemma client_any r : exists res r', ClientNegotiateWithAck r = Ret (res, r') /\
  ((exists t, res = Ok (VersionIsV1, t)) <-> r.(unread) = [] /\ r.(ends) = AtTimeout) /\
  forall t, res = Ok (VersionIsV2, t) -> v2_response r.(unread) r'.(unread) t.
Proof.
  unfold ClientNegotiateWithAck. destruct (read_full_any 2 2 r) as (m & r1 & -> & _ & S1); [done|].
  destruct m as [mv|k e].
  - destruct S1 as [E1 L1]. assert (r.(unread) <> []) as Hne by (rewrite E1; by destruct mv).
    destruct mv as [|x [|y [|]]]; try (exfalso; revert L1; by vm_compute).
    2:{ exfalso. rewrite !len_cons in L1. pose proof (len_nonneg l). lia. }
    assert (exists s, SniffVersion [x; y] = Ret s) as (s & ->) by (eexists; reflexivity). cbn [mbind go_bind].
    destruct s; [by eexists _, _; split; [reflexivity|]; split; [split; [intros [? [=]]|by intros [? ?]]|]| |
                 by eexists _, _; split; [reflexivity|]; split; [split; [intros [? [=]]|by intros [? ?]]|]].
    destruct (finish_any [x; y] r1 L1) as (res & r' & -> & H). exists res, r'. split; [done|]. rewrite E1 in *. split.
    + split; [|by intros [? ?]]. intros [t ->]. destruct H as [H _]. discriminate H.
    + intros t ->. apply H.
  - destruct S1 as [-> ->]. eexists _, _. split; [reflexivity|].
    destruct r.(unread) as [|b l] eqn:Eu, r.(ends) eqn:Ee; cbn [short_err].
    all: split; [|intros t; repeat case_match; discriminate].
    all: split; [intros [t Ht]|intros [H1 H2]]; try discriminate; try (by split); try by eexists.
Qed.

Definition end_event (e : ending) : Event :=
  match e with AtEOF => EventEOF | AtTimeout => EventReadTimeout | AtFailure => EventReadError end.

Lemma loop_ends maxSize n v2 e al : StartReader maxSize (alive (S n)) v2 (MkReader [] e al) = Ret ([], ReadEnded (end_event e)).
Proof. by destruct v2, e. Qed.

(** ** Theorems *)

(** C17: The read loop of a connection hands over exactly what the peer packed.
    Frames of the first protocol, a HELLO probe and frames of the second
    protocol are seen once each, in order and unchanged; the probe is answered
    with the tier it asks for and is not dispatched; everything behind it is
    read as the second protocol; and the loop ends with the event of how the
    stream ended.  Frames must respect the length fields and the configured
    limit, which must leave room for the probe. *)
Theorem connection_stream_roundtrip maxSize v1 want v2 e n :
  Forall (v1_ok maxSize) v1 -> Forall (fun m => m.1 <> MsgHello) v1 -> Forall (v2_ok maxSize) v2 -> 2 <= EffectiveMaxSize maxSize ->
  StartReader maxSize (alive (length v1 + S (length v2 + S n))) false
    (MkReader (concat (map frame v1) ++ default [] (encodeHelloProbe want) ++ concat (map PackV2 v2)) e []) =
  Ret (map (OnFrame ∘ received) v1 ++ [Negotiated (BuildHelloResponseV2WithAck want) want] ++ map OnFrameV2 v2, ReadEnded (end_event e)).
Proof.
  intros H1 Hid H2 Hm. rewrite probe_is_frame. change (default [] (Some (frame (hello want)))) with (frame (hello want)).
  destruct (loop_v1 maxSize v1 (S (length v2 + S n)) (frame (hello want) ++ concat (map PackV2 v2)) e [] H1 Hid) as (a1 & ->).
  destruct (loop_probe maxSize (length v2 + S n) want (concat (map PackV2 v2)) e a1 Hm) as (a2 & ->).
  destruct (loop_v2 maxSize v2 (S n) [] e a2 H2) as (a3 & E). rewrite app_nil_r in E. rewrite E.
  rewrite !prefixed_prefixed, loop_ends. unfold prefixed. cbn [mbind go_bind fst snd]. rewrite app_nil_r, <- app_assoc. reflexivity.
Qed.

Lemma connection_stream_roundtrip_witness :
  let m2 := MkMessageV2 (MkHeader 0 1 0 7 3) (str "abc") in
  StartReader 4096 (alive 4) false (MkReader (frame (str "PUT", str "x") ++ default [] (encodeHelloProbe AckWindow) ++ PackV2 m2) AtEOF []) =
  Ret ([OnFrame (received (str "PUT", str "x")); Negotiated (BuildHelloResponseV2WithAck AckWindow) AckWindow; OnFrameV2 m2],
    ReadEnded EventEOF).
Proof.
  intros m2. assert (v1_ok 4096 (str "PUT", str "x")) as H1 by (repeat (split; [reflexivity|]); by vm_compute).
  assert (v2_ok 4096 m2) as H2 by (repeat (split; [first [reflexivity | by vm_compute]|]); by vm_compute).
  pose proof (connection_stream_roundtrip 4096 [(str "PUT", str "x")] AckWindow [m2] AtEOF 0) as E.
  cbn [map concat length app Nat.add] in E. rewrite !app_nil_r in E.
  apply E; [by constructor|by constructor|by constructor|by vm_compute].
Defined.

(** Client and server agree on the negotiated protocol.  The response a
    server gives to a probe makes the client that sent it conclude the second
    protocol with the tier the server stored.  On any stream the client returns:
    it falls back to the first protocol exactly when nothing at all arrived
    before the timeout, and it settles on the second only if the stream starts
    with a response frame of a server. *)
Theorem negotiation_agrees want e rest :
  (exists respond al', encodeHelloProbe want = Some (frame (hello want)) /\
    ServerHandleProbe (received (hello want)) = Ret (Some (respond, want)) /\
    ClientNegotiateWithAck (MkReader (respond ++ rest) e []) = Ret (Ok (VersionIsV2, want), MkReader rest e al')) /\
  forall r, exists res r', ClientNegotiateWithAck r = Ret (res, r') /\
    ((exists t, res = Ok (VersionIsV1, t)) <-> r.(unread) = [] /\ r.(ends) = AtTimeout) /\
    forall t, res = Ok (VersionIsV2, t) -> exists h version pref more,
      r.(unread) = header_bytes h ++ ([version; pref] ++ more) ++ r'.(unread) /\
      h.(Opcode) = OpcodeOK /\ #version = VersionV2 /\ #pref = tier_byte t.
Proof.
  split.
  - destruct (client_reads_response want rest e []) as (al & E). exists (BuildHelloResponseV2WithAck want), al.
    split; [apply probe_is_frame|]. split; [apply server_probe|exact E].
  - intros r. destruct (client_any r) as (res & r' & E & H1 & H2). by exists res, r'.
Qed.

(** C18: No stream makes a frame decoder panic or reserve more than the limit:
    every buffer is at most the larger of 65535 bytes (a message identifier) and
    the effective frame limit, whatever the header announces.  A decoder accepts
    only a stream that starts with a packed frame within the limit; it returns
    that frame and leaves exactly the rest.  The read loop never panics, and it
    ends: on a stream of n bytes, however it breaks off, it has been left --
    stream ended or broken, response not sendable, or connection draining --
    after at most n + 1 iterations, in either protocol.  An iteration stands for
    reads that return, as they do when the peer sends, closes or times out. *)
Theorem frame_reading_bounded maxSize r :
  let lim := Z.max 65535 (EffectiveMaxSize maxSize) in
  (exists res r', Decode maxSize r = Ret (res, r') /\ within lim r r' /\
    forall m, res = Ok m -> r.(unread) = frame (m.(ID), m.(Data)) ++ r'.(unread) /\ v1_ok maxSize (m.(ID), m.(Data))) /\
  (exists res r', DecodeV2 maxSize r = Ret (res, r') /\ within lim r r' /\
    forall m, res = Ok m -> r.(unread) = PackV2 m ++ r'.(unread) /\ v2_ok maxSize m) /\
  forall env v2, exists acts e, StartReader maxSize env v2 r = Ret (acts, e) /\
    ((length r.(unread) < length env)%nat -> e <> Reading).
Proof.
  cbv zeta. split; [|split; [|intros env v2; apply loop_left]].
  - destruct (decode_any maxSize r) as (res & r' & E & W & H). exists res, r'. split; [done|]. split; [done|].
    intros m ->. destruct H as (H1 & H2 & _). by split.
  - destruct (decode_v2_any maxSize r) as (res & r' & E & W & H). exists res, r'. split; [done|]. split; [done|]. by intros m ->.
Qed.

(** A stream that breaks off right behind a header counts as a clean end. *)
Theorem truncated_frame_is_clean_end :
  let broken := firstn 6 (frame (str "PUT", str "x")) in
  exists r, Decode 0 (MkReader broken AtEOF []) = Ret (Err (ReadMsgID EOF), r) /\ handleDecodeError (ReadMsgID EOF) = EventEOF.
Proof. eexists. split; reflexivity. Qed.

(** The client reserves whatever length the first response header announces. *)
Theorem negotiation_unbounded_alloc :
  let h := header_bytes (MkHeader 0 OpcodeOK 0 0 (2 ^ 32 - 1)) in
  exists res r', ClientNegotiateWithAck (MkReader h AtEOF []) = Ret (res, r') /\ (2 ^ 32 - 1) ∈ r'.(allocs).
Proof. eexists _, _. split; [vm_compute; reflexivity|]. cbn. rewrite !list_elem_of_In. cbn. tauto. Qed.
End FrameSpec.
