(* ===== verification/RouterV2.v ===== *)
(** * The router of the second protocol ([service/router_v2.go])

    One definition per handler.  A request is a decoded frame; a connection is
    its property bag (the negotiated tier and the accounting state) and the
    frames handed to it for sending; the router is the temporal store over its
    raw store, the optional ingest filter and the process metrics.  The filter
    and the extra reads the router does on the store are interfaces. *)
From S2P Require Import Prelude Bytes Temporal Engine KVServer TemporalStore.
From S2P Require Import Proto Frames.
Import Kv Tstore Proto Frames.

Module RouterV2.

(** ** Interfaces *)

(** [KVStore]: what the router reads beyond [TemporalRawStore]. *)
Inductive get_result := Found (value : bytes) | NotFound | GetFailed.
Class KVStore (St : Type) := {
  kv_get : bytes -> St -> go (St * get_result);
  kv_scan : bytes -> bytes -> Predicate -> Z -> St -> go (St * list (bytes * bytes)) }.

(** [ingesthook.Filter.validateForType]: the monotonicity flag, the declared
    type, the key and the value. *)
Inductive verdict := Pass (newValue : bytes) | Drop (code : Z) (reason : bytes).
Class IngestFilter (F : Type) := { validateForType : bool -> Z -> bytes -> bytes -> F -> F * verdict }.

(** ** Constants ([kairnet/codec/v2.go]) *)
Definition OpcodePut : Z := 0x01.
Definition OpcodeGet : Z := 0x02.
Definition OpcodeDel : Z := 0x03.
Definition OpcodeScan : Z := 0x04.
Definition OpcodeBye : Z := 0x06.
Definition OpcodeFlush : Z := 0x07.
Definition OpcodeStat : Z := 0x08.
Definition OpcodePutVersioned : Z := 0x09.
Definition OpcodeGetAsOf : Z := 0x0A.
Definition OpcodeListVersions : Z := 0x0B.
Definition OpcodeReplayFingerprint : Z := 0x0C.
Definition OpcodeListWrites : Z := 0x0D.
Definition OpcodeErr : Z := 0x81.
Definition OpcodeWindowAck : Z := 0x82.
Definition OpcodeStatAck : Z := 0x83.
Definition ErrCodeNone : Z := 0x0000.
Definition ErrCodeMalformedFrame : Z := 0x1001.
Definition ErrCodeResultTooLarge : Z := 0x1002.
Definition ErrCodeMemoryLimit : Z := 0x1003.
Definition ErrCodeSchemaValidation : Z := 0x3001.
Definition ErrCodeUnauthorizedRole : Z := 0x4001.

(** ** Roles ([internal/identity]) *)
Inductive Role := RoleAgent | RoleEngine.
Definition agentSourcePrefix : bytes := str "agent:".
Definition HasPrefix (s p : bytes) : bool := beqb (take (length p) s) p.
Definition AgentSource (agentID : bytes) : bytes := agentSourcePrefix ++ agentID.
Definition SourceRole (source : bytes) : Role := if HasPrefix source agentSourcePrefix then RoleAgent else RoleEngine.
Definition AgentID (source : bytes) : option bytes :=
  if HasPrefix source agentSourcePrefix then Some (drop (length agentSourcePrefix) source) else None.
Definition ProposalKeyPrefix : bytes := str "proposal:".
Definition IsProposalKey (key : bytes) : bool := HasPrefix key ProposalKeyPrefix.
Definition is_agent (source : bytes) : bool := match SourceRole source with RoleAgent => true | RoleEngine => false end.

(** ** State *)
Record v2ConnState := MkState {
  windowOpen : bool; windowCorrID : Z; windowReceived : Z; windowAccepted : Z; windowRejected : Z;
  windowFirstErrCode : Z; windowFirstErrReason : bytes;
  cumReceived : Z; cumAccepted : Z; cumRejected : Z; cumFirstErrCode : Z; cumFirstErrReason : bytes }.
Definition new_state : v2ConnState := MkState false 0 0 0 0 0 [] 0 0 0 0 [].

(** A connection: the properties of the router and of the negotiation, and every
    frame passed to [SendRawMsg] (whose outcome the router ignores). *)
Record conn := MkConn { tier : option AckTier; cstate : option v2ConnState; sent : list bytes }.

(** The counters of [internal/metrics] the router touches. *)
Record metrics := MkMetrics {
  Writes : Z; Deletes : Z; Reads : Z; Scans : Z; WriteErrors : Z; FramesDroppedMalformed : Z; FramesDroppedUnauthorized : Z }.
Inductive counter := CWrites | CDeletes | CReads | CScans | CWriteErrors | CMalformed | CUnauthorized.
Definition bump (c : counter) (x : metrics) : metrics :=
  let add d (n : Z) := match c, d with
    | CWrites, CWrites | CDeletes, CDeletes | CReads, CReads | CScans, CScans | CWriteErrors, CWriteErrors
    | CMalformed, CMalformed | CUnauthorized, CUnauthorized => u64 (n + 1) | _, _ => n end in
  MkMetrics (add CWrites x.(Writes)) (add CDeletes x.(Deletes)) (add CReads x.(Reads)) (add CScans x.(Scans))
    (add CWriteErrors x.(WriteErrors)) (add CMalformed x.(FramesDroppedMalformed)) (add CUnauthorized x.(FramesDroppedUnauthorized)).

Definition DefaultV2WindowSafetyValveN : Z := 1000.

(** What a request meets: the memory guardrail, the clock, the frame limit. *)
Record env := MkEnv { Blocked : bool; now : Z; MaxPackageSize : Z }.

Definition frame_of (opcode typ corrID : Z) (payload : bytes) : MessageV2 := NewMessageV2 (MkHeader 0 opcode typ corrID 0) payload.
Definition sendV2 (opcode typ corrID : Z) (payload : bytes) (c : conn) : conn :=
  MkConn c.(tier) c.(cstate) (c.(sent) ++ [PackV2 (frame_of opcode typ corrID payload)]).
Definition sendOK := sendV2 OpcodeOK.
Definition sendErr (typ corrID errCode : Z) (reason : bytes) : conn -> conn := sendV2 OpcodeErr typ corrID (V2ErrPayload errCode reason).

(** ** Accounting *)
Definition connState (c : conn) : v2ConnState := default new_state c.(cstate).
Definition set_state (s : v2ConnState) (c : conn) : conn := MkConn c.(tier) (Some s) c.(sent).
Definition ackTier (c : conn) : AckTier := default AckEvery c.(tier).

Inductive write_result := Accepted | Rejected (errCode : Z) (reason : bytes).

Definition window_ack_body (s : v2ConnState) : bytes :=
  V2AckBody (MkAck s.(windowCorrID) s.(windowReceived) s.(windowAccepted) s.(windowRejected) s.(windowFirstErrCode) s.(windowFirstErrReason)).
Definition cum_ack_body (corrID : Z) (s : v2ConnState) : bytes :=
  V2AckBody (MkAck corrID s.(cumReceived) s.(cumAccepted) s.(cumRejected) s.(cumFirstErrCode) s.(cumFirstErrReason)).

Definition closeWindow (s : v2ConnState) (c : conn) : conn :=
  let c := sendV2 OpcodeWindowAck TypeUnspecified s.(windowCorrID) (window_ack_body s) c in
  set_state (MkState false s.(windowCorrID) s.(windowReceived) s.(windowAccepted) s.(windowRejected) s.(windowFirstErrCode)
    s.(windowFirstErrReason) s.(cumReceived) s.(cumAccepted) s.(cumRejected) s.(cumFirstErrCode) s.(cumFirstErrReason)) c.

Definition no_error (code : Z) (reason : bytes) : bool := (code =? ErrCodeNone) && beqb reason [].

Definition recordCumulativeOnly (w : write_result) (s : v2ConnState) : v2ConnState :=
  let upd a r c e := MkState s.(windowOpen) s.(windowCorrID) s.(windowReceived) s.(windowAccepted) s.(windowRejected)
    s.(windowFirstErrCode) s.(windowFirstErrReason) (u32 (s.(cumReceived) + 1)) a r c e in
  match w with
  | Accepted => upd (u32 (s.(cumAccepted) + 1)) s.(cumRejected) s.(cumFirstErrCode) s.(cumFirstErrReason)
  | Rejected code reason =>
      let first := no_error s.(cumFirstErrCode) s.(cumFirstErrReason) in
      upd s.(cumAccepted) (u32 (s.(cumRejected) + 1))
        (if first then code else s.(cumFirstErrCode)) (if first then reason else s.(cumFirstErrReason))
  end.

(** The window fields of [recordIntoWindow]: opening and counting. *)
Definition open_window (corrID : Z) (s : v2ConnState) : v2ConnState :=
  MkState true corrID 0 0 0 ErrCodeNone [] s.(cumReceived) s.(cumAccepted) s.(cumRejected) s.(cumFirstErrCode) s.(cumFirstErrReason).
Definition count_window (w : write_result) (s : v2ConnState) : v2ConnState :=
  let upd a r c e := MkState s.(windowOpen) s.(windowCorrID) (u32 (s.(windowReceived) + 1)) a r c e
    s.(cumReceived) s.(cumAccepted) s.(cumRejected) s.(cumFirstErrCode) s.(cumFirstErrReason) in
  match w with
  | Accepted => upd (u32 (s.(windowAccepted) + 1)) s.(windowRejected) s.(windowFirstErrCode) s.(windowFirstErrReason)
  | Rejected code reason =>
      let first := no_error s.(windowFirstErrCode) s.(windowFirstErrReason) in
      upd s.(windowAccepted) (u32 (s.(windowRejected) + 1))
        (if first then code else s.(windowFirstErrCode)) (if first then reason else s.(windowFirstErrReason))
  end.

Definition recordIntoWindow (N corrID : Z) (w : write_result) (c : conn) : conn :=
  let s := connState c in
  let c := set_state s c in
  let c := if s.(windowOpen) && negb (s.(windowCorrID) =? corrID) then closeWindow s c else c in
  let s := connState c in
  let s := if s.(windowOpen) then s else open_window corrID s in
  let s := recordCumulativeOnly w (count_window w s) in
  let c := set_state s c in
  if N <=? s.(windowReceived) then closeWindow s c else c.

Definition recordCumulative (w : write_result) (c : conn) : conn := set_state (recordCumulativeOnly w (connState c)) c.

Section Router.
Context {St F : Type} `{!TemporalRawStore St} `{!KVStore St} `{!IngestFilter F}.
(** The schema registry: the version of the contract of a type, of a key. *)
Context (LookupByType : Z -> option Z) (LookupDescriptor : bytes -> option Z).

Record RouterV2 := MkRouter {
  temporal : TemporalStore (St := St); filter : option F; windowSafetyValveN : Z; counters : metrics }.

Definition NewRouterV2 (s : St) (f : option F) (windowSafetyValveN : Z) : RouterV2 :=
  MkRouter (NewTemporalStore s) f (if windowSafetyValveN =? 0 then DefaultV2WindowSafetyValveN else windowSafetyValveN)
    (MkMetrics 0 0 0 0 0 0 0).

Definition set_temporal (ts : TemporalStore) (r : RouterV2) : RouterV2 := MkRouter ts r.(filter) r.(windowSafetyValveN) r.(counters).
Definition set_raw (s : St) (r : RouterV2) : RouterV2 := set_temporal (set_store s r.(temporal)) r.
Definition set_filter (f : option F) (r : RouterV2) : RouterV2 := MkRouter r.(temporal) f r.(windowSafetyValveN) r.(counters).
Definition count (c : counter) (r : RouterV2) : RouterV2 :=
  MkRouter r.(temporal) r.(filter) r.(windowSafetyValveN) (bump c r.(counters)).

(** The filter, when there is one; a drop without a code gets the generic one. *)
Definition run_filter (checkMonotonic : bool) (typ : Z) (key value : bytes) (r : RouterV2) : RouterV2 * verdict :=
  match r.(filter) with
  | None => (r, Pass value)
  | Some f =>
      let (f, v) := validateForType checkMonotonic typ key value f in
      (set_filter (Some f) r,
       match v with Pass nv => Pass nv | Drop code reason => Drop (if code =? 0 then ErrCodeSchemaValidation else code) reason end)
  end.

(** ** Writes *)
Definition applyWrite (e : env) (req : MessageV2) (r : RouterV2) : go (RouterV2 * write_result) :=
  if e.(Blocked) then Ret (r, Rejected ErrCodeMemoryLimit (str "memory_limit_reached"))
  else
    let data := req.(Payload) in
    if req.(Header).(Opcode) =? OpcodeDel then
      key ← DecodeKeyFrame data;
      match key with
      | None => Ret (r, Rejected ErrCodeMalformedFrame (str "malformed_frame"))
      | Some key =>
          '(s, ok) ← raw_write (MkCommand CommandDelete key None) r.(temporal).(store);
          if negb ok then Ret (count CWriteErrors (set_raw s r), Rejected ErrCodeNone (str "store_error"))
          else Ret (count CDeletes (set_raw s r), Accepted)
      end
    else
      kv ← DecodePutFrame data;
      match kv with
      | None => Ret (count CMalformed r, Rejected ErrCodeMalformedFrame (str "malformed_frame"))
      | Some (key, value) =>
          let (r, v) := run_filter true req.(Header).(Type_) key value r in
          match v with
          | Drop code reason => Ret (r, Rejected code reason)
          | Pass value =>
              '(s, ok) ← raw_write (MkCommand CommandPut key (Some value)) r.(temporal).(store);
              if negb ok then Ret (count CWriteErrors (set_raw s r), Rejected ErrCodeNone (str "store_error"))
              else Ret (count CWrites (set_raw s r), Accepted)
          end
      end.

Definition record_write (N : Z) (req : MessageV2) (w : write_result) (c : conn) : conn :=
  let h := req.(Header) in
  match ackTier c with
  | AckWindow => recordIntoWindow N h.(CorrID) w c
  | AckNone => recordCumulative w c
  | AckEvery =>
      match w with
      | Accepted => sendOK h.(Type_) h.(CorrID) [] c
      | Rejected code reason => sendErr h.(Type_) h.(CorrID) code reason c
      end
  end.

Definition handleWrite (e : env) (req : MessageV2) (c : conn) (r : RouterV2) : go (conn * RouterV2) :=
  '(r, w) ← applyWrite e req r;
  Ret (record_write r.(windowSafetyValveN) req w c, r).

(** ** Control frames *)
Definition maybeImplicitFlush (c : conn) : conn :=
  match ackTier c with
  | AckWindow =>
      let s := connState c in
      let c := set_state s c in
      if s.(windowOpen) then closeWindow s c else c
  | _ => c
  end.

Definition handleFlush (c : conn) : conn :=
  let nothing := sendV2 OpcodeWindowAck TypeUnspecified 0 (V2AckBody (MkAck 0 0 0 0 ErrCodeNone [])) in
  match ackTier c with
  | AckWindow =>
      let s := connState c in
      let c := set_state s c in
      if s.(windowOpen) then closeWindow s c else nothing c
  | _ => nothing c
  end.

Definition handleStat (req : MessageV2) (c : conn) : conn :=
  let s := connState c in
  let c := set_state s c in
  sendV2 OpcodeStatAck TypeUnspecified req.(Header).(CorrID) (cum_ack_body req.(Header).(CorrID) s) c.

Definition handleBye (req : MessageV2) (c : conn) : conn :=
  match ackTier c with
  | AckEvery => c
  | ack =>
      let s := connState c in
      let c := set_state s c in
      let c := if bool_decide (ack = AckWindow) && s.(windowOpen) then closeWindow s c else c in
      let s := connState c in
      sendV2 OpcodeStatAck TypeUnspecified req.(Header).(CorrID) (cum_ack_body req.(Header).(CorrID) s) c
  end.

(** ** Reads *)
Definition malformed (req : MessageV2) (c : conn) : conn :=
  sendErr req.(Header).(Type_) req.(Header).(CorrID) ErrCodeMalformedFrame (str "malformed_frame") c.
Definition reply (req : MessageV2) (body : bytes) (c : conn) : conn := sendOK req.(Header).(Type_) req.(Header).(CorrID) body c.
Definition refuse (req : MessageV2) (code : Z) (reason : bytes) (c : conn) : conn :=
  sendErr req.(Header).(Type_) req.(Header).(CorrID) code reason c.

Definition handleGet (req : MessageV2) (c : conn) (r : RouterV2) : go (conn * RouterV2) :=
  key ← DecodeKeyFrame req.(Payload);
  match key with
  | None => Ret (malformed req c, r)
  | Some key =>
      let r := count CReads r in
      '(s, res) ← kv_get key r.(temporal).(store);
      let r := set_raw s r in
      match res with
      | NotFound => Ret (refuse req ErrCodeNone (str "notfound") c, r)
      | GetFailed => Ret (refuse req ErrCodeNone (str "error") c, r)
      | Found value => Ret (reply req value c, r)
      end
  end.

Definition StatusOK : bytes := str "ok".

Definition handleScan (req : MessageV2) (c : conn) (r : RouterV2) : go (conn * RouterV2) :=
  sreq ← DecodeScanRequest req.(Payload);
  match sreq with
  | None => Ret (malformed req c, r)
  | Some sreq =>
      let r := count CScans r in
      '(s, entries) ← kv_scan sreq.(Start) sreq.(End_) sreq.(Pred) 0 r.(temporal).(store);
      let r := set_raw s r in
      let full := EncodeScanResponse StatusOK entries in
      body ← slice full (1 + len StatusOK) (len full);
      Ret (reply req body c, r)
  end.

(** ** Temporal operations *)
Definition schemaVersionFor (typeID : Z) (key : bytes) : Z :=
  if negb (typeID =? 0) then default 0 (LookupByType typeID) else default 0 (LookupDescriptor key).

Definition handlePutVersioned (e : env) (req : MessageV2) (c : conn) (r : RouterV2) : go (conn * RouterV2) :=
  if e.(Blocked) then Ret (refuse req ErrCodeMemoryLimit (str "memory_limit_reached") c, r)
  else
    kvs ← DecodePutVersionedFrame req.(Payload);
    match kvs with
    | None => Ret (malformed req c, count CMalformed r)
    | Some (key, value, source) =>
        if is_agent source && negb (IsProposalKey key) then
          Ret (refuse req ErrCodeUnauthorizedRole (str "agent_write_forbidden_kind") c, count CUnauthorized r)
        else
          let (r, v) := run_filter false req.(Header).(Type_) key value r in
          match v with
          | Drop code reason => Ret (refuse req code reason c, r)
          | Pass value =>
              '(ts, seq) ← PutVersioned key value e.(now) source (schemaVersionFor req.(Header).(Type_) key) r.(temporal);
              let r := set_temporal ts r in
              match seq with
              | None => Ret (refuse req ErrCodeNone (str "store_error") c, count CWriteErrors r)
              | Some seq => Ret (reply req (put_le 8 seq) c, count CWrites r)
              end
          end
    end.

Definition encode_version (v : Temporal.Version) : bytes := EncodeVersionEntry v.(Seq) v.(WriteNanos) v.(Temporal.Payload).

Definition handleGetAsOf (req : MessageV2) (c : conn) (r : RouterV2) : go (conn * RouterV2) :=
  ka ← DecodeAsOfFrame req.(Payload);
  match ka with
  | None => Ret (malformed req c, r)
  | Some (key, asOfNanos) =>
      let r := count CReads r in
      '(ts, v) ← GetAsOf key asOfNanos r.(temporal);
      let r := set_temporal ts r in
      match v with
      | None => Ret (refuse req ErrCodeNone (str "notfound") c, r)
      | Some v => Ret (reply req (encode_version v) c, r)
      end
  end.

Definition handleListVersions (req : MessageV2) (c : conn) (r : RouterV2) : go (conn * RouterV2) :=
  key ← DecodeKeyFrame req.(Payload);
  match key with
  | None => Ret (malformed req c, r)
  | Some key =>
      let r := count CReads r in
      '(ts, versions) ← ListVersions key r.(temporal);
      Ret (reply req (EncodeListVersionsResponse (map encode_version versions)) c, set_temporal ts r)
  end.

Definition handleReplayFingerprint (req : MessageV2) (c : conn) (r : RouterV2) : go (conn * RouterV2) :=
  pa ← DecodeReplayFingerprintRequest req.(Payload);
  match pa with
  | None => Ret (malformed req c, r)
  | Some (prefix, asOfNanos) =>
      '(ts, result) ← ReplayFingerprint prefix asOfNanos r.(temporal);
      let body := EncodeReplayFingerprintResponseV2 result.(KeyCount) (u32 (len result.(Mismatches))) result.(RFingerprint)
        result.(Mismatches) result.(Bounded) in
      Ret (reply req body c, set_temporal ts r)
  end.

Definition encode_envelope (e : WriteEnvelope) : bytes :=
  EncodeWriteEnvelopeEntry (MkWriteView e.(WLogicalKey) e.(WSeq) e.(WWriteNanos) e.(WSource) e.(WSchemaVer) e.(WPersistedHash)
    e.(WPayload) e.(HashOK)).
Definition source_view (c : SourceCount) : SourceCountView := MkSourceView c.(SCSource) c.(SCCount).
Definition encodeListWritesBody (result : ListWritesResult) : bytes :=
  EncodeListWritesResponse (map encode_envelope result.(WEntries)) (map source_view result.(BySource)).
Definition encodeListWritesBodyV2 (result : ListWritesResult) (nextCursor : bytes) : bytes :=
  EncodeListWritesResponseV2 (map encode_envelope result.(WEntries)) (map source_view result.(BySource)) nextCursor.

(** The answer, unless it exceeds the frame limit. *)
Definition reply_bounded (e : env) (req : MessageV2) (body : bytes) (c : conn) : conn :=
  if EffectiveMaxSize e.(MaxPackageSize) <? u32 (len body)
  then refuse req ErrCodeResultTooLarge (str "result_too_large") c else reply req body c.

Definition handleListWrites (e : env) (req : MessageV2) (c : conn) (r : RouterV2) : go (conn * RouterV2) :=
  q ← DecodeListWritesRequestV2 req.(Payload);
  match q with
  | None => Ret (malformed req c, r)
  | Some (prefix, tFrom, tTo, source, after, limit) =>
      let afterBytes := default [] after in
      if (len afterBytes =? 0) && (limit =? 0) then
        '(ts, result) ← ListWrites prefix tFrom tTo source r.(temporal);
        Ret (reply_bounded e req (encodeListWritesBody result) c, set_temporal ts r)
      else
        cur ← (if 0 <? len afterBytes then
                 k ← DecodeListWritesCursor afterBytes;
                 Ret match k with None => None | Some (lk, seq) => Some (Some (MkCursor lk seq)) end
               else Ret (Some None));
        match cur with
        | None => Ret (malformed req c, r)
        | Some after =>
            '(ts, (result, hasMore)) ← ListWritesPage prefix tFrom tTo source after limit r.(temporal);
            let nextCursor := match last result.(WEntries) with
                              | Some e => if hasMore : bool then EncodeListWritesCursor e.(WLogicalKey) e.(WSeq) else []
                              | None => [] end in
            Ret (reply_bounded e req (encodeListWritesBodyV2 result nextCursor) c, set_temporal ts r)
        end
  end.

(** ** Dispatch *)
Definition HandleV2 (e : env) (req : MessageV2) (c : conn) (r : RouterV2) : go (conn * RouterV2) :=
  let op := req.(Header).(Opcode) in
  if (op =? OpcodePut) || (op =? OpcodeDel) then handleWrite e req c r
  else if op =? OpcodeGet then handleGet req (maybeImplicitFlush c) r
  else if op =? OpcodeScan then handleScan req (maybeImplicitFlush c) r
  else if op =? OpcodeFlush then Ret (handleFlush c, r)
  else if op =? OpcodeStat then Ret (handleStat req c, r)
  else if op =? OpcodeBye then Ret (handleBye req c, r)
  else if op =? OpcodePutVersioned then handlePutVersioned e req c r
  else if op =? OpcodeGetAsOf then handleGetAsOf req c r
  else if op =? OpcodeListVersions then handleListVersions req c r
  else if op =? OpcodeReplayFingerprint then handleReplayFingerprint req c r
  else if op =? OpcodeListWrites then handleListWrites e req c r
  else Ret (refuse req ErrCodeNone (str "unknown opcode") c, r).
End Router.
End RouterV2.
