(* ===== verification/RouterSpec.v ===== *)
(** * Properties of the router: accounting, admission of writes, wire refinement

    The acknowledgements of a connection account for its writes exactly; writes
    reach the store only through the checks; and the versioned operations,
    spoken over the wire, implement the abstract temporal database. *)
From S2P Require Import Prelude Bytes Temporal Engine KVServer TemporalStore.
From S2P Require Import TemporalRun Proto ProtoSpec Frames FrameSpec RouterV2.
Import Kv Tstore TsRun Proto Frames RouterV2.

Module RouterSpec.

(** ** Tallies *)
Definition is_accepted (w : write_result) : bool := match w with Accepted => true | Rejected _ _ => false end.
Definition rejection (w : write_result) : option (Z * bytes) := match w with Accepted => None | Rejected c r => Some (c, r) end.
Definition n_accepted (ws : list write_result) : Z := len (List.filter is_accepted ws).
Definition n_rejected (ws : list write_result) : Z := len (List.filter (fun w => negb (is_accepted w)) ws).
Definition first_error (ws : list write_result) : Z * bytes := default (ErrCodeNone, []) (head (omap rejection ws)).

(** The body of an acknowledgement of the writes [ws]. *)
Definition ack_of (corrID : Z) (ws : list write_result) : V2AckFields :=
  MkAck corrID (u32 (len ws)) (u32 (n_accepted ws)) (u32 (n_rejected ws)) (first_error ws).1 (first_error ws).2.

Lemma received_is_sum ws : len ws = n_accepted ws + n_rejected ws.
Proof.
  unfold n_accepted, n_rejected. induction ws as [|w ws IH]; [done|]. cbn [List.filter]. destruct w; cbn [is_accepted negb]; rewrite !len_cons; lia.
Qed.

Definition real (w : write_result) : Prop := match w with Accepted => True | Rejected c r => no_error c r = false end.

(** The five fields of a tally, for the window and for the connection. *)
Definition tally : Type := Z * Z * Z * Z * bytes.
Definition add (w : write_result) (t : tally) : tally :=
  match t, w with
  | (n, a, r, c, e), Accepted => (u32 (n + 1), u32 (a + 1), r, c, e)
  | (n, a, r, c, e), Rejected c' e' => (u32 (n + 1), a, u32 (r + 1), if no_error c e then c' else c, if no_error c e then e' else e)
  end.
Definition tally_of (ws : list write_result) : tally :=
  (u32 (len ws), u32 (n_accepted ws), u32 (n_rejected ws), (first_error ws).1, (first_error ws).2).
Definition window_tally (s : v2ConnState) : tally :=
  (s.(windowReceived), s.(windowAccepted), s.(windowRejected), s.(windowFirstErrCode), s.(windowFirstErrReason)).
Definition cum_tally (s : v2ConnState) : tally :=
  (s.(cumReceived), s.(cumAccepted), s.(cumRejected), s.(cumFirstErrCode), s.(cumFirstErrReason)).

Lemma u32_carry a : u32 (u32 a + 1) = u32 (a + 1).
Proof. unfold u32. by rewrite Z.add_mod_idemp_l. Qed.

Lemma first_error_set ws : Forall real ws -> no_error (first_error ws).1 (first_error ws).2 = true -> omap rejection ws = [].
Proof.
  unfold first_error. induction 1 as [|w ws Hw _ IH]; [done|]. cbn [omap list_omap]. destruct w as [|c r]; cbn [rejection]; [exact IH|].
  cbn in Hw |- *. by rewrite Hw.
Qed.

Lemma add_tally w ws : Forall real ws -> add w (tally_of ws) = tally_of (ws ++ [w]).
Proof.
  intros Hr. unfold tally_of, add, n_accepted, n_rejected. rewrite !List.filter_app, !len_app. destruct w as [|c r]; cbn [List.filter is_accepted negb].
  - rewrite !u32_carry. unfold first_error. rewrite omap_app. cbn [omap list_omap rejection]. rewrite app_nil_r.
    change (len [Accepted]) with 1. change (len []) with 0. by rewrite Z.add_0_r.
  - rewrite !u32_carry. change (len [Rejected c r]) with 1. change (len []) with 0. rewrite Z.add_0_r.
    pose proof (first_error_set ws Hr) as Hf. destruct (no_error (first_error ws).1 (first_error ws).2) eqn:E.
    + unfold first_error. rewrite omap_app, (Hf eq_refl). done.
    + assert (first_error (ws ++ [Rejected c r]) = first_error ws) as ->; [|done]. unfold first_error in *. rewrite omap_app.
      by destruct (omap rejection ws).
Qed.

Lemma count_window_tally w s : window_tally (count_window w s) = add w (window_tally s) /\ cum_tally (count_window w s) = cum_tally s /\
  windowOpen (count_window w s) = windowOpen s /\ windowCorrID (count_window w s) = windowCorrID s.
Proof. by destruct w. Qed.
Lemma count_cum_tally w s : cum_tally (recordCumulativeOnly w s) = add w (cum_tally s) /\
  window_tally (recordCumulativeOnly w s) = window_tally s /\
  windowOpen (recordCumulativeOnly w s) = windowOpen s /\ windowCorrID (recordCumulativeOnly w s) = windowCorrID s.
Proof. by destruct w. Qed.

Lemma window_body s corrID ws : window_tally s = tally_of ws -> windowCorrID s = corrID -> window_ack_body s = V2AckBody (ack_of corrID ws).
Proof. intros E <-. unfold window_ack_body, ack_of. by injection E as -> -> -> -> ->. Qed.
Lemma cum_body s corrID ws : cum_tally s = tally_of ws -> cum_ack_body corrID s = V2AckBody (ack_of corrID ws).
Proof. intros E. unfold cum_ack_body, ack_of. by injection E as -> -> -> -> ->. Qed.

(** ** The accounting invariant of a windowed connection

    A window is the correlation id and the results of consecutive writes. *)
Definition window : Type := Z * list write_result.
Definition tagged (g : window) : list (Z * write_result) := map (pair g.1) g.2.
Definition ack_msg (g : window) : MessageV2 := frame_of OpcodeWindowAck TypeUnspecified g.1 (V2AckBody (ack_of g.1 g.2)).
Definition is_window_ack (m : MessageV2) : bool := m.(Header).(Opcode) =? OpcodeWindowAck.
Definition closed_ok (N : Z) (g : window) : Prop := len g.2 <= N /\ (g.2 = [] -> g.1 = 0).

Record accounts (N b : Z) (c : conn) (log : list (Z * write_result)) (resps : list MessageV2) (groups : list window) (pending : window) : Prop := {
  a_tier : ackTier c = AckWindow;
  a_sent : c.(sent) = map PackV2 resps;
  a_acks : List.filter is_window_ack resps = map ack_msg groups;
  a_log : log = concat (map tagged groups) ++ tagged pending;
  a_groups : Forall (closed_ok N) groups;
  a_pending : len pending.2 < b;
  a_real : Forall real (map snd log);
  a_open : (connState c).(windowOpen) = true ->
    pending.2 <> [] /\ (connState c).(windowCorrID) = pending.1 /\ window_tally (connState c) = tally_of pending.2;
  a_closed : (connState c).(windowOpen) = false -> pending.2 = [];
  a_cum : cum_tally (connState c) = tally_of (map snd log) }.

Lemma accounts_real N b c log resps groups pending : accounts N b c log resps groups pending -> Forall real pending.2.
Proof.
  intros A. pose proof (a_real _ _ _ _ _ _ _ A) as Hr. rewrite (a_log _ _ _ _ _ _ _ A), map_app in Hr. apply Forall_app in Hr as [_ Hr].
  unfold tagged in Hr. by rewrite map_map, map_id in Hr.
Qed.

Lemma accounts_set N b c log resps groups pending :
  accounts N b c log resps groups pending -> accounts N b (set_state (connState c) c) log resps groups pending.
Proof. by intros []. Qed.

Lemma filter_ack resps m : is_window_ack m = false -> List.filter is_window_ack (resps ++ [m]) = List.filter is_window_ack resps.
Proof. intros E. rewrite List.filter_app. cbn. by rewrite E, app_nil_r. Qed.

(** Any response that is no window acknowledgement leaves the account alone. *)
Lemma accounts_send N b c log resps groups pending op typ corr body : (op =? OpcodeWindowAck) = false ->
  accounts N b c log resps groups pending ->
  accounts N b (sendV2 op typ corr body c) log (resps ++ [frame_of op typ corr body]) groups pending.
Proof.
  intros Ho []. constructor; try done.
  - cbn [sendV2 sent]. by rewrite map_app, a_sent0.
  - by rewrite filter_ack.
Qed.

Lemma tagged_nil corr : tagged (corr, []) = [].
Proof. done. Qed.

(** Windows that hold a write. *)
Definition non_empty (g : window) : Prop := g.2 <> [].

(** Closing the open window acknowledges exactly the pending writes. *)
Lemma accounts_close N b c log resps groups pending : (connState c).(windowOpen) = true -> 1 <= N -> b <= N + 1 ->
  accounts N b c log resps groups pending ->
  accounts N N (closeWindow (connState c) c) log (resps ++ [ack_msg pending]) (groups ++ [pending]) (0, []).
Proof.
  intros Ho HN Hb []. destruct (a_open0 Ho) as (Hne & Hc & Ht). constructor; try done.
  - cbn [closeWindow set_state sendV2 sent]. rewrite map_app, a_sent0, (window_body _ _ _ Ht Hc). unfold ack_msg. by rewrite Hc.
  - rewrite List.filter_app, map_app, a_acks0. done.
  - rewrite map_app, concat_app. cbn [map concat]. by rewrite !app_nil_r.
  - apply Forall_app. split; [done|]. constructor; [|done]. split; [lia|done].
  - change (0 < N). lia.
Qed.

(** An empty window acknowledgement stands for a FLUSH with nothing to close. *)
Lemma accounts_nothing N b c log resps groups pending : (connState c).(windowOpen) = false -> 0 <= N ->
  accounts N b c log resps groups pending ->
  accounts N b (sendV2 OpcodeWindowAck TypeUnspecified 0 (V2AckBody (MkAck 0 0 0 0 ErrCodeNone [])) c) log
    (resps ++ [ack_msg (0, [])]) (groups ++ [(0, [])]) (0, []).
Proof.
  intros Ho HN []. pose proof (a_closed0 Ho) as Hp. constructor; try done.
  - cbn [sendV2 sent]. by rewrite map_app, a_sent0.
  - rewrite List.filter_app, map_app, a_acks0. done.
  - rewrite map_app, concat_app. cbn [map concat]. unfold tagged in *. rewrite Hp in *. cbn [map] in *. by rewrite !app_nil_r in *.
  - apply Forall_app. split; [done|]. constructor; [|done]. by split.
  - cbn. rewrite len_nil. rewrite Hp, len_nil in a_pending0. done.
  - intros H. change (windowOpen (connState c) = true) in H. congruence.
Qed.

(** ** What a request does to its connection *)
Definition is_write (req : MessageV2) : bool := (req.(Header).(Opcode) =? OpcodePut) || (req.(Header).(Opcode) =? OpcodeDel).
(** Requests after which no write may be left unacknowledged. *)
Definition settles (req : MessageV2) : bool :=
  let op := req.(Header).(Opcode) in
  (op =? OpcodeGet) || (op =? OpcodeScan) || (op =? OpcodeFlush) || (op =? OpcodeBye).

Inductive answers (req : MessageV2) (c : conn) : conn -> Prop :=
  | answer_ok body : answers req c (reply req body c)
  | answer_err code reason : answers req c (refuse req code reason c).

Lemma accounts_answer N b c log resps groups pending req c' : answers req c c' -> accounts N b c log resps groups pending ->
  exists m, accounts N b c' log (resps ++ [m]) groups pending.
Proof.
  intros [body|code reason] A; eexists.
  - exact (accounts_send N b c log resps groups pending OpcodeOK _ _ body eq_refl A).
  - exact (accounts_send N b c log resps groups pending OpcodeErr _ _ (V2ErrPayload code reason) eq_refl A).
Qed.

Inductive conn_step (N : Z) (req : MessageV2) (c : conn) : option write_result -> conn -> Prop :=
  | cs_write w : is_write req = true -> real w -> conn_step N req c (Some w) (record_write N req w c)
  | cs_read c' : is_write req = false -> answers req (maybeImplicitFlush c) c' -> conn_step N req c None c'
  | cs_flush : is_write req = false -> req.(Header).(Opcode) = OpcodeFlush -> conn_step N req c None (handleFlush c)
  | cs_stat : is_write req = false -> settles req = false -> conn_step N req c None (handleStat req c)
  | cs_bye : is_write req = false -> conn_step N req c None (handleBye req c)
  | cs_other c' : is_write req = false -> settles req = false -> answers req c c' -> conn_step N req c None c'.

Lemma go_inv {A B} (m : go A) (k : A -> go B) r : mbind k m = Ret r -> exists a, m = Ret a /\ k a = Ret r.
Proof. destruct m as [a|]; [|done]. intros E. by exists a. Qed.

(** Takes a handler's run apart, binding by binding and branch by branch. *)
Ltac go_run :=
  repeat match goal with
  | H : mbind _ _ = Ret _ |- _ => apply go_inv in H as (? & ? & H)
  | H : Ret _ = Ret _ |- _ => injection H as H
  | x : (_ * _)%type |- _ => destruct x
  | H : context [match ?x with _ => _ end] |- _ => destruct x eqn:?
  | H : (_, _) = (_, _) |- _ => injection H as H
  end; subst.

(** Decides the next opcode test of the dispatch; the opcode settles nothing. *)
Ltac pick H Hw op := match type of H with context [op =? ?k] => destruct (Z.eqb_spec op k) as [Ho|?] end.
Ltac quiet op := unfold settles; fold op; match goal with E : op = _ |- _ => by rewrite E end.

Section Handlers.
Context {St F : Type} `{!TemporalRawStore St} `{!KVStore St} `{!IngestFilter F}.
Context (LookupByType : Z -> option Z) (LookupDescriptor : bytes -> option Z).
Notation router := (RouterV2 (St := St) (F := F)).
Notation HandleV2 := (HandleV2 LookupByType LookupDescriptor).

Lemma run_filter_real mono typ key value (r r' : router) code reason :
  run_filter mono typ key value r = (r', Drop code reason) -> no_error code reason = false.
Proof.
  unfold run_filter. destruct (filter r) as [f|]; [|done]. destruct (validateForType _ _ _ _ f) as [f' [nv|c re]]; [done|].
  intros [= _ <- <-]. unfold no_error, ErrCodeNone, ErrCodeSchemaValidation. by destruct (c =? 0) eqn:E; [|rewrite E].
Qed.

Lemma run_filter_valve mono typ key value (r r' : router) v :
  run_filter mono typ key value r = (r', v) -> r'.(windowSafetyValveN) = r.(windowSafetyValveN).
Proof. unfold run_filter. destruct (filter r); [destruct (validateForType _ _ _ _ _)|]; by intros [= <- _]. Qed.

Lemma applyWrite_real e req (r r' : router) w : applyWrite e req r = Ret (r', w) ->
  real w /\ r'.(windowSafetyValveN) = r.(windowSafetyValveN).
Proof.
  unfold applyWrite. intros H. go_run; try done; cbn [real].
  all: match goal with E : run_filter _ _ _ _ _ = _ |- _ =>
         pose proof (run_filter_valve _ _ _ _ _ _ _ E); try pose proof (run_filter_real _ _ _ _ _ _ _ _ E) end.
  all: split; [done|by etrans].
Qed.

Lemma answers_malformed req c : answers req c (malformed req c).
Proof. exact (answer_err req c ErrCodeMalformedFrame (str "malformed_frame")). Qed.
Lemma answers_bounded e req body c : answers req c (reply_bounded e req body c).
Proof. unfold reply_bounded. destruct (_ <? _); [apply answer_err|apply answer_ok]. Qed.
#[local] Hint Resolve answers_malformed answers_bounded : core.
#[local] Hint Constructors answers : core.

Lemma handlers_answer e req c (r r' : router) c' :
  (handleGet req c r = Ret (c', r') -> answers req c c') /\
  (handleScan req c r = Ret (c', r') -> answers req c c') /\
  (handlePutVersioned LookupByType LookupDescriptor e req c r = Ret (c', r') -> answers req c c') /\
  (handleGetAsOf req c r = Ret (c', r') -> answers req c c') /\
  (handleListVersions req c r = Ret (c', r') -> answers req c c') /\
  (handleReplayFingerprint req c r = Ret (c', r') -> answers req c c') /\
  (handleListWrites e req c r = Ret (c', r') -> answers req c c').
Proof.
  split_and!; intros H.
  - unfold handleGet in H. go_run; auto.
  - unfold handleScan in H. go_run; auto.
  - unfold handlePutVersioned in H. go_run; auto.
  - unfold handleGetAsOf in H. go_run; auto.
  - unfold handleListVersions in H. go_run; auto.
  - unfold handleReplayFingerprint in H. go_run; auto.
  - unfold handleListWrites in H. go_run; auto.
Qed.

Lemma HandleV2_conn e req c (r r' : router) c' : HandleV2 e req c r = Ret (c', r') ->
  exists w, conn_step r.(windowSafetyValveN) req c w c' /\
    match w with Some w => exists r1, applyWrite e req r = Ret (r1, w) | None => is_write req = false end.
Proof.
  unfold RouterV2.HandleV2. set (op := Opcode (Header req)). intros H.
  destruct ((op =? OpcodePut) || (op =? OpcodeDel)) eqn:Hw.
  { unfold handleWrite in H. go_run. destruct (applyWrite_real _ _ _ _ _ H0) as [Hr ->]. eexists (Some _). split; [by constructor|by eexists]. }
  exists None. split; [|exact Hw].
  pose proof (handlers_answer e req c r r' c') as (_ & _ & A3 & A4 & A5 & A6 & A7).
  pose proof (handlers_answer e req (maybeImplicitFlush c) r r' c') as (A1 & A2 & _).
  pick H Hw op; [by apply cs_read; [|apply A1]|]. pick H Hw op; [by apply cs_read; [|apply A2]|].
  pick H Hw op; [injection H as <- <-; by apply cs_flush|].
  pick H Hw op; [injection H as <- <-; apply cs_stat; [done|quiet op]|].
  pick H Hw op; [injection H as <- <-; by apply cs_bye|].
  pick H Hw op; [apply cs_other; [done|quiet op|by apply A3]|]. pick H Hw op; [apply cs_other; [done|quiet op|by apply A4]|].
  pick H Hw op; [apply cs_other; [done|quiet op|by apply A5]|]. pick H Hw op; [apply cs_other; [done|quiet op|by apply A6]|].
  pick H Hw op; [apply cs_other; [done|quiet op|by apply A7]|].
  injection H as <- <-. apply cs_other; [exact Hw| |apply answer_err]. unfold settles. fold op.
  repeat (apply orb_false_iff; split); by apply Z.eqb_neq.
Qed.
End Handlers.

(** ** The invariant is kept *)
(** Counting a write in the open window, or in a new one. *)
Lemma accounts_count N c log resps groups pending corr w : N < 2 ^ 32 -> real w ->
  accounts N N c log resps groups pending -> (windowOpen (connState c) = true -> windowCorrID (connState c) = corr) ->
  let s1 := if windowOpen (connState c) then connState c else open_window corr (connState c) in
  let s2 := recordCumulativeOnly w (count_window w s1) in
  windowOpen s2 = true /\ windowReceived s2 = len (pending.2 ++ [w]) /\
  accounts N (N + 1) (set_state s2 c) (log ++ [(corr, w)]) resps groups (corr, pending.2 ++ [w]).
Proof.
  intros HN Hw A Hc s1 s2. pose proof (accounts_real _ _ _ _ _ _ _ A) as Hrp. destruct A.
  assert (windowOpen s1 = true /\ windowCorrID s1 = corr /\ window_tally s1 = tally_of pending.2 /\ cum_tally s1 = cum_tally (connState c) /\
    tagged pending = tagged (corr, pending.2)) as (S1 & S2 & S3 & S4 & S5).
  { subst s1. destruct (windowOpen (connState c)) eqn:Ho.
    - destruct (a_open0 eq_refl) as (_ & E1 & E2). rewrite (Hc eq_refl) in E1. split; [done|]. split; [auto|]. split; [done|]. split; [done|].
      unfold tagged. cbn. by rewrite E1.
    - rewrite (a_closed0 eq_refl). split_and!; try done. unfold tagged. by rewrite (a_closed0 eq_refl). }
  destruct (count_window_tally w s1) as (W1 & W2 & W3 & W4), (count_cum_tally w (count_window w s1)) as (C1 & C2 & C3 & C4).
  assert (window_tally s2 = tally_of (pending.2 ++ [w])) as T1 by (unfold s2; by rewrite C2, W1, S3, add_tally).
  assert (Forall real (map snd (log ++ [(corr, w)]))) as Hr by (rewrite map_app; apply Forall_app; split; [done|by constructor]).
  assert (windowOpen s2 = true) as Ho2 by (unfold s2; congruence). split; [exact Ho2|]. split.
  { injection T1 as -> _. rewrite u32_small; [done|]. split; [apply len_nonneg|]. rewrite len_app. change (len [w]) with 1. lia. }
  constructor; try done.
  - rewrite a_log0, S5, <- app_assoc. f_equal. unfold tagged. cbn. by rewrite map_app.
  - cbn [snd]. rewrite len_app. change (len [w]) with 1. lia.
  - intros _. split; [by destruct pending.2|]. split; [change (windowCorrID s2 = corr); unfold s2; congruence|exact T1].
  - intros H. change (windowOpen s2 = false) in H. congruence.
  - change (cum_tally s2 = tally_of (map snd (log ++ [(corr, w)]))). unfold s2. rewrite C1, W2, S4, a_cum0, map_app.
    by apply add_tally.
Qed.

Lemma accounts_record N c log resps groups pending corr w : 1 <= N < 2 ^ 32 -> real w ->
  accounts N N c log resps groups pending ->
  exists resps' groups' pending', accounts N N (recordIntoWindow N corr w c) (log ++ [(corr, w)]) (resps ++ resps') (groups ++ groups') pending' /\
    Forall non_empty groups'.
Proof.
  intros HN Hw A. unfold recordIntoWindow. set (c0 := set_state (connState c) c).
  (* the window of another correlation id is closed first *)
  assert (exists r1 g1 p1 c1, (if windowOpen (connState c) && negb (windowCorrID (connState c) =? corr) then closeWindow (connState c) c0 else c0) = c1 /\
    accounts N N c1 log (resps ++ r1) (groups ++ g1) p1 /\ (windowOpen (connState c1) = true -> windowCorrID (connState c1) = corr) /\ Forall non_empty g1) as (r1 & g1 & p1 & c1 & -> & A1 & Hc1 & Hg1).
  { apply accounts_set in A. fold c0 in A. destruct (windowOpen (connState c)) eqn:Ho; cbn [andb]; [destruct (Z.eqb_spec (windowCorrID (connState c)) corr) as [E|E]; cbn [negb]|].
    - exists [], [], pending, c0. rewrite !app_nil_r. by split_and!.
    - eexists _, _, _, _. split; [reflexivity|]. split; [apply (accounts_close N N c0); [done|lia|lia|done]|]. split; [intros H; discriminate H|].
      apply Forall_singleton. by apply (a_open _ _ _ _ _ _ _ A).
    - exists [], [], pending, c0. rewrite !app_nil_r. split; [done|]. split; [done|]. split; [change (connState c0) with (connState c); congruence|constructor]. }
  destruct (accounts_count N c1 log (resps ++ r1) (groups ++ g1) p1 corr w) as (Ho & Hn & A2); [lia|done|done|done|].
  match goal with |- context [set_state ?s c1] => set (s2 := s) in * end.
  destruct (Z.leb_spec N (windowReceived s2)) as [Hv|Hv].
  - eexists (r1 ++ [_]), (g1 ++ [_]), (0, []). rewrite !app_assoc. split; [apply (accounts_close N (N + 1) (set_state s2 c1)); [exact Ho|lia|lia|exact A2]|].
    apply Forall_app. split; [done|]. apply Forall_singleton. by apply (a_open _ _ _ _ _ _ _ A2).
  - exists r1, g1, (corr, p1.2 ++ [w]). split; [|done]. destruct A2. constructor; try done. cbn [snd]. lia.
Qed.

Definition logged (req : MessageV2) (w : option write_result) : list (Z * write_result) :=
  match w with Some w => [(req.(Header).(CorrID), w)] | None => [] end.

Lemma accounts_flush N c log resps groups pending : 1 <= N -> accounts N N c log resps groups pending ->
  exists resps' groups', accounts N N (maybeImplicitFlush c) log (resps ++ resps') (groups ++ groups') (0, []) /\ Forall non_empty groups'.
Proof.
  intros HN A. pose proof (accounts_set _ _ _ _ _ _ _ A) as A0. unfold maybeImplicitFlush. rewrite (a_tier _ _ _ _ _ _ _ A).
  destruct (windowOpen (connState c)) eqn:Ho.
  - eexists _, _. split; [apply (accounts_close N N (set_state (connState c) c)); [done|lia|lia|done]|].
    apply Forall_singleton. by apply (a_open _ _ _ _ _ _ _ A).
  - exists [], []. rewrite !app_nil_r. split; [|constructor]. destruct A0. pose proof (a_closed0 Ho) as Hp. constructor; try done.
    + rewrite a_log0. unfold tagged. by rewrite Hp.
    + change (0 < N). lia.
    + intros H. change (windowOpen (connState c) = true) in H. congruence.
Qed.

Lemma accounts_step N req c w c' log resps groups pending : 1 <= N < 2 ^ 32 -> conn_step N req c w c' ->
  accounts N N c log resps groups pending ->
  exists resps' groups' pending', accounts N N c' (log ++ logged req w) (resps ++ resps') (groups ++ groups') pending' /\
    (settles req = true -> pending'.2 = []) /\ Forall (fun g => g.2 = [] -> req.(Header).(Opcode) = OpcodeFlush) groups'.
Proof.
  intros HN Hs A.
  assert (forall gs, Forall non_empty gs -> Forall (fun g : window => g.2 = [] -> req.(Header).(Opcode) = OpcodeFlush) gs) as Hne
    by (intros gs Hgs; eapply Forall_impl; [exact Hgs|]; intros g Hg E; by destruct Hg).
  destruct Hs as [w Hw Hr|c' Hw Ha|Hw Hfl|Hw Hq|Hw|c' Hw Hq Ha]; cbn [logged]; rewrite ?app_nil_r.
  - unfold record_write. rewrite (a_tier _ _ _ _ _ _ _ A).
    destruct (accounts_record N c log resps groups pending (CorrID (Header req)) w HN Hr A) as (r' & g' & p' & A' & Hg').
    exists r', g', p'. split; [exact A'|]. split; [|by apply Hne]. unfold settles, is_write in *. intros Hq. exfalso. revert Hw Hq.
    rewrite !orb_true_iff, !Z.eqb_eq. unfold OpcodePut, OpcodeDel, OpcodeGet, OpcodeScan, OpcodeFlush, OpcodeBye. lia.
  - destruct (accounts_flush N c log resps groups pending) as (r1 & g1 & A1 & Hg1); [lia|done|].
    destruct (accounts_answer _ _ _ _ _ _ _ _ _ Ha A1) as (m & A2). exists (r1 ++ [m]), g1, (0, []). rewrite app_assoc. split_and!; [done|done|by apply Hne].
  - pose proof (accounts_set _ _ _ _ _ _ _ A) as A0. unfold handleFlush. rewrite (a_tier _ _ _ _ _ _ _ A).
    destruct (windowOpen (connState c)) eqn:Ho.
    + eexists _, _, _. split; [apply (accounts_close N N (set_state (connState c) c)); [done|lia|lia|done]|]. split; [done|by apply Forall_singleton].
    + eexists _, _, _. split; [apply (accounts_nothing N N (set_state (connState c) c) log resps groups pending); [done|lia|done]|]. split; [done|by apply Forall_singleton].
  - unfold handleStat. eexists _, [], pending. rewrite (app_nil_r groups). split; [apply accounts_send; [done|by apply accounts_set]|]. split; [by rewrite Hq|constructor].
  - unfold handleBye. rewrite (a_tier _ _ _ _ _ _ _ A). cbn [bool_decide AckTier_eq_dec].
    pose proof (accounts_flush N c log resps groups pending) as Hf. unfold maybeImplicitFlush in Hf. rewrite (a_tier _ _ _ _ _ _ _ A) in Hf.
    destruct Hf as (r1 & g1 & A1 & Hg1); [lia|done|]. change (bool_decide (AckWindow = AckWindow)) with true. cbn [andb].
    eexists (r1 ++ [_]), g1, (0, []). rewrite app_assoc. split; [by apply accounts_send|]. split; [done|by apply Hne].
  - destruct (accounts_answer _ _ _ _ _ _ _ _ _ Ha A) as (m & A2). exists [m], [], pending. rewrite (app_nil_r groups). split; [done|]. split; [by rewrite Hq|constructor].
Qed.

(** The connection-level totals, for both tiers that keep them. *)
Definition totals (t : AckTier) (c : conn) (log : list (Z * write_result)) : Prop :=
  ackTier c = t /\ Forall real (map snd log) /\ cum_tally (connState c) = tally_of (map snd log).

Lemma totals_step N req c w c' log : conn_step N req c w c' -> totals AckNone c log ->
  totals AckNone c' (log ++ logged req w) /\ len c'.(sent) = len c.(sent) + (if is_write req then 0 else 1).
Proof.
  intros Hs (Ht & Hr & Hc).
  destruct Hs as [w Hw Hw'|c' Hw Ha|Hw _|Hw Hq|Hw|c' Hw Hq Ha]; rewrite Hw; cbn [logged]; rewrite ?app_nil_r.
  - unfold record_write. rewrite Ht. unfold recordCumulative. split; [|cbn; lia]. split; [exact Ht|]. rewrite map_app. cbn [map snd].
    split; [apply Forall_app; split; [done|by constructor]|]. change (cum_tally (recordCumulativeOnly w (connState c)) = tally_of (map snd log ++ [w])).
    destruct (count_cum_tally w (connState c)) as [-> _]. rewrite Hc. by apply add_tally.
  - unfold maybeImplicitFlush in Ha. rewrite Ht in Ha. destruct Ha; (split; [done|]); cbn; rewrite len_app; done.
  - unfold handleFlush. rewrite Ht. split; [done|]. cbn. rewrite len_app. done.
  - split; [done|]. cbn. rewrite len_app. done.
  - unfold handleBye. rewrite Ht. split; [done|]. cbn. rewrite len_app. done.
  - destruct Ha; (split; [done|]); cbn; rewrite len_app; done.
Qed.

(** ** Runs of one connection

    The requests of one connection in order, each with the result of its write;
    the router may be in any state each time, so other connections, the
    guardrail and the clock are free. *)
Section Runs.
Context {St F : Type} `{!TemporalRawStore St} `{!KVStore St} `{!IngestFilter F}.
Context (LookupByType : Z -> option Z) (LookupDescriptor : bytes -> option Z).
Notation router := (RouterV2 (St := St) (F := F)).
Notation HandleV2 := (HandleV2 LookupByType LookupDescriptor).

Definition result_of (e : env) (req : MessageV2) (r : router) (w : option write_result) : Prop :=
  match w with
  | Some w => is_write req = true /\ exists r1, applyWrite e req r = Ret (r1, w)
  | None => is_write req = false
  end.

Inductive conn_run (N : Z) (c : conn) : list (MessageV2 * option write_result) -> conn -> Prop :=
  | run_nil : conn_run N c [] c
  | run_step l c1 e req (r r2 : router) c2 w :
      conn_run N c l c1 -> r.(windowSafetyValveN) = N -> result_of e req r w -> HandleV2 e req c1 r = Ret (c2, r2) ->
      conn_run N c (l ++ [(req, w)]) c2.

Definition log_of (l : list (MessageV2 * option write_result)) : list (Z * write_result) := concat (map (fun x => logged x.1 x.2) l).

Lemma log_snoc l x : log_of (l ++ [x]) = log_of l ++ logged x.1 x.2.
Proof. unfold log_of. rewrite map_app, concat_app. cbn. by rewrite app_nil_r. Qed.

Lemma run_conn_step e req (r r2 : router) c1 c2 w : result_of e req r w -> HandleV2 e req c1 r = Ret (c2, r2) ->
  conn_step r.(windowSafetyValveN) req c1 w c2.
Proof.
  intros Hw H. destruct (HandleV2_conn _ _ _ _ _ _ _ _ H) as (w' & Hs & Hw'). replace w with w'; [done|].
  destruct w as [w|], w' as [w'|]; cbn in Hw; [|by destruct Hw; congruence|inversion Hs; congruence|done].
  destruct Hw as [_ [r1 E]], Hw' as [r1' E']. congruence.
Qed.

Definition fresh (t : AckTier) : conn := MkConn (Some t) None [].

(** The messages sent in answer to one request, and the windows they
    acknowledge: an empty one only for a FLUSH. *)
Definition answered (x : MessageV2 * option write_result) (a : list MessageV2 * list window) : Prop :=
  List.filter is_window_ack a.1 = map ack_msg a.2 /\ Forall (fun g => g.2 = [] -> x.1.(Header).(Opcode) = OpcodeFlush) a.2.

Lemma run_accounts N l c : 1 <= N < 2 ^ 32 -> conn_run N (fresh AckWindow) l c ->
  exists steps pending, accounts N N c (log_of l) (concat (map fst steps)) (concat (map snd steps)) pending /\ Forall2 answered l steps /\
    forall req w, last l = Some (req, w) -> settles req = true -> pending.2 = [].
Proof.
  intros HN. induction 1 as [|l c1 e req r r2 c2 w _ (steps & pending & A & Hst & _) <- Hw H].
  - exists [], (0, []). split; [|by split]. constructor; try done. change (0 < N). lia.
  - destruct (accounts_step _ _ _ _ _ _ _ _ _ HN (run_conn_step _ _ _ _ _ _ _ Hw H) A) as (r' & g' & p' & A' & Hp & Hg).
    exists (steps ++ [(r', g')]), p'. rewrite log_snoc, !map_app, !concat_app. cbn [map concat fst snd]. rewrite !app_nil_r.
    split; [exact A'|]. split; [|intros req' w'; rewrite last_snoc; by intros [= <- <-]].
    apply Forall2_app; [done|]. constructor; [|constructor]. split; [|done]. cbn [fst snd].
    pose proof (a_acks _ _ _ _ _ _ _ A') as Ea. rewrite List.filter_app, map_app, (a_acks _ _ _ _ _ _ _ A) in Ea. by apply app_inv_head in Ea.
Qed.

Lemma run_totals N l c : conn_run N (fresh AckNone) l c ->
  totals AckNone c (log_of l) /\ len c.(sent) = len (List.filter (fun x => negb (is_write x.1)) l).
Proof.
  induction 1 as [|l c1 e req r r2 c2 w _ (T & L) <- Hw H]; [done|].
  destruct (totals_step _ _ _ _ _ _ (run_conn_step _ _ _ _ _ _ _ Hw H) T) as [T' L']. rewrite log_snoc. split; [exact T'|].
  rewrite L', L, List.filter_app, len_app. cbn [List.filter fst]. by destruct (is_write req).
Qed.

(** C20: The acknowledgements of a windowed connection account for its writes
    exactly.  Whatever requests arrive, the window acknowledgements sent in
    answer to each of them, taken together in order, split the connection's
    writes, in order of arrival, into consecutive windows: each acknowledgement
    carries the one correlation id of its window and the exact numbers of
    received, accepted and rejected writes, with the first error; received is
    the sum of the two; no window exceeds the safety valve; an acknowledgement
    of an empty window is only sent in answer to a FLUSH, and has correlation id
    0.  Fewer writes than the valve are waiting, and none after a GET, SCAN,
    FLUSH or BYE.  The valve is at least 1 and below 2^32. *)
Theorem window_acks_cover_writes N l c : 1 <= N < 2 ^ 32 -> conn_run N (fresh AckWindow) l c ->
  exists steps pending, let groups := concat (map snd steps) in
    c.(sent) = map PackV2 (concat (map fst steps)) /\ Forall2 answered l steps /\
    log_of l = concat (map tagged groups) ++ tagged pending /\
    Forall (fun g => len g.2 <= N /\ (g.2 = [] -> g.1 = 0) /\ (ack_of g.1 g.2).(Received) = len g.2 /\
      (ack_of g.1 g.2).(Received) = (ack_of g.1 g.2).(Proto.Accepted) + (ack_of g.1 g.2).(Proto.Rejected)) groups /\
    len pending.2 < N /\ forall req w, last l = Some (req, w) -> settles req = true -> pending.2 = [].
Proof.
  intros HN H. destruct (run_accounts N l c HN H) as (steps & pending & [] & Hst & Hp). exists steps, pending. cbv zeta.
  split; [done|]. split; [done|]. split; [done|]. split; [|by split]. eapply Forall_impl; [exact a_groups0|]. intros g [Hl He].
  pose proof (received_is_sum g.2) as Hs. unfold ack_of. cbn [Received Proto.Accepted Proto.Rejected].
  assert (0 <= n_accepted g.2 /\ 0 <= n_rejected g.2) as [Ha Hr] by (split; apply len_nonneg).
  rewrite !u32_small by (unfold is_u32; lia). by split_and!.
Qed.

(** The totals a connection reports are those of all its writes.  On a
    connection without per-write answers, windowed or not, STAT and BYE are
    answered by a summary of every write since the connection was made: its
    counts (in 32 bits) and the first error.  Without windows no write is
    answered at all and every other request exactly once. *)
Theorem totals_reported N t l c req e (r : router) : 1 <= N < 2 ^ 32 -> t <> AckEvery -> conn_run N (fresh t) l c ->
  req.(Header).(Opcode) = OpcodeStat \/ req.(Header).(Opcode) = OpcodeBye ->
  (t = AckNone -> len c.(sent) = len (List.filter (fun x => negb (is_write x.1)) l)) /\
  exists c' pre, HandleV2 e req c r = Ret (c', r) /\
    c'.(sent) = c.(sent) ++ pre ++
      [PackV2 (frame_of OpcodeStatAck TypeUnspecified req.(Header).(CorrID) (V2AckBody (ack_of req.(Header).(CorrID) (map snd (log_of l)))))].
Proof.
  intros HN Ht H Hop.
  assert (totals t c (log_of l)) as (E1 & E2 & E3).
  { destruct t; [done| |by apply (run_totals N)]. destruct (run_accounts N l c HN H) as (? & ? & [] & _). by split_and!. }
  split; [intros ->; by apply (run_totals N)|]. unfold RouterV2.HandleV2. destruct Hop as [E|E]; rewrite E.
  - exists (handleStat req c), []. split; [reflexivity|]. cbn [handleStat sendV2 sent set_state app]. by rewrite (cum_body _ _ _ E3).
  - exists (handleBye req c). unfold handleBye. rewrite E1.
    destruct t; [done| |eexists []; split; [reflexivity|]; cbn [bool_decide andb sendV2 sent set_state app]; by rewrite (cum_body _ _ _ E3)].
    change (bool_decide (AckWindow = AckWindow)) with true. cbn [andb].
    destruct (windowOpen (connState c)).
    + eexists [_]. split; [reflexivity|]. cbn [sendV2 sent closeWindow set_state app].
      rewrite <- app_assoc. cbn [app].
      match goal with |- context [cum_ack_body ?x ?s] => rewrite (cum_body s x (map snd (log_of l)) E3) end. reflexivity.
    + eexists []. split; [reflexivity|]. cbn [sendV2 sent set_state app]. by rewrite (cum_body _ _ _ E3).
Qed.
End Runs.

(** ** A concrete router, over the reference store *)
#[export] Instance mem_kv : KVStore mem_store := {
  kv_get key s := '(s, v) ← raw_get key s; Ret (s, match v with Some v => Found v | None => NotFound end);
  kv_scan lo hi pred limit s := '(s, l) ← raw_scan lo hi s; Ret (s, scan_collect (fun _ => true) maxScanResults [] l) }.
#[export] Instance pass_filter : IngestFilter unit := { validateForType _ _ _ value f := (f, Pass value) }.

Definition demo_router : RouterV2 (St := mem_store) (F := unit) := NewRouterV2 (MkMem ∅ [false; true]) None 3.
Definition demo_env : env := MkEnv false 100 0.
Definition demo_req (op corr : Z) (payload : bytes) : MessageV2 := NewMessageV2 (MkHeader 0 op 0 corr 0) payload.
Definition demo_put (corr : Z) (k v : bytes) : MessageV2 := demo_req OpcodePut corr (EncodePutFrame k v).

Definition no_schema {A} (_ : A) : option Z := None.

Definition demo_l : list (MessageV2 * option write_result) :=
  [(demo_put 7 (str "k") (str "v"), Some Accepted); (demo_req OpcodeDel 7 (str "bad"), Some (Rejected ErrCodeMalformedFrame (str "malformed_frame")));
   (demo_req OpcodeFlush 9 [], None)].

(** One more request, served by [demo_router]. *)
Definition demo_next (c : conn) (req : MessageV2) : conn :=
  match HandleV2 no_schema no_schema demo_env req c demo_router with Ret (c, _) => c | _ => c end.
Definition demo_served (c : conn) (x : MessageV2 * option write_result) : Prop :=
  match HandleV2 no_schema no_schema demo_env x.1 c demo_router with Ret _ => True | _ => False end /\
  match x.2 with
  | None => is_write x.1 = false
  | Some w => is_write x.1 = true /\ match applyWrite demo_env x.1 demo_router with Ret (_, w') => w' = w | _ => False end
  end.

Lemma demo_extend c0 l c x : conn_run no_schema no_schema 3 c0 l c -> demo_served c x ->
  conn_run no_schema no_schema 3 c0 (l ++ [x]) (demo_next c x.1).
Proof.
  destruct x as [req w]. cbn [fst snd]. intros R [H1 H2]. cbn [fst snd] in *. unfold demo_next.
  destruct (HandleV2 _ _ _ _ _ _) as [[c' r']|] eqn:E; [|done]. eapply (run_step _ _ 3 c0 l c demo_env req demo_router r' c' w); [done|done| |done].
  destruct w as [w|]; [|done]. destruct H2 as [Hw H2]. destruct (applyWrite _ _ _) as [[r1 w1]|] eqn:Ew; [|done]. subst w1. split; [done|by eexists].
Qed.

Lemma demo_run t : conn_run no_schema no_schema 3 (fresh t) demo_l (fold_left demo_next (map fst demo_l) (fresh t)).
Proof.
  change demo_l with ((([] ++ [(demo_put 7 (str "k") (str "v"), Some Accepted)]) ++ [(demo_req OpcodeDel 7 (str "bad"),
    Some (Rejected ErrCodeMalformedFrame (str "malformed_frame")))]) ++ [(demo_req OpcodeFlush 9 [], None)]) at 1.
  destruct t; apply demo_extend; try apply demo_extend; try apply demo_extend; try apply run_nil; vm_compute; repeat split.
Qed.

Lemma window_acks_cover_writes_witness : exists steps pending,
  (fold_left demo_next (map fst demo_l) (fresh AckWindow)).(sent) = map PackV2 (concat (map fst steps)) /\
  Forall2 answered demo_l steps /\ log_of demo_l = concat (map tagged (concat (map snd steps))) ++ tagged pending /\
  pending.2 = [].
Proof.
  destruct (window_acks_cover_writes no_schema no_schema 3 demo_l (fold_left demo_next (map fst demo_l) (fresh AckWindow)))
    as (steps & pending & H1 & H2 & H3 & _ & _ & H6); [lia|apply demo_run|].
  exists steps, pending. split; [exact H1|]. split; [exact H2|]. split; [exact H3|].
  exact (H6 (demo_req OpcodeFlush 9 []) None eq_refl eq_refl).
Defined.

Lemma totals_reported_witness : exists c' pre,
  HandleV2 no_schema no_schema demo_env (demo_req OpcodeStat 5 []) (fold_left demo_next (map fst demo_l) (fresh AckNone)) demo_router = Ret (c', demo_router) /\
  c'.(sent) = (fold_left demo_next (map fst demo_l) (fresh AckNone)).(sent) ++ pre ++
    [PackV2 (frame_of OpcodeStatAck TypeUnspecified 5 (V2AckBody (MkAck 5 2 1 1 ErrCodeMalformedFrame (str "malformed_frame"))))].
Proof.
  destruct (totals_reported no_schema no_schema 3 AckNone demo_l (fold_left demo_next (map fst demo_l) (fresh AckNone)) (demo_req OpcodeStat 5 [])
    demo_env demo_router) as (_ & c' & pre & H1 & H2); [lia|discriminate|apply demo_run|by left|].
  exists c', pre. split; [exact H1|exact H2].
Defined.

(** On a connection that answers every write the totals stay zero. *)
Theorem stat_ignores_answered_writes :
  let c := demo_next (demo_next (fresh AckEvery) (demo_put 7 (str "k") (str "v"))) (demo_req OpcodeStat 5 []) in
  c.(sent) = [PackV2 (frame_of OpcodeOK 0 7 []); PackV2 (frame_of OpcodeStatAck 0 5 (V2AckBody (MkAck 5 0 0 0 0 [])))].
Proof. vm_compute. reflexivity. Qed.

(** ** Which writes reach the store *)
Section Admission.
Context {St F : Type} `{!TemporalRawStore St} `{!KVStore St} `{!IngestFilter F}.
Context (LookupByType : Z -> option Z) (LookupDescriptor : bytes -> option Z).
Notation router := (RouterV2 (St := St) (F := F)).
Notation HandleV2 := (HandleV2 LookupByType LookupDescriptor).

(** One call of the store; only allowed commands are written. *)
Inductive store_call (allowed : Command -> Prop) : St -> St -> Prop :=
  | call_write cmd s s' ok : allowed cmd -> raw_write cmd s = Ret (s', ok) -> store_call allowed s s'
  | call_get key s s' r : raw_get key s = Ret (s', r) -> store_call allowed s s'
  | call_scan lo hi s s' l : raw_scan lo hi s = Ret (s', l) -> store_call allowed s s'
  | call_kvget key s s' r : kv_get key s = Ret (s', r) -> store_call allowed s s'
  | call_kvscan lo hi p n s s' l : kv_scan lo hi p n s = Ret (s', l) -> store_call allowed s s'.
Notation calls allowed := (rtc (store_call allowed)).

(** The commands a request may write. *)
Inductive admitted (e : env) (req : MessageV2) (r : router) : Command -> Prop :=
  | adm_del key : e.(Blocked) = false -> req.(Header).(Opcode) = OpcodeDel -> DecodeKeyFrame req.(Payload) = Ret (Some key) ->
      admitted e req r (MkCommand CommandDelete key None)
  | adm_put key value r' nv : e.(Blocked) = false -> req.(Header).(Opcode) = OpcodePut ->
      DecodePutFrame req.(Payload) = Ret (Some (key, value)) -> run_filter true req.(Header).(Type_) key value r = (r', Pass nv) ->
      admitted e req r (MkCommand CommandPut key (Some nv))
  | adm_version key value source r' nv seq cmd : e.(Blocked) = false -> req.(Header).(Opcode) = OpcodePutVersioned ->
      DecodePutVersionedFrame req.(Payload) = Ret (Some (key, value, source)) ->
      (is_agent source = true -> IsProposalKey key = true) -> run_filter false req.(Header).(Type_) key value r = (r', Pass nv) ->
      let v := new_version key nv e.(now) source (schemaVersionFor LookupByType LookupDescriptor req.(Header).(Type_) key) seq in
      cmd = version_write v \/ cmd = pointer_write v ->
      admitted e req r cmd.

(** Takes the equations of a run apart and keeps those of the store's calls. *)
Lemma pointer_calls P logical (ts ts' : TemporalStore (St := St)) cur : currentPointer logical ts = Ret (ts', cur) -> calls P ts.(store) ts'.(store).
Proof. unfold currentPointer. intros H. go_run; apply rtc_once; by eapply call_get. Qed.

Lemma next_calls P logical (ts ts' : TemporalStore (St := St)) q : nextSeq logical ts = Ret (ts', q) -> calls P ts.(store) ts'.(store).
Proof. unfold nextSeq. intros H. go_run; try reflexivity; by eapply pointer_calls. Qed.

Lemma list_calls P logical (ts ts' : TemporalStore (St := St)) vs : ListVersions logical ts = Ret (ts', vs) -> calls P ts.(store) ts'.(store).
Proof. unfold ListVersions. intros H. go_run; apply rtc_once; by eapply call_scan. Qed.

Lemma asof_calls P logical t (ts ts' : TemporalStore (St := St)) v : GetAsOf logical t ts = Ret (ts', v) -> calls P ts.(store) ts'.(store).
Proof. unfold GetAsOf. intros H. go_run; by eapply list_calls. Qed.

Lemma replay_key_calls P b t logical (ts ts' : TemporalStore (St := St)) x : replay_key b t logical ts = Ret (ts', x) -> calls P ts.(store) ts'.(store).
Proof.
  unfold replay_key. intros H. go_run; try by eapply list_calls.
  all: etrans; [by eapply list_calls|by eapply pointer_calls].
Qed.

Lemma replay_keys_calls P b t keys (ts ts' : TemporalStore (St := St)) x : replay_keys b t keys ts = Ret (ts', x) -> calls P ts.(store) ts'.(store).
Proof.
  revert ts ts' x. induction keys as [|k keys IH]; intros ts ts' x H; cbn [replay_keys] in H; [injection H as <- <-; reflexivity|].
  apply go_inv in H as ([ts1 [en bad]] & H1 & H). apply go_inv in H as ([ts2 [es ms]] & H2 & H). injection H as <- <-.
  etrans; [by eapply replay_key_calls|by eapply IH].
Qed.

Lemma replay_calls P prefix t (ts ts' : TemporalStore (St := St)) x : ReplayFingerprint prefix t ts = Ret (ts', x) -> calls P ts.(store) ts'.(store).
Proof.
  unfold ReplayFingerprint. intros H. apply go_inv in H as ([s raw] & H1 & H). apply go_inv in H as ([ts1 [es ms]] & H2 & H). injection H as <- <-.
  etrans; [apply rtc_once; by eapply call_scan|]. by eapply (replay_keys_calls P) in H2.
Qed.

Lemma writes_calls P prefix f t src (ts ts' : TemporalStore (St := St)) x : ListWrites prefix f t src ts = Ret (ts', x) -> calls P ts.(store) ts'.(store).
Proof. unfold ListWrites. intros H. go_run; apply rtc_once; by eapply call_scan. Qed.
Lemma page_calls P prefix f t src a n (ts ts' : TemporalStore (St := St)) x : ListWritesPage prefix f t src a n ts = Ret (ts', x) -> calls P ts.(store) ts'.(store).
Proof. unfold ListWritesPage. intros H. go_run; apply rtc_once; by eapply call_scan. Qed.

Lemma put_calls (P : Command -> Prop) logical payload nanos source schema (ts ts' : TemporalStore (St := St)) q :
  (forall seq cmd, let v := new_version logical payload nanos source schema seq in cmd = version_write v \/ cmd = pointer_write v -> P cmd) ->
  PutVersioned logical payload nanos source schema ts = Ret (ts', q) -> calls P ts.(store) ts'.(store).
Proof.
  unfold PutVersioned. intros HP H. apply go_inv in H as ([ts1 seq] & H1 & H). apply go_inv in H as ([s1 ok1] & H2 & H).
  assert (calls P ts.(store) s1) as C1.
  { etrans; [by eapply next_calls|]. apply rtc_once. eapply call_write; [|exact H2]. eapply HP. by left. }
  destruct ok1; cbn [negb] in H; [|injection H as <- <-; exact C1].
  apply go_inv in H as ([s2 ok2] & H3 & H).
  assert (calls P ts.(store) s2) as C2.
  { etrans; [exact C1|]. apply rtc_once. eapply call_write; [|exact H3]. eapply HP. by right. }
  destruct ok2; injection H as <- <-; exact C2.
Qed.

Lemma filter_store mono typ key value (r r' : router) v : run_filter mono typ key value r = (r', v) -> r'.(temporal) = r.(temporal).
Proof. unfold run_filter. destruct (filter r); [destruct (validateForType _ _ _ _ _)|]; by intros [= <- _]. Qed.

Lemma apply_calls e req (r r' : router) w : is_write req = true -> applyWrite e req r = Ret (r', w) ->
  calls (admitted e req r) r.(temporal).(store) r'.(temporal).(store).
Proof.
  unfold applyWrite, is_write. intros Hop H. destruct e.(Blocked) eqn:Hb; [injection H as <- <-; reflexivity|].
  destruct (Z.eqb_spec (Opcode (Header req)) OpcodeDel) as [Ho|Ho].
  - apply go_inv in H as (key & Hk & H). destruct key as [key|]; [|injection H as <- <-; reflexivity].
    apply go_inv in H as ([s ok] & Hw & H). apply rtc_once. eapply call_write; [by apply adm_del|]. destruct ok; injection H as <- <-; exact Hw.
  - rewrite orb_false_r in Hop. apply Z.eqb_eq in Hop. apply go_inv in H as (kv & Hk & H).
    destruct kv as [[key value]|]; [|injection H as <- <-; reflexivity].
    destruct (run_filter true _ key value r) as [r1 v] eqn:Ef. pose proof (filter_store _ _ _ _ _ _ _ Ef) as Et.
    destruct v as [nv|code reason]; [|injection H as <- <-; by rewrite Et].
    apply go_inv in H as ([s ok] & Hw & H). apply rtc_once. rewrite Et in Hw.
    eapply call_write; [by eapply adm_put|]. destruct ok; injection H as <- <-; exact Hw.
Qed.

Lemma version_calls e req c (r r' : router) c' : req.(Header).(Opcode) = OpcodePutVersioned ->
  handlePutVersioned LookupByType LookupDescriptor e req c r = Ret (c', r') ->
  calls (admitted e req r) r.(temporal).(store) r'.(temporal).(store).
Proof.
  unfold handlePutVersioned. intros Hop H. destruct e.(Blocked) eqn:Hb; [injection H as <- <-; reflexivity|].
  apply go_inv in H as (kvs & Hk & H). destruct kvs as [[[key value] source]|]; [|injection H as <- <-; reflexivity].
  destruct (is_agent source && negb (IsProposalKey key)) eqn:Hr; [injection H as <- <-; reflexivity|].
  destruct (run_filter false _ key value r) as [r1 v] eqn:Ef. pose proof (filter_store _ _ _ _ _ _ _ Ef) as Et.
  destruct v as [nv|code reason]; [|injection H as <- <-; by rewrite Et].
  apply go_inv in H as ([ts q] & Hp & H). rewrite Et in Hp.
  assert (r'.(temporal) = ts) as -> by (destruct q; by injection H as <- <-).
  eapply put_calls; [|exact Hp]. intros seq cmd v Hcmd. eapply adm_version; try done. intros Ha. rewrite Ha in Hr. by destruct (IsProposalKey key).
Qed.

(** C21: Writes reach the store only through the checks.  Whatever a request
    asks, serving it makes only reads of the store and the writes it is admitted
    to: none at all while the memory guardrail blocks; for DEL and PUT the one
    write of the decoded key, with the value the filter passed; for a versioned
    put the version record and the pointer of the decoded key, and for a source
    with the agent's prefix only under the proposal prefix.  Every other
    request, every malformed frame and every refused value writes nothing. *)
Theorem store_writes_admitted e req c (r r' : router) c' : HandleV2 e req c r = Ret (c', r') ->
  rtc (store_call (admitted e req r)) r.(temporal).(store) r'.(temporal).(store).
Proof.
  unfold RouterV2.HandleV2. set (op := Opcode (Header req)). intros H.
  destruct ((op =? OpcodePut) || (op =? OpcodeDel)) eqn:Hw.
  { unfold handleWrite in H. apply go_inv in H as ([r1 w] & H1 & H). injection H as <- <-. by eapply apply_calls. }
  pick H Hw op. { unfold handleGet in H. go_run; try reflexivity; apply rtc_once; by eapply call_kvget. }
  pick H Hw op. { unfold handleScan in H. go_run; try reflexivity; apply rtc_once; by eapply call_kvscan. }
  pick H Hw op; [injection H as <- <-; reflexivity|]. pick H Hw op; [injection H as <- <-; reflexivity|].
  pick H Hw op; [injection H as <- <-; reflexivity|]. pick H Hw op; [by eapply version_calls|].
  pick H Hw op. { unfold handleGetAsOf in H. go_run; try reflexivity; by eapply (asof_calls _ _ _ r.(temporal)). }
  pick H Hw op. { unfold handleListVersions in H. go_run; try reflexivity; by eapply (list_calls _ _ r.(temporal)). }
  pick H Hw op. { unfold handleReplayFingerprint in H. go_run; try reflexivity; by eapply (replay_calls _ _ _ r.(temporal)). }
  pick H Hw op; [|injection H as <- <-; reflexivity].
  unfold handleListWrites in H. go_run; try discriminate; try reflexivity; first [by eapply (writes_calls _ _ _ _ _ r.(temporal)) | by eapply (page_calls _ _ _ _ _ _ _ r.(temporal))].
Qed.
End Admission.

Lemma store_writes_admitted_witness : exists c' r',
  HandleV2 no_schema no_schema demo_env (demo_req OpcodePutVersioned 1 (EncodePutVersionedFrame (str "quote:1") (str "v") (AgentSource (str "x"))))
    (fresh AckEvery) demo_router = Ret (c', r') /\
  rtc (store_call (admitted no_schema no_schema demo_env
    (demo_req OpcodePutVersioned 1 (EncodePutVersionedFrame (str "quote:1") (str "v") (AgentSource (str "x")))) demo_router))
    demo_router.(temporal).(store) r'.(temporal).(store) /\
  r'.(temporal) = demo_router.(temporal) /\
  c'.(sent) = [PackV2 (frame_of OpcodeErr 0 1 (V2ErrPayload ErrCodeUnauthorizedRole (str "agent_write_forbidden_kind")))].
Proof.
  eexists _, _. assert (HandleV2 no_schema no_schema demo_env
    (demo_req OpcodePutVersioned 1 (EncodePutVersionedFrame (str "quote:1") (str "v") (AgentSource (str "x")))) (fresh AckEvery) demo_router = Ret
      (MkConn (Some AckEvery) None [PackV2 (frame_of OpcodeErr 0 1 (V2ErrPayload ErrCodeUnauthorizedRole (str "agent_write_forbidden_kind")))],
       count CUnauthorized demo_router)) as E by (vm_compute; reflexivity).
  split; [exact E|]. split; [exact (store_writes_admitted _ _ _ _ _ _ _ _ E)|]. split; reflexivity.
Defined.

(** A plain PUT is not bound by the role check: an agent can write the version
    record and the pointer of any logical key, and forge its history. *)
Theorem plain_put_forges_version :
  let v := new_version (str "quote:1") (str "forged") 5 (str "engine") 0 1 in
  let put cmd := demo_put 1 cmd.(CKey) (default [] cmd.(CValue)) in
  let run c r req := match HandleV2 no_schema no_schema demo_env req c r with Ret (c, r) => (c, r) | _ => (c, r) end in
  let (c1, r1) := run (fresh AckEvery) (NewRouterV2 (MkMem ∅ []) None 3 : RouterV2 (F := unit)) (put (version_write v)) in
  let (c2, r2) := run c1 r1 (put (pointer_write v)) in
  match GetAsOf (str "quote:1") 10 r2.(temporal) with Ret (_, Some v') => v' = v | _ => False end.
Proof. vm_compute. reflexivity. Qed.
End RouterSpec.
