(* ===== verification/Remote.v ===== *)
(** * The remote store ([internal/jobctl/v2store.go]) over the wire

    The client that speaks the versioned operations of the second protocol over
    one lazily dialled connection, composed with the server's side of that
    connection: the read loop of the transport, the negotiation and the router
    ([Server.onNegotiate], [Server.onFrameV2]).  Network faults are inputs of a
    call: the dial may fail, the request may be lost before the server reads it,
    or the response may be lost after the server has acted. *)
From S2P Require Import Prelude Bytes Temporal Engine KVServer TemporalStore.
From S2P Require Import Proto Frames RouterV2.
Import Kv Tstore Proto Frames RouterV2.

Module Remote.
Section Remote.
Context {St F : Type} `{!TemporalRawStore St} `{!KVStore St} `{!IngestFilter F}.
Context (LookupByType : Z -> option Z) (LookupDescriptor : bytes -> option Z).
Notation router := (RouterV2 (St := St) (F := F)).

(** ** The server's side of a connection *)
Record link := MkLink { usingV2 : bool; peer : conn }.
Definition new_link : link := MkLink false (MkConn None None []).

(** The callback on a probe: the tier becomes a property of the connection and
    the response is queued. *)
Definition onNegotiate (respond : bytes) (ack : AckTier) (c : conn) : conn :=
  MkConn (Some ack) c.(cstate) (c.(sent) ++ [respond]).

(** One request arrives: the loop reads it and hands it on.  [None] is a
    connection the server closes.  The result is what the server queues for
    the client. *)
Definition serve (e : env) (wire : bytes) (l : link) (r : router) : go (option link * router * bytes) :=
  i ← iteration e.(MaxPackageSize) (MkTurn true false) l.(usingV2) (MkReader wire AtTimeout []);
  let queued c := concat (drop (length l.(peer).(sent)) c.(sent)) in
  match i with
  | ([Negotiated respond ack], inr _) =>
      let c := onNegotiate respond ack l.(peer) in Ret (Some (MkLink true c), r, queued c)
  | ([OnFrameV2 msg], inr _) =>
      '(c, r) ← HandleV2 LookupByType LookupDescriptor e msg l.(peer) r;
      Ret (Some (MkLink true c), r, queued c)
  | (_, inr (v2, _)) => Ret (Some (MkLink v2 l.(peer)), r, [])
  | (_, inl _) => Ret (None, r, [])
  end.

(** ** The client *)
Inductive fault := NoFault | DialFails | RequestLost | ResponseLost.

(** [V2Store]: its connection, seen together with the server's side of it. *)
Record V2Store := MkV2Store { connection : option link }.
Definition NewV2Store : V2Store := MkV2Store None.
Definition dropConn : V2Store := MkV2Store None.
Definition Close (s : V2Store) : V2Store := match s.(connection) with None => s | Some _ => MkV2Store None end.

(** The server that closed the connection serves nothing on it. *)
Definition exchange (e : env) (wire : bytes) (l : link) (r : router) : go (link * router * bytes) :=
  '(l', r, out) ← serve e wire l r;
  Ret (default l l', r, out).

(** [None] is an error: the dial failed, the negotiation failed or did not end
    in the second protocol with the every tier. *)
Definition ensureConn (e : env) (f : fault) (s : V2Store) (r : router) : go (option link * router) :=
  match s.(connection) with
  | Some l => Ret (Some l, r)
  | None =>
      match f with
      | DialFails => Ret (None, r)
      | _ =>
          match encodeHelloProbe AckEvery with
          | None => Ret (None, r)
          | Some probe =>
              '(l, r, out) ← exchange e probe new_link r;
              '(res, _) ← ClientNegotiateWithAck (MkReader out AtTimeout []);
              Ret (match res with Ok (VersionIsV2, AckEvery) => Some l | _ => None end, r)
          end
      end
  end.

Definition roundTrip (e : env) (f : fault) (opcode : Z) (payload : bytes) (s : V2Store) (r : router)
    : go (V2Store * router * option MessageV2) :=
  '(l, r) ← ensureConn e f s r;
  match l with
  | None => Ret (s, r, None)
  | Some l =>
      let frame := PackV2 (NewMessageV2 (MkHeader 0 opcode TypeUnspecified 1 0) payload) in
      match f with
      | RequestLost => Ret (dropConn, r, None)
      | _ =>
          '(l, r, out) ← exchange e frame l r;
          match f with
          | ResponseLost => Ret (dropConn, r, None)
          | _ =>
              '(resp, _) ← DecodeV2 0 (MkReader out AtTimeout []);
              Ret match resp with Err _ => (dropConn, r, None) | Ok resp => (MkV2Store (Some l), r, Some resp) end
          end
      end
  end.

(** Results: [Err tt] is any error the call returns. *)
Definition PutVersioned (e : env) (f : fault) (logicalKey payload source : bytes) (s : V2Store) (r : router)
    : go (V2Store * router * result unit Z) :=
  '(s, r, resp) ← roundTrip e f OpcodePutVersioned (EncodePutVersionedFrame logicalKey payload source) s r;
  match resp with
  | None => Ret (s, r, Err tt)
  | Some resp =>
      if negb (resp.(Header).(Opcode) =? OpcodeOK) then Ret (s, r, Err tt)
      else if negb (len resp.(Payload) =? 8) then Ret (s, r, Err tt)
      else Ret (s, r, Ok (get_le resp.(Payload)))
  end.

(** The answer to GET_AS_OF: [None] is "not found". *)
Definition read_version (resp : MessageV2) : go (result unit (option bytes)) :=
  if negb (resp.(Header).(Opcode) =? OpcodeOK) then
    er ← DecodeV2ErrPayload resp.(Payload);
    Ret match er with Some (_, reason) => if beqb reason (str "notfound") then Ok None else Err tt | None => Err tt end
  else
    v ← DecodeVersionEntry resp.(Payload);
    Ret match v with None => Err tt | Some (v, _) => Ok (Some v.(ViewPayload)) end.

Definition GetAsOf (e : env) (f : fault) (logicalKey : bytes) (asOfNanos : Z) (s : V2Store) (r : router)
    : go (V2Store * router * result unit (option bytes)) :=
  '(s, r, resp) ← roundTrip e f OpcodeGetAsOf (EncodeAsOfFrame logicalKey asOfNanos) s r;
  match resp with
  | None => Ret (s, r, Err tt)
  | Some resp => a ← read_version resp; Ret (s, r, a)
  end.

(** The same request with the clock's time. *)
Definition GetLatest (e : env) (f : fault) (logicalKey : bytes) (s : V2Store) (r : router)
    : go (V2Store * router * result unit (option bytes)) :=
  GetAsOf e f logicalKey e.(now) s r.

Definition ListVersions (e : env) (f : fault) (logicalKey : bytes) (s : V2Store) (r : router)
    : go (V2Store * router * result unit (list VersionEntryView)) :=
  '(s, r, resp) ← roundTrip e f OpcodeListVersions (EncodeKeyOnlyFrame logicalKey) s r;
  match resp with
  | None => Ret (s, r, Err tt)
  | Some resp =>
      if negb (resp.(Header).(Opcode) =? OpcodeOK) then Ret (s, r, Err tt)
      else vs ← DecodeListVersionsResponse resp.(Payload); Ret (s, r, match vs with None => Err tt | Some vs => Ok vs end)
  end.

Definition ListPrefix (e : env) (f : fault) (prefix : bytes) (asOfNanos : Z) (s : V2Store) (r : router)
    : go (V2Store * router * result unit (list WriteEnvelopeView)) :=
  '(s, r, resp) ← roundTrip e f OpcodeListWrites (EncodeListWritesRequest prefix 0 asOfNanos []) s r;
  match resp with
  | None => Ret (s, r, Err tt)
  | Some resp =>
      if negb (resp.(Header).(Opcode) =? OpcodeOK) then Ret (s, r, Err tt)
      else es ← DecodeListWritesResponse resp.(Payload); Ret (s, r, match es with None => Err tt | Some (es, _) => Ok es end)
  end.
End Remote.
End Remote.
