(* ===== verification/RemoteSpec.v ===== *)
(** * The remote store implements the abstract temporal database

    A client's calls, packed, read, dispatched, executed by the temporal store,
    packed and read again, give the answers of the abstract database
    ([TemporalRun.tdb]); a network fault costs at most the answer. *)
From S2P Require Import Prelude Bytes Temporal Engine KVServer TemporalStore TemporalRun.
From S2P Require Import Proto ProtoSpec Frames FrameSpec RouterV2 RouterSpec Remote.
Import Kv Tstore TsRun Proto ProtoSpec Frames FrameSpec RouterV2 RouterSpec.

Module RemoteSpec.

(** ** Calls and their meaning *)
Inductive rop := RPut (k payload source : bytes) | RAsOf (k : bytes) (t : Z) | RList (k : bytes).
Inductive ranswer := RSeq (seq : Z) | RValue (v : option bytes) | RVersions (vs : list VersionEntryView) | RErr.

Definition opcode_of (op : rop) : Z :=
  match op with RPut _ _ _ => OpcodePutVersioned | RAsOf _ _ => OpcodeGetAsOf | RList _ => OpcodeListVersions end.
Definition payload_of (op : rop) : bytes :=
  match op with
  | RPut k p s => EncodePutVersionedFrame k p s
  | RAsOf k t => EncodeAsOfFrame k t
  | RList k => EncodeKeyOnlyFrame k
  end.
Definition request_of (op : rop) : MessageV2 := NewMessageV2 (MkHeader 0 (opcode_of op) TypeUnspecified 1 0) (payload_of op).

Definition view_of (v : Temporal.Version) : VersionEntryView := MkVersionView v.(Seq) v.(WriteNanos) v.(Temporal.Payload).

(** The response a server gives to a call with the abstract answer [a]. *)
Definition response_of (op : rop) (a : tanswer) : MessageV2 :=
  let ok body := frame_of OpcodeOK TypeUnspecified 1 body in
  let err reason := frame_of OpcodeErr TypeUnspecified 1 (V2ErrPayload ErrCodeNone reason) in
  match a with
  | ASeq (Some q) => ok (put_le 8 q)
  | AVersion (Some v) => ok (encode_version v)
  | AVersion None => err (str "notfound")
  | AVersions vs => ok (EncodeListVersionsResponse (map encode_version vs))
  | _ => err (str "store_error")
  end.
(** What the client makes of it. *)
Definition answer_of (a : tanswer) : ranswer :=
  match a with
  | ASeq (Some q) => RSeq q
  | AVersion v => RValue (Temporal.Payload <$> v)
  | AVersions vs => RVersions (map view_of vs)
  | _ => RErr
  end.
Definition fits (op : rop) (a : tanswer) : Prop := len (response_of op a).(Payload) <= hardMaxPackageSize.

Section Remote.
Context {St F : Type} `{HRaw : TemporalRawStore St} `{HLaws : !RawStoreLaws St} `{!KVStore St} `{!IngestFilter F}.
Context (LookupByType : Z -> option Z) (LookupDescriptor : bytes -> option Z).
Notation router := (RouterV2 (St := St) (F := F)).

Definition top_of (e : env) (op : rop) : top :=
  match op with
  | RPut k p s => TPut k p e.(now) s (schemaVersionFor LookupByType LookupDescriptor TypeUnspecified k)
  | RAsOf k t => TAsOf k t
  | RList k => TList k
  end.

(** A call of the client. *)
Definition exec_rop (e : env) (f : Remote.fault) (op : rop) (s : Remote.V2Store) (r : router) : go (Remote.V2Store * router * ranswer) :=
  match op with
  | RPut k p src =>
      '(s, r, a) ← Remote.PutVersioned LookupByType LookupDescriptor e f k p src s r;
      Ret (s, r, match a with Ok q => RSeq q | Err _ => RErr end)
  | RAsOf k t =>
      '(s, r, a) ← Remote.GetAsOf LookupByType LookupDescriptor e f k t s r;
      Ret (s, r, match a with Ok v => RValue v | Err _ => RErr end)
  | RList k =>
      '(s, r, a) ← Remote.ListVersions LookupByType LookupDescriptor e f k s r;
      Ret (s, r, match a with Ok vs => RVersions vs | Err _ => RErr end)
  end.

(** A call on the abstract database, by its fault and by whether the client
    was [connected].  A call whose request and response get through -- a dial
    that would fail does no harm on an open connection -- is executed once and
    answered; an answer above the frame limit is an error, and above 2^32 bytes
    left open.  A failed dial and a lost request change nothing; a lost response
    costs the answer.  The last argument says whether the connection stays. *)
Definition reaches (f : Remote.fault) (connected : bool) : bool :=
  match f with Remote.NoFault => true | Remote.DialFails => connected | _ => false end.
Inductive rspec (e : env) (f : Remote.fault) (connected : bool) (D : tdb) (op : rop) : ranswer -> tdb -> bool -> Prop :=
  | r_done a D' : reaches f connected = true -> tspec D (top_of e op) a D' -> fits op a -> rspec e f connected D op (answer_of a) D' true
  | r_oversized a D' x stays : reaches f connected = true -> tspec D (top_of e op) a D' -> ~ fits op a ->
      (x = RErr /\ stays = false \/ 2 ^ 32 <= len (response_of op a).(Payload)) -> rspec e f connected D op x D' stays
  | r_lost : f = Remote.RequestLost \/ f = Remote.DialFails /\ connected = false -> rspec e f connected D op RErr D false
  | r_unheard a D' : f = Remote.ResponseLost -> tspec D (top_of e op) a D' -> rspec e f connected D op RErr D' false.

(** What a call must satisfy: its fields fit, the server's frame limit admits
    it, the guardrail is open and an agent keeps to proposals. *)
Definition call_ok (e : env) (op : rop) : Prop :=
  e.(Blocked) = false /\ 2 <= EffectiveMaxSize e.(MaxPackageSize) /\ v2_ok e.(MaxPackageSize) (request_of op) /\
  match op with
  | RPut k p s => fits32 k /\ fits32 p /\ fits32 s /\ (is_agent s = true -> IsProposalKey k = true)
  | RAsOf k t => fits32 k /\ is_s64 t
  | RList k => fits32 k
  end.

(** ** The server *)
Lemma handle_call e op c (r : router) ts a : call_ok e op -> r.(filter) = None -> exec_top (top_of e op) r.(temporal) = Ret (ts, a) ->
  exists r', HandleV2 LookupByType LookupDescriptor e (request_of op) c r =
      Ret (MkConn c.(tier) c.(cstate) (c.(sent) ++ [PackV2 (response_of op a)]), r') /\
    r'.(temporal) = ts /\ r'.(filter) = None.
Proof.
  intros (Hb & _ & _ & Hop) Hf H. destruct op as [k p s|k t|k]; cbn [top_of exec_top] in H.
  - apply go_inv in H as ([ts1 q] & H1 & H). injection H as <- <-. destruct Hop as (Hk & Hp & Hs & Hr).
    unfold HandleV2, handlePutVersioned. change (Opcode (Header (request_of (RPut k p s)))) with OpcodePutVersioned. rewrite Hb.
    change (Payload (request_of (RPut k p s))) with (EncodePutVersionedFrame k p s).
    cbn [Z.eqb orb Pos.eqb OpcodePutVersioned OpcodePut OpcodeDel OpcodeGet OpcodeScan OpcodeFlush OpcodeStat OpcodeBye].
    rewrite put_versioned_codec by done. cbn [mbind go_bind].
    replace (is_agent s && negb (IsProposalKey k)) with false by (destruct (is_agent s); [by rewrite Hr|done]).
    unfold run_filter. rewrite Hf. change (Type_ (Header (request_of (RPut k p s)))) with TypeUnspecified. rewrite H1. cbn [mbind go_bind].
    destruct q; eexists; (split; [reflexivity|]); done.
  - apply go_inv in H as ([ts1 v] & H1 & H). injection H as <- <-. destruct Hop as (Hk & Ht).
    unfold HandleV2, handleGetAsOf. change (Opcode (Header (request_of (RAsOf k t)))) with OpcodeGetAsOf.
    change (Payload (request_of (RAsOf k t))) with (EncodeAsOfFrame k t).
    cbn [Z.eqb orb Pos.eqb OpcodeGetAsOf OpcodePutVersioned OpcodePut OpcodeDel OpcodeGet OpcodeScan OpcodeFlush OpcodeStat OpcodeBye].
    rewrite as_of_codec by done. cbn [mbind go_bind]. cbn [count temporal]. rewrite H1. cbn [mbind go_bind].
    destruct v; eexists; (split; [reflexivity|]); done.
  - apply go_inv in H as ([ts1 vs] & H1 & H). injection H as <- <-.
    unfold HandleV2, handleListVersions. change (Opcode (Header (request_of (RList k)))) with OpcodeListVersions.
    change (Payload (request_of (RList k))) with (EncodeKeyOnlyFrame k).
    cbn [Z.eqb orb Pos.eqb OpcodeListVersions OpcodeGetAsOf OpcodePutVersioned OpcodePut OpcodeDel OpcodeGet OpcodeScan OpcodeFlush OpcodeStat OpcodeBye].
    rewrite key_frame_codec by done. cbn [mbind go_bind]. cbn [count temporal]. rewrite H1. cbn [mbind go_bind].
    eexists; (split; [reflexivity|]); done.
Qed.

(** ** The wire *)
Notation exchange := (Remote.exchange LookupByType LookupDescriptor).

Lemma queued_one (l : list bytes) x : concat (drop (length l) (l ++ [x])) = x.
Proof. rewrite drop_app_length. cbn. apply app_nil_r. Qed.

Lemma serve_call e op l (r : router) ts a : l.(Remote.usingV2) = true -> call_ok e op -> r.(filter) = None ->
  exec_top (top_of e op) r.(temporal) = Ret (ts, a) ->
  exists l' r', exchange e (PackV2 (request_of op)) l r = Ret (l', r', PackV2 (response_of op a)) /\
    l'.(Remote.usingV2) = true /\ r'.(temporal) = ts /\ r'.(filter) = None.
Proof.
  intros Hl Hok Hf H. destruct (handle_call e op l.(Remote.peer) r ts a Hok Hf H) as (r' & Eh & Et & Ef).
  destruct Hok as (_ & _ & Hv & _). destruct (decode_frame_v2 e.(MaxPackageSize) (request_of op) [] AtTimeout [] Hv) as (al & Ed).
  rewrite app_nil_r in Ed. eexists (Remote.MkLink true _), r'. split; [|by split].
  unfold Remote.exchange, Remote.serve, iteration. rewrite Hl, Ed. cbn [mbind go_bind draining]. rewrite Eh. cbn [mbind go_bind sent default].
  by rewrite queued_one.
Qed.

Lemma dial e f (r : router) : 2 <= EffectiveMaxSize e.(MaxPackageSize) -> f <> Remote.DialFails ->
  exists l, Remote.ensureConn LookupByType LookupDescriptor e f Remote.NewV2Store r = Ret (Some l, r) /\ l.(Remote.usingV2) = true.
Proof.
  intros Hm Hf. assert (v1_ok e.(MaxPackageSize) (hello AckEvery)) as Hok.
  { split; [done|]. split; [done|]. change (len (hello AckEvery).2) with 2. lia. }
  destruct (decode_frame e.(MaxPackageSize) (hello AckEvery) [] AtTimeout [] Hok) as (al & Ed). rewrite app_nil_r in Ed.
  destruct (client_reads_response AckEvery [] AtTimeout []) as (al' & Ec). rewrite app_nil_r in Ec.
  set (l := Remote.MkLink true (Remote.onNegotiate (BuildHelloResponseV2WithAck AckEvery) AckEvery (MkConn None None []))).
  assert (exchange e (frame (hello AckEvery)) Remote.new_link r = Ret (l, r, BuildHelloResponseV2WithAck AckEvery)) as Ex.
  { unfold Remote.exchange, Remote.serve, iteration. cbn [Remote.new_link Remote.usingV2]. rewrite Ed. cbn [mbind go_bind].
    rewrite server_probe. reflexivity. }
  exists l. split; [|done]. unfold Remote.ensureConn. cbn [Remote.NewV2Store Remote.connection]. rewrite probe_is_frame.
  destruct f; [|done| |]; rewrite Ex; cbn [mbind go_bind]; rewrite Ec; reflexivity.
Qed.

(** ** The client's reading of a response *)
Definition answer_ok (a : tanswer) : Prop :=
  match a with
  | ASeq (Some q) => is_u64 q
  | AVersion (Some v) => version_view_ok (view_of v)
  | AVersions vs => len vs < 2 ^ 32 /\ Forall (fun v => version_view_ok (view_of v)) vs
  | _ => True
  end.
Definition shaped (op : rop) (a : tanswer) : Prop :=
  match op, a with RPut _ _ _, ASeq _ | RAsOf _ _, AVersion _ | RList _, AVersions _ => True | _, _ => False end.

(** The end of a call, from the response on. *)
Definition conclude (op : rop) (resp : MessageV2) : go ranswer :=
  match op with
  | RPut _ _ _ =>
      Ret (if negb (resp.(Header).(Opcode) =? OpcodeOK) then RErr else if negb (len resp.(Payload) =? 8) then RErr else RSeq (get_le resp.(Payload)))
  | RAsOf _ _ => a ← Remote.read_version resp; Ret match a with Ok v => RValue v | Err _ => RErr end
  | RList _ =>
      if negb (resp.(Header).(Opcode) =? OpcodeOK) then Ret RErr
      else vs ← DecodeListVersionsResponse resp.(Payload); Ret match vs with None => RErr | Some vs => RVersions vs end
  end.

Lemma conclude_safe op resp : safe (conclude op resp).
Proof.
  destruct op; cbn [conclude]; [apply safe_ret| |].
  - unfold Remote.read_version. destruct (negb _).
    + destruct (err_payload_safe resp.(Payload)) as (er & ->). cbn [mbind go_bind]. destruct er as [[]|]; apply safe_ret.
    + destruct (version_entry_safe resp.(Payload)) as (v & ->). cbn [mbind go_bind]. destruct v as [[]|]; apply safe_ret.
  - destruct (negb _); [apply safe_ret|].
    destruct (list_versions_safe resp.(Payload)) as (v & ->). apply safe_ret.
Qed.

Lemma encode_view v : encode_version v = encode_version_view (view_of v).
Proof. done. Qed.

Lemma conclude_answer op a : shaped op a -> answer_ok a -> conclude op (response_of op a) = Ret (answer_of a).
Proof.
  destruct op as [k p src|k t|k], a as [q| | |vs|v|]; try done; intros _ Ha; cbn [conclude].
  - destruct q as [q|]; [|done]. cbn [response_of]. change (Header (frame_of ?o ?t ?c ?b)) with (MkHeader 0 o t c (u32 (len b))).
    change (Payload (frame_of OpcodeOK TypeUnspecified 1 (put_le 8 q))) with (put_le 8 q).
    cbn [Opcode Header frame_of NewMessageV2]. rewrite Z.eqb_refl. cbn [negb]. change (len (put_le 8 q) =? 8) with true. cbn [negb].
    cbn [answer_of]. by rewrite get_put_u64.
  - destruct v as [v|]; [|reflexivity]. cbn [response_of]. unfold Remote.read_version.
    change (Payload (frame_of OpcodeOK TypeUnspecified 1 (encode_version v))) with (encode_version v).
    cbn [Opcode Header frame_of NewMessageV2]. rewrite Z.eqb_refl. cbn [negb]. rewrite encode_view, <- (app_nil_r (encode_version_view _)).
    rewrite version_entry_codec by done. reflexivity.
  - cbn [response_of]. cbn [Opcode Header frame_of NewMessageV2 Payload]. rewrite Z.eqb_refl. cbn [negb].
    destruct Ha as [Hn Hv]. rewrite (map_ext encode_version (encode_version_view ∘ view_of)) by done.
    rewrite <- (map_map view_of encode_version_view). rewrite list_versions_codec; [reflexivity|unfold len in *; by rewrite length_map|].
    by apply Forall_map.
Qed.

(** ** Answers the client can read *)
Lemma len_encode_version v : len (encode_version v) = 20 + len v.(Temporal.Payload).
Proof. unfold encode_version, EncodeVersionEntry, Proto.len32. rewrite !len_app, !len_put_le. lia. Qed.

Lemma concat_elem {A} (f : A -> bytes) l x : x ∈ l -> len (f x) <= len (concat (map f l)).
Proof.
  intros H. induction H as [x l|x y l _ IH]; cbn [map concat]; rewrite len_app;
    [pose proof (len_nonneg (concat (map f l)))|pose proof (len_nonneg (f y))]; lia.
Qed.

Lemma view_ok (ts : TemporalStore (St := St)) D m l v : ts_ok ts D m -> v ∈ versions_of (hist D l) -> len v.(Temporal.Payload) < 2 ^ 32 ->
  version_view_ok (view_of v).
Proof.
  intros Ht Hin Hp. apply list_elem_of_lookup in Hin as [i Hi]. destruct (to_numbered _ _ _ Ht l i v Hi) as (_ & Hs & (Hn & _) & _).
  pose proof (to_short _ _ _ Ht l) as Hsh. assert (len (versions_of (hist D l)) <= next_seq (hist D l)) as Hl.
  { unfold versions_of, next_seq. rewrite len_app. destruct (orphan (hist D l)); [change (len (option_list _)) with 1|change (len (option_list _)) with 0]; lia. }
  apply lookup_lt_Some in Hi. unfold len in Hl. split; [unfold is_u64; cbn; lia|]. by split.
Qed.

Lemma answer_readable e op a (ts : TemporalStore (St := St)) D m D' : ts_ok ts D m -> tspec D (top_of e op) a D' -> fits op a ->
  shaped op a /\ answer_ok a.
Proof.
  intros Ht H Hf. destruct op as [k p src|k t|k]; cbn [top_of] in H; inversion H; subst; (split; [done|]); cbn [answer_ok]; try done.
  - pose proof (to_short _ _ _ Ht k). unfold is_u64. cbn. unfold next_seq in *. pose proof (len_nonneg (committed (hist D k))). lia.
  - destruct (AsOf _ t) as [v|] eqn:E; [|done]. unfold fits in Hf. cbn [response_of] in Hf.
    change (Payload (frame_of OpcodeOK TypeUnspecified 1 (encode_version v))) with (encode_version v) in Hf. rewrite len_encode_version in Hf.
    change hardMaxPackageSize with 268435456 in Hf. eapply view_ok; [exact Ht| |lia]. pose proof (AsOf_spec (versions_of (hist D' k)) t) as Hi. rewrite E in Hi. apply Hi.
  - unfold fits in Hf. cbn [response_of] in Hf.
    match type of Hf with len ?x <= _ => change x with (EncodeListVersionsResponse (map encode_version (versions_of (hist D' k)))) in Hf end.
    unfold EncodeListVersionsResponse in Hf. rewrite len_app, len_put_le in Hf. change hardMaxPackageSize with 268435456 in Hf. split.
    + assert (length (versions_of (hist D' k)) <= length (concat (map encode_version (versions_of (hist D' k)))))%nat as Hl.
      { apply concat_long. intros v. pose proof (len_encode_version v) as El. pose proof (len_nonneg v.(Temporal.Payload)). unfold len in *. lia. }
      unfold len in *. lia.
    + apply Forall_forall. intros v Hv. eapply view_ok; [exact Ht|exact Hv|]. pose proof (concat_elem encode_version _ _ Hv) as Hc.
      rewrite len_encode_version in Hc. lia.
Qed.

(** ** Calls *)
Definition connected (s : Remote.V2Store) : bool := match s.(Remote.connection) with Some _ => true | None => false end.

(** An answer above the frame limit is refused. *)
Lemma oversized_refused m : hardMaxPackageSize < len m.(Payload) < 2 ^ 32 -> m.(Header).(HDataLen) = u32 (len m.(Payload)) ->
  exists err rd, DecodeV2 0 (MkReader (PackV2 m) AtTimeout []) = Ret (Err err, rd).
Proof.
  intros Hl Hh. destruct (decode_v2_any 0 (MkReader (PackV2 m) AtTimeout [])) as (res & rd & -> & _ & H). destruct res as [m'|err]; [|by eexists _, _].
  exfalso. destruct H as [E Hok]. rewrite (packv2_is 0 m' Hok) in E. cbn [unread] in E. destruct Hok as (_ & _ & _ & _ & Ed & Hd & Hmax).
  unfold PackV2, header_bytes in E. rewrite <- !app_assoc in E.
  do 5 (apply app_inj_1 in E as [_ E]; [|by rewrite !length_put_le]). apply app_inj_1 in E as [E _]; [|by rewrite !length_put_le].
  pose proof (len_nonneg m'.(Payload)). pose proof (len_nonneg m.(Payload)). apply (f_equal get_le) in E. change (EffectiveMaxSize 0) with 268435456 in Hmax.
  rewrite !get_put_u32 in E by (unfold is_u32, u32; first [lia | apply Z.mod_pos_bound; lia]).
  rewrite u32_small in E by (unfold is_u32; lia). change hardMaxPackageSize with 268435456 in Hl. lia.
Qed.

Lemma exec_rop_eq e f op s (r : router) : exec_rop e f op s r =
  '(s, r, resp) ← Remote.roundTrip LookupByType LookupDescriptor e f (opcode_of op) (payload_of op) s r;
  match resp with None => Ret (s, r, RErr) | Some resp => a ← conclude op resp; Ret (s, r, a) end.
Proof.
  destruct op as [k p src|k t|k]; cbn [exec_rop opcode_of payload_of];
    unfold Remote.PutVersioned, Remote.GetAsOf, Remote.ListVersions;
    destruct (Remote.roundTrip _ _ _ _ _ _ _ _) as [[[s' r'] [resp|]]|]; cbn [mbind go_bind conclude]; try done.
  - destruct (negb (Opcode (Header resp) =? OpcodeOK)); [done|]. by destruct (negb (len (Payload resp) =? 8)).
  - by destruct (Remote.read_version resp) as [[]|].
  - destruct (negb (Opcode (Header resp) =? OpcodeOK)); [done|]. by destruct (DecodeListVersionsResponse (Payload resp)) as [[]|].
Qed.

Definition client_ok (s : Remote.V2Store) : Prop :=
  match s.(Remote.connection) with Some l => l.(Remote.usingV2) = true | None => True end.

Lemma ensure e f s (r : router) : client_ok s -> 2 <= EffectiveMaxSize e.(MaxPackageSize) ->
  exists ol, Remote.ensureConn LookupByType LookupDescriptor e f s r = Ret (ol, r) /\
    match ol with Some l => l.(Remote.usingV2) = true /\ (f = Remote.DialFails -> connected s = true) | None => f = Remote.DialFails /\ connected s = false end.
Proof.
  intros Hs Hm. destruct s as [[l|]]; [by exists (Some l)|].
  assert (f = Remote.DialFails \/ f <> Remote.DialFails) as [-> | Hf] by (destruct f; auto); [by exists None|].
  destruct (dial e f r Hm Hf) as (l & E & Hl). exists (Some l). split; [done|]. by split.
Qed.

Lemma response_ok op a : fits op a -> v2_ok 0 (response_of op a).
Proof.
  intros Hf. unfold fits in Hf. change (EffectiveMaxSize 0) with hardMaxPackageSize.
  assert (forall o b, o = OpcodeOK \/ o = OpcodeErr -> len b <= hardMaxPackageSize -> v2_ok 0 (frame_of o TypeUnspecified 1 b)) as H.
  { intros o b Ho Hb. change hardMaxPackageSize with 268435456 in Hb. pose proof (len_nonneg b).
    split; [done|]. split; [by destruct Ho as [-> | ->]|]. split; [done|]. split; [unfold is_u32; cbn; lia|].
    assert (len b < 2 ^ 32) as Hs by lia. split; [apply u32_small; split; [done|exact Hs]|]. split; [exact Hs|]. change (EffectiveMaxSize 0) with 268435456. exact Hb. }
  destruct a as [[q|]| | |vs|[v|]|]; apply H; auto.
Qed.

(** A call that ends well: it returns, its answer is one of the abstract
    database, and client and server are fit for the next call. *)
Definition settled e f b op D (n : Z) (res : go (Remote.V2Store * router * ranswer)) : Prop :=
  exists s' r' x D' m', res = Ret (s', r', x) /\ rspec e f b D op x D' (connected s') /\ client_ok s' /\ r'.(filter) = None /\
    ts_ok r'.(temporal) D' m' /\ raw_room r'.(temporal).(store) n /\
    forall l, next_seq (hist D' l) <= next_seq (hist D l) + 1.

Lemma response_length op a : (response_of op a).(Header).(HDataLen) = u32 (len (response_of op a).(Payload)).
Proof. by destruct a as [[q|]| | |vs|[v|]|]. Qed.

(** The rest of a round trip once the server has answered. *)
Lemma hear e f b op D D' m m' ts l (r' : router) a n : reaches f b = true -> ts_ok ts D m -> tspec D (top_of e op) a D' ->
  l.(Remote.usingV2) = true -> r'.(filter) = None -> ts_ok r'.(temporal) D' m' -> raw_room r'.(temporal).(store) n ->
  (forall k, next_seq (hist D' k) <= next_seq (hist D k) + 1) ->
  settled e f b op D n (
    '(resp, _) ← DecodeV2 0 (MkReader (PackV2 (response_of op a)) AtTimeout []);
    match resp with
    | Err _ => Ret (Remote.dropConn, r', RErr)
    | Ok resp => x ← conclude op resp; Ret (Remote.MkV2Store (Some l), r', x)
    end).
Proof.
  intros Hre Ht Hsp Hl Hf Ht' Hr Hm.
  assert (forall s' x, client_ok s' -> rspec e f b D op x D' (connected s') -> settled e f b op D n (Ret (s', r', x))) as Hfin.
  { intros s' x Hs' Hx. exists s', r', x, D', m'. by split_and!. }
  destruct (decide (len (response_of op a).(Payload) <= hardMaxPackageSize)) as [Hfit|Hfit].
  - destruct (decode_frame_v2 0 (response_of op a) [] AtTimeout [] (response_ok op a Hfit)) as (al & Ed). rewrite app_nil_r in Ed.
    rewrite Ed. cbn [mbind go_bind]. destruct (answer_readable e op a ts D m D' Ht Hsp Hfit) as [Hsh Hao].
    rewrite (conclude_answer op a Hsh Hao). cbn [mbind go_bind]. apply Hfin; [exact Hl|]. by apply r_done.
  - destruct (decide (len (response_of op a).(Payload) < 2 ^ 32)) as [Hlt|Hge].
    + destruct (oversized_refused (response_of op a)) as (err & rd & ->); [lia|apply response_length|]. cbn [mbind go_bind].
      apply Hfin; [done|]. eapply r_oversized; [done|exact Hsp|exact Hfit|by left].
    + destruct (decode_v2_any 0 (MkReader (PackV2 (response_of op a)) AtTimeout [])) as (res & rd & -> & _). cbn [mbind go_bind].
      assert (2 ^ 32 <= len (response_of op a).(Payload)) as Hbig by lia.
      destruct res as [resp|err]; [|apply Hfin; [done|]; eapply r_oversized; [done|exact Hsp|exact Hfit|by right]].
      destruct (conclude_safe op resp) as (x & ->). cbn [mbind go_bind]. apply Hfin; [exact Hl|]. eapply r_oversized; [done|exact Hsp|exact Hfit|by right].
Qed.

Lemma rop_ok e f op s (r : router) D m N n : client_ok s -> call_ok e op -> r.(filter) = None ->
  ts_ok r.(temporal) D m -> op_ok N (top_of e op) -> N < 2 ^ 64 -> (forall l, next_seq (hist D l) + 1 <= N) ->
  raw_room r.(temporal).(store) n -> op_cost (top_of e op) <= n ->
  settled e f (connected s) op D (n - op_cost (top_of e op)) (exec_rop e f op s r).
Proof.
  intros Hs Hc Hf Ht Hop HN Hl Hroom Hn. pose proof (op_cost_nonneg (top_of e op)) as Hcost.
  assert (raw_room r.(temporal).(store) (n - op_cost (top_of e op))) as Hroom' by (eapply raw_room_le; [exact Hroom|lia]).
  destruct (exec_top_ok r.(temporal) D m (top_of e op) N n Ht Hop HN Hl Hroom Hn) as (ts' & a & D' & m' & E & Hsp & Ht' & Hr' & Hmono).
  assert (forall s' x, client_ok s' -> rspec e f (connected s) D op x D (connected s') -> settled e f (connected s) op D (n - op_cost (top_of e op)) (Ret (s', r, x))) as Hno.
  { intros s' x Hs' Hx. exists s', r, x, D, m. split_and!; try done. intros; lia. }
  destruct (ensure e f s r Hs ltac:(by destruct Hc as (_ & ? & _))) as (ol & Ee & Hol).
  rewrite exec_rop_eq. unfold Remote.roundTrip. rewrite Ee. cbn [mbind go_bind].
  destruct ol as [l|]; [|destruct Hol as [-> Hcn]; apply Hno; [done|]; rewrite Hcn; apply r_lost; by right]. destruct Hol as [Hol Hdial].
  destruct (serve_call e op l r ts' a Hol Hc Hf E) as (l' & r' & Ex & Hl' & Et & Ef). subst ts'.
  change (PackV2 (NewMessageV2 (MkHeader 0 (opcode_of op) TypeUnspecified 1 0) (payload_of op))) with (PackV2 (request_of op)).
  pose proof (fun H => hear e f (connected s) op D D' m m' _ l' r' a _ H Ht Hsp Hl' Ef Ht' Hr' Hmono) as Hh.
  destruct f; [| |apply Hno; [done|apply r_lost; by left]|]; rewrite Ex; cbn [mbind go_bind].
  1,2: specialize (Hh ltac:(first [done | by apply Hdial])); by destruct (DecodeV2 0 _) as [[[resp|err] rd]|].
  exists Remote.dropConn, r', RErr, D', m'. split_and!; try done. by eapply r_unheard.
Qed.

(** ** Sessions *)
(** The calls of the client; [GetLatest] asks for its own time. *)
Inductive client_call := CPut (k payload source : bytes) | CAsOf (k : bytes) (t : Z) | CLatest (k : bytes) | CList (k : bytes).
Definition wire_of (e : env) (c : client_call) : rop :=
  match c with CPut k p s => RPut k p s | CAsOf k t => RAsOf k t | CLatest k => RAsOf k e.(now) | CList k => RList k end.
Definition exec_client (e : env) (f : Remote.fault) (c : client_call) (s : Remote.V2Store) (r : router) : go (Remote.V2Store * router * ranswer) :=
  match c with
  | CPut k p src => exec_rop e f (RPut k p src) s r
  | CAsOf k t => exec_rop e f (RAsOf k t) s r
  | CLatest k =>
      '(s, r, a) ← Remote.GetLatest LookupByType LookupDescriptor e f k s r;
      Ret (s, r, match a with Ok v => RValue v | Err _ => RErr end)
  | CList k => exec_rop e f (RList k) s r
  end.
Lemma exec_client_wire e f c s r : exec_client e f c s r = exec_rop e f (wire_of e c) s r.
Proof. by destruct c. Qed.

Record call := MkCall { at_ : env; meets : Remote.fault; asks : client_call }.
Definition wire_op (c : call) : rop := wire_of c.(at_) c.(asks).
Notation tops_of := (map (fun c => top_of c.(at_) (wire_op c))).

Fixpoint exec_calls (cs : list call) (s : Remote.V2Store) (r : router) : go (Remote.V2Store * router * list ranswer) :=
  match cs with
  | [] => Ret (s, r, [])
  | c :: cs => '(s, r, x) ← exec_client c.(at_) c.(meets) c.(asks) s r; '(s, r, l) ← exec_calls cs s r; Ret (s, r, x :: l)
  end.

Inductive rspecs : bool -> tdb -> list call -> list ranswer -> tdb -> Prop :=
  | rs_nil b D : rspecs b D [] [] D
  | rs_cons b D c x D' b' cs l D'' : rspec c.(at_) c.(meets) b D (wire_op c) x D' b' -> rspecs b' D' cs l D'' -> rspecs b D (c :: cs) (x :: l) D''.

Lemma exec_calls_ok cs s (r : router) D m N n : client_ok s -> r.(filter) = None -> ts_ok r.(temporal) D m ->
  Forall (fun c => call_ok c.(at_) (wire_op c) /\ op_ok N (top_of c.(at_) (wire_op c))) cs -> N < 2 ^ 64 ->
  (forall l, next_seq (hist D l) + len cs <= N) -> raw_room r.(temporal).(store) n -> total_cost (tops_of cs) <= n ->
  exists s' r' l D', exec_calls cs s r = Ret (s', r', l) /\ rspecs (connected s) D cs l D'.
Proof.
  revert s r D m n. induction cs as [|c cs IH]; intros s r D m n Hs Hf Ht Hok HN Hl Hroom Hn; cbn [exec_calls].
  { do 4 eexists. split; [done|constructor]. }
  apply Forall_cons in Hok as [[Hc Hop] Hok]. cbn [map total_cost fold_right] in Hn. fold (total_cost (tops_of cs)) in Hn.
  pose proof (total_cost_nonneg (tops_of cs)) as Hpos. rewrite exec_client_wire. fold (wire_op c).
  destruct (rop_ok c.(at_) c.(meets) (wire_op c) s r D m N n Hs Hc Hf Ht Hop HN) as (s1 & r1 & x & D1 & m1 & -> & Hsp & Hs1 & Hf1 & Ht1 & Hr1 & Hm1);
    [intros l; specialize (Hl l); len_lia|done|lia|].
  destruct (IH s1 r1 D1 m1 (n - op_cost (top_of c.(at_) (wire_op c))) Hs1 Hf1 Ht1 Hok HN) as (s2 & r2 & l2 & D2 & E & Hsp2);
    [intros l; specialize (Hl l); specialize (Hm1 l); len_lia|done|lia|].
  cbn [mbind go_bind]. rewrite E. cbn [mbind go_bind]. do 4 eexists. split; [done|by econstructor].
Qed.

(** C22: The remote store implements the abstract temporal database.  A client
    that starts unconnected runs any sequence of PutVersioned, GetAsOf,
    GetLatest and ListVersions, through dialling and negotiation, packing, the
    server's read loop and dispatch, the temporal store, and the decoding of
    the response.  Every call returns, none panics, and each is, by its fault:
    executed exactly once and answered as the abstract database answers, when
    the exchange gets through; without effect on the database, and an error,
    when the dial fails or the request is lost; executed, its answer an error,
    when the response is lost or above the client's frame limit.  Conditions:
    the raw store keeps its promises; the server runs without ingest filter and
    its guardrail is open; keys are non-empty and do not end in ':current';
    agents write proposals; the fields fit their widths and the request the
    server's frame limit.  ListPrefix is not among the calls. *)
Theorem remote_store_refines s m cs window N n :
  raw_rep s m -> (forall k, internal_key k = true -> m k = None) ->
  Forall (fun c => call_ok c.(at_) (wire_op c) /\ op_ok N (top_of c.(at_) (wire_op c))) cs ->
  len cs < N < 2 ^ 64 -> raw_room s n -> total_cost (tops_of cs) <= n ->
  exists s' r' l D', exec_calls cs Remote.NewV2Store (NewRouterV2 s None window) = Ret (s', r', l) /\
    rspecs false (MkTdb m (fun _ => no_hist)) cs l D'.
Proof.
  intros Hs Hi Hok HN Hroom Hn. apply (exec_calls_ok cs Remote.NewV2Store _ _ m N n); [exact I|done|by apply fresh_ok|done|lia| |done|done].
  intros k. cbn [hist]. change (next_seq no_hist) with 1. lia.
Qed.
End Remote.

(** A session with a lost request, a lost response and a redial. *)
Definition demo_calls : list call :=
  let call now f op := MkCall (MkEnv false now 0) f op in
  [call 10 Remote.NoFault (CPut (str "quote:1") (str "p1") (str "feed"));
   call 20 Remote.RequestLost (CPut (str "quote:1") (str "p2") (str "feed"));
   call 30 Remote.ResponseLost (CPut (str "quote:1") (str "p3") (str "feed"));
   call 40 Remote.DialFails (CList (str "quote:1"));
   call 40 Remote.NoFault (CAsOf (str "quote:1") 25);
   call 50 Remote.NoFault (CList (str "quote:1"));
   call 50 Remote.DialFails (CLatest (str "quote:1"));
   call 50 Remote.NoFault (CAsOf (str "quote:1") 5)].

Definition demo_session : go (Remote.V2Store * RouterV2 (St := mem_store) (F := unit) * list ranswer) :=
  exec_calls no_schema no_schema demo_calls Remote.NewV2Store (NewRouterV2 (MkMem ∅ []) None 3).

(** Discharges the concrete side conditions of a call. *)
Ltac closed_call :=
  repeat match goal with
  | |- _ /\ _ => split
  | |- forall _ : Z, _ => intros ? ?; cbv zeta
  | |- raw_accepts _ => exact I
  | |- _ -> IsProposalKey _ = true => intros H; vm_compute in H; discriminate H
  | |- True => exact I
  | |- _ => vm_compute; first [reflexivity | discriminate]
  end.

Lemma demo_calls_ok : Forall (fun c => call_ok c.(at_) (wire_op c) /\ op_ok (St := mem_store) 10 (top_of no_schema no_schema c.(at_) (wire_op c))) demo_calls.
Proof.
  unfold demo_calls. cbv zeta. repeat (apply Forall_cons; split; [cbn [wire_op wire_of at_ asks now top_of op_ok]; unfold call_ok, v2_ok, is_u32, is_s64, fits32; closed_call|]). constructor.
Qed.

Lemma remote_store_refines_witness :
  exists s' r' l D', demo_session = Ret (s', r', l) /\
    rspecs no_schema no_schema false (MkTdb (fun _ => None) (fun _ => no_hist)) demo_calls l D'.
Proof.
  apply (remote_store_refines no_schema no_schema (MkMem ∅ []) (fun _ => None) demo_calls 3 10 1000).
  - intros k. apply lookup_empty.
  - done.
  - apply demo_calls_ok.
  - by vm_compute.
  - exact I.
  - by vm_compute.
Defined.

Example demo_session_answers :
  match demo_session with Ret (_, _, l) => l | _ => [] end =
  [RSeq 1; RErr; RErr; RErr; RValue (Some (str "p1"));
   RVersions [MkVersionView 1 10 (str "p1"); MkVersionView 2 30 (str "p3")]; RValue (Some (str "p3")); RValue None].
Proof. vm_compute. reflexivity. Qed.
End RemoteSpec.
