(* ===== verification/RaftWal.v ===== *)
(** * Persistence of the consensus module ([raft/raft_wal.go] and the log codec
    of [raft/raft_snapshot.go])

    The files of a node, byte for byte: the state file, the log file and the
    snapshot directory; the operations that write them and the ones that read
    them back.  A write of the state file may fail at any byte, which the callers
    only log; operations on the log file and the snapshots succeed.  A reading
    loop stops at a short read as the code does. *)
From S2P Require Import Prelude Bytes.

Module RaftWal.

Record LogEntry := MkEntry { Index : Z; Term : Z; Command : bytes; IsSnapshot : bool }.
Record PersistData := MkPersist { CurrentTerm : Z; VotedFor : Z; PLog : list LogEntry; PLastIncludedIndex : Z; PLastIncludedTerm : Z }.

#[export] Instance entry_eq_dec : EqDecision LogEntry.
Proof. solve_decision. Defined.

(** A snapshot file; its name holds the index and the term, and no other file
    is written to the directory. *)
Record snap_file := MkSnap { snapIndex : Z; snapTerm : Z; content : bytes }.
(** How a write of the state file can go wrong: the file cannot be opened, or
    only [n] of its 24 bytes are written (all 24: the sync fails). *)
Inductive save_fault := OpenFails | WriteFails (n : nat).
(** The files, the outcomes of the next writes of the state file (success once
    the list is used up), and whether the last one succeeded. *)
Record RaftWAL := MkWAL {
  logFile : bytes; metaFile : option bytes; snapshots : list snap_file;
  faults : list (option save_fault); saved : bool }.
(** [NewRaftWAL] on an empty directory. *)
Definition NewRaftWAL : RaftWAL := MkWAL [] None [] [] true.

(** 0x52415654 *)
Definition MagicNumber : Z := 1380013652.
Definition Version : Z := 1.

(** The largest allocation: [make] panics above it and below zero. *)
Definition maxAlloc : Z := 2 ^ 48.
Definition make_ok (n : Z) : bool := (0 <=? n) && (n <=? maxAlloc).

(** [binary.Read] of [n] bytes; [None] is the error of a short read. *)
Definition read_uint (n : nat) (b : bytes) : option (Z * bytes) :=
  if (n <=? length b)%nat then Some (get_be (firstn n b), skipn n b) else None.
Definition read_int64 (b : bytes) : option (Z * bytes) :=
  match read_uint 8 b with Some (z, b) => Some (s64 z, b) | None => None end.

(** ** Term and vote *)
Definition state_bytes (term votedFor : Z) : bytes := put_be 4 MagicNumber ++ put_be 4 Version ++ put_be 8 term ++ put_be 8 votedFor.

(** The file is overwritten from its start, not truncated: [n] new bytes, then
    what the file held behind them. *)
Definition overwrite (n : nat) (b old : bytes) : bytes := firstn n b ++ skipn n old.
(** [false] is an error. *)
Definition SaveState (term votedFor : Z) (w : RaftWAL) : RaftWAL * bool :=
  let b := state_bytes term votedFor in
  let old := default [] w.(metaFile) in
  let leave meta ok := (MkWAL w.(logFile) meta w.(snapshots) (tail w.(faults)) ok, ok) in
  match mjoin (head w.(faults)) with
  | None => leave (Some (overwrite (length b) b old)) true
  | Some OpenFails => leave w.(metaFile) false
  | Some (WriteFails n) => leave (Some (overwrite (Nat.min n (length b)) b old)) false
  end.

Definition LoadState (w : RaftWAL) : result unit (Z * Z) :=
  match w.(metaFile) with
  | None => Ok (0, -1)
  | Some b =>
      match read_uint 4 b with
      | None => Err tt
      | Some (magic, b) =>
          if negb (magic =? MagicNumber) then Ok (0, -1) else
          match read_uint 4 b with
          | None => Err tt
          | Some (_, b) =>
              match read_int64 b with
              | None => Err tt
              | Some (term, b) => match read_int64 b with None => Err tt | Some (votedFor, _) => Ok (term, votedFor) end
              end
          end
      end
  end.

(** ** The log *)
Definition writeEntry (e : LogEntry) : bytes :=
  put_be 8 e.(Index) ++ put_be 8 e.(Term) ++ put_be 8 (len e.(Command)) ++ e.(Command).
Definition set_log (b : bytes) (w : RaftWAL) : RaftWAL := MkWAL b w.(metaFile) w.(snapshots) w.(faults) w.(saved).
Definition AppendLogs (entries : list LogEntry) (w : RaftWAL) : RaftWAL :=
  match entries with [] => w | _ => set_log (w.(logFile) ++ concat (map writeEntry entries)) w end.
Definition AppendLog (entry : LogEntry) (w : RaftWAL) : RaftWAL := set_log (w.(logFile) ++ writeEntry entry) w.

(** Every entry takes at least 24 bytes, so the length of the file is enough
    fuel. *)
Fixpoint load_logs (fuel : nat) (b : bytes) : go (list LogEntry) :=
  match fuel with
  | O => Ret []
  | S fuel =>
      match read_int64 b with
      | None => Ret []
      | Some (index, b) =>
          match read_int64 b with
          | None => Ret []
          | Some (term, b) =>
              match read_int64 b with
              | None => Ret []
              | Some (cmdLen, b) =>
                  if negb (make_ok cmdLen) then Panic
                  else if len b <? cmdLen then Ret []
                  else
                    l ← load_logs fuel (skipn (Z.to_nat cmdLen) b);
                    Ret (MkEntry index term (firstn (Z.to_nat cmdLen) b) false :: l)
              end
          end
      end
  end.
Definition LoadLogs (w : RaftWAL) : go (list LogEntry) := load_logs (length w.(logFile)) w.(logFile).

Definition Clear (w : RaftWAL) : RaftWAL := MkWAL [] None w.(snapshots) w.(faults) true.

Definition RebuildLogFile (entries : list LogEntry) (w : RaftWAL) : RaftWAL := AppendLogs entries (set_log [] w).
Definition TruncateLogs (lastIncludedIndex : Z) (w : RaftWAL) : go RaftWAL :=
  logs ← LoadLogs w;
  Ret (AppendLogs (List.filter (fun e => lastIncludedIndex <? e.(Index)) logs) (set_log [] w)).

(** ** Snapshots *)
Definition snap_name (f : snap_file) : bytes := show_dec f.(snapIndex) ++ str "_" ++ show_dec f.(snapTerm) ++ str ".snap".
(** [os.Create]: the directory is listed in the order of the names. *)
Fixpoint dir_put (f : snap_file) (dir : list snap_file) : list snap_file :=
  match dir with
  | [] => [f]
  | g :: dir' =>
      match compare (snap_name f) (snap_name g) with
      | Lt => f :: dir
      | Eq => f :: dir'
      | Gt => g :: dir_put f dir'
      end
  end.
Definition snap_bytes (data : bytes) (lastIncludedIndex lastIncludedTerm : Z) : bytes :=
  put_be 4 MagicNumber ++ put_be 4 Version ++ put_be 8 lastIncludedIndex ++ put_be 8 lastIncludedTerm ++ put_be 8 (len data) ++ data.
Definition SaveSnapshot (data : bytes) (lastIncludedIndex lastIncludedTerm : Z) (w : RaftWAL) : RaftWAL :=
  MkWAL w.(logFile) w.(metaFile)
    (dir_put (MkSnap lastIncludedIndex lastIncludedTerm (snap_bytes data lastIncludedIndex lastIncludedTerm)) w.(snapshots)) w.(faults) w.(saved).

(** The file with the greatest index above zero, the first of its name order. *)
Definition latest_snap (dir : list snap_file) : option snap_file :=
  fold_left (fun best f => if default 0 (snapIndex <$> best) <? f.(snapIndex) then Some f else best) dir None.

(** One [Read]: it fails at the end of the file and may leave the buffer's end
    at zero. *)
Definition read_data (dataLen : Z) (b : bytes) : go (option bytes) :=
  if negb (make_ok dataLen) then Panic
  else if (0 <? dataLen) && (len b =? 0) then Ret None
  else let got := firstn (Z.to_nat dataLen) b in Ret (Some (got ++ replicate (Z.to_nat dataLen - length got) Byte.x00)).

(** [Ok None] is nil data: there is no snapshot. *)
Definition LoadLatestSnapshot (w : RaftWAL) : go (result unit (option (bytes * Z * Z))) :=
  match latest_snap w.(snapshots) with
  | None => Ret (Ok None)
  | Some f =>
      let header :=
        match read_uint 4 f.(content) with
        | None => None
        | Some (magic, b) =>
            if negb (magic =? MagicNumber) then None else
            match read_uint 4 b with
            | None => None
            | Some (_, b) =>
                match read_int64 b with
                | None => None
                | Some (lastIndex, b) =>
                    match read_int64 b with
                    | None => None
                    | Some (lastTerm, b) => match read_int64 b with None => None | Some (dataLen, b) => Some (lastIndex, lastTerm, dataLen, b) end
                    end
                end
            end
        end in
      match header with
      | None => Ret (Err tt)
      | Some (lastIndex, lastTerm, dataLen, b) =>
          data ← read_data dataLen b;
          Ret match data with None => Err tt | Some data => Ok (Some (data, lastIndex, lastTerm)) end
      end
  end.

Definition DeleteOldSnapshots (keepIndex : Z) (w : RaftWAL) : RaftWAL :=
  MkWAL w.(logFile) w.(metaFile) (List.filter (fun f => negb (f.(snapIndex) <? keepIndex)) w.(snapshots)) w.(faults) w.(saved).

(** ** Everything *)
Definition SavePersist (data : PersistData) (w : RaftWAL) : RaftWAL * bool :=
  let '(w, ok) := SaveState data.(CurrentTerm) data.(VotedFor) w in
  if ok then (AppendLogs data.(PLog) (set_log [] w), true) else (w, false).

Definition LoadPersist (w : RaftWAL) : go (result unit PersistData) :=
  match LoadState w with
  | Err e => Ret (Err e)
  | Ok (term, votedFor) =>
      logs ← LoadLogs w;
      snap ← LoadLatestSnapshot w;
      Ret (Ok match snap with
              | Ok (Some (_, lastIndex, lastTerm)) => MkPersist term votedFor logs lastIndex lastTerm
              | _ => MkPersist term votedFor logs 0 0
              end)
  end.

(** ** The data of a snapshot: serialized log entries *)
Definition SerializeLogEntries (entries : list LogEntry) : bytes :=
  match entries with [] => [] | _ => put_be 4 (len entries) ++ concat (map writeEntry entries) end.

(** The loop over the announced count; [offset + cmdLen] is an [int], so a
    length of 2^63 or more is negative and passes the test. *)
Fixpoint deserialize (count : nat) (data : bytes) (offset : Z) : go (list LogEntry) :=
  match count with
  | O => Ret []
  | S count =>
      if len data <? offset + 24 then Ret [] else
      a ← slice data offset (offset + 8);
      b ← slice data (offset + 8) (offset + 16);
      c ← slice data (offset + 16) (offset + 24);
      let cmdLen := s64 (get_be c) in
      let offset := offset + 24 in
      if len data <? s64 (offset + cmdLen) then Ret []
      else if negb (make_ok cmdLen) then Panic
      else
        cmd ← slice data offset (offset + cmdLen);
        l ← deserialize count data (offset + cmdLen);
        Ret (MkEntry (s64 (get_be a)) (s64 (get_be b)) cmd false :: l)
  end.
(** At most [len data / 24] entries are read: the count is cut there. *)
Definition DeserializeLogEntries (data : bytes) : go (list LogEntry) :=
  if len data <? 4 then Ret []
  else
    c ← slice data 0 4;
    deserialize (Z.to_nat (Z.min (get_be c) (len data))) data 4.

(** ** Reading back what was written *)
Definition entry_ok (e : LogEntry) : Prop :=
  is_s64 e.(Index) /\ is_s64 e.(Term) /\ len e.(Command) <= maxAlloc /\ e.(IsSnapshot) = false.
Notation log_bytes l := (concat (map writeEntry l)).

Lemma read_uint_put n z rest : read_uint n (put_be n z ++ rest) = Some (z mod 2 ^ (8 * Z.of_nat n), rest).
Proof.
  unfold read_uint. rewrite length_app, length_put_be, leb_correct by lia. rewrite firstn_app, skipn_app, length_put_be, Nat.sub_diag.
  rewrite firstn_all2, skipn_all2 by (rewrite length_put_be; lia). cbn [firstn skipn app]. by rewrite app_nil_r, get_put_be.
Qed.

Lemma read_int64_put z rest : is_s64 z -> read_int64 (put_be 8 z ++ rest) = Some (z, rest).
Proof. intros H. unfold read_int64. rewrite read_uint_put. change (z mod 2 ^ (8 * Z.of_nat 8)) with (u64 z). by rewrite s64_u64. Qed.

Lemma length_entry e : (24 <= length (writeEntry e))%nat.
Proof. unfold writeEntry. rewrite !length_app, !length_put_be. lia. Qed.

Lemma load_logs_app fuel l : Forall entry_ok l -> (length (log_bytes l) <= fuel)%nat -> load_logs fuel (log_bytes l) = Ret l.
Proof.
  revert fuel. induction l as [|e l IH]; intros fuel Hok Hf; [by destruct fuel|]. apply Forall_cons in Hok as [(Hi & Ht & Hc & Hs) Hok].
  cbn [map concat] in *. rewrite length_app in Hf. pose proof (length_entry e). destruct fuel as [|fuel]; [lia|]. cbn [load_logs].
  change (writeEntry e) with (put_be 8 e.(Index) ++ put_be 8 e.(Term) ++ put_be 8 (len e.(Command)) ++ e.(Command)).
  rewrite <- !app_assoc. rewrite (read_int64_put e.(Index)) by done. rewrite (read_int64_put e.(Term)) by done.
  pose proof (len_nonneg e.(Command)). assert (is_s64 (len e.(Command))) by (unfold is_s64, maxAlloc in *; lia).
  rewrite read_int64_put by done. replace (make_ok (len e.(Command))) with true by (unfold make_ok; lia). cbn [negb].
  rewrite len_app. rewrite (proj2 (Z.ltb_ge _ _)) by (pose proof (len_nonneg (log_bytes l)); lia).
  rewrite to_nat_len. rewrite drop_app_length, take_app_length, IH by (done || lia). cbn [mbind go_bind]. destruct e; cbn in *. by rewrite Hs.
Qed.

Lemma LoadLogs_ok w l : w.(logFile) = log_bytes l -> Forall entry_ok l -> LoadLogs w = Ret l.
Proof. intros E H. unfold LoadLogs. rewrite E. by apply load_logs_app. Qed.

Lemma LoadState_ok w term votedFor : w.(metaFile) = Some (state_bytes term votedFor) -> is_s64 term -> is_s64 votedFor ->
  LoadState w = Ok (term, votedFor).
Proof.
  intros E Ht Hv. unfold LoadState. rewrite E. unfold state_bytes. rewrite read_uint_put. change (MagicNumber mod _ =? MagicNumber) with true. cbn [negb].
  rewrite read_uint_put, read_int64_put by done. rewrite <- (app_nil_r (put_be 8 votedFor)). by rewrite read_int64_put.
Qed.

(** ** Snapshot files *)
Lemma latest_snap_from dir best f : f ∈ dir \/ best = Some f -> 0 < f.(snapIndex) ->
  (forall g, g ∈ dir \/ best = Some g -> g = f \/ g.(snapIndex) < f.(snapIndex)) ->
  fold_left (fun best f => if default 0 (snapIndex <$> best) <? f.(snapIndex) then Some f else best) dir best = Some f.
Proof.
  revert best. induction dir as [|g dir IH]; intros best Hf Hpos Hall; cbn [fold_left]; [by destruct Hf as [?%elem_of_nil | ?]|].
  apply IH; [|done|].
  - destruct Hf as [[-> | Hin]%elem_of_cons | ->]; [|by left|].
    + destruct best as [h|]; cbn [default fmap option_fmap option_map] in *; [|right; by replace (0 <? g.(snapIndex)) with true by lia].
      destruct (Hall h) as [-> | Hlt]; [by right| |]; right; [by destruct (_ <? _)|]. cbn. by replace (_ <? _) with true by lia.
    + cbn. destruct (Hall g) as [-> | Hlt]; [left; apply elem_of_cons; by left|right; by destruct (_ <? _)|].
      right. by replace (_ <? _) with false by lia.
  - intros h [Hh | Hh]; [apply Hall; left; apply elem_of_cons; by right|].
    destruct (_ <? _); [|apply Hall; by right]. injection Hh as <-. apply Hall. left. apply elem_of_cons. by left.
Qed.

Lemma dir_put_self f dir : f ∈ dir_put f dir.
Proof. induction dir as [|g dir IH]; cbn [dir_put]; [|destruct (compare _ _)]; apply elem_of_cons; [by left|by left|by left|by right]. Qed.
Lemma dir_put_elem f dir g : g ∈ dir_put f dir -> g = f \/ g ∈ dir.
Proof.
  induction dir as [|h dir IH]; cbn [dir_put]; [by intros ->%list_elem_of_singleton; left|].
  destruct (compare _ _); rewrite !elem_of_cons; tauto.
Qed.

Lemma LoadLatestSnapshot_ok w data i t : latest_snap w.(snapshots) = Some (MkSnap i t (snap_bytes data i t)) ->
  is_s64 i -> is_s64 t -> len data <= maxAlloc -> LoadLatestSnapshot w = Ret (Ok (Some (data, i, t))).
Proof.
  intros E Hi Ht Hd. pose proof (len_nonneg data). unfold LoadLatestSnapshot. rewrite E. cbn [content]. unfold snap_bytes.
  rewrite read_uint_put. change (MagicNumber mod _ =? MagicNumber) with true. cbn [negb].
  rewrite read_uint_put, (read_int64_put i), (read_int64_put t), read_int64_put by (done || (unfold is_s64, maxAlloc in *; lia)).
  unfold read_data. replace (make_ok (len data)) with true by (unfold make_ok; lia). cbn [negb].
  replace ((0 <? len data) && (len data =? 0)) with false by lia. rewrite to_nat_len, firstn_all, Nat.sub_diag. cbn [replicate mbind go_bind].
  by rewrite app_nil_r.
Qed.

(** ** What the files promise

    The state a node gets back: the term and vote saved last, the log as it was
    appended to, truncated or rebuilt, and the newest snapshot. *)
Record durable := MkDurable { dTerm : Z; dVote : Z; dLog : list LogEntry; dSnap : option (bytes * Z * Z) }.
Definition blank : durable := MkDurable 0 (-1) [] None.

Inductive wal_op :=
  | OSaveState (term votedFor : Z)
  | OAppendLog (e : LogEntry)
  | OAppendLogs (l : list LogEntry)
  | OTruncateLogs (i : Z)
  | ORebuildLogFile (l : list LogEntry)
  | OSavePersist (data : PersistData)
  | OSaveSnapshot (data : bytes) (i t : Z)
  | ODeleteOldSnapshots (i : Z)
  | OClear.

Definition exec_wal (op : wal_op) (w : RaftWAL) : go RaftWAL :=
  match op with
  | OSaveState t v => Ret (SaveState t v w).1
  | OAppendLog e => Ret (AppendLog e w)
  | OAppendLogs l => Ret (AppendLogs l w)
  | OTruncateLogs i => TruncateLogs i w
  | ORebuildLogFile l => Ret (RebuildLogFile l w)
  | OSavePersist d => Ret (SavePersist d w).1
  | OSaveSnapshot d i t => Ret (SaveSnapshot d i t w)
  | ODeleteOldSnapshots i => Ret (DeleteOldSnapshots i w)
  | OClear => Ret (Clear w)
  end.
Definition set_dlog (l : list LogEntry) (d : durable) : durable := MkDurable d.(dTerm) d.(dVote) l d.(dSnap).
Definition spec_wal (op : wal_op) (d : durable) : durable :=
  match op with
  | OSaveState t v => MkDurable t v d.(dLog) d.(dSnap)
  | OAppendLog e => set_dlog (d.(dLog) ++ [e]) d
  | OAppendLogs l => set_dlog (d.(dLog) ++ l) d
  | OTruncateLogs i => set_dlog (List.filter (fun e => i <? e.(Index)) d.(dLog)) d
  | ORebuildLogFile l => set_dlog l d
  | OSavePersist p => MkDurable p.(CurrentTerm) p.(VotedFor) p.(PLog) d.(dSnap)
  | OSaveSnapshot x i t => MkDurable d.(dTerm) d.(dVote) d.(dLog) (Some (x, i, t))
  | ODeleteOldSnapshots _ => d
  | OClear => MkDurable 0 (-1) [] d.(dSnap)
  end.
Definition snap_index (d : durable) : Z := match d.(dSnap) with Some (_, i, _) => i | None => 0 end.
(** The values fit their widths; snapshots advance; only older ones are
    deleted. *)
Definition wal_op_ok (d : durable) (op : wal_op) : Prop :=
  match op with
  | OSaveState t v => is_s64 t /\ is_s64 v
  | OAppendLog e => entry_ok e
  | OAppendLogs l | ORebuildLogFile l => Forall entry_ok l
  | OSavePersist p => is_s64 p.(CurrentTerm) /\ is_s64 p.(VotedFor) /\ Forall entry_ok p.(PLog)
  | OSaveSnapshot x i t => snap_index d < i < 2 ^ 63 /\ is_s64 t /\ len x <= maxAlloc
  | ODeleteOldSnapshots i => i <= snap_index d
  | _ => True
  end.

Record files_hold (w : RaftWAL) (d : durable) : Prop := {
  fh_faults : w.(faults) = [];
  fh_state : match w.(metaFile) with None => d.(dTerm) = 0 /\ d.(dVote) = -1 | Some b => b = state_bytes d.(dTerm) d.(dVote) end;
  fh_s64 : is_s64 d.(dTerm) /\ is_s64 d.(dVote);
  fh_log : w.(logFile) = log_bytes d.(dLog);
  fh_entries : Forall entry_ok d.(dLog);
  fh_snap : match d.(dSnap) with
            | None => w.(snapshots) = []
            | Some (x, i, t) =>
                0 < i < 2 ^ 63 /\ is_s64 t /\ len x <= maxAlloc /\ let f := MkSnap i t (snap_bytes x i t) in
                f ∈ w.(snapshots) /\ forall g, g ∈ w.(snapshots) -> g = f \/ g.(snapIndex) < i
            end }.

Lemma blank_files : files_hold NewRaftWAL blank.
Proof. split; cbn; [done|done|split; unfold is_s64; lia|done|constructor|done]. Qed.

Lemma length_state t v : length (state_bytes t v) = 24%nat.
Proof. unfold state_bytes. by rewrite !length_app, !length_put_be. Qed.

Lemma overwrite_all b old : (length old <= length b)%nat -> overwrite (length b) b old = b.
Proof. intros H. unfold overwrite. rewrite firstn_all, skipn_all2 by done. apply app_nil_r. Qed.

(** A save that succeeds replaces whatever was in the file. *)
Lemma save_succeeds t v w : mjoin (head w.(faults)) = None -> (length (default [] w.(metaFile)) <= 24)%nat ->
  SaveState t v w = (MkWAL w.(logFile) (Some (state_bytes t v)) w.(snapshots) (tail w.(faults)) true, true).
Proof. intros Hf Hl. unfold SaveState. rewrite Hf, overwrite_all; [done|]. by rewrite length_state. Qed.

Lemma files_meta_length w d : files_hold w d -> (length (default [] w.(metaFile)) <= 24)%nat.
Proof. intros H. pose proof (fh_state w d H) as Hs. destruct w.(metaFile); cbn; [|lia]. subst. by rewrite length_state. Qed.

Lemma append_bytes l w : (AppendLogs l w).(logFile) = w.(logFile) ++ log_bytes l /\
  (AppendLogs l w).(metaFile) = w.(metaFile) /\ (AppendLogs l w).(snapshots) = w.(snapshots) /\
  (AppendLogs l w).(faults) = w.(faults) /\ (AppendLogs l w).(saved) = w.(saved).
Proof. destruct l; cbn [AppendLogs]; [|done]. cbn. by rewrite app_nil_r. Qed.

(** The log is replaced, nothing else. *)
Lemma files_set_log w w' d l : files_hold w d -> w'.(logFile) = log_bytes l -> w'.(metaFile) = w.(metaFile) ->
  w'.(snapshots) = w.(snapshots) -> w'.(faults) = w.(faults) -> Forall entry_ok l -> files_hold w' (set_dlog l d).
Proof. intros [H0 H1 H2 H3 H4 H5] E1 E2 E3 E4 Hl. split; cbn [set_dlog dTerm dVote dLog dSnap]; rewrite ?E2, ?E3, ?E4; done. Qed.

Lemma files_save_state w d t v : files_hold w d -> is_s64 t -> is_s64 v ->
  exists w', SaveState t v w = (w', true) /\ files_hold w' (MkDurable t v d.(dLog) d.(dSnap)).
Proof.
  intros H Ht Hv. pose proof (files_meta_length w d H) as Hl. pose proof H as [H0 H1 H2 H3 H4 H5].
  rewrite (save_succeeds t v w) by (rewrite ?H0; done). eexists. split; [done|]. split; cbn; rewrite ?H0; done.
Qed.

Lemma exec_wal_ok op w d : files_hold w d -> wal_op_ok d op -> exists w', exec_wal op w = Ret w' /\ files_hold w' (spec_wal op d).
Proof.
  intros H Hop. destruct op as [t v|e|l|i|l|p|x i t|i|]; cbn [exec_wal spec_wal wal_op_ok] in *.
  - destruct Hop as [Ht Hv]. destruct (files_save_state w d t v H Ht Hv) as (w' & -> & H'). by exists w'.
  - eexists. split; [done|]. eapply files_set_log; [done| |done|done|done|].
    + cbn. rewrite (fh_log _ _ H), map_app, concat_app. cbn. by rewrite app_nil_r.
    + apply Forall_app. split; [by apply (fh_entries _ _ H)|by apply Forall_singleton].
  - destruct (append_bytes l w) as (E1 & E2 & E3 & E4 & _). eexists. split; [done|]. eapply files_set_log; [done| |done|done|done|].
    + by rewrite E1, (fh_log _ _ H), map_app, concat_app.
    + apply Forall_app. split; [by apply (fh_entries _ _ H)|done].
  - unfold TruncateLogs. rewrite (LoadLogs_ok w d.(dLog)); [|apply H|apply H]. cbn [mbind go_bind].
    destruct (append_bytes (List.filter (fun e => i <? e.(Index)) d.(dLog)) (set_log [] w)) as (E1 & E2 & E3 & E4 & _). eexists. split; [done|]. eapply files_set_log; [done|exact E1|exact E2|exact E3|exact E4|].
    pose proof (fh_entries _ _ H) as He. rewrite Forall_forall in He |- *. intros e. rewrite list_elem_of_In, filter_In, <- list_elem_of_In. intros []. by apply He.
  - destruct (append_bytes l (set_log [] w)) as (E1 & E2 & E3 & E4 & _). eexists. split; [done|]. by eapply files_set_log.
  - destruct Hop as (Ht & Hv & Hl). unfold SavePersist. destruct (files_save_state w d _ _ H Ht Hv) as (w' & -> & H'). eexists. split; [done|]. cbn [fst].
    destruct (append_bytes p.(PLog) (set_log [] w')) as (E1 & E2 & E3 & E4 & _). exact (files_set_log _ _ _ _ H' E1 E2 E3 E4 Hl).
  - destruct Hop as (Hi & Ht & Hx). destruct H as [H0 H1 H2 H3 H4 H5]. eexists. split; [done|]. split; try done. cbn [dSnap SaveSnapshot snapshots].
    assert (forall g, g ∈ w.(snapshots) -> g.(snapIndex) <= snap_index d) as Hle.
    { intros g Hg. unfold snap_index. destruct d.(dSnap) as [[[y j] u]|]; [|rewrite H5 in Hg; by apply elem_of_nil in Hg].
      destruct H5 as (_ & _ & _ & _ & H5). destruct (H5 g Hg) as [-> | ?]; [done|lia]. }
    assert (0 <= snap_index d) as Hnn by (unfold snap_index; destruct d.(dSnap) as [[[y j] u]|]; [lia|done]).
    split; [lia|]. do 2 (split; [done|]). split; [apply dir_put_self|]. intros g [-> | Hg]%dir_put_elem; [by left|]. specialize (Hle g Hg). right. lia.
  - destruct H as [H0 H1 H2 H3 H4 H5]. eexists. split; [done|]. split; try done. cbn [DeleteOldSnapshots snapshots]. unfold snap_index in Hop.
    destruct d.(dSnap) as [[[y j] u]|]; [|by rewrite H5]. destruct H5 as (Hj & Hu & Hy & Hin & Hall). do 3 (split; [done|]). split.
    + apply list_elem_of_In, filter_In. split; [by apply list_elem_of_In|]. cbn [snapIndex]. by rewrite (proj2 (Z.ltb_ge _ _)).
    + intros g. rewrite list_elem_of_In, filter_In, <- list_elem_of_In. intros []. by apply Hall.
  - destruct H as [H0 H1 H2 H3 H4 H5]. eexists. split; [done|]. split; cbn; [done|done|split; unfold is_s64; lia|done|constructor|done].
Qed.

Definition recovered (d : durable) : PersistData :=
  match d.(dSnap) with
  | Some (_, i, t) => MkPersist d.(dTerm) d.(dVote) d.(dLog) i t
  | None => MkPersist d.(dTerm) d.(dVote) d.(dLog) 0 0
  end.

Lemma LoadLatestSnapshot_holds w d : files_hold w d -> LoadLatestSnapshot w = Ret (Ok d.(dSnap)).
Proof.
  intros [_ _ _ _ _ H5]. destruct d.(dSnap) as [[[x i] t]|].
  - destruct H5 as (Hi & Ht & Hx & Hin & Hall). apply LoadLatestSnapshot_ok; [|unfold is_s64; lia|done|done].
    apply latest_snap_from; [by left|cbn; lia|]. intros g [Hg | Hg]; [by apply Hall|done].
  - unfold LoadLatestSnapshot. by rewrite H5.
Qed.

Lemma LoadPersist_holds w d : files_hold w d -> LoadPersist w = Ret (Ok (recovered d)).
Proof.
  intros H. unfold LoadPersist, recovered. rewrite (LoadLogs_ok w d.(dLog)) by apply H. rewrite (LoadLatestSnapshot_holds w d H).
  assert (LoadState w = Ok (d.(dTerm), d.(dVote))) as ->.
  { pose proof (fh_state w d H) as Hs. pose proof (fh_s64 w d H) as []. destruct w.(metaFile) as [b|] eqn:E; [subst b; by apply LoadState_ok|].
    unfold LoadState. rewrite E. destruct Hs as [-> ->]. done. }
  cbn [mbind go_bind]. by destruct d.(dSnap) as [[[x i] t]|].
Qed.

Fixpoint exec_wals (ops : list wal_op) (w : RaftWAL) : go RaftWAL :=
  match ops with [] => Ret w | op :: ops => w ← exec_wal op w; exec_wals ops w end.
Fixpoint wal_ops_ok (d : durable) (ops : list wal_op) : Prop :=
  match ops with [] => True | op :: ops => wal_op_ok d op /\ wal_ops_ok (spec_wal op d) ops end.

(** C23: A consensus node gets back from its files exactly what it saved.  After
    any sequence, from an empty directory, of saved terms and votes, appended,
    truncated and rebuilt logs, full saves, snapshots, deletions of older ones
    and clearings, in which no file operation fails, loading succeeds and
    returns the term and vote saved last, the log as the operations left it, and
    the newest snapshot with its index, term and data.  Conditions: terms, votes
    and indexes are 64-bit, commands and snapshots are at most 2^48 bytes, the
    entries of the log are ordinary ones (an entry's IsSnapshot flag is not
    written to the file, so a flagged entry would come back without it; the code
    never puts one into the log), snapshot indexes increase, and only snapshots
    older than the newest are deleted. *)
Theorem raft_wal_refines ops : wal_ops_ok blank ops ->
  exists w, exec_wals ops NewRaftWAL = Ret w /\
    LoadPersist w = Ret (Ok (recovered (fold_left (fun d op => spec_wal op d) ops blank))) /\
    LoadLatestSnapshot w = Ret (Ok (fold_left (fun d op => spec_wal op d) ops blank).(dSnap)).
Proof.
  assert (forall w d, files_hold w d -> wal_ops_ok d ops ->
    exists w', exec_wals ops w = Ret w' /\ files_hold w' (fold_left (fun d op => spec_wal op d) ops d)) as H.
  { induction ops as [|op ops IH]; intros w d Hw Hops; [by exists w|]. destruct Hops as [Hop Hops].
    destruct (exec_wal_ok op w d Hw Hop) as (w1 & E & Hw1). destruct (IH w1 _ Hw1 Hops) as (w2 & E2 & Hw2).
    exists w2. cbn [exec_wals fold_left]. by rewrite E. }
  intros Hops. destruct (H NewRaftWAL blank blank_files Hops) as (w & E & Hw). exists w. split; [done|].
  split; [by apply LoadPersist_holds|by apply LoadLatestSnapshot_holds].
Qed.

Definition demo_ops : list wal_op :=
  let e i t := MkEntry i t (str "cmd") false in
  [OSaveState 1 0; OAppendLog (e 0 1); OAppendLogs [e 1 1; e 2 1]; OSaveState 2 (-1); ORebuildLogFile [e 0 1; e 1 2; e 2 2];
   OSaveSnapshot (str "abc") 1 2; ODeleteOldSnapshots 1; OTruncateLogs 1; OSaveSnapshot [] 2 2; ODeleteOldSnapshots 2].

Lemma raft_wal_refines_witness : exists w, exec_wals demo_ops NewRaftWAL = Ret w /\
  LoadPersist w = Ret (Ok (MkPersist 2 (-1) [MkEntry 2 2 (str "cmd") false] 2 2)) /\ LoadLatestSnapshot w = Ret (Ok (Some ([], 2, 2))).
Proof.
  apply (raft_wal_refines demo_ops). cbn [wal_ops_ok demo_ops wal_op_ok]. unfold entry_ok, is_s64, snap_index, maxAlloc.
  repeat first [split | apply Forall_cons | apply Forall_nil]; cbn; try done; lia.
Defined.

(** A record cut short by a crash stays in the file: the record appended after
    the restart is read as the rest of it, and the next restart loads an entry
    nobody appended. *)
Theorem raft_torn_tail_forges_entry :
  let torn := set_log (firstn 16 (writeEntry (MkEntry 7 3 (str "lost") false))) NewRaftWAL in
  LoadLogs torn = Ret [] /\
  LoadLogs (AppendLog (MkEntry 5 4 (str "next") false) torn) = Ret [MkEntry 7 3 [Byte.x00; Byte.x00; Byte.x00; Byte.x00; Byte.x00] false].
Proof. vm_compute. done. Qed.

(** ** Snapshot data *)
Lemma deserialize_ok l pre : Forall entry_ok l -> len (pre ++ log_bytes l) < 2 ^ 62 ->
  deserialize (length l) (pre ++ log_bytes l) (len pre) = Ret l.
Proof.
  revert pre. induction l as [|e l IH]; intros pre Hok Hlen; [done|]. apply Forall_cons in Hok as [(Hi & Ht & Hc & Hs) Hok].
  cbn [map concat length deserialize] in *. change (writeEntry e) with (put_be 8 e.(Index) ++ put_be 8 e.(Term) ++ put_be 8 (len e.(Command)) ++ e.(Command)) in *.
  rewrite <- !app_assoc in *. assert (is_s64 (len e.(Command))) as Hsl by (unfold is_s64, maxAlloc in *; len_lia).
  len_test. do 3 go_slice. change 64 with (8 * Z.of_nat 8). rewrite !get_put_be. change (?z mod 2 ^ (8 * Z.of_nat 8)) with (u64 z). rewrite !s64_u64 by done.
  rewrite (s64_small (len pre + 24 + len e.(Command))) by (unfold is_s64; len_lia). len_test.
  replace (make_ok (len e.(Command))) with true by (unfold make_ok; len_lia). cbn [negb]. go_slice.
  specialize (IH (pre ++ put_be 8 e.(Index) ++ put_be 8 e.(Term) ++ put_be 8 (len e.(Command)) ++ e.(Command)) Hok).
  rewrite <- !app_assoc in IH. replace (len pre + 24 + len e.(Command)) with (len (pre ++ put_be 8 e.(Index) ++ put_be 8 e.(Term) ++ put_be 8 (len e.(Command)) ++ e.(Command))) by len_lia.
  rewrite IH by done. cbn [mbind go_bind]. destruct e; cbn in *. by rewrite Hs.
Qed.

Lemma log_bytes_long l : len l <= len (log_bytes l).
Proof.
  induction l as [|e l IH]; [done|]. cbn [map concat]. pose proof (length_entry e). rewrite len_cons, len_app. unfold len in *. lia.
Qed.

(** Snapshot data decodes to the entries it was made of. *)
Theorem snapshot_data_roundtrip l : Forall entry_ok l -> len l < 2 ^ 32 -> len (log_bytes l) < 2 ^ 61 ->
  DeserializeLogEntries (SerializeLogEntries l) = Ret l.
Proof.
  intros Hok Hn Hl. destruct l as [|e l]; [done|]. unfold SerializeLogEntries, DeserializeLogEntries.
  pose proof (log_bytes_long (e :: l)) as Hlong. rewrite (proj2 (Z.ltb_ge _ _)) by len_lia. go_slice.
  rewrite get_put_be. change (2 ^ (8 * Z.of_nat 4)) with (2 ^ 32). rewrite Z.mod_small by (split; [apply len_nonneg|done]).
  rewrite Z.min_l by len_lia. rewrite to_nat_len. exact (deserialize_ok (e :: l) (put_be 4 (len (e :: l))) Hok ltac:(len_lia)).
Qed.

(** A length of 2^63 or more passes the bounds test and panics in [make]. *)
Theorem deserialize_huge_length_panics :
  DeserializeLogEntries (put_be 4 1 ++ put_be 8 1 ++ put_be 8 1 ++ put_be 8 (2 ^ 63)) = Panic.
Proof. vm_compute. done. Qed.
End RaftWal.
