(* ===== verification/Raft.v ===== *)
(** * The consensus module ([raft/])

    One node: its state, the handlers of incoming requests, the goroutines that
    handle replies, elections, replication, snapshots and recovery.  Every
    handler runs under the node's mutex, so it is one function of the state.
    Timers are not modelled: an election or a heartbeat may happen at any time.
    The mutex-free parts of an election (the channel of votes and the goroutine
    that counts them) are kept as data of the node. *)
From S2P Require Import Prelude Bytes RaftWal.
Import RaftWal.

Module Raft.
(** [config.G.RaftSnapshotThreshold] and [config.G.RaftSnapshotKeepEntries]. *)
Record config := MkConfig { RaftSnapshotThreshold : Z; RaftSnapshotKeepEntries : Z }.

Inductive State := Follower | Candidate | Leader.
#[export] Instance state_eq_dec : EqDecision State.
Proof. solve_decision. Defined.

(** An election in progress: the peers whose goroutine has not posted its vote
    yet, the posted votes that are still in the channel, and the counting
    goroutine with what it has received. *)
Record ballot := MkBallot { electionTerm : Z; asked : list nat; voteCh : list bool; heard : Z; votes : Z; counting : bool }.

(** [ApplyCh] is the list of the entries sent on it. *)
Record Raft := MkRaft {
  me : nat; peers : nat; state : State; votedFor : Z; currentTerm : Z;
  commitIndex : Z; lastApplied : Z; lastSnapshotIndex : Z;
  nextIndex : list Z; matchIndex : list Z; log : list LogEntry; ApplyCh : list LogEntry;
  LastIncludedIndex : Z; LastIncludedTerm : Z; wal : RaftWAL; currentLeader : Z; elections : list ballot }.

(** ** Updates *)
Definition set_role (s : State) (r : Raft) : Raft :=
  MkRaft r.(me) r.(peers) s r.(votedFor) r.(currentTerm) r.(commitIndex) r.(lastApplied) r.(lastSnapshotIndex)
    r.(nextIndex) r.(matchIndex) r.(log) r.(ApplyCh) r.(LastIncludedIndex) r.(LastIncludedTerm) r.(wal) r.(currentLeader) r.(elections).
Definition set_vote (term vote : Z) (r : Raft) : Raft :=
  MkRaft r.(me) r.(peers) r.(state) vote term r.(commitIndex) r.(lastApplied) r.(lastSnapshotIndex)
    r.(nextIndex) r.(matchIndex) r.(log) r.(ApplyCh) r.(LastIncludedIndex) r.(LastIncludedTerm) r.(wal) r.(currentLeader) r.(elections).
Definition set_leader (l : Z) (r : Raft) : Raft :=
  MkRaft r.(me) r.(peers) r.(state) r.(votedFor) r.(currentTerm) r.(commitIndex) r.(lastApplied) r.(lastSnapshotIndex)
    r.(nextIndex) r.(matchIndex) r.(log) r.(ApplyCh) r.(LastIncludedIndex) r.(LastIncludedTerm) r.(wal) l r.(elections).
Definition set_progress (commit applied : Z) (out : list LogEntry) (r : Raft) : Raft :=
  MkRaft r.(me) r.(peers) r.(state) r.(votedFor) r.(currentTerm) commit applied r.(lastSnapshotIndex)
    r.(nextIndex) r.(matchIndex) r.(log) out r.(LastIncludedIndex) r.(LastIncludedTerm) r.(wal) r.(currentLeader) r.(elections).
Definition set_indexes (next match_ : list Z) (r : Raft) : Raft :=
  MkRaft r.(me) r.(peers) r.(state) r.(votedFor) r.(currentTerm) r.(commitIndex) r.(lastApplied) r.(lastSnapshotIndex)
    next match_ r.(log) r.(ApplyCh) r.(LastIncludedIndex) r.(LastIncludedTerm) r.(wal) r.(currentLeader) r.(elections).
Definition set_entries (l : list LogEntry) (w : RaftWAL) (r : Raft) : Raft :=
  MkRaft r.(me) r.(peers) r.(state) r.(votedFor) r.(currentTerm) r.(commitIndex) r.(lastApplied) r.(lastSnapshotIndex)
    r.(nextIndex) r.(matchIndex) l r.(ApplyCh) r.(LastIncludedIndex) r.(LastIncludedTerm) w r.(currentLeader) r.(elections).
Definition set_elections (bs : list ballot) (r : Raft) : Raft :=
  MkRaft r.(me) r.(peers) r.(state) r.(votedFor) r.(currentTerm) r.(commitIndex) r.(lastApplied) r.(lastSnapshotIndex)
    r.(nextIndex) r.(matchIndex) r.(log) r.(ApplyCh) r.(LastIncludedIndex) r.(LastIncludedTerm) r.(wal) r.(currentLeader) bs.
Definition set_snapshot (lastSnapshot index term : Z) (r : Raft) : Raft :=
  MkRaft r.(me) r.(peers) r.(state) r.(votedFor) r.(currentTerm) r.(commitIndex) r.(lastApplied) lastSnapshot
    r.(nextIndex) r.(matchIndex) r.(log) r.(ApplyCh) index term r.(wal) r.(currentLeader) r.(elections).
Definition send (e : LogEntry) (r : Raft) : Raft := set_progress r.(commitIndex) r.(lastApplied) (r.(ApplyCh) ++ [e]) r.

(** ** Requests and replies *)
Record RequestVoteArgs := MkVoteArgs { VTerm : Z; CandidateID : Z; LastLogIndex : Z; LastLogTerm : Z }.
Record RequestVoteReply := MkVoteReply { VRTerm : Z; VoteGranted : bool }.
Record AppendEntriesArgs := MkAppendArgs { ATerm : Z; LeaderID : Z; PrevLogIndex : Z; PrevLogTerm : Z; Entries : list LogEntry; LeaderCommit : Z }.
Record AppendEntriesReply := MkAppendReply { ARTerm : Z; ASuccess : bool }.
Record InstallSnapshotArgs := MkSnapArgs { STerm : Z; SLeaderID : Z; SData : bytes; SLastIncludedIndex : Z; SLastIncludedTerm : Z }.
Record InstallSnapshotReply := MkSnapReply { SRTerm : Z; SSuccess : bool }.
Inductive rpc := RpcAppend (args : AppendEntriesArgs) | RpcSnapshot (args : InstallSnapshotArgs).

(** ** Accessors *)
Definition relIndex (r : Raft) (absIndex : Z) : Z :=
  let base := if 0 <? r.(LastIncludedIndex) then r.(LastIncludedIndex) else -1 in absIndex - base - 1.
(** [log[i]], for an index tested to be in range. *)
Definition at_rel (l : list LogEntry) (i : Z) : option LogEntry := if (0 <=? i) && (i <? len l) then l !! Z.to_nat i else None.
Definition getTermAt (r : Raft) (absIndex : Z) : Z :=
  if absIndex <? 0 then 0
  else if (absIndex =? r.(LastIncludedIndex)) && (0 <? r.(LastIncludedIndex)) then r.(LastIncludedTerm)
  else match at_rel r.(log) (relIndex r absIndex) with Some e => e.(Term) | None => 0 end.
Definition getLastLogIndex (r : Raft) : Z :=
  match last r.(log) with
  | Some e => e.(Index)
  | None => if 0 <? r.(LastIncludedIndex) then r.(LastIncludedIndex) else -1
  end.
(** The last index and term as [startElection] computes them. *)
Definition last_log (r : Raft) : Z * Z :=
  match last r.(log) with
  | Some e => (e.(Index), e.(Term))
  | None => if 0 <? r.(LastIncludedIndex) then (r.(LastIncludedIndex), r.(LastIncludedTerm)) else (-1, 0)
  end.

(** A failed save is only logged; the caller goes on as if it had succeeded. *)
Definition persistStateLocked (r : Raft) : Raft :=
  set_entries r.(log) (SaveState r.(currentTerm) r.(votedFor) r.(wal)).1 r.
Definition persistLocked (r : Raft) : Raft :=
  set_entries r.(log)
    (SavePersist (MkPersist r.(currentTerm) r.(votedFor) r.(log) r.(LastIncludedIndex) r.(LastIncludedTerm)) r.(wal)).1 r.

(** ** Applying *)
Fixpoint apply_loop (fuel : nat) (r : Raft) : Raft :=
  match fuel with
  | O => r
  | S fuel =>
      let r := set_progress r.(commitIndex) (r.(lastApplied) + 1) r.(ApplyCh) r in
      apply_loop fuel (match at_rel r.(log) (relIndex r r.(lastApplied)) with Some e => send e r | None => r end)
  end.
(** [for r.lastApplied < r.commitIndex] *)
Definition applyCommittedLogs (r : Raft) : Raft := apply_loop (Z.to_nat (r.(commitIndex) - r.(lastApplied))) r.

(** The index of the snapshot a goroutine is started for. *)
Definition checkSnapshotTrigger (cfg : config) (r : Raft) : option Z :=
  match r.(state) with
  | Leader =>
      let threshold := if cfg.(RaftSnapshotThreshold) <=? 0 then 10000 else cfg.(RaftSnapshotThreshold) in
      let keepEntries := if cfg.(RaftSnapshotKeepEntries) <=? 0 then 100 else cfg.(RaftSnapshotKeepEntries) in
      if threshold <? len r.(log) then
        let snapshotIndex := r.(commitIndex) - keepEntries in
        if r.(lastSnapshotIndex) <? snapshotIndex then Some snapshotIndex else None
      else None
  | _ => None
  end.

(** ** Replication *)
Definition replicas (r : Raft) (n : Z) : Z :=
  1 + len (List.filter (fun j => negb (j =? r.(me))%nat && (n <=? default 0 (r.(matchIndex) !! j))) (seq 0 r.(peers))).

(** The entries are visited from the last one back. *)
Fixpoint find_commit (l : list LogEntry) (r : Raft) : option Z :=
  match l with
  | [] => None
  | e :: l =>
      if e.(Index) <=? r.(commitIndex) then find_commit l r
      else if negb (e.(Term) =? r.(currentTerm)) then find_commit l r
      else if Z.of_nat r.(peers) / 2 <? replicas r e.(Index) then Some e.(Index)
      else find_commit l r
  end.
Definition updateCommitIndex (r : Raft) : Raft :=
  match r.(state) with
  | Leader =>
      match find_commit (rev r.(log)) r with
      | Some n => applyCommittedLogs (set_progress n r.(lastApplied) r.(ApplyCh) r)
      | None => r
      end
  | _ => r
  end.

Definition others (r : Raft) : list nat := List.filter (fun i => negb (i =? r.(me))%nat) (seq 0 r.(peers)).

(** The request to peer [i]: entries, or the snapshot when the peer is behind it.
    Nothing is sent when the snapshot cannot be loaded. *)
Definition request_for (r : Raft) (i : nat) : go (option rpc) :=
  let next := default 0 (r.(nextIndex) !! i) in
  let prevLogIndex := next - 1 in
  if (prevLogIndex <? r.(LastIncludedIndex)) && (0 <? r.(LastIncludedIndex)) then
    snap ← LoadLatestSnapshot r.(wal);
    Ret match snap with
        | Ok (Some (data, _, _)) => Some (RpcSnapshot (MkSnapArgs r.(currentTerm) (Z.of_nat r.(me)) data r.(LastIncludedIndex) r.(LastIncludedTerm)))
        | _ => None
        end
  else
    let prevLogTerm := getTermAt r prevLogIndex in
    let relativeStart := relIndex r next in
    let entries := if (0 <=? relativeStart) && (relativeStart <? len r.(log)) then skipn (Z.to_nat relativeStart) r.(log) else [] in
    Ret (Some (RpcAppend (MkAppendArgs r.(currentTerm) (Z.of_nat r.(me)) prevLogIndex prevLogTerm entries r.(commitIndex)))).

Fixpoint requests (r : Raft) (l : list nat) : go (list (nat * rpc)) :=
  match l with
  | [] => Ret []
  | i :: l => x ← request_for r i; xs ← requests r l; Ret match x with Some x => (i, x) :: xs | None => xs end
  end.
Definition replicateLog (r : Raft) : go (list (nat * rpc)) :=
  match r.(state) with Leader => requests r (others r) | _ => Ret [] end.

(** [None] is "not leader". *)
Definition AppendEntry (command : bytes) (r : Raft) : go (Raft * option Z * list (nat * rpc)) :=
  match r.(state) with
  | Leader =>
      let entry := MkEntry (getLastLogIndex r + 1) r.(currentTerm) command false in
      let r := set_entries (r.(log) ++ [entry]) (AppendLog entry r.(wal)) r in
      if (r.(peers) =? 1)%nat then
        Ret (applyCommittedLogs (set_progress entry.(Index) r.(lastApplied) r.(ApplyCh) r), Some entry.(Index), [])
      else
        msgs ← replicateLog r;
        Ret (r, Some entry.(Index), msgs)
  | _ => Ret (r, None, [])
  end.

(** A reply with a higher term: the node follows, and does not write it down. *)
Definition step_down (term : Z) (r : Raft) : Raft := set_role Follower (set_vote term (-1) r).

(** The goroutine of a sent AppendEntries; [None] is a failed call. *)
Definition append_reply (peerID : nat) (args : AppendEntriesArgs) (reply : option AppendEntriesReply) (r : Raft) : Raft :=
  let next := default 0 (r.(nextIndex) !! peerID) in
  match reply with
  | None => match r.(state) with Leader => set_indexes (<[peerID := next - 1]> r.(nextIndex)) r.(matchIndex) r | _ => r end
  | Some reply =>
      if r.(currentTerm) <? reply.(ARTerm) then step_down reply.(ARTerm) r
      else if reply.(ASuccess) then
        let matched := args.(PrevLogIndex) + len args.(Entries) in
        let r := if default 0 (r.(matchIndex) !! peerID) <? matched
                 then set_indexes (<[peerID := matched + 1]> r.(nextIndex)) (<[peerID := matched]> r.(matchIndex)) r else r in
        updateCommitIndex r
      else if 0 <? next then set_indexes (<[peerID := next - 1]> r.(nextIndex)) r.(matchIndex) r
      else r
  end.

(** The goroutine of a sent snapshot. *)
Definition snapshot_reply (peerID : nat) (reply : option InstallSnapshotReply) (r : Raft) : Raft :=
  match reply with
  | None => r
  | Some reply =>
      if reply.(SSuccess) then
        set_indexes (<[peerID := r.(LastIncludedIndex) + 1]> r.(nextIndex)) (<[peerID := r.(LastIncludedIndex)]> r.(matchIndex)) r
      else if r.(currentTerm) <? reply.(SRTerm) then step_down reply.(SRTerm) r
      else r
  end.

(** ** Elections *)
Definition startElection (r : Raft) : Raft * option RequestVoteArgs :=
  match r.(state) with
  | Leader => (r, None)
  | _ =>
      let r := persistStateLocked (set_vote (r.(currentTerm) + 1) (Z.of_nat r.(me)) (set_leader (-1) (set_role Candidate r))) in
      let '(lastLogIndex, lastLogTerm) := last_log r in
      let args := MkVoteArgs r.(currentTerm) (Z.of_nat r.(me)) lastLogIndex lastLogTerm in
      (set_elections (r.(elections) ++ [MkBallot r.(currentTerm) (others r) [] 0 1 true]) r, Some args)
  end.

(** The goroutine of peer [p] of election [k] posts its vote and ends. *)
Definition post (k p : nat) (vote : bool) (r : Raft) : Raft :=
  match r.(elections) !! k with
  | None => r
  | Some b =>
      set_elections (<[k := MkBallot b.(electionTerm) (List.filter (fun q => negb (q =? p)%nat) b.(asked)) (b.(voteCh) ++ [vote])
                            b.(heard) b.(votes) b.(counting)]> r.(elections)) r
  end.
(** What that goroutine does with the reply; [None] is a failed call. *)
Definition vote_reply (k p : nat) (reply : option RequestVoteReply) (r : Raft) : Raft :=
  match reply with
  | None => post k p false r
  | Some reply =>
      if r.(currentTerm) <? reply.(VRTerm) then post k p false (step_down reply.(VRTerm) r)
      else post k p ((reply.(VRTerm) =? r.(currentTerm)) && reply.(VoteGranted)) r
  end.

Definition becomeLeader (r : Raft) : Raft :=
  let nextLogIndex := getLastLogIndex r + 1 in
  set_indexes (replicate r.(peers) nextLogIndex) (replicate r.(peers) r.(LastIncludedIndex))
    (set_leader (Z.of_nat r.(me)) (set_role Leader r)).

Definition wonAsCandidate (term : Z) (r : Raft) : Raft :=
  if bool_decide (r.(state) = Candidate) && (r.(currentTerm) =? term) then becomeLeader r else r.

(** One round of the counting goroutine of election [k]: a vote from the
    channel, or the timeout ([None]).  Without other peers it wins at once. *)
Definition awaitVotes (k : nat) (event : option bool) (r : Raft) : Raft :=
  match r.(elections) !! k with
  | None => r
  | Some b =>
      let peerCount := Z.of_nat r.(peers) - 1 in
      let upd ch heard votes counting := set_elections (<[k := MkBallot b.(electionTerm) b.(asked) ch heard votes counting]> r.(elections)) r in
      if peerCount =? 0 then wonAsCandidate b.(electionTerm) (upd b.(voteCh) b.(heard) b.(votes) false)
      else
        match event with
        | Some voteGranted =>
            let heard := b.(heard) + 1 in
            let votes := if voteGranted then b.(votes) + 1 else b.(votes) in
            let won := voteGranted && (Z.of_nat r.(peers) / 2 <? votes) in
            let r := upd (tail b.(voteCh)) heard votes (negb won && (heard <? peerCount)) in
            if won then wonAsCandidate b.(electionTerm) r else r
        | None =>
            let r := upd b.(voteCh) b.(heard) b.(votes) false in
            if bool_decide (r.(state) = Candidate) && (r.(currentTerm) =? b.(electionTerm))
            then set_role Follower (set_vote r.(currentTerm) (-1) r) else r
        end
  end.

(** ** Incoming requests *)
Definition isLogUpToDate (r : Raft) (candidateLastIndex candidateLastTerm : Z) : bool :=
  if (len r.(log) =? 0) && (r.(LastIncludedIndex) =? 0) then true
  else
    let '(lastIndex, lastTerm) :=
      match last r.(log) with Some e => (e.(Index), e.(Term)) | None => (r.(LastIncludedIndex), r.(LastIncludedTerm)) end in
    if lastTerm <? candidateLastTerm then true
    else (candidateLastTerm =? lastTerm) && (lastIndex <=? candidateLastIndex).

Definition RequestVote (args : RequestVoteArgs) (r : Raft) : Raft * RequestVoteReply :=
  if args.(VTerm) <? r.(currentTerm) then (r, MkVoteReply r.(currentTerm) false)
  else
    let r := if r.(currentTerm) <? args.(VTerm) then persistStateLocked (set_role Follower (set_vote args.(VTerm) (-1) r)) else r in
    let votedForMe := (r.(votedFor) =? -1) || (r.(votedFor) =? args.(CandidateID)) in
    if votedForMe && isLogUpToDate r args.(LastLogIndex) args.(LastLogTerm) then
      let r := persistStateLocked (set_vote r.(currentTerm) args.(CandidateID) r) in (r, MkVoteReply r.(currentTerm) true)
    else (r, MkVoteReply r.(currentTerm) false).

(** Does the log hold the entry before the new ones? *)
Definition prev_matches (args : AppendEntriesArgs) (r : Raft) : bool :=
  if args.(PrevLogIndex) <? 0 then true
  else if (args.(PrevLogIndex) =? r.(LastIncludedIndex)) && (0 <? r.(LastIncludedIndex)) then args.(PrevLogTerm) =? r.(LastIncludedTerm)
  else if r.(LastIncludedIndex) <? args.(PrevLogIndex) then
    match at_rel r.(log) (relIndex r args.(PrevLogIndex)) with Some e => e.(Term) =? args.(PrevLogTerm) | None => false end
  else false.

(** One received entry: the log, the entries to append to the file, and whether
    the file is rebuilt. *)
Definition merge_entry (r : Raft) (acc : list LogEntry * list LogEntry * bool) (entry : LogEntry) : list LogEntry * list LogEntry * bool :=
  let '(l, newEntries, needRebuild) := acc in
  let relativeIndex := relIndex r entry.(Index) in
  if relativeIndex <? 0 then acc
  else
    let '(l, needRebuild) :=
      match at_rel l relativeIndex with
      | Some old => if negb (old.(Term) =? entry.(Term)) then (firstn (Z.to_nat relativeIndex) l, true) else (l, needRebuild)
      | None => (l, needRebuild)
      end in
    if len l <=? relativeIndex then (l ++ [entry], newEntries ++ [entry], needRebuild) else (l, newEntries, needRebuild).

Definition AppendEntries (args : AppendEntriesArgs) (r : Raft) : Raft * AppendEntriesReply :=
  if args.(ATerm) <? r.(currentTerm) then (r, MkAppendReply r.(currentTerm) false)
  else
    let r := if r.(currentTerm) <? args.(ATerm) then persistStateLocked (set_vote args.(ATerm) (-1) r) else r in
    let r := set_leader args.(LeaderID) (set_role Follower r) in
    if negb (prev_matches args r) then (r, MkAppendReply r.(currentTerm) false)
    else
      let '(l, newEntries, needRebuild) := fold_left (merge_entry r) args.(Entries) (r.(log), [], false) in
      let r :=
        match args.(Entries) with
        | [] => set_entries l r.(wal) r
        | _ => persistStateLocked (set_entries l (if (needRebuild : bool) then RebuildLogFile l r.(wal) else AppendLogs newEntries r.(wal)) r)
        end in
      let r :=
        if r.(commitIndex) <? args.(LeaderCommit) then
          let lastLogIndex := match last r.(log) with Some e => e.(Index) | None => r.(LastIncludedIndex) end in
          applyCommittedLogs (set_progress (Z.min args.(LeaderCommit) lastLogIndex) r.(lastApplied) r.(ApplyCh) r)
        else r in
      (r, MkAppendReply r.(currentTerm) true).

(** ** Snapshots *)
(** The log after a snapshot at [index]: cut and renumbered. *)
Definition renumber (index : Z) (l : list LogEntry) : list LogEntry :=
  imap (fun i e => MkEntry (index + 1 + Z.of_nat i) e.(Term) e.(Command) e.(IsSnapshot)) l.
Definition cut_log (r : Raft) (index : Z) : list LogEntry :=
  let newLogStart := index + 1 - r.(LastIncludedIndex) in
  if (0 <=? newLogStart) && (newLogStart <=? len r.(log)) then renumber index (skipn (Z.to_nat newLogStart) r.(log)) else [].

(** The non-blocking send on [ApplyCh]: [room] says whether the channel had
    room. *)
Definition offer (room : bool) (e : LogEntry) (r : Raft) : Raft := if room then send e r else r.

(** [None] is an error. *)
Definition TakeSnapshot (room : bool) (index : Z) (r : Raft) : go (option Raft) :=
  if index <=? r.(lastSnapshotIndex) then Ret None
  else if r.(commitIndex) <? index then Ret None
  else
    let relativeEnd := index + 1 - r.(LastIncludedIndex) in
    let snapshotEntries := firstn (Z.to_nat relativeEnd) r.(log) in
    let term :=
      match last snapshotEntries with
      | Some e => e.(Term)
      | None => if index =? r.(LastIncludedIndex) then r.(LastIncludedTerm) else 0
      end in
    let data := SerializeLogEntries snapshotEntries in
    w ← TruncateLogs index (DeleteOldSnapshots index (SaveSnapshot data index term r.(wal)));
    let r := set_snapshot index index term (set_entries (cut_log r index) w r) in
    Ret (Some (persistStateLocked (offer room (MkEntry index term data true) r))).

Definition InstallSnapshot (room : bool) (args : InstallSnapshotArgs) (r : Raft) : go (Raft * InstallSnapshotReply) :=
  if args.(STerm) <? r.(currentTerm) then Ret (r, MkSnapReply r.(currentTerm) false)
  else
    let r := if r.(currentTerm) <? args.(STerm) then step_down args.(STerm) r else r in
    let index := args.(SLastIncludedIndex) in
    if index <=? r.(LastIncludedIndex) then Ret (r, MkSnapReply r.(currentTerm) false)
    else
      w ← TruncateLogs index (DeleteOldSnapshots index (SaveSnapshot args.(SData) index args.(SLastIncludedTerm) r.(wal)));
      let r := set_entries (cut_log r index) w r in
      let r := set_snapshot index index args.(SLastIncludedTerm) (set_progress index index r.(ApplyCh) r) in
      let r := persistStateLocked (offer room (MkEntry index args.(SLastIncludedTerm) args.(SData) true) r) in
      Ret (r, MkSnapReply r.(currentTerm) true).

(** ** Start *)
Definition readPersist (r : Raft) : go Raft :=
  data ← LoadPersist r.(wal);
  Ret match data with
      | Err _ => r
      | Ok d =>
          let r := set_vote d.(CurrentTerm) d.(VotedFor) (set_entries d.(PLog) r.(wal) r) in
          let i := d.(PLastIncludedIndex) in
          if 0 <? i then set_snapshot i i d.(PLastIncludedTerm) (set_progress i i r.(ApplyCh) r)
          else set_snapshot r.(lastSnapshotIndex) i d.(PLastIncludedTerm) r
      end.

Definition NewRaftGroup (peers me : nat) (w : RaftWAL) : go Raft :=
  let r := MkRaft me peers Follower (-1) 0 (-1) (-1) 0 (replicate peers 0) (replicate peers 0) [] [] 0 0 w (-1) [] in
  r ← readPersist r;
  if 0 <? r.(LastIncludedIndex) then
    snap ← LoadLatestSnapshot w;
    Ret match snap with Ok (Some (data, _, _)) => send (MkEntry r.(LastIncludedIndex) r.(LastIncludedTerm) data true) r | _ => r end
  else Ret r.

(** ** Client side *)
(** [LeaderHint], with peers by number. *)
Definition LeaderHint (r : Raft) : option Z :=
  match r.(state) with
  | Leader => Some (Z.of_nat r.(me))
  | _ => if (0 <=? r.(currentLeader)) && (r.(currentLeader) <? Z.of_nat r.(peers)) then Some r.(currentLeader) else None
  end.
(** [WaitCommitIndex] returns in states with: *)
Definition committed (index : Z) (r : Raft) : bool := index <=? r.(commitIndex).
End Raft.
