(* ===== verification/RaftSpec.v ===== *)
(** * Safety of the consensus module

    A cluster is its nodes and the messages ever sent; messages may be lost,
    delayed, reordered and delivered again, calls may fail, and nodes may stop
    and start again from their files.  Election safety is proved for all runs,
    log matching for runs without snapshots.  What a restart must find is a
    condition of both. *)
From S2P Require Import Prelude Bytes RaftWal Raft.
Import RaftWal Raft.

Module RaftSpec.

(** ** Clusters *)
Inductive msg :=
  | MVote (from to : nat) (args : RequestVoteArgs)
  | MVoteReply (to from : nat) (args : RequestVoteArgs) (reply : RequestVoteReply)
  | MAppend (from to : nat) (args : AppendEntriesArgs)
  | MAppendReply (to from : nat) (args : AppendEntriesArgs) (reply : AppendEntriesReply)
  | MSnap (from to : nat) (args : InstallSnapshotArgs)
  | MSnapReply (to from : nat) (reply : InstallSnapshotReply).
Record cluster := MkCluster { nodes : list Raft; net : list msg }.

(** A message carries the entries the log held when it was created. *)
Definition msg_of (from : nat) (x : nat * rpc) : msg :=
  match x with (to, RpcAppend args) => MAppend from to args | (to, RpcSnapshot args) => MSnap from to args end.

Inductive action :=
  | AElect (i : nat)
  | ADeliver (m : nat) (room : bool)
  | AVoteError (i k p : nat)
  | AAwait (i k : nat) (timeout : bool)
  | AClient (i : nat) (command : bytes)
  | AHeartbeat (i : nat)
  | AAppendError (i p : nat) (args : AppendEntriesArgs)
  | ASnapshot (i : nat) (index : Z) (room : bool)
  | AFaults (i : nat) (l : list (option save_fault))
  | ARestart (i : nat) (cut : nat).

Definition of_go {A} (m : go A) : option A := match m with Ret a => Some a | Panic => None end.
Definition put (i : nat) (r : Raft) (msgs : list msg) (c : cluster) : cluster := MkCluster (<[i := r]> c.(nodes)) (c.(net) ++ msgs).

(** The election a vote belongs to, while its goroutine waits. *)
Definition waits_for (term : Z) (p : nat) (b : ballot) : bool := (b.(electionTerm) =? term) && bool_decide (p ∈ b.(asked)).
Definition find_ballot (term : Z) (p : nat) (r : Raft) : option nat :=
  fst <$> list_find (fun b => waits_for term p b = true) r.(elections).

Definition deliver (compaction : bool) (room : bool) (m : msg) (c : cluster) : option cluster :=
  match m with
  | MVote i j args =>
      r ← c.(nodes) !! j; let '(r, reply) := RequestVote args r in Some (put j r [MVoteReply i j args reply] c)
  | MVoteReply i j args reply =>
      r ← c.(nodes) !! i; k ← find_ballot args.(VTerm) j r; Some (put i (vote_reply k j (Some reply) r) [] c)
  | MAppend i j args =>
      r ← c.(nodes) !! j; let '(r, reply) := AppendEntries args r in Some (put j r [MAppendReply i j args reply] c)
  | MAppendReply i j args reply =>
      r ← c.(nodes) !! i; Some (put i (append_reply j args (Some reply) r) [] c)
  | MSnap i j args =>
      if compaction then r ← c.(nodes) !! j; x ← of_go (InstallSnapshot room args r); Some (put j x.1 [MSnapReply i j x.2] c) else None
  | MSnapReply i j reply =>
      if compaction then r ← c.(nodes) !! i; Some (put i (snapshot_reply j (Some reply) r) [] c) else None
  end.

(** What the disk will do with the next writes of the state file. *)
Definition set_faults (l : list (option save_fault)) (w : RaftWAL) : RaftWAL := MkWAL w.(logFile) w.(metaFile) w.(snapshots) l w.(saved).

(** One step of the cluster; [None] is an action that cannot happen.  Terms and
    logs stay in the range of their integers.  A restart finds the first [cut]
    bytes of the log file, and leaves them as they are. *)
Definition act (compaction : bool) (a : action) (c : cluster) : option cluster :=
  match a with
  | AElect i =>
      r ← c.(nodes) !! i;
      if negb (r.(currentTerm) <? 2 ^ 63 - 1) then None else
      match startElection r with
      | (r, Some args) => Some (put i r (map (fun j => MVote i j args) (others r)) c)
      | (_, None) => None
      end
  | ADeliver m room => m ← c.(net) !! m; deliver compaction room m c
  | AVoteError i k p =>
      r ← c.(nodes) !! i; b ← r.(elections) !! k;
      if bool_decide (p ∈ b.(asked)) then Some (put i (vote_reply k p None r) [] c) else None
  | AAwait i k timeout =>
      r ← c.(nodes) !! i; b ← r.(elections) !! k;
      if negb b.(counting) then None
      else if timeout || (Z.of_nat r.(peers) - 1 =? 0) then Some (put i (awaitVotes k None r) [] c)
      else v ← head b.(voteCh); Some (put i (awaitVotes k (Some v) r) [] c)
  | AClient i command =>
      r ← c.(nodes) !! i;
      if negb ((len command <=? maxAlloc) && (len r.(log) <? 2 ^ 62)) then None else
      x ← of_go (AppendEntry command r); Some (put i x.1.1 (map (msg_of i) x.2) c)
  | AHeartbeat i => r ← c.(nodes) !! i; msgs ← of_go (replicateLog r); Some (put i r (map (msg_of i) msgs) c)
  | AAppendError i p args => r ← c.(nodes) !! i; Some (put i (append_reply p args None r) [] c)
  | ASnapshot i index room =>
      if negb compaction then None else
      r ← c.(nodes) !! i; r ← of_go (TakeSnapshot room index r); r ← r; Some (put i r [] c)
  | AFaults i l => r ← c.(nodes) !! i; Some (put i (set_entries r.(log) (set_faults l r.(wal)) r) [] c)
  | ARestart i cut =>
      r ← c.(nodes) !! i;
      r ← of_go (NewRaftGroup r.(peers) r.(me) (set_log (take cut r.(wal).(logFile)) r.(wal)));
      Some (put i r [] c)
  end.

Fixpoint run (compaction : bool) (l : list action) (c : cluster) : option cluster :=
  match l with [] => Some c | a :: l => c ← act compaction a c; run compaction l c end.

(** [P] holds of every action of a run where it happens. *)
Fixpoint always (P : action -> cluster -> bool) (compaction : bool) (l : list action) (c : cluster) : bool :=
  match l with
  | [] => true
  | a :: l => P a c && match act compaction a c with Some c => always P compaction l c | None => true end
  end.
(** The node that restarts has not failed to save its term and vote. *)
Definition restart_saved (a : action) (c : cluster) : bool :=
  match a with ARestart i _ => match c.(nodes) !! i with Some r => r.(wal).(saved) | None => true end | _ => true end.

(** A cluster whose nodes start with empty directories. *)
Definition fresh_node (n i : nat) : Raft :=
  MkRaft i n Follower (-1) 0 (-1) (-1) 0 (replicate n 0) (replicate n 0) [] [] 0 0 NewRaftWAL (-1) [].
Definition boot (n : nat) : cluster := MkCluster (map (fresh_node n) (seq 0 n)) [].
Lemma fresh_node_started n i : NewRaftGroup n i NewRaftWAL = Ret (fresh_node n i).
Proof. reflexivity. Qed.

(** ** Quorums *)
Definition majority (n : nat) (G : list nat) : Prop := NoDup G /\ Forall (fun g => (g < n)%nat) G /\ Z.of_nat n / 2 < len G.

Lemma majorities_meet n G G' : majority n G -> majority n G' -> exists g, g ∈ G /\ g ∈ G'.
Proof.
  intros (H1 & H2 & H3) (H1' & H2' & H3'). destruct (decide (Exists (fun g => g ∈ G') G)) as [(g & Hg & Hg')%Exists_exists | Hno]; [by exists g|].
  exfalso. assert (NoDup (G ++ G')) as Hn.
  { apply NoDup_app. split; [done|]. split; [|done]. intros g Hg Hg'. apply Hno, Exists_exists. by exists g. }
  assert (length (G ++ G') <= length (seq 0 n))%nat as Hl.
  { apply NoDup_incl_length; [by apply NoDup_ListNoDup|]. intros g Hg%list_elem_of_In. apply in_seq.
    rewrite Forall_forall in H2, H2'. apply elem_of_app in Hg as [Hg | Hg]; [apply H2 in Hg|apply H2' in Hg]; lia. }
  rewrite length_app, length_seq in Hl. unfold len in *. pose proof (Z.mul_succ_div_gt (Z.of_nat n) 2 ltac:(lia)). lia.
Qed.

(** ** Election safety: votes and leaders of the past

    [V i T] is the candidate node [i] granted its vote to in term [T] and
    [L T] the winner of the election of term [T].  Both only grow. *)
Notation votes_cast := (nat -> Z -> option nat).
Notation leaders := (Z -> option nat).
Definition grown {A B} (f g : A -> option B) : Prop := forall x y, f x = Some y -> g x = Some y.

Section Elections.
Context (n : nat).
Implicit Types (V : votes_cast) (L : leaders).

(** A term and vote that account for everything node [i] did. *)
Record accounts_for V L (i : nat) (term vote : Z) : Prop := {
  af_range : 0 <= term < 2 ^ 63 /\ is_s64 vote;
  af_past : forall T c, V i T = Some c -> T <= term;
  af_vote : forall c, V i term = Some c -> vote = Z.of_nat c;
  af_won : forall T, L T = Some i -> T <= term;
  af_own : L term = Some i -> vote = Z.of_nat i }.

Definition on_disk (meta : option bytes) (term vote : Z) : Prop :=
  match meta with None => term = 0 /\ vote = -1 | Some b => b = state_bytes term vote end.

Definition granted (l : list bool) : Z := len (List.filter id l).
Record ballot_ok V (i : nat) (b : ballot) : Prop := {
  bo_asked : NoDup b.(asked) /\ Forall (fun p => (p < n)%nat /\ p <> i) b.(asked);
  bo_votes : exists G, NoDup G /\ (len G = granted b.(voteCh) + b.(votes) - 1) /\
    (forall g, g ∈ G -> (g < n)%nat /\ g <> i /\ (g ∉ b.(asked)) /\ V g b.(electionTerm) = Some i) }.

Record node_mem V L (i : nat) (r : Raft) : Prop := {
  no_me : r.(me) = i /\ r.(peers) = n /\ (i < n)%nat;
  no_mem : accounts_for V L i r.(currentTerm) r.(votedFor);
  no_role : r.(state) <> Follower -> r.(votedFor) = Z.of_nat i /\ V i r.(currentTerm) = None;
  no_candidate : r.(state) = Candidate -> L r.(currentTerm) <> Some i;
  no_leader : r.(state) = Leader -> L r.(currentTerm) = Some i;
  no_ballots : Forall (ballot_ok V i) r.(elections) }.
(** While the last save succeeded, the state file accounts for everything. *)
Definition state_file (w : RaftWAL) : option bytes * bool := (w.(metaFile), w.(saved)).
Definition disk_ok V L (i : nat) (r : Raft) (f : option bytes * bool) : Prop :=
  (length (default [] f.1) <= 24)%nat /\
  (f.2 = true -> exists term vote, on_disk f.1 term vote /\ accounts_for V L i term vote /\
    (r.(state) = Candidate -> term = r.(currentTerm) /\ vote = r.(votedFor))).
Definition node_ok V L (i : nat) (r : Raft) : Prop := node_mem V L i r /\ disk_ok V L i r (state_file r.(wal)).

Definition term_ok (t : Z) : Prop := 0 <= t < 2 ^ 63.
Definition msg_ok V (m : msg) : Prop :=
  match m with
  | MVote i j args => (i < n)%nat /\ i <> j /\ args.(CandidateID) = Z.of_nat i /\ term_ok args.(VTerm)
  | MVoteReply i j args reply =>
      (j < n)%nat /\ i <> j /\ term_ok reply.(VRTerm) /\ (reply.(VoteGranted) = true -> V j args.(VTerm) = Some i)
  | MAppend i j args => i <> j /\ term_ok args.(ATerm)
  | MAppendReply _ _ _ reply => term_ok reply.(ARTerm)
  | MSnap _ _ args => term_ok args.(STerm)
  | MSnapReply _ _ reply => term_ok reply.(SRTerm)
  end.

Definition won_ok V L : Prop := forall T i, L T = Some i ->
  V i T = None /\ exists G, majority n (i :: G) /\ forall g, g ∈ G -> V g T = Some i.

Record elections_ok V L (c : cluster) : Prop := {
  eo_nodes : forall i r, c.(nodes) !! i = Some r -> node_ok V L i r;
  eo_net : forall m, m ∈ c.(net) -> msg_ok V m;
  eo_won : won_ok V L }.

(** *** Growing the record of the past *)
Definition v_grown V V' : Prop := forall j T c, V j T = Some c -> V' j T = Some c.
Definition same_for V L V' L' (i : nat) : Prop := (forall T, V' i T = V i T) /\ forall T, L' T = Some i <-> L T = Some i.

Lemma accounts_same V L V' L' i term vote : same_for V L V' L' i -> accounts_for V L i term vote -> accounts_for V' L' i term vote.
Proof.
  intros [Hv Hl] [H1 H2 H3 H4 H5]. split; [done| | | |].
  - intros T c. rewrite Hv. apply H2.
  - intros c. rewrite Hv. apply H3.
  - intros T. rewrite Hl. apply H4.
  - rewrite Hl. apply H5.
Qed.

Lemma ballot_grown V V' i b : v_grown V V' -> ballot_ok V i b -> ballot_ok V' i b.
Proof. intros Hv [H1 (G & H2 & H3 & H4)]. split; [done|]. exists G. do 2 (split; [done|]). intros g Hg. destruct (H4 g Hg) as (? & ? & ? & ?). auto. Qed.

Lemma node_same V L V' L' i r : same_for V L V' L' i -> v_grown V V' -> node_ok V L i r -> node_ok V' L' i r.
Proof.
  intros Hs Hg [[H1 H2 H3 H4 H5 H7] [Hlen Hdisk]]. pose proof Hs as [Hv Hl].
  split; [split|split; [done|]; intros Hf; destruct (Hdisk Hf) as (term & vote & Hd & Ha & Hc); exists term, vote; split; [done|]; split; [by eapply accounts_same|done]].
  - done.
  - by eapply accounts_same.
  - intros Hr. destruct (H3 Hr). by rewrite Hv.
  - intros Hr. rewrite Hl. by apply H4.
  - intros Hr. rewrite Hl. by apply H5.
  - eapply Forall_impl; [exact H7|]. intros b. by apply ballot_grown.
Qed.

Lemma msg_grown V V' m : v_grown V V' -> msg_ok V m -> msg_ok V' m.
Proof. intros Hv. destruct m; cbn; try done. intros (? & ? & ? & H). auto 6. Qed.

Lemma same_refl V L i : same_for V L V L i.
Proof. done. Qed.

(** *** What a handler leaves alone *)
Record same_votes (r r' : Raft) : Prop := {
  sv_me : r'.(me) = r.(me); sv_peers : r'.(peers) = r.(peers); sv_state : r'.(state) = r.(state);
  sv_vote : r'.(votedFor) = r.(votedFor); sv_term : r'.(currentTerm) = r.(currentTerm);
  sv_disk : state_file r'.(wal) = state_file r.(wal); sv_elections : r'.(elections) = r.(elections) }.

Lemma same_votes_refl r : same_votes r r.
Proof. done. Qed.
Lemma same_votes_trans r1 r2 r3 : same_votes r1 r2 -> same_votes r2 r3 -> same_votes r1 r3.
Proof. intros [] []. split; congruence. Qed.

Lemma node_same_votes V L i r r' : same_votes r r' -> node_ok V L i r -> node_ok V L i r'.
Proof.
  intros [E1 E2 E3 E4 E5 E6 E7] [[H1 H2 H3 H4 H5 H7] Hd]. split; [|unfold disk_ok in *; by rewrite E3, E4, E5, E6].
  split; by rewrite ?E1, ?E2, ?E3, ?E4, ?E5, ?E7.
Qed.

Lemma apply_same fuel r : same_votes r (apply_loop fuel r).
Proof. revert r. induction fuel as [|fuel IH]; intros r; [done|]. cbn [apply_loop]. eapply same_votes_trans; [|apply IH]. by destruct (at_rel _ _). Qed.
Lemma applied_same r : same_votes r (applyCommittedLogs r).
Proof. apply apply_same. Qed.
Lemma commit_same r : same_votes r (updateCommitIndex r).
Proof.
  unfold updateCommitIndex. destruct r.(state); try done. destruct (find_commit _ _); [|done].
  eapply same_votes_trans; [|apply applied_same]. done.
Qed.
Lemma append_meta l w : state_file (AppendLogs l w) = state_file w.
Proof. by destruct l. Qed.

(** *** Terms and votes *)
Lemma accounts_raise V L i term vote term' : accounts_for V L i term vote -> term < term' < 2 ^ 63 -> accounts_for V L i term' (-1).
Proof.
  intros [[Hr Hs] H2 H3 H4 H5] Ht. split.
  - split; [lia|unfold is_s64; lia].
  - intros T c Hc. apply H2 in Hc. lia.
  - intros c Hc. apply H2 in Hc. lia.
  - intros T Hc. apply H4 in Hc. lia.
  - intros Hc. apply H4 in Hc. lia.
Qed.

Lemma accounts_elect V L i term vote : (i < n)%nat -> Z.of_nat n < 2 ^ 63 -> accounts_for V L i term vote -> term + 1 < 2 ^ 63 ->
  accounts_for V L i (term + 1) (Z.of_nat i).
Proof.
  intros Hi Hn H Ht. destruct (accounts_raise V L i term vote (term + 1) H) as [[Hr Hs] H2 H3 H4 H5]; [lia|]. split; try done.
  - split; [done|unfold is_s64; lia].
  - intros c Hc. destruct H as [_ H _ _ _]. apply H in Hc. lia.
Qed.

(** The state is written down, or the node knows that it is not. *)
Lemma save_cases t v w : (length (default [] w.(metaFile)) <= 24)%nat ->
  let w' := (SaveState t v w).1 in
  (length (default [] w'.(metaFile)) <= 24)%nat /\ (w'.(saved) = true -> w'.(metaFile) = Some (state_bytes t v)) /\
  w'.(logFile) = w.(logFile) /\ w'.(snapshots) = w.(snapshots).
Proof.
  intros Hl. unfold SaveState. destruct (mjoin (head w.(faults))) as [[|m]|]; cbn [fst metaFile saved logFile snapshots default from_option id]; [done| |].
  - split_and!; try done. unfold overwrite. rewrite length_app, length_firstn, length_skipn, length_state. cbn. lia.
  - rewrite overwrite_all by (by rewrite length_state). rewrite length_state. done.
Qed.

Lemma node_persist V L i r : node_mem V L i r -> (length (default [] r.(wal).(metaFile)) <= 24)%nat -> node_ok V L i (persistStateLocked r).
Proof.
  intros Hm Hl. pose proof Hm as [H1 H2 H3 H4 H5 H7]. split; [by split|].
  destruct (save_cases r.(currentTerm) r.(votedFor) r.(wal) Hl) as (Hl' & Hs & _ & _). split; [done|]. cbn. intros E. rewrite (Hs E).
  by exists r.(currentTerm), r.(votedFor).
Qed.

Lemma mem_raise V L i r term : node_mem V L i r -> r.(currentTerm) < term < 2 ^ 63 ->
  node_mem V L i (set_role Follower (set_vote term (-1) r)).
Proof. intros [H1 H2 H3 H4 H5 H7] Ht. split; cbn; try done. by eapply accounts_raise. Qed.

Lemma mem_follow V L i r : node_mem V L i r -> node_mem V L i (set_role Follower r).
Proof. intros [H1 H2 H3 H4 H5 H7]. by split; cbn. Qed.

(** A candidate gives up: it takes its vote back. *)
Lemma mem_give_up V L i r : node_mem V L i r -> r.(state) = Candidate -> node_mem V L i (set_role Follower (set_vote r.(currentTerm) (-1) r)).
Proof.
  intros [H1 [[Hr Hs] H22 H23 H24 H25] H3 H4 H5 H7] Hst. destruct (H3 ltac:(by rewrite Hst)) as [Hv Hn]. split; cbn; try done.
  split; [split; [done|unfold is_s64; lia]|done| |done|]; intros; exfalso; [congruence|by apply H4].
Qed.

Lemma mem_elections V L i r bs : node_mem V L i r -> Forall (ballot_ok V i) bs -> node_mem V L i (set_elections bs r).
Proof. intros [H1 H2 H3 H4 H5 H7] Hb. by split; cbn. Qed.

(** Granting a vote. *)
Definition cast (j : nat) (T : Z) (c : nat) V : votes_cast := fun i t => if (i =? j)%nat && (t =? T) then Some c else V i t.

Lemma cast_other j T c V i : i <> j -> forall t, cast j T c V i t = V i t.
Proof. intros Hi t. unfold cast. by replace (i =? j)%nat with false by (symmetry; apply Nat.eqb_neq; done). Qed.
Lemma cast_same j T c V t : cast j T c V j t = if t =? T then Some c else V j t.
Proof. unfold cast. by rewrite Nat.eqb_refl. Qed.

Lemma mem_grant V L j c r : won_ok V L -> node_mem V L j r -> (c < n)%nat -> c <> j -> Z.of_nat n < 2 ^ 63 ->
  r.(votedFor) = -1 \/ r.(votedFor) = Z.of_nat c ->
  let V' := cast j r.(currentTerm) c V in
  node_mem V' L j (set_vote r.(currentTerm) (Z.of_nat c) r) /\ v_grown V V' /\ won_ok V' L.
Proof.
  intros Hw [H1 [[Hr Hs] H22 H23 H24 H25] H3 H4 H5 H7] Hc Hcj Hn Hvote V'.
  assert (forall x, V j r.(currentTerm) = Some x -> x = c) as Hv by (intros x Hx; apply H23 in Hx; lia).
  assert (L r.(currentTerm) <> Some j) as Hl by (intros Hl; apply H25 in Hl; lia).
  assert (v_grown V V') as Hg.
  { intros i T x Hx. unfold V'. destruct (decide (i = j)) as [-> | Hi]; [|by rewrite cast_other]. rewrite cast_same.
    destruct (T =? r.(currentTerm)) eqn:E; [|done]. apply Z.eqb_eq in E. subst T. by rewrite (Hv x Hx). }
  assert (r.(state) = Follower) as Hst.
  { destruct r.(state) eqn:E; [done| |]; destruct (H3 ltac:(done)); lia. }
  split; [split; cbn; rewrite ?Hst; try done|split; [done|]].
  - split; [split; [done|unfold is_s64; lia]| | |done|done].
    + intros T x. unfold V'. rewrite cast_same. destruct (T =? r.(currentTerm)) eqn:E; [intros _; lia|apply H22].
    + intros x. unfold V'. rewrite cast_same, Z.eqb_refl. by injection 1 as <-.
  - eapply Forall_impl; [exact H7|]. intros b. by apply ballot_grown.
  - intros T i Hi. destruct (Hw T i Hi) as (Hn' & G & Hm & HG). split; [|exists G; split; [done|]; intros g Hg'; by apply Hg, HG].
    unfold V'. destruct (decide (i = j)) as [-> | Hij]; [|by rewrite cast_other]. rewrite cast_same.
    destruct (T =? r.(currentTerm)) eqn:E; [|done]. apply Z.eqb_eq in E. by subst T.
Qed.

(** Winning an election. *)
Definition crown (T : Z) (i : nat) L : leaders := fun t => if t =? T then Some i else L t.

Lemma win_fresh V L i T G : won_ok V L -> V i T = None -> majority n (i :: G) -> (forall g, g ∈ G -> V g T = Some i) ->
  L T = None \/ L T = Some i.
Proof.
  intros Hw Hv Hm HG. destruct (L T) as [i'|] eqn:E; [right|by left]. destruct (decide (i' = i)) as [-> | Hne]; [done|]. exfalso.
  destruct (Hw T i' E) as (Hv' & G' & Hm' & HG'). destruct (majorities_meet n _ _ Hm Hm') as (g & Hg & Hg').
  apply elem_of_cons in Hg as [-> | Hg]; apply elem_of_cons in Hg' as [Eg | Hg'].
  - by apply Hne.
  - rewrite (HG' i Hg') in Hv. done.
  - subst g. rewrite (HG i' Hg) in Hv'. done.
  - apply Hne. pose proof (HG g Hg) as H1. pose proof (HG' g Hg') as H2. congruence.
Qed.

Lemma node_win V L i r G : won_ok V L -> node_ok V L i r -> r.(state) = Candidate -> majority n (i :: G) ->
  (forall g, g ∈ G -> V g r.(currentTerm) = Some i) ->
  let L' := crown r.(currentTerm) i L in
  L r.(currentTerm) = None /\ node_ok V L' i (becomeLeader r) /\ won_ok V L'.
Proof.
  intros Hw [[H1 [H21 H22 H23 H24 H25] H3 H4 H5 H7] [Hlen Hdisk]] Hst Hm HG L'.
  destruct (H3 ltac:(by rewrite Hst)) as [Hv Hn].
  destruct (win_fresh V L i r.(currentTerm) G Hw Hn Hm HG) as [Hl | Hl]; [|by destruct (H4 Hst)]. split; [done|].
  assert (forall T j, L' T = Some j -> (T = r.(currentTerm) /\ j = i) \/ L T = Some j) as HL.
  { intros T j. unfold L', crown. destruct (T =? r.(currentTerm)) eqn:E; [|by right]. injection 1 as <-. left. split; [lia|done]. }
  assert (accounts_for V L' i r.(currentTerm) r.(votedFor)) as Ha.
  { split; [done|done|done| |done]. intros T [[-> _] | HT]%HL; [lia|by apply H24]. }
  split; [split; [split; cbn; try done|]|].
  - intros _. unfold L', crown. by rewrite Z.eqb_refl.
  - split; [done|]. intros Hf. destruct (Hdisk Hf) as (term & vote & Hd & _ & Hc). destruct (Hc Hst) as [-> ->]. by exists r.(currentTerm), r.(votedFor).
  - intros T j [[-> ->] | HT]%HL; [|by apply Hw]. split; [done|]. by exists G.
Qed.

(** *** A step of one node *)
Lemma put_elections V L V' L' c i r0 r msgs : elections_ok V L c -> c.(nodes) !! i = Some r0 -> v_grown V V' -> grown L L' ->
  (forall j, j <> i -> same_for V L V' L' j) -> node_ok V' L' i r -> won_ok V' L' -> (forall m, m ∈ msgs -> msg_ok V' m) ->
  elections_ok V' L' (put i r msgs c).
Proof.
  intros [Hn Hm Hw] Hi Hv Hl Hs Hr Hw' Hms. split; [|cbn|done].
  - intros j x Hx. cbn in Hx. destruct (decide (j = i)) as [-> | Hj].
    + rewrite list_lookup_insert_eq in Hx by (by eapply lookup_lt_Some). by injection Hx as <-.
    + rewrite list_lookup_insert_ne in Hx by done. eapply node_same; [by apply Hs|done|by apply Hn].
  - intros m [Hin | Hin]%elem_of_app; [|by apply Hms]. by eapply msg_grown, Hm.
Qed.

(** ... that adds nothing to the past. *)
Lemma put_quiet V L c i r0 r msgs : elections_ok V L c -> c.(nodes) !! i = Some r0 -> node_ok V L i r -> (forall m, m ∈ msgs -> msg_ok V m) ->
  exists V', v_grown V V' /\ elections_ok V' L (put i r msgs c).
Proof.
  intros H Hi Hr Hm. exists V. split; [by intros ? ?|].
  eapply (put_elections V L V L); [done|done|by intros ? ?|by intros ? ?|by intros ? ?; apply same_refl|done|apply H|done].
Qed.

(** *** Ballots *)
Lemma granted_app l v : granted (l ++ [v]) = granted l + if v then 1 else 0.
Proof. unfold granted. rewrite List.filter_app, len_app. by destruct v. Qed.

Lemma ballot_post V i b p v : ballot_ok V i b -> p ∈ b.(asked) -> (v = true -> V p b.(electionTerm) = Some i) ->
  ballot_ok V i (MkBallot b.(electionTerm) (List.filter (fun q => negb (q =? p)%nat) b.(asked)) (b.(voteCh) ++ [v]) b.(heard) b.(votes) b.(counting)).
Proof.
  intros [[Hd Ha] (G & Hn & Hl & HG)] Hp Hv.
  assert (forall q, q ∈ List.filter (fun q => negb (q =? p)%nat) b.(asked) <-> q ∈ b.(asked) /\ q <> p) as Hf.
  { intros q. rewrite !list_elem_of_In, filter_In, negb_true_iff, Nat.eqb_neq. done. }
  split; cbn [asked voteCh votes electionTerm].
  - split; [apply NoDup_ListNoDup, List.NoDup_filter; by apply NoDup_ListNoDup|]. rewrite Forall_forall in Ha |- *. intros q [Hq _]%Hf. by apply Ha.
  - rewrite Forall_forall in Ha. destruct v.
    + exists (p :: G). split; [apply NoDup_cons; split; [|done]; intros HpG; by destruct (HG p HpG) as (_ & _ & ? & _)|].
      split; [rewrite granted_app, len_cons; lia|]. intros g [-> | Hg]%elem_of_cons.
      * destruct (Ha p Hp). split_and!; try done; [|by apply Hv]. by intros [_ ?]%Hf.
      * destruct (HG g Hg) as (? & ? & ? & ?). split_and!; try done. by intros [? _]%Hf.
    + exists G. split; [done|]. split; [rewrite granted_app; lia|]. intros g Hg. destruct (HG g Hg) as (? & ? & ? & ?). split_and!; try done. by intros [? _]%Hf.
Qed.

Lemma mem_post V L i r k p v b : node_mem V L i r -> r.(elections) !! k = Some b -> p ∈ b.(asked) ->
  (v = true -> V p b.(electionTerm) = Some i) -> node_mem V L i (post k p v r).
Proof.
  intros H Hk Hp Hv. unfold post. rewrite Hk. apply mem_elections; [done|]. apply Forall_insert; [apply H|].
  apply ballot_post; [|done|done]. pose proof (no_ballots _ _ _ _ H) as Hb. rewrite Forall_lookup in Hb. by eapply Hb.
Qed.

(** A change of the elections or of the log file leaves the state file alone. *)
Lemma node_change V L i r r' : node_ok V L i r -> node_mem V L i r' -> state_file r'.(wal) = state_file r.(wal) ->
  (r'.(state) = Candidate -> r.(state) = Candidate /\ r'.(currentTerm) = r.(currentTerm) /\ r'.(votedFor) = r.(votedFor)) -> node_ok V L i r'.
Proof.
  intros [_ [Hlen Hdisk]] Hm Ew Hs. split; [done|]. rewrite Ew. split; [done|]. intros Hf. destruct (Hdisk Hf) as (term & vote & Hd & Ha & Hc).
  exists term, vote. split; [done|]. split; [done|]. intros E. destruct (Hs E) as (E1 & -> & ->). by apply Hc.
Qed.

Lemma node_vote_reply V L i r k p b reply : node_ok V L i r -> r.(elections) !! k = Some b -> p ∈ b.(asked) ->
  match reply with Some x => term_ok x.(VRTerm) /\ (x.(VoteGranted) = true -> V p b.(electionTerm) = Some i) | None => True end ->
  node_ok V L i (vote_reply k p reply r).
Proof.
  intros H Hk Hp Hr. pose proof H as [Hm _]. destruct reply as [[t g]|]; cbn [vote_reply VRTerm VoteGranted] in *.
  - destruct Hr as [Ht Hg]. destruct (r.(currentTerm) <? t) eqn:E.
    + assert (node_mem V L i (step_down t r)) as Hm' by (apply mem_raise; [done|unfold term_ok in Ht; lia]).
      eapply node_change; [done|by eapply mem_post| |]; unfold post; cbn [step_down set_role set_vote elections]; by rewrite Hk.
    + eapply node_change; [done|eapply mem_post; [done|done|done|]| |]; [intros [_ ?]%andb_true_iff; by apply Hg| |]; unfold post; by rewrite Hk.
  - eapply node_change; [done|by eapply mem_post| |]; unfold post; by rewrite Hk.
Qed.

(** The counting goroutine takes a vote out of the channel. *)
Lemma ballot_count V i b v ch c : ballot_ok V i b -> b.(voteCh) = v :: ch ->
  ballot_ok V i (MkBallot b.(electionTerm) b.(asked) ch (b.(heard) + 1) (if v then b.(votes) + 1 else b.(votes)) c).
Proof.
  intros [Ha (G & Hn & Hl & HG)] E. split; [done|]. exists G. cbn [voteCh votes asked electionTerm]. split; [done|]. split; [|done].
  rewrite Hl, E. unfold granted. cbn [List.filter id]. destruct v; [rewrite len_cons|]; lia.
Qed.

Lemma ballot_stop V i b h c : ballot_ok V i b -> ballot_ok V i (MkBallot b.(electionTerm) b.(asked) b.(voteCh) h b.(votes) c).
Proof. by intros [Ha Hb]. Qed.

Lemma node_ballots V L i r bs : node_ok V L i r -> Forall (ballot_ok V i) bs -> node_ok V L i (set_elections bs r).
Proof. intros H Hb. eapply node_change; [done|apply mem_elections; [apply H|done]|done|done]. Qed.

Lemma enough_votes V i b : ballot_ok V i b -> (i < n)%nat -> Z.of_nat n / 2 < granted b.(voteCh) + b.(votes) ->
  exists G, majority n (i :: G) /\ forall g, g ∈ G -> V g b.(electionTerm) = Some i.
Proof.
  intros [_ (G & Hn & Hl & HG)] Hi Hv. exists G. split; [|intros g Hg; by apply HG]. split; [apply NoDup_cons; split; [|done]; intros H; by destruct (HG i H) as (_ & ? & _)|].
  split; [apply Forall_cons; split; [done|]; apply Forall_forall; intros g Hg; by apply HG|]. rewrite len_cons. lia.
Qed.

(** An election ends: the candidate of this term becomes the leader. *)
Lemma node_won V L i r b : won_ok V L -> node_ok V L i r -> ballot_ok V i b -> Z.of_nat n / 2 < granted b.(voteCh) + b.(votes) ->
  let r' := wonAsCandidate b.(electionTerm) r in
  (r' = r) \/
  (r.(state) = Candidate /\ L r.(currentTerm) = None /\ node_ok V (crown r.(currentTerm) i L) i r' /\ won_ok V (crown r.(currentTerm) i L)).
Proof.
  intros Hw H Hb Hv r'. unfold r', wonAsCandidate. destruct (bool_decide _ && _) eqn:E; [right|by left].
  apply andb_true_iff in E as [E1%bool_decide_eq_true E2%Z.eqb_eq].
  destruct (enough_votes V i b Hb) as (G & Hm & HG); [apply H|done|].
  destruct (node_win V L i r G Hw H E1 Hm) as (? & ? & ?); [rewrite E2; done|done].
Qed.

Lemma node_await V L i r k b ev : won_ok V L -> node_ok V L i r -> r.(elections) !! k = Some b ->
  match ev with Some v => head b.(voteCh) = Some v | None => True end ->
  let r' := awaitVotes k ev r in
  (node_ok V L i r' /\ (r'.(state) = Leader -> r.(state) = Leader)) \/
  (r.(state) = Candidate /\ L r.(currentTerm) = None /\ node_ok V (crown r.(currentTerm) i L) i r' /\ won_ok V (crown r.(currentTerm) i L)).
Proof.
  intros Hw H Hk Hev r'. assert (ballot_ok V i b) as Hb.
  { pose proof H as [[_ _ _ _ _ H7] _]. rewrite Forall_lookup in H7. by eapply H7. }
  assert (forall b', ballot_ok V i b' -> node_ok V L i (set_elections (<[k := b']> r.(elections)) r)) as Hput.
  { intros b' Hb'. apply node_ballots; [done|]. apply Forall_insert; [|done]. by destruct H as [[] _]. }
  assert (forall b', ballot_ok V i b' -> Z.of_nat n / 2 < granted b'.(voteCh) + b'.(votes) ->
    let r2 := wonAsCandidate b'.(electionTerm) (set_elections (<[k := b']> r.(elections)) r) in
    (node_ok V L i r2 /\ (r2.(state) = Leader -> r.(state) = Leader)) \/
    (r.(state) = Candidate /\ L r.(currentTerm) = None /\ node_ok V (crown r.(currentTerm) i L) i r2 /\ won_ok V (crown r.(currentTerm) i L))) as Hwon.
  { intros b' Hb' Hv. destruct (node_won V L i _ b' Hw (Hput b' Hb') Hb' Hv) as [-> | Hx]; [left; by split; [apply Hput|]|by right]. }
  pose proof H as [[(Hme & Hpe & Hi) _ _ _ _ _] _]. subst r'. unfold awaitVotes. rewrite Hk, Hpe. destruct (Z.of_nat n - 1 =? 0) eqn:E1.
  { pose proof (ballot_stop V i b b.(heard) false Hb) as Hb'. apply (Hwon _ Hb'). cbn [voteCh votes].
    destruct Hb as [_ (G & _ & Hl & _)]. pose proof (len_nonneg G). replace (Z.of_nat n) with 1 by lia. change (1 / 2) with 0. lia. }
  destruct ev as [v|].
  - destruct b.(voteCh) as [|v0 ch] eqn:Ech; [done|]. injection Hev as ->. cbn [tail]. set (c := negb _ && _). pose proof (ballot_count V i b v ch c Hb Ech) as Hb'.
    destruct (v && _) eqn:Ew; [|left; split; [by apply Hput|done]]. apply andb_true_iff in Ew as [-> Ew%Z.ltb_lt]. apply (Hwon _ Hb').
    cbn [voteCh votes]. assert (0 <= granted ch) by apply len_nonneg. lia.
  - left. pose proof (Hput _ (ballot_stop V i b b.(heard) false Hb)) as Hn. set (r1 := set_elections _ r) in *.
    destruct (bool_decide _ && _) eqn:E; [|done]. apply andb_true_iff in E as [E%bool_decide_eq_true _]. split; [|done].
    eapply node_change; [exact Hn|apply mem_give_up; [apply Hn|done]|done|done].
Qed.

(** *** Handlers *)
Lemma others_elem r p : p ∈ others r -> (p < r.(peers))%nat /\ p <> r.(me).
Proof.
  unfold others. rewrite list_elem_of_In, filter_In, in_seq, negb_true_iff, Nat.eqb_neq. lia.
Qed.
Lemma others_nodup r : NoDup (others r).
Proof. apply NoDup_ListNoDup, List.NoDup_filter, seq_NoDup. Qed.

Lemma disk_of V L i r : node_ok V L i r -> (length (default [] r.(wal).(metaFile)) <= 24)%nat.
Proof. by intros [_ [Hl _]]. Qed.

Lemma node_elect V L i r r' args : Z.of_nat n < 2 ^ 63 -> node_ok V L i r -> r.(currentTerm) < 2 ^ 63 - 1 -> startElection r = (r', Some args) ->
  node_ok V L i r' /\ r'.(state) = Candidate /\ args.(CandidateID) = Z.of_nat i /\ term_ok args.(VTerm) /\ others r' = others r /\ r'.(log) = r.(log) /\
  r'.(currentTerm) = r.(currentTerm) + 1.
Proof.
  intros Hn H Ht E. pose proof H as [[(Hme & Hpe & Hi) H2 H3 H4 H5 H7] _].
  set (r1 := set_vote (r.(currentTerm) + 1) (Z.of_nat r.(me)) (set_leader (-1) (set_role Candidate r))).
  assert (node_mem V L i r1) as Hm.
  { pose proof (af_past _ _ _ _ _ H2) as Hp. pose proof (af_won _ _ _ _ _ H2) as Hwn. split; cbn; try done.
    - rewrite Hme. eapply accounts_elect; [done|done|exact H2|lia].
    - intros _. rewrite Hme. split; [done|]. destruct (V i (r.(currentTerm) + 1)) eqn:Ev; [|reflexivity]. apply Hp in Ev. lia.
    - intros _ Hl. apply Hwn in Hl. lia. }
  assert (node_ok V L i (persistStateLocked r1)) as Hp by (apply node_persist; [done|exact (disk_of V L i r H)]).
  pose proof (af_range _ _ _ _ _ H2) as [Hr _].
  unfold startElection in E. destruct r.(state) eqn:Es; [| |done]; fold r1 in E; destruct (last_log (persistStateLocked r1)) as [a b]; injection E as <- <-.
  all: split; [apply node_ballots; [done|]; apply Forall_app; split; [exact H7|]; apply Forall_singleton|].
  all: try (split; [done|]; split; [cbn; by rewrite Hme|]; split; [unfold term_ok; cbn; lia|done]).
  all: split; cbn [asked voteCh votes electionTerm]; [|exists []; split; [constructor|split; [done|intros g ?%elem_of_nil; done]]].
  all: split; [apply others_nodup|apply Forall_forall; intros p [Hp1 Hp2]%others_elem; cbn in Hp1, Hp2; rewrite Hpe in Hp1; rewrite Hme in Hp2; done].
Qed.

Lemma node_request_vote V L j r args c r' reply : Z.of_nat n < 2 ^ 63 -> won_ok V L -> node_ok V L j r -> (c < n)%nat -> c <> j ->
  args.(CandidateID) = Z.of_nat c -> term_ok args.(VTerm) -> RequestVote args r = (r', reply) ->
  exists V', v_grown V V' /\ (forall i, i <> j -> forall T, V' i T = V i T) /\ node_ok V' L j r' /\ won_ok V' L /\
    term_ok reply.(VRTerm) /\ (reply.(VoteGranted) = true -> V' j args.(VTerm) = Some c).
Proof.
  intros Hn Hw H Hc Hcj Hid Ht E. unfold RequestVote in E. destruct (args.(VTerm) <? r.(currentTerm)) eqn:E1.
  { injection E as <- <-. exists V. split; [by intros ? ?|]. split; [done|]. split; [done|]. split; [done|]. split; [|done].
    pose proof H as [[_ [[Hr _] _ _ _ _] _ _ _ _] _]. exact Hr. }
  set (r1 := if r.(currentTerm) <? args.(VTerm) then _ else r) in E.
  assert (node_ok V L j r1 /\ r1.(currentTerm) = args.(VTerm)) as [H1 Et].
  { unfold r1. destruct (r.(currentTerm) <? args.(VTerm)) eqn:E2; [|split; [done|lia]]. split; [|done].
    apply node_persist; [apply mem_raise; [apply H|unfold term_ok in Ht; lia]|exact (disk_of V L j r H)]. }
  destruct (_ && isLogUpToDate _ _ _) eqn:E3.
  - injection E as <- <-. apply andb_true_iff in E3 as [E3 _].
    destruct (mem_grant V L j c r1 Hw ltac:(apply H1) Hc Hcj Hn) as (Hm & Hg & Hw'); [rewrite Hid in E3; lia|].
    rewrite Hid. eexists. split; [exact Hg|]. split; [by intros i Hi; apply cast_other|].
    split; [apply node_persist; [exact Hm|exact (disk_of V L j r1 H1)]|]. split; [exact Hw'|]. cbn. rewrite <- Et. split; [by rewrite Et|].
    intros _. rewrite cast_same. by rewrite Z.eqb_refl.
  - injection E as <- <-. exists V. split; [by intros ? ?|]. split; [done|]. split; [done|]. split; [done|]. split; [|done]. cbn. by rewrite Et.
Qed.

Lemma truncate_meta i w w' : TruncateLogs i w = Ret w' -> state_file w' = state_file w.
Proof. unfold TruncateLogs. destruct (LoadLogs w); [|done]. cbn. injection 1 as <-. by rewrite append_meta. Qed.

Lemma node_persist_ok V L i r : node_ok V L i r -> node_ok V L i (persistStateLocked r).
Proof. intros H. apply node_persist; [apply H|exact (disk_of V L i r H)]. Qed.

Lemma node_step_down V L i r term : node_ok V L i r -> r.(currentTerm) < term -> term_ok term -> node_ok V L i (step_down term r).
Proof. intros H H1 H2. eapply node_change; [done|apply mem_raise; [apply H|unfold term_ok in H2; lia]|done|done]. Qed.

Lemma node_append_entries V L j r args r' reply : node_ok V L j r -> term_ok args.(ATerm) -> AppendEntries args r = (r', reply) ->
  node_ok V L j r' /\ term_ok reply.(ARTerm).
Proof.
  intros H Ht E. unfold AppendEntries in E. destruct (args.(ATerm) <? r.(currentTerm)) eqn:E1.
  { injection E as <- <-. split; [done|]. by pose proof H as [[_ [[Hr _] _ _ _ _] _ _ _ _] _]. }
  set (r1 := set_leader args.(LeaderID) _) in E.
  assert (node_ok V L j r1 /\ r1.(currentTerm) = args.(ATerm)) as [H1 Et].
  { unfold r1. destruct (r.(currentTerm) <? args.(ATerm)) eqn:E2.
    - split; [|done]. change (node_ok V L j (set_leader args.(LeaderID) (persistStateLocked (step_down args.(ATerm) r)))).
      assert (node_ok V L j (persistStateLocked (step_down args.(ATerm) r))) as Hp by (apply node_persist_ok, node_step_down; [done|lia|done]).
      eapply node_same_votes; [|exact Hp]; done.
    - split; [|cbn; lia]. assert (node_ok V L j (set_role Follower r)) as Hp by (eapply node_change; [done|apply mem_follow, H|done|done]). eapply node_same_votes; [|exact Hp]; done. }
  clearbody r1. destruct (negb (prev_matches args r1)).
  { injection E as <- <-. split; [done|]. cbn. by rewrite Et. }
  destruct (fold_left _ _ _) as [[l news] rebuild]. set (r2 := match args.(Entries) with [] => _ | _ :: _ => _ end) in E.
  assert (node_ok V L j r2 /\ r2.(currentTerm) = args.(ATerm)) as [H2 Et2].
  { unfold r2. destruct args.(Entries); [split; [|done]; eapply node_same_votes; [|exact H1]; done|]. split; [|done]. apply node_persist_ok.
    eapply node_same_votes; [|exact H1]. split; cbn; try done. destruct rebuild; [unfold RebuildLogFile|]; by rewrite append_meta. }
  clearbody r2. set (r3 := if _ <? _ then _ else r2) in E.
  assert (same_votes r2 r3) as H3.
  { unfold r3. destruct (r2.(commitIndex) <? args.(LeaderCommit)); [|apply same_votes_refl]. eapply same_votes_trans; [|apply applied_same]. done. }
  injection E as <- <-. split; [eapply node_same_votes; [exact H3|exact H2]|]. cbn. by rewrite (sv_term _ _ H3), Et2.
Qed.

Lemma node_append_reply V L i r p args reply : node_ok V L i r ->
  match reply with Some x => term_ok x.(ARTerm) | None => True end -> node_ok V L i (append_reply p args reply r).
Proof.
  intros H Ht. destruct reply as [x|]; cbn [append_reply].
  - destruct (_ <? _) eqn:E1; [apply node_step_down; [done|lia|done]|]. destruct (ASuccess x).
    + clear E1. eapply node_same_votes; [|exact H]. eapply same_votes_trans; [|apply commit_same]. by destruct (_ <? _).
    + destruct (0 <? _); [|done]. eapply node_same_votes; [|exact H]; done.
  - destruct r.(state) eqn:E; [done|done|]. eapply node_same_votes; [|exact H]; done.
Qed.

Lemma node_snapshot_reply V L i r p reply : node_ok V L i r -> term_ok reply.(SRTerm) -> node_ok V L i (snapshot_reply p (Some reply) r).
Proof.
  intros H Ht. cbn [snapshot_reply]. destruct (SSuccess reply); [eapply node_same_votes; [|exact H]; done|].
  destruct (_ <? _) eqn:E; [|done]. apply node_step_down; [done|lia|done].
Qed.

Lemma node_snapshot V L i r room index r' : node_ok V L i r -> TakeSnapshot room index r = Ret (Some r') -> node_ok V L i r'.
Proof.
  intros H E. unfold TakeSnapshot in E. destruct (_ <=? _); [done|]. destruct (_ <? _); [done|].
  destruct (TruncateLogs _ _) as [w|] eqn:Ew; [|done]. cbn in E. injection E as <-. apply truncate_meta in Ew. cbn in Ew.
  apply node_persist_ok. eapply node_same_votes; [|exact H]. by destruct room.
Qed.

Lemma node_install V L i r room args r' reply : node_ok V L i r -> term_ok args.(STerm) -> InstallSnapshot room args r = Ret (r', reply) ->
  node_ok V L i r' /\ term_ok reply.(SRTerm).
Proof.
  intros H Ht E. assert (forall x, node_ok V L i x -> term_ok x.(currentTerm)) as Hterm by (by intros x [[_ [[Hr _] _ _ _ _] _ _ _ _] _]).
  unfold InstallSnapshot in E. destruct (_ <? _); [injection E as <- <-; split; [done|by apply Hterm]|].
  set (r1 := if r.(currentTerm) <? args.(STerm) then _ else r) in E.
  assert (node_ok V L i r1) as H1 by (unfold r1; destruct (_ <? _) eqn:E2; [apply node_step_down; [done|lia|done]|done]). clearbody r1.
  destruct (_ <=? _); [injection E as <- <-; split; [done|by apply Hterm]|].
  destruct (TruncateLogs _ _) as [w|] eqn:Ew; [|done]. cbn [mbind go_bind] in E. apply truncate_meta in Ew. cbn in Ew.
  match type of E with Ret (?x, _) = _ => assert (node_ok V L i x) as H2 end.
  { apply node_persist_ok. eapply node_same_votes; [|exact H1]. by destruct room. }
  injection E as <- <-. split; [done|]. by apply Hterm in H2.
Qed.

Lemma node_client V L i r command r' x msgs : node_ok V L i r -> AppendEntry command r = Ret (r', x, msgs) -> node_ok V L i r'.
Proof.
  intros H E. unfold AppendEntry in E. destruct r.(state) eqn:Es; [by injection E as <- _ _|by injection E as <- _ _|].
  set (e := MkEntry _ _ _ _) in E. set (r1 := set_entries _ _ r) in E. assert (node_ok V L i r1) as H1 by (eapply node_same_votes; [|exact H]; by split).
  destruct (_ =? 1)%nat.
  - injection E as <- _ _. eapply node_same_votes; [|exact H1]. eapply same_votes_trans; [|apply applied_same]. done.
  - destruct (replicateLog r1); [|done]. cbn in E. by injection E as <- _ _.
Qed.

Lemma disk_loads V L i w term vote : on_disk w.(metaFile) term vote -> accounts_for V L i term vote -> LoadState w = Ok (term, vote).
Proof.
  intros Hd Ha. pose proof (af_range _ _ _ _ _ Ha) as [Hr Hs]. unfold on_disk in Hd. destruct w.(metaFile) as [b|] eqn:Eb.
  - subst b. apply LoadState_ok; [done|unfold is_s64; lia|done].
  - unfold LoadState. rewrite Eb. destruct Hd as [-> ->]. done.
Qed.

(** A restarted node comes back with the term and vote of its file. *)
Lemma node_restart V L i r w r' : node_ok V L i r -> r.(wal).(saved) = true -> state_file w = state_file r.(wal) ->
  NewRaftGroup r.(peers) r.(me) w = Ret r' -> node_ok V L i r'.
Proof.
  intros [[H1 _ _ _ _ _] [Hlen Hdisk]] Hsv Ew E. destruct (Hdisk Hsv) as (term & vote & Hd & Ha & _).
  assert (LoadState w = Ok (term, vote)) as Hls by (eapply disk_loads; [|exact Ha]; by injection Ew as ->).
  assert (r'.(me) = r.(me) /\ r'.(peers) = r.(peers) /\ r'.(state) = Follower /\ r'.(votedFor) = vote /\ r'.(currentTerm) = term /\
    r'.(wal) = w /\ r'.(elections) = []) as (E1 & E2 & E3 & E4 & E5 & E6 & E7).
  { unfold NewRaftGroup, readPersist, LoadPersist in E. cbn [wal] in E. rewrite Hls in E. destruct (LoadLogs w) as [logs|]; [|done]. cbn [mbind go_bind] in E.
    destruct (LoadLatestSnapshot w) as [[[[[d si] st]|]|]|]; cbn [mbind go_bind PLastIncludedIndex] in E; [| | |done].
    - destruct (0 <? si) eqn:Es; cbn [set_snapshot LastIncludedIndex set_progress set_vote set_entries] in E; rewrite Es in E; by injection E as <-.
    - cbn in E. by injection E as <-.
    - cbn in E. by injection E as <-. }
  split; [split; rewrite ?E1, ?E2, ?E3, ?E4, ?E5, ?E7; done|]. rewrite E6, Ew. split; [done|]. intros _. rewrite E3. by exists term, vote.
Qed.

(** *** Messages *)
Lemma requests_elem r l msgs : requests r l = Ret msgs -> forall x, x ∈ msgs -> x.1 ∈ l /\ request_for r x.1 = Ret (Some x.2).
Proof.
  revert msgs. induction l as [|i l IH]; intros msgs E; cbn [requests] in E; [injection E as <-; by intros x ?%elem_of_nil|].
  destruct (request_for r i) as [y|] eqn:Ei; [|done]. cbn [mbind go_bind] in E. destruct (requests r l) as [ys|]; [|done]. cbn in E.
  assert (msgs = match y with Some y => (i, y) :: ys | None => ys end) as -> by (by injection E).
  intros x Hx. assert (x ∈ ys \/ y = Some x.2 /\ x.1 = i) as [Hin | [-> Hxi]].
  { destruct y; [apply elem_of_cons in Hx as [-> | Hx]|]; auto. }
  - destruct (IH ys eq_refl x Hin). split; [by apply elem_of_cons; right|done].
  - rewrite Hxi. split; [by apply elem_of_cons; left|done].
Qed.

Lemma request_term r i x : request_for r i = Ret (Some x) ->
  match x with RpcAppend args => args.(ATerm) = r.(currentTerm) | RpcSnapshot args => args.(STerm) = r.(currentTerm) end.
Proof.
  unfold request_for. destruct (_ && _).
  - destruct (LoadLatestSnapshot _) as [[[[[d si] st]|]|]|]; cbn; try done. by injection 1 as <-.
  - by injection 1 as <-.
Qed.

Lemma replicate_msgs V L i r msgs : node_ok V L i r -> replicateLog r = Ret msgs -> forall m, m ∈ map (msg_of i) msgs -> msg_ok V m.
Proof.
  intros H E m. rewrite list_elem_of_fmap. intros (x & -> & Hx). pose proof H as [[(Hme & Hpe & _) [[Hr _] _ _ _ _] _ _ _ _] _].
  unfold replicateLog in E. destruct r.(state); try (injection E as <-; by apply elem_of_nil in Hx).
  destruct (requests_elem _ _ _ E x Hx) as [[_ Ho]%others_elem Hq]. apply request_term in Hq. destruct x as [j [args|args]]; cbn in *; unfold term_ok; rewrite Hq; [|done].
  split; [congruence|done].
Qed.

Lemma of_go_Some {A} (m : go A) x : of_go m = Some x -> m = Ret x.
Proof. destruct m; [by injection 1 as ->|done]. Qed.

(** *** Every step keeps the record of the past *)
Lemma deliver_elections compaction room m c c' V L : Z.of_nat n < 2 ^ 63 -> elections_ok V L c -> m ∈ c.(net) -> deliver compaction room m c = Some c' ->
  exists V', v_grown V V' /\ elections_ok V' L c'.
Proof.
  intros Hn H Hm E. pose proof H as [Hnodes Hnet Hwon]. apply Hnet in Hm.
  destruct m as [i j args|i j args reply|i j args|i j args reply|i j args|i j reply]; cbn [deliver] in E; cbn in Hm.
  - apply bind_Some in E as (r & Hj & E). destruct (RequestVote args r) as [r' reply] eqn:Er. injection E as <-. destruct Hm as (Hi & Hij & Hid & Ht).
    destruct (node_request_vote V L j r args i r' reply Hn Hwon (Hnodes j r Hj) Hi Hij Hid Ht Er) as (V' & Hg & Hs & Hr & Hw' & Ht' & Hv').
    pose proof (Hnodes j r Hj) as [[(_ & _ & Hlt) _ _ _ _ _] _].
    exists V'. split; [done|]. eapply (put_elections V L V' L); [done|done|done|by intros ? ?| |done|done|]; [intros i' Hi'; split; [by apply Hs|done]|].
    intros m' ->%list_elem_of_singleton. split_and!; done.
  - apply bind_Some in E as (r & Hi & E). apply bind_Some in E as (k & Hk & E). injection E as <-. destruct Hm as (Hj & Hij & Ht & Hv).
    unfold find_ballot in Hk. apply fmap_Some in Hk as ([k' b] & Hk & ->). apply list_find_Some in Hk as (Hk & Hb & _). cbn [fst].
    unfold waits_for in Hb. apply andb_true_iff in Hb as [Hb1%Z.eqb_eq Hb2%bool_decide_eq_true].
    eapply put_quiet; [done|done| |by intros m' ?%elem_of_nil]. apply (node_vote_reply V L i r k' j b (Some reply)); [by apply Hnodes|done|done|]. rewrite Hb1. done.
  - apply bind_Some in E as (r & Hj & E). destruct (AppendEntries args r) as [r' reply] eqn:Er. injection E as <-. destruct Hm as [_ Ht].
    destruct (node_append_entries V L j r args r' reply (Hnodes j r Hj) Ht Er) as [Hr Hrt].
    eapply put_quiet; [done|done|done|]. by intros m' ->%list_elem_of_singleton.
  - apply bind_Some in E as (r & Hi & E). injection E as <-. eapply put_quiet; [done|done| |by intros m' ?%elem_of_nil].
    apply (node_append_reply V L i r j args (Some reply)); [by apply Hnodes|done].
  - destruct compaction; [|done]. apply bind_Some in E as (r & Hj & E). apply bind_Some in E as ([r' reply] & Er%of_go_Some & E). injection E as <-.
    destruct (node_install V L j r room args r' reply (Hnodes j r Hj) Hm Er) as [Hr Ht]. eapply put_quiet; [done|done|done|]. by intros m' ->%list_elem_of_singleton.
  - destruct compaction; [|done]. apply bind_Some in E as (r & Hi & E). injection E as <-. eapply put_quiet; [done|done| |by intros m' ?%elem_of_nil].
    apply (node_snapshot_reply V L i r j reply); [by apply Hnodes|done].
Qed.

(** A new leader: the winner of an election of a term without one. *)
Definition crowned L L' c c' : Prop := exists i k ev r, c.(nodes) !! i = Some r /\ r.(state) = Candidate /\ L r.(currentTerm) = None /\
  L' = crown r.(currentTerm) i L /\ c' = put i (awaitVotes k ev r) [] c.

Lemma act_elections compaction a c c' V L : Z.of_nat n < 2 ^ 63 -> elections_ok V L c -> restart_saved a c = true -> act compaction a c = Some c' ->
  exists V' L', v_grown V V' /\ elections_ok V' L' c' /\ (L' = L \/ crowned L L' c c').
Proof.
  intros Hn H Hsv E. pose proof H as [Hnodes Hnet Hwon].
  assert ((exists V', v_grown V V' /\ elections_ok V' L c') -> exists V' L', v_grown V V' /\ elections_ok V' L' c' /\ (L' = L \/ crowned L L' c c')) as Hq.
  { intros (V' & Hv & H'). exists V', L. auto. }
  destruct a as [i|m room|i k p|i k timeout|i cmd|i|i p args|i index room|i fs|i cut]; cbn [act] in E.
  - apply bind_Some in E as (r & Hi & E). destruct (negb _) eqn:Et; [done|]. destruct (startElection r) as [r' [args|]] eqn:Es; [|done]. injection E as <-.
    destruct (node_elect V L i r r' args Hn (Hnodes i r Hi) ltac:(apply negb_false_iff in Et; lia) Es) as (Hr & _ & Hid & Ht & Ho & _).
    apply Hq; eapply put_quiet; [done|done|done|]. intros m (j & -> & Hj)%list_elem_of_fmap. rewrite Ho in Hj. apply others_elem in Hj as [_ Hj].
    pose proof (Hnodes i r Hi) as [[(Hme & _ & Hlt) _ _ _ _ _] _]. split_and!; try done. congruence.
  - apply bind_Some in E as (m' & Hm%list_elem_of_lookup_2 & E). apply Hq. by eapply deliver_elections.
  - apply bind_Some in E as (r & Hi & E). apply bind_Some in E as (b & Hk & E). destruct (bool_decide _) eqn:Eb; [|done]. injection E as <-.
    apply Hq; eapply put_quiet; [done|done| |by intros m' ?%elem_of_nil]. apply (node_vote_reply V L i r k p b None); [by apply Hnodes|done|by apply bool_decide_eq_true in Eb|done].
  - apply bind_Some in E as (r & Hi & E). apply bind_Some in E as (b & Hk & E). destruct (negb _); [done|].
    assert (exists ev, match ev with Some v => head b.(voteCh) = Some v | None => True end /\ c' = put i (awaitVotes k ev r) [] c) as (ev & Hev & ->).
    { destruct (_ || _); [exists None; by injection E as <-|]. apply bind_Some in E as (v & Hv & E). exists (Some v). by injection E as <-. }
    destruct (node_await V L i r k b ev Hwon (Hnodes i r Hi) Hk Hev) as [[Hr _] | (Hst & Hl & Hr & Hw')].
    + apply Hq; eapply put_quiet; [done|done|done|by intros m' ?%elem_of_nil].
    + exists V, (crown r.(currentTerm) i L). split; [by intros ? ?|]. split; [|right; by exists i, k, ev, r].
      eapply (put_elections V L V (crown r.(currentTerm) i L)); [done|done|by intros ? ?| | |done|done|by intros m' ?%elem_of_nil].
      * intros T j Hj. unfold crown. destruct (T =? r.(currentTerm)) eqn:ET; [|done]. apply Z.eqb_eq in ET. congruence.
      * intros j Hj. split; [done|]. intros T. unfold crown. destruct (T =? r.(currentTerm)) eqn:ET; [|done]. apply Z.eqb_eq in ET. split; [|congruence]. intros [= ?]. congruence.
  - apply bind_Some in E as (r & Hi & E). destruct (negb _); [done|]. apply bind_Some in E as ([[r' x] msgs] & Er%of_go_Some & E). injection E as <-. cbn [fst snd].
    pose proof (node_client V L i r cmd r' x msgs (Hnodes i r Hi) Er) as Hr. apply Hq; eapply put_quiet; [done|done|done|].
    unfold AppendEntry in Er. destruct r.(state) eqn:Es; [injection Er as <- <- <-; by intros m ?%elem_of_nil|injection Er as <- <- <-; by intros m ?%elem_of_nil|].
    destruct (_ =? 1)%nat; [injection Er as <- <- <-; by intros m ?%elem_of_nil|]. match type of Er with mbind _ ?m = _ => destruct m as [ms|] eqn:Em; [|done] end. cbn in Er. injection Er as <- <- <-.
    by eapply replicate_msgs.
  - apply bind_Some in E as (r & Hi & E). apply bind_Some in E as (msgs & Er%of_go_Some & E). injection E as <-. apply Hq; eapply put_quiet; [done|done|by apply Hnodes|].
    eapply replicate_msgs; [by apply Hnodes|done].
  - apply bind_Some in E as (r & Hi & E). injection E as <-. apply Hq; eapply put_quiet; [done|done| |by intros m' ?%elem_of_nil].
    apply (node_append_reply V L i r p args None); [by apply Hnodes|done].
  - destruct (negb compaction); [done|]. apply bind_Some in E as (r & Hi & E). apply bind_Some in E as (x & Er%of_go_Some & E). apply bind_Some in E as (r' & -> & E). injection E as <-.
    apply Hq; eapply put_quiet; [done|done| |by intros m' ?%elem_of_nil]. eapply node_snapshot; [by apply Hnodes|done].
  - apply bind_Some in E as (r & Hi & E). injection E as <-. apply Hq; eapply put_quiet; [done|done| |by intros m' ?%elem_of_nil].
    eapply node_same_votes; [|by apply Hnodes]. done.
  - apply bind_Some in E as (r & Hi & E). apply bind_Some in E as (r' & Er%of_go_Some & E). injection E as <-. cbn in Hsv. rewrite Hi in Hsv.
    apply Hq; eapply put_quiet; [done|done| |by intros m' ?%elem_of_nil]. eapply node_restart; [by apply Hnodes|done| |exact Er]. done.
Qed.

Lemma crowned_grown L L' c c' : L' = L \/ crowned L L' c c' -> grown L L'.
Proof.
  intros [-> | (i & k & ev & r & _ & _ & Hl & -> & _)] T x Hx; [done|]. unfold crown.
  destruct (T =? r.(currentTerm)) eqn:ET; [|done]. apply Z.eqb_eq in ET. congruence.
Qed.

Lemma run_elections compaction l c c' V L : Z.of_nat n < 2 ^ 63 -> elections_ok V L c -> always restart_saved compaction l c = true -> run compaction l c = Some c' ->
  exists V' L', v_grown V V' /\ grown L L' /\ elections_ok V' L' c'.
Proof.
  intros Hn. revert c V L. induction l as [|a l IH]; intros c V L H Hsv E; cbn [run] in E.
  { injection E as <-. exists V, L. split; [by intros ? ?|]. split; [by intros ? ?|done]. }
  apply bind_Some in E as (c1 & E1 & E). cbn [always] in Hsv. rewrite E1 in Hsv. apply andb_true_iff in Hsv as [Hsv1 Hsv].
  destruct (act_elections _ _ _ _ V L Hn H Hsv1 E1) as (V1 & L1 & Hv1 & H1 & Hl1).
  assert (grown L L1) as Hg1 by (by eapply crowned_grown).
  destruct (IH c1 V1 L1 H1 Hsv E) as (V2 & L2 & Hv2 & Hl2 & H2). exists V2, L2. split; [|split; [|done]].
  - intros j T x Hx. by apply Hv2, Hv1.
  - intros T x Hx. by apply Hl2, Hg1.
Qed.

Lemma boot_elections : elections_ok (fun _ _ => None) (fun _ => None) (boot n).
Proof.
  split; [|by intros m ?%elem_of_nil|done]. intros i r Hi. unfold boot in Hi. cbn in Hi. apply list_lookup_fmap_Some in Hi as (j & -> & Hj).
  apply lookup_seq in Hj as [-> Hj]. assert (accounts_for (fun _ _ => None) (fun _ => None) i 0 (-1)) as Ha by (split; [split; [lia|unfold is_s64; lia]|done|done|done|done]).
  split; [split; cbn; try done|]. split; [cbn; lia|]. intros _. exists 0, (-1). done.
Qed.
End Elections.

(** C7: Election safety.  In a cluster of any size whose nodes start with empty
    directories, through any sequence of elections, time-outs, lost, late and
    repeated messages, failed calls, client commands, snapshots, failed saves of
    term and vote, and restarts from the files -- the log file cut at any byte
    -- no two different nodes are ever leader of the same term, whether at the
    same time or one after the other.  Condition: a node restarts only while its
    last save of term and vote has succeeded.  A failed save is only logged and
    the vote is granted all the same, so without this condition there can be two
    leaders (failed_save_elects_two).  Operations on the log file and the
    snapshots do not fail, and terms stay below 2^63. *)
Theorem election_safety n l l' c c' i j r r' : Z.of_nat n < 2 ^ 63 ->
  run true l (boot n) = Some c -> run true l' c = Some c' ->
  always restart_saved true l (boot n) = true -> always restart_saved true l' c = true ->
  c.(nodes) !! i = Some r -> r.(state) = Leader -> c'.(nodes) !! j = Some r' -> r'.(state) = Leader ->
  r.(currentTerm) = r'.(currentTerm) -> i = j.
Proof.
  intros Hn E E' Hs Hs' Hi Hl Hj Hl' Ht. destruct (run_elections n true l _ _ _ _ Hn (boot_elections n) Hs E) as (V & L & _ & _ & H).
  destruct (run_elections n true l' _ _ _ _ Hn H Hs' E') as (V' & L' & _ & Hg & H').
  pose proof (eo_nodes _ _ _ _ H i r Hi) as [[_ _ _ _ H1 _] _]. pose proof (eo_nodes _ _ _ _ H' j r' Hj) as [[_ _ _ _ H2 _] _].
  specialize (Hg _ _ (H1 Hl)). rewrite Ht, (H2 Hl') in Hg. by injection Hg.
Qed.

Notation d m := (ADeliver m true).
(** ** A run *)
Definition two_leaders_run : list action :=
  [AElect 0; d 0; d 2; AAwait 0 0 false; AClient 0 (str "a"); d 3; d 5]%nat.
Definition successor_run : list action := [AElect 1; d 7; d 8; AAwait 1 0 false; AClient 1 (str "b"); AHeartbeat 0]%nat.

(** Node 2 cannot save its vote, tries again, and restarts. *)
Definition unsaved_run : list action :=
  [AHeartbeat 0; d 4; AFaults 2 [Some OpenFails]; AElect 2; AElect 2; ARestart 2 30]%nat.

Definition after (compaction : bool) (l : list action) (c : cluster) : cluster := default c (run compaction l c).
Definition node_of (i : nat) (c : cluster) : Raft := default (fresh_node 0 0) (c.(nodes) !! i).
Definition entry_of (k : nat) (r : Raft) : LogEntry := default (MkEntry 0 0 [] false) (r.(log) !! k).
Definition first_term : cluster := after true two_leaders_run (boot 3).
Definition later : cluster := after true unsaved_run first_term.

Lemma election_safety_witness :
  run true two_leaders_run (boot 3) = Some first_term /\ run true unsaved_run first_term = Some later /\
  (node_of 0 first_term).(state) = Leader /\ (node_of 0 later).(state) = Leader /\ 0%nat = 0%nat.
Proof.
  assert (run true two_leaders_run (boot 3) = Some first_term) as E by (vm_compute; reflexivity).
  assert (run true unsaved_run first_term = Some later) as E' by (vm_compute; reflexivity).
  do 2 (split; [assumption|]). do 2 (split; [vm_compute; reflexivity|]).
  apply (election_safety 3 two_leaders_run unsaved_run first_term later 0 0 (node_of 0 first_term) (node_of 0 later) ltac:(lia) E E'); vm_compute; reflexivity.
Defined.
End RaftSpec.
