(* ===== verification/RaftLog.v ===== *)
(** * Log matching

    Without snapshots, logs that hold an entry of the same index and term are
    equal up to it.  Every entry of a term was created by the one leader of that
    term, so the log of that leader determines everything before it. *)
From S2P Require Import Prelude Bytes RaftWal Raft RaftSpec.
Import RaftWal Raft RaftSpec.

Module RaftLog.
Notation log_bytes l := (concat (map writeEntry l)).
(** A node that restarts finds its term and vote, and a log file that ends
    behind some entry of its log. *)
Definition restart_whole (a : action) (c : cluster) : bool :=
  restart_saved a c &&
  match a with
  | ARestart i cut =>
      match c.(nodes) !! i with
      | Some r => existsb (fun k => bool_decide (take cut r.(wal).(logFile) = log_bytes (take k r.(log)))) (seq 0 (S (length r.(log))))
      | None => true
      end
  | _ => true
  end.

(** The log of the leader of each term, as far as it has grown. *)
Notation histories := (Z -> list LogEntry).

Record log_ok (L : leaders) (H : histories) (l : list LogEntry) : Prop := {
  lo_agree : forall k e, l !! k = Some e -> take (S k) l = take (S k) (H e.(Term));
  lo_entry : forall k e, l !! k = Some e -> e.(Index) = Z.of_nat k /\ entry_ok e /\ L e.(Term) <> None;
  lo_len : len l <= 2 ^ 62 }.

Lemma log_ok_take L H l m : log_ok L H l -> log_ok L H (take m l).
Proof.
  intros [H1 H2 H3]. split.
  - intros k e [Hk Hm]%lookup_take_Some. rewrite take_take, Nat.min_l by lia. by apply H1.
  - intros k e [Hk Hm]%lookup_take_Some. by apply H2.
  - unfold len in *. rewrite length_take. lia.
Qed.

Lemma log_ok_grow L H L' H' l : grown L L' -> (forall T, L T <> None -> H T `prefix_of` H' T) -> log_ok L H l -> log_ok L' H' l.
Proof.
  intros HL HH [H1 H2 H3]. split; [| |done].
  - intros k e Hk. destruct (H2 k e Hk) as (_ & _ & Hn). destruct (HH _ Hn) as [x ->]. rewrite (H1 k e Hk). rewrite take_app_le; [done|].
    pose proof (f_equal length (H1 k e Hk)) as El. rewrite !length_take in El. apply lookup_lt_Some in Hk. lia.
  - intros k e Hk. destruct (H2 k e Hk) as (Hi & He & Hn). do 2 (split; [done|]). destruct (L e.(Term)) as [i|] eqn:E; [|done]. by rewrite (HL _ _ E).
Qed.

Lemma log_ok_snoc L H l e : log_ok L H l -> e.(Index) = len l -> entry_ok e -> L e.(Term) <> None -> H e.(Term) = l ++ [e] -> len l < 2 ^ 62 ->
  log_ok L H (l ++ [e]).
Proof.
  intros [H1 H2 H3] Hi He Hn Hh Hl. split.
  - intros k x [Hk | [Hk Hx]]%lookup_app_Some; [rewrite take_app_le by (apply lookup_lt_Some in Hk; lia); by apply H1|].
    apply list_lookup_singleton_Some in Hx as [Hx <-]. by rewrite Hh.
  - intros k x [Hk | [Hk Hx]]%lookup_app_Some; [by apply H2|]. apply list_lookup_singleton_Some in Hx as [Hx <-]. split; [unfold len in Hi; lia|done].
  - rewrite len_app. change (len [e]) with 1. lia.
Qed.

Definition hist_ok (L : leaders) (H : histories) : Prop := forall T, match L T with None => H T = [] | Some _ => log_ok L H (H T) end.

Record node_log (L : leaders) (H : histories) (r : Raft) : Prop := {
  nl_base : r.(LastIncludedIndex) = 0;
  nl_log : log_ok L H r.(log);
  nl_file : r.(wal).(logFile) = log_bytes r.(log);
  nl_snap : r.(wal).(snapshots) = [];
  nl_lead : r.(state) = Leader -> r.(log) = H r.(currentTerm) }.

(** The entries of a request follow the entry it names, in the leader's log. *)
Definition follows (l : list LogEntry) (args : AppendEntriesArgs) : Prop := exists p, args.(PrevLogIndex) = Z.of_nat p - 1 /\
  (forall q, p = S q -> exists e, l !! q = Some e /\ args.(PrevLogTerm) = e.(Term)) /\ args.(Entries) `prefix_of` drop p l.
Definition msg_log (L : leaders) (H : histories) (m : msg) : Prop :=
  match m with
  | MAppend i j args => L args.(ATerm) = Some i /\ (args.(Entries) <> [] -> follows (H args.(ATerm)) args)
  | _ => True
  end.

Record logs_ok (L : leaders) (H : histories) (c : cluster) : Prop := {
  go_nodes : forall i r, c.(nodes) !! i = Some r -> node_log L H r;
  go_net : forall m, m ∈ c.(net) -> msg_log L H m;
  go_hist : hist_ok L H }.

(** ** Growing logs *)
Definition h_grown (L : leaders) (H H' : histories) : Prop := forall T, L T <> None -> H T `prefix_of` H' T.

Lemma follows_grow l l' args : l `prefix_of` l' -> follows l args -> follows l' args.
Proof.
  intros [x ->] (p & Hp & Hq & He). exists p. split; [done|]. split.
  - intros q Eq. destruct (Hq q Eq) as (e & He1 & He2). exists e. split; [by apply lookup_app_l_Some|done].
  - destruct (decide (p <= length l)%nat) as [Hl | Hl].
    + rewrite drop_app_le by done. by apply prefix_app_r.
    + rewrite drop_ge in He by lia. apply prefix_nil_inv in He. rewrite He. apply prefix_nil.
Qed.

Lemma msg_grow L H L' H' m : grown L L' -> h_grown L H H' -> msg_log L H m -> msg_log L' H' m.
Proof.
  intros HL HH. destruct m; cbn; try done. intros [Hl Hf]. split; [by apply HL|]. intros He. eapply follows_grow; [|by apply Hf]. apply HH. by rewrite Hl.
Qed.

(** ** Handlers that leave the log alone *)
Record keeps_log (r r' : Raft) : Prop := {
  kl_log : r'.(log) = r.(log); kl_base : r'.(LastIncludedIndex) = r.(LastIncludedIndex);
  kl_file : r'.(wal).(logFile) = r.(wal).(logFile); kl_snap : r'.(wal).(snapshots) = r.(wal).(snapshots);
  kl_lead : r'.(state) = Leader -> r.(state) = Leader /\ r'.(currentTerm) = r.(currentTerm) }.

Lemma keeps_refl r : keeps_log r r.
Proof. done. Qed.
Lemma keeps_trans r1 r2 r3 : keeps_log r1 r2 -> keeps_log r2 r3 -> keeps_log r1 r3.
Proof. intros [A1 A2 A3 A4 A5] [B1 B2 B3 B4 B5]. split; [congruence|congruence|congruence|congruence|]. intros []%B5. destruct A5; [done|]. split; [done|congruence]. Qed.

Lemma node_keeps L H r r' : keeps_log r r' -> node_log L H r -> node_log L H r'.
Proof.
  intros [E1 E2 E3 E4 E5] [H1 H2 H3 H4 H5]. split; rewrite ?E1, ?E2, ?E3, ?E4; try done. intros [Hl Ht]%E5. rewrite Ht. by apply H5.
Qed.

Lemma save_files t v w : (SaveState t v w).1.(logFile) = w.(logFile) /\ (SaveState t v w).1.(snapshots) = w.(snapshots).
Proof. unfold SaveState. by destruct (mjoin (head w.(faults))) as [[|m]|]. Qed.
Lemma persist_keeps r : keeps_log r (persistStateLocked r).
Proof. destruct (save_files r.(currentTerm) r.(votedFor) r.(wal)). by split. Qed.

Lemma apply_keeps fuel r : keeps_log r (apply_loop fuel r).
Proof. revert r. induction fuel as [|fuel IH]; intros r; [done|]. cbn [apply_loop]. eapply keeps_trans; [|apply IH]. by destruct (at_rel _ _). Qed.
Lemma commit_keeps r : keeps_log r (updateCommitIndex r).
Proof.
  unfold updateCommitIndex. destruct r.(state) eqn:E; try apply keeps_refl. destruct (find_commit _ _); [|apply keeps_refl].
  eapply keeps_trans; [|apply apply_keeps]. by split.
Qed.
Lemma append_reply_keeps p args reply r : keeps_log r (append_reply p args reply r).
Proof.
  destruct reply as [x|]; cbn [append_reply].
  - destruct (r.(currentTerm) <? _); [by split|]. destruct (ASuccess x); [|by destruct (0 <? _)]. eapply keeps_trans; [|apply commit_keeps]. by destruct (_ <? _).
  - destruct r.(state) eqn:E; [apply keeps_refl|apply keeps_refl|]. by split.
Qed.
Lemma post_keeps k p v r : keeps_log r (post k p v r).
Proof. unfold post. by destruct (_ !! _). Qed.
Lemma vote_reply_keeps k p reply r : keeps_log r (vote_reply k p reply r).
Proof.
  destruct reply as [x|]; cbn [vote_reply]; [|apply post_keeps]. destruct (_ <? _); [|apply post_keeps].
  eapply keeps_trans; [|apply post_keeps]. by split.
Qed.
Lemma request_vote_keeps args r : keeps_log r (RequestVote args r).1.
Proof.
  unfold RequestVote. destruct (args.(VTerm) <? _); [apply keeps_refl|]. set (r1 := if r.(currentTerm) <? _ then _ else r).
  assert (keeps_log r r1) as H1 by (unfold r1; destruct (_ <? _); [|done]; eapply keeps_trans; [|apply persist_keeps]; by split).
  destruct (_ && _); [|exact H1]. eapply keeps_trans; [exact H1|]. eapply keeps_trans; [|apply persist_keeps]. by split.
Qed.
Lemma elect_keeps r r' args : startElection r = (r', Some args) -> keeps_log r r'.
Proof.
  unfold startElection. set (r1 := set_vote _ _ _). assert (keeps_log r r1) as H1 by (by split).
  pose proof (keeps_trans _ _ _ H1 (persist_keeps r1)) as H2. destruct r.(state); [| |done]; destruct (last_log _); injection 1 as <- _; by destruct H2; split.
Qed.

(** Counting votes: nothing but the role of a candidate changes. *)
Lemma await_keeps k ev r : let r' := awaitVotes k ev r in
  r'.(log) = r.(log) /\ r'.(LastIncludedIndex) = r.(LastIncludedIndex) /\ r'.(wal) = r.(wal) /\ r'.(currentTerm) = r.(currentTerm) /\
  (r'.(state) = Leader -> r.(state) <> Follower).
Proof.
  unfold awaitVotes. destruct (_ !! _) as [b|]; [|by split_and!; try done; intros ->].
  assert (forall T x, let y := wonAsCandidate T x in y.(log) = x.(log) /\ y.(LastIncludedIndex) = x.(LastIncludedIndex) /\ y.(wal) = x.(wal) /\
    y.(currentTerm) = x.(currentTerm) /\ (y.(state) = Leader -> x.(state) <> Follower)) as Hw.
  { intros T x. unfold wonAsCandidate. destruct (bool_decide _ && _) eqn:E; cbn zeta; [|by split_and!; try done; intros ->].
    apply andb_true_iff in E as [E%bool_decide_eq_true _]. split_and!; try done. by rewrite E. }
  destruct (_ - 1 =? 0); [match goal with |- context [wonAsCandidate ?T ?x] => exact (Hw T x) end|]. destruct ev as [v|].
  - destruct (v && _); [match goal with |- context [wonAsCandidate ?T ?x] => exact (Hw T x) end|]. by split_and!; try done; cbn; intros ->.
  - destruct (bool_decide _ && _); by split_and!; try done; cbn; intros ->.
Qed.

(** ** Receiving entries *)
Lemma rel_plain r i : r.(LastIncludedIndex) = 0 -> relIndex r i = i.
Proof. intros E. unfold relIndex. rewrite E. cbn. lia. Qed.
Lemma at_rel_Some l i e : at_rel l i = Some e -> 0 <= i /\ l !! Z.to_nat i = Some e.
Proof. unfold at_rel. destruct (_ && _) eqn:E; [|done]. intros H. split; [lia|done]. Qed.
Lemma at_rel_nat l k : at_rel l (Z.of_nat k) = l !! k.
Proof.
  unfold at_rel. destruct (_ && _) eqn:E; [by rewrite Nat2Z.id|]. symmetry. apply lookup_ge_None. unfold len in E. lia.
Qed.

Section Merge.
Context (L : leaders) (H : histories) (r : Raft) (T : Z) (Hbase : r.(LastIncludedIndex) = 0) (HT : log_ok L H (H T)).

Lemma take_snoc_prefix p e : H T !! p = Some e -> take p (H T) ++ [e] = take (S p) (H T).
Proof. intros He. by rewrite (take_S_r _ _ e). Qed.

(** One entry: the log agrees with the leader's one entry further. *)
Lemma merge_one l news rebuild p e : log_ok L H l -> (p <= length l)%nat -> take p l = take p (H T) -> H T !! p = Some e ->
  exists l' news' rebuild', merge_entry r (l, news, rebuild) e = (l', news', rebuild') /\ log_ok L H l' /\ (S p <= length l')%nat /\
    take (S p) l' = take (S p) (H T) /\ (rebuild' = false -> rebuild = false /\ exists x, l' = l ++ x /\ news' = news ++ x).
Proof.
  intros Hl Hp Ht He. destruct (lo_entry _ _ _ HT p e He) as (Hi & _ & _). unfold merge_entry. rewrite rel_plain, Hi, at_rel_nat by done.
  replace (Z.of_nat p <? 0) with false by lia. pose proof (lookup_lt_Some _ _ _ He) as Hlt.
  assert (forall b, b = true \/ l = take p (H T) ->
    log_ok L H (take p (H T) ++ [e]) /\ (S p <= length (take p (H T) ++ [e]))%nat /\ take (S p) (take p (H T) ++ [e]) = take (S p) (H T)) as Hcut.
  { intros b _. rewrite take_snoc_prefix by done. split; [by apply log_ok_take|]. rewrite length_take, take_take, Nat.min_id. split; [lia|done]. }
  destruct (l !! p) as [old|] eqn:Eo.
  - destruct (negb (old.(Term) =? e.(Term))) eqn:Ed; cbn [fst snd].
    + rewrite Nat2Z.id. change (firstn p l) with (take p l). rewrite Ht. rewrite (proj2 (Z.leb_le _ _)) by (unfold len; rewrite length_take; lia).
      do 3 eexists. split; [done|]. destruct (Hcut true) as (? & ? & ?); [by left|]. split_and!; done.
    + apply negb_false_iff, Z.eqb_eq in Ed. pose proof (lookup_lt_Some _ _ _ Eo) as Hpl. replace (len l <=? Z.of_nat p) with false by (unfold len; lia).
      do 3 eexists. split; [done|]. split; [done|]. split; [lia|]. split; [|intros ->; split; [done|]; exists []; by rewrite !app_nil_r].
      rewrite (lo_agree _ _ _ Hl p old Eo), Ed. symmetry. by apply (lo_agree _ _ _ HT).
  - apply lookup_ge_None in Eo. assert (l = take p (H T)) as El by (rewrite <- Ht; symmetry; apply take_ge; lia).
    replace (len l <=? Z.of_nat p) with true by (unfold len; lia). do 3 eexists. split; [done|].
    destruct (Hcut false) as (? & ? & ?); [by right|]. rewrite <- El in *. split_and!; try done. intros ->. split; [done|]. by exists [e].
Qed.

Lemma merge_all es : forall l news rebuild p, log_ok L H l -> (p <= length l)%nat -> take p l = take p (H T) -> es `prefix_of` drop p (H T) ->
  exists l' news' rebuild', fold_left (merge_entry r) es (l, news, rebuild) = (l', news', rebuild') /\ log_ok L H l' /\
    (rebuild' = false -> rebuild = false /\ exists x, l' = l ++ x /\ news' = news ++ x).
Proof.
  induction es as [|e es IH]; intros l news rebuild p Hl Hp Ht He; cbn [fold_left].
  { do 3 eexists. split; [done|]. split; [done|]. intros ->. split; [done|]. exists []. by rewrite !app_nil_r. }
  destruct He as [x Hx]. assert (H T !! p = Some e) as Hpe by (rewrite <- (Nat.add_0_r p), <- lookup_drop, Hx; done).
  destruct (merge_one l news rebuild p e Hl Hp Ht Hpe) as (l1 & n1 & b1 & -> & Hl1 & Hp1 & Ht1 & Hf1).
  destruct (IH l1 n1 b1 (S p) Hl1 Hp1 Ht1) as (l2 & n2 & b2 & -> & Hl2 & Hf2).
  { exists x. replace (S p) with (p + 1)%nat by lia. by rewrite <- drop_drop, Hx. }
  do 3 eexists. split; [done|]. split; [done|]. intros E. destruct (Hf2 E) as [E1 (y & -> & ->)]. destruct (Hf1 E1) as [E0 (z & -> & ->)].
  split; [done|]. exists (z ++ y). by rewrite !app_assoc.
Qed.
End Merge.

(** The entry before the new ones matches: the logs agree up to it. *)
Lemma prev_agrees L H r args T : node_log L H r -> log_ok L H (H T) -> prev_matches args r = true -> follows (H T) args ->
  exists p, (p <= length r.(log))%nat /\ take p r.(log) = take p (H T) /\ args.(Entries) `prefix_of` drop p (H T).
Proof.
  intros [Hb Hl _ _ _] HT Hm (p & Hp & Hq & He). exists p. destruct p as [|q]; [split; [lia|done]|].
  destruct (Hq q eq_refl) as (e & He1 & He2). unfold prev_matches in Hm. rewrite Hp in Hm. rewrite (proj2 (Z.ltb_ge (Z.of_nat (S q) - 1) 0)) in Hm by lia.
  rewrite Hb in Hm. rewrite andb_false_r in Hm. destruct (0 <? _); [|done]. rewrite rel_plain in Hm by done.
  replace (Z.of_nat (S q) - 1) with (Z.of_nat q) in Hm by lia. rewrite at_rel_nat in Hm. destruct (r.(log) !! q) as [x|] eqn:Ex; [|done].
  apply Z.eqb_eq in Hm. split; [apply lookup_lt_Some in Ex; lia|]. split; [|done].
  rewrite (lo_agree _ _ _ Hl q x Ex), Hm, He2. symmetry. by apply (lo_agree _ _ _ HT).
Qed.

Lemma node_log_receive L H r args r' reply : hist_ok L H -> node_log L H r -> L args.(ATerm) <> None ->
  (args.(Entries) <> [] -> follows (H args.(ATerm)) args) -> AppendEntries args r = (r', reply) -> node_log L H r'.
Proof.
  intros Hh Hr Hn Hf E. assert (log_ok L H (H args.(ATerm))) as HT by (specialize (Hh args.(ATerm)); by destruct (L args.(ATerm))).
  unfold AppendEntries in E. destruct (args.(ATerm) <? r.(currentTerm)); [by injection E as <- _|].
  set (r1 := set_leader args.(LeaderID) _) in E.
  assert (node_log L H r1 /\ r1.(state) = Follower) as [Hr1 Hs1].
  { split; [|done]. eapply node_keeps; [|exact Hr]. unfold r1. destruct (r.(currentTerm) <? _); [|by split].
    apply (keeps_trans _ (persistStateLocked (set_role Follower (set_vote args.(ATerm) (-1) r)))); [|by split].
    eapply keeps_trans; [|apply persist_keeps]. by split. }
  clearbody r1. destruct (negb (prev_matches args r1)) eqn:Em; [by injection E as <- _|]. apply negb_false_iff in Em.
  destruct (fold_left _ _ _) as [[l news] rebuild] eqn:Efold. set (r2 := match args.(Entries) with [] => _ | _ :: _ => _ end) in E.
  assert (node_log L H r2) as Hr2.
  { unfold r2. pose proof Hr1 as [H1 H2 H3 H4 H5]. destruct args.(Entries) as [|e0 es] eqn:Ee.
    - cbn in Efold. injection Efold as <- <- <-. by split.
    - destruct (prev_agrees L H r1 args _ Hr1 HT Em (Hf ltac:(done))) as (p & Hp & Ht & Hpre). rewrite Ee in Hpre.
      destruct (merge_all L H r1 _ H1 HT (e0 :: es) _ [] false p H2 Hp Ht Hpre) as (l' & n' & b' & Efold' & Hl' & Hfile).
      rewrite Efold in Efold'. injection Efold' as <- <- <-. eapply node_keeps; [apply persist_keeps|]. split; cbn; [done|done| | |by rewrite Hs1].
      + destruct rebuild; [apply append_bytes|]. destruct (Hfile eq_refl) as [_ (x & -> & ->)]. cbn. destruct (append_bytes x r1.(wal)) as (-> & _ & _).
        by rewrite H3, map_app, concat_app.
      + destruct rebuild; [destruct (append_bytes l (set_log [] r1.(wal))) as (_ & _ & Eb & _)|destruct (append_bytes news r1.(wal)) as (_ & _ & Eb & _)];
          unfold RebuildLogFile; rewrite Eb; exact H4. }
  clearbody r2. set (r3 := if r2.(commitIndex) <? args.(LeaderCommit) then _ else r2) in E.
  assert (keeps_log r2 r3) as Hk.
  { unfold r3. destruct (r2.(commitIndex) <? _); [|apply keeps_refl]. eapply keeps_trans; [|apply apply_keeps]. by split. }
  injection E as <- _. by eapply node_keeps.
Qed.

(** ** Sending *)
Lemma last_index L H r : node_log L H r -> getLastLogIndex r = len r.(log) - 1.
Proof.
  intros [Hb Hl _ _ _]. unfold getLastLogIndex. destruct (last r.(log)) as [e|] eqn:E.
  - rewrite last_lookup in E. destruct (lo_entry _ _ _ Hl _ e E) as (-> & _ & _). apply lookup_lt_Some in E. unfold len. lia.
  - apply last_None in E as ->. by rewrite Hb.
Qed.

Lemma request_follows L H r i args : node_log L H r -> request_for r i = Ret (Some (RpcAppend args)) -> args.(Entries) <> [] -> follows r.(log) args.
Proof.
  intros [Hb Hl _ _ _] E Hne. unfold request_for in E. rewrite Hb, andb_false_r in E. injection E as <-. cbn [Entries] in *.
  rewrite rel_plain in * by done. set (next := default 0 _) in *. destruct ((0 <=? next) && (next <? len r.(log))) eqn:En; [|done].
  exists (Z.to_nat next). cbn [PrevLogIndex PrevLogTerm Entries]. split; [lia|]. split; [|done]. intros q Hq.
  assert (q < length r.(log))%nat as Hlt by (unfold len in En; lia). apply lookup_lt_is_Some in Hlt as [e He]. exists e. split; [done|].
  unfold getTermAt. rewrite Hb, andb_false_r. replace (next - 1) with (Z.of_nat q) by lia. rewrite rel_plain, at_rel_nat, He by done.
  by rewrite (proj2 (Z.ltb_ge _ _)) by lia.
Qed.

Lemma replicate_logs L H i r msgs : node_log L H r -> (r.(state) = Leader -> L r.(currentTerm) = Some i) -> replicateLog r = Ret msgs ->
  forall m, m ∈ map (msg_of i) msgs -> msg_log L H m.
Proof.
  intros Hr Hl E m. rewrite list_elem_of_fmap. intros (x & -> & Hx). unfold replicateLog in E.
  destruct r.(state) eqn:Es; try (injection E as <-; by apply elem_of_nil in Hx). destruct (requests_elem _ _ _ E x Hx) as [_ Hq]. pose proof (request_term _ _ _ Hq) as Ht.
  destruct x as [j [args|args]]; cbn in *; [|done]. rewrite Ht, <- (nl_lead _ _ _ Hr Es). split; [by apply Hl|]. by eapply request_follows.
Qed.

(** A leader appends a command: its log and the history of its term grow. *)
Definition extend (T : Z) (e : LogEntry) (H : histories) : histories := fun t => if t =? T then H t ++ [e] else H t.

Lemma extend_grown L T e H : h_grown L H (extend T e H).
Proof. intros t _. unfold extend. destruct (_ =? _); [by apply prefix_app_r|done]. Qed.

Lemma node_log_client L H i r command r' x msgs : hist_ok L H -> node_log L H r -> (r.(state) = Leader -> L r.(currentTerm) = Some i) ->
  0 <= r.(currentTerm) < 2 ^ 63 -> len command <= maxAlloc -> len r.(log) < 2 ^ 62 -> AppendEntry command r = Ret (r', x, msgs) ->
  exists H', h_grown L H H' /\ (forall T, L T <> Some i -> H' T = H T) /\ hist_ok L H' /\ node_log L H' r' /\ forall m, m ∈ map (msg_of i) msgs -> msg_log L H' m.
Proof.
  intros Hh Hr Hl Ht Hc Hlen E. unfold AppendEntry in E.
  assert (r' = r /\ msgs = [] -> exists H', h_grown L H H' /\ (forall T, L T <> Some i -> H' T = H T) /\ hist_ok L H' /\ node_log L H' r' /\ forall m, m ∈ map (msg_of i) msgs -> msg_log L H' m) as Hsame.
  { intros [-> ->]. exists H. split; [by intros ? ?|]. do 3 (split; [done|]). by intros m ?%elem_of_nil. }
  destruct r.(state) eqn:Es; [apply Hsame; by injection E as <- <- <-|apply Hsame; by injection E as <- <- <-|]. clear Hsame. specialize (Hl eq_refl).
  rewrite (last_index L H r Hr) in E. replace (len r.(log) - 1 + 1) with (len r.(log)) in E by lia. set (e := MkEntry (len r.(log)) r.(currentTerm) command false) in E.
  set (T := r.(currentTerm)) in *. pose proof Hr as [Hb Hlog Hfile Hsnap Hlead]. specialize (Hlead Es). set (H' := extend T e H).
  assert (H' T = r.(log) ++ [e]) as HT by (unfold H', extend; rewrite Z.eqb_refl, Hlead; done).
  assert (grown L L) as HL by (by intros ? ?). assert (h_grown L H H') as HG by apply extend_grown.
  assert (log_ok L H' (r.(log) ++ [e])) as Hnew.
  { apply log_ok_snoc; [by eapply log_ok_grow|done| | |done|lia]; [|cbn; by rewrite Hl]. pose proof (len_nonneg r.(log)).
    split; [unfold is_s64; cbn; lia|]. split; [unfold is_s64; cbn; fold T; lia|]. split; [done|done]. }
  assert (hist_ok L H') as Hh'.
  { intros t. specialize (Hh t). destruct (L t) eqn:El; unfold H', extend; destruct (t =? T) eqn:Et; try (by eapply log_ok_grow); try done.
    - apply Z.eqb_eq in Et. subst t. fold T in Hlead. rewrite <- Hlead. exact Hnew.
    - apply Z.eqb_eq in Et. congruence. }
  set (r1 := set_entries (r.(log) ++ [e]) (AppendLog e r.(wal)) r) in E.
  assert (node_log L H' r1) as Hr1.
  { split; cbn; [done|done| |done|by intros _]. by rewrite Hfile, map_app, concat_app; cbn; rewrite app_nil_r. }
  assert (forall t, L t <> Some i -> H' t = H t) as Hother.
  { intros t Hne. unfold H', extend. destruct (t =? T) eqn:Et; [|done]. apply Z.eqb_eq in Et. congruence. }
  exists H'. do 3 (split; [done|]). change (peers r1) with (peers r) in E. destruct (peers r =? 1)%nat.
  - injection E as <- <- <-. split; [|by intros m ?%elem_of_nil]. eapply node_keeps; [|exact Hr1]. eapply keeps_trans; [|apply apply_keeps]. by split.
  - destruct (replicateLog r1) as [ms|] eqn:Em; [|done]. cbn in E. injection E as <- <- <-. split; [done|]. eapply replicate_logs; [exact Hr1| |exact Em]. by intros _.
Qed.

(** A node starts again with a prefix of its log. *)
Lemma node_log_restart L H r keep r' tv : node_log L H r -> LoadState r.(wal) = Ok tv ->
  NewRaftGroup r.(peers) r.(me) (set_log (log_bytes (take keep r.(log))) r.(wal)) = Ret r' -> node_log L H r'.
Proof.
  intros [Hb Hl Hf Hs _] Ets E. pose proof (log_ok_take L H _ keep Hl) as Hk. set (l := take keep r.(log)) in *. set (w := set_log (log_bytes l) r.(wal)) in E.
  assert (LoadState w = Ok tv) as Ew by exact Ets. assert (LoadLogs w = Ret l) as Ell.
  { apply LoadLogs_ok; [done|]. apply Forall_lookup. intros k e He. by destruct (lo_entry _ _ _ Hk k e He) as (_ & ? & _). }
  assert (LoadLatestSnapshot w = Ret (Ok None)) as Els by (unfold LoadLatestSnapshot; cbn; by rewrite Hs).
  unfold NewRaftGroup, readPersist, LoadPersist in E. cbn [wal] in E. rewrite Ew in E. destruct tv as [t v]. rewrite Ell, Els in E. cbn in E.
  injection E as <-. by split.
Qed.

(** ** Steps *)
Section Steps.
Context (n : nat).
Lemma put_logs V L H L' H' c i r0 r msgs : elections_ok n V L c -> logs_ok L H c -> c.(nodes) !! i = Some r0 -> grown L L' -> h_grown L H H' ->
  (forall T, L' T <> Some i -> H' T = H T) -> node_log L' H' r -> hist_ok L' H' -> (forall m, m ∈ msgs -> msg_log L' H' m) -> logs_ok L' H' (put i r msgs c).
Proof.
  intros He [Hn Hm Hh] Hi HL HG Ho Hr Hh' Hms. split; [|cbn|done].
  - intros j x Hx. cbn in Hx. destruct (decide (j = i)) as [-> | Hj].
    + rewrite list_lookup_insert_eq in Hx by (by eapply lookup_lt_Some). by injection Hx as <-.
    + rewrite list_lookup_insert_ne in Hx by done. destruct (Hn j x Hx) as [H1 H2 H3 H4 H5]. split; try done; [by eapply log_ok_grow|].
      intros Hl. rewrite Ho; [by apply H5|]. pose proof (eo_nodes _ _ _ _ He j x Hx) as [[_ _ _ _ Hlead _] _]. rewrite (HL _ _ (Hlead Hl)). congruence.
  - intros m [Hin | Hin]%elem_of_app; [|by apply Hms]. eapply msg_grow; [done|done|by apply Hm].
Qed.

(** A step that creates no entry. *)
Lemma put_keeps V L H c i r0 r msgs : elections_ok n V L c -> logs_ok L H c -> c.(nodes) !! i = Some r0 -> node_log L H r ->
  (forall m, m ∈ msgs -> msg_log L H m) -> exists H', h_grown L H H' /\ logs_ok L H' (put i r msgs c).
Proof.
  intros He H1 Hi Hr Hm. exists H. split; [by intros ? ?|]. eapply put_logs; [done|done|done|by intros ? ?|by intros ? ?|done|done|apply H1|done].
Qed.

Lemma deliver_logs room m c c' V L H : elections_ok n V L c -> logs_ok L H c -> m ∈ c.(net) -> deliver false room m c = Some c' ->
  exists H', h_grown L H H' /\ logs_ok L H' c'.
Proof.
  intros He Hl Hm E. pose proof Hl as [Hnodes Hnet Hh]. apply Hnet in Hm.
  destruct m as [i j args|i j args reply|i j args|i j args reply|i j args|i j reply]; cbn [deliver] in E; [| | | |done|done].
  - apply bind_Some in E as (r & Hj & E). pose proof (request_vote_keeps args r) as Hk. destruct (RequestVote args r) as [r' reply]. injection E as <-.
    eapply put_keeps; [done|done|done|eapply node_keeps; [exact Hk|by eapply Hnodes]|by intros m' ->%list_elem_of_singleton].
  - apply bind_Some in E as (r & Hi & E). apply bind_Some in E as (k & Hk & E). pose proof (vote_reply_keeps k j (Some reply) r) as Hkl. injection E as <-.
    eapply put_keeps; [done|done|done|eapply node_keeps; [exact Hkl|by eapply Hnodes]|by intros m' ?%elem_of_nil].
  - apply bind_Some in E as (r & Hj & E). destruct (AppendEntries args r) as [r' reply] eqn:Er. injection E as <-. destruct Hm as [Ht Hf].
    eapply put_keeps; [done|done|done| |by intros m' ->%list_elem_of_singleton]. eapply node_log_receive; [exact Hh|by eapply Hnodes|by rewrite Ht|exact Hf|exact Er].
  - apply bind_Some in E as (r & Hi & E). pose proof (append_reply_keeps j args (Some reply) r) as Hk. injection E as <-.
    eapply put_keeps; [done|done|done|eapply node_keeps; [exact Hk|by eapply Hnodes]|by intros m' ?%elem_of_nil].
Qed.

(** Winning an election: the winner's log becomes the history of its term. *)
Lemma crowned_logs V L H L' c c' : elections_ok n V L c -> logs_ok L H c -> crowned L L' c c' -> exists H', h_grown L H H' /\ logs_ok L' H' c'.
Proof.
  intros He Hl (i & k & ev & r & Hi & Hst & HT & -> & ->). pose proof Hl as [Hnodes Hnet Hh]. pose proof (Hnodes i r Hi) as Hr.
  set (T := r.(currentTerm)) in *. set (L' := crown T i L). set (H' := fun t => if t =? T then r.(log) else H t).
  assert (grown L L') as HL. { intros t x Hx. unfold L', crown. destruct (t =? T) eqn:E; [|done]. apply Z.eqb_eq in E. congruence. }
  assert (h_grown L H H') as HG. { intros t Hn. unfold H'. destruct (t =? T) eqn:E; [|done]. apply Z.eqb_eq in E. congruence. }
  exists H'. split; [done|]. eapply put_logs; [done|done|done|done|done| | | |by intros m ?%elem_of_nil].
  - intros t Ht. unfold L', crown in Ht. unfold H'. by destruct (t =? T).
  - destruct (await_keeps k ev r) as (E1 & E2 & E3 & E4 & E5). destruct Hr as [H1 H2 H3 H4 H5]. split; rewrite ?E1, ?E2, ?E3, ?E4; try done; [eapply log_ok_grow; [exact HL|exact HG|exact H2]|].
    intros _. unfold H'. fold T. by rewrite Z.eqb_refl.
  - intros t. unfold L', crown, H'. destruct (t =? T) eqn:E; [eapply log_ok_grow; [exact HL|exact HG|apply Hr]|].
    specialize (Hh t). destruct (L t); [eapply log_ok_grow; [exact HL|exact HG|exact Hh]|done].
Qed.

Lemma act_logs a c c' V L H V' L' : elections_ok n V L c -> logs_ok L H c -> restart_whole a c = true -> act false a c = Some c' -> elections_ok n V' L' c' ->
  L' = L \/ crowned L L' c c' -> exists H', h_grown L H H' /\ logs_ok L' H' c'.
Proof.
  intros He Hl Hw E He' [-> | Hc]; [|by eapply crowned_logs]. pose proof Hl as [Hnodes Hnet Hh].
  destruct a as [i|m room|i k p|i k timeout|i cmd|i|i p args|i index room|i fs|i cut]; cbn [act] in E; [| | | | | | |done| |].
  - apply bind_Some in E as (r & Hi & E). destruct (negb _); [done|]. destruct (startElection r) as [r' [args|]] eqn:Es; [|done]. injection E as <-.
    eapply put_keeps; [done|done|done|eapply node_keeps; [by eapply elect_keeps|by eapply Hnodes]|]. by intros m (j & -> & _)%list_elem_of_fmap.
  - apply bind_Some in E as (m' & Hm%list_elem_of_lookup_2 & E). exact (deliver_logs room _ c c' V L H He Hl Hm E).
  - apply bind_Some in E as (r & Hi & E). apply bind_Some in E as (b & Hk & E). destruct (bool_decide _); [|done].
    pose proof (vote_reply_keeps k p None r) as Hkl. injection E as <-. eapply put_keeps; [done|done|done|eapply node_keeps; [exact Hkl|by eapply Hnodes]|by intros m' ?%elem_of_nil].
  - apply bind_Some in E as (r & Hi & E). apply bind_Some in E as (b & Hk & E). destruct (negb _); [done|].
    assert (exists ev, c' = put i (awaitVotes k ev r) [] c) as (ev & ->).
    { destruct (_ || _); [exists None; by injection E as <-|]. apply bind_Some in E as (v & Hv & E). exists (Some v). by injection E as <-. }
    eapply put_keeps; [done|done|done| |by intros m' ?%elem_of_nil]. eapply node_keeps; [|by eapply Hnodes].
    destruct (await_keeps k ev r) as (E1 & E2 & E3 & E4 & E5). split; [done|done|by rewrite E3|by rewrite E3|]. intros Hs. split; [|done].
    pose proof (eo_nodes _ _ _ _ He i r Hi) as [[_ _ _ Hcand _ _] _].
    assert (nodes (put i (awaitVotes k ev r) [] c) !! i = Some (awaitVotes k ev r)) as Hi' by (apply list_lookup_insert_eq; by eapply lookup_lt_Some).
    pose proof (eo_nodes _ _ _ _ He' i _ Hi') as [[_ _ _ _ Hlead _] _]. specialize (Hlead Hs). rewrite E4 in Hlead. specialize (E5 Hs).
    destruct r.(state) eqn:Er; [done| |done]. by destruct (Hcand eq_refl).
  - apply bind_Some in E as (r & Hi & E). destruct (negb _) eqn:Eg; [done|]. apply negb_false_iff, andb_true_iff in Eg as [Eg1%Z.leb_le Eg2%Z.ltb_lt].
    apply bind_Some in E as ([[r' x] msgs] & Er%of_go_Some & E). injection E as <-. cbn [fst snd].
    pose proof (eo_nodes _ _ _ _ He i r Hi) as [[_ [[Hr _] _ _ _ _] _ _ Hlead _] _].
    destruct (node_log_client L H i r cmd r' x msgs Hh (Hnodes i r Hi) Hlead Hr Eg1 Eg2 Er) as (H' & HG & Ho & Hh' & Hr' & Hm).
    exists H'. split; [done|]. eapply put_logs; [done|done|done|by intros ? ?|done|done|done|done|done].
  - apply bind_Some in E as (r & Hi & E). apply bind_Some in E as (msgs & Er%of_go_Some & E). injection E as <-.
    pose proof (eo_nodes _ _ _ _ He i r Hi) as [[_ _ _ _ Hlead _] _].
    eapply put_keeps; [done|done|done|by eapply Hnodes|]. eapply replicate_logs; [by eapply Hnodes|exact Hlead|exact Er].
  - apply bind_Some in E as (r & Hi & E). pose proof (append_reply_keeps p args None r) as Hk. injection E as <-.
    eapply put_keeps; [done|done|done|eapply node_keeps; [exact Hk|by eapply Hnodes]|by intros m' ?%elem_of_nil].
  - apply bind_Some in E as (r & Hi & E). injection E as <-. eapply put_keeps; [done|done|done| |by intros m' ?%elem_of_nil].
    eapply node_keeps; [|by eapply Hnodes]. by split.
  - apply bind_Some in E as (r & Hi & E). apply bind_Some in E as (r' & Er%of_go_Some & E). injection E as <-.
    pose proof (Hnodes i r Hi) as Hr. unfold restart_whole, restart_saved in Hw. rewrite Hi in Hw. apply andb_true_iff in Hw as [Hsv Hw].
    apply existsb_exists in Hw as (k & _ & Hk%bool_decide_eq_true). rewrite Hk in Er.
    pose proof (eo_nodes _ _ _ _ He i r Hi) as [_ [_ Hdisk]]. destruct (Hdisk Hsv) as (term & vote & Hd & Ha & _).
    eapply put_keeps; [done|done|done| |by intros m' ?%elem_of_nil]. eapply node_log_restart; [exact Hr|by eapply disk_loads|exact Er].
Qed.

Lemma run_logs l c c' V L H : Z.of_nat n < 2 ^ 63 -> elections_ok n V L c -> logs_ok L H c -> always restart_whole false l c = true -> run false l c = Some c' ->
  exists V' L' H', grown L L' /\ h_grown L H H' /\ elections_ok n V' L' c' /\ logs_ok L' H' c'.
Proof.
  intros Hn. revert c V L H. induction l as [|a l IH]; intros c V L H He Hl Hw E; cbn [run] in E.
  { injection E as <-. exists V, L, H. split; [by intros ? ?|]. split; [by intros ? ?|done]. }
  apply bind_Some in E as (c1 & E1 & E). cbn [always] in Hw. rewrite E1 in Hw. apply andb_true_iff in Hw as [Hw1 Hw].
  assert (restart_saved a c = true) as Hsv by (by apply andb_true_iff in Hw1 as [? _]).
  destruct (act_elections n _ _ _ _ V L Hn He Hsv E1) as (V1 & L1 & _ & He1 & HL1).
  destruct (act_logs a c c1 V L H V1 L1 He Hl Hw1 E1 He1 HL1) as (H1 & HG1 & Hl1). pose proof (crowned_grown L L1 c c1 HL1) as Hg1.
  destruct (IH c1 V1 L1 H1 He1 Hl1 Hw E) as (V2 & L2 & H2 & Hg2 & HG2 & He2 & Hl2). exists V2, L2, H2. split; [|split; [|done]].
  - intros T x Hx. by apply Hg2, Hg1.
  - intros T HT. transitivity (H1 T); [by apply HG1|]. apply HG2. destruct (L T) eqn:ET; [|done]. by rewrite (Hg1 _ _ ET).
Qed.

Lemma boot_logs : logs_ok (fun _ => None) (fun _ => []) (boot n).
Proof.
  split; [|by intros m ?%elem_of_nil|done]. intros i r Hi. unfold boot in Hi. cbn in Hi. apply list_lookup_fmap_Some in Hi as (j & -> & Hj).
  split; cbn; try done.
Qed.
End Steps.

(** C8: Log matching.  In a cluster without snapshots, through any sequence of
    elections, client commands, lost, late and repeated messages, failed calls,
    failed saves of term and vote, and restarts: whenever the log of one node
    holds, at some time, an entry with the index and term of an entry another
    node's log holds at that or any later time, both logs are equal up to and
    including that entry.  Conditions on a restart: the node's last save of term
    and vote succeeded, and what is left of its log file ends behind an entry of
    its log, any number of the last entries being lost.  A file cut inside an
    entry keeps the torn bytes and forges entries later
    (raft_torn_tail_forges_entry).  Operations on the log file do not fail, and
    a request carries the entries the log held when it was created. *)
Theorem log_matching n l l' c c' i j r r' k e e' : Z.of_nat n < 2 ^ 63 -> run false l (boot n) = Some c -> run false l' c = Some c' ->
  always restart_whole false l (boot n) = true -> always restart_whole false l' c = true ->
  c.(nodes) !! i = Some r -> c'.(nodes) !! j = Some r' ->
  r.(log) !! k = Some e -> r'.(log) !! k = Some e' -> e.(Term) = e'.(Term) -> take (S k) r.(log) = take (S k) r'.(log).
Proof.
  intros Hn E E' Hw Hw' Hi Hj Hk Hk' Ht.
  destruct (run_logs n l _ _ _ _ _ Hn (boot_elections n) (boot_logs n) Hw E) as (V & L & H & _ & _ & He & Hl).
  destruct (run_logs n l' _ _ _ _ _ Hn He Hl Hw' E') as (V' & L' & H' & HL & HG & _ & Hl').
  pose proof (nl_log _ _ _ (go_nodes _ _ _ Hl i r Hi)) as Ho. apply (log_ok_grow _ _ _ _ _ HL HG) in Ho.
  pose proof (nl_log _ _ _ (go_nodes _ _ _ Hl' j r' Hj)) as Ho'.
  by rewrite (lo_agree _ _ _ Ho k e Hk), Ht, <- (lo_agree _ _ _ Ho' k e' Hk').
Qed.

(** The leader's file loses its last entry and the node restarts. *)
Definition restart_run : list action := successor_run ++ [AClient 1 (str "c"); AFaults 1 [Some (WriteFails 3)]; ARestart 1 50]%nat.
Definition third_term : cluster := after false restart_run first_term.

Lemma log_matching_witness :
  run false two_leaders_run (boot 3) = Some first_term /\ run false restart_run first_term = Some third_term /\
  len (node_of 1 third_term).(log) = 2 /\ take 1 (node_of 0 first_term).(log) = take 1 (node_of 1 third_term).(log).
Proof.
  assert (run false two_leaders_run (boot 3) = Some first_term) as E by (vm_compute; reflexivity).
  assert (run false restart_run first_term = Some third_term) as E' by (vm_compute; reflexivity).
  do 2 (split; [assumption|]). split; [vm_compute; reflexivity|].
  apply (log_matching 3 two_leaders_run restart_run first_term third_term 0 1 (node_of 0 first_term) (node_of 1 third_term) 0
    (entry_of 0 (node_of 0 first_term)) (entry_of 0 (node_of 1 third_term)) ltac:(lia) E E'); vm_compute; reflexivity.
Defined.
End RaftLog.
