(* ===== verification/RaftCases.v ===== *)
(** * Runs of the consensus module that break what it means to guarantee

    Election safety and log matching hold as long as nodes restart from sound
    files ([RaftSpec], [RaftLog]).  What a client
    relies on, that a committed command is never lost and that all nodes apply
    the same commands, does not: the runs of this file are executed by the
    model's step function. *)
From S2P Require Import Prelude Bytes RaftWal Raft RaftSpec RaftLog.
Import RaftWal Raft RaftSpec RaftLog.

Module RaftCases.
(** What the nodes have applied, by command. *)
Definition applied (c : cluster) : list (list bytes) := map (fun r => map Command r.(ApplyCh)) c.(nodes).
Definition summary (c : cluster) : list (State * Z * list bytes) := map (fun r => (r.(state), r.(currentTerm), map Command r.(log))) c.(nodes).

(** ** Two leaders *)

(** Node 2 cannot write its vote for node 0 down and grants it all the same;
    after a restart it votes for node 1 in the same term, and both lead it. *)
Theorem failed_save_elects_two :
  let l := [AElect 0; AFaults 2 [Some OpenFails; Some OpenFails]; d 1; d 2; AAwait 0 0 false;
            ARestart 2 0; AElect 1; d 4; d 5; AAwait 1 0 false]%nat in
  always restart_saved true l (boot 3) = false /\
  summary <$> run true l (boot 3) = Some [(Leader, 1, []); (Leader, 1, []); (Follower, 1, [])].
Proof. vm_compute. done. Qed.

(** ** Commands lost after they were applied *)

(** A new leader starts with [matchIndex] 0 for every peer when there is no
    snapshot, as if all of them held entry 0: the answer to an empty heartbeat
    commits and applies entry 0, which no other node has.  The next leader
    commits another command at that index. *)
Theorem unreplicated_entry_applied :
  let l := [AElect 0; d 0; d 2; AAwait 0 0 false; AHeartbeat 0; AClient 0 (str "a"); d 3; d 7;
            AElect 1; d 9; d 10; AAwait 1 0 false; AHeartbeat 1; AClient 1 (str "b"); d 12; d 15]%nat in
  applied <$> run false (take 8 l) (boot 3) = Some [[str "a"]; []; []] /\
  summary <$> run false (take 8 l) (boot 3) = Some [(Leader, 1, [str "a"]); (Follower, 1, []); (Follower, 0, [])] /\
  applied <$> run false l (boot 3) = Some [[str "a"]; [str "b"]; []].
Proof. vm_compute. done. Qed.

(** A failed call lowers [nextIndex] without bound.  Below zero a request names
    an entry before the first, which every log passes, and carries no entries:
    the receiver commits and applies whatever its own log holds. *)
Theorem divergent_entry_applied :
  let l := [AElect 2; d 1; d 2; AAwait 2 0 false; AClient 2 (str "x"); AElect 0; AElect 0; d 7; d 9; AAwait 0 1 false; AClient 0 (str "a"); d 10; d 12;
            AAppendError 0 2 (MkAppendArgs 2 0 (-1) 0 [] 0); AHeartbeat 0; d 14]%nat in
  applied <$> run false l (boot 3) = Some [[str "a"]; []; [str "x"]].
Proof. vm_compute. done. Qed.

Lemma commit_next r : (updateCommitIndex r).(nextIndex) = r.(nextIndex).
Proof.
  assert (forall f x, (apply_loop f x).(nextIndex) = x.(nextIndex)) as Hk.
  { induction f as [|f IH]; intros x; [done|]. cbn [apply_loop]. rewrite IH. by destruct (at_rel _ _). }
  unfold updateCommitIndex. destruct r.(state); [done|done|]. destruct (find_commit _ _); [|done]. unfold applyCommittedLogs. by rewrite Hk.
Qed.

(** From then on the leader sends that peer no entries at all. *)
Theorem negative_next_index_stuck r p reply : r.(LastIncludedIndex) = 0 -> r.(nextIndex) !! p = Some (-1) -> r.(matchIndex) !! p = Some 0 ->
  reply.(ASuccess) = true -> reply.(ARTerm) <= r.(currentTerm) ->
  exists args, request_for r p = Ret (Some (RpcAppend args)) /\ args.(Entries) = [] /\
    (append_reply p args (Some reply) r).(nextIndex) = r.(nextIndex).
Proof.
  intros Hb Hn Hm Hs Ht. exists (MkAppendArgs r.(currentTerm) (Z.of_nat r.(me)) (-2) (getTermAt r (-2)) [] r.(commitIndex)).
  split; [unfold request_for; rewrite Hn, Hb, andb_false_r; cbv zeta; by rewrite rel_plain|]. split; [done|].
  cbn [append_reply]. rewrite (proj2 (Z.ltb_ge _ _)) by done. rewrite Hs, Hm. cbn [PrevLogIndex Entries]. change (default 0 (Some 0) <? -2 + len []) with false. cbv iota zeta.
  apply commit_next.
Qed.

(** The client's wait ends when the index is committed, whatever entry holds
    it: a command overwritten by the next leader is reported as committed. *)
Theorem overwritten_command_reported_committed :
  let l := [AElect 0; d 0; d 2; AAwait 0 0 false; AClient 0 (str "a"); AElect 1; d 6; d 7; AAwait 1 0 false; AClient 1 (str "b"); d 8; d 10; AHeartbeat 1; d 11]%nat in
  match run false (take 5 l) (boot 3), run false l (boot 3) with
  | Some c, Some c' => (map (fun r => map Command r.(log)) c.(nodes) !! 0%nat, (fun r => (committed 0 r, map Command r.(log))) <$> c'.(nodes) !! 0%nat) =
      (Some [str "a"], Some (true, [str "b"]))
  | _, _ => False
  end.
Proof. vm_compute. done. Qed.

(** ** Snapshots *)

(** The second snapshot counts one entry too many: it drops the entry after its
    index from the log and renumbers the rest.  Six commands were committed;
    after snapshots at 2 and 3, index 4 holds the command of index 5. *)
Theorem second_snapshot_drops_entry :
  let l := [AElect 0; AAwait 0 0 false; AClient 0 (str "c0"); AClient 0 (str "c1"); AClient 0 (str "c2"); AClient 0 (str "c3"); AClient 0 (str "c4"); AClient 0 (str "c5");
            ASnapshot 0 2 true; ASnapshot 0 3 true]%nat in
  let logs c := map (fun r => map (fun e => (e.(Index), e.(Command))) r.(log)) c.(nodes) in
  logs <$> run true (take 9 l) (boot 1) = Some [[(3, str "c3"); (4, str "c4"); (5, str "c5")]] /\
  logs <$> run true l (boot 1) = Some [[(4, str "c5")]].
Proof. vm_compute. done. Qed.

(** A snapshot holds only the entries since the one before it, which is deleted:
    a node that starts from it gets none of the older commands. *)
Theorem second_snapshot_forgets_first :
  let l := [AElect 0; AAwait 0 0 false; AClient 0 (str "c0"); AClient 0 (str "c1"); AClient 0 (str "c2"); AClient 0 (str "c3");
            ASnapshot 0 1 true; ASnapshot 0 2 true; ARestart 0 1000]%nat in
  match run true l (boot 1) with
  | Some c => map (fun r => map (fun e => (e.(IsSnapshot), match DeserializeLogEntries e.(Command) with Ret l => map Command l | Panic => [] end)) r.(ApplyCh)) c.(nodes) =
      [[(true, [str "c2"; str "c3"])]]
  | None => False
  end.
Proof. vm_compute. done. Qed.

(** ** Progress *)

(** Without a snapshot a request that names entry 0 is always refused, although
    the logs agree: the leader falls back to sending its whole log. *)
Theorem entry_zero_never_matches r args : r.(LastIncludedIndex) = 0 -> args.(PrevLogIndex) = 0 -> args.(ATerm) = r.(currentTerm) ->
  (AppendEntries args r).2.(ASuccess) = false.
Proof.
  intros Hb Hp Ht. unfold AppendEntries. rewrite Ht, Z.ltb_irrefl. unfold prev_matches. rewrite Hp. cbn [Z.ltb Z.compare].
  change (LastIncludedIndex (set_leader ?x (set_role ?y ?z))) with (LastIncludedIndex z). rewrite Hb. done.
Qed.
End RaftCases.
