(* ===== verification/Conn.v ===== *)
(** * The life of a connection ([kairnet/lifecycle], [kairnet/transport])

    The life-cycle state machine, and the protocol between the goroutines of a
    connection: the reader with the handlers it runs, the writer with its two
    queues, the callers of [Stop] that wait for the writer before they close
    the socket, and any other goroutine that sends, such as the workers of the
    pool.  The goroutines interleave freely; every operation on a channel or an
    atomic is one step. *)
From S2P Require Import Prelude Bytes.

(** ** The life-cycle ([kairnet/lifecycle]) *)
Module Lifecycle.
Inductive State := Idle | Active | Closing | Closed.
Inductive Event := EventEOF | EventReadTimeout | EventReadError | EventWriteError | EventExplicitStop | EventPanicRecovered.
#[export] Instance state_eq_dec : EqDecision State.
Proof. solve_decision. Defined.

(** A channel that is only ever closed is a flag. *)
Record Lifecycle := MkLife { state : State; drainCh : bool; closeCh : bool; started : bool }.
Definition New : Lifecycle := MkLife Idle false false false.

Definition MarkActive (l : Lifecycle) : Lifecycle :=
  MkLife (match l.(state) with Idle => Active | s => s end) l.(drainCh) l.(closeCh) true.

Definition Transition (event : Event) (l : Lifecycle) : Lifecycle * bool :=
  match l.(state) with
  | Idle | Active => (MkLife Closing true l.(closeCh) l.(started), true)
  | _ => (l, false)
  end.

Definition Close (l : Lifecycle) : Lifecycle * bool :=
  if l.(closeCh) then (MkLife l.(state) true true l.(started), false)
  else (MkLife Closed true true l.(started), true).
End Lifecycle.

(** ** The registry ([ConnManager]) *)
Module Registry.
(** [wg] counts the registered connections that are not closed yet. *)
Record ConnManager := MkMgr { connections : gset Z; wg : Z }.
Definition NewConnManager : ConnManager := MkMgr ∅ 0.
Definition Add (id : Z) (m : ConnManager) : ConnManager := MkMgr ({[id]} ∪ m.(connections)) (m.(wg) + 1).
Definition Remove (id : Z) (m : ConnManager) : ConnManager :=
  MkMgr (m.(connections) ∖ {[id]}) (if bool_decide (id ∈ m.(connections)) then m.(wg) - 1 else m.(wg)).
Definition Len (m : ConnManager) : Z := Z.of_nat (size m.(connections)).
(** The connections to stop, and the registry while they are stopped. *)
Definition ClearConn (m : ConnManager) : list Z * ConnManager := (elements m.(connections), MkMgr ∅ m.(wg)).

Lemma remove_counts m id : m.(wg) = Len m -> (Remove id m).(wg) = Len (Remove id m).
Proof.
  intros H. unfold Remove, Len in *. cbn. case_bool_decide as Hin.
  - rewrite size_difference by set_solver. rewrite size_singleton. assert (size m.(connections) <> 0)%nat by (apply size_non_empty_iff; set_solver). lia.
  - by replace (m.(connections) ∖ {[id]}) with m.(connections) by set_solver.
Qed.

(** The connections [ClearConn] stops are no longer registered when they remove
    themselves: the count stays up, and the goroutine of [Wait] never ends. *)
Theorem clear_leaves_count id :
  let '(ids, m) := ClearConn (Add id NewConnManager) in (fold_left (fun m i => Remove i m) ids m).(wg) = 1.
Proof. unfold ClearConn, Add. cbn. rewrite union_empty_r_L, elements_singleton. reflexivity. Qed.
End Registry.

Module Conn.
Import Lifecycle.

(** ** A connection

    The reader waits for a frame or runs a handler; [readerDone] and
    [writerDone] are the [Exited] phases.  A draining writer looks at [msgChan]
    ([Draining]) and, when it is empty, at [msgBuffChan] ([DrainingBuff]).
    [closing] is the one call of [Stop] that does the physical close. *)
Inductive reader_at := NotReading | Reading | Handling | ReaderExited.
Inductive writer_at := NotWriting | Writing | Draining | DrainingBuff | WriterExited.
#[export] Instance reader_at_eq_dec : EqDecision reader_at.
Proof. solve_decision. Defined.
(** How the socket came to be closed: after the writer had ended, after the
    wait for it timed out, or because the connection was never started. *)
Inductive close_kind := AfterDrain | AfterTimeout | NeverStarted.
Inductive closing_at := SocketOpen | WaitingForWriter | SocketClosed (how : close_kind).

(** [accepted] are the frames a send accepted and [written] the frames on the
    socket, each with its queue ([true] is [msgChan], [false] [msgBuffChan]);
    [early] are those accepted before [readerDone] was closed. *)
Record Connection := MkConnection {
  lc : Lifecycle; reader : reader_at; writer : writer_at; closing : closing_at;
  msgChan : list bytes; msgBuffChan : list bytes;
  accepted : list (bool * bytes); early : list (bool * bytes); written : list (bool * bytes); write_failed : bool; removed : nat }.

Definition NewConnection : Connection := MkConnection New NotReading NotWriting SocketOpen [] [] [] [] [] false 0.

Definition queue (urgent : bool) (c : Connection) : list bytes := if urgent then c.(msgChan) else c.(msgBuffChan).
Definition set_queue (urgent : bool) (q : list bytes) (c : Connection) : Connection :=
  MkConnection c.(lc) c.(reader) c.(writer) c.(closing) (if urgent then q else c.(msgChan)) (if urgent then c.(msgBuffChan) else q)
    c.(accepted) c.(early) c.(written) c.(write_failed) c.(removed).
Definition set_lc (l : Lifecycle) (c : Connection) : Connection :=
  MkConnection l c.(reader) c.(writer) c.(closing) c.(msgChan) c.(msgBuffChan) c.(accepted) c.(early) c.(written) c.(write_failed) c.(removed).
Definition set_reader (r : reader_at) (c : Connection) : Connection :=
  MkConnection c.(lc) r c.(writer) c.(closing) c.(msgChan) c.(msgBuffChan) c.(accepted) c.(early) c.(written) c.(write_failed) c.(removed).
Definition set_writer (w : writer_at) (c : Connection) : Connection :=
  MkConnection c.(lc) c.(reader) w c.(closing) c.(msgChan) c.(msgBuffChan) c.(accepted) c.(early) c.(written) c.(write_failed) c.(removed).
Definition accept (urgent : bool) (frame : bytes) (c : Connection) : Connection :=
  MkConnection c.(lc) c.(reader) c.(writer) c.(closing) c.(msgChan) c.(msgBuffChan) (c.(accepted) ++ [(urgent, frame)])
    (if bool_decide (c.(reader) = ReaderExited) then c.(early) else c.(early) ++ [(urgent, frame)]) c.(written) c.(write_failed) c.(removed).

(** [Start] *)
Definition Start (c : Connection) : Connection := set_writer Writing (set_reader Reading (set_lc (MarkActive c.(lc)) c)).

(** [SendMsg], [SendRawMsg] and [SendBuffMsg] with room in their queue. *)
Definition enqueue (urgent : bool) (frame : bytes) (c : Connection) : Connection :=
  accept urgent frame (set_queue urgent (queue urgent c ++ [frame]) c).

Definition BeginClosing (c : Connection) : Connection := set_lc (Transition EventExplicitStop c.(lc)).1 c.

(** The read loop ends: the event is recorded and [readerDone] closed. *)
Definition reader_exits (e : Event) (c : Connection) : Connection := set_reader ReaderExited (set_lc (Transition e c.(lc)).1 c).

(** [write] on the socket: [ok] is its outcome, which is an error on a closed
    socket. *)
Definition write (ok : bool) (urgent : bool) (frame : bytes) (c : Connection) : Connection :=
  MkConnection c.(lc) c.(reader) c.(writer) c.(closing) c.(msgChan) c.(msgBuffChan) c.(accepted) c.(early)
    (if ok then c.(written) ++ [(urgent, frame)] else c.(written)) (c.(write_failed) || negb ok) c.(removed).

(** A frame leaves its queue for the socket; the write loop ends on an error,
    draining goes on from the start of its loop. *)
Definition take_frame (ok urgent : bool) (frame : bytes) (rest : list bytes) (c : Connection) : Connection :=
  let c := write ok urgent frame (set_queue urgent rest c) in
  match c.(writer) with
  | Writing => if ok then c else set_writer WriterExited c
  | _ => set_writer Draining c
  end.

Definition close_socket (how : close_kind) (c : Connection) : Connection :=
  MkConnection c.(lc) c.(reader) c.(writer) (SocketClosed how) c.(msgChan) c.(msgBuffChan) c.(accepted) c.(early) c.(written) c.(write_failed)
    (S c.(removed)).
Definition set_closing (x : closing_at) (c : Connection) : Connection :=
  MkConnection c.(lc) c.(reader) c.(writer) x c.(msgChan) c.(msgBuffChan) c.(accepted) c.(early) c.(written) c.(write_failed) c.(removed).
Definition socket_open (c : Connection) : bool := match c.(closing) with SocketClosed _ => false | _ => true end.

(** [Stop] up to the wait for the writer, which only a started connection has. *)
Definition Stop (c : Connection) : Connection :=
  let c := BeginClosing c in
  let '(l, won) := Close c.(lc) in
  let c := set_lc l c in
  if won : bool then if l.(started) then set_closing WaitingForWriter c else close_socket NeverStarted c else c.

Definition msgChanLen : Z := 10.
Definition capacity (MaxMsgChanLen : Z) (urgent : bool) : Z := if urgent then msgChanLen else MaxMsgChanLen.

(** ** Steps

    A send may come from any goroutine at any time: its select takes room in
    the queue or the closed connection, whichever there is. *)
Section Steps.
Context (MaxMsgChanLen : Z).

Inductive step : Connection -> Connection -> Prop :=
  | c_start c : c.(reader) = NotReading -> step c (Start c)
  | c_read c : c.(reader) = Reading -> socket_open c = true -> step c (set_reader Handling c)
  | c_read_fails c e : c.(reader) = Reading -> step c (reader_exits e c)
  | c_send c urgent frame : len (queue urgent c) < capacity MaxMsgChanLen urgent -> step c (enqueue urgent frame c)
  | c_send_refused c : c.(lc).(closeCh) = true -> step c c
  | c_handled c : c.(reader) = Handling -> c.(lc).(drainCh) = false -> step c (set_reader Reading c)
  | c_handled_draining c : c.(reader) = Handling -> c.(lc).(drainCh) = true -> step c (set_reader ReaderExited c)
  | c_handler_panics c : c.(reader) = Handling -> step c (reader_exits EventPanicRecovered c)
  | c_write c ok urgent frame rest : c.(writer) = Writing -> queue urgent c = frame :: rest -> (ok = true -> socket_open c = true) ->
      step c (take_frame ok urgent frame rest c)
  | c_drain c : c.(writer) = Writing -> c.(reader) = ReaderExited -> step c (set_writer Draining c)
  | c_drain_urgent c ok frame rest : c.(writer) = Draining -> c.(msgChan) = frame :: rest -> (ok = true -> socket_open c = true) ->
      step c (take_frame ok true frame rest c)
  | c_drain_look c : c.(writer) = Draining -> c.(msgChan) = [] -> step c (set_writer DrainingBuff c)
  | c_drain_other c ok frame rest : c.(writer) = DrainingBuff -> c.(msgBuffChan) = frame :: rest ->
      (ok = true -> socket_open c = true) -> step c (take_frame ok false frame rest c)
  | c_drained c : c.(writer) = DrainingBuff -> c.(msgBuffChan) = [] -> step c (set_writer WriterExited c)
  | c_begin_closing c : step c (BeginClosing c)
  | c_stop c : step c (Stop c)
  | c_stop_drained c : c.(closing) = WaitingForWriter -> c.(writer) = WriterExited -> step c (close_socket AfterDrain c)
  | c_stop_timeout c : c.(closing) = WaitingForWriter -> step c (close_socket AfterTimeout c).

Definition reachable : Connection -> Prop := rtc step NewConnection.
End Steps.

(** ** What never goes wrong *)
Definition frames (urgent : bool) (l : list (bool * bytes)) : list bytes := omap (fun x => if Bool.eqb x.1 urgent then Some x.2 else None) l.

Lemma frames_app u l x : frames u (l ++ [x]) = frames u l ++ if Bool.eqb x.1 u then [x.2] else [].
Proof. unfold frames. rewrite omap_app. destruct x as [v f]. cbn. by destruct (Bool.eqb v u). Qed.
Lemma frames_grow u l x : frames u l `prefix_of` frames u (l ++ [x]).
Proof. rewrite frames_app. by apply prefix_app_r. Qed.

(** Everything accepted early has left queue [u]. *)
Definition flushed (u : bool) (c : Connection) : Prop :=
  c.(reader) = ReaderExited /\ (c.(write_failed) = false -> frames u c.(early) `prefix_of` frames u c.(written)).

Record conn_ok (c : Connection) : Prop := {
  co_flow : c.(write_failed) = false -> forall u, frames u c.(accepted) = frames u c.(written) ++ queue u c;
  co_early : (forall u, frames u c.(early) `prefix_of` frames u c.(accepted)) /\ (c.(reader) <> ReaderExited -> c.(early) = c.(accepted));
  co_unstarted : c.(reader) = NotReading -> c.(writer) = NotWriting /\ c.(lc).(started) = false;
  co_started : c.(reader) <> NotReading -> c.(lc).(started) = true /\ c.(writer) <> NotWriting;
  co_writer : match c.(writer) with
              | NotWriting | Writing => True
              | Draining => c.(reader) = ReaderExited
              | DrainingBuff => flushed true c
              | WriterExited => c.(write_failed) = true \/ flushed true c /\ flushed false c
              end;
  co_closing : match c.(closing) with
               | SocketOpen => c.(lc).(closeCh) = false /\ c.(removed) = 0%nat
               | WaitingForWriter => c.(lc).(closeCh) = true /\ c.(removed) = 0%nat
               | SocketClosed how => c.(lc).(closeCh) = true /\ c.(removed) = 1%nat /\ (how = AfterDrain -> c.(writer) = WriterExited)
               end }.

Ltac conn_cbn := cbn [Start enqueue accept set_queue set_lc set_reader set_writer set_closing close_socket write MarkActive
  lc reader writer closing msgChan msgBuffChan accepted early written write_failed removed started closeCh drainCh].

(** A change of nothing but the life-cycle. *)
Lemma ok_lc c l : conn_ok c -> l.(started) = c.(lc).(started) -> l.(closeCh) = c.(lc).(closeCh) -> conn_ok (set_lc l c).
Proof. intros [H1 H2 H3 H4 H5 H6] E1 E2. split; conn_cbn; rewrite ?E1, ?E2; done. Qed.

Lemma ok_transition c e : conn_ok c -> conn_ok (set_lc (Transition e c.(lc)).1 c).
Proof. intros H. apply ok_lc; [done|..]; unfold Transition; by destruct (state (lc c)). Qed.

(** The reader moves on, and never from its end. *)
Lemma ok_reader c r : conn_ok c -> c.(reader) = Reading \/ c.(reader) = Handling -> r <> NotReading -> conn_ok (set_reader r c).
Proof.
  intros [H1 H2 H3 H4 H5 H6] Hr Hn. assert (c.(reader) <> ReaderExited /\ c.(reader) <> NotReading) as [Hx Hy] by (destruct Hr as [-> | ->]; done).
  destruct H2 as [H2 H2']. specialize (H2' Hx). split; conn_cbn; try done.
  - intros _. by apply H4.
  - unfold flushed in *. conn_cbn. destruct c.(writer); try done; [by destruct H5|]. destruct H5 as [? | [[? _] _]]; [by left|done].
Qed.

Lemma ok_start c : conn_ok c -> c.(reader) = NotReading -> conn_ok (Start c).
Proof.
  intros [H1 H2 H3 H4 H5 H6] Hr. destruct (H3 Hr) as (Hw & Hs). destruct H2 as [H2 H2']. rewrite Hr in H2'.
  split; conn_cbn; try done; [split; [done|]; intros _; by apply H2'|].
  destruct c.(closing) as [| |how]; [done|done|]. destruct H6 as (? & ? & H6). split_and!; try done. intros E. specialize (H6 E). congruence.
Qed.

Lemma ok_enqueue c u frame : conn_ok c -> conn_ok (enqueue u frame c).
Proof.
  intros [H1 H2 H3 H4 H5 H6]. destruct H2 as [H2 H2']. split; conn_cbn; try done.
  - intros Hf v. rewrite frames_app, (H1 Hf v). cbn. destruct u, v; cbn; by rewrite ?app_nil_r, ?app_assoc.
  - case_bool_decide as Hr; split; try done.
    + intros v. etrans; [apply H2|apply frames_grow].
    + intros v. by rewrite H2'.
    + intros _. by rewrite H2'.
  - unfold flushed in *. conn_cbn. destruct c.(writer); try done; case_bool_decide; try done; [by destruct H5|].
    destruct H5 as [? | [[? _] _]]; [by left|done].
Qed.

Lemma flushed_take c ok u v frame rest w : flushed u c -> flushed u (set_writer w (write ok v frame (set_queue v rest c))).
Proof.
  intros [Hr Hf]. split; [done|]. conn_cbn. intros [Hw Ho]%orb_false_iff. apply negb_false_iff in Ho as ->. etrans; [by apply Hf|apply frames_grow].
Qed.

Lemma ok_take c ok u frame rest : conn_ok c -> c.(writer) = Writing \/ c.(writer) = Draining \/ c.(writer) = DrainingBuff ->
  queue u c = frame :: rest -> conn_ok (take_frame ok u frame rest c).
Proof.
  intros [H1 H2 H3 H4 H5 H6] Hw Hq. assert (forall v, queue v (set_queue u rest c) = if Bool.eqb u v then rest else queue v c) as Hqs by (intros v; by destruct u, v).
  assert (c.(write_failed) || negb ok = false -> forall v, frames v c.(accepted) =
    frames v (if ok then c.(written) ++ [(u, frame)] else c.(written)) ++ queue v (set_queue u rest c)) as Hflow.
  { intros [Hf Ho]%orb_false_iff v. apply negb_false_iff in Ho as ->. rewrite frames_app, (H1 Hf v), Hqs. cbn [fst snd].
    destruct (Bool.eqb u v) eqn:E; [|by rewrite app_nil_r]. apply Bool.eqb_prop in E as <-. by rewrite Hq, <- app_assoc. }
  assert (c.(reader) <> NotReading) as Hr by (intros E; destruct (H3 E) as (E' & _); destruct Hw as [? | [? | ?]]; congruence).
  assert (c.(writer) <> WriterExited) as Hwx by (destruct Hw as [-> | [-> | ->]]; done).
  assert (forall w, (w = Writing \/ w = Draining /\ c.(reader) = ReaderExited \/ w = WriterExited /\ ok = false) ->
    conn_ok (set_writer w (write ok u frame (set_queue u rest c)))) as Hall.
  { intros w Hwr. split; conn_cbn; try done.
    - split; [by apply H4|]. by destruct Hwr as [-> | [[-> _] | [-> _]]].
    - destruct Hwr as [-> | [[-> Hd] | [-> ->]]]; [done|done|]. left. by rewrite orb_true_r.
    - destruct c.(closing) as [| |how]; try done. destruct H6 as (? & ? & H6). split_and!; try done. intros E. by destruct Hwx; apply H6. }
  unfold take_frame. cbn [writer write set_queue]. destruct Hw as [E | [E | E]]; rewrite E in *.
  - destruct ok; [|apply Hall; auto]. replace (write true u frame (set_queue u rest c)) with (set_writer Writing (write true u frame (set_queue u rest c))); [apply Hall; auto|].
    unfold set_writer, write, set_queue. cbn. by rewrite E.
  - apply Hall. auto.
  - apply Hall. destruct H5 as [? _]. auto.
Qed.

Lemma ok_stop c : conn_ok c -> conn_ok (Stop c).
Proof.
  intros H. unfold Stop. pose proof (ok_transition c EventExplicitStop H) as H'. fold (BeginClosing c) in H'. set (c1 := BeginClosing c) in *. clearbody c1. clear H c.
  unfold Close. destruct c1.(lc).(closeCh) eqn:Ec; [by apply ok_lc|]. destruct H' as [H1 H2 H3 H4 H5 H6].
  assert (c1.(removed) = 0%nat) as E0 by (destruct c1.(closing); [by destruct H6|by destruct H6|]; destruct H6 as (? & _); congruence).
  cbn [started]. destruct c1.(lc).(started) eqn:Es; split; conn_cbn; rewrite ?Es, ?E0; try done.
Qed.

Lemma ok_close c how : conn_ok c -> c.(closing) = WaitingForWriter -> (how = AfterDrain -> c.(writer) = WriterExited) -> conn_ok (close_socket how c).
Proof. intros [H1 H2 H3 H4 H5 H6] Hc Hw. rewrite Hc in H6. destruct H6 as (? & Er). split; conn_cbn; try done. by rewrite Er. Qed.

(** The writer moves on and finds queue [u] empty. *)
Lemma empty_flushes c u : conn_ok c -> c.(reader) = ReaderExited -> queue u c = [] -> flushed u c.
Proof. intros [H1 [H2 _] _ _ _ _] Hr Hq. split; [done|]. intros Hf. etrans; [apply H2|]. rewrite (H1 Hf u), Hq, app_nil_r. done. Qed.

Lemma ok_writer c w : conn_ok c -> c.(writer) <> WriterExited -> c.(writer) <> NotWriting ->
  (w = Draining /\ c.(reader) = ReaderExited \/ w = DrainingBuff /\ flushed true c \/ w = WriterExited /\ flushed true c /\ flushed false c) -> conn_ok (set_writer w c).
Proof.
  intros [H1 H2 H3 H4 H5 H6] Hx Hn Hw. split; conn_cbn; try done.
  - intros Hr. destruct (H3 Hr). congruence.
  - intros Hr. split; [by apply H4|]. by destruct Hw as [[-> _] | [[-> _] | [-> _]]].
  - destruct Hw as [[-> ?] | [[-> ?] | [-> [? ?]]]]; auto.
  - destruct c.(closing) as [| |how]; try done. destruct H6 as (? & ? & H6). split_and!; try done. intros E. by destruct Hx; apply H6.
Qed.

Lemma ok_step N c c' : conn_ok c -> step N c c' -> conn_ok c'.
Proof.
  intros H Hs. pose proof (co_writer _ H) as Hwr.
  destruct Hs as [c Hr|c Hr Hc|c e Hr|c u frame _|c _|c Hr _|c Hr _|c Hr|c ok u frame rest Hw Hq _|c Hw Hr|c ok frame rest Hw Hq _|c Hw Hq
    |c ok frame rest Hw Hq _|c Hw Hq|c|c|c Hc Hw|c Hc]; try rewrite Hw in Hwr.
  - by apply ok_start.
  - apply ok_reader; [done|by left|done].
  - apply ok_reader; [by apply ok_transition|by left|done].
  - by apply ok_enqueue.
  - done.
  - apply ok_reader; [done|by right|done].
  - apply ok_reader; [done|by right|done].
  - apply ok_reader; [by apply ok_transition|by right|done].
  - apply ok_take; [done|by left|done].
  - apply ok_writer; [done|by rewrite Hw|by rewrite Hw|by left].
  - apply ok_take; [done|by right; left|done].
  - apply ok_writer; [done|by rewrite Hw|by rewrite Hw|]. right. left. split; [done|]. by apply empty_flushes.
  - apply ok_take; [done|by right; right|done].
  - apply ok_writer; [done|by rewrite Hw|by rewrite Hw|]. right. right. split; [done|]. split; [done|]. apply empty_flushes; [done|apply Hwr|done].
  - by apply ok_transition.
  - by apply ok_stop.
  - by apply ok_close.
  - by apply ok_close.
Qed.

Lemma conn_reachable_ok N c : reachable N c -> conn_ok c.
Proof.
  intros H. assert (conn_ok NewConnection) as H0 by (split; try done; by intros _ []).
  unfold reachable in H. revert H0. induction H as [|c1 c2 c3 Hs _ IH]; [done|]. intros H1. by apply IH, (ok_step N c1).
Qed.

(** C19: What closing a connection does with its responses.  Whatever the
    interleaving of the reader and the handlers it runs, sends from any other
    goroutine at any time, the writer, calls of Stop, broadcast closings, read
    errors, panics and time-outs: when the socket was closed behind the writer
    -- the connection had been started and the wait for the writer did not time
    out -- and no write failed, every frame accepted before the reader ended
    has been written; what has been written is, per queue, the accepted frames
    in order, and what has not is still in the queue; and the connection was
    removed from the registry exactly once.  A frame accepted after the reader
    ended, as a worker of the pool may have it, can stay in the queue for ever
    (late_response_stranded). *)
Theorem early_responses_written N c : reachable N c -> c.(closing) = SocketClosed AfterDrain -> c.(write_failed) = false ->
  (forall urgent, frames urgent c.(early) `prefix_of` frames urgent c.(written) /\
     frames urgent c.(accepted) = frames urgent c.(written) ++ queue urgent c) /\ c.(removed) = 1%nat.
Proof.
  intros [H1 H2 H3 H4 H5 H6]%conn_reachable_ok Hc Hf. rewrite Hc in H6. destruct H6 as (_ & -> & H6). rewrite (H6 eq_refl) in H5. split; [|done].
  destruct H5 as [? | [[_ E1] [_ E2]]]; [congruence|]. intros u. split; [|by apply H1]. destruct u; auto.
Qed.

(** A request is answered while a shutdown begins. *)
Definition demo_open : Connection :=
  let c := set_reader Handling (Start NewConnection) in
  let c := enqueue true (str "r1") (BeginClosing c) in
  let c := enqueue false (str "r2") c in
  let c := set_writer Draining (set_reader ReaderExited c) in
  let c := take_frame true true (str "r1") [] c in
  take_frame true false (str "r2") [] (set_writer DrainingBuff c).
Definition demo_drained : Connection := set_writer WriterExited (set_writer DrainingBuff demo_open).
Definition demo_conn : Connection := close_socket AfterDrain (Stop demo_drained).

Lemma demo_drained_reachable : reachable 100 demo_drained.
Proof.
  eapply rtc_l; [by apply c_start|]. eapply rtc_l; [by apply c_read|]. eapply rtc_l; [apply c_begin_closing|].
  eapply rtc_l; [by apply (c_send 100 _ true (str "r1"))|]. eapply rtc_l; [by apply (c_send 100 _ false (str "r2"))|].
  eapply rtc_l; [by apply c_handled_draining|]. eapply rtc_l; [by apply c_drain|].
  eapply rtc_l; [by apply (c_drain_urgent 100 _ true (str "r1") [])|]. eapply rtc_l; [by apply c_drain_look|].
  eapply rtc_l; [by apply (c_drain_other 100 _ true (str "r2") [])|]. eapply rtc_l; [by apply c_drain_look|].
  eapply rtc_l; [by apply c_drained|]. apply rtc_refl.
Qed.

Lemma demo_reachable : reachable 100 demo_conn.
Proof. eapply rtc_r; [eapply rtc_r; [apply demo_drained_reachable|apply c_stop]|]. by apply c_stop_drained. Qed.

Lemma early_responses_written_witness :
  (forall urgent, frames urgent demo_conn.(early) `prefix_of` frames urgent demo_conn.(written) /\
     frames urgent demo_conn.(accepted) = frames urgent demo_conn.(written) ++ queue urgent demo_conn) /\ demo_conn.(removed) = 1%nat /\
  frames true demo_conn.(early) = [str "r1"].
Proof.
  destruct (early_responses_written 100 demo_conn demo_reachable) as [H1 H2]; [vm_compute; reflexivity|vm_compute; reflexivity|].
  split; [exact H1|]. split; [exact H2|]. vm_compute. reflexivity.
Defined.

(** A worker that answers after the reader has ended and the writer has drained
    is told that its frame was accepted, and nothing writes it any more. *)
Theorem late_response_stranded : exists c, reachable 100 c /\ c.(closing) = SocketClosed AfterDrain /\ c.(write_failed) = false /\
  (true, str "late") ∈ c.(accepted) /\ frames true c.(written) = [str "r1"] /\ queue true c = [str "late"] /\ c.(writer) = WriterExited.
Proof.
  exists (close_socket AfterDrain (Stop (enqueue true (str "late") demo_drained))). split.
  - eapply rtc_r; [eapply rtc_r; [eapply rtc_r; [apply demo_drained_reachable|]|apply c_stop]|by apply c_stop_drained].
    by apply (c_send 100 _ true (str "late")).
  - split_and!; try reflexivity. apply list_elem_of_In. vm_compute. auto.
Qed.

(** [Stop] announces the closed connection before it waits for the writer: a
    handler that is still running can be refused although the socket is open. *)
Theorem stop_refuses_running_handler : exists c, reachable 100 c /\ c.(reader) = Handling /\ c.(closing) = WaitingForWriter /\ c.(lc).(closeCh) = true.
Proof.
  exists (Stop (set_reader Handling (Start NewConnection))). split; [|done].
  eapply rtc_l; [by apply c_start|]. eapply rtc_l; [by apply c_read|]. eapply rtc_l; [apply c_stop|]. apply rtc_refl.
Qed.
End Conn.
