(* ===== verification/Json.v ===== *)
(** * The part of Go's [encoding/json] the program uses

    Job status, job events, job specifications and the delivered-record file
    are JSON.  This file models [json.Marshal] (with its HTML escaping and its
    replacement of invalid UTF-8) and [json.Unmarshal] (the validity scan, the
    nesting limit, string unquoting with surrogate pairs, and the decoding of
    an object into a struct: exact name first, case folding otherwise, last
    occurrence wins, unknown names ignored), and proves that what [Marshal]
    prints [Unmarshal] reads back. *)
From S2P Require Import Prelude Bytes Sha256.

Module Json.

(** ** Values

    A number keeps its literal: [Unmarshal] parses it only when it knows the
    type of the field it goes to. *)
Unset Elimination Schemes.
Inductive json :=
| JNull
| JBool (b : bool)
| JNum (lit : bytes)
| JStr (s : bytes)
| JArr (l : list json)
| JObj (l : list (bytes * json)).
Set Elimination Schemes.

Section Induction.
Context (P : json -> Prop).
Hypothesis (Pnull : P JNull) (Pbool : forall b, P (JBool b)) (Pnum : forall l, P (JNum l))
           (Pstr : forall s, P (JStr s)) (Parr : forall l, Forall P l -> P (JArr l))
           (Pobj : forall l, Forall (fun kv => P kv.2) l -> P (JObj l)).

Fixpoint json_ind (j : json) : P j :=
  match j with
  | JNull => Pnull
  | JBool b => Pbool b
  | JNum l => Pnum l
  | JStr s => Pstr s
  | JArr l => Parr l ((fix go l : Forall P l :=
                                   match l with
                                   | [] => Forall_nil_2 _
                                   | x :: l => Forall_cons_2 _ x l (json_ind x) (go l)
                                   end) l)
  | JObj l => Pobj l ((fix go l : Forall (fun kv => P kv.2) l :=
                                   match l with
                                   | [] => Forall_nil_2 _
                                   | x :: l => Forall_cons_2 _ x l (json_ind x.2) (go l)
                                   end) l)
  end.
End Induction.

(** ** UTF-8 ([unicode/utf8]) *)
Definition between (lo hi : Z) (b : byte) : bool := (lo <=? #b) && (#b <=? hi).

(** The size of the encoded rune at the head of [s]; [0] if the bytes there do
    not encode one ([utf8.DecodeRune] then answers [RuneError] of width 1). *)
Definition rune_len (s : bytes) : nat :=
  match s with
  | [] => 0%nat
  | b0 :: t =>
      if #b0 <? 128 then 1%nat
      else match t with
      | [] => 0%nat
      | b1 :: t1 =>
          if between 0xC2 0xDF b0 then (if between 0x80 0xBF b1 then 2%nat else 0%nat)
          else match t1 with
          | [] => 0%nat
          | b2 :: t2 =>
              if between 0xE0 0xEF b0 then
                if between (if #b0 =? 0xE0 then 0xA0 else 0x80) (if #b0 =? 0xED then 0x9F else 0xBF) b1
                   && between 0x80 0xBF b2 then 3%nat else 0%nat
              else match t2 with
              | [] => 0%nat
              | b3 :: _ =>
                  if between 0xF0 0xF4 b0
                     && between (if #b0 =? 0xF0 then 0x90 else 0x80) (if #b0 =? 0xF4 then 0x8F else 0xBF) b1
                     && between 0x80 0xBF b2 && between 0x80 0xBF b3 then 4%nat else 0%nat
              end
          end
      end
  end.

(** [utf8.AppendRune] *)
Definition encode_rune (r : Z) : bytes :=
  map byte.of_Z
    (if r <? 0x80 then [r]
     else if r <? 0x800 then [0xC0 + r / 64; 0x80 + r mod 64]
     else if r <? 0x10000 then [0xE0 + r / 4096; 0x80 + r / 64 mod 64; 0x80 + r mod 64]
     else [0xF0 + r / 262144; 0x80 + r / 4096 mod 64; 0x80 + r / 64 mod 64; 0x80 + r mod 64]).

Definition replacement : bytes := encode_rune 0xFFFD.

Fixpoint valid_utf8_from (fuel : nat) (s : bytes) : bool :=
  match fuel, s with
  | _, [] => true
  | O, _ => false
  | S f, _ => match rune_len s with O => false | n => valid_utf8_from f (drop n s) end
  end.
(** [utf8.Valid] *)
Definition valid_utf8 (s : bytes) : bool := valid_utf8_from (length s) s.

(** The text with every byte that is not part of an encoded rune replaced by
    U+FFFD: what a string becomes on its way through JSON. *)
Fixpoint to_valid_from (fuel : nat) (s : bytes) : bytes :=
  match fuel, s with
  | S f, _ :: t => match rune_len s with
                   | O => replacement ++ to_valid_from f t
                   | n => take n s ++ to_valid_from f (drop n s)
                   end
  | _, _ => []
  end.
Definition to_valid (s : bytes) : bytes := to_valid_from (length s) s.

(** ** Printing ([json.Marshal]) *)
Definition backslash : byte := byte.of_Z 92.
Definition dquote : byte := byte.of_Z 34.
(** [\u00XX] *)
Definition esc_u (b : byte) : bytes := str "\u00" ++ [hexdigit (#b / 16); hexdigit (#b mod 16)].

(** One ASCII byte of a string ([appendString] with [escapeHTML]). *)
Definition esc (b : byte) : bytes :=
  if bool_decide (b = backslash) || bool_decide (b = dquote) then [backslash; b]
  else if #b =? 8 then str "\b" else if #b =? 12 then str "\f"
  else if #b =? 10 then str "\n" else if #b =? 13 then str "\r" else if #b =? 9 then str "\t"
  else if (#b <? 32) || (#b =? 60) || (#b =? 62) || (#b =? 38) then esc_u b
  else [b].

Definition line_separator : bytes := encode_rune 0x2028.
Definition paragraph_separator : bytes := encode_rune 0x2029.
Definition esc_rune (c : bytes) : bytes :=
  if beqb c line_separator then str "\u2028"
  else if beqb c paragraph_separator then str "\u2029" else c.

Fixpoint quote_body (fuel : nat) (s : bytes) : bytes :=
  match fuel, s with
  | S f, b :: t =>
      if #b <? 128 then esc b ++ quote_body f t
      else match rune_len s with
           | O => str "\ufffd" ++ quote_body f t
           | n => esc_rune (take n s) ++ quote_body f (drop n s)
           end
  | _, _ => []
  end.
Definition quote (s : bytes) : bytes := dquote :: quote_body (length s) s ++ [dquote].

(** [strconv.AppendInt(_, z, 10)] *)
Definition show_int (z : Z) : bytes := if z <? 0 then str "-" ++ show_dec (- z) else show_dec z.

(** Items separated by commas. *)
Fixpoint commas (l : list bytes) : bytes :=
  match l with
  | [] => []
  | [x] => x
  | x :: l' => x ++ str "," ++ commas l'
  end.

Fixpoint print (j : json) : bytes :=
  match j with
  | JNull => str "null"
  | JBool true => str "true"
  | JBool false => str "false"
  | JNum lit => lit
  | JStr s => quote s
  | JArr l => str "[" ++ commas (map print l) ++ str "]"
  | JObj l => str "{" ++ commas (map (fun kv => quote kv.1 ++ str ":" ++ print kv.2) l) ++ str "}"
  end.

(** The value with its strings made valid. *)
Fixpoint sanitize (j : json) : json :=
  match j with
  | JStr s => JStr (to_valid s)
  | JArr l => JArr (map sanitize l)
  | JObj l => JObj (map (fun kv => (to_valid kv.1, sanitize kv.2)) l)
  | _ => j
  end.

(** ** Reading ([json.Unmarshal]) *)
Definition is_ws (b : byte) : bool := (#b =? 32) || (#b =? 9) || (#b =? 10) || (#b =? 13).
Fixpoint skip_ws (s : bytes) : bytes :=
  match s with b :: t => if is_ws b then skip_ws t else s | [] => [] end.

Definition hexval (b : byte) : option Z :=
  if is_digit b then Some (#b - 48)
  else if between 97 102 b then Some (#b - 87)
  else if between 65 70 b then Some (#b - 55) else None.
(** Four hexadecimal digits. *)
Definition getu4 (s : bytes) : option (Z * bytes) :=
  match s with
  | a :: b :: c :: d :: t =>
      x ← hexval a; y ← hexval b; z ← hexval c; w ← hexval d;
      Some (((x * 16 + y) * 16 + z) * 16 + w, t)
  | _ => None
  end.
Definition is_surrogate (r : Z) : bool := (0xD800 <=? r) && (r <? 0xE000).
(** [utf16.DecodeRune]: [None] is [ReplacementChar]. *)
Definition utf16_decode (r1 r2 : Z) : option Z :=
  if (0xD800 <=? r1) && (r1 <? 0xDC00) && (0xDC00 <=? r2) && (r2 <? 0xE000)
  then Some ((r1 - 0xD800) * 1024 + (r2 - 0xDC00) + 0x10000) else None.

(** The text of a [\u] escape and what follows it. *)
Definition unquote_u (s : bytes) : option (bytes * bytes) :=
  '(r, t) ← getu4 s;
  if is_surrogate r then
    match t with
    | a :: b :: t' =>
        if bool_decide (a = backslash) && (#b =? 117) then
          '(r2, t2) ← getu4 t';
          match utf16_decode r r2 with
          | Some q => Some (encode_rune q, t2)
          | None => Some (replacement, t)
          end
        else Some (replacement, t)
    | _ => Some (replacement, t)
    end
  else Some (encode_rune r, t).

Definition simple_escape (e : byte) : option bytes :=
  if (#e =? 34) || (#e =? 92) || (#e =? 47) then Some [e]
  else if #e =? 98 then Some [byte.of_Z 8] else if #e =? 102 then Some [byte.of_Z 12]
  else if #e =? 110 then Some [byte.of_Z 10] else if #e =? 114 then Some [byte.of_Z 13]
  else if #e =? 116 then Some [byte.of_Z 9] else None.

(** The string whose opening quote has been read, and the text after its
    closing quote. *)
Fixpoint unquote (fuel : nat) (s : bytes) : option (bytes * bytes) :=
  match fuel, s with
  | S f, b :: t =>
      if #b =? 34 then Some ([], t)
      else if #b =? 92 then
        match t with
        | [] => None
        | e :: t' =>
            '(c, rest) ← (if #e =? 117 then unquote_u t' else c ← simple_escape e; Some (c, t'));
            '(v, rest') ← unquote f rest; Some (c ++ v, rest')
        end
      else if #b <? 32 then None
      else match rune_len s with
           | O => '(v, rest) ← unquote f t; Some (replacement ++ v, rest)
           | n => '(v, rest) ← unquote f (drop n s); Some (take n s ++ v, rest)
           end
  | _, _ => None
  end.

(** The longest prefix of digits. *)
Fixpoint digits (s : bytes) : bytes * bytes :=
  match s with
  | b :: t => if is_digit b then let '(d, r) := digits t in (b :: d, r) else ([], s)
  | [] => ([], [])
  end.
Definition digits1 (s : bytes) : option (bytes * bytes) :=
  let '(d, r) := digits s in match d with [] => None | _ => Some (d, r) end.

Definition scan_frac (s : bytes) : option (bytes * bytes) :=
  match s with
  | b :: t => if #b =? 46 then '(d, r) ← digits1 t; Some (b :: d, r) else Some ([], s)
  | [] => Some ([], [])
  end.
Definition scan_exp (s : bytes) : option (bytes * bytes) :=
  match s with
  | b :: t =>
      if (#b =? 101) || (#b =? 69) then
        match t with
        | c :: t' => if (#c =? 43) || (#c =? 45) then '(d, r) ← digits1 t'; Some (b :: c :: d, r)
                     else '(d, r) ← digits1 t; Some (b :: d, r)
        | [] => None
        end
      else Some ([], s)
  | [] => Some ([], [])
  end.
(** The integer part: a single zero, or digits that do not start with one. *)
Definition scan_int (s : bytes) : option (bytes * bytes) :=
  match s with
  | b :: t => if #b =? 48 then Some ([b], t) else digits1 s
  | [] => None
  end.
Definition scan_number (s : bytes) : option (bytes * bytes) :=
  let '(sign, s1) := match s with
                     | b :: t => if #b =? 45 then ([b], t) else ([], s)
                     | [] => ([], [])
                     end in
  '(i, s2) ← scan_int s1; '(f, s3) ← scan_frac s2; '(e, s4) ← scan_exp s3;
  Some (sign ++ i ++ f ++ e, s4).

(** A literal after its first byte. *)
Definition expect (lit : bytes) (j : json) (s : bytes) : option (json * bytes) :=
  if beqb (take (length lit) s) lit then Some (j, drop (length lit) s) else None.

Definition maxNestingDepth : Z := 10000.

Fixpoint parse_value (fuel : nat) (depth : Z) (s : bytes) : option (json * bytes) :=
  match fuel, skip_ws s with
  | S f, b :: t =>
      if #b =? 34 then '(v, r) ← unquote (length t) t; Some (JStr v, r)
      else if #b =? 123 then
        if maxNestingDepth <? depth + 1 then None
        else match skip_ws t with
             | c :: r => if #c =? 125 then Some (JObj [], r)
                         else '(l, r') ← parse_members f (depth + 1) t; Some (JObj l, r')
             | [] => None
             end
      else if #b =? 91 then
        if maxNestingDepth <? depth + 1 then None
        else match skip_ws t with
             | c :: r => if #c =? 93 then Some (JArr [], r)
                         else '(l, r') ← parse_elems f (depth + 1) t; Some (JArr l, r')
             | [] => None
             end
      else if #b =? 116 then expect (str "rue") (JBool true) t
      else if #b =? 102 then expect (str "alse") (JBool false) t
      else if #b =? 110 then expect (str "ull") JNull t
      else '(lit, r) ← scan_number (b :: t); Some (JNum lit, r)
  | _, _ => None
  end
with parse_elems (fuel : nat) (depth : Z) (s : bytes) : option (list json * bytes) :=
  match fuel with
  | O => None
  | S f =>
      '(v, r) ← parse_value f depth s;
      match skip_ws r with
      | c :: r' =>
          if #c =? 44 then '(l, r'') ← parse_elems f depth r'; Some (v :: l, r'')
          else if #c =? 93 then Some ([v], r') else None
      | [] => None
      end
  end
with parse_members (fuel : nat) (depth : Z) (s : bytes) : option (list (bytes * json) * bytes) :=
  match fuel, skip_ws s with
  | S f, b :: t =>
      if #b =? 34 then
        '(k, r) ← unquote (length t) t;
        match skip_ws r with
        | c :: r' =>
            if #c =? 58 then
              '(v, r2) ← parse_value f depth r';
              match skip_ws r2 with
              | d :: r3 =>
                  if #d =? 44 then '(l, r4) ← parse_members f depth r3; Some ((k, v) :: l, r4)
                  else if #d =? 125 then Some ([(k, v)], r3) else None
              | [] => None
              end
            else None
        | [] => None
        end
      else None
  | _, _ => None
  end.

(** A whole document: a value with nothing but white space around it. *)
Definition parse (s : bytes) : option json :=
  match parse_value (S (2 * length s)) 0 s with
  | Some (j, r) => match skip_ws r with [] => Some j | _ => None end
  | None => None
  end.

(** ** Decoding into a struct

    A field is its JSON name and what storing a value in it does; [None] is a
    type mismatch, after which [Unmarshal] answers an error. *)
Definition field (A : Type) : Type := bytes * (json -> A -> option A).

Definition upper (b : byte) : byte := if between 97 122 b then byte.of_Z (#b - 32) else b.
(** [foldName]: ASCII letters in upper case; the Kelvin sign and the long s are
    the only other runes that fold to an ASCII letter. *)
Fixpoint fold_name (s : bytes) : bytes :=
  match s with
  | [] => []
  | a :: t =>
      match t with
      | b :: t1 =>
          if (#a =? 0xC5) && (#b =? 0xBF) then byte.of_Z 83 :: fold_name t1
          else match t1 with
               | c :: t2 => if (#a =? 0xE2) && (#b =? 0x84) && (#c =? 0xAA) then byte.of_Z 75 :: fold_name t2
                            else upper a :: fold_name t
               | [] => upper a :: fold_name t
               end
      | [] => [upper a]
      end
  end.

Fixpoint field_by {A} (f : bytes -> bytes) (name : bytes) (fs : list (field A)) : option (json -> A -> option A) :=
  match fs with
  | [] => None
  | (n, set) :: fs' => if beqb (f n) (f name) then Some set else field_by f name fs'
  end.
Definition find_field {A} (fs : list (field A)) (name : bytes) : option (json -> A -> option A) :=
  match field_by (fun n => n) name fs with Some set => Some set | None => field_by fold_name name fs end.

Fixpoint set_fields {A} (fs : list (field A)) (l : list (bytes * json)) (a : A) : option A :=
  match l with
  | [] => Some a
  | (k, v) :: l' =>
      match find_field fs k with
      | Some set => a' ← set v a; set_fields fs l' a'
      | None => set_fields fs l' a
      end
  end.
(** A struct: [null] leaves it as it is. *)
Definition decode_struct {A} (fs : list (field A)) (zero : A) (j : json) : option A :=
  match j with JNull => Some zero | JObj l => set_fields fs l zero | _ => None end.
Definition Unmarshal {A} (fs : list (field A)) (zero : A) (raw : bytes) : option A :=
  j ← parse raw; decode_struct fs zero j.

(** [strconv.ParseInt(lit, 10, 64)] of a number literal. *)
Definition parse_int (lit : bytes) : option Z :=
  match lit with
  | [] => None
  | b :: t =>
      if #b =? 45 then n ← parse_digits 0 t; if n <=? 2 ^ 63 then Some (- n) else None
      else n ← parse_digits 0 lit; if n <? 2 ^ 63 then Some n else None
  end.

(** Fields of type [string], [int] or [int64], [[]string] and
    [map[string]string]; [null] leaves the first two as they are and sets the
    others to [nil]. *)
Definition set_string {A} (put : bytes -> A -> A) (j : json) (a : A) : option A :=
  match j with JNull => Some a | JStr s => Some (put s a) | _ => None end.
Definition set_int {A} (put : Z -> A -> A) (j : json) (a : A) : option A :=
  match j with JNull => Some a | JNum lit => z ← parse_int lit; Some (put z a) | _ => None end.
Definition as_string (j : json) : option bytes :=
  match j with JNull => Some [] | JStr s => Some s | _ => None end.
Definition set_strings {A} (put : list bytes -> A -> A) (j : json) (a : A) : option A :=
  match j with JNull => Some (put [] a) | JArr l => ss ← mapM as_string l; Some (put ss a) | _ => None end.
Definition set_map {A} (get : A -> option (gmap bytes bytes)) (put : option (gmap bytes bytes) -> A -> A)
    (j : json) (a : A) : option A :=
  match j with
  | JNull => Some (put None a)
  | JObj l =>
      m ← foldl (fun m kv => m ← m; s ← as_string kv.2; Some (<[kv.1 := s]> m))
                (Some (default ∅ (get a))) l;
      Some (put (Some m) a)
  | _ => None
  end.

(** [Marshal] of an [int] or [int64]. *)
Definition JInt (z : Z) : json := JNum (show_int z).

End Json.
