(* ===== verification/JsonSpec.v ===== *)
(** * [encoding/json]: what [Marshal] prints, [Unmarshal] reads back *)
From S2P Require Import Prelude Bytes Sha256 Json.

Module JsonSpec.
Import Json.

(** ** Strings *)
Lemma unquote_esc b f t : (#b <? 128) = true ->
  unquote (S f) (esc b ++ t) = '(v, r) ← unquote f t; Some (b :: v, r).
Proof. destruct b; intros H; first [discriminate H | reflexivity]. Qed.

Lemma esc_length b : (1 <= length (esc b))%nat.
Proof. destruct b; vm_compute; lia. Qed.

Lemma rune_len_bound s : (rune_len s <= length s)%nat.
Proof. destruct s as [|a [|b [|c [|d s]]]]; unfold rune_len; repeat case_match; simpl; lia. Qed.

(** A rune is recognised whatever follows it. *)
Lemma rune_len_app s n t : rune_len s = S n -> rune_len (take (S n) s ++ t) = S n.
Proof.
  destruct s as [|a [|b [|c [|d s]]]]; intros H; unfold rune_len in H;
    repeat match type of H with context [if ?x then _ else _] => destruct x eqn:? end; try discriminate H;
    injection H as <-; cbn [take app rune_len];
    repeat match goal with E : ?x = _ |- context [?x] => rewrite E end; done.
Qed.

Lemma rune_head s n : rune_len s = S (S n) -> exists b t, s = b :: t /\ 128 <= #b.
Proof.
  destruct s as [|b t]; [done|]. intros H. exists b, t. split; [done|].
  unfold rune_len in H. destruct (Z.ltb_spec (#b) 128); [discriminate|done].
Qed.

Lemma unquote_rune f s n t : rune_len s = S (S n) ->
  unquote (S f) (esc_rune (take (S (S n)) s) ++ t) = '(v, r) ← unquote f t; Some (take (S (S n)) s ++ v, r).
Proof.
  intros H. unfold esc_rune. destruct (beqb _ line_separator) eqn:E1.
  { apply beqb_eq in E1 as ->. reflexivity. }
  destruct (beqb _ paragraph_separator) eqn:E2.
  { apply beqb_eq in E2 as ->. reflexivity. }
  pose proof (rune_len_app s (S n) t H) as Hr. pose proof (rune_len_bound s) as Hb.
  destruct (rune_head _ _ H) as (b & s' & -> & Hge).
  assert (Hl : length (take (S (S n)) (b :: s')) = S (S n)) by (rewrite length_take; lia).
  assert (Hd : drop (S (S n)) (take (S (S n)) (b :: s') ++ t) = t) by (by apply drop_app_length').
  assert (Ht : take (S (S n)) (take (S (S n)) (b :: s') ++ t) = take (S (S n)) (b :: s')) by (by apply take_app_length').
  remember (take (S (S n)) (b :: s')) as u eqn:Eu.
  assert (Hu : exists u', u = b :: u') by (rewrite Eu; simpl; eauto). destruct Hu as [u' ->].
  cbn [app] in *. cbn [unquote].
  rewrite (proj2 (Z.eqb_neq _ _)) by lia. rewrite (proj2 (Z.eqb_neq _ _)) by lia.
  rewrite (proj2 (Z.ltb_ge _ _)) by lia. rewrite Hr, Hd, Ht. reflexivity.
Qed.

Lemma rune_len_ascii b t : (#b <? 128) = true -> rune_len (b :: t) = 1%nat.
Proof. intros H. unfold rune_len. by rewrite H. Qed.
Lemma rune_len_wide b t n : (#b <? 128) = false -> rune_len (b :: t) = S n -> exists m, n = S m.
Proof.
  intros Hb H. unfold rune_len in H. rewrite Hb in H. repeat case_match; try discriminate;
    injection H as <-; eauto.
Qed.

(** Unquoting what [quote] wrote gives the text made valid; one step of fuel
    per rune is enough. *)
Lemma unquote_quote_body f g s t : (length s <= f)%nat -> (length (quote_body f s) < g)%nat ->
  unquote g (quote_body f s ++ dquote :: t) = Some (to_valid_from f s, t).
Proof.
  revert g s; induction f as [|f IH]; intros g s Hf Hg.
  - destruct s; [|simpl in Hf; lia]. destruct g; [lia|]. reflexivity.
  - destruct s as [|b s]; [destruct g; [simpl in Hg; lia|reflexivity]|]. simpl in Hf.
    cbn [quote_body to_valid_from] in *. destruct (#b <? 128) eqn:Hb.
    + rewrite rune_len_ascii by done. cbn [take drop].
      rewrite length_app in Hg. pose proof (esc_length b). destruct g as [|g]; [lia|].
      rewrite <- app_assoc, unquote_esc by done. by rewrite IH by lia.
    + pose proof (rune_len_bound (b :: s)) as Hl. rewrite length_cons in Hl.
      destruct (rune_len (b :: s)) as [|n] eqn:Hr; rewrite length_app in Hg; rewrite <- app_assoc.
      { change (length (str "\ufffd")) with 6%nat in Hg. destruct g as [|g]; [lia|].
        change (unquote (S g) (str "\ufffd" ++ ?u)) with ('(v, r) ← unquote g u; Some (replacement ++ v, r)).
        by rewrite IH by lia. }
      destruct (rune_len_wide _ _ _ Hb Hr) as [m ->].
      assert (1 <= length (esc_rune (take (S (S m)) (b :: s))))%nat by (unfold esc_rune; repeat case_match; simpl; lia).
      destruct g as [|g]; [lia|]. rewrite unquote_rune by done.
      by rewrite IH by (rewrite ?length_drop, ?length_cons; lia).
Qed.

Lemma unquote_quote s t :
  unquote (length (quote_body (length s) s ++ dquote :: t)) (quote_body (length s) s ++ dquote :: t) = Some (to_valid s, t).
Proof. apply unquote_quote_body; [lia|]. rewrite length_app. simpl. lia. Qed.

(** *** Valid text is left as it is *)
Inductive Valid : bytes -> Prop :=
| V_nil : Valid []
| V_rune s n : rune_len s = S n -> Valid (drop (S n) s) -> Valid s.

Lemma valid_utf8_Valid s : valid_utf8 s = true -> Valid s.
Proof.
  unfold valid_utf8. generalize (length s) as f. intros f; revert s; induction f as [|f IH]; intros s H.
  - destruct s; [constructor|done].
  - cbn [valid_utf8_from] in H. destruct s as [|b t]; [constructor|].
    destruct (rune_len (b :: t)) as [|n] eqn:E; [done|]. econstructor; [exact E|auto].
Qed.

Lemma to_valid_fuel s : Valid s -> forall f, (length s <= f)%nat -> to_valid_from f s = s.
Proof.
  induction 1 as [|s n Hn _ IH]; intros f Hf; [by destruct f|].
  pose proof (rune_len_bound s) as Hb. destruct s as [|b t]; [done|]. rewrite length_cons in *.
  destruct f as [|f]; [lia|]. cbn [to_valid_from]. rewrite Hn.
  rewrite IH by (rewrite length_drop, length_cons; lia). apply take_drop.
Qed.
Lemma to_valid_id s : Valid s -> to_valid s = s.
Proof. intros H. by apply to_valid_fuel. Qed.

Lemma Valid_app_rune s n t : rune_len s = S n -> Valid t -> Valid (take (S n) s ++ t).
Proof.
  intros Hn Ht. pose proof (rune_len_bound s). econstructor; [by apply rune_len_app|].
  rewrite drop_app_length'; [done|]. rewrite length_take. lia.
Qed.
Lemma to_valid_valid s : Valid (to_valid s).
Proof.
  unfold to_valid. generalize (length s) as f. intros f; revert s; induction f as [|f IH]; intros s; [constructor|].
  destruct s as [|b t]; [constructor|]. cbn [to_valid_from]. destruct (rune_len (b :: t)) as [|n] eqn:E.
  - change replacement with (take 3 replacement). apply (Valid_app_rune replacement 2); [reflexivity|apply IH].
  - apply Valid_app_rune; [done|apply IH].
Qed.
Lemma to_valid_idem s : to_valid (to_valid s) = to_valid s.
Proof. apply to_valid_id, to_valid_valid. Qed.

(** ** Numbers *)
Lemma dec_rev_last fuel z : 0 < z < 2 ^ Z.of_nat fuel -> exists l d, dec_rev fuel z = l ++ [digit d] /\ 1 <= d <= 9.
Proof.
  revert z; induction fuel as [|fuel IH]; intros z Hz; [change (2 ^ Z.of_nat 0) with 1 in Hz; lia|].
  cbn [dec_rev]. destruct (Z.ltb_spec z 10); [exists [], z; split; [done|lia]|].
  rewrite Nat2Z.inj_succ, Z.pow_succ_r in Hz by lia.
  destruct (IH (z / 10)) as (l & d & -> & Hd).
  { split; [apply Z.div_str_pos; lia|]. apply Z.div_lt_upper_bound; lia. }
  exists (digit (z mod 10) :: l), d. done.
Qed.

(** The first digit is zero only in ["0"]. *)
Lemma show_dec_head z : 0 <= z -> z = 0 /\ show_dec z = [digit 0] \/
  exists d t, show_dec z = digit d :: t /\ 1 <= d <= 9.
Proof.
  intros H. destruct (Z.eq_dec z 0) as [->|]; [left; split; [done|vm_compute; reflexivity]|right].
  destruct (dec_rev_last (S (Z.to_nat (Z.log2 z))) z) as (l & d & E & Hd); [split; [lia|apply log2_fuel; lia]|].
  exists d, (rev l). split; [|done]. unfold show_dec. rewrite E, rev_app_distr. done.
Qed.

(** What may follow a number. *)
Definition ends (t : bytes) : bool :=
  match t with
  | [] => true
  | b :: _ => negb (is_digit b || (#b =? 46) || (#b =? 101) || (#b =? 69))
  end.

Lemma digits_app l t : Forall (fun b => is_digit b = true) l -> ends t = true -> digits (l ++ t) = (l, t).
Proof.
  intros Hl Ht. induction Hl as [|b l Hb _ IH].
  - destruct t as [|b t]; [done|]. simpl in *. destruct (is_digit b); done.
  - simpl. by rewrite Hb, IH.
Qed.

Lemma ends_frac t : ends t = true -> scan_frac t = Some ([], t) /\ scan_exp t = Some ([], t).
Proof.
  destruct t as [|b t]; [done|]. simpl. intros H. apply negb_true_iff in H.
  apply orb_false_iff in H as [H H3]. apply orb_false_iff in H as [H H2]. apply orb_false_iff in H as [_ H1].
  by rewrite H1, H2, H3.
Qed.

Lemma scan_int_show z t : 0 <= z -> ends t = true -> scan_int (show_dec z ++ t) = Some (show_dec z, t).
Proof.
  intros Hz Ht. pose proof (show_dec_digits z Hz) as Hd.
  destruct (show_dec_head z Hz) as [[-> E]|(d & r & E & Hr)]; rewrite E in *; [reflexivity|].
  cbn [app scan_int]. rewrite digit_val by lia. rewrite (proj2 (Z.eqb_neq _ _)) by lia.
  unfold digits1. change (digit d :: r ++ t) with ((digit d :: r) ++ t). by rewrite digits_app.
Qed.

Lemma scan_number_show z t : ends t = true -> scan_number (show_int z ++ t) = Some (show_int z, t).
Proof.
  intros Ht. destruct (ends_frac t Ht) as [E1 E2]. unfold show_int, scan_number.
  destruct (Z.ltb_spec z 0).
  - change (str "-" ++ show_dec (- z)) with (Byte.x2d :: show_dec (- z)). cbn [app]. change (#(Byte.x2d) =? 45) with true. cbv iota.
    rewrite scan_int_show by (done || lia). cbn [mbind option_bind]. rewrite E1. cbn [mbind option_bind].
    rewrite E2. cbn [mbind option_bind]. by rewrite !app_nil_r.
  - pose proof (show_dec_digits z ltac:(lia)) as Hd. pose proof (scan_int_show z t ltac:(lia) Ht) as Hs.
    destruct (show_dec z) as [|b r] eqn:E.
    { destruct (show_dec_head z ltac:(lia)) as [[_ E']|(? & ? & E' & _)]; rewrite E in E'; discriminate. }
    cbn [app] in *. apply Forall_cons in Hd as [Hb _]. unfold is_digit in Hb.
    rewrite (proj2 (Z.eqb_neq _ _)) by lia. rewrite Hs. cbn [mbind option_bind]. rewrite E1.
    cbn [mbind option_bind]. rewrite E2. cbn [mbind option_bind]. by rewrite !app_nil_r.
Qed.

Lemma parse_int_show z : is_s64 z -> parse_int (show_int z) = Some z.
Proof.
  unfold is_s64, show_int. intros Hz. destruct (Z.ltb_spec z 0).
  - change (str "-" ++ show_dec (- z)) with (Byte.x2d :: show_dec (- z)). unfold parse_int. change (#(Byte.x2d) =? 45) with true. cbv iota.
    rewrite parse_show_dec by lia. cbn [mbind option_bind].
    rewrite (proj2 (Z.leb_le _ _)) by lia. f_equal. lia.
  - pose proof (show_dec_digits z ltac:(lia)) as Hd. pose proof (parse_show_dec z ltac:(lia)) as Hs.
    unfold parse_int. destruct (show_dec z) as [|b r] eqn:E.
    { destruct (show_dec_head z ltac:(lia)) as [[_ E']|(? & ? & E' & _)]; rewrite E in E'; discriminate. }
    apply Forall_cons in Hd as [Hb _]. unfold is_digit in Hb.
    rewrite (proj2 (Z.eqb_neq _ _)) by lia. rewrite Hs. cbn [mbind option_bind].
    by rewrite (proj2 (Z.ltb_lt _ _)) by lia.
Qed.

(** ** Values

    What [Marshal] is given: integers, nesting of at most [n]. *)
Inductive wf : nat -> json -> Prop :=
| wf_null n : wf n JNull
| wf_bool n b : wf n (JBool b)
| wf_int n z : wf n (JInt z)
| wf_str n s : wf n (JStr s)
| wf_arr n l : Forall (wf n) l -> wf (S n) (JArr l)
| wf_obj n l : Forall (fun kv => wf n kv.2) l -> wf (S n) (JObj l).

Lemma show_int_head z : exists b t, show_int z = b :: t /\ (#b = 45 \/ 48 <= #b <= 57).
Proof.
  unfold show_int. destruct (Z.ltb_spec z 0).
  - exists Byte.x2d, (show_dec (- z)). split; [done|]. by left.
  - destruct (show_dec_head z ltac:(lia)) as [[-> E]|(d & t & E & Hd)]; rewrite E.
    + exists (digit 0), []. split; [done|]. rewrite digit_val by lia. lia.
    + exists (digit d), t. split; [done|]. rewrite digit_val by lia. lia.
Qed.

(** A printed value starts with a byte that is neither white space nor a
    closing bracket. *)
Lemma print_head n j : wf n j -> exists b t, print j = b :: t /\ is_ws b = false /\ #b <> 93 /\ #b <> 125.
Proof.
  intros H. destruct H as [n|n b|n z|n s|n l Hl|n l Hl]; try (destruct b);
    try (eexists _, _; split; [reflexivity|]; vm_compute; repeat split; discriminate).
  destruct (show_int_head z) as (b & t & E & Hb). exists b, t. split; [done|].
  unfold is_ws. split; lia.
Qed.

Lemma skip_head b t : is_ws b = false -> skip_ws (b :: t) = b :: t.
Proof. intros H. simpl. by rewrite H. Qed.

Lemma quote_app s t : quote s ++ t = dquote :: quote_body (length s) s ++ dquote :: t.
Proof. unfold quote. cbn [app]. by rewrite <- app_assoc. Qed.

Lemma ends_bracket c t : #c = 44 \/ #c = 93 \/ #c = 125 -> ends (c :: t) = true.
Proof. intros H. unfold ends, is_digit. apply negb_true_iff. lia. Qed.

Lemma commas_cons x y l : commas (x :: y :: l) = x ++ str "," ++ commas (y :: l).
Proof. reflexivity. Qed.

Definition comma : byte := Byte.x2c.

Lemma parse_elems_S f d s : parse_elems (S f) d s =
  '(v, r) ← parse_value f d s;
  match skip_ws r with
  | c :: r' => if #c =? 44 then '(l, r'') ← parse_elems f d r'; Some (v :: l, r'')
               else if #c =? 93 then Some ([v], r') else None
  | [] => None
  end.
Proof. reflexivity. Qed.

Lemma parse_members_quote f d k r : parse_members (S f) d (quote k ++ Byte.x3a :: r) =
  '(v, r2) ← parse_value f d r;
  match skip_ws r2 with
  | c :: r3 => if #c =? 44 then '(l, r4) ← parse_members f d r3; Some ((to_valid k, v) :: l, r4)
               else if #c =? 125 then Some ([(to_valid k, v)], r3) else None
  | [] => None
  end.
Proof.
  rewrite quote_app. cbn [parse_members]. rewrite skip_head by done.
  change (#dquote =? 34) with true. cbv iota. rewrite unquote_quote. reflexivity.
Qed.

Definition parses (n : nat) (j : json) : Prop := forall d f t, wf n j -> d + Z.of_nat n <= maxNestingDepth ->
  (2 * length (print j) <= f)%nat -> ends t = true -> parse_value (S f) d (print j ++ t) = Some (sanitize j, t).

Lemma parse_elems_print n l d f t : l <> [] -> Forall (fun j => parses n j) l -> Forall (wf n) l ->
  d + Z.of_nat n <= maxNestingDepth -> (2 * length (commas (map print l)) + 2 <= f)%nat ->
  parse_elems f d (commas (map print l) ++ Byte.x5d :: t) = Some (map sanitize l, t).
Proof.
  revert f; induction l as [|x l IH]; intros f Hn HP Hw Hd Hf; [done|].
  apply Forall_cons in HP as [Hx HP]. apply Forall_cons in Hw as [Wx Hw].
  destruct f as [|[|f]]; [lia|lia|]. rewrite parse_elems_S. destruct l as [|y l].
  - cbn [map commas] in *. rewrite (Hx d f (Byte.x5d :: t)); [reflexivity|done|done|lia|reflexivity].
  - cbn [map] in *. rewrite commas_cons in *. rewrite !length_app in Hf.
    change (length (str ",")) with 1%nat in Hf. rewrite <- !app_assoc.
    change (str "," ++ commas (print y :: map print l) ++ Byte.x5d :: t)
      with (comma :: commas (print y :: map print l) ++ Byte.x5d :: t).
    rewrite Hx; [|done|done|lia|reflexivity]. cbn [mbind option_bind].
    change (skip_ws (comma :: ?r)) with (comma :: r). cbv iota. change (#comma =? 44) with true. cbv iota.
    rewrite (IH (S f)); [reflexivity|done|done|done|done|]. simpl in *. lia.
Qed.

Definition member (kv : bytes * json) : bytes := quote kv.1 ++ str ":" ++ print kv.2.

Definition sanitize_member (kv : bytes * json) : bytes * json := (to_valid kv.1, sanitize kv.2).

Lemma parse_members_print n l d f t : l <> [] -> Forall (fun kv => parses n kv.2) l ->
  Forall (fun kv => wf n kv.2) l -> d + Z.of_nat n <= maxNestingDepth ->
  (2 * length (commas (map member l)) + 2 <= f)%nat ->
  parse_members f d (commas (map member l) ++ Byte.x7d :: t) = Some (map sanitize_member l, t).
Proof.
  revert f; induction l as [|[k x] l IH]; intros f Hn HP Hw Hd Hf; [done|].
  apply Forall_cons in HP as [Hx HP]. apply Forall_cons in Hw as [Wx Hw]. cbn [fst snd] in *.
  assert (Hm : forall r, member (k, x) ++ r = quote k ++ Byte.x3a :: print x ++ r).
  { intros r. unfold member. cbn [fst snd]. by rewrite <- !app_assoc. }
  assert (Hl : (length (print x) + 3 <= length (member (k, x)))%nat).
  { unfold member, quote. cbn [fst snd]. rewrite length_app, length_app. simpl. rewrite length_app. simpl. lia. }
  destruct f as [|[|f]]; [lia|lia|]. destruct l as [|y l].
  - cbn [map commas] in *. rewrite Hm, parse_members_quote.
    rewrite (Hx d f (Byte.x7d :: t)); [reflexivity|done|done|lia|reflexivity].
  - cbn [map] in *. rewrite commas_cons in *. rewrite !length_app in Hf.
    change (length (str ",")) with 1%nat in Hf. rewrite <- !app_assoc, Hm, parse_members_quote.
    change (str "," ++ commas (member y :: map member l) ++ Byte.x7d :: t)
      with (comma :: commas (member y :: map member l) ++ Byte.x7d :: t).
    rewrite Hx; [|done|done|lia|reflexivity]. cbn [mbind option_bind].
    change (skip_ws (comma :: ?r)) with (comma :: r). cbv iota. change (#comma =? 44) with true. cbv iota.
    rewrite (IH (S f)); [reflexivity|done|done|done|done|]. simpl in *. lia.
Qed.

Lemma parse_value_number f d z t : ends t = true -> parse_value (S f) d (show_int z ++ t) = Some (JInt z, t).
Proof.
  intros Ht. pose proof (scan_number_show z t Ht) as Hs.
  destruct (show_int_head z) as (b & r & E & Hb). rewrite E in *. cbn [app] in *. cbn [parse_value].
  rewrite skip_head by (unfold is_ws; lia). do 6 (rewrite (proj2 (Z.eqb_neq _ _)) by lia).
  rewrite Hs. cbn [mbind option_bind]. by rewrite <- E.
Qed.

Lemma commas_head x l b r : x = b :: r -> exists r', commas (x :: l) = b :: r'.
Proof. intros ->. destruct l; cbn [commas app]; eauto. Qed.

(** Opening bracket, contents, closing bracket. *)
Lemma parse_array f d s l t b r : d + 1 <= maxNestingDepth -> s = b :: r -> is_ws b = false -> #b <> 93 ->
  parse_elems f (d + 1) s = Some (l, t) -> parse_value (S f) d (Byte.x5b :: s) = Some (JArr l, t).
Proof.
  intros Hd -> Hb Hb' HE. cbn [parse_value]. rewrite skip_head by done.
  change (#Byte.x5b =? 34) with false. change (#Byte.x5b =? 123) with false.
  change (#Byte.x5b =? 91) with true. cbv iota. rewrite (proj2 (Z.ltb_ge _ (d + 1))) by done.
  rewrite skip_head by done. rewrite (proj2 (Z.eqb_neq (#b) 93)) by done. by rewrite HE.
Qed.

Lemma parse_object f d s l t b r : d + 1 <= maxNestingDepth -> s = b :: r -> is_ws b = false -> #b <> 125 ->
  parse_members f (d + 1) s = Some (l, t) -> parse_value (S f) d (Byte.x7b :: s) = Some (JObj l, t).
Proof.
  intros Hd -> Hb Hb' HE. cbn [parse_value]. rewrite skip_head by done.
  change (#Byte.x7b =? 34) with false. change (#Byte.x7b =? 123) with true.
  cbv iota. rewrite (proj2 (Z.ltb_ge _ (d + 1))) by done.
  rewrite skip_head by done. rewrite (proj2 (Z.eqb_neq (#b) 125)) by done. by rewrite HE.
Qed.

Lemma parse_empty f d t : d + 1 <= maxNestingDepth ->
  parse_value (S f) d (Byte.x5b :: Byte.x5d :: t) = Some (JArr [], t) /\
  parse_value (S f) d (Byte.x7b :: Byte.x7d :: t) = Some (JObj [], t).
Proof.
  intros Hd. cbn [parse_value]. rewrite !skip_head by done. cbv zeta.
  rewrite (proj2 (Z.ltb_ge _ (d + 1))) by done. done.
Qed.

Lemma print_arr l t : print (JArr l) ++ t = Byte.x5b :: commas (map print l) ++ Byte.x5d :: t.
Proof. cbn [print]. by rewrite <- !app_assoc. Qed.
Lemma print_obj l t : print (JObj l) ++ t = Byte.x7b :: commas (map member l) ++ Byte.x7d :: t.
Proof. cbn [print]. by rewrite <- !app_assoc. Qed.
Lemma length_print_arr l : length (print (JArr l)) = (2 + length (commas (map print l)))%nat.
Proof. cbn [print]. rewrite !length_app. change (length (str "[")) with 1%nat. change (length (str "]")) with 1%nat. lia. Qed.
Lemma length_print_obj l : length (print (JObj l)) = (2 + length (commas (map member l)))%nat.
Proof.
  cbn [print]. rewrite !length_app. change (length (str "{")) with 1%nat. change (length (str "}")) with 1%nat.
  change (map _ l) with (map member l). lia.
Qed.

(** Everything [Marshal] prints is read back. *)
Lemma parse_value_print j n : parses n j.
Proof.
  revert n; induction j as [|b|lit|s|l IH|l IH] using json_ind; intros n d f t Hw Hd Hf Ht; inversion Hw; subst.
  - reflexivity.
  - destruct b; reflexivity.
  - by apply parse_value_number.
  - cbn [print]. rewrite quote_app. cbn [parse_value]. rewrite skip_head by done.
    change (#dquote =? 34) with true. cbv iota. by rewrite unquote_quote.
  - rewrite print_arr. destruct l as [|x l]; [apply parse_empty; lia|].
    match goal with H : Forall (wf _) _ |- _ => pose proof (Forall_inv H) as Wx; rename H into Hl end.
    destruct (print_head _ _ Wx) as (b & r & E & Hb & Hb' & _).
    destruct (commas_head _ (map print l) _ _ E) as [r' E'].
    eapply parse_array; [lia|cbn [map]; rewrite E'; reflexivity|done|done|]. rewrite length_print_arr in Hf.
    eapply parse_elems_print; [done|eapply Forall_impl; [exact IH|eauto]|exact Hl|lia|lia].
  - rewrite print_obj. destruct l as [|[k x] l]; [apply parse_empty; lia|].
    destruct (commas_head (member (k, x)) (map member l) dquote _ eq_refl) as [r' E'].
    eapply parse_object; [lia|cbn [map]; rewrite E'; reflexivity|done|done|]. rewrite length_print_obj in Hf.
    eapply parse_members_print; [done|eapply Forall_impl; [exact IH|eauto]|eassumption|lia|lia].
Qed.

Lemma parse_print n j : wf n j -> Z.of_nat n <= maxNestingDepth -> parse (print j) = Some (sanitize j).
Proof.
  intros Hw Hn. unfold parse. pose proof (parse_value_print j n 0 (2 * length (print j))%nat [] Hw) as H.
  rewrite app_nil_r in H. rewrite H; [done|lia|lia|done].
Qed.

End JsonSpec.
