(* ===== verification/JobSpec.v ===== *)
(** * The job controller's data: specifications, time slots, status and events

    [internal/jobctl]: spec.go, clock.go, status.go, keys.go, strategy_phase.go
    and [mergeEnv] of executor.go.  A job's desired state, its observed status
    and its event ledger are JSON documents under three families of keys; the
    idempotence key of an execution is the time slot together with the
    fingerprint of the specification. *)
From stdpp Require Import sorting.
From S2P Require Import Prelude Bytes Sha256 Json.

Module Job.
Import Json.

(** ** Keys (keys.go) *)
Definition SpecKey (name : bytes) : bytes := str "job:spec:" ++ name.
Definition StatusKey (name : bytes) : bytes := str "job:status:" ++ name.
Definition EventsKey (name : bytes) : bytes := str "job:events:" ++ name.
Definition EngineSource : bytes := str "jobctl".

(** ** Time slots (clock.go)

    A [time.Time] is its [UnixNano]; a [time.Location] is the offset (seconds
    east of UTC) before its first transition and the transitions, each with the
    instant (Unix seconds) it takes effect and the offset from then on. *)
Definition Second : Z := 1000000000.

Record Location := MkLocation { first_offset : Z; transitions : list (Z * Z) }.

Definition alpha : Z := - 2 ^ 63.
Definition omega : Z := 2 ^ 63 - 1.
(** [Location.lookup]: the offset in force and the interval it is in force for. *)
Fixpoint lookup_from (offset start : Z) (tx : list (Z * Z)) (sec : Z) : Z * Z * Z :=
  match tx with
  | [] => (offset, start, omega)
  | (when, off) :: tx' => if sec <? when then (offset, start, when) else lookup_from off when tx' sec
  end.
Definition lookup_zone (loc : Location) (sec : Z) : Z * Z * Z :=
  lookup_from loc.(first_offset) alpha loc.(transitions) sec.

(** The civil day of an instant, counted from 1970-01-01. *)
Definition local_day (loc : Location) (nanos : Z) : Z :=
  let sec := nanos / Second in
  let '(offset, _, _) := lookup_zone loc sec in (sec + offset) / 86400.

(** [time.Date] of the given civil day at [hour]:[min], in Unix seconds. *)
Definition date (loc : Location) (day hour min : Z) : Z :=
  let unix := day * 86400 + hour * 3600 + min * 60 in
  let '(offset, start, end_) := lookup_zone loc unix in
  if offset =? 0 then unix
  else
    let utc := unix - offset in
    if (utc <? start) || (end_ <=? utc) then let '(offset', _, _) := lookup_zone loc utc in unix - offset'
    else unix - offset.

Definition floorDiv (a b : Z) : Z :=
  let q := Z.quot a b in
  if negb (Z.rem a b =? 0) && xorb (a <? 0) (b <? 0) then q - 1 else q.

(** [intervalSeconds * int64(time.Second)] wraps; dividing by a product that
    wrapped to zero panics. *)
Definition interval_nanos (intervalSeconds : Z) : Z :=
  s64 ((if intervalSeconds <=? 0 then 1 else intervalSeconds) * Second).

Definition Slot (nanos intervalSeconds : Z) : go Z :=
  let i := interval_nanos intervalSeconds in
  if i =? 0 then Panic else Ret (s64 (Z.quot nanos i)).

Definition AnchoredSlot (nanos intervalSeconds : Z) (loc : Location) (hour min : Z) : go Z :=
  let i := interval_nanos intervalSeconds in
  let anchor := date loc (local_day loc nanos) hour min * Second in
  let ref := date loc 0 hour min * Second in
  if i =? 0 then Panic
  else Ret (s64 (floorDiv (nanos - anchor) i + floorDiv (anchor - ref) i)).

(** ** Specifications (spec.go) *)
Record JobSpec := MkJobSpec {
  Name : bytes;
  Command : list bytes;
  Dir : bytes;
  Env : option (gmap bytes bytes);
  DependsOn : list bytes;
  ScheduleIntervalSeconds : Z;
  Schedule : bytes;
  MaxRetries : Z;
  RetryBackoffSeconds : Z }.

Definition zero_spec : JobSpec := MkJobSpec [] [] [] None [] 0 [] 0 0.

(** [strings.CutPrefix], and [strings.Cut] at a single byte. *)
Definition cut_prefix (p s : bytes) : option bytes :=
  if beqb (take (length p) s) p then Some (drop (length p) s) else None.
Fixpoint cut (sep : byte) (s : bytes) : option (bytes * bytes) :=
  match s with
  | [] => None
  | b :: t => if bool_decide (b = sep) then Some ([], t) else '(x, y) ← cut sep t; Some (b :: x, y)
  end.
(** [strconv.Atoi] *)
Definition Atoi (s : bytes) : option Z :=
  match s with
  | [] => None
  | b :: t =>
      if #b =? 45 then match t with [] => None | _ => parse_int s end
      else if #b =? 43 then match t with [] => None | c :: _ => if is_digit c then parse_int t else None end
      else parse_int s
  end.

Section Spec.
(** The time-zone database. *)
Context (LoadLocation : bytes -> option Location).

Definition ParseSchedule (s : bytes) : option (Z * Z * Location) :=
  rest ← cut_prefix (str "daily@") s;
  '(timeStr, zone) ← cut (byte.of_Z 32) rest;
  if beqb zone [] then None
  else
    '(hStr, mStr) ← cut (byte.of_Z 58) timeStr;
    h ← Atoi hStr;
    if (h <? 0) || (23 <? h) then None
    else
      m ← Atoi mStr;
      if (m <? 0) || (59 <? m) then None
      else loc ← LoadLocation zone; Some (h, m, loc).

(** [JobSpec.Slot] *)
Definition spec_slot (s : JobSpec) (nanos : Z) : go Z :=
  if beqb s.(Schedule) [] then Slot nanos s.(ScheduleIntervalSeconds)
  else match ParseSchedule s.(Schedule) with
       | Some (h, m, loc) => AnchoredSlot nanos s.(ScheduleIntervalSeconds) loc h m
       | None => Slot nanos s.(ScheduleIntervalSeconds)
       end.

(** The fields a [ValidationError] names; its reason is display text. *)
Inductive spec_field :=
| FName | FCommand | FCommand0 | FInterval | FSchedule | FMaxRetries | FBackoff | FDependsOn (i : nat).

Fixpoint bad_dep (name : bytes) (i : nat) (deps : list bytes) : option spec_field :=
  match deps with
  | [] => None
  | d :: deps' => if beqb d [] || beqb d name then Some (FDependsOn i) else bad_dep name (S i) deps'
  end.

(** [None] is a valid specification. *)
Definition Validate (s : JobSpec) : option spec_field :=
  if beqb s.(Name) [] then Some FName
  else match s.(Command) with
  | [] => Some FCommand
  | c :: _ =>
      if beqb c [] then Some FCommand0
      else if s.(ScheduleIntervalSeconds) <=? 0 then Some FInterval
      else if negb (beqb s.(Schedule) []) && match ParseSchedule s.(Schedule) with Some _ => false | None => true end
      then Some FSchedule
      else if s.(MaxRetries) <? 0 then Some FMaxRetries
      else if s.(RetryBackoffSeconds) <? 0 then Some FBackoff
      else bad_dep s.(Name) 0 s.(DependsOn)
  end.

Definition spec_fields : list (field JobSpec) := [
  (str "name", set_string (fun x s => MkJobSpec x s.(Command) s.(Dir) s.(Env) s.(DependsOn) s.(ScheduleIntervalSeconds) s.(Schedule) s.(MaxRetries) s.(RetryBackoffSeconds)));
  (str "command", set_strings (fun x s => MkJobSpec s.(Name) x s.(Dir) s.(Env) s.(DependsOn) s.(ScheduleIntervalSeconds) s.(Schedule) s.(MaxRetries) s.(RetryBackoffSeconds)));
  (str "dir", set_string (fun x s => MkJobSpec s.(Name) s.(Command) x s.(Env) s.(DependsOn) s.(ScheduleIntervalSeconds) s.(Schedule) s.(MaxRetries) s.(RetryBackoffSeconds)));
  (str "env", set_map Env (fun x s => MkJobSpec s.(Name) s.(Command) s.(Dir) x s.(DependsOn) s.(ScheduleIntervalSeconds) s.(Schedule) s.(MaxRetries) s.(RetryBackoffSeconds)));
  (str "depends_on", set_strings (fun x s => MkJobSpec s.(Name) s.(Command) s.(Dir) s.(Env) x s.(ScheduleIntervalSeconds) s.(Schedule) s.(MaxRetries) s.(RetryBackoffSeconds)));
  (str "schedule_interval_seconds", set_int (fun x s => MkJobSpec s.(Name) s.(Command) s.(Dir) s.(Env) s.(DependsOn) x s.(Schedule) s.(MaxRetries) s.(RetryBackoffSeconds)));
  (str "schedule", set_string (fun x s => MkJobSpec s.(Name) s.(Command) s.(Dir) s.(Env) s.(DependsOn) s.(ScheduleIntervalSeconds) x s.(MaxRetries) s.(RetryBackoffSeconds)));
  (str "max_retries", set_int (fun x s => MkJobSpec s.(Name) s.(Command) s.(Dir) s.(Env) s.(DependsOn) s.(ScheduleIntervalSeconds) s.(Schedule) x s.(RetryBackoffSeconds)));
  (str "retry_backoff_seconds", set_int (fun x s => MkJobSpec s.(Name) s.(Command) s.(Dir) s.(Env) s.(DependsOn) s.(ScheduleIntervalSeconds) s.(Schedule) s.(MaxRetries) x))].

Inductive spec_error := BadJson | BadField (f : spec_field).
Definition ParseJobSpec (raw : bytes) : result spec_error JobSpec :=
  match Unmarshal spec_fields zero_spec raw with
  | None => Err BadJson
  | Some s => match Validate s with None => Ok s | Some f => Err (BadField f) end
  end.
End Spec.

(** [sort.Strings] *)
#[export] Instance ble_dec : RelDecision ble.
Proof. intros a b. unfold ble. destruct (compare a b); [left|left|right]; congruence. Defined.
Definition sort_strings (l : list bytes) : list bytes := merge_sort ble l.

Definition key_le (a b : bytes * bytes) : Prop := ble a.1 b.1.
#[export] Instance key_le_dec : RelDecision key_le.
Proof. intros a b. unfold key_le. apply _. Defined.
(** The entries of a map in key order. *)
Definition sorted_entries (m : gmap bytes bytes) : list (bytes * bytes) := merge_sort key_le (map_to_list m).

(** A [nil] slice or map is [null]; [Validate] excludes an empty command. *)
Definition json_strings (l : list bytes) : json := match l with [] => JNull | _ => JArr (map JStr l) end.
Definition json_map (m : option (gmap bytes bytes)) : json :=
  match m with
  | None => JNull
  | Some m => JObj (map (fun kv => (kv.1, JStr kv.2)) (sorted_entries m))
  end.

(** The document [CanonicalJSON] prints: the dependencies sorted, an empty
    schedule omitted. *)
Definition canonical (s : JobSpec) : json :=
  JObj ([(str "name", JStr s.(Name)); (str "command", json_strings s.(Command)); (str "dir", JStr s.(Dir));
         (str "env", json_map s.(Env)); (str "depends_on", json_strings (sort_strings s.(DependsOn)));
         (str "schedule_interval_seconds", JInt s.(ScheduleIntervalSeconds));
         (str "max_retries", JInt s.(MaxRetries)); (str "retry_backoff_seconds", JInt s.(RetryBackoffSeconds))]
        ++ if beqb s.(Schedule) [] then [] else [(str "schedule", JStr s.(Schedule))]).
Definition CanonicalJSON (s : JobSpec) : bytes := print (canonical s).
Definition Fingerprint (s : JobSpec) : bytes := hex (sha256 (CanonicalJSON s)).

(** [mergeEnv] (executor.go): the inherited environment, then the overrides in
    key order. *)
Definition mergeEnv (base : list bytes) (overrides : gmap bytes bytes) : list bytes :=
  base ++ map (fun kv => kv.1 ++ str "=" ++ kv.2) (sorted_entries overrides).

(** ** Status and events (status.go) *)
Definition PhasePending : bytes := str "pending".
Definition PhaseRunning : bytes := str "running".
Definition PhaseSucceeded : bytes := str "succeeded".
Definition PhaseFailed : bytes := str "failed".
Definition PhaseAlerting : bytes := str "alerting".
Definition Terminal (p : bytes) : bool := beqb p PhaseSucceeded || beqb p PhaseAlerting.

Definition EventSucceeded : bytes := str "succeeded".
Definition EventFailed : bytes := str "failed".
Definition EventRetryScheduled : bytes := str "retry_scheduled".
Definition EventAlert : bytes := str "alert".
Definition EventWaitingOnDeps : bytes := str "waiting_on_deps".

Record JobStatus := MkStatus {
  Phase : bytes;
  SSlot : Z;
  SFingerprint : bytes;
  SAttempt : Z;
  LastAttemptTime : Z;
  LastExitCode : Z;
  LastVerdict : bytes;
  SMessage : bytes }.
#[export] Instance JobStatus_eq_dec : EqDecision JobStatus.
Proof. solve_decision. Defined.

Definition zero_status : JobStatus := MkStatus [] 0 [] 0 0 0 [] [].
Definition json_status (s : JobStatus) : json := JObj [
  (str "phase", JStr s.(Phase)); (str "slot", JInt s.(SSlot)); (str "spec_fingerprint", JStr s.(SFingerprint));
  (str "attempt", JInt s.(SAttempt)); (str "last_attempt_time", JInt s.(LastAttemptTime));
  (str "last_exit_code", JInt s.(LastExitCode)); (str "last_verdict", JStr s.(LastVerdict));
  (str "message", JStr s.(SMessage))].
Definition encodeJobStatus (s : JobStatus) : bytes := print (json_status s).
Definition status_fields : list (field JobStatus) := [
  (str "phase", set_string (fun x s => MkStatus x s.(SSlot) s.(SFingerprint) s.(SAttempt) s.(LastAttemptTime) s.(LastExitCode) s.(LastVerdict) s.(SMessage)));
  (str "slot", set_int (fun x s => MkStatus s.(Phase) x s.(SFingerprint) s.(SAttempt) s.(LastAttemptTime) s.(LastExitCode) s.(LastVerdict) s.(SMessage)));
  (str "spec_fingerprint", set_string (fun x s => MkStatus s.(Phase) s.(SSlot) x s.(SAttempt) s.(LastAttemptTime) s.(LastExitCode) s.(LastVerdict) s.(SMessage)));
  (str "attempt", set_int (fun x s => MkStatus s.(Phase) s.(SSlot) s.(SFingerprint) x s.(LastAttemptTime) s.(LastExitCode) s.(LastVerdict) s.(SMessage)));
  (str "last_attempt_time", set_int (fun x s => MkStatus s.(Phase) s.(SSlot) s.(SFingerprint) s.(SAttempt) x s.(LastExitCode) s.(LastVerdict) s.(SMessage)));
  (str "last_exit_code", set_int (fun x s => MkStatus s.(Phase) s.(SSlot) s.(SFingerprint) s.(SAttempt) s.(LastAttemptTime) x s.(LastVerdict) s.(SMessage)));
  (str "last_verdict", set_string (fun x s => MkStatus s.(Phase) s.(SSlot) s.(SFingerprint) s.(SAttempt) s.(LastAttemptTime) s.(LastExitCode) x s.(SMessage)));
  (str "message", set_string (fun x s => MkStatus s.(Phase) s.(SSlot) s.(SFingerprint) s.(SAttempt) s.(LastAttemptTime) s.(LastExitCode) s.(LastVerdict) x))].
Definition decodeJobStatus (raw : bytes) : option JobStatus := Unmarshal status_fields zero_status raw.

Record Event := MkEvent {
  ESlot : Z;
  EAttempt : Z;
  EFingerprint : bytes;
  Outcome : bytes;
  ExitCode : Z;
  EMessage : bytes;
  EWriteNanos : Z }.
#[export] Instance Event_eq_dec : EqDecision Event.
Proof. solve_decision. Defined.

Definition zero_event : Event := MkEvent 0 0 [] [] 0 [] 0.
Definition json_event (e : Event) : json := JObj [
  (str "slot", JInt e.(ESlot)); (str "attempt", JInt e.(EAttempt)); (str "spec_fingerprint", JStr e.(EFingerprint));
  (str "outcome", JStr e.(Outcome)); (str "exit_code", JInt e.(ExitCode)); (str "message", JStr e.(EMessage));
  (str "write_nanos", JInt e.(EWriteNanos))].
Definition encodeEvent (e : Event) : bytes := print (json_event e).
Definition event_fields : list (field Event) := [
  (str "slot", set_int (fun x e => MkEvent x e.(EAttempt) e.(EFingerprint) e.(Outcome) e.(ExitCode) e.(EMessage) e.(EWriteNanos)));
  (str "attempt", set_int (fun x e => MkEvent e.(ESlot) x e.(EFingerprint) e.(Outcome) e.(ExitCode) e.(EMessage) e.(EWriteNanos)));
  (str "spec_fingerprint", set_string (fun x e => MkEvent e.(ESlot) e.(EAttempt) x e.(Outcome) e.(ExitCode) e.(EMessage) e.(EWriteNanos)));
  (str "outcome", set_string (fun x e => MkEvent e.(ESlot) e.(EAttempt) e.(EFingerprint) x e.(ExitCode) e.(EMessage) e.(EWriteNanos)));
  (str "exit_code", set_int (fun x e => MkEvent e.(ESlot) e.(EAttempt) e.(EFingerprint) e.(Outcome) x e.(EMessage) e.(EWriteNanos)));
  (str "message", set_string (fun x e => MkEvent e.(ESlot) e.(EAttempt) e.(EFingerprint) e.(Outcome) e.(ExitCode) x e.(EWriteNanos)));
  (str "write_nanos", set_int (fun x e => MkEvent e.(ESlot) e.(EAttempt) e.(EFingerprint) e.(Outcome) e.(ExitCode) e.(EMessage) x))].
Definition decodeEvent (raw : bytes) : option Event := Unmarshal event_fields zero_event raw.

(** The status an event stands for. *)
Definition jobStatusFromEvent (ev : Event) : JobStatus :=
  let st p msg := MkStatus p ev.(ESlot) ev.(EFingerprint) ev.(EAttempt) ev.(EWriteNanos) ev.(ExitCode) ev.(Outcome) msg in
  if beqb ev.(Outcome) EventSucceeded
  then st PhaseSucceeded (if beqb ev.(EMessage) [] then str "ok" else ev.(EMessage))
  else if beqb ev.(Outcome) EventAlert then st PhaseAlerting ev.(EMessage)
  else st PhaseFailed ev.(EMessage).

(** ** The strategy life cycle (strategy_phase.go) *)
Definition StrategyHypothesis : bytes := str "hypothesis".
Definition StrategyGate : bytes := str "gate".
Definition StrategyCandidate : bytes := str "candidate".
Definition StrategyPaper : bytes := str "paper".
Definition StrategyLive : bytes := str "live".
Definition StrategyRetired : bytes := str "retired".

Definition strategyTransitions : list (bytes * list bytes) := [
  (StrategyHypothesis, [StrategyGate]);
  (StrategyGate, [StrategyCandidate; StrategyRetired]);
  (StrategyCandidate, [StrategyPaper; StrategyRetired]);
  (StrategyPaper, [StrategyLive; StrategyRetired]);
  (StrategyLive, [StrategyRetired]);
  (StrategyRetired, [])].
Fixpoint allowed_from (from : bytes) (t : list (bytes * list bytes)) : list bytes :=
  match t with
  | [] => []
  | (p, l) :: t' => if beqb p from then l else allowed_from from t'
  end.
Definition CanTransition (from to : bytes) : bool := existsb (beqb to) (allowed_from from strategyTransitions).
(** The new phase, or the phases of an [IllegalTransitionError]. *)
Definition Transition (from to : bytes) : result (bytes * bytes) bytes :=
  if CanTransition from to then Ok to else Err (from, to).

End Job.
