(* ===== verification/Reconciler.v ===== *)
(** * The job reconciler: one decision, crash recovery and the loop

    [internal/jobctl]: reconciler.go, loop.go and registry_import.go.  The
    reconciler talks to a store, an executor, a clock and an alert channel, and
    the process may stop between any two of these interactions.  So its
    operations are programs of effects ([prog]); running one ([run]) consumes
    the environment's choices one by one: what the clock says, how the executed
    command ends, whether a store call succeeds, is lost, or takes effect
    unheard, and where the process stops. *)
From S2P Require Import Prelude Bytes Json Proto JobSpec.

Module Rec.
Import Json Job.

(** ** Effects *)
Record ExecResult := MkExec { ExExitCode : Z; ExStderr : bytes; ExErr : option bytes }.
Definition Succeeded (r : ExecResult) : bool :=
  match r.(ExErr) with None => r.(ExExitCode) =? 0 | Some _ => false end.

Inductive eff : Type -> Type :=
| PutVersioned (key payload source : bytes) : eff (result unit Z)
| GetLatest (key : bytes) : eff (result unit (option bytes))
| ListVersions (key : bytes) : eff (result unit (list Proto.VersionEntryView))
| Run (spec : JobSpec) : eff ExecResult
| Alert (job : bytes) (ev : Event) : eff unit
| Now : eff Z.

Inductive prog (A : Type) : Type :=
| Done (a : A)
| Do {X : Type} (e : eff X) (k : X -> prog A)
| Panics.
Arguments Done {A} a.
Arguments Do {A X} e k.
Arguments Panics {A}.

#[export] Instance prog_ret : MRet prog := @Done.
Fixpoint prog_bind_def {A B} (f : A -> prog B) (p : prog A) : prog B :=
  match p with
  | Done a => f a
  | Do e k => Do e (fun x => prog_bind_def f (k x))
  | Panics => Panics
  end.
#[export] Instance prog_bind : MBind prog := fun A B f p => prog_bind_def f p.

Definition call {X} (e : eff X) : prog X := Do e Done.
Definition of_go {A} (m : go A) : prog A := match m with Ret a => Done a | Panic => Panics end.

(** Errors as values of the program. *)
Inductive rec_error :=
| EInvalid (f : spec_field)
| EStore
| ELedger (seq : Z)
| ENoSpec
| EBadSpec (e : spec_error).
Notation rp A := (prog (result rec_error A)).
Definition ok {A} (a : A) : rp A := Done (Ok a).
Definition err {A} (e : rec_error) : rp A := Done (Err e).
Definition bind_ok {A B} (p : rp A) (f : A -> rp B) : rp B :=
  prog_bind_def (fun r => match r with Ok a => f a | Err e => err e end) p.
Notation "x '<-?' p ; q" := (bind_ok p (fun x => q)) (at level 20, p at level 100, q at level 200).
(** A store call whose error is wrapped and returned. *)
Definition store {X} (e : eff (result unit X)) : rp X :=
  r ← call e; Done (match r with Ok x => Ok x | Err _ => Err EStore end).

(** ** reconciler.go *)
Definition truncate (s : bytes) (n : nat) : bytes :=
  if (length s <=? n)%nat then s else take n s ++ str "...(截断)".
Definition execFailureMessage (r : ExecResult) : bytes :=
  match r.(ExErr) with
  | Some e => str "启动失败: " ++ e
  | None => str "退出码=" ++ show_int r.(ExExitCode) ++ str " stderr=" ++ truncate r.(ExStderr) 500
  end.

Definition readStatus (name : bytes) : rp (option JobStatus) :=
  raw <-? store (GetLatest (StatusKey name));
  ok (raw ≫= decodeJobStatus).

Definition writeStatusIfChanged (name : bytes) (prev : option JobStatus) (next : JobStatus) : rp unit :=
  if bool_decide (prev = Some next) then ok tt
  else _ <-? store (PutVersioned (StatusKey name) (encodeJobStatus next) EngineSource); ok tt.

(** The dependencies that have not succeeded in [slot]. *)
Definition dep_met (slot : Z) (raw : option bytes) : bool :=
  match raw ≫= decodeJobStatus with
  | Some ds => (ds.(SSlot) =? slot) && beqb ds.(Phase) PhaseSucceeded
  | None => false
  end.
Fixpoint unmet_deps (slot : Z) (deps : list bytes) : rp (list bytes) :=
  match deps with
  | [] => ok []
  | dep :: deps' =>
      raw <-? store (GetLatest (StatusKey dep));
      rest <-? unmet_deps slot deps';
      ok (if dep_met slot raw then rest else dep :: rest)
  end.
Definition depsSatisfied (spec : JobSpec) (slot : Z) : rp (list bytes) :=
  unmet <-? unmet_deps slot spec.(DependsOn); ok (sort_strings unmet).

(** [fmt.Sprintf("%v")] of a string slice. *)
Fixpoint spaced (l : list bytes) : bytes :=
  match l with [] => [] | [x] => x | x :: l' => x ++ str " " ++ spaced l' end.
Definition pending_status (slot : Z) (fp : bytes) (unmet : list bytes) : JobStatus :=
  MkStatus PhasePending slot fp 0 0 0 EventWaitingOnDeps (str "等待依赖: [" ++ spaced unmet ++ str "]").
Definition running_status (slot : Z) (fp : bytes) (attempt nanos : Z) : JobStatus :=
  MkStatus PhaseRunning slot fp attempt nanos 0 [] (str "执行中").

(** The event of one execution. *)
Definition outcome_event (spec : JobSpec) (slot : Z) (fp : bytes) (attempt nanos : Z) (r : ExecResult) : Event :=
  if Succeeded r then MkEvent slot attempt fp EventSucceeded 0 [] nanos
  else if s64 (spec.(MaxRetries) + 1) <=? attempt
  then MkEvent slot attempt fp EventAlert r.(ExExitCode) (execFailureMessage r) nanos
  else MkEvent slot attempt fp EventFailed r.(ExExitCode) (execFailureMessage r) nanos.

(** The four writes of an execution: running status, execution, event, status. *)
Definition execute (spec : JobSpec) (prev : option JobStatus) (slot : Z) (fp : bytes) (attempt nanos : Z) : rp JobStatus :=
  _ <-? writeStatusIfChanged spec.(Name) prev (running_status slot fp attempt nanos);
  r ← call (Run spec);
  let ev := outcome_event spec slot fp attempt nanos r in
  _ <-? store (PutVersioned (EventsKey spec.(Name)) (encodeEvent ev) EngineSource);
  _ ← (if beqb ev.(Outcome) EventAlert then call (Alert spec.(Name) ev) else Done tt);
  let status := jobStatusFromEvent ev in
  _ <-? store (PutVersioned (StatusKey spec.(Name)) (encodeJobStatus status) EngineSource);
  ok status.

Section Reconciler.
Context (LoadLocation : bytes -> option Location).

(** The status read is of this slot and of this specification. *)
Definition same_track (prev : option JobStatus) (slot : Z) (fp : bytes) : option JobStatus :=
  match prev with
  | Some p => if (p.(SSlot) =? slot) && beqb p.(SFingerprint) fp then Some p else None
  | None => None
  end.
Definition backing_off (spec : JobSpec) (p : JobStatus) (nanos : Z) : bool :=
  beqb p.(Phase) PhaseFailed &&
  (nanos <? s64 (p.(LastAttemptTime) + s64 (spec.(RetryBackoffSeconds) * Second))).
Definition next_attempt (track : option JobStatus) : Z :=
  match track with
  | None => 1
  | Some p => if beqb p.(Phase) PhaseRunning then p.(SAttempt) else s64 (p.(SAttempt) + 1)
  end.

(** Nothing has run yet for this slot and specification: the dependencies decide. *)
Definition first_try (spec : JobSpec) (prev : option JobStatus) (slot : Z) (fp : bytes) (attempt nanos : Z) : rp JobStatus :=
  unmet <-? depsSatisfied spec slot;
  match unmet with
  | [] => execute spec prev slot fp attempt nanos
  | _ => let pending := pending_status slot fp unmet in
         _ <-? writeStatusIfChanged spec.(Name) prev pending; ok pending
  end.

(** What the status of this slot and specification, if there is one, asks for. *)
Definition decide_next (spec : JobSpec) (prev : option JobStatus) (slot : Z) (fp : bytes) (nanos : Z) : rp JobStatus :=
  let track := same_track prev slot fp in
  match track with
  | None => first_try spec prev slot fp (next_attempt track) nanos
  | Some p =>
      if Terminal p.(Phase) then ok p
      else if backing_off spec p nanos then ok p
      else if beqb p.(Phase) PhasePending then first_try spec prev slot fp (next_attempt track) nanos
      else execute spec prev slot fp (next_attempt track) nanos
  end.

Definition Reconcile (spec : JobSpec) : rp JobStatus :=
  match Validate LoadLocation spec with
  | Some f => err (EInvalid f)
  | None =>
      nanos ← call Now;
      slot ← of_go (spec_slot LoadLocation spec nanos);
      prev <-? readStatus spec.(Name);
      decide_next spec prev slot (Fingerprint spec) nanos
  end.

(** *** Crash recovery *)
Fixpoint decodeEvents (vs : list Proto.VersionEntryView) : result rec_error (list Event) :=
  match vs with
  | [] => Ok []
  | v :: vs' =>
      match decodeEvent v.(Proto.ViewPayload) with
      | None => Err (ELedger v.(Proto.ViewSeq))
      | Some ev => evs ← decodeEvents vs'; Ok (ev :: evs)
      end
  end.

Fixpoint latest_in (rev_events : list Event) (slot : Z) (fp : bytes) : option Event :=
  match rev_events with
  | [] => None
  | ev :: l => if (ev.(ESlot) =? slot) && beqb ev.(EFingerprint) fp then Some ev else latest_in l slot fp
  end.
Definition latestMatchingEvent (events : list Event) (slot : Z) (fp : bytes) : option Event :=
  latest_in (rev events) slot fp.

(** The status the ledger stands for; [None] leaves the status as it is. *)
Definition rebuilt (status : option JobStatus) (events : list Event) : option JobStatus :=
  match status with
  | None => jobStatusFromEvent <$> last events
  | Some st =>
      if beqb st.(Phase) PhaseRunning || beqb st.(Phase) PhaseFailed
      then jobStatusFromEvent <$> latestMatchingEvent events st.(SSlot) st.(SFingerprint)
      else if Terminal st.(Phase) then jobStatusFromEvent <$> last events
      else None
  end.

Definition Recover (name : bytes) : rp unit :=
  status <-? readStatus name;
  versions <-? store (ListVersions (EventsKey name));
  events <-? Done (decodeEvents versions);
  match events, rebuilt status events with
  | [], _ | _, None => ok tt
  | _, Some next => writeStatusIfChanged name status next
  end.

(** ** loop.go *)
Definition Apply (spec : JobSpec) : rp Z :=
  match Validate LoadLocation spec with
  | Some f => err (EInvalid f)
  | None => store (PutVersioned (SpecKey spec.(Name)) (CanonicalJSON spec) EngineSource)
  end.

Definition NewLoop (jobNames : list bytes) : list bytes := sort_strings jobNames.

(** One job of a tick: its specification is read, parsed and reconciled. *)
Definition tick_job (name : bytes) : rp JobStatus :=
  raw <-? store (GetLatest (SpecKey name));
  match raw with
  | None => err ENoSpec
  | Some raw => match ParseJobSpec LoadLocation raw with
                | Err e => err (EBadSpec e)
                | Ok spec => Reconcile spec
                end
  end.

(** Each job in turn; an error is recorded and does not stop the others. *)
Fixpoint each {A} (step : bytes -> rp A) (names : list bytes) : prog (list (bytes * rec_error)) :=
  match names with
  | [] => Done []
  | n :: names' =>
      r ← step n;
      errs ← each step names';
      Done (match r with Ok _ => errs | Err e => (n, e) :: errs end)
  end.
Definition Tick (names : list bytes) : prog (list (bytes * rec_error)) := each tick_job names.
Definition RecoverAll (names : list bytes) : prog (list (bytes * rec_error)) := each Recover names.

(** [Loop.Run] up to its [n]-th tick. *)
Fixpoint ticks (names : list bytes) (n : nat) : prog unit :=
  match n with O => Done tt | S n => _ ← Tick names; ticks names n end.
Definition LoopRun (names : list bytes) (n : nat) : prog unit := _ ← RecoverAll names; ticks names n.

(** ** registry_import.go *)
Definition registryFingerprintKey (fp : bytes) : bytes := str "strategy:index:" ++ fp.

(** The lines of a [bufio.Scanner] whose buffer holds [max] bytes, and whether
    it stopped at a line that does not fit. *)
Definition newline : byte := byte.of_Z 10.
Definition drop_cr (l : bytes) : bytes :=
  match rev l with b :: r => if #b =? 13 then rev r else l | [] => l end.
Fixpoint raw_lines (s : bytes) : list bytes :=
  match s with
  | [] => []
  | b :: t => if bool_decide (b = newline) then [] :: raw_lines t
              else match raw_lines t with [] => [[b]] | l :: ls => (b :: l) :: ls end
  end.
Fixpoint scan_lines (max : Z) (ls : list bytes) : list bytes * bool :=
  match ls with
  | [] => ([], true)
  | l :: ls' => if max <=? len l then ([], false)
                else let '(r, fine) := scan_lines max ls' in (drop_cr l :: r, fine)
  end.

(** [bytes.TrimSpace] leaves nothing. *)
Definition space_len (s : bytes) : nat :=
  match s with
  | a :: t =>
      if between 9 13 a || (#a =? 32) then 1%nat
      else match t with
           | b :: t1 =>
               if (#a =? 0xC2) && ((#b =? 0x85) || (#b =? 0xA0)) then 2%nat
               else match t1 with
                    | c :: _ =>
                        if ((#a =? 0xE1) && (#b =? 0x9A) && (#c =? 0x80))
                           || ((#a =? 0xE2) && (#b =? 0x80) && (between 0x80 0x8A c || between 0xA8 0xA9 c || (#c =? 0xAF)))
                           || ((#a =? 0xE2) && (#b =? 0x81) && (#c =? 0x9F))
                           || ((#a =? 0xE3) && (#b =? 0x80) && (#c =? 0x80)) then 3%nat else 0%nat
                    | [] => 0%nat
                    end
           | [] => 0%nat
           end
  | [] => 0%nat
  end.
Fixpoint blank (fuel : nat) (s : bytes) : bool :=
  match fuel, s with
  | _, [] => true
  | O, _ => false
  | S f, _ => match space_len s with O => false | n => blank f (drop n s) end
  end.

(** [registryLine]: only [verdict.fingerprint] is read. *)
Definition line_fields : list (field bytes) :=
  [(str "verdict", fun j fp => decode_struct [(str "fingerprint", set_string (fun x _ => x))] fp j)].

Record ImportResult := MkImport { TotalLines : Z; Imported : Z; Unchanged : Z; Errors : list Z }.

Inductive line_outcome := LBlank | LImported | LUnchanged | LError.
Definition import_line (raw : bytes) : prog line_outcome :=
  if blank (length raw) raw then Done LBlank
  else match Unmarshal line_fields [] raw with
  | None => Done LError
  | Some fp =>
      if beqb fp [] then Done LError
      else
        existing ← call (GetLatest (registryFingerprintKey fp));
        match existing with
        | Err _ => Done LError
        | Ok existing =>
            if bool_decide (existing = Some raw) then Done LUnchanged
            else r ← call (PutVersioned (registryFingerprintKey fp) raw EngineSource);
                 Done (match r with Ok _ => LImported | Err _ => LError end)
        end
  end.
Definition count_line (lineNo : Z) (o : line_outcome) (r : ImportResult) : ImportResult :=
  match o with
  | LBlank => r
  | LImported => MkImport (r.(TotalLines) + 1) (r.(Imported) + 1) r.(Unchanged) r.(Errors)
  | LUnchanged => MkImport (r.(TotalLines) + 1) r.(Imported) (r.(Unchanged) + 1) r.(Errors)
  | LError => MkImport (r.(TotalLines) + 1) r.(Imported) r.(Unchanged) (r.(Errors) ++ [lineNo])
  end.
Fixpoint import_lines (lineNo : Z) (ls : list bytes) (r : ImportResult) : prog ImportResult :=
  match ls with
  | [] => Done r
  | l :: ls' => o ← import_line l; import_lines (lineNo + 1) ls' (count_line lineNo o r)
  end.
(** The statistics, and whether the input was read to its end. *)
Definition ImportReader (input : bytes) : prog (ImportResult * bool) :=
  let '(ls, fine) := scan_lines (2 ^ 23) (raw_lines input) in
  r ← import_lines 1 ls (MkImport 0 0 0 []); Done (r, fine).
End Reconciler.

(** ** Running a program

    The store keeps the versions of each key in order.  A store call may be
    lost (an error, nothing written) or unheard (an error, but written). *)
Inductive fault := Fine | Lost | Unheard.
Record choice := MkChoice { cfault : fault; cnow : Z; cexec : ExecResult }.

Record world := MkWorld {
  versions : gmap bytes (list bytes);
  executed : list JobSpec;
  alerts : list (bytes * Event) }.

Definition versions_of (w : world) (k : bytes) : list bytes := default [] (w.(versions) !! k).
Definition put (k v : bytes) (w : world) : world :=
  MkWorld (<[k := versions_of w k ++ [v]]> w.(versions)) w.(executed) w.(alerts).
Definition answer {X} (f : fault) (x : X) : result unit X := match f with Fine => Ok x | _ => Err tt end.
Definition views (l : list bytes) : list Proto.VersionEntryView :=
  imap (fun i p => Proto.MkVersionView (Z.of_nat i + 1) 0 p) l.

Definition handle {X} (e : eff X) (c : choice) (w : world) : world * X :=
  match e in eff X return world * X with
  | PutVersioned k v _ =>
      (match c.(cfault) with Lost => w | _ => put k v w end, answer c.(cfault) (len (versions_of w k) + 1))
  | GetLatest k => (w, answer c.(cfault) (last (versions_of w k)))
  | ListVersions k => (w, answer c.(cfault) (views (versions_of w k)))
  | Run s => (MkWorld w.(versions) (w.(executed) ++ [s]) w.(alerts), c.(cexec))
  | Alert j ev => (MkWorld w.(versions) w.(executed) (w.(alerts) ++ [(j, ev)]), tt)
  | Now => (w, c.(cnow))
  end.

(** The process stops when the choices run out: [None]. *)
Fixpoint run {A} (p : prog A) (cs : list choice) (w : world) : world * option (A * list choice) :=
  match p with
  | Done a => (w, Some (a, cs))
  | Panics => (w, None)
  | Do e k =>
      match cs with
      | [] => (w, None)
      | c :: cs' => let '(w', x) := handle e c w in run (k x) cs' w'
      end
  end.

End Rec.
