(* ===== verification/JobCodec.v ===== *)
(** * The job controller's documents survive their trip through the store

    Status, events and specifications are printed as JSON and parsed again by
    every reader; the fingerprint of a specification is the fingerprint of what
    is read back. *)
From stdpp Require Import sorting.
From S2P Require Import Prelude Bytes Sha256 Json JsonSpec JobSpec.

Module JobCodec.
Import Json JsonSpec Job.

(** ** Status and events *)
Definition clean_status (s : JobStatus) : JobStatus :=
  MkStatus (to_valid s.(Phase)) s.(SSlot) (to_valid s.(SFingerprint)) s.(SAttempt) s.(LastAttemptTime) s.(LastExitCode)
    (to_valid s.(LastVerdict)) (to_valid s.(SMessage)).
Definition clean_event (e : Event) : Event :=
  MkEvent e.(ESlot) e.(EAttempt) (to_valid e.(EFingerprint)) (to_valid e.(Outcome)) e.(ExitCode)
    (to_valid e.(EMessage)) e.(EWriteNanos).

Definition status_ints (s : JobStatus) : Prop :=
  is_s64 s.(SSlot) /\ is_s64 s.(SAttempt) /\ is_s64 s.(LastAttemptTime) /\ is_s64 s.(LastExitCode).
Definition event_ints (e : Event) : Prop :=
  is_s64 e.(ESlot) /\ is_s64 e.(EAttempt) /\ is_s64 e.(ExitCode) /\ is_s64 e.(EWriteNanos).

Lemma set_int_show {A} (put : Z -> A -> A) z a : is_s64 z -> set_int put (JInt z) a = Some (put z a).
Proof. intros H. unfold set_int, JInt. by rewrite parse_int_show. Qed.

Lemma set_fields_step {A} (fs : list (field A)) k v l a set a' :
  find_field fs k = Some set -> set v a = Some a' -> set_fields fs ((k, v) :: l) a = set_fields fs l a'.
Proof. intros H1 H2. cbn [set_fields]. by rewrite H1, H2. Qed.

Lemma field_by_at {A} (fs : list (field A)) i k set : (fun f => f.1) <$> fs !! i = Some k ->
  forallb (fun f => negb (beqb f k)) (take i (map fst fs)) = true -> (fun f => f.2) <$> fs !! i = Some set ->
  field_by (fun n => n) k fs = Some set.
Proof.
  revert i; induction fs as [|[n g] fs IH]; intros [|i] H1 H2 H3; simpl in *; try done.
  - injection H1 as ->. injection H3 as ->. by rewrite beqb_refl.
  - apply andb_true_iff in H2 as [H2 H2']. apply negb_true_iff in H2. rewrite H2. eauto.
Qed.
Lemma set_field_at {A} (fs : list (field A)) i k v l a set a' : (fun f => f.1) <$> fs !! i = Some k ->
  forallb (fun f => negb (beqb f k)) (take i (map fst fs)) = true -> (fun f => f.2) <$> fs !! i = Some set ->
  set v a = Some a' -> set_fields fs ((k, v) :: l) a = set_fields fs l a'.
Proof.
  intros H1 H2 H3 H4. eapply set_fields_step; [|done]. unfold find_field. by rewrite (field_by_at fs i k set).
Qed.

(** Stores the next member of the object, which goes to the [i]-th field. *)
Ltac next_field i :=
  erewrite (set_field_at _ i); [|reflexivity|vm_compute; reflexivity|reflexivity|
    first [apply set_int_show; done | reflexivity]];
  cbn [zero_status Phase SSlot SFingerprint SAttempt LastAttemptTime LastExitCode LastVerdict SMessage
       zero_event ESlot EAttempt EFingerprint Outcome ExitCode EMessage EWriteNanos
       zero_spec Name Command Dir Env DependsOn ScheduleIntervalSeconds Schedule MaxRetries RetryBackoffSeconds].
(** Names of fields are valid text. *)
Lemma to_valid_const s : valid_utf8 s = true -> to_valid s = s.
Proof. intros H. by apply to_valid_id, valid_utf8_Valid. Qed.
Ltac valid_names :=
  repeat match goal with |- context [to_valid (str ?x)] => rewrite (to_valid_const (str x)) by (vm_compute; reflexivity) end.

Lemma wf_member n k v l : wf n v -> wf (S n) (JObj l) -> wf (S n) (JObj ((k, v) :: l)).
Proof. intros Hv Hl. inversion Hl; subst. by constructor; constructor. Qed.
Lemma wf_empty n : wf (S n) (JObj []).
Proof. by constructor. Qed.
#[local] Hint Resolve wf_member wf_empty wf_str wf_int wf_null : core.

Lemma unmarshal_print {A} (fs : list (field A)) zero n j : wf n j -> Z.of_nat n <= maxNestingDepth ->
  Unmarshal fs zero (print j) = decode_struct fs zero (sanitize j).
Proof. intros H1 H2. unfold Unmarshal. by rewrite (parse_print n). Qed.

Lemma status_roundtrip s : status_ints s -> decodeJobStatus (encodeJobStatus s) = Some (clean_status s).
Proof.
  intros (H1 & H2 & H3 & H4). unfold decodeJobStatus, encodeJobStatus.
  rewrite (unmarshal_print _ _ 1) by (unfold json_status; eauto 12 || by vm_compute).
  unfold json_status. cbn [sanitize decode_struct map fst snd]. change (sanitize (JInt ?z)) with (JInt z).
  valid_names. next_field 0%nat. next_field 1%nat. next_field 2%nat. next_field 3%nat. next_field 4%nat.
  next_field 5%nat. next_field 6%nat. next_field 7%nat. reflexivity.
Qed.

Lemma event_roundtrip e : event_ints e -> decodeEvent (encodeEvent e) = Some (clean_event e).
Proof.
  intros (H1 & H2 & H3 & H4). unfold decodeEvent, encodeEvent.
  rewrite (unmarshal_print _ _ 1) by (unfold json_event; eauto 12 || by vm_compute).
  unfold json_event. cbn [sanitize decode_struct map fst snd]. change (sanitize (JInt ?z)) with (JInt z).
  valid_names. next_field 0%nat. next_field 1%nat. next_field 2%nat. next_field 3%nat. next_field 4%nat.
  next_field 5%nat. next_field 6%nat. reflexivity.
Qed.

(** ** Specifications *)
#[local] Instance ble_transitive : Transitive ble.
Proof. intros a b c. apply ble_trans. Qed.
#[local] Instance ble_tot : Total ble.
Proof. intros a b. apply ble_total. Qed.
#[local] Instance ble_anti : AntiSymm (=) ble.
Proof. intros a b. apply ble_antisym. Qed.

Lemma sort_strings_perm l : sort_strings l ≡ₚ l.
Proof. apply merge_sort_Permutation. Qed.
Lemma sort_strings_idem l : sort_strings (sort_strings l) = sort_strings l.
Proof.
  apply (StronglySorted_unique ble); try apply StronglySorted_merge_sort; try apply _. apply merge_sort_Permutation.
Qed.

Definition sorted_spec (s : JobSpec) : JobSpec :=
  MkJobSpec s.(Name) s.(Command) s.(Dir) s.(Env) (sort_strings s.(DependsOn)) s.(ScheduleIntervalSeconds) s.(Schedule)
    s.(MaxRetries) s.(RetryBackoffSeconds).

Lemma canonical_sorted s : canonical (sorted_spec s) = canonical s.
Proof. unfold canonical, sorted_spec. cbn [Name Command Dir Env DependsOn ScheduleIntervalSeconds Schedule MaxRetries RetryBackoffSeconds]. by rewrite sort_strings_idem. Qed.

(** The texts of a specification are valid UTF-8 and its integers machine integers. *)
Record spec_text (s : JobSpec) : Prop := {
  st_name : Valid s.(Name); st_command : Forall Valid s.(Command); st_dir : Valid s.(Dir);
  st_env : forall m k v, s.(Env) = Some m -> m !! k = Some v -> Valid k /\ Valid v;
  st_deps : Forall Valid s.(DependsOn); st_schedule : Valid s.(Schedule);
  st_interval : is_s64 s.(ScheduleIntervalSeconds); st_retries : is_s64 s.(MaxRetries);
  st_backoff : is_s64 s.(RetryBackoffSeconds) }.

Lemma sanitize_strings l : Forall Valid l -> sanitize (json_strings l) = json_strings l.
Proof.
  intros H. destruct l as [|x l]; [done|]. unfold json_strings. cbn [sanitize]. f_equal.
  rewrite map_map. apply map_ext_in. intros y Hy. cbn [sanitize]. f_equal. apply to_valid_id.
  rewrite Forall_forall in H. apply H. by apply list_elem_of_In.
Qed.

Lemma sorted_entries_elem m k v : (k, v) ∈ sorted_entries m <-> m !! k = Some v.
Proof. unfold sorted_entries. rewrite merge_sort_Permutation. apply elem_of_map_to_list. Qed.
Lemma sorted_entries_keys m : NoDup (sorted_entries m).*1.
Proof. unfold sorted_entries. rewrite merge_sort_Permutation. apply NoDup_fst_map_to_list. Qed.
Lemma sorted_entries_map m : list_to_map (sorted_entries m) = m.
Proof.
  unfold sorted_entries. rewrite <- (list_to_map_to_list m) at 2. apply list_to_map_proper.
  - fold (sorted_entries m). apply sorted_entries_keys.
  - apply merge_sort_Permutation.
Qed.

Lemma sanitize_map m : (forall m' k v, m = Some m' -> m' !! k = Some v -> Valid k /\ Valid v) -> sanitize (json_map m) = json_map m.
Proof.
  destruct m as [m|]; [|done]. intros H. unfold json_map. cbn [sanitize]. f_equal.
  rewrite map_map. apply map_ext_in. intros [k v] Hy%list_elem_of_In. apply sorted_entries_elem in Hy.
  destruct (H m k v eq_refl Hy). cbn [fst snd sanitize]. by rewrite !to_valid_id.
Qed.

Lemma as_strings l : mapM as_string (map JStr l) = Some l.
Proof. induction l as [|x l IH]; [done|]. cbn [map]. simpl. by rewrite IH. Qed.
Lemma set_strings_json {A} (put : list bytes -> A -> A) l a : set_strings put (json_strings l) a = Some (put l a).
Proof. destruct l as [|x l]; [done|]. unfold json_strings, set_strings. by rewrite as_strings. Qed.

Lemma insert_entries (l : list (bytes * bytes)) (m0 : gmap bytes bytes) : NoDup l.*1 ->
  foldl (fun m kv => m ← m; s ← as_string kv.2; Some (<[kv.1 := s]> m)) (Some m0) (map (fun kv => (kv.1, JStr kv.2)) l)
  = Some (list_to_map l ∪ m0).
Proof.
  revert m0; induction l as [|[k v] l IH]; intros m0 Hn; simpl; [by rewrite (left_id_L ∅ (∪))|].
  apply NoDup_cons in Hn as [Hk Hn]. rewrite IH by done. f_equal. symmetry. rewrite <- insert_union_l. rewrite insert_union_r; [done|].
  by apply not_elem_of_list_to_map_1.
Qed.

Lemma set_map_json {A} (get : A -> option (gmap bytes bytes)) (put : option (gmap bytes bytes) -> A -> A) m a :
  get a = None -> set_map get put (json_map m) a = Some (put m a).
Proof.
  intros Hg. destruct m as [m|]; [|done]. unfold json_map, set_map. rewrite Hg. cbn [default].
  rewrite insert_entries by apply sorted_entries_keys. cbn [mbind option_bind]. by rewrite sorted_entries_map, map_union_empty.
Qed.

Lemma wf_strings l : wf 1 (json_strings l).
Proof. destruct l as [|x l]; [constructor|]. constructor. apply Forall_map, Forall_true. constructor. Qed.
Lemma wf_map m : wf 1 (json_map m).
Proof. destruct m as [m|]; [|constructor]. constructor. apply Forall_map, Forall_true. constructor. Qed.
#[local] Hint Resolve wf_strings wf_map : core.

Lemma canonical_wf s : wf 2 (canonical s).
Proof. unfold canonical. cbn [app]. repeat (apply wf_member; [auto|]). destruct (beqb _ _); eauto. Qed.

Lemma bad_dep_none name i deps : bad_dep name i deps = None <-> Forall (fun d => beqb d [] || beqb d name = false) deps.
Proof.
  revert i; induction deps as [|d deps IH]; intros i; simpl; [done|].
  rewrite Forall_cons, <- (IH (S i)). destruct (beqb d [] || beqb d name); intuition congruence.
Qed.
Lemma validate_sorted LL s : Validate LL (sorted_spec s) = None <-> Validate LL s = None.
Proof.
  unfold Validate, sorted_spec. cbn [Name Command Dir Env DependsOn ScheduleIntervalSeconds Schedule MaxRetries RetryBackoffSeconds].
  destruct (beqb _ []); [done|]. destruct (Command s) as [|c l]; [done|]. destruct (beqb c []); [done|]. destruct (_ <=? 0); [done|].
  destruct (negb _ && _); [done|]. destruct (MaxRetries s <? 0); [done|]. destruct (RetryBackoffSeconds s <? 0); [done|].
  rewrite !bad_dep_none. by rewrite sort_strings_perm.
Qed.

(** Unmarshalling the canonical document gives the specification with its
    dependencies sorted. *)
Lemma spec_document s : spec_text s -> Unmarshal spec_fields zero_spec (CanonicalJSON s) = Some (sorted_spec s).
Proof.
  intros H. unfold CanonicalJSON. rewrite (unmarshal_print _ _ 2) by (apply canonical_wf || by vm_compute).
  unfold canonical. cbn [app sanitize decode_struct map fst snd]. change (sanitize (JInt ?z)) with (JInt z).
  destruct H as [H1 H2 H3 H4 H5 H6 H7 H8 H9].
  rewrite sanitize_strings by done. rewrite sanitize_map by exact H4. rewrite sanitize_strings by (by rewrite sort_strings_perm).
  rewrite (to_valid_id (Name s)), (to_valid_id (Dir s)) by done. valid_names.
  next_field 0%nat.
  erewrite (set_field_at _ 1%nat); [|reflexivity|vm_compute; reflexivity|reflexivity|apply set_strings_json].
  next_field 2%nat.
  erewrite (set_field_at _ 3%nat); [|reflexivity|vm_compute; reflexivity|reflexivity|by apply set_map_json].
  erewrite (set_field_at _ 4%nat); [|reflexivity|vm_compute; reflexivity|reflexivity|apply set_strings_json].
  next_field 5%nat. next_field 7%nat. next_field 8%nat.
  destruct (beqb (Schedule s) []) eqn:E; cbn [map].
  - apply beqb_eq in E. unfold sorted_spec. rewrite E. reflexivity.
  - cbn [sanitize fst snd]. valid_names. rewrite (to_valid_id (Schedule s)) by done. next_field 6%nat. reflexivity.
Qed.

(** A status and an event read back from the store are the ones written,
    with every byte of text that is not valid UTF-8 replaced by U+FFFD -- a
    failure message cut in the middle of a character, for instance -- and
    reading, writing and reading once more changes nothing further. *)
Theorem job_records_roundtrip s e : status_ints s -> event_ints e ->
  decodeJobStatus (encodeJobStatus s) = Some (clean_status s) /\
  decodeEvent (encodeEvent e) = Some (clean_event e) /\
  decodeJobStatus (encodeJobStatus (clean_status s)) = Some (clean_status s) /\
  decodeEvent (encodeEvent (clean_event e)) = Some (clean_event e).
Proof.
  intros Hs He. split; [by apply status_roundtrip|]. split; [by apply event_roundtrip|].
  rewrite status_roundtrip, event_roundtrip by done. unfold clean_status, clean_event.
  cbn [Phase SSlot SFingerprint SAttempt LastAttemptTime LastExitCode LastVerdict SMessage
       ESlot EAttempt EFingerprint Outcome ExitCode EMessage EWriteNanos].
  by rewrite !to_valid_idem.
Qed.

(** A message that ends inside a three-byte character. *)
Definition cut_status : JobStatus :=
  MkStatus PhaseFailed 7 (str "ab") 1 1000 1 EventFailed (take 4 (str "退出")).
Lemma job_records_roundtrip_witness :
  SMessage <$> decodeJobStatus (encodeJobStatus cut_status) = Some (str "退" ++ replacement) /\
  decodeEvent (encodeEvent zero_event) = Some zero_event.
Proof.
  destruct (job_records_roundtrip cut_status zero_event) as (H1 & H2 & _); [by vm_compute|by vm_compute|].
  rewrite H1, H2. split; vm_compute; reflexivity.
Defined.

(** A valid specification that is applied is read back by every tick as
    the same specification with its dependencies in sorted order: it passes
    validation again and has the same fingerprint, so re-applying a
    specification with its dependencies in another order starts no new
    execution. *)
Theorem applied_spec_reads_back LL s s' : spec_text s -> Validate LL s = None ->
  s' = MkJobSpec s.(Name) s.(Command) s.(Dir) s.(Env) s'.(DependsOn) s.(ScheduleIntervalSeconds) s.(Schedule) s.(MaxRetries) s.(RetryBackoffSeconds) ->
  s'.(DependsOn) ≡ₚ s.(DependsOn) ->
  ParseJobSpec LL (CanonicalJSON s) = Ok (sorted_spec s) /\ Fingerprint (sorted_spec s) = Fingerprint s /\ Fingerprint s' = Fingerprint s.
Proof.
  intros Ht Hv Es Hp. split.
  - unfold ParseJobSpec. rewrite spec_document by done. by rewrite (proj2 (validate_sorted LL s)).
  - unfold Fingerprint, CanonicalJSON. rewrite canonical_sorted. split; [done|]. rewrite <- (canonical_sorted s'), <- (canonical_sorted s).
    do 4 f_equal. unfold sorted_spec. rewrite Es.
    cbn [Name Command Dir Env DependsOn ScheduleIntervalSeconds Schedule MaxRetries RetryBackoffSeconds]. f_equal.
    apply (StronglySorted_unique ble); try apply StronglySorted_merge_sort; try apply _.
    unfold sort_strings. by rewrite !merge_sort_Permutation.
Qed.

Definition demo_spec (deps : list bytes) : JobSpec :=
  MkJobSpec (str "paper") [str "run"; str "--day"] [] (Some {[str "TZ" := str "UTC"]}) deps 86400 [] 2 30.
Lemma applied_spec_reads_back_witness :
  ParseJobSpec (fun _ => None) (CanonicalJSON (demo_spec [str "b"; str "a"])) = Ok (demo_spec [str "a"; str "b"]) /\
  Fingerprint (demo_spec [str "a"; str "b"]) = Fingerprint (demo_spec [str "b"; str "a"]).
Proof.
  destruct (applied_spec_reads_back (fun _ => None) (demo_spec [str "b"; str "a"]) (demo_spec [str "a"; str "b"])) as (H1 & _ & H3).
  - split; cbn [demo_spec Name Command Dir Env DependsOn ScheduleIntervalSeconds Schedule MaxRetries RetryBackoffSeconds];
      first [ by (unfold is_s64; lia) | apply valid_utf8_Valid; vm_compute; reflexivity
            | intros m k v [= <-] [<- <-]%lookup_singleton_Some; split; apply valid_utf8_Valid; vm_compute; reflexivity
            | repeat (constructor; [apply valid_utf8_Valid; vm_compute; reflexivity|]); constructor ].
  - vm_compute. reflexivity.
  - reflexivity.
  - apply perm_swap.
  - split; [|exact H3]. rewrite H1. vm_compute. reflexivity.
Defined.

End JobCodec.
