(* ===== verification/JobRun.v ===== *)
(** * The job reconciler over every crash

    A small program logic for [Rec.prog]: [wp good p w Q C] says that under
    choices satisfying [good], program [p] started in [w] ends in a result and
    a world in [Q], and wherever the process stops before that the world is in
    [C].  With it, the event ledger of a job is shown to record each slot's
    executions as attempts 1, 2, ... whatever the crashes. *)
From stdpp Require Import sorting.
From S2P Require Import Prelude Bytes Sha256 Json JsonSpec JobSpec JobCodec Proto Reconciler.

Module JobRun.
Import Json JsonSpec Job JobCodec Rec.

(** ** Program logic *)
Lemma run_bind {A B} (f : A -> prog B) (p : prog A) cs w : run (p ≫= f) cs w =
  match run p cs w with
  | (w', Some (a, cs')) => run (f a) cs' w'
  | (w', None) => (w', None)
  end.
Proof.
  change (p ≫= f) with (prog_bind_def f p).
  revert cs w; induction p as [a|X e k IH|]; intros cs w; cbn [prog_bind_def run]; [done| |done].
  destruct cs as [|c cs]; [done|]. destruct (handle e c w) as [w' x]. apply IH.
Qed.

Section Wp.
Context (good : choice -> Prop).

Definition wp {A} (p : prog A) (w : world) (Q : A -> world -> Prop) (C : world -> Prop) : Prop :=
  forall cs, Forall good cs ->
    match run p cs w with
    | (w', Some (a, cs')) => Q a w' /\ Forall good cs'
    | (w', None) => C w'
    end.

Lemma wp_done {A} (a : A) w (Q : A -> world -> Prop) C : Q a w -> wp (Done a) w Q C.
Proof. by intros H cs Hcs. Qed.

Lemma wp_do {A X} (e : eff X) (k : X -> prog A) w Q C : C w ->
  (forall c, good c -> wp (k (handle e c w).2) (handle e c w).1 Q C) -> wp (Do e k) w Q C.
Proof.
  intros HC H [|c cs] Hcs; [done|]. apply Forall_cons in Hcs as [Hc Hcs].
  specialize (H c Hc cs Hcs). cbn [run]. by destruct (handle e c w).
Qed.

Lemma wp_bind {A B} (p : prog A) (f : A -> prog B) w Q C :
  wp p w (fun a w' => wp (f a) w' Q C) C -> wp (p ≫= f) w Q C.
Proof.
  intros H cs Hcs. rewrite run_bind. specialize (H cs Hcs).
  destruct (run p cs w) as [w' [[a cs']|]]; [|done]. destruct H as [H Hcs']. by apply H.
Qed.

Lemma wp_bind_ok {A B} (p : rp A) (f : A -> rp B) w Q C :
  wp p w (fun r w' => match r with Ok a => wp (f a) w' Q C | Err e => Q (Err e) w' end) C -> wp (bind_ok p f) w Q C.
Proof.
  intros H. unfold bind_ok. change (prog_bind_def ?g p) with (p ≫= g). apply wp_bind.
  intros cs Hcs. specialize (H cs Hcs). destruct (run p cs w) as [w' [[[a|e] cs']|]]; [done| |done].
  destruct H as [H Hcs']. split; [|done]. by apply wp_done.
Qed.

Lemma wp_mono {A} (p : prog A) w (Q Q' : A -> world -> Prop) (C C' : world -> Prop) :
  wp p w Q C -> (forall a w', Q a w' -> Q' a w') -> (forall w', C w' -> C' w') -> wp p w Q' C'.
Proof.
  intros H HQ HC cs Hcs. specialize (H cs Hcs). destruct (run p cs w) as [w' [[a cs']|]]; [|auto].
  destruct H. auto.
Qed.

Lemma wp_call {X} (e : eff X) w (Q : X -> world -> Prop) C : C w ->
  (forall c, good c -> Q (handle e c w).2 (handle e c w).1) -> wp (call e) w Q C.
Proof. intros HC H. apply wp_do; [done|]. intros c Hc. apply wp_done. auto. Qed.

(** A store call that the environment lets succeed. *)
Lemma wp_store {X} (e : eff (result unit X)) w (Q : result rec_error X -> world -> Prop) C : C w ->
  (forall c, good c -> exists x w', handle e c w = (w', Ok x) /\ Q (Ok x) w') -> wp (store e) w Q C.
Proof.
  intros HC H. unfold store. apply wp_bind, wp_call; [done|]. intros c Hc.
  destruct (H c Hc) as (x & w' & -> & HQ). by apply wp_done.
Qed.
End Wp.

(** ** The store *)
Lemma versions_put k v w k' : versions_of (put k v w) k' = if decide (k = k') then versions_of w k ++ [v] else versions_of w k'.
Proof.
  unfold put, versions_of. cbn [versions]. destruct (decide (k = k')) as [->|Hne].
  - by rewrite lookup_insert_eq.
  - by rewrite lookup_insert_ne.
Qed.
Lemma status_events_ne n n' : StatusKey n <> EventsKey n'.
Proof. intros H. vm_compute in H. discriminate. Qed.

(** ** The ledger of a job *)
Section Job.
Context (LoadLocation : bytes -> option Location) (spec : JobSpec).
Notation n := spec.(Name).
Notation fp := (Fingerprint spec).
Notation R := spec.(MaxRetries).

Definition status_of (w : world) : option JobStatus := last (versions_of w (StatusKey n)) ≫= decodeJobStatus.
Definition ledger_of (w : world) : option (list Event) := mapM decodeEvent (versions_of w (EventsKey n)).

(** An event the reconciler may record: within the retry budget, and an alert
    exactly when the budget is spent. *)
Definition event_ok (ev : Event) : Prop :=
  ev.(EFingerprint) = fp /\ 1 <= ev.(EAttempt) <= R + 1 /\
  (ev.(Outcome) = EventSucceeded \/ ev.(Outcome) = EventFailed /\ ev.(EAttempt) <= R \/
   ev.(Outcome) = EventAlert /\ ev.(EAttempt) = R + 1).

(** The ledgers a job may have: the first attempt of a slot comes after all
    events of earlier slots; a further attempt follows the failure it retries. *)
Inductive ledger : list Event -> Prop :=
| L_nil : ledger []
| L_first evs ev : ledger evs -> (forall e, e ∈ evs -> e.(ESlot) < ev.(ESlot)) -> ev.(EAttempt) = 1 ->
    event_ok ev -> ledger (evs ++ [ev])
| L_retry evs p ev : ledger evs -> last evs = Some p -> p.(Outcome) = EventFailed -> ev.(ESlot) = p.(ESlot) ->
    ev.(EAttempt) = p.(EAttempt) + 1 -> event_ok ev -> ledger (evs ++ [ev]).

(** What the status may be beside a ledger [evs] when no slot beyond [hi] has
    been seen; [up] holds when recovery has run since the last crash. *)
Inductive status_rel (up : bool) (hi : Z) (evs : list Event) : option JobStatus -> Prop :=
| sr_none : evs = [] -> status_rel up hi evs None
| sr_waiting p : p.(Phase) = PhasePending \/ p.(Phase) = PhaseRunning -> p.(SFingerprint) = fp -> p.(SSlot) <= hi ->
    p.(SAttempt) = (if beqb p.(Phase) PhasePending then 0 else 1) ->
    (forall e, e ∈ evs -> e.(ESlot) < p.(SSlot)) -> status_rel up hi evs (Some p)
| sr_event ev : last evs = Some ev -> status_rel up hi evs (Some (jobStatusFromEvent ev))
| sr_running ev p : up = false -> last evs = Some ev -> p.(Phase) = PhaseRunning -> p.(SFingerprint) = fp ->
    p.(SSlot) = ev.(ESlot) -> status_rel up hi evs (Some p).

(** An event as it is read: valid text, machine integers. *)
Definition stored (e : Event) : Prop := clean_event e = e /\ event_ints e.

Definition inv (up : bool) (hi : Z) (w : world) : Prop := exists evs,
  ledger_of w = Some evs /\ ledger evs /\ Forall stored evs /\ (forall e, e ∈ evs -> e.(ESlot) <= hi) /\
  status_rel up hi evs (status_of w).

(** ** Steps

    The clock readings of a step all fall in slot [s]; store calls succeed. *)
Definition good (s : Z) (c : choice) : Prop :=
  c.(cfault) = Fine /\ is_s64 c.(cnow) /\ is_s64 c.(cexec).(ExExitCode) /\
  forall s', spec_slot LoadLocation spec c.(cnow) = Ret s' -> s' = s.

(** The process runs the recovery, then reconciles; it may stop anywhere; other
    jobs and tools write other keys. *)
Inductive step : bool * Z * world -> bool * Z * world -> Prop :=
| st_recover hi w cs w' res : Forall (fun c => c.(cfault) = Fine) cs -> run (Recover n) cs w = (w', res) ->
    step (false, hi, w) (match res with Some _ => true | None => false end, hi, w')
| st_reconcile hi s w cs w' res : hi <= s -> Forall (good s) cs -> run (Reconcile LoadLocation spec) cs w = (w', res) ->
    step (true, hi, w) (match res with Some _ => true | None => false end, s, w')
| st_crash up hi w : step (up, hi, w) (false, hi, w)
| st_other up hi w w' : versions_of w' (StatusKey n) = versions_of w (StatusKey n) ->
    versions_of w' (EventsKey n) = versions_of w (EventsKey n) -> step (up, hi, w) (up, hi, w').

(** ** What is read back *)
Lemma status_of_put s w : status_ints s -> status_of (put (StatusKey n) (encodeJobStatus s) w) = Some (clean_status s).
Proof.
  intros H. unfold status_of. rewrite versions_put, decide_True, last_snoc by done. cbn [mbind option_bind].
  by apply status_roundtrip.
Qed.
Lemma status_of_event e w : status_of (put (EventsKey n) e w) = status_of w.
Proof. unfold status_of. by rewrite versions_put, decide_False by (intros E; symmetry in E; by apply status_events_ne in E). Qed.
Lemma ledger_of_put e w evs : event_ints e -> ledger_of w = Some evs ->
  ledger_of (put (EventsKey n) (encodeEvent e) w) = Some (evs ++ [clean_event e]).
Proof.
  intros He H. unfold ledger_of in *. rewrite versions_put, decide_True by done.
  apply mapM_Some in H. apply mapM_Some, Forall2_app; [done|]. constructor; [|done]. by apply event_roundtrip.
Qed.
Lemma ledger_of_status s w : ledger_of (put (StatusKey n) s w) = ledger_of w.
Proof. unfold ledger_of. by rewrite versions_put, decide_False by apply status_events_ne. Qed.

Lemma payloads_views l : map Proto.ViewPayload (views l) = l.
Proof.
  unfold views. induction l as [|x l IH] using rev_ind; [done|].
  rewrite imap_app, map_app, IH. done.
Qed.
Lemma decode_views l evs : mapM decodeEvent l = Some evs -> decodeEvents (views l) = Ok evs.
Proof.
  rewrite <- (payloads_views l) at 1. generalize (views l). clear l. intros vs; revert evs.
  induction vs as [|v vs IH]; intros evs H; [by injection H as <-|]. simpl in H. cbn [decodeEvents].
  destruct (decodeEvent _) as [ev|]; [|done]. cbn in H. destruct (mapM _ _) as [evs'|]; [|done].
  injection H as <-. by rewrite (IH evs').
Qed.

Lemma to_valid_nonempty m : to_valid m = [] -> m = [].
Proof.
  destruct m as [|b t]; [done|]. unfold to_valid. cbn [length to_valid_from].
  destruct (rune_len (b :: t)); done.
Qed.
Lemma clean_from_event ev : to_valid ev.(EFingerprint) = ev.(EFingerprint) -> to_valid ev.(Outcome) = ev.(Outcome) ->
  clean_status (jobStatusFromEvent ev) = jobStatusFromEvent (clean_event ev).
Proof.
  intros H1 H2. unfold jobStatusFromEvent, clean_event, clean_status.
  cbn [EFingerprint Outcome EMessage ESlot EAttempt EWriteNanos ExitCode]. rewrite H2.
  destruct (beqb (Outcome ev) EventSucceeded).
  - cbn [Phase SSlot SFingerprint SAttempt LastAttemptTime LastExitCode LastVerdict SMessage].
    rewrite H2. f_equal. destruct (beqb (EMessage ev) []) eqn:E.
    + apply beqb_eq in E as ->. reflexivity.
    + destruct (beqb (to_valid (EMessage ev)) []) eqn:E'; [|done].
      apply beqb_eq, to_valid_nonempty in E'. rewrite E' in E. discriminate.
  - destruct (beqb (Outcome ev) EventAlert); cbn [Phase SSlot SFingerprint SAttempt LastAttemptTime LastExitCode LastVerdict SMessage];
      by rewrite H2.
Qed.
Lemma from_event_ints ev : event_ints ev -> status_ints (jobStatusFromEvent ev).
Proof. intros (? & ? & ? & ?). unfold jobStatusFromEvent. repeat case_match; done. Qed.

Lemma from_event_fields ev : (jobStatusFromEvent ev).(SSlot) = ev.(ESlot) /\
  (jobStatusFromEvent ev).(SFingerprint) = ev.(EFingerprint) /\ (jobStatusFromEvent ev).(SAttempt) = ev.(EAttempt) /\
  (jobStatusFromEvent ev).(LastAttemptTime) = ev.(EWriteNanos).
Proof. unfold jobStatusFromEvent. repeat case_match; done. Qed.
(** The phase of a recorded event: over, or to be retried. *)
Lemma from_event_phase ev : event_ok ev ->
  (ev.(Outcome) <> EventFailed /\ ((jobStatusFromEvent ev).(Phase) = PhaseSucceeded \/ (jobStatusFromEvent ev).(Phase) = PhaseAlerting)) \/
  (ev.(Outcome) = EventFailed /\ ev.(EAttempt) <= R /\ (jobStatusFromEvent ev).(Phase) = PhaseFailed).
Proof.
  intros (_ & _ & [E|[[E H]|[E H]]]); unfold jobStatusFromEvent; rewrite E; [left|right|left]; (split; [done|]); auto.
Qed.

(** ** Facts about ledgers *)
Lemma ledger_event_ok evs e : ledger evs -> e ∈ evs -> event_ok e.
Proof.
  intros H. revert e. induction H; intros e He; [inversion He| |];
    apply elem_of_app in He as [He|He%list_elem_of_singleton]; subst; auto.
Qed.
Lemma last_elem {A} (l : list A) x : last l = Some x -> x ∈ l.
Proof. intros H. apply last_Some in H as [l' ->]. apply elem_of_app. right. by apply list_elem_of_singleton. Qed.
Lemma ledger_last_max evs ev e : ledger evs -> last evs = Some ev -> e ∈ evs -> e.(ESlot) <= ev.(ESlot).
Proof.
  intros H. revert ev e. induction H as [|evs v H IH Hlt _ _|evs p v H IH Hl _ Hs _ _]; intros ev e El He; [done| |];
    rewrite last_snoc in El; injection El as <-; apply elem_of_app in He as [He|He%list_elem_of_singleton]; subst; try lia.
  - specialize (Hlt e He). lia.
  - specialize (IH p e Hl He). lia.
Qed.
Lemma latest_last evs ev : last evs = Some ev -> latestMatchingEvent evs ev.(ESlot) ev.(EFingerprint) = Some ev.
Proof.
  intros H. apply last_Some in H as [l ->]. unfold latestMatchingEvent. rewrite rev_app_distr. cbn [rev app latest_in].
  by rewrite Z.eqb_refl, beqb_refl.
Qed.
Lemma latest_none evs s f : (forall e, e ∈ evs -> e.(ESlot) < s) -> latestMatchingEvent evs s f = None.
Proof.
  intros H. unfold latestMatchingEvent. assert (forall e, e ∈ rev evs -> e.(ESlot) < s) as H'.
  { intros e He. apply H, list_elem_of_In, in_rev. by apply list_elem_of_In. }
  induction (rev evs) as [|e l IH]; [done|]. cbn [latest_in].
  rewrite (proj2 (Z.eqb_neq _ _)) by (specialize (H' e (list_elem_of_here _ _)); lia). cbn [andb].
  apply IH. intros e' He'. apply H'. by apply list_elem_of_further.
Qed.

(** ** Reading and writing the status *)
Section Calls.
Context (g : choice -> Prop) (Hg : forall c, g c -> c.(cfault) = Fine).

Lemma wp_get k w (Q : result rec_error (option bytes) -> world -> Prop) C :
  C w -> Q (Ok (last (versions_of w k))) w -> wp g (store (GetLatest k)) w Q C.
Proof.
  intros HC HQ. apply wp_store; [done|]. intros c Hc. cbn [handle]. rewrite (Hg c Hc). cbn [answer]. eauto.
Qed.
Lemma wp_put k v s w (Q : result rec_error Z -> world -> Prop) C :
  C w -> (forall q, Q (Ok q) (put k v w)) -> wp g (store (PutVersioned k v s)) w Q C.
Proof.
  intros HC HQ. apply wp_store; [done|]. intros c Hc. cbn [handle]. rewrite (Hg c Hc). cbn [answer]. eauto.
Qed.
Lemma wp_readStatus w (Q : result rec_error (option JobStatus) -> world -> Prop) C :
  C w -> Q (Ok (status_of w)) w -> wp g (readStatus n) w Q C.
Proof. intros HC HQ. unfold readStatus. apply wp_bind_ok, wp_get; [done|]. by apply wp_done. Qed.

Lemma wp_write next w (Q : result rec_error unit -> world -> Prop) C : status_ints next -> C w ->
  (forall w', ledger_of w' = ledger_of w -> status_of w' = Some next \/ status_of w' = Some (clean_status next) -> Q (Ok tt) w') ->
  wp g (writeStatusIfChanged n (status_of w) next) w Q C.
Proof.
  intros Hi HC HQ. unfold writeStatusIfChanged. case_bool_decide as E; [apply wp_done; auto|].
  apply wp_bind_ok, wp_put; [done|]. intros q. apply wp_done, HQ; [apply ledger_of_status|].
  right. by apply status_of_put.
Qed.

(** ** Recovery *)
Lemma rebuilt_rel up hi evs st next : ledger evs -> status_rel up hi evs st -> rebuilt st evs = Some next ->
  exists ev, last evs = Some ev /\ next = jobStatusFromEvent ev.
Proof.
  intros HL Hr Hb. destruct Hr as [->|p Hp Hf _ _ Hlt|ev Hl|ev p _ Hl Hp Hf Hs]; cbn [rebuilt] in Hb.
  - done.
  - destruct Hp as [Hp|Hp]; rewrite Hp in Hb; [done|]. change (beqb PhaseRunning PhaseRunning) with true in Hb.
    cbn [orb] in Hb. by rewrite latest_none in Hb.
  - exists ev. split; [done|]. destruct (from_event_fields ev) as (Fs & Ff & _).
    destruct (from_event_phase ev (ledger_event_ok _ _ HL (last_elem _ _ Hl))) as [[_ [E|E]]|(_ & _ & E)];
      rewrite E in Hb; cbn [orb] in Hb; rewrite ?Fs, ?Ff, ?latest_last, ?Hl in Hb by done; vm_compute (beqb _ _) in Hb;
      injection Hb as <-; done.
  - exists ev. split; [done|]. rewrite Hp, Hf, Hs in Hb. change (beqb PhaseRunning PhaseRunning) with true in Hb.
    cbn [orb] in Hb. destruct (ledger_event_ok _ _ HL (last_elem _ _ Hl)) as (He & _). rewrite <- He in Hb.
    rewrite latest_last in Hb by done. cbn in Hb. congruence.
Qed.

Lemma rebuilt_none up hi evs st : ledger evs -> status_rel up hi evs st -> rebuilt st evs = None -> status_rel true hi evs st.
Proof.
  intros HL Hr Hb. destruct Hr as [->|p Hp Hf Hh Ha Hlt|ev Hl|ev p _ Hl Hp Hf Hs].
  - by constructor.
  - by apply sr_waiting.
  - by apply sr_event.
  - cbn [rebuilt] in Hb. rewrite Hp, Hf, Hs in Hb. change (beqb PhaseRunning PhaseRunning) with true in Hb. cbn [orb] in Hb.
    destruct (ledger_event_ok _ _ HL (last_elem _ _ Hl)) as (He & _). rewrite <- He, latest_last in Hb by done. done.
Qed.

Lemma clean_stored ev : stored ev -> clean_status (jobStatusFromEvent ev) = jobStatusFromEvent ev /\ status_ints (jobStatusFromEvent ev).
Proof.
  intros [Hc Hi]. split; [|by apply from_event_ints]. rewrite clean_from_event; [by rewrite Hc| |];
    apply (f_equal EFingerprint) in Hc as Hc1; apply (f_equal Outcome) in Hc as Hc2; done.
Qed.

Lemma recover_ok hi w : inv false hi w -> wp g (Recover n) w (fun _ w' => inv true hi w') (inv false hi).
Proof.
  intros Hinv. pose proof Hinv as (evs & HL & Hl & Hst & Hh & Hr). unfold Recover.
  apply wp_bind_ok, wp_readStatus; [done|]. apply wp_bind_ok, wp_store; [done|]. intros c Hc. cbn [handle].
  rewrite (Hg c Hc). cbn [answer]. eexists _, _. split; [done|].
  rewrite (decode_views _ _ HL). apply wp_bind_ok, wp_done. cbv beta iota.
  destruct (rebuilt (status_of w) evs) as [next|] eqn:Hb.
  - destruct (rebuilt_rel _ _ _ _ _ Hl Hr Hb) as (ev & Hlast & ->).
    rewrite Forall_forall in Hst. destruct (clean_stored ev (Hst ev (last_elem _ _ Hlast))) as [Hcl Hi].
    destruct evs as [|e evs]; [done|]. rewrite Hb. apply wp_write; [done|done|]. rewrite Hcl. intros w' HL' Hs'.
    exists (e :: evs). split; [by rewrite HL'|]. split; [done|]. split; [by apply Forall_forall|]. split; [done|].
    destruct Hs' as [-> | ->]; by apply sr_event.
  - assert (inv true hi w) as Hi.
    { exists evs. split; [done|]. split; [done|]. split; [done|]. split; [done|]. by eapply rebuilt_none. }
    destruct evs as [|e evs]; [|rewrite Hb]; by apply (wp_done g (Ok tt)).
Qed.

(** ** Execution *)
Definition can_record (evs : list Event) (s a : Z) : Prop :=
  a = 1 /\ (forall e, e ∈ evs -> e.(ESlot) < s) \/
  exists ev, last evs = Some ev /\ ev.(Outcome) = EventFailed /\ ev.(ESlot) = s /\ a = ev.(EAttempt) + 1 /\ a <= R + 1.

Lemma fp_valid : to_valid fp = fp.
Proof.
  apply to_valid_id. unfold Fingerprint, hex. induction (sha256 _) as [|x l IH]; [constructor|]. cbn [map concat app].
  assert (Hx : forall d t, 0 <= d < 16 -> Valid t -> Valid (hexdigit d :: t)).
  { intros d t Hd Ht. apply (V_rune _ 0); [|done]. apply rune_len_ascii.
    assert (d = 0 \/ d = 1 \/ d = 2 \/ d = 3 \/ d = 4 \/ d = 5 \/ d = 6 \/ d = 7 \/ d = 8 \/ d = 9 \/ d = 10 \/ d = 11 \/
            d = 12 \/ d = 13 \/ d = 14 \/ d = 15) as Hc by lia. intuition (subst; reflexivity). }
  pose proof (byte.unsigned_range x). apply Hx; [split; [apply Z.div_pos; lia|apply Z.div_lt_upper_bound; lia]|].
  apply Hx; [apply Z.mod_pos_bound; lia|done].
Qed.

Lemma outcome_ok evs s a nanos r : 0 <= R -> R + 1 < 2 ^ 63 -> can_record evs s a -> ledger evs ->
  let ev := clean_event (outcome_event spec s fp a nanos r) in
  event_ok ev /\ ev.(ESlot) = s /\ ev.(EAttempt) = a.
Proof.
  intros HR0 HR Hc HL. assert (1 <= a <= R + 1) as Ha.
  { destruct Hc as [[-> _]|(ev & Hl & _ & _ & -> & ?)]; [lia|].
    destruct (ledger_event_ok _ _ HL (last_elem _ _ Hl)) as (_ & ? & _). lia. }
  cbv zeta. unfold outcome_event. rewrite (s64_small (R + 1)) by (unfold is_s64; lia).
  destruct (Succeeded r); [|destruct (Z.leb_spec (R + 1) a)];
    (split; [|done]); unfold event_ok, clean_event; cbn [EFingerprint EAttempt Outcome]; rewrite fp_valid;
    (split; [done|split; [done|]]); [by left|right; right|right; left]; (split; [reflexivity|lia]).
Qed.

Lemma record_ledger evs s a ev : can_record evs s a -> ledger evs -> event_ok ev -> ev.(ESlot) = s -> ev.(EAttempt) = a ->
  ledger (evs ++ [ev]).
Proof.
  intros [[-> Hlt]|(p & Hl & Ho & Hs & -> & _)] HL He Es Ea.
  - apply L_first; [done|by rewrite Es|done|done].
  - apply (L_retry evs p); [done|done|done|congruence|congruence|done].
Qed.

Lemma running_clean s a nanos : clean_status (running_status s fp a nanos) = running_status s fp a nanos.
Proof. unfold clean_status, running_status. cbn [Phase SSlot SFingerprint SAttempt LastAttemptTime LastExitCode LastVerdict SMessage]. by rewrite fp_valid. Qed.

Lemma running_rel evs s a nanos : can_record evs s a -> status_rel false s evs (Some (running_status s fp a nanos)).
Proof.
  intros [[-> Hlt]|(ev & Hl & _ & Hs & _)].
  - apply sr_waiting; try done. by right.
  - apply (sr_running _ _ _ ev); done.
Qed.

Context (Hexit : forall c, g c -> is_s64 c.(cexec).(ExExitCode)) (HR0 : 0 <= R) (HR : R + 1 < 2 ^ 63).

Lemma outcome_ints s a nanos r : is_s64 s -> is_s64 a -> is_s64 nanos -> is_s64 r.(ExExitCode) ->
  event_ints (outcome_event spec s fp a nanos r).
Proof. intros ? ? ? ?. unfold outcome_event. repeat case_match; unfold event_ints; cbn; unfold is_s64 in *; intuition lia. Qed.

Lemma outcome_text s a nanos r (ev := outcome_event spec s fp a nanos r) :
  to_valid ev.(EFingerprint) = ev.(EFingerprint) /\ to_valid ev.(Outcome) = ev.(Outcome).
Proof. unfold ev, outcome_event. repeat case_match; (split; [apply fp_valid|reflexivity]). Qed.

Lemma attempt_range evs s a : can_record evs s a -> ledger evs -> 1 <= a <= R + 1.
Proof.
  intros [[-> _]|(ev & Hl & _ & _ & -> & ?)] HL; [lia|].
  destruct (ledger_event_ok _ _ HL (last_elem _ _ Hl)) as (_ & ? & _). lia.
Qed.

Lemma clean_event_idem e : clean_event (clean_event e) = clean_event e.
Proof. unfold clean_event. cbn [EFingerprint Outcome EMessage ESlot EAttempt EWriteNanos ExitCode]. by rewrite !to_valid_idem. Qed.

(** The event is in the ledger; the alert and the final status remain. *)
Lemma finish_ok s ev evs w : inv false s w -> ledger_of w = Some (evs ++ [clean_event ev]) -> ledger (evs ++ [clean_event ev]) ->
  Forall stored (evs ++ [clean_event ev]) -> (forall e, e ∈ evs ++ [clean_event ev] -> e.(ESlot) <= s) -> event_ints ev ->
  to_valid ev.(EFingerprint) = ev.(EFingerprint) /\ to_valid ev.(Outcome) = ev.(Outcome) ->
  wp g (_ ← (if beqb ev.(Outcome) EventAlert then call (Alert n ev) else Done tt);
        bind_ok (store (PutVersioned (StatusKey n) (encodeJobStatus (jobStatusFromEvent ev)) EngineSource))
                (fun _ => ok (jobStatusFromEvent ev))) w (fun _ w' => inv true s w') (inv false s).
Proof.
  intros Hi HL Hl Hst Hh Hei [Hf Ho]. apply wp_bind.
  assert (Hfin : forall w4, w4.(versions) = w.(versions) ->
    wp g (bind_ok (store (PutVersioned (StatusKey n) (encodeJobStatus (jobStatusFromEvent ev)) EngineSource)) (fun _ => ok (jobStatusFromEvent ev)))
      w4 (fun _ w' => inv true s w') (inv false s)).
  { intros w4 E4. assert (inv false s w4) as Hi4 by (destruct w4; cbn in E4; subst; exact Hi).
    apply wp_bind_ok, wp_put; [done|]. intros q4. apply wp_done. exists (evs ++ [clean_event ev]).
    rewrite ledger_of_status. split; [unfold ledger_of, versions_of in *; by rewrite E4|]. split_and!; try done.
    rewrite status_of_put by (by apply from_event_ints). rewrite clean_from_event by done. apply sr_event, last_snoc. }
  destruct (beqb (Outcome ev) EventAlert); [|by apply wp_done, Hfin].
  apply wp_call; [done|]. intros c' _. by apply Hfin.
Qed.

Lemma execute_ok s a nanos w evs : is_s64 s -> is_s64 nanos -> ledger_of w = Some evs -> ledger evs -> Forall stored evs ->
  (forall e, e ∈ evs -> e.(ESlot) <= s) -> can_record evs s a -> inv false s w ->
  wp g (execute spec (status_of w) s fp a nanos) w (fun _ w' => inv true s w') (inv false s).
Proof.
  intros Hs Hnanos HL Hl Hst Hh Hc Hi. pose proof (attempt_range _ _ _ Hc Hl) as Ha. unfold execute.
  assert (is_s64 a) as Ha' by (unfold is_s64; lia).
  apply wp_bind_ok, wp_write; [unfold status_ints; cbn; unfold is_s64 in *; intuition lia|done|].
  rewrite running_clean. intros w1 HL1 Hs1. assert (status_of w1 = Some (running_status s fp a nanos)) as Hs1' by (by destruct Hs1).
  clear Hs1. assert (inv false s w1) as Hi1.
  { exists evs. rewrite HL1, Hs1'. split_and!; try done. by apply running_rel. }
  apply wp_bind, wp_call; [done|]. intros c Hcg. cbn [handle fst snd].
  set (w2 := MkWorld _ _ _). assert (inv false s w2) as Hi2 by exact Hi1.
  set (ev := outcome_event spec s fp a nanos (cexec c)).
  assert (event_ints ev) as Hei by (apply outcome_ints; auto).
  destruct (outcome_ok evs s a nanos (cexec c) HR0 HR Hc Hl) as (Hok & Es & Ea). fold ev in Hok, Es, Ea.
  apply wp_bind_ok, wp_put; [done|]. intros q.
  assert (ledger (evs ++ [clean_event ev])) as Hl3 by (by eapply record_ledger).
  assert (Forall stored (evs ++ [clean_event ev])) as Hst3.
  { apply Forall_app. split; [done|]. constructor; [|done]. split; [apply clean_event_idem|done]. }
  assert (forall e, e ∈ evs ++ [clean_event ev] -> e.(ESlot) <= s) as Hh3.
  { intros e [He|He%list_elem_of_singleton]%elem_of_app; [auto|]. subst e. lia. }
  assert (ledger_of (put (EventsKey n) (encodeEvent ev) w2) = Some (evs ++ [clean_event ev])) as HL3.
  { apply ledger_of_put; [done|]. change (ledger_of w2) with (ledger_of w1). congruence. }
  apply (finish_ok s ev evs); try done; [|apply outcome_text].
  exists (evs ++ [clean_event ev]). split_and!; try done.
  rewrite status_of_event. change (status_of w2) with (status_of w1). rewrite Hs1'.
  apply (sr_running _ _ _ (clean_event ev)); [done|apply last_snoc|done|done|by rewrite Es].
Qed.

(** ** Reconciling *)
Lemma wp_unmet slot deps w (C : world -> Prop) : C w ->
  wp g (unmet_deps slot deps) w (fun r w' => w' = w /\ exists l, r = Ok l) C.
Proof.
  intros HC. induction deps as [|d deps IH]; [by apply wp_done; eauto|]. cbn [unmet_deps].
  apply wp_bind_ok, wp_get; [done|]. apply wp_bind_ok. eapply wp_mono; [exact IH| |done].
  intros r w' [-> [l ->]]. apply wp_done. eauto.
Qed.

Lemma first_try_ok s nanos w evs : is_s64 s -> is_s64 nanos -> ledger_of w = Some evs -> ledger evs -> Forall stored evs ->
  (forall e, e ∈ evs -> e.(ESlot) < s) -> inv false s w ->
  wp g (first_try spec (status_of w) s fp 1 nanos) w (fun _ w' => inv true s w') (inv false s).
Proof.
  intros Hs Hnanos HL Hl Hst Hlt Hi. unfold first_try, depsSatisfied. apply wp_bind_ok, wp_bind_ok.
  eapply wp_mono; [by apply wp_unmet| |done]. intros r w' [-> [l ->]]. apply wp_done. cbv beta iota.
  destruct (sort_strings l) as [|d ds] eqn:E.
  - apply (execute_ok s 1 nanos w evs); try done; [intros e He; specialize (Hlt e He); lia|by left].
  - apply wp_bind_ok, wp_write; [unfold status_ints, is_s64 in *; cbn; intuition lia|done|].
    intros w' HL' Hs'. apply wp_done. exists evs. split_and!; [congruence|done|done|intros e He; specialize (Hlt e He); lia|].
    destruct Hs' as [-> | ->]; apply sr_waiting; cbn [Phase SFingerprint SSlot SAttempt pending_status clean_status]; try done; try lia;
      [by left|by left|apply fp_valid].
Qed.

Lemma inv_weaken up hi s w : inv up hi w -> hi <= s -> inv up s w.
Proof.
  intros (evs & HL & Hl & Hst & Hh & Hr) Hs. exists evs. split_and!; try done; [intros e He; specialize (Hh e He); lia|].
  destruct Hr as [->|p Hp Hf Hhi Ha Hlt|ev El|ev p Hup El Hp Hf Hsl].
  - by constructor.
  - by apply sr_waiting; try lia.
  - by apply sr_event.
  - by apply (sr_running _ _ _ ev).
Qed.
Lemma inv_down up hi w : inv up hi w -> inv false hi w.
Proof.
  intros (evs & HL & Hl & Hst & Hh & Hr). exists evs. split_and!; try done.
  destruct Hr as [->|p Hp Hf Hhi Ha Hlt|ev El|ev p Hup El Hp Hf Hsl].
  - by constructor.
  - by apply sr_waiting.
  - by apply sr_event.
  - by apply (sr_running _ _ _ ev).
Qed.

Lemma track_spec prev s : match same_track prev s fp with
  | Some p => prev = Some p /\ p.(SSlot) = s /\ p.(SFingerprint) = fp
  | None => forall p, prev = Some p -> p.(SFingerprint) = fp -> p.(SSlot) <> s
  end.
Proof.
  unfold same_track. destruct prev as [p|]; [|done].
  destruct (Z.eqb_spec p.(SSlot) s); cbn [andb]; [|intros q [= <-]; done].
  destruct (beqb p.(SFingerprint) fp) eqn:E; bcmp; [done|]. by intros q [= <-].
Qed.

Lemma decide_ok s hi nanos w : hi <= s -> is_s64 s -> is_s64 nanos -> inv true hi w ->
  wp g (decide_next spec (status_of w) s fp nanos) w (fun _ w' => inv true s w') (inv false s).
Proof.
  intros Hhi Hs Hnanos Hinv. pose proof (inv_weaken _ _ s _ Hinv Hhi) as His. pose proof (inv_down _ _ _ His) as Hif.
  destruct Hinv as (evs & HL & Hl & Hst & Hh & Hr). pose proof (track_spec (status_of w) s) as Ht. unfold decide_next.
  assert (Hslots : forall e, e ∈ evs -> e.(ESlot) <= s) by (intros e He; specialize (Hh e He); lia).
  assert (Hfirst : (forall e, e ∈ evs -> e.(ESlot) < s) ->
    wp g (first_try spec (status_of w) s fp 1 nanos) w (fun _ w' => inv true s w') (inv false s)) by (intros; by apply (first_try_ok s nanos w evs)).
  remember (status_of w) as st eqn:Est. destruct Hr as [->|p Hp Hf Hps Ha Hlt|ev El|ev p Hup El Hp Hf Hsl]; [| | |done].
  - apply Hfirst. by intros e He%not_elem_of_nil.
  - destruct (same_track _ s fp) as [p'|]; [destruct Ht as ([= <-] & Es & _)|].
    + unfold backing_off, next_attempt. destruct Hp as [Hp|Hp]; rewrite Hp in *.
      * change (beqb PhasePending PhasePending) with true in Ha. rewrite Ha. apply Hfirst. by rewrite <- Es.
      * change (beqb PhaseRunning PhasePending) with false in Ha. rewrite Ha.
        change (wp g (execute spec (Some p) s fp 1 nanos) w (fun _ w' => inv true s w') (inv false s)).
        rewrite Est. apply (execute_ok s 1 nanos w evs); try done. left. split; [done|]. by rewrite <- Es.
    + apply Hfirst. intros e He. specialize (Hlt e He). lia.
  - destruct (from_event_fields ev) as (Fs & Ff & Fa & _). pose proof (ledger_event_ok _ _ Hl (last_elem _ _ El)) as Hev.
    pose proof Hev as (Hfp & Hat & _).
    destruct (same_track _ s fp) as [p'|]; [destruct Ht as ([= <-] & Es & _)|].
    + destruct (from_event_phase ev Hev) as [[_ [E|E]]|(Ho & HaR & E)]; unfold next_attempt; rewrite E; [by apply wp_done|by apply wp_done|].
      change (Terminal PhaseFailed) with false. cbv iota. destruct (backing_off _ _ _); [by apply wp_done|].
      change (beqb PhaseFailed PhasePending) with false. change (beqb PhaseFailed PhaseRunning) with false. cbv iota.
      rewrite Fa, s64_small by (unfold is_s64; lia). rewrite Est. apply (execute_ok s _ nanos w evs); try done.
      right. exists ev. split_and!; try done; [congruence|lia].
    + apply Hfirst. intros e He. specialize (Ht _ eq_refl ltac:(congruence)). rewrite Fs in Ht.
      pose proof (ledger_last_max _ _ _ Hl El He). specialize (Hslots ev (last_elem _ _ El)). lia.
Qed.
End Calls.

Lemma s64_range z : is_s64 (s64 z).
Proof. unfold is_s64, s64. pose proof (Z.mod_pos_bound (z + 2 ^ 63) (2 ^ 64) eq_refl). lia. Qed.
Lemma slot_range nanos s : spec_slot LoadLocation spec nanos = Ret s -> is_s64 s.
Proof.
  unfold spec_slot, Slot, AnchoredSlot. intros H. repeat case_match; try done; injection H as <-; apply s64_range.
Qed.

Lemma reconcile_ok hi s w : 0 <= R -> R + 1 < 2 ^ 63 -> hi <= s -> inv true hi w ->
  wp (good s) (Reconcile LoadLocation spec) w (fun _ w' => inv true s w') (inv false s).
Proof.
  intros HR0 HR Hhi Hinv. pose proof (inv_weaken _ _ s _ Hinv Hhi) as His. pose proof (inv_down _ _ _ His) as Hif.
  assert (Hfine : forall c, good s c -> cfault c = Fine) by (by intros c (H & _)).
  unfold Reconcile. destruct (Validate _ _); [by apply wp_done|].
  apply wp_bind, wp_call; [done|]. intros c (Hf & Hn & _ & Hs). cbn [handle fst snd].
  apply wp_bind. destruct (spec_slot LoadLocation spec (cnow c)) as [s'|] eqn:E; [|by intros cs Hcs].
  specialize (Hs s' eq_refl). subst s'. apply wp_done, wp_bind_ok, wp_readStatus; [done|done|].
  apply (decide_ok (good s) Hfine) with (hi := hi); try done; [by intros c' (_ & _ & ? & _)|by eapply slot_range].
Qed.

(** ** Every reachable state *)
Inductive reachable : bool * Z * world -> Prop :=
| rb_start hi w : versions_of w (StatusKey n) = [] -> versions_of w (EventsKey n) = [] -> reachable (false, hi, w)
| rb_step x y : reachable x -> step x y -> reachable y.

Lemma reachable_inv up hi w : 0 <= R -> R + 1 < 2 ^ 63 -> reachable (up, hi, w) -> inv up hi w.
Proof.
  intros HR0 HR H. remember (up, hi, w) as x eqn:Ex. revert up hi w Ex.
  induction H as [hi w Hs He|x y _ IH Hstep]; intros up hi' w' Ey.
  - injection Ey as <- <- <-. exists []. split; [unfold ledger_of; by rewrite He|].
    split; [constructor|]. split; [done|]. split; [by intros e Hx%not_elem_of_nil|].
    unfold status_of. rewrite Hs. by constructor.
  - destruct Hstep as [hi w cs w1 res Hcs Hrun|hi s w cs w1 res Hhs Hcs Hrun|up0 hi w|up0 hi w w1 E1 E2];
      injection Ey as <- <- <-; specialize (IH _ _ _ eq_refl).
    + pose proof (recover_ok (fun c => c.(cfault) = Fine) (fun c H => H) hi w IH cs Hcs) as H. rewrite Hrun in H.
      by destruct res as [[a cs']|]; [destruct H|].
    + pose proof (reconcile_ok hi s w HR0 HR Hhs IH cs Hcs) as H. rewrite Hrun in H.
      by destruct res as [[a cs']|]; [destruct H|].
    + by eapply inv_down.
    + unfold inv, ledger_of, status_of in *. by rewrite E1, E2.
Qed.

(** A ledger names no execution twice and stays within the retry budget. *)
Lemma ledger_nodup evs : ledger evs -> NoDup (map (fun e => (e.(ESlot), e.(EAttempt))) evs).
Proof.
  assert (Hmax : forall evs p e, ledger evs -> last evs = Some p -> e ∈ evs -> e.(ESlot) = p.(ESlot) -> e.(EAttempt) <= p.(EAttempt)).
  { clear evs. intros l p e H. revert p e. induction H as [|evs v H IH Hlt _ _|evs q v H IH Hl _ Hs Ha _]; intros p e El He Es; [done| |];
      rewrite last_snoc in El; injection El as <-; apply elem_of_app in He as [He|He%list_elem_of_singleton]; subst; try lia.
    - specialize (Hlt e He). lia.
    - specialize (IH q e Hl He). lia. }
  induction 1 as [|evs v H IH Hlt Ha _|evs p v H IH Hl _ Hs Ha _]; [constructor| |];
    rewrite map_app; apply NoDup_app; (split; [done|]); (split; [|apply NoDup_singleton]);
    intros x (e & -> & He)%list_elem_of_fmap [= E1 E2]%list_elem_of_singleton.
  - specialize (Hlt e He). lia.
  - specialize (Hmax evs p e H Hl He). lia.
Qed.

(** C25: Over every sequence of process lives of the job controller for one job
    whose specification does not change -- recovery at start-up, any number of
    reconcile calls, a crash between any two interactions with the store, the
    clock, the executor or the alert channel, other writers on other keys -- in
    which store calls succeed and the slots of the clock readings do not go
    back, the event ledger is readable and well formed: the attempts of a slot
    are recorded as 1, 2, ... next to each other, a retry only after a recorded
    failure, at most [MaxRetries + 1] of them, an alert exactly at the last; no
    slot has the same attempt twice.  (A new specification starts the slot again
    at attempt 1, by design.) *)
Theorem ledger_survives_crashes up hi w : 0 <= R -> R + 1 < 2 ^ 63 -> reachable (up, hi, w) ->
  exists evs, ledger_of w = Some evs /\ ledger evs /\ NoDup (map (fun e => (e.(ESlot), e.(EAttempt))) evs).
Proof.
  intros HR0 HR H. destruct (reachable_inv up hi w HR0 HR H) as (evs & HL & Hl & _).
  exists evs. split; [done|]. split; [done|]. by apply ledger_nodup.
Qed.

(** In the same runs, whenever the process is up -- recovery has completed
    since the last crash -- the status is what the ledger stands for: absent
    with an empty ledger, the status derived from the last event, or that of an
    execution of a later slot that has not been recorded yet (waiting for its
    dependencies, or interrupted in its first attempt). *)
Theorem status_is_function_of_ledger hi w : 0 <= R -> R + 1 < 2 ^ 63 -> reachable (true, hi, w) ->
  exists evs, ledger_of w = Some evs /\
    match status_of w with
    | None => evs = []
    | Some p => (exists ev, last evs = Some ev /\ p = jobStatusFromEvent ev) \/
                ((p.(Phase) = PhasePending \/ p.(Phase) = PhaseRunning /\ p.(SAttempt) = 1) /\
                 forall e, e ∈ evs -> e.(ESlot) < p.(SSlot))
    end.
Proof.
  intros HR0 HR H. destruct (reachable_inv true hi w HR0 HR H) as (evs & HL & _ & _ & _ & Hr).
  exists evs. split; [done|]. destruct Hr as [->|p Hp Hf Hhi Ha Hlt|ev El|ev p Hup El Hp Hf Hsl]; [done| |eauto|done].
  right. split; [|done]. destruct Hp as [Hp|Hp]; [by left|right]. by rewrite Hp in Ha.
Qed.

(** ** Dependencies, under any faults *)
Definition met (s : Z) (w : world) : Prop := forall d, d ∈ spec.(DependsOn) -> dep_met s (last (versions_of w (StatusKey d))) = true.

Lemma wp_true_get g k w (Q : result rec_error (option bytes) -> world -> Prop) (C : world -> Prop) :
  C w -> Q (Ok (last (versions_of w k))) w -> (forall e, Q (Err e) w) -> wp g (store (GetLatest k)) w Q C.
Proof.
  intros HC HQ HE. unfold store. apply wp_bind, wp_call; [done|]. intros c Hc. cbn [handle fst snd].
  apply wp_done. destruct (cfault c); cbn [answer]; auto.
Qed.

Lemma unmet_spec g s deps w (C : world -> Prop) : C w -> wp g (unmet_deps s deps) w (fun r w' => w' = w /\
  (r = Ok [] -> forall d, d ∈ deps -> dep_met s (last (versions_of w (StatusKey d))) = true)) C.
Proof.
  intros HC. induction deps as [|d deps IH]; [apply wp_done; split; [done|by intros _ x Hx%not_elem_of_nil]|]. cbn [unmet_deps].
  apply wp_bind_ok, wp_true_get; [done| |by intros e]. apply wp_bind_ok. eapply wp_mono; [exact IH| |done].
  intros [l|e] w' [-> Hl]; [|done]. apply wp_done. split; [done|].
  destruct (dep_met s (last (versions_of w (StatusKey d)))) eqn:E; [|done].
  intros [= ->] x [->|Hx]%elem_of_cons; [done|]. by apply Hl.
Qed.

Definition at_slot (s : Z) (c : choice) : Prop := forall s', spec_slot LoadLocation spec c.(cnow) = Ret s' -> s' = s.
(** The executor has not been used since [w0], or the slot's first attempt was
    made earlier, or the dependencies had succeeded. *)
Definition gated (s : Z) (w0 w : world) : Prop := w.(executed) = w0.(executed) \/ met s w0 \/
  exists p, status_of w0 = Some p /\ p.(SSlot) = s /\ p.(SFingerprint) = fp /\ p.(Phase) <> PhasePending.

Lemma wp_anything {A} g (p : prog A) w (P : Prop) (Q : A -> world -> Prop) C :
  P -> (forall a w', P -> Q a w') -> (forall w', P -> C w') -> wp g p w Q C.
Proof.
  intros HP HQ HC cs Hcs. revert w cs Hcs. induction p as [a|X e k IH|]; intros w cs Hcs; cbn [run]; [by split; auto| |auto].
  destruct cs as [|c cs]; [auto|]. destruct (handle e c w) as [w' x]. apply IH. by apply Forall_cons in Hcs as [_ ?].
Qed.

Lemma gate_open {A} g s w0 (p : prog A) w : gated s w0 (MkWorld ∅ (w0.(executed) ++ [spec]) []) ->
  wp g p w (fun _ w' => gated s w0 w') (gated s w0).
Proof.
  intros H. apply (wp_anything _ _ _ (met s w0 \/ exists p, status_of w0 = Some p /\ p.(SSlot) = s /\ p.(SFingerprint) = fp /\ p.(Phase) <> PhasePending)).
  - destruct H as [H|H]; [|done]. cbn in H. apply (f_equal length) in H. rewrite length_app in H. simpl in H. lia.
  - intros a w' H'. by right.
  - intros w' H'. by right.
Qed.

Lemma first_try_gated g s prev fp' a nanos w : wp g (first_try spec prev s fp' a nanos) w (fun _ w' => gated s w w') (gated s w).
Proof.
  unfold first_try, depsSatisfied. assert (gated s w w) as Hw by (by left). apply wp_bind_ok, wp_bind_ok.
  eapply wp_mono; [by apply unmet_spec| |by auto]. intros [l|e] w' [-> Hl]; [|done]. apply wp_done.
  destruct (sort_strings l) as [|d ds] eqn:E.
  - apply gate_open. right; left. intros d. apply Hl. f_equal. apply Permutation_nil_r. by rewrite <- (sort_strings_perm l), E.
  - apply wp_bind_ok. unfold writeStatusIfChanged. case_bool_decide; [by apply wp_done, wp_done|].
    apply wp_bind_ok. unfold store. apply wp_bind, wp_call; [done|]. intros c Hc. cbn [handle fst snd].
    apply wp_done. destruct (cfault c); cbn [answer]; try (apply wp_done, wp_done); by left.
Qed.

(** C26: Whatever the store's faults and wherever the process stops, one
    reconcile call runs the job's command only if every job it depends on has a
    recorded success in the same slot, or the first attempt of this slot and
    specification was already made. *)
Theorem dependencies_gate_execution s cs w w' res : Forall (at_slot s) cs ->
  run (Reconcile LoadLocation spec) cs w = (w', res) -> w'.(executed) <> w.(executed) ->
  met s w \/ exists p, status_of w = Some p /\ p.(SSlot) = s /\ p.(SFingerprint) = fp /\ p.(Phase) <> PhasePending.
Proof.
  intros Hcs Hrun Hne. assert (wp (at_slot s) (Reconcile LoadLocation spec) w (fun _ w' => gated s w w') (gated s w)) as H.
  { assert (gated s w w) as Hw by (by left). unfold Reconcile. destruct (Validate _ _); [by apply wp_done|].
    apply wp_bind, wp_call; [done|]. intros c Hc. cbn [handle fst snd]. apply wp_bind.
    destruct (spec_slot LoadLocation spec (cnow c)) as [s'|] eqn:E; [|by intros cs' Hcs'].
    specialize (Hc s' E). subst s'. apply wp_done, wp_bind_ok. unfold readStatus. apply wp_bind_ok, wp_true_get; [done| |by intros e].
    apply wp_done. fold (status_of w). unfold decide_next. pose proof (track_spec (status_of w) s) as Ht.
    destruct (same_track (status_of w) s fp) as [p|]; [|apply first_try_gated]. destruct Ht as (Hp & Hs & Hf).
    destruct (Terminal (Phase p)); [by apply wp_done|]. destruct (backing_off spec p (cnow c)); [by apply wp_done|].
    destruct (beqb (Phase p) PhasePending) eqn:Ep; [apply first_try_gated|]. bcmp. apply gate_open. right; right. eauto. }
  specialize (H cs Hcs). rewrite Hrun in H.
  destruct res as [[a cs']|]; [destruct H as [H _]|]; destruct H as [H|H]; done.
Qed.

(** ** Idempotence *)
Fixpoint reconciles (k : nat) : prog unit :=
  match k with O => Done tt | S k => _ ← Reconcile LoadLocation spec; reconciles k end.

(** Once the status of a slot is final, or while a failed attempt is still
    backing off, any number of further reconcile calls in that slot, under any
    faults and stopped anywhere, changes nothing: no status, no event, no
    execution, no alert. *)
Theorem settled_slot_is_left_alone s p k cs w w' res : status_of w = Some p -> p.(SSlot) = s -> p.(SFingerprint) = fp ->
  Forall (fun c => at_slot s c /\ (Terminal p.(Phase) || backing_off spec p c.(cnow)) = true) cs ->
  run (reconciles k) cs w = (w', res) -> w' = w.
Proof.
  intros Hp Hs Hf Hcs Hrun. set (g := fun c => at_slot s c /\ (Terminal p.(Phase) || backing_off spec p c.(cnow)) = true) in *.
  assert (Hk : forall k, wp g (reconciles k) w (fun _ w' => w' = w) (eq w)).
  { clear k Hrun. intros k. induction k as [|k IH]; [by apply wp_done|]. cbn [reconciles]. apply wp_bind.
    apply (wp_mono _ _ _ (fun _ w' => w' = w) _ (eq w)); [|by intros a ? ->|done].
    unfold Reconcile. destruct (Validate _ _); [by apply wp_done|]. apply wp_bind, wp_call; [done|].
    intros c [Hc Hb]. cbn [handle fst snd]. apply wp_bind.
    destruct (spec_slot LoadLocation spec (cnow c)) as [s'|] eqn:E; [|by intros cs' Hcs'].
    specialize (Hc s' E). subst s'. apply wp_done, wp_bind_ok. unfold readStatus. apply wp_bind_ok, wp_true_get; [done| |by intros e].
    apply wp_done. fold (status_of w). unfold decide_next. pose proof (track_spec (status_of w) s) as Ht.
    rewrite Hp in *. destruct (same_track (Some p) s fp) as [q|]; [destruct Ht as ([= <-] & _)|by destruct (Ht p)].
    destruct (Terminal (Phase p)); [by apply wp_done|]. cbn [orb] in Hb. rewrite Hb. by apply wp_done. }
  specialize (Hk k cs Hcs). rewrite Hrun in Hk. by destruct res as [[a cs']|]; [destruct Hk|].
Qed.

Lemma reach_recover hi w cs : reachable (false, hi, w) -> Forall (fun c => c.(cfault) = Fine) cs ->
  reachable (match (run (Recover n) cs w).2 with Some _ => true | None => false end, hi, (run (Recover n) cs w).1).
Proof. intros H Hcs. eapply rb_step; [exact H|]. eapply st_recover; [exact Hcs|apply surjective_pairing]. Qed.
Lemma reach_reconcile hi s w cs : reachable (true, hi, w) -> hi <= s -> Forall (good s) cs ->
  reachable (match (run (Reconcile LoadLocation spec) cs w).2 with Some _ => true | None => false end, s,
             (run (Reconcile LoadLocation spec) cs w).1).
Proof. intros H Hs Hcs. eapply rb_step; [exact H|]. eapply st_reconcile; [exact Hs|exact Hcs|apply surjective_pairing]. Qed.
End Job.

(** ** A run

    A job with one retry.  The first execution fails and the process stops
    after the event is written and before the status is; the next process
    recovers the status from the event, retries and raises the alert. *)
Definition no_zone (z : bytes) : option Location := None.
Definition scout : JobSpec := MkJobSpec (str "scout") [str "run.sh"] [] None [] 60 [] 1 0.
Definition fails (now : Z) : choice := MkChoice Fine now (MkExec 1 (str "boom") None).
Definition empty_world : world := MkWorld ∅ [] [].
Definition world1 : world := (run (Recover scout.(Name)) (replicate 3 (fails 0)) empty_world).1.
Definition world2 : world := (run (Reconcile no_zone scout) (replicate 5 (fails 1000)) world1).1.
Definition world3 : world := (run (Recover scout.(Name)) (replicate 3 (fails 0)) world2).1.
Definition world4 : world := (run (Reconcile no_zone scout) (replicate 9 (fails 2000)) world3).1.

Lemma fails_good now k : is_s64 now -> spec_slot no_zone scout now = Ret 0 -> Forall (good no_zone scout 0) (replicate k (fails now)).
Proof.
  intros H1 H2. apply Forall_replicate. split; [done|]. split; [done|]. split; [by vm_compute|].
  intros s'. cbn [cnow fails]. rewrite H2. by intros [= <-].
Qed.

(** The process is up with two recorded attempts. *)
Lemma world4_reachable : reachable no_zone scout (true, 0, world4).
Proof.
  assert (Forall (good no_zone scout 0) (replicate 5 (fails 1000))) as G1 by (by apply fails_good).
  assert (Forall (good no_zone scout 0) (replicate 9 (fails 2000))) as G2 by (by apply fails_good).
  assert (Forall (fun c => c.(cfault) = Fine) (replicate 3 (fails 0))) as G3 by (by apply Forall_replicate).
  assert (reachable no_zone scout (true, 0, world1)) as H1.
  { apply (reach_recover no_zone scout 0 empty_world (replicate 3 (fails 0))); [by constructor|exact G3]. }
  assert (reachable no_zone scout (false, 0, world2)) as H2.
  { assert (E : match (run (Reconcile no_zone scout) (replicate 5 (fails 1000)) world1).2 with Some _ => true | None => false end = false) by (vm_compute; reflexivity).
    pose proof (reach_reconcile no_zone scout 0 0 world1 (replicate 5 (fails 1000)) H1 (Z.le_refl 0) G1) as H.
    rewrite E in H. exact H. }
  assert (reachable no_zone scout (true, 0, world3)) as H3.
  { assert (E : match (run (Recover scout.(Name)) (replicate 3 (fails 0)) world2).2 with Some _ => true | None => false end = true) by (vm_compute; reflexivity).
    pose proof (reach_recover no_zone scout 0 world2 (replicate 3 (fails 0)) H2 G3) as H.
    rewrite E in H. exact H. }
  assert (E : match (run (Reconcile no_zone scout) (replicate 9 (fails 2000)) world3).2 with Some _ => true | None => false end = true) by (vm_compute; reflexivity).
  pose proof (reach_reconcile no_zone scout 0 0 world3 (replicate 9 (fails 2000)) H3 (Z.le_refl 0) G2) as H.
  rewrite E in H. exact H.
Qed.

Definition outcomes (evs : list Event) : list (Z * Z * bytes) := map (fun e => (e.(ESlot), e.(EAttempt), e.(Outcome))) evs.

(** What the run records. *)
Example world4_ledger : outcomes <$> ledger_of scout world4 = Some [(0, 1, EventFailed); (0, 2, EventAlert)] /\
  length world4.(executed) = 2%nat /\ length world4.(alerts) = 1%nat.
Proof. vm_compute. done. Qed.

Lemma ledger_survives_crashes_witness : exists evs, ledger_of scout world4 = Some evs /\ ledger scout evs /\
  NoDup (map (fun e => (e.(ESlot), e.(EAttempt))) evs).
Proof. apply (ledger_survives_crashes no_zone scout true 0 world4); [by vm_compute|by vm_compute|apply world4_reachable]. Defined.

Lemma status_is_function_of_ledger_witness : exists evs, ledger_of scout world4 = Some evs /\
  match status_of scout world4 with
  | None => evs = []
  | Some p => (exists ev, last evs = Some ev /\ p = jobStatusFromEvent ev) \/
              ((p.(Phase) = PhasePending \/ p.(Phase) = PhaseRunning /\ p.(SAttempt) = 1) /\
               forall e, e ∈ evs -> e.(ESlot) < p.(SSlot))
  end.
Proof. apply (status_is_function_of_ledger no_zone scout 0 world4); [by vm_compute|by vm_compute|apply world4_reachable]. Defined.

(** A job that depends on [scout], reconciled after a success of [scout]. *)
Definition paper : JobSpec := MkJobSpec (str "paper") [str "paper.sh"] [] None [str "scout"] 60 [] 0 0.
Definition scout_done : world :=
  put (StatusKey (str "scout")) (encodeJobStatus (MkStatus PhaseSucceeded 0 [] 1 500 0 EventSucceeded (str "ok"))) empty_world.

Lemma dependencies_gate_execution_witness :
  let r := run (Reconcile no_zone paper) (replicate 9 (fails 1000)) scout_done in
  r.1.(executed) <> scout_done.(executed) /\
  (met paper 0 scout_done \/ exists p, status_of paper scout_done = Some p /\ p.(SSlot) = 0 /\
     p.(SFingerprint) = Fingerprint paper /\ p.(Phase) <> PhasePending).
Proof.
  intros r. assert (r.1.(executed) <> scout_done.(executed)) as Hne.
  { intros E. apply (f_equal length) in E. vm_compute in E. discriminate. }
  split; [done|]. apply (dependencies_gate_execution no_zone paper 0 (replicate 9 (fails 1000)) scout_done r.1 r.2);
    [|apply surjective_pairing|done].
  apply Forall_replicate. intros s'. vm_compute. by intros [= <-].
Defined.

Lemma settled_slot_is_left_alone_witness : (run (reconciles no_zone scout 3) (replicate 20 (fails 3000)) world4).1 = world4.
Proof.
  assert (E : (fun p => (p.(SSlot), beqb p.(SFingerprint) (Fingerprint scout), Terminal p.(Phase))) <$> status_of scout world4 = Some (0, true, true))
    by (vm_compute; reflexivity).
  destruct (status_of scout world4) as [p|] eqn:Hp; [|discriminate]. injection E as E1 E2 E3. apply beqb_eq in E2.
  apply (settled_slot_is_left_alone no_zone scout 0 p 3 (replicate 20 (fails 3000)) world4 _
           (run (reconciles no_zone scout 3) (replicate 20 (fails 3000)) world4).2 Hp E1 E2);
    [|apply surjective_pairing].
  apply Forall_replicate. split; [|by rewrite E3]. intros s'. vm_compute. by intros [= <-].
Defined.

End JobRun.
