(* ===== verification/JobCases.v ===== *)
(** * Time slots, registry imports and the edges of the job controller *)
From stdpp Require Import sorting.
From S2P Require Import Prelude Bytes Sha256 Json JsonSpec JobSpec JobCodec Proto Reconciler JobRun.

Module JobCases.
Import Json JsonSpec Job JobCodec Rec JobRun.

(** ** Anchored slots *)
Lemma floorDiv_div a b : 0 < b -> floorDiv a b = a / b.
Proof.
  intros Hb. unfold floorDiv. pose proof (Z.quot_rem' a b) as E. rewrite (proj2 (Z.ltb_ge b 0)) by lia.
  destruct (Z.ltb_spec a 0) as [Ha|Ha].
  - pose proof (Z.rem_nonpos a b ltac:(lia) ltac:(lia)) as H1. pose proof (Z.rem_bound_abs a b ltac:(lia)) as H2.
    destruct (Z.eqb_spec (Z.rem a b) 0) as [E0|E0]; cbn [negb andb xorb].
    + rewrite E0 in E. apply (Z.div_unique_pos _ _ _ 0); lia.
    + apply (Z.div_unique_pos _ _ _ (Z.rem a b + b)); lia.
  - pose proof (Z.rem_bound_pos a b ltac:(lia) ltac:(lia)) as [H1 H2].
    destruct (Z.eqb_spec (Z.rem a b) 0); cbn [negb andb xorb]; apply (Z.div_unique_pos _ _ _ (Z.rem a b)); lia.
Qed.

Definition fixed_zone (off : Z) : Location := MkLocation off [].

Lemma date_fixed off day h m : - 86400 <= off <= 86400 -> 0 <= h <= 23 -> 0 <= m <= 59 -> - 2 ^ 40 <= day <= 2 ^ 40 ->
  date (fixed_zone off) day h m = day * 86400 + h * 3600 + m * 60 - off.
Proof.
  intros Ho Hh Hm Hd. unfold date, lookup_zone, fixed_zone. cbn [first_offset transitions lookup_from].
  destruct (Z.eqb_spec off 0); [lia|]. unfold alpha, omega.
  rewrite (proj2 (Z.ltb_ge _ _)), (proj2 (Z.leb_gt _ _)) by lia. cbn [orb]. lia.
Qed.

(** In a time zone without daylight saving, the slot of a daily job
    anchored at [h]:[m] counts the anchor instants passed: it is the number of
    whole days since the anchor instant of the first day, so it is constant
    between two consecutive anchors and one higher from the next on. *)
Theorem anchored_slot_counts_anchors nanos off h m : is_s64 nanos -> - 86400 <= off <= 86400 -> 0 <= h <= 23 -> 0 <= m <= 59 ->
  AnchoredSlot nanos 86400 (fixed_zone off) h m = Ret ((nanos - (h * 3600 + m * 60 - off) * Second) / (86400 * Second)).
Proof.
  unfold is_s64. intros Hn Ho Hh Hm. unfold AnchoredSlot.
  assert (interval_nanos 86400 = 86400 * Second) as EI by (vm_compute; reflexivity). rewrite EI. clear EI.
  change (86400 * Second =? 0) with false. cbv iota. unfold local_day, lookup_zone.
  cbn [fixed_zone first_offset transitions lookup_from]. set (day := (nanos / Second + off) / 86400).
  assert (- 2 ^ 40 <= day <= 2 ^ 40) as Hd.
  { unfold day, Second. pose proof (Z.div_mod nanos 1000000000). pose proof (Z.mod_pos_bound nanos 1000000000).
    pose proof (Z.div_mod (nanos / 1000000000 + off) 86400). pose proof (Z.mod_pos_bound (nanos / 1000000000 + off) 86400). lia. }
  change {| first_offset := off; transitions := [] |} with (fixed_zone off). rewrite !date_fixed by (done || lia). rewrite !floorDiv_div by (by vm_compute).
  set (I := 86400 * Second). set (c := h * 3600 + m * 60 - off).
  replace ((day * 86400 + h * 3600 + m * 60 - off) * Second - (0 * 86400 + h * 3600 + m * 60 - off) * Second) with (day * I) by (unfold I; lia).
  rewrite Z.div_mul by (by vm_compute). rewrite <- Z.div_add by (by vm_compute).
  replace (nanos - (day * 86400 + h * 3600 + m * 60 - off) * Second + day * I) with (nanos - c * Second) by (unfold I, c; lia).
  rewrite s64_small; [done|]. unfold is_s64, I, c, Second.
  pose proof (Z.div_mod (nanos - (h * 3600 + m * 60 - off) * 1000000000) (86400 * 1000000000)).
  pose proof (Z.mod_pos_bound (nanos - (h * 3600 + m * 60 - off) * 1000000000) (86400 * 1000000000)). lia.
Qed.

(** A minute before and at 16:10 in Shanghai on 2026-03-02. *)
Lemma anchored_slot_counts_anchors_witness :
  AnchoredSlot 1772438940000000000 86400 (fixed_zone 28800) 16 10 = Ret 20513 /\
  AnchoredSlot 1772439000000000000 86400 (fixed_zone 28800) 16 10 = Ret 20514.
Proof.
  split; (rewrite anchored_slot_counts_anchors; [vm_compute; reflexivity|by vm_compute|by vm_compute|by vm_compute|by vm_compute]).
Defined.

(** With daylight saving the slots go back: New York in March 2024, a job
    anchored at 16:10.  In the evening of the 9th the slot is 19791; in the
    morning of the 10th, after the clocks have gone forward, it is 19790; from
    16:10 on it is 19791 again. *)
Definition new_york : Location := MkLocation (-18000) [(1710054000, -14400)].
Definition evening9 : Z := 1710039600 * Second.
Definition morning10 : Z := 1710079200 * Second.
Definition evening10 : Z := 1710111600 * Second.

Theorem anchored_slot_goes_back :
  evening9 < morning10 < evening10 /\
  AnchoredSlot evening9 86400 new_york 16 10 = Ret 19791 /\
  AnchoredSlot morning10 86400 new_york 16 10 = Ret 19790 /\
  AnchoredSlot evening10 86400 new_york 16 10 = Ret 19791.
Proof. vm_compute. done. Qed.

(** So the job runs a third time, and the ledger has the same attempt of the
    same slot twice. *)
Definition us_zone (z : bytes) : option Location := if beqb z (str "America/New_York") then Some new_york else None.
Definition ny_job : JobSpec := MkJobSpec (str "close") [str "close.sh"] [] None [] 86400 (str "daily@16:10 America/New_York") 0 0.
Definition succeeds (now : Z) : choice := MkChoice Fine now (MkExec 0 [] None).
Definition ny_world : world :=
  let tick now w := (run (Reconcile us_zone ny_job) (replicate 9 (succeeds now)) w).1 in
  tick evening10 (tick morning10 (tick evening9 empty_world)).

Theorem daylight_saving_repeats_slot : Validate us_zone ny_job = None /\
  outcomes <$> ledger_of ny_job ny_world =
    Some [(19791, 1, EventSucceeded); (19790, 1, EventSucceeded); (19791, 1, EventSucceeded)].
Proof. vm_compute. done. Qed.

(** An interval whose length in nanoseconds wraps to zero passes validation and
    stops the process with a division by zero. *)
Definition wide_job : JobSpec := MkJobSpec (str "wide") [str "x"] [] None [] (2 ^ 55) [] 0 0.
Theorem interval_wraps_to_zero : Validate no_zone wide_job = None /\
  run (Reconcile no_zone wide_job) (replicate 9 (succeeds 1000)) empty_world = (empty_world, None).
Proof. vm_compute. done. Qed.

(** The acknowledgement of the event write is lost: the event is in the ledger,
    but the status stays [running] and the next call of the same process runs
    the command again and records the same attempt again. *)
Definition unheard (now : Z) : choice := MkChoice Unheard now (MkExec 0 [] None).
Definition unheard_world : world :=
  let w1 := (run (Reconcile no_zone scout) (replicate 4 (succeeds 1000) ++ [unheard 1000]) empty_world).1 in
  (run (Reconcile no_zone scout) (replicate 9 (succeeds 2000)) w1).1.
Theorem unheard_event_recorded_twice :
  outcomes <$> ledger_of scout unheard_world = Some [(0, 1, EventSucceeded); (0, 1, EventSucceeded)] /\
  length unheard_world.(executed) = 2%nat.
Proof. vm_compute. done. Qed.

(** ** Importing the registry *)
(** The key a line is stored under; [None] for a line that is skipped or
    reported. *)
Definition line_key (l : bytes) : option bytes :=
  if blank (length l) l then None
  else fp ← Unmarshal line_fields [] l; if beqb fp [] then None else Some (registryFingerprintKey fp).
Definition settled (ls : list bytes) (w : world) : Prop :=
  forall l k, l ∈ ls -> line_key l = Some k -> last (versions_of w k) = Some l.

Lemma import_line_key l : import_line l = if blank (length l) l then Done LBlank else
  match line_key l with
  | None => Done LError
  | Some k =>
      existing ← call (GetLatest k);
      match existing with
      | Err _ => Done LError
      | Ok existing =>
          if bool_decide (existing = Some l) then Done LUnchanged
          else r ← call (PutVersioned k l EngineSource); Done (match r with Ok _ => LImported | Err _ => LError end)
      end
  end.
Proof.
  unfold import_line, line_key. destruct (blank _ _); [done|]. destruct (Unmarshal _ _ _) as [fp|]; [|done].
  cbn [mbind option_bind]. by destruct (beqb fp []).
Qed.

(** Lines that are already stored are left alone, whatever the faults. *)
Lemma import_settled g ls no r w : settled ls w -> wp g (import_lines no ls r) w (fun _ w' => w' = w) (eq w).
Proof.
  revert no r; induction ls as [|l ls IH]; intros no r Hs; [by apply wp_done|]. cbn [import_lines]. apply wp_bind.
  assert (Hrest : forall o, wp g (import_lines (no + 1) ls (count_line no o r)) w (fun _ w' => w' = w) (eq w)).
  { intros o. apply IH. intros l' k Hl. apply Hs. by apply list_elem_of_further. }
  rewrite import_line_key. destruct (blank _ _); [by apply wp_done|]. destruct (line_key l) as [k|] eqn:Ek; [|by apply wp_done].
  apply wp_bind, wp_call; [done|]. intros c Hc. cbn [handle fst snd].
  destruct (cfault c); cbn [answer]; [|by apply wp_done|by apply wp_done].
  rewrite (Hs l k (list_elem_of_here _ _) Ek), bool_decide_true by done. by apply wp_done.
Qed.

Definition all_fine (c : choice) : Prop := c.(cfault) = Fine.

(** Importing distinct keys settles them and keeps what was settled. *)
Lemma import_settles ls pre no r w : NoDup (omap line_key (pre ++ ls)) -> settled pre w ->
  wp all_fine (import_lines no ls r) w (fun _ w' => settled (pre ++ ls) w') (fun _ => True).
Proof.
  revert pre no r w; induction ls as [|l ls IH]; intros pre no r w Hn Hs; [apply wp_done; by rewrite app_nil_r|].
  cbn [import_lines]. apply wp_bind. rewrite (cons_middle l pre ls), (assoc_L (++)) in Hn |- *.
  assert (Hstep : forall o w', settled (pre ++ [l]) w' ->
    wp all_fine (import_lines (no + 1) ls (count_line no o r)) w' (fun _ w' => settled ((pre ++ [l]) ++ ls) w') (fun _ => True)) by (intros; by apply IH).
  assert (Hskip : forall w', line_key l = None -> settled pre w' -> settled (pre ++ [l]) w').
  { intros w' E H l' k [Hl|Hl%list_elem_of_singleton]%elem_of_app Ek; [by apply H|]. subst. congruence. }
  rewrite import_line_key. destruct (blank (length l) l) eqn:Eb.
  { apply wp_done, Hstep, Hskip; [unfold line_key; by rewrite Eb|done]. }
  destruct (line_key l) as [k|] eqn:Ek; [|apply wp_done, Hstep, Hskip; done].
  apply wp_bind, wp_call; [done|]. intros c Hc. cbn [handle fst snd]. rewrite Hc. cbn [answer].
  case_bool_decide as E.
  { apply wp_done, Hstep. intros l' k' [Hl|Hl%list_elem_of_singleton]%elem_of_app Ek'; [by apply Hs|]. subst. congruence. }
  apply wp_bind, wp_call; [done|]. intros c2 Hc2. cbn [handle fst snd]. rewrite Hc2. apply wp_done, Hstep.
  intros l' k' Hl' Ek'. rewrite versions_put. destruct (decide (k = k')) as [<-|Hne].
  - rewrite last_snoc. f_equal. rewrite (omap_app _ (pre ++ [l])) in Hn. apply NoDup_app in Hn as [Hn _].
    rewrite omap_app in Hn. apply NoDup_app in Hn as (_ & Hd & _).
    apply elem_of_app in Hl' as [Hl'|Hl'%list_elem_of_singleton]; [|done].
    destruct (Hd k); [by apply list_elem_of_omap; eauto|]. apply list_elem_of_omap. exists l. split; [by apply list_elem_of_singleton|done].
  - apply elem_of_app in Hl' as [Hl'|Hl'%list_elem_of_singleton]; [by apply Hs|]. subst. congruence.
Qed.

(** After a complete import of a registry file whose lines have distinct
    fingerprints, importing the same file again writes nothing, whatever the
    faults of the second import and wherever it stops. *)
Theorem reimport_writes_nothing input cs w w' x cs2 w2 res2 :
  NoDup (omap line_key (scan_lines (2 ^ 23) (raw_lines input)).1) ->
  Forall all_fine cs -> run (ImportReader input) cs w = (w', Some x) ->
  run (ImportReader input) cs2 w' = (w2, res2) -> w2 = w'.
Proof.
  unfold ImportReader. destruct (scan_lines (2 ^ 23) (raw_lines input)) as [ls fine]. cbn [fst]. intros Hn Hcs H1 H2.
  assert (settled ls w') as Hs.
  { pose proof (import_settles ls [] 1 (MkImport 0 0 0 []) w Hn) as H.
    specialize (H ltac:(by intros l k Hl%not_elem_of_nil) cs Hcs). rewrite run_bind in H1. destruct x as [x cs'].
    destruct (run (import_lines 1 ls _) cs w) as [w1 [[r cs1]|]]; [|done]. destruct H as [H _].
    cbn [run] in H1. injection H1 as <- <- <-. exact H. }
  rewrite run_bind in H2. pose proof (import_settled (fun _ => True) ls 1 (MkImport 0 0 0 []) w' Hs cs2 ltac:(by apply Forall_true)) as H.
  destruct (run (import_lines 1 ls _) cs2 w') as [w3 [[r cs3]|]]; [destruct H as [-> _]|subst]; cbn [run] in H2; congruence.
Qed.

(** A registry line. *)
Definition record (fp : bytes) (x : Z) : bytes :=
  print (JObj [(str "verdict", JObj [(str "fingerprint", JStr fp)]); (str "x", JInt x)]) ++ [newline].
Definition two_records : bytes := record (str "f") 1 ++ record (str "g") 2.
Definition imported : world * option (ImportResult * bool * list choice) := run (ImportReader two_records) (replicate 4 (succeeds 0)) empty_world.

Lemma reimport_writes_nothing_witness : (run (ImportReader two_records) (replicate 3 (unheard 0)) imported.1).1 = imported.1.
Proof.
  assert (E : match imported.2 with Some _ => true | None => false end = true) by (vm_compute; reflexivity).
  destruct imported as [w [x|]] eqn:Ei; [|discriminate]. cbn [fst].
  apply (reimport_writes_nothing two_records (replicate 4 (succeeds 0)) empty_world w x (replicate 3 (unheard 0)) _
           (run (ImportReader two_records) (replicate 3 (unheard 0)) w).2).
  - apply (bool_decide_unpack (NoDup _)). vm_compute. exact I.
  - by apply Forall_replicate.
  - exact Ei.
  - apply surjective_pairing.
Defined.

(** Two lines of one experiment: every import of the unchanged file writes both again. *)
Definition same_experiment : bytes := record (str "f") 1 ++ record (str "f") 2.
Fixpoint imports (k : nat) (w : world) : world :=
  match k with O => w | S k => imports k (run (ImportReader same_experiment) (replicate 9 (succeeds 0)) w).1 end.
Theorem reimport_grows : length (versions_of (imports 5 empty_world) (registryFingerprintKey (str "f"))) = 10%nat.
Proof. vm_compute. done. Qed.

(** ** The strategy life cycle *)
(** Transitions stay among the six phases, and nothing leaves [retired]. *)
Definition phases : list bytes := [StrategyHypothesis; StrategyGate; StrategyCandidate; StrategyPaper; StrategyLive; StrategyRetired].
Lemma transition_phases from to : CanTransition from to = true -> from ∈ phases /\ to ∈ phases /\ from <> StrategyRetired.
Proof.
  unfold CanTransition, strategyTransitions. cbn [allowed_from]. intros H.
  repeat (match goal with H : context [if beqb ?p from then _ else _] |- _ => destruct (beqb p from) eqn:?; [|] end);
    bcmp; subst; cbn [existsb] in H; try discriminate;
    (split; [set_solver|]); (split; [|discriminate]); repeat (destruct (beqb to _) eqn:?; bcmp; subst; [set_solver|]); discriminate.
Qed.

End JobCases.
