(* ===== verification/Delivery.v ===== *)
(** * Downstream delivery: the deliverer, its source, offsets, sinks and routing

    [service/delivery], [service/delivery/offset], [service/delivery/governance]
    and [service/offset_committer.go].  The store is seen through what the
    deliverer uses of it: the live entries in key order, a write and a read of
    the offset record ([KVRun.kv_scan_visible] and its neighbours are the
    server's side of this view). *)
From stdpp Require Import sorting.
From S2P Require Import Prelude Bytes Json JobSpec KVServer Reconciler.

Module Dlv.
Import Json.

(** ** base64 ([encoding/base64.StdEncoding], how JSON carries [[]byte]) *)
Definition sextet (d : Z) : byte :=
  byte.of_Z (if d <? 26 then 65 + d else if d <? 52 then 71 + d else if d <? 62 then d - 4 else if d =? 62 then 43 else 47).
Definition unsextet (b : byte) : option Z :=
  if between 65 90 b then Some (#b - 65) else if between 97 122 b then Some (#b - 71)
  else if between 48 57 b then Some (#b + 4) else if #b =? 43 then Some 62 else if #b =? 47 then Some 63 else None.
Definition pad : byte := byte.of_Z 61.

Fixpoint b64_encode (s : bytes) : bytes :=
  match s with
  | [] => []
  | [x] => [sextet (#x / 4); sextet (#x mod 4 * 16); pad; pad]
  | [x; y] => [sextet (#x / 4); sextet (#x mod 4 * 16 + #y / 16); sextet (#y mod 16 * 4); pad]
  | x :: y :: z :: t =>
      sextet (#x / 4) :: sextet (#x mod 4 * 16 + #y / 16) :: sextet (#y mod 16 * 4 + #z / 64) :: sextet (#z mod 64)
      :: b64_encode t
  end.

Fixpoint b64_quads (s : bytes) : option bytes :=
  match s with
  | [] => Some []
  | a :: b :: c :: d :: t =>
      x ← unsextet a; y ← unsextet b;
      let b0 := byte.of_Z (x * 4 + y / 16) in
      if bool_decide (c = pad) then
        if bool_decide (d = pad) && bool_decide (t = []) then Some [b0] else None
      else
        z ← unsextet c;
        let b1 := byte.of_Z (y mod 16 * 16 + z / 4) in
        if bool_decide (d = pad) then if bool_decide (t = []) then Some [b0; b1] else None
        else
          w ← unsextet d;
          rest ← b64_quads t;
          Some (b0 :: b1 :: byte.of_Z (z mod 4 * 64 + w) :: rest)
  | _ => None
  end.
(** Line breaks are ignored. *)
Definition b64_decode (s : bytes) : option bytes := b64_quads (List.filter (fun b => negb ((#b =? 10) || (#b =? 13))) s).

Definition json_bytes (v : option bytes) : json := match v with None => JNull | Some s => JStr (b64_encode s) end.
Definition set_bytes {A} (put : option bytes -> A -> A) (j : json) (a : A) : option A :=
  match j with JNull => Some (put None a) | JStr s => v ← b64_decode s; Some (put (Some v) a) | _ => None end.

(** ** Records and their lines (sink.go, file_sink.go) *)
Record Record_ := MkRecord { RKey : bytes; RValue : option bytes }.
#[export] Instance Record_eq_dec : EqDecision Record_.
Proof. solve_decision. Defined.

Record fileRecord := MkFileRecord { FKey : option bytes; FValue : option bytes }.
Definition file_fields : list (field fileRecord) := [
  (str "key", set_bytes (fun x r => MkFileRecord x r.(FValue)));
  (str "value", set_bytes (fun x r => MkFileRecord r.(FKey) x))].
Definition newline : byte := byte.of_Z 10.
(** [Encoder.Encode]: one line of JSON. *)
Definition line (r : Record_) : bytes :=
  print (JObj [(str "key", json_bytes (Some r.(RKey))); (str "value", json_bytes r.(RValue))]) ++ [newline].

(** *** The file and the buffer in front of it

    [written] is what the operating system has been given, [synced] how much of
    it is known to be on disk.  An environment says how the next file
    operations end: [None] is success, [Some n] a failure, of a write after [n]
    bytes. *)
Record file := MkFile { written : bytes; synced : Z }.
Definition outcomes : Type := list (option nat).

Record Writer := MkWriter { buf : bytes; werr : bool }.
Definition bufSize : Z := 4096.

Definition file_write (p : bytes) (io : outcomes) (f : file) : file * outcomes * bool :=
  match io with
  | Some n :: io' => (MkFile (f.(written) ++ take n p) f.(synced), io', false)
  | None :: io' => (MkFile (f.(written) ++ p) f.(synced), io', true)
  | [] => (MkFile (f.(written) ++ p) f.(synced), [], true)
  end.
Definition file_sync (io : outcomes) (f : file) : file * outcomes * bool :=
  match io with
  | Some _ :: io' => (f, io', false)
  | None :: io' => (MkFile f.(written) (len f.(written)), io', true)
  | [] => (MkFile f.(written) (len f.(written)), [], true)
  end.

(** [bufio.Writer.Flush]: after a failed write the unwritten bytes stay and the
    writer refuses everything. *)
Definition Flush (io : outcomes) (w : Writer) (f : file) : Writer * file * outcomes * bool :=
  if w.(werr) then (w, f, io, false)
  else match w.(buf) with
  | [] => (w, f, io, true)
  | _ =>
      let n := match io with Some n :: _ => n | _ => length w.(buf) end in
      let '(f, io, fine) := file_write w.(buf) io f in
      if fine then (MkWriter [] false, f, io, true) else (MkWriter (drop n w.(buf)) true, f, io, false)
  end.

(** [bufio.Writer.Write]: fills and flushes the buffer until the rest fits. *)
Fixpoint buf_write (fuel : nat) (p : bytes) (io : outcomes) (w : Writer) (f : file) : Writer * file * outcomes * bool :=
  if w.(werr) then (w, f, io, false)
  else
    let avail := bufSize - len w.(buf) in
    if len p <=? avail then (MkWriter (w.(buf) ++ p) false, f, io, true)
    else match fuel with
    | O => (w, f, io, false)
    | S fuel =>
        match w.(buf) with
        | [] => let '(f, io, fine) := file_write p io f in (MkWriter [] (negb fine), f, io, fine)
        | _ =>
            let n := Z.to_nat avail in
            let '(w, f, io, fine) := Flush io (MkWriter (w.(buf) ++ take n p) false) f in
            if fine then buf_write fuel (drop n p) io w f else (w, f, io, false)
        end
    end.

(** ** The idempotent file sink (idempotent_sink.go) *)
Record IdempotentFileSink := MkIdem { w : Writer; hwm : option bytes }.

(** [ctx] is the number of records after which the context is found cancelled. *)
Definition cancelled (ctx : option nat) (i : nat) : bool := match ctx with Some n => (n <=? i)%nat | None => false end.
Definition delivered (hwm : option bytes) (r : Record_) : bool :=
  match hwm with Some h => bleb r.(RKey) h | None => false end.

Fixpoint encode_all (ctx : option nat) (i : nat) (hwm maxKey : option bytes) (batch : list Record_) (io : outcomes) (w : Writer) (f : file)
    : Writer * file * outcomes * option (option bytes) :=
  match batch with
  | [] => (w, f, io, Some maxKey)
  | r :: batch' =>
      if cancelled ctx i then (w, f, io, None)
      else if delivered hwm r then encode_all ctx (S i) hwm maxKey batch' io w f
      else
        let '(w, f, io, fine) := buf_write 3 (line r) io w f in
        if fine then
          let maxKey := match maxKey with
                        | Some m => if bltb m r.(RKey) then Some r.(RKey) else maxKey
                        | None => Some r.(RKey)
                        end in
          encode_all ctx (S i) hwm maxKey batch' io w f
        else (w, f, io, None)
  end.

Definition Send (ctx : option nat) (batch : list Record_) (io : outcomes) (s : IdempotentFileSink) (f : file)
    : IdempotentFileSink * file * bool :=
  let '(w1, f, io, res) := encode_all ctx 0 s.(hwm) None batch io s.(w) f in
  match res with
  | None => (MkIdem w1 s.(hwm), f, false)
  | Some None => (MkIdem w1 s.(hwm), f, true)
  | Some (Some m) =>
      let '(w2, f, io, fine) := Flush io w1 f in
      if negb fine then (MkIdem w2 s.(hwm), f, false)
      else
        let '(f, _, fine) := file_sync io f in
        if fine then (MkIdem w2 (Some m), f, true) else (MkIdem w2 s.(hwm), f, false)
  end.

(** [recoverHWM]: the key of the last line that parses; [None] is a line that
    does not fit the scanner's buffer. *)
Definition last_key (hwm : option bytes) (l : bytes) : option bytes :=
  match Unmarshal file_fields (MkFileRecord None None) l with Some r => r.(FKey) | None => hwm end.
Definition recoverHWM (content : bytes) : option (option bytes) :=
  let '(ls, fine) := Rec.scan_lines (2 ^ 24) (Rec.raw_lines content) in
  if fine then Some (foldl last_key None ls) else None.
Definition NewIdempotentFileSink (f : file) : option IdempotentFileSink :=
  h ← recoverHWM f.(written); Some (MkIdem (MkWriter [] false) h).

(** The plain file sink (file_sink.go). *)
Definition FileSend (ctx : option nat) (batch : list Record_) (io : outcomes) (w0 : Writer) (f : file) : Writer * file * bool :=
  let '(w1, f, io, res) := encode_all ctx 0 None None batch io w0 f in
  match res with
  | None => (w1, f, false)
  | Some _ =>
      let '(w2, f, io, fine) := Flush io w1 f in
      if fine then let '(f, _, fine) := file_sync io f in (w2, f, fine) else (w2, f, false)
  end.

(** ** The source (source.go) *)
Notation kvs := (gmap bytes bytes).
(** [KVServer.Scan] from [cursor] on, without predicate or upper bound. *)
Definition kv_scan (m : kvs) (cursor : bytes) (limit : Z) : list (bytes * bytes) :=
  let limit := if (limit <=? 0) || (Kv.maxScanResults <? limit) then Kv.maxScanResults else limit in
  take (Z.to_nat limit) (List.filter (fun kv => bleb cursor kv.1) (Job.sorted_entries m)).

Definition has_prefix (p s : bytes) : bool := beqb (take (length p) s) p.
Definition reserved (k : bytes) : bool := has_prefix Kv.ReservedPrefix k.

(** A copied value: an empty one becomes [nil]. *)
Definition copied (v : bytes) : option bytes := match v with [] => None | _ => Some v end.

Fixpoint collect (limit : Z) (batch : list Record_) (lastScanned : option bytes) (entries : list (bytes * bytes))
    : list Record_ * option bytes :=
  match entries with
  | [] => (batch, lastScanned)
  | (k, v) :: es =>
      if reserved k then collect limit batch (Some k) es
      else
        let batch := batch ++ [MkRecord k (copied v)] in
        if limit <=? len batch then (batch, Some k) else collect limit batch (Some k) es
  end.

(** A copied key: an empty one becomes [nil], as if nothing had been scanned. *)
Definition Fetch (m : kvs) (cursor : bytes) (limit : Z) : list Record_ * bytes :=
  let '(batch, lastScanned) := collect limit [] None (kv_scan m cursor (limit + 1)) in
  (batch, match lastScanned with None | Some [] => cursor | Some k => k ++ [byte.of_Z 0] end).

(** ** Offsets (offset/store.go, offset_committer.go) *)
Definition offsetKey (sink : bytes) : bytes := Kv.ReservedPrefix ++ sink.
(** A read error and an absent key both mean: from the beginning. *)
Definition Load (sink : bytes) (m : kvs) : bytes := default [] (m !! offsetKey sink).
Definition Commit (fault : Rec.fault) (sink cursor : bytes) (m : kvs) : kvs * bool :=
  match fault with
  | Rec.Fine => (<[offsetKey sink := cursor]> m, true)
  | Rec.Lost => (m, false)
  | Rec.Unheard => (<[offsetKey sink := cursor]> m, false)
  end.

(** ** The deliverer (deliverer.go) *)
Record Deliverer := MkDeliverer { sinkName : bytes; batchSize : Z; cursor : bytes }.
Definition NewDelivererWithOffset (sinkName : bytes) (batchSize : Z) : Deliverer :=
  MkDeliverer sinkName (if batchSize <=? 0 then 1 else batchSize) [].
(** [Run] starts from the committed offset. *)
Definition start (m : kvs) (d : Deliverer) : Deliverer := MkDeliverer d.(sinkName) d.(batchSize) (Load d.(sinkName) m).

Section Deliver.
(** The target: what a batch does to its state, and whether it was acknowledged. *)
Context {T : Type} (send : list Record_ -> T -> T * bool).

Definition deliverOnce (gate : bool) (fault : Rec.fault) (d : Deliverer) (t : T) (m : kvs) : Deliverer * T * kvs :=
  if negb gate then (d, t, m)
  else
    let '(batch, next) := Fetch m d.(cursor) d.(batchSize) in
    match batch with
    | [] => (d, t, m)
    | _ =>
        let '(t, acked) := send batch t in
        if negb acked then (d, t, m)
        else
          let '(m, committed) := Commit fault d.(sinkName) next m in
          if committed then (MkDeliverer d.(sinkName) d.(batchSize) next, t, m) else (d, t, m)
    end.
End Deliver.

(** ** Circuit breakers (governance/breaker.go) *)
Inductive bstate := stateClosed | stateOpen | stateHalfOpen.
Record Breaker := MkBreaker {
  failThreshold : Z; openTimeout : Z;
  st : bstate; failures : Z; openedAt : Z; probeInFlight : bool }.

Definition NewBreaker (threshold timeout : Z) : Breaker :=
  MkBreaker (if threshold <=? 0 then 1 else threshold) (if timeout <=? 0 then 1000000000 else timeout) stateClosed 0 0 false.
Definition Allow (now : Z) (b : Breaker) : Breaker * bool :=
  match b.(st) with
  | stateClosed => (b, true)
  | stateOpen =>
      if now - b.(openedAt) <? b.(openTimeout) then (b, false)
      else (MkBreaker b.(failThreshold) b.(openTimeout) stateHalfOpen b.(failures) b.(openedAt) true, true)
  | stateHalfOpen =>
      if b.(probeInFlight) then (b, false)
      else (MkBreaker b.(failThreshold) b.(openTimeout) stateHalfOpen b.(failures) b.(openedAt) true, true)
  end.
Definition OnSuccess (b : Breaker) : Breaker := MkBreaker b.(failThreshold) b.(openTimeout) stateClosed 0 b.(openedAt) false.
Definition trip (now : Z) (b : Breaker) : Breaker := MkBreaker b.(failThreshold) b.(openTimeout) stateOpen b.(failures) now false.
Definition OnFailure (now : Z) (b : Breaker) : Breaker :=
  match b.(st) with
  | stateHalfOpen => trip now b
  | stateClosed =>
      let b := MkBreaker b.(failThreshold) b.(openTimeout) stateClosed (b.(failures) + 1) b.(openedAt) b.(probeInFlight) in
      if b.(failThreshold) <=? b.(failures) then trip now b else b
  | stateOpen => b
  end.

(** ** Routing (governance/router.go)

    A sink is the state [T] it keeps, whether it reports itself healthy, and
    what sending does. *)
Class Sink (T : Type) := { sink_send : list Record_ -> T -> T * bool; sink_healthy : T -> bool }.

Section Route.
Context {T : Type} `{!Sink T}.
Record Router := MkRouter { sinks : list (T * Breaker); next : Z; priority : bool }.

Definition NewRouter (ts : list T) (threshold timeout : Z) : Router :=
  MkRouter (map (fun t => (t, NewBreaker threshold timeout)) ts) 0 false.
Definition NewPriorityRouter (ts : list T) (threshold timeout : Z) : Router :=
  MkRouter (map (fun t => (t, NewBreaker threshold timeout)) ts) 0 true.

Inductive route_result := Sent (idx : nat) | NoHealthySink | AllFailed.

(** One sink of the round: skipped, failed, or delivered to. *)
Definition try_sink (now : Z) (batch : list Record_) (tb : T * Breaker) : (T * Breaker) * option bool :=
  let '(t, b) := tb in
  if negb (sink_healthy t) then ((t, b), None)
  else
    let '(b, ok) := Allow now b in
    if negb ok then ((t, b), None)
    else
      let '(t, acked) := sink_send batch t in
      if acked then ((t, OnSuccess b), Some true) else ((t, OnFailure now b), Some false).

Fixpoint route (now : Z) (batch : list Record_) (idxs : list nat) (attempted : bool) (l : list (T * Breaker))
    : list (T * Breaker) * route_result :=
  match idxs with
  | [] => (l, if attempted then AllFailed else NoHealthySink)
  | i :: idxs' =>
      match l !! i with
      | None => (l, NoHealthySink)
      | Some tb =>
          let '(tb, res) := try_sink now batch tb in
          let l := <[i := tb]> l in
          match res with
          | Some true => (l, Sent i)
          | Some false => route now batch idxs' true l
          | None => route now batch idxs' attempted l
          end
      end
  end.

(** The order in which the sinks are tried. *)
Definition round (start n : nat) : list nat := map (fun i => (start + i) mod n)%nat (seq 0 n).

Definition RouterSend (now : Z) (batch : list Record_) (r : Router) : Router * route_result :=
  let n := length r.(sinks) in
  if (n =? 0)%nat then (r, NoHealthySink)
  else
    let start := if r.(priority) then 0%nat else Z.to_nat (r.(next) mod Z.of_nat n) in
    let next := if r.(priority) then r.(next) else u64 (r.(next) + 1) in
    let '(l, res) := route now batch (round start n) false r.(sinks) in
    (MkRouter l next r.(priority), res).
End Route.
Arguments Router T : clear implicits.

(** ** Retrying (governance/retry.go)

    [fn] is what the i-th call answers ([None] is success), [cancel] the
    attempt after which the context is found cancelled while waiting. *)
Fixpoint retry_from {E} (fn : nat -> option E) (cancel : option nat) (ctxErr : E) (i left : nat) : nat * option E :=
  match left with
  | O => (i, None)
  | S left' =>
      match fn i with
      | None => (S i, None)
      | Some e =>
          match left' with
          | O => (S i, Some e)
          | _ => if bool_decide (cancel = Some i) then (S i, Some ctxErr) else retry_from fn cancel ctxErr (S i) left'
          end
      end
  end.
(** The number of calls made, and the error returned. *)
Definition WithRetry {E} (attempts : Z) (fn : nat -> option E) (cancel : option nat) (ctxErr : E) : nat * option E :=
  retry_from fn cancel ctxErr 0 (Z.to_nat (if attempts <=? 0 then 1 else attempts)).

End Dlv.
