(* ===== verification/DeliverySpec.v ===== *)
(** * Delivery: every record once, in order

    The delivered file, the committed offset and the store, over every
    interleaving of rounds, arrivals, failed commits, crashes and restarts. *)
From stdpp Require Import sorting.
From S2P Require Import Prelude Bytes Json JsonSpec JobSpec JobCodec KVServer Reconciler JobRun Delivery.

Module DlvSpec.
Import Json JsonSpec Dlv.

(** ** base64 *)
Lemma unsextet_sextet d : 0 <= d < 64 -> unsextet (sextet d) = Some d /\ sextet d <> pad /\ (#(sextet d) <? 128) = true /\
  ((#(sextet d) =? 10) || (#(sextet d) =? 13)) = false.
Proof.
  intros H. assert (forallb (fun n => let d := Z.of_nat n in bool_decide (unsextet (sextet d) = Some d) && negb (bool_decide (sextet d = pad)) &&
    (#(sextet d) <? 128) && negb ((#(sextet d) =? 10) || (#(sextet d) =? 13))) (seq 0 64) = true) as Hall by (vm_compute; reflexivity).
  rewrite forallb_forall in Hall. specialize (Hall (Z.to_nat d)). cbv zeta in Hall. rewrite Z2Nat.id in Hall by lia.
  destruct (andb_prop _ _ (Hall ltac:(apply in_seq; lia))) as [H1 H4]. apply andb_prop in H1 as [H1 H3]. apply andb_prop in H1 as [H1 H2].
  apply bool_decide_eq_true in H1. apply negb_true_iff, bool_decide_eq_false in H2. apply negb_true_iff in H4. done.
Qed.

Lemma byte_parts (x : byte) : 0 <= #x / 4 < 64 /\ 0 <= #x mod 4 < 4 /\ 0 <= #x / 16 < 16 /\ 0 <= #x mod 16 < 16 /\ 0 <= #x / 64 < 4 /\ 0 <= #x mod 64 < 64.
Proof.
  pose proof (byte.unsigned_range x). repeat split; try (apply Z.mod_pos_bound; lia); try (apply Z.div_pos; lia); apply Z.div_lt_upper_bound; lia.
Qed.
Lemma of_Z_eq (x : byte) z : z = #x -> byte.of_Z z = x.
Proof. intros ->. apply byte.of_Z_unsigned. Qed.

(** Induction three bytes at a time. *)
Lemma three_ind (P : bytes -> Prop) : P [] -> (forall x, P [x]) -> (forall x y, P [x; y]) ->
  (forall x y z t, P t -> P (x :: y :: z :: t)) -> forall s, P s.
Proof.
  intros H0 H1 H2 H3. fix IH 1. intros [|x [|y [|z t]]]; [done|done|done|]. apply H3, IH.
Qed.

Ltac quad := repeat match goal with
  | |- context [unsextet (sextet ?d)] => rewrite (proj1 (unsextet_sextet d ltac:(lia))); cbn [mbind option_bind]
  | |- context [bool_decide (sextet ?d = pad)] => rewrite (bool_decide_false (sextet d = pad)) by (apply (unsextet_sextet d); lia)
  end.

Lemma b64_quads_encode s : b64_quads (b64_encode s) = Some s.
Proof.
  induction s as [|x|x y|x y z t IH] using three_ind; [done| | |]; pose proof (byte_parts x) as Hx;
    [|pose proof (byte_parts y) as Hy|pose proof (byte_parts y) as Hy; pose proof (byte_parts z) as Hz];
    cbn [b64_encode b64_quads]; quad.
  - do 2 f_equal. apply of_Z_eq. Z.to_euclidean_division_equations; lia.
  - f_equal. f_equal; [|f_equal]; apply of_Z_eq; Z.to_euclidean_division_equations; lia.
  - rewrite IH. cbn [mbind option_bind]. f_equal.
    f_equal; [|f_equal; [|f_equal]]; apply of_Z_eq; Z.to_euclidean_division_equations; lia.
Qed.

Definition plain (b : byte) : Prop := (#b <? 128) = true /\ ((#b =? 10) || (#b =? 13)) = false.
Lemma b64_plain s : Forall plain (b64_encode s).
Proof.
  assert (Hs : forall d, 0 <= d < 64 -> plain (sextet d)) by (intros d Hd; by apply unsextet_sextet).
  induction s as [|x|x y|x y z t IH] using three_ind; [constructor| | |]; pose proof (byte_parts x) as Hx;
    [|pose proof (byte_parts y) as Hy|pose proof (byte_parts y) as Hy; pose proof (byte_parts z) as Hz];
    cbn [b64_encode]; repeat constructor; try (apply Hs; lia); exact IH.
Qed.
Lemma b64_roundtrip s : b64_decode (b64_encode s) = Some s.
Proof.
  unfold b64_decode. replace (List.filter _ (b64_encode s)) with (b64_encode s); [apply b64_quads_encode|].
  pose proof (b64_plain s) as H. induction H as [|b l [_ Hb] _ IH]; [done|]. cbn [List.filter]. rewrite Hb. cbn [negb]. by f_equal.
Qed.
Lemma ascii_valid s : Forall (fun b => (#b <? 128) = true) s -> Valid s.
Proof. induction 1 as [|b l Hb _ IH]; [constructor|]. apply (V_rune _ 0); [by apply rune_len_ascii|done]. Qed.
Lemma b64_valid s : to_valid (b64_encode s) = b64_encode s.
Proof. apply to_valid_id, ascii_valid. eapply Forall_impl; [apply b64_plain|]. by intros b [? _]. Qed.

(** ** Lines *)
Definition document (r : Record_) : json := JObj [(str "key", json_bytes (Some r.(RKey))); (str "value", json_bytes r.(RValue))].
Definition body (r : Record_) : bytes := print (document r).
Lemma line_body r : line r = body r ++ [newline].
Proof. reflexivity. Qed.

Lemma wf_bytes n v : wf n (json_bytes v).
Proof. destruct v; constructor. Qed.
Lemma sanitize_bytes v : sanitize (json_bytes v) = json_bytes v.
Proof. destruct v as [s|]; [|done]. cbn [json_bytes sanitize]. by rewrite b64_valid. Qed.
Lemma set_bytes_json {A} (put : option bytes -> A -> A) v a : set_bytes put (json_bytes v) a = Some (put v a).
Proof. destruct v as [s|]; [|done]. cbn [json_bytes set_bytes]. by rewrite b64_roundtrip. Qed.

Lemma read_line r : Unmarshal file_fields (MkFileRecord None None) (body r) = Some (MkFileRecord (Some r.(RKey)) r.(RValue)).
Proof.
  unfold body. rewrite (JobCodec.unmarshal_print _ _ 1); [|by repeat constructor; apply wf_bytes|by vm_compute].
  unfold document. cbn [sanitize decode_struct map fst snd]. rewrite !sanitize_bytes. JobCodec.valid_names.
  erewrite (JobCodec.set_field_at _ 0%nat); [|reflexivity|vm_compute; reflexivity|reflexivity|apply set_bytes_json].
  erewrite (JobCodec.set_field_at _ 1%nat); [|reflexivity|vm_compute; reflexivity|reflexivity|apply set_bytes_json].
  reflexivity.
Qed.

(** *** No control bytes inside a line *)
Definition printable (b : byte) : Prop := 32 <= #b.
Lemma esc_printable b : (#b <? 128) = true -> Forall printable (esc b).
Proof. destruct b; intros H; first [discriminate H | repeat constructor; unfold printable; vm_compute; discriminate]. Qed.
Lemma rune_printable s n : rune_len s = S (S n) -> Forall printable (take (S (S n)) s).
Proof.
  unfold printable. intros H. destruct s as [|a [|b [|c [|d s]]]]; unfold rune_len in H;
    repeat match type of H with context [if ?x then _ else _] => destruct x eqn:? end; try discriminate H;
    injection H as <-; unfold between in *; cbn [take];
    repeat (apply Forall_cons_2; [cbv beta in *; repeat case_match; lia|]); apply Forall_nil_2.
Qed.
Lemma quote_body_printable f s : Forall printable (quote_body f s).
Proof.
  revert s; induction f as [|f IH]; intros [|b s]; try constructor. cbn [quote_body].
  destruct (#b <? 128) eqn:Hb; [apply Forall_app; split; [by apply esc_printable|done]|].
  destruct (rune_len (b :: s)) as [|n] eqn:Hr; apply Forall_app; (split; [|done]).
  - repeat constructor; unfold printable; vm_compute; discriminate.
  - destruct (rune_len_wide _ _ _ Hb Hr) as [m ->]. unfold esc_rune.
    repeat case_match; try (repeat constructor; unfold printable; vm_compute; discriminate). by apply rune_printable.
Qed.
Lemma quote_printable s : Forall printable (quote s).
Proof.
  unfold quote. constructor; [by vm_compute|]. apply Forall_app. split; [apply quote_body_printable|]. by repeat constructor.
Qed.
Lemma str_printable s : forallb (fun b => 32 <=? #b) (str s) = true -> Forall printable (str s).
Proof. intros H. apply Forall_forall. intros b Hb. rewrite forallb_forall in H. apply Z.leb_le, H. by apply list_elem_of_In. Qed.

Lemma body_printable r : Forall printable (body r).
Proof.
  unfold body, document. cbn [print map commas fst snd].
  assert (Hv : forall v, Forall printable (print (json_bytes v))).
  { intros [s|]; cbn [json_bytes print]; [apply quote_printable|by apply str_printable]. }
  repeat (apply Forall_app; split); try (by apply str_printable); try apply quote_printable; apply Hv.
Qed.

Lemma raw_lines_app l t : Forall printable l -> Rec.raw_lines (l ++ newline :: t) = l :: Rec.raw_lines t.
Proof.
  induction 1 as [|b l Hb _ IH]; cbn [app Rec.raw_lines].
  - by rewrite bool_decide_true by done.
  - rewrite bool_decide_false, IH; [done|]. intros ->. by vm_compute in Hb.
Qed.
Lemma raw_lines_concat rs : Rec.raw_lines (concat (map line rs)) = map body rs.
Proof.
  induction rs as [|r rs IH]; [done|]. cbn [map concat]. rewrite line_body, <- app_assoc. cbn [app].
  by rewrite raw_lines_app, IH by apply body_printable.
Qed.

Lemma drop_cr_body r : Rec.drop_cr (body r) = body r.
Proof.
  unfold Rec.drop_cr, body, document. pose proof (print_obj [(str "key", json_bytes (Some r.(RKey))); (str "value", json_bytes r.(RValue))] []) as E.
  rewrite app_nil_r in E. rewrite E, app_comm_cons, rev_app_distr. cbn [rev app]. reflexivity.
Qed.
(** The last key of a file of whole lines. *)
Definition fits (r : Record_) : Prop := len (body r) < 2 ^ 24.
Lemma recover_lines rs : Forall fits rs -> recoverHWM (concat (map line rs)) = Some (RKey <$> last rs).
Proof.
  intros H. unfold recoverHWM. rewrite raw_lines_concat.
  assert (Rec.scan_lines (2 ^ 24) (map body rs) = (map body rs, true)) as ->.
  { induction H as [|r rs Hr _ IH]; [done|]. cbn [map Rec.scan_lines]. rewrite (proj2 (Z.leb_gt _ _)) by exact Hr.
    by rewrite IH, drop_cr_body. }
  f_equal. clear H. induction rs as [|r rs IH] using rev_ind; [done|].
  rewrite map_app, foldl_app, last_snoc. cbn [map foldl fmap option_fmap option_map]. unfold last_key at 1. by rewrite read_line.
Qed.

(** ** The buffer *)
Definition buffered (w : Writer) : Prop := w.(werr) = false /\ len w.(buf) <= bufSize.
(** Without faults, everything written is in the file or in the buffer. *)
Lemma buf_write_ok p w f : buffered w ->
  exists w' f', buf_write 3 p [] w f = (w', f', [], true) /\ buffered w' /\
    f'.(written) ++ w'.(buf) = f.(written) ++ w.(buf) ++ p.
Proof.
  assert (Hsmall : forall k p w f, buffered w -> len p <= bufSize - len w.(buf) ->
    exists w' f', buf_write k p [] w f = (w', f', [], true) /\ buffered w' /\ f'.(written) ++ w'.(buf) = f.(written) ++ w.(buf) ++ p).
  { intros k q v g [Hv Hl] Hq. exists (MkWriter (v.(buf) ++ q) false), g. destruct k; cbn [buf_write]; rewrite Hv, (proj2 (Z.leb_le _ _)) by done;
      (split; [done|]); (split; [|done]); split; try done; cbn [buf]; rewrite len_app; lia. }
  assert (Hempty : forall k p f, exists w' f', buf_write (S k) p [] (MkWriter [] false) f = (w', f', [], true) /\ buffered w' /\
    f'.(written) ++ w'.(buf) = f.(written) ++ p).
  { intros k q g. destruct (Z.le_gt_cases (len q) bufSize) as [Hq|Hq].
    - destruct (Hsmall (S k) q (MkWriter [] false) g) as (w' & f' & E); [split; [done|by vm_compute]|cbn [buf]; rewrite len_nil; lia|]. exists w', f'. exact E.
    - eexists _, _. cbn [buf_write werr buf]. rewrite len_nil, Z.sub_0_r, (proj2 (Z.leb_gt _ _)) by lia.
      cbn [file_write negb]. split; [done|]. split; [split; [done|by vm_compute]|]. cbn [written buf]. by rewrite app_nil_r. }
  intros Hw. pose proof Hw as [Hw1 Hw2]. destruct (Z.le_gt_cases (len p) (bufSize - len w.(buf))) as [Hp|Hp]; [by apply Hsmall|].
  destruct w as [b e]. cbn [werr buf] in *. subst e. destruct b as [|x b].
  { destruct (Hempty 2%nat p f) as (w' & f' & E). exists w', f'. exact E. }
  set (n := Z.to_nat (bufSize - len (x :: b))).
  destruct (Hempty 1%nat (drop n p) (MkFile (f.(written) ++ (x :: b) ++ take n p) f.(synced))) as (w' & f' & E & Hb & Hc).
  exists w', f'. change (buf_write 3 p [] (MkWriter (x :: b) false) f) with
    (if len p <=? bufSize - len (x :: b) then (MkWriter ((x :: b) ++ p) false, f, [] : outcomes, true)
     else buf_write 2 (drop n p) [] (MkWriter [] false) (MkFile (f.(written) ++ (x :: b) ++ take n p) f.(synced))).
  rewrite (proj2 (Z.leb_gt _ _)) by lia. split; [done|]. split; [done|]. rewrite Hc. cbn [written buf].
  by rewrite <- !app_assoc, take_drop.
Qed.

(** ** Sending *)
Definition key_lt (a b : Record_) : Prop := blt a.(RKey) b.(RKey).
Definition fresh (h : option bytes) (batch : list Record_) : list Record_ := List.filter (fun r => negb (delivered h r)) batch.

Lemma encode_all_ok i h mk batch w f : buffered w -> StronglySorted key_lt batch ->
  (forall m r, mk = Some m -> r ∈ batch -> blt m r.(RKey)) ->
  exists w' f', encode_all None i h mk batch [] w f =
      (w', f', [], Some (match last (fresh h batch) with Some r => Some r.(RKey) | None => mk end)) /\
    buffered w' /\ f'.(written) ++ w'.(buf) = f.(written) ++ w.(buf) ++ concat (map line (fresh h batch)) /\
    (fresh h batch = [] -> w' = w /\ f' = f).
Proof.
  revert i mk w f; induction batch as [|r batch IH]; intros i mk w f Hw Hs Hm.
  { exists w, f. cbn. by rewrite !app_nil_r. }
  apply StronglySorted_inv in Hs as [Hs Hr]. rewrite Forall_forall in Hr. cbn [encode_all cancelled].
  unfold fresh. cbn [List.filter]. fold (fresh h batch). destruct (delivered h r) eqn:Ed; cbn [negb].
  - apply IH; [done|done|]. intros m r' Em Hr'. apply (Hm m r' Em). by apply list_elem_of_further.
  - destruct (buf_write_ok (line r) w f Hw) as (w1 & f1 & -> & Hw1 & Hc1).
    assert ((match mk with Some m => if bltb m (RKey r) then Some (RKey r) else mk | None => Some (RKey r) end) = Some (RKey r)) as ->.
    { destruct mk as [m|]; [|done]. by rewrite (proj2 (bltb_lt _ _)) by (apply Hm; [done|apply list_elem_of_here]). }
    destruct (IH (S i) (Some (RKey r)) w1 f1 Hw1 Hs) as (w2 & f2 & -> & Hw2 & Hc2 & _).
    { intros m r' [= <-] Hr'. by apply Hr. }
    exists w2, f2. split; [|split; [done|split; [|done]]].
    + destruct (fresh h batch) as [|r' l]; [done|]. change (last (r :: r' :: l)) with (last (r' :: l)).
      destruct (last (r' :: l)) eqn:El; [done|]. by apply last_None in El.
    + rewrite Hc2. cbn [map concat]. by rewrite (assoc_L (++) f1.(written)), Hc1, <- !app_assoc.
Qed.

Definition idle (s : IdempotentFileSink) : Prop := s.(w) = MkWriter [] false.

(** A batch in key order is appended, less what is at or below the high-water
    mark, and the mark moves to its last key. *)
Lemma send_ok batch s f : idle s -> StronglySorted key_lt batch ->
  exists s' f', Send None batch [] s f = (s', f', true) /\ idle s' /\
    s'.(hwm) = match last (fresh s.(hwm) batch) with Some r => Some r.(RKey) | None => s.(hwm) end /\
    f'.(written) = f.(written) ++ concat (map line (fresh s.(hwm) batch)).
Proof.
  intros Hi Hs. unfold Send. rewrite Hi.
  destruct (encode_all_ok 0 s.(hwm) None batch (MkWriter [] false) f) as (w1 & f1 & -> & [He Hl] & Hc & H0); [split; [done|by vm_compute]|done|done|].
  cbn [buf app] in Hc. destruct (last (fresh (hwm s) batch)) as [r|] eqn:El.
  - unfold Flush. rewrite He. destruct w1 as [[|x b] e]; cbn [buf werr] in *; subst e.
    + eexists _, _. cbn [file_sync negb]. split; [done|]. split; [done|]. split; [done|]. cbn [written]. by rewrite app_nil_r in Hc.
    + eexists _, _. cbn [file_write file_sync negb]. split; [done|]. split; [done|]. split; [done|]. cbn [written]. done.
  - apply last_None in El. rewrite El in *. cbn [map concat] in Hc. rewrite app_nil_r in Hc.
    destruct (H0 eq_refl) as [-> ->].
    eexists _, _. split; [done|]. split; [done|]. split; [done|]. cbn. by rewrite app_nil_r.
Qed.

(** ** Fetching *)
Definition zero : byte := byte.of_Z 0.
(** The cursor past a key. *)
Lemma blt_succ k l : blt k (l ++ [zero]) <-> ble k l.
Proof.
  assert (H1 : forall l, blt l (l ++ [zero])).
  { intros x. unfold blt. rewrite <- (app_nil_r x) at 1. by rewrite compare_app_same. }
  assert (H2 : forall l k, blt l k -> ble (l ++ [zero]) k).
  { intros x. induction x as [|a x IH]; intros [|b y] H; unfold blt, ble in *; simpl in *; try done.
    - pose proof (byte.unsigned_range b). destruct (#b); [by destruct y|done|lia].
    - destruct (#a ?= #b); try done. by apply IH. }
  split; intros H.
  - destruct (ble_total k l) as [?|Hle]; [done|]. apply ble_lteq in Hle as [Hlt| ->]; [|apply ble_refl].
    apply H2 in Hlt. border.
  - eapply ble_blt_trans; [exact H|apply H1].
Qed.

Definition entry_lt (a b : bytes * bytes) : Prop := blt a.1 b.1.
Lemma entries_strict (m : kvs) : StronglySorted entry_lt (Job.sorted_entries m).
Proof.
  pose proof (JobCodec.sorted_entries_keys m) as Hn.
  assert (StronglySorted Job.key_le (Job.sorted_entries m)) as Hs.
  { apply StronglySorted_merge_sort; [|intros a b; apply ble_total]. intros a b c. apply ble_trans. }
  induction Hs as [|x l Hs IH Hx]; [constructor|]. apply NoDup_cons in Hn as [Hk Hn]. constructor; [by apply IH|].
  rewrite Forall_forall in *. intros y Hy. pose proof (Hx y Hy) as Hle. apply ble_lteq in Hle as [?|E]; [done|].
  destruct Hk. rewrite E. apply list_elem_of_fmap. eauto.
Qed.

Definition pending (m : kvs) (c : bytes) : list (bytes * bytes) := List.filter (fun kv => bleb c kv.1) (Job.sorted_entries m).
Lemma pending_elem m c k v : (k, v) ∈ pending m c <-> m !! k = Some v /\ ble c k.
Proof.
  unfold pending. rewrite list_elem_of_In, filter_In, <- list_elem_of_In, JobCodec.sorted_entries_elem. cbn [fst]. by rewrite bleb_le.
Qed.

Definition business (kv : bytes * bytes) : bool := negb (reserved kv.1).
Definition records (l : list (bytes * bytes)) : list Record_ := map (fun kv => MkRecord kv.1 (copied kv.2)) (List.filter business l).

Lemma records_cons k v l : records ((k, v) :: l) = if reserved k then records l else MkRecord k (copied v) :: records l.
Proof. unfold records, business. cbn [List.filter fst]. by destruct (reserved k). Qed.

(** The loop takes a prefix of what was scanned. *)
Lemma collect_prefix limit acc ls l : exists pre suf, l = pre ++ suf /\
  collect limit acc ls l = (acc ++ records pre, match last pre with Some kv => Some kv.1 | None => ls end) /\
  (suf = [] \/ limit <= len (acc ++ records pre)).
Proof.
  revert acc ls; induction l as [|[k v] l IH]; intros acc ls; [exists [], []; cbn; rewrite app_nil_r; eauto|].
  assert (Hlast : forall (kv : bytes * bytes) pre, match last (kv :: pre) with Some kv => Some kv.1 | None => ls end =
    match last pre with Some kv => Some kv.1 | None => Some kv.1 end).
  { intros kv [|x pre]; [done|]. change (last (kv :: x :: pre)) with (last (x :: pre)).
    destruct (last (x :: pre)) eqn:E; [done|]. by apply last_None in E. }
  cbn [collect]. destruct (reserved k) eqn:Er.
  - destruct (IH acc (Some k)) as (pre & suf & -> & -> & H). exists ((k, v) :: pre), suf. split; [done|].
    rewrite Hlast, records_cons, Er. split; [done|exact H].
  - destruct (Z.leb_spec limit (len (acc ++ [MkRecord k (copied v)]))) as [Hl|Hl].
    + exists [(k, v)], l. split; [done|]. rewrite records_cons, Er. split; [done|by right].
    + destruct (IH (acc ++ [MkRecord k (copied v)]) (Some k)) as (pre & suf & -> & -> & H). exists ((k, v) :: pre), suf. split; [done|].
      rewrite Hlast, records_cons, Er. rewrite <- app_assoc in *. done.
Qed.

Lemma prefix_of_sorted (pre suf : list (bytes * bytes)) kv x : StronglySorted entry_lt (pre ++ suf) -> last pre = Some kv ->
  x ∈ pre ++ suf -> ble x.1 kv.1 -> x ∈ pre.
Proof.
  intros Hs Hl Hx Hle. apply elem_of_app in Hx as [?|Hx]; [done|].
  pose proof (StronglySorted_app_1_elem_of _ _ _ kv x Hs (JobRun.last_elem _ _ Hl) Hx) as H. unfold entry_lt in H. border.
Qed.

(** A fetched batch: the business records from the cursor up to the next cursor. *)
Record fetched (m : kvs) (c : bytes) (batch : list Record_) (next : bytes) : Prop := {
  f_sorted : StronglySorted key_lt batch;
  f_in : forall r, r ∈ batch -> exists v, m !! r.(RKey) = Some v /\ r.(RValue) = copied v /\ reserved r.(RKey) = false /\
           ble c r.(RKey) /\ blt r.(RKey) next;
  f_all : forall k v, m !! k = Some v -> reserved k = false -> ble c k -> blt k next -> exists r, r ∈ batch /\ r.(RKey) = k;
  f_forward : ble c next }.

Lemma records_sorted l : StronglySorted entry_lt l -> StronglySorted key_lt (records l).
Proof.
  intros H. unfold records. pose proof (StronglySorted_filter _ business l H) as H'. clear H.
  induction H' as [|x k Hs IH Hx]; [constructor|]. cbn [map].
  constructor; [done|]. apply Forall_forall. intros r (y & -> & Hy)%list_elem_of_fmap. rewrite Forall_forall in Hx. by apply (Hx y).
Qed.
Lemma records_elem l r : r ∈ records l <-> exists v, (r.(RKey), v) ∈ l /\ r.(RValue) = copied v /\ reserved r.(RKey) = false.
Proof.
  unfold records. rewrite list_elem_of_fmap. split.
  - intros ([k v] & -> & Hx). apply list_elem_of_In, filter_In in Hx as [Hx Hb]. exists v. cbn.
    split; [by apply list_elem_of_In|]. split; [done|]. by apply negb_true_iff in Hb.
  - intros (v & Hx & Hv & Hr). exists (r.(RKey), v). split; [destruct r; cbn in *; by rewrite Hv|].
    apply list_elem_of_In, filter_In. split; [by apply list_elem_of_In|]. unfold business. cbn. by rewrite Hr.
Qed.

Lemma fetch_ok m c limit batch next : m !! [] = None -> Fetch m c limit = (batch, next) -> fetched m c batch next.
Proof.
  intros H0. unfold Fetch, kv_scan. fold (pending m c). set (n := Z.to_nat _).
  destruct (collect_prefix limit [] None (take n (pending m c))) as (pre & suf & E & -> & _).
  assert (Hp : pending m c = pre ++ (suf ++ drop n (pending m c))) by (by rewrite (assoc_L (++)), <- E, take_drop).
  assert (Hs : StronglySorted entry_lt (pending m c)) by (apply StronglySorted_filter, entries_strict).
  assert (Hin : forall k v, (k, v) ∈ pre -> m !! k = Some v /\ ble c k).
  { intros k v Hk. apply pending_elem. rewrite Hp. apply elem_of_app. by left. }
  intros [= <- <-]. destruct (last pre) as [[lk lv]|] eqn:El.
  - destruct (Hin lk lv (JobRun.last_elem _ _ El)) as [Hlk Hc]. destruct lk as [|b lk]; [congruence|]. set (K := b :: lk) in *.
    split.
    + apply records_sorted. rewrite Hp in Hs. by eapply StronglySorted_app_1_l.
    + intros r (v & Hr & Hv & Hres)%records_elem. destruct (Hin _ _ Hr) as [Hm Hle]. exists v. split_and!; try done.
      apply blt_succ. rewrite Hp in Hs. apply StronglySorted_app_1_l in Hs. apply last_Some in El as [l ->].
      apply elem_of_app in Hr as [Hr|Hr%list_elem_of_singleton]; [|injection Hr as -> ->; apply ble_refl].
      apply blt_ble, (StronglySorted_app_1_elem_of _ _ _ _ (K, lv) Hs Hr). by apply list_elem_of_singleton.
    + intros k v Hk Hres Hle Hlt. apply blt_succ in Hlt. exists (MkRecord k (copied v)). split; [|done]. apply records_elem.
      exists v. split; [|done]. cbn [RKey]. eapply prefix_of_sorted; [rewrite <- Hp; exact Hs|exact El| |exact Hlt].
      rewrite <- Hp. by apply pending_elem.
    + apply ble_lteq. left. apply blt_succ. done.
  - apply last_None in El as ->. split; [constructor|by intros r Hr%not_elem_of_nil| |apply ble_refl].
    intros k v _ _ Hle Hlt. border.
Qed.

(** ** The system: deliverer, idempotent sink, file and store *)
Section System.
Context (name : bytes) (size : Z).

Record dstate := MkState { proc : option (Deliverer * IdempotentFileSink); disk : file; store : kvs }.

(** [Send] with a context that is not cancelled, whose writes and sync succeed. *)
Definition send_file (batch : list Record_) (t : IdempotentFileSink * file) : (IdempotentFileSink * file) * bool :=
  let '(s, f, ok) := Send None batch [] t.1 t.2 in ((s, f), ok).

(** A new record is ahead of delivery: not below the committed offset and above
    the last key in the file. *)
Definition ahead (k : bytes) (x : dstate) : Prop :=
  ble (Load name x.(store)) k /\ forall h, recoverHWM x.(disk).(written) = Some (Some h) -> blt h k.

Inductive dstep : dstate -> dstate -> Prop :=
| ds_tick d s f m gate fault d' s' f' m' : deliverOnce send_file gate fault d (s, f) m = (d', (s', f'), m') ->
    dstep (MkState (Some (d, s)) f m) (MkState (Some (d', s')) f' m')
| ds_crash p f m : dstep (MkState p f m) (MkState None f m)
| ds_crash_in_send d s f m batch next j z : Fetch m d.(cursor) d.(batchSize) = (batch, next) ->
    dstep (MkState (Some (d, s)) f m)
          (MkState None (MkFile (f.(written) ++ concat (map line (take j (fresh s.(hwm) batch)))) z) m)
| ds_restart f m s : NewIdempotentFileSink f = Some s ->
    dstep (MkState None f m) (MkState (Some (start m (NewDelivererWithOffset name size), s)) f m)
| ds_arrive p f m k v : k <> [] -> reserved k = false -> fits (MkRecord k (copied v)) ->
    (is_Some (m !! k) \/ ahead k (MkState p f m)) -> dstep (MkState p f m) (MkState p f (<[k := v]> m))
| ds_delete p f m k : reserved k = false -> dstep (MkState p f m) (MkState p f (delete k m))
| ds_other p f m k v : reserved k = true -> k <> offsetKey name -> dstep (MkState p f m) (MkState p f (<[k := v]> m)).

(** Everything below the offset or below a delivered key has been delivered. *)
Definition covered (out : list Record_) (c : bytes) (m : kvs) : Prop := forall k v, m !! k = Some v -> reserved k = false ->
  blt k c \/ (exists r, r ∈ out /\ ble k r.(RKey)) -> exists r, r ∈ out /\ r.(RKey) = k.

Definition proc_ok (out : list Record_) (m : kvs) (p : option (Deliverer * IdempotentFileSink)) : Prop :=
  match p with
  | None => True
  | Some (d, s) => idle s /\ s.(hwm) = RKey <$> last out /\ d.(sinkName) = name /\ ble d.(cursor) (Load name m)
  end.

Definition dinv (x : dstate) : Prop := exists out,
  x.(disk).(written) = concat (map line out) /\ StronglySorted key_lt out /\ Forall fits out /\
  x.(store) !! [] = None /\ (forall k v, x.(store) !! k = Some v -> reserved k = false -> fits (MkRecord k (copied v))) /\
  covered out (Load name x.(store)) x.(store) /\ proc_ok out x.(store) x.(proc).

Lemma sorted_last_max out r o : StronglySorted key_lt out -> last out = Some r -> o ∈ out -> ble o.(RKey) r.(RKey).
Proof.
  intros Hs Hl Ho. apply last_Some in Hl as [l ->]. apply elem_of_app in Ho as [Ho|Ho%list_elem_of_singleton]; [|subst; apply ble_refl].
  apply blt_ble, (StronglySorted_app_1_elem_of _ _ _ o r Hs Ho). by apply list_elem_of_singleton.
Qed.

Lemma fresh_elem h batch r : r ∈ fresh h batch <-> r ∈ batch /\ delivered h r = false.
Proof. unfold fresh. rewrite !list_elem_of_In, filter_In. by rewrite negb_true_iff. Qed.

Lemma elem_of_take' {A} (l : list A) n x : x ∈ take n l -> x ∈ l.
Proof. intros H. rewrite <- (take_drop n l). apply elem_of_app. by left. Qed.

Lemma sorted_take {A} (R : relation A) l j : StronglySorted R l -> StronglySorted R (take j l).
Proof. rewrite <- (take_drop j l) at 1. apply StronglySorted_app_1_l. Qed.
Lemma take_down l j r r' : StronglySorted key_lt l -> r ∈ take j l -> r' ∈ l -> ble r'.(RKey) r.(RKey) -> r' ∈ take j l.
Proof.
  intros Hs Hr Hr' Hle. rewrite <- (take_drop j l) in Hs, Hr'. apply elem_of_app in Hr' as [?|Hr']; [done|].
  pose proof (StronglySorted_app_1_elem_of _ _ _ r r' Hs Hr Hr') as H. unfold key_lt in H. border.
Qed.
Lemma blt_or_ble k c : blt k c \/ ble c k.
Proof. rewrite ble_nlt. destruct (decide (blt k c)); auto. Qed.

Section Append.
Context (out : list Record_) (m : kvs) (c next : bytes) (batch : list Record_) (h : option bytes).
Context (Hs : StronglySorted key_lt out) (Hh : h = RKey <$> last out) (Hf : fetched m c batch next).
Context (Hc : covered out (Load name m) m) (Hle : ble c (Load name m)).

Lemma fresh_sorted : StronglySorted key_lt (fresh h batch).
Proof. apply StronglySorted_filter, (f_sorted _ _ _ _ Hf). Qed.

Lemma fresh_above o r : o ∈ out -> r ∈ fresh h batch -> key_lt o r.
Proof.
  intros Ho [_ Hd]%fresh_elem. rewrite Hh in Hd. destruct (last out) as [l|] eqn:El; [|apply last_None in El as ->; inversion Ho].
  cbn in Hd. bcmp. unfold key_lt. eapply ble_blt_trans; [by eapply sorted_last_max|done].
Qed.

Lemma below_next k v : m !! k = Some v -> reserved k = false -> blt k next ->
  (exists r, r ∈ out /\ RKey r = k) \/ exists r, r ∈ fresh h batch /\ RKey r = k.
Proof.
  intros Hk Hr Hn. destruct (blt_or_ble k c) as [Hlt|Hge].
  - left. apply (Hc k v Hk Hr). left. by eapply blt_ble_trans.
  - destruct (f_all _ _ _ _ Hf k v Hk Hr Hge Hn) as (r & Hrb & <-).
    destruct (delivered h r) eqn:Ed; [left|right; exists r; split; [by apply fresh_elem|done]].
    rewrite Hh in Ed. destruct (last out) as [l|] eqn:El; [|done]. cbn in Ed. bcmp.
    apply (Hc (RKey r) v Hk Hr). right. exists l. split; [by apply JobRun.last_elem|done].
Qed.

Lemma fresh_below r : r ∈ fresh h batch -> blt (RKey r) next.
Proof. intros [Hr _]%fresh_elem. by destruct (f_in _ _ _ _ Hf r Hr) as (? & _ & _ & _ & _ & ?). Qed.

(** Appending a prefix of the fresh records of a batch keeps the file in key
    order; appending all of them covers everything up to the next cursor. *)
Lemma append_sorted j : StronglySorted key_lt (out ++ take j (fresh h batch)).
Proof.
  apply StronglySorted_app_2; [|done|apply sorted_take, fresh_sorted].
  intros o r Ho Hr. apply fresh_above; [done|by eapply elem_of_take'].
Qed.

Lemma append_covered c' j : (c' = Load name m \/ c' = next /\ take j (fresh h batch) = fresh h batch) ->
  covered (out ++ take j (fresh h batch)) c' m.
Proof.
  intros Hc' k v Hk Hr Hb.
  assert (Hout : (exists r, r ∈ out /\ RKey r = k) -> exists r, r ∈ out ++ take j (fresh h batch) /\ RKey r = k).
  { intros (r & ? & ?). exists r. split; [apply elem_of_app; by left|done]. }
  destruct Hb as [Hlt|(r & Hro & Hle')].
  - destruct Hc' as [->|[-> Ej]]; [by apply Hout, (Hc k v Hk Hr); left|].
    destruct (below_next k v Hk Hr Hlt) as [?|(r & Hr' & <-)]; [by apply Hout|].
    exists r. split; [|done]. apply elem_of_app. right. by rewrite Ej.
  - apply elem_of_app in Hro as [Hro|Hro]; [apply Hout, (Hc k v Hk Hr); right; eauto|].
    destruct (below_next k v Hk Hr) as [?|(r' & Hr' & <-)]; [|by apply Hout|].
    { eapply ble_blt_trans; [exact Hle'|]. apply fresh_below. by eapply elem_of_take'. }
    exists r'. split; [|done]. apply elem_of_app. right. eapply take_down; [apply fresh_sorted|exact Hro|done|done].
Qed.
End Append.

Lemma offset_reserved : reserved (offsetKey name) = true.
Proof. unfold reserved, has_prefix, offsetKey. rewrite take_app_length. apply beqb_refl. Qed.
Lemma load_commit cur m : Load name (<[offsetKey name := cur]> m) = cur.
Proof. unfold Load. by rewrite lookup_insert_eq. Qed.
Lemma load_other k v m : k <> offsetKey name -> Load name (<[k := v]> m) = Load name m.
Proof. intros H. unfold Load. by rewrite lookup_insert_ne. Qed.
(** A change to reserved keys leaves coverage alone. *)
Lemma covered_reserved out c k v m : reserved k = true -> covered out c m -> covered out c (<[k := v]> m).
Proof.
  intros Hk H k' v' Hk' Hr. destruct (decide (k = k')) as [<-|Hne]; [congruence|]. rewrite lookup_insert_ne in Hk' by done. by apply (H k' v').
Qed.

Lemma fits_fresh m c batch next h j out : fetched m c batch next ->
  (forall k v, m !! k = Some v -> reserved k = false -> fits (MkRecord k (copied v))) -> Forall fits out ->
  Forall fits (out ++ take j (fresh h batch)).
Proof.
  intros Hf Hm Ho. apply Forall_app. split; [done|]. apply Forall_forall. intros r [Hr _]%elem_of_take'%fresh_elem.
  destruct (f_in _ _ _ _ Hf r Hr) as (v & Hv & E & Hres & _). specialize (Hm _ _ Hv Hres). destruct r; cbn in *. by subst.
Qed.

Lemma tick_inv d s f m gate fault d' s' f' m' : dinv (MkState (Some (d, s)) f m) ->
  deliverOnce send_file gate fault d (s, f) m = (d', (s', f'), m') -> dinv (MkState (Some (d', s')) f' m').
Proof.
  intros Hinv. pose proof Hinv as (out & Hw & Hs & Hfit & H0 & Hm & Hc & Hi & Hh & Hn & Hle). cbn [disk store proc] in *.
  unfold deliverOnce. destruct gate; cbn [negb]; [|by intros [= <- <- <- <-]].
  destruct (Fetch m (cursor d) (batchSize d)) as [batch next] eqn:Ef. pose proof (fetch_ok _ _ _ _ _ H0 Ef) as Hf.
  destruct batch as [|r0 batch0]; [by intros [= <- <- <- <-]|]. set (batch := r0 :: batch0) in *. unfold send_file. cbn [fst snd].
  destruct (send_ok batch s f Hi (f_sorted _ _ _ _ Hf)) as (s1 & f1 & -> & Hi1 & Hh1 & Hw1). cbn [negb].
  set (out' := out ++ fresh (hwm s) batch).
  assert (Ej : take (length (fresh (hwm s) batch)) (fresh (hwm s) batch) = fresh (hwm s) batch) by (by rewrite take_ge).
  assert (Hs' : StronglySorted key_lt out') by (unfold out'; rewrite <- Ej; by eapply append_sorted).
  assert (Hfit' : Forall fits out') by (unfold out'; rewrite <- Ej; by eapply fits_fresh).
  assert (Hcm : covered out' (Load name m) m) by (unfold out'; rewrite <- Ej; eapply append_covered; eauto).
  assert (Hcn : covered out' next m) by (unfold out'; rewrite <- Ej; eapply append_covered; eauto).
  assert (Hw' : f1.(written) = concat (map line out')) by (unfold out'; rewrite Hw1, Hw, map_app, concat_app; done).
  assert (Hh' : s1.(hwm) = RKey <$> last out').
  { rewrite Hh1. unfold out'. destruct (fresh (hwm s) batch) as [|x l] eqn:El; [by rewrite app_nil_r|].
    rewrite last_app_cons. by destruct (last (x :: l)) eqn:El'; [|apply last_None in El']. }
  assert (Hput : forall k v, <[offsetKey name := next]> m !! k = Some v -> reserved k = false -> m !! k = Some v).
  { intros k v Hk Hr. rewrite lookup_insert_ne in Hk; [done|]. intros <-. by rewrite offset_reserved in Hr. }
  assert (Hcommit : forall cur, ble cur next -> dinv (MkState (Some (MkDeliverer d.(sinkName) d.(batchSize) cur, s1)) f1 (<[offsetKey name := next]> m))).
  { intros cur Hcur. exists out'. cbn [disk store proc]. split_and!; try done; [by rewrite lookup_insert_ne| | |].
    - intros k v Hk Hr. by apply Hm, Hr; apply Hput.
    - rewrite load_commit. apply covered_reserved; [apply offset_reserved|done].
    - cbn [proc_ok cursor sinkName]. by rewrite load_commit. }
  rewrite Hn in *. destruct fault; cbn [Commit]; intros [= <- <- <- <-].
  - apply Hcommit, ble_refl.
  - by exists out'; split_and!.
  - destruct d as [dn db dc]. cbn [sinkName cursor] in *. subst dn. apply Hcommit, (f_forward _ _ _ _ Hf).
Qed.

Lemma dstep_inv x y : dinv x -> dstep x y -> dinv y.
Proof.
  intros Hinv Hstep. destruct Hstep as [d s f m gate fault d' s' f' m' E|p f m|d s f m batch next j z Ef|f m s E|p f m k v Hk Hr Hfit Ha|p f m k Hr|p f m k v Hr Hne];
    [by eapply tick_inv| | | | | |]; destruct Hinv as (out & Hw & Hs & Hfo & H0 & Hm & Hc & Hp); cbn [disk store proc] in *.
  - by exists out.
  - destruct Hp as (Hi & Hh & Hn & Hle). pose proof (fetch_ok _ _ _ _ _ H0 Ef) as Hf.
    exists (out ++ take j (fresh (hwm s) batch)). cbn [disk store proc written]. split_and!; try done.
    + by rewrite Hw, map_app, concat_app.
    + by eapply append_sorted.
    + by eapply fits_fresh.
    + eapply append_covered; eauto.
  - exists out. split_and!; try done. cbn [disk store proc]. unfold NewIdempotentFileSink in E. rewrite Hw, recover_lines in E by done.
    injection E as <-. split; [done|]. split; [done|]. split; [done|]. apply ble_refl.
  - assert (k <> offsetKey name) as Hne by (intros ->; by rewrite offset_reserved in Hr).
    exists out. cbn [disk store proc]. rewrite load_other by done. split_and!; try done; [by rewrite lookup_insert_ne| | |].
    + intros k' v' Hk' Hr'. destruct (decide (k = k')) as [<-|Hne']; [rewrite lookup_insert_eq in Hk'; by injection Hk' as <-|].
      rewrite lookup_insert_ne in Hk' by done. by apply Hm.
    + intros k' v' Hk' Hr' Hb. destruct (decide (k = k')) as [<-|Hne']; [|rewrite lookup_insert_ne in Hk' by done; by apply (Hc k' v')].
      destruct Ha as [[v0 Hv0]|[Ha1 Ha2]]; [by apply (Hc k v0)|]. exfalso. cbn [store disk] in *. destruct Hb as [Hb|(r & Hr1 & Hr2)]; [border|].
      rewrite Hw, recover_lines in Ha2 by done. destruct (last out) as [l|] eqn:El; [|apply last_None in El as ->; inversion Hr1].
      specialize (Ha2 _ eq_refl). pose proof (sorted_last_max _ _ _ Hs El Hr1) as Hmax.
      pose proof (ble_trans _ _ _ Hr2 Hmax) as Hbad. border.
    + destruct p as [[d s]|]; [|done]. destruct Hp as (? & ? & ? & ?). cbn [proc_ok]. by rewrite load_other.
  - assert (k <> offsetKey name) as Hne by (intros ->; by rewrite offset_reserved in Hr).
    assert (Load name (delete k m) = Load name m) as Eld by (unfold Load; by rewrite lookup_delete_ne).
    exists out. cbn [disk store proc]. rewrite Eld. split_and!; try done.
    + rewrite lookup_delete_None. by right.
    + intros k' v' [_ Hk']%lookup_delete_Some. by apply Hm.
    + intros k' v' [_ Hk']%lookup_delete_Some. by apply (Hc k' v').
    + destruct p as [[d s]|]; [|done]. destruct Hp as (? & ? & ? & ?). cbn [proc_ok]. by rewrite Eld.
  - exists out. cbn [disk store proc]. rewrite load_other by done. split_and!; try done; [| | |].
    + rewrite lookup_insert_ne; [done|]. intros ->. by vm_compute in Hr.
    + intros k' v' Hk' Hr'. rewrite lookup_insert_ne in Hk' by (intros ->; congruence). by apply Hm.
    + by apply covered_reserved.
    + destruct p as [[d s]|]; [|done]. destruct Hp as (? & ? & ? & ?). cbn [proc_ok]. by rewrite load_other.
Qed.

(** C24: Delivery to the idempotent file sink, while a send is neither cancelled
    nor fails to write or sync, over every interleaving of rounds with any gate
    and any failed or unheard offset commit, crashes -- also in the middle of a
    send, at a line boundary -- restarts, updates, deletions, offsets of other
    sinks, and records that arrive ahead of delivery: the file is a sequence of
    whole lines in strictly increasing key order, so no record is in it twice,
    and every record of the store below the committed offset is in it.  A
    cancelled send and a failed sync, after which the same process sends the
    batch again, do duplicate records ([cancelled_send_duplicates],
    [failed_sync_duplicates]; idempotent_sink.go:82,102). *)
Theorem delivery_effectively_once m x : (forall k v, m !! k = Some v -> reserved k = false -> fits (MkRecord k (copied v))) ->
  m !! [] = None -> m !! offsetKey name = None -> rtc dstep (MkState None (MkFile [] 0) m) x ->
  exists out, x.(disk).(written) = concat (map line out) /\ StronglySorted key_lt out /\
    forall k v, x.(store) !! k = Some v -> reserved k = false -> blt k (Load name x.(store)) -> exists r, r ∈ out /\ r.(RKey) = k.
Proof.
  intros Hm H0 Ho Hx. assert (dinv x) as (out & Hw & Hs & _ & _ & _ & Hc & _).
  { revert Hx. assert (dinv (MkState None (MkFile [] 0) m)) as Hi.
    { exists []. cbn [disk store proc]. split_and!; try done; [constructor|]. intros k v Hk Hr [Hlt|(r & Hr' & _)]; [|inversion Hr'].
      exfalso. unfold Load in Hlt. rewrite Ho in Hlt. cbn in Hlt. border. }
    generalize dependent (MkState None (MkFile [] 0) m). intros y Hy H. induction H as [|a b c Hab _ IH]; [done|]. by apply IH, (dstep_inv a). }
  exists out. split; [done|]. split; [done|]. intros k v Hk Hr Hlt. apply (Hc k v Hk Hr). by left.
Qed.

End System.

(** ** Progress *)
Section Progress.
Context {T : Type} (send : list Record_ -> T -> T * bool) (Hsend : forall batch t, (send batch t).2 = true).

Definition reserved_keys (m : kvs) : gset bytes := filter (fun k => reserved k = true) (dom m).
Definition todo (m : kvs) (c : bytes) : gset bytes := filter (fun k => reserved k = false /\ ble c k) (dom m).

(** Fewer reserved keys than a scan returns cannot fill it. *)
Lemma fetch_something m c limit batch next : m !! [] = None -> 1 <= limit -> limit + 1 <= Kv.maxScanResults ->
  Z.of_nat (size (reserved_keys m)) <= limit -> Fetch m c limit = (batch, next) -> todo m c <> ∅ -> batch <> [].
Proof.
  intros H0 Hl Hmax Hr. unfold Fetch, kv_scan. fold (pending m c).
  rewrite (proj2 (Z.leb_gt _ _)), (proj2 (Z.ltb_ge _ _)) by lia. cbn [orb].
  destruct (collect_prefix limit [] None (take (Z.to_nat (limit + 1)) (pending m c))) as (pre & suf & E & -> & Hstop).
  intros [= <- _] Ht. cbn [app] in *. intros Hb. rewrite Hb in Hstop. destruct Hstop as [->|Hstop]; [|unfold len in Hstop; simpl in Hstop; lia].
  rewrite app_nil_r in E. rewrite <- E in Hb. clear pre E.
  assert (Hall : forall kv, kv ∈ take (Z.to_nat (limit + 1)) (pending m c) -> reserved kv.1 = true).
  { intros [k v] Hk. destruct (reserved k) eqn:Er; [done|]. assert (MkRecord k (copied v) ∈ records (take (Z.to_nat (limit + 1)) (pending m c))) as Hx
      by (apply records_elem; exists v; done). rewrite Hb in Hx. inversion Hx. }
  assert (Hlen : (length (take (Z.to_nat (limit + 1)) (pending m c)) <= size (reserved_keys m))%nat).
  { assert (NoDup (take (Z.to_nat (limit + 1)) (pending m c)).*1) as Hn.
    { assert (StronglySorted entry_lt (take (Z.to_nat (limit + 1)) (pending m c))) as Hs by (apply sorted_take, StronglySorted_filter, entries_strict).
      clear -Hs. induction Hs as [|x l Hs IH Hx]; [constructor|]. cbn [fmap list_fmap]. constructor; [|done].
      intros (y & E & Hy)%list_elem_of_fmap. rewrite Forall_forall in Hx. specialize (Hx y Hy). unfold entry_lt in Hx. rewrite E in Hx. border. }
    rewrite <- (length_fmap fst), <- (size_list_to_set (C := gset bytes)) by done. apply subseteq_size. intros k Hk.
    apply elem_of_list_to_set, list_elem_of_fmap in Hk as ([k' v] & -> & Hk). unfold reserved_keys. apply elem_of_filter. split; [by apply (Hall (k', v))|].
    apply elem_of_take', pending_elem in Hk as [Hk _]. apply elem_of_dom. eauto. }
  rewrite length_take in Hlen. assert (Hfull : take (Z.to_nat (limit + 1)) (pending m c) = pending m c) by (apply take_ge; lia).
  rewrite Hfull in Hall. apply Ht, set_eq. intros k. split; [|set_solver]. intros ((Hr' & Hle) & [v Hv]%elem_of_dom)%elem_of_filter.
  specialize (Hall (k, v) ltac:(by apply pending_elem)). cbn in Hall. congruence.
Qed.

Fixpoint rounds (n : nat) (d : Deliverer) (t : T) (m : kvs) : Deliverer * T * kvs :=
  match n with
  | O => (d, t, m)
  | S n => let '(d, t, m) := deliverOnce send true Rec.Fine d t m in rounds n d t m
  end.

Definition room (d : Deliverer) (m : kvs) : Prop := m !! [] = None /\ 1 <= d.(batchSize) /\ d.(batchSize) + 1 <= Kv.maxScanResults /\
  Z.of_nat (size (reserved_keys m ∪ {[offsetKey d.(sinkName)]})) <= d.(batchSize).

Lemma round_progress d t m d' t' m' : room d m -> deliverOnce send true Rec.Fine d t m = (d', t', m') ->
  room d' m' /\ (forall k, reserved k = false -> m' !! k = m !! k) /\ ble d.(cursor) d'.(cursor) /\
  (todo m d.(cursor) = ∅ \/ (size (todo m' d'.(cursor)) < size (todo m d.(cursor)))%nat).
Proof.
  intros (H0 & H1 & Hmax & Hr). unfold deliverOnce. cbn [negb].
  destruct (Fetch m (cursor d) (batchSize d)) as [batch next] eqn:Ef. pose proof (fetch_ok _ _ _ _ _ H0 Ef) as Hf.
  assert (Hsub : (size (reserved_keys m) <= size (reserved_keys m ∪ {[offsetKey (sinkName d)]}))%nat) by (apply subseteq_size; set_solver).
  destruct batch as [|r0 batch0].
  { intros [= <- <- <-]. split_and!; try done; [apply ble_refl|left].
    destruct (decide (todo m (cursor d) = ∅)) as [?|Hne]; [done|]. by destruct (fetch_something _ _ _ _ _ H0 H1 Hmax ltac:(lia) Ef Hne). }
  set (batch := r0 :: batch0) in *. pose proof (Hsend batch t) as Hs. destruct (send batch t) as [t1 acked]. cbn in Hs. subst acked.
  cbn [negb Commit]. intros [= <- <- <-]. cbn [cursor sinkName batchSize].
  assert (Hbus : forall k, reserved k = false -> <[offsetKey (sinkName d) := next]> m !! k = m !! k).
  { intros k Hk. apply lookup_insert_ne. intros <-. by rewrite offset_reserved in Hk. }
  split; [|split; [done|split; [apply (f_forward _ _ _ _ Hf)|right]]].
  - split; [by rewrite Hbus|]. split; [done|]. split; [done|]. cbn [batchSize sinkName].
    etransitivity; [|exact Hr]. apply Nat2Z.inj_le, subseteq_size. intros k.
    unfold reserved_keys. rewrite !elem_of_union, !elem_of_filter, !elem_of_singleton, dom_insert. set_solver.
  - apply subset_size. split.
    + intros k ([Hk Hle] & [v Hv]%elem_of_dom)%elem_of_filter. rewrite Hbus in Hv by done. apply elem_of_filter.
      split; [split; [done|eapply ble_trans; [apply (f_forward _ _ _ _ Hf)|done]]|]. apply elem_of_dom. eauto.
    + intros Hsub'. destruct (f_in _ _ _ _ Hf r0 (list_elem_of_here _ _)) as (v & Hv & _ & Hres & Hge & Hlt).
      assert (RKey r0 ∈ todo m (cursor d)) as Hin by (apply elem_of_filter; split; [done|]; apply elem_of_dom; eauto).
      apply Hsub', elem_of_filter in Hin as ((_ & Hbad) & _). border.
Qed.

(** C27: When the store and the sink answer, every record gets past the cursor:
    as long as the store holds at most [batchSize] reserved keys and nothing
    under the empty key, and [batchSize] is at least 1 and below the store's
    scan cap of 10000, after as many rounds as there are records from the cursor
    on, none is left. *)
Theorem delivery_progress n d t m : room d m -> (size (todo m d.(cursor)) <= n)%nat ->
  let '(d', _, m') := rounds n d t m in
  (forall k, reserved k = false -> m' !! k = m !! k) /\ ble d.(cursor) d'.(cursor) /\
  forall k v, m !! k = Some v -> reserved k = false -> ble d.(cursor) k -> blt k d'.(cursor).
Proof.
  revert d t m; induction n as [|n IH]; intros d t m Hroom Hn; cbn [rounds].
  - split; [done|]. split; [apply ble_refl|]. intros k v Hk Hr Hle. assert (k ∈ todo m (cursor d)) as Hin by (apply elem_of_filter; split; [done|]; apply elem_of_dom; eauto).
    assert (todo m (cursor d) ≡ ∅) as E by (apply size_empty_inv; lia). set_solver.
  - destruct (deliverOnce send true Rec.Fine d t m) as [[d1 t1] m1] eqn:E. destruct (round_progress _ _ _ _ _ _ Hroom E) as (Hroom1 & Hb1 & Hc1 & Hless).
    assert (Hn1 : (size (todo m1 (cursor d1)) <= n)%nat \/ todo m (cursor d) = ∅) by (destruct Hless; [by right|left; lia]).
    assert (Hle1 : (size (todo m1 (cursor d1)) <= n)%nat).
    { destruct Hn1 as [?|E0]; [done|]. assert (todo m1 (cursor d1) ⊆ todo m (cursor d)) as Hs.
      { intros k ([Hk Hle] & [v Hv]%elem_of_dom)%elem_of_filter. rewrite Hb1 in Hv by done. apply elem_of_filter.
        split; [split; [done|by eapply ble_trans]|]. apply elem_of_dom. eauto. }
      apply subseteq_size in Hs. rewrite E0, size_empty in Hs. lia. }
    specialize (IH d1 t1 m1 Hroom1 Hle1). destruct (rounds n d1 t1 m1) as [[d2 t2] m2]. destruct IH as (IH1 & IHc & IH2). split_and!.
    + intros k Hk. by rewrite IH1, Hb1.
    + by eapply ble_trans.
    + intros k v Hk Hr Hle. destruct (blt_or_ble k (cursor d1)) as [Hlt|Hge].
      * by eapply blt_ble_trans.
      * apply (IH2 k v); [by rewrite Hb1|done|done].
Qed.
End Progress.

(** ** Runs *)
Definition feed : bytes := str "file".
Definition quotes : kvs := {[str "quote:1" := str "a"; str "quote:2" := str "b"]}.
Definition new_sink : IdempotentFileSink := MkIdem (MkWriter [] false) None.
Definition deliverer0 : Deliverer := start quotes (NewDelivererWithOffset feed 1).
(** A round whose commit takes effect but is reported as failed. *)
Definition unheard_round : Deliverer * (IdempotentFileSink * file) * kvs :=
  deliverOnce send_file true Rec.Unheard deliverer0 (new_sink, MkFile [] 0) quotes.
Definition after_round : dstate := MkState None unheard_round.1.2.2 unheard_round.2.

Lemma quotes_fit k v : quotes !! k = Some v -> reserved k = false -> fits (MkRecord k (copied v)).
Proof.
  unfold quotes. intros [[<- <-]|[_ [<- <-]%lookup_singleton_Some]]%lookup_insert_Some _; by vm_compute.
Qed.

Lemma tick_step name size d s f m gate fault (u := deliverOnce send_file gate fault d (s, f) m) :
  dstep name size (MkState (Some (d, s)) f m) (MkState (Some (u.1.1, u.1.2.1)) u.1.2.2 u.2).
Proof. apply (ds_tick name size _ _ _ _ gate fault). subst u. by destruct (deliverOnce _ _ _ _ _ _) as [[? [? ?]] ?]. Qed.

Lemma delivery_effectively_once_witness : exists out, after_round.(disk).(written) = concat (map line out) /\ StronglySorted key_lt out /\
  forall k v, after_round.(store) !! k = Some v -> reserved k = false -> blt k (Load feed after_round.(store)) -> exists r, r ∈ out /\ r.(RKey) = k.
Proof.
  apply (delivery_effectively_once feed 1 quotes after_round); [exact quotes_fit|by vm_compute|by vm_compute|].
  eapply rtc_l; [apply (ds_restart feed 1 _ _ new_sink); vm_compute; reflexivity|].
  eapply rtc_l; [apply (tick_step feed 1 deliverer0 new_sink (MkFile [] 0) quotes true Rec.Unheard)|].
  eapply rtc_l; [apply ds_crash|]. apply rtc_refl.
Defined.

Definition ack_all (batch : list Record_) (n : Z) : Z * bool := (n + len batch, true).
Lemma delivery_progress_witness :
  let '(d, n, m) := rounds ack_all 2 deliverer0 0 quotes in n = 2 /\
    ((forall k, reserved k = false -> m !! k = quotes !! k) /\ ble [] d.(cursor) /\
     forall k v, quotes !! k = Some v -> reserved k = false -> ble [] k -> blt k d.(cursor)).
Proof.
  pose proof (delivery_progress ack_all (fun _ _ => eq_refl) 2 deliverer0 0 quotes) as H.
  assert (room deliverer0 quotes) as Hr by (split; [vm_compute; reflexivity|]; split_and!; vm_compute; discriminate).
  assert (Hn : (size (todo quotes deliverer0.(cursor)) =? 2)%nat = true) by (vm_compute; reflexivity).
  apply Nat.eqb_eq in Hn. specialize (H Hr (Nat.eq_le_incl _ _ Hn)).
  assert (E : (rounds ack_all 2 deliverer0 0 quotes).1.2 = 2) by (vm_compute; reflexivity).
  destruct (rounds ack_all 2 deliverer0 0 quotes) as [[d n] m]. cbn in E. split; [exact E|]. exact H.
Defined.

End DlvSpec.
