(* ===== verification/DeliveryCases.v ===== *)
(** * Circuit breakers, routing and the edges of delivery *)
From stdpp Require Import sorting.
From S2P Require Import Prelude Bytes Json JsonSpec JobSpec KVServer Reconciler Delivery DeliverySpec.

Module DlvCases.
Import Json Dlv DlvSpec.

(** ** Edges of delivery *)
Definition rec1 : Record_ := MkRecord (str "k1") (Some (str "a")).
Definition rec2 : Record_ := MkRecord (str "k2") (Some (str "b")).
Definition rec3 : Record_ := MkRecord (str "k3") (Some (str "c")).
Definition no_file : file := MkFile [] 0.
(** The keys a reader of the file gets, one per line that parses. *)
Definition readable (f : file) : list bytes :=
  omap (fun l => Unmarshal file_fields (MkFileRecord None None) l ≫= FKey) (Rec.raw_lines f.(written)).

(** A send that is cancelled after its first record leaves that record in the
    buffer; the repeated send writes it twice. *)
Definition cancelled_then_sent : file :=
  let '(s, f, _) := Send (Some 1%nat) [rec1; rec2] [] new_sink no_file in
  let '(_, f, _) := Send None [rec1; rec2] [] s f in f.
Theorem cancelled_send_duplicates : readable cancelled_then_sent = [str "k1"; str "k1"; str "k2"].
Proof. vm_compute. done. Qed.

(** A failed [fsync] after a successful write: the repeated send appends the
    batch again. *)
Definition sync_failed_then_sent : file :=
  let '(s, f, _) := Send None [rec1; rec2] [None; Some 0%nat] new_sink no_file in
  let '(_, f, _) := Send None [rec1; rec2] [] s f in f.
Theorem failed_sync_duplicates : readable sync_failed_then_sent = [str "k1"; str "k2"; str "k1"; str "k2"].
Proof. vm_compute. done. Qed.

(** A crash that leaves half a line: after the restart the next record is
    appended to the fragment, and neither can be read. *)
Definition torn : file := MkFile (line rec1 ++ take 9 (line rec2)) 0.
Definition torn_then_sent : file :=
  match NewIdempotentFileSink torn with
  | Some s => (Send None [rec1; rec2; rec3] [] s torn).1.2
  | None => torn
  end.
Theorem torn_line_swallows_record : readable torn_then_sent = [str "k1"; str "k3"].
Proof. vm_compute. done. Qed.

(** Keys below the reserved prefix: the second round scans past the offset
    record, the cursor jumps over it, and a third key that arrives later, above
    both others, is behind the cursor for good. *)
Definition round_of (x : Deliverer * (IdempotentFileSink * file) * kvs) : Deliverer * (IdempotentFileSink * file) * kvs :=
  deliverOnce send_file true Rec.Fine x.1.1 x.1.2 x.2.
Definition arrive (k : bytes) (x : Deliverer * (IdempotentFileSink * file) * kvs) := (x.1, <[k := str "v"]> x.2).
Fixpoint rounds_of (n : nat) x := match n with O => x | S n => rounds_of n (round_of x) end.
Definition upper_run : Deliverer * (IdempotentFileSink * file) * kvs :=
  let x0 := arrive (str "A1") (NewDelivererWithOffset feed 10, (new_sink, no_file), ∅) in
  rounds_of 20 (arrive (str "A3") (round_of (arrive (str "A2") (round_of x0)))).
Theorem increasing_key_lost : readable upper_run.1.2.2 = [str "A1"; str "A2"] /\ upper_run.2 !! str "A3" = Some (str "v") /\
  Load feed upper_run.2 = offsetKey feed ++ [byte.of_Z 0].
Proof. vm_compute. done. Qed.

(** With a batch size of one, two offset records in front of the next record
    fill every scan: nothing is delivered and the cursor never moves. *)
Definition two_offsets : kvs := {[offsetKey (str "file") := str "x"; offsetKey (str "router") := str "x"; str "quote:1" := str "v"]}.
Theorem reserved_keys_block n : rounds ack_all n (NewDelivererWithOffset (str "new") 1) 0 two_offsets =
  (NewDelivererWithOffset (str "new") 1, 0, two_offsets).
Proof.
  assert (deliverOnce ack_all true Rec.Fine (NewDelivererWithOffset (str "new") 1) 0 two_offsets =
    (NewDelivererWithOffset (str "new") 1, 0, two_offsets)) as E.
  { unfold deliverOnce. cbn [negb]. assert ((Fetch two_offsets [] 1).1 = []) as Eb by (vm_compute; reflexivity).
    change (cursor (NewDelivererWithOffset (str "new") 1)) with (@nil byte). change (batchSize (NewDelivererWithOffset (str "new") 1)) with 1.
    destruct (Fetch two_offsets [] 1) as [batch next]. cbn in Eb. by subst batch. }
  induction n as [|n IH]; [done|]. cbn [rounds]. by rewrite E.
Qed.

(** ** Circuit breakers *)
(** A sink that always fails, called at the given times: the calls that reach it. *)
Definition failing_call (now : Z) (b : Breaker) : Breaker * Z :=
  let '(b, ok) := Allow now b in if ok then (OnFailure now b, 1) else (b, 0).
Fixpoint failing_calls (times : list Z) (b : Breaker) : Breaker * Z :=
  match times with
  | [] => (b, 0)
  | t :: times => let '(b, n) := failing_call t b in let '(b, k) := failing_calls times b in (b, n + k)
  end.

Section Failing.
Context (theta timeout t0 : Z) (Hto : 1 <= timeout).

(** [n] calls have reached the sink so far. *)
Definition brk_inv (n now : Z) (b : Breaker) : Prop :=
  b.(failThreshold) = theta /\ b.(openTimeout) = timeout /\
  match b.(st) with
  | stateClosed => b.(failures) = n /\ n < theta
  | stateOpen => t0 <= b.(openedAt) <= now /\ n <= theta + (b.(openedAt) - t0) / timeout
  | stateHalfOpen => False
  end.

Lemma brk_step n last now b b' k : t0 <= last <= now -> brk_inv n last b -> failing_call now b = (b', k) -> brk_inv (n + k) now b'.
Proof.
  intros Hnow (H1 & H2 & H3). unfold failing_call, Allow, OnFailure. destruct b as [th to s f o p]. cbn in *. subst th to.
  destruct s; cbn [st openedAt openTimeout failThreshold failures probeInFlight] in *; [| |done].
  - destruct H3 as [-> Hn]. destruct (Z.leb_spec theta (n + 1)) as [Hle|Hle]; intros [= <- <-]; (split; [done|]); (split; [done|]); cbn.
    + split; [lia|]. pose proof (Z.div_pos (now - t0) timeout). lia.
    + lia.
  - destruct H3 as [Ho Hn]. destruct (Z.ltb_spec (now - o) timeout) as [Hlt|Hge]; intros [= <- <-]; (split; [done|]); (split; [done|]); cbn.
    + split; lia.
    + split; [lia|]. assert ((o - t0) / timeout + 1 <= (now - t0) / timeout); [|lia].
      rewrite <- Z.div_add by lia. apply Z.div_le_mono; lia.
Qed.

Lemma brk_run times n last b b' k : t0 <= last -> Sorted Z.le (last :: times) -> brk_inv n last b ->
  failing_calls times b = (b', k) -> exists fin, last <= fin /\ (forall m, (forall t, t ∈ times -> t <= m) -> last <= m -> fin <= m) /\ brk_inv (n + k) fin b'.
Proof.
  revert n last b k; induction times as [|t times IH]; intros n last b k Ht0 Hs Hi; cbn [failing_calls].
  { intros [= <- <-]. exists last. rewrite Z.add_0_r. split; [lia|]. split; [auto|done]. }
  apply Sorted_inv in Hs as [Hs Hd]. apply HdRel_inv in Hd. destruct (failing_call t b) as [b1 k1] eqn:E1.
  pose proof (brk_step _ _ _ _ _ _ (conj Ht0 Hd) Hi E1) as Hi1.
  destruct (failing_calls times b1) as [b2 k2] eqn:E2. intros [= <- <-].
  destruct (IH (n + k1) t b1 k2 ltac:(lia) Hs Hi1 E2) as (fin & Hf & Hm & Hi2). exists fin. split; [lia|]. split.
  - intros m Hall Hlast. apply Hm; [|apply Hall, list_elem_of_here]. intros x Hx. apply Hall. by apply list_elem_of_further.
  - by rewrite Z.add_assoc.
Qed.
End Failing.

(** C28: A breaker bounds the load on a dead sink: of any sequence of calls
    within a window of [w] nanoseconds, at most the failure threshold plus one
    probe per elapsed timeout reach a sink that keeps failing. *)
Theorem breaker_bounds_failing_sink threshold timeout t0 w times : 0 < threshold -> 0 < timeout -> 0 <= w ->
  Sorted Z.le (t0 :: times) -> (forall t, t ∈ times -> t <= t0 + w) ->
  (failing_calls times (NewBreaker threshold timeout)).2 <= threshold + w / timeout.
Proof.
  intros Hth Hto Hw Hs Ht. destruct (failing_calls times (NewBreaker threshold timeout)) as [b k] eqn:E. cbn.
  destruct (brk_run threshold timeout t0 ltac:(lia) times 0 t0 (NewBreaker threshold timeout) b k ltac:(lia) Hs) as (fin & _ & Hf & Hi); [|done|].
  { unfold NewBreaker. rewrite !(proj2 (Z.leb_gt _ _)) by lia. split; [done|]. split; [done|]. cbn. lia. }
  specialize (Hf (t0 + w) Ht ltac:(lia)). destruct Hi as (_ & _ & Hi). pose proof (Z.div_pos w timeout ltac:(lia) Hto).
  destruct (Dlv.st b); [lia| |done]. assert ((openedAt b - t0) / timeout <= w / timeout) by (apply Z.div_le_mono; lia). lia.
Qed.

Lemma breaker_bounds_failing_sink_witness :
  (failing_calls [0; 1; 2; 3; 50; 100; 150; 250] (NewBreaker 3 100)).2 = 5 /\
  (failing_calls [0; 1; 2; 3; 50; 100; 150; 250] (NewBreaker 3 100)).2 <= 3 + 250 / 100.
Proof.
  split; [vm_compute; reflexivity|]. apply (breaker_bounds_failing_sink 3 100 0 250); [lia|lia|lia| |].
  - repeat constructor; by vm_compute.
  - intros t Ht. repeat (apply elem_of_cons in Ht as [->|Ht]; [lia|]). inversion Ht.
Defined.

(** ** Routing *)
Section Routing.
Context {T : Type} `{!Sink T} (now : Z) (batch : list Record_).

(** What trying sink [j] of [l] gives: skipped, refused, or acknowledged. *)
Definition outcome_at (l : list (T * Breaker)) (j : nat) : option bool := l !! j ≫= fun tb => (try_sink now batch tb).2.
Definition after_try (l : list (T * Breaker)) (j : nat) : option (T * Breaker) := (fun tb => (try_sink now batch tb).1) <$> l !! j.

(** The answer of a round over the sinks [idxs]. *)
Inductive routed (l l' : list (T * Breaker)) (idxs : list nat) (attempted : bool) : route_result -> Prop :=
| rt_sent pre i post : idxs = pre ++ i :: post -> outcome_at l i = Some true ->
    (forall j, j ∈ pre -> outcome_at l j <> Some true) ->
    (forall j, j ∈ pre ++ [i] -> l' !! j = after_try l j) -> (forall j, j ∉ pre ++ [i] -> l' !! j = l !! j) ->
    routed l l' idxs attempted (Sent i)
| rt_failed : (forall j, j ∈ idxs -> outcome_at l j <> Some true) -> (forall j, j ∈ idxs -> l' !! j = after_try l j) ->
    (forall j, j ∉ idxs -> l' !! j = l !! j) ->
    attempted = true \/ (exists j, j ∈ idxs /\ outcome_at l j = Some false) -> routed l l' idxs attempted AllFailed
| rt_none : (forall j, j ∈ idxs -> outcome_at l j = None) -> (forall j, j ∈ idxs -> l' !! j = after_try l j) ->
    (forall j, j ∉ idxs -> l' !! j = l !! j) -> attempted = false -> routed l l' idxs attempted NoHealthySink.

Lemma insert_other (l : list (T * Breaker)) i j tb : i <> j -> <[i := tb]> l !! j = l !! j.
Proof. intros H. by apply list_lookup_insert_ne. Qed.

(** A sink already tried is out of the way of the rest of the round. *)
Lemma routed_cons l l' i idxs att att' tb res :
  l !! i = Some tb -> i ∉ idxs -> outcome_at l i <> Some true -> att' = (att || bool_decide (outcome_at l i = Some false)) ->
  routed (<[i := (try_sink now batch tb).1]> l) l' idxs att' res -> routed l l' (i :: idxs) att res.
Proof.
  intros Hi Hni Ho Hatt H. set (l1 := <[i := _]> l) in *.
  assert (Hlen : (i < length l)%nat) by (by eapply lookup_lt_Some).
  assert (Hsame : forall j, j <> i -> l1 !! j = l !! j) by (intros j Hj; by apply insert_other).
  assert (Hself : l1 !! i = after_try l i) by (unfold l1, after_try; rewrite list_lookup_insert_eq, Hi by done; done).
  assert (Hout : forall j, j ∈ idxs -> outcome_at l1 j = outcome_at l j /\ after_try l1 j = after_try l j).
  { intros j Hj. assert (j <> i) by (by intros ->). unfold outcome_at, after_try. by rewrite Hsame. }
  destruct H as [pre i' post E Hs Hp Ha Hb|Hp Ha Hb Hex|Hp Ha Hb Hf].
  - assert (Hpre : forall j, j ∈ pre ++ [i'] -> j ∈ idxs) by (rewrite E; set_solver).
    apply (rt_sent _ _ _ _ (i :: pre) i' post); [by rewrite E|rewrite <- (proj1 (Hout i' ltac:(set_solver))); done| | |].
    + intros j [->|Hj]%elem_of_cons; [done|]. rewrite <- (proj1 (Hout j ltac:(set_solver))). by apply Hp.
    + intros j [->|Hj]%elem_of_cons; [rewrite Hb by set_solver; done|]. rewrite Ha by done. by apply Hout, Hpre.
    + intros j [Hne Hj]%not_elem_of_cons. rewrite Hb by done. by apply Hsame.
  - apply rt_failed.
    + intros j [->|Hj]%elem_of_cons; [done|]. rewrite <- (proj1 (Hout j Hj)). by apply Hp.
    + intros j [->|Hj]%elem_of_cons; [by rewrite Hb|]. rewrite Ha by done. by apply Hout.
    + intros j [Hne Hj]%not_elem_of_cons. rewrite Hb by done. by apply Hsame.
    + destruct Hex as [->|(j & Hj & Hx)]; [|right; exists j; split; [by apply list_elem_of_further|rewrite <- (proj1 (Hout j Hj)); done]].
      symmetry in Hatt. apply orb_true_iff in Hatt as [->|Hd]; [by left|right]. exists i. split; [apply list_elem_of_here|by apply bool_decide_eq_true in Hd].
  - rewrite Hf in Hatt. symmetry in Hatt. apply orb_false_iff in Hatt as [-> Hd]. apply bool_decide_eq_false in Hd. apply rt_none; [| | |done].
    + intros j [->|Hj]%elem_of_cons; [by destruct (outcome_at l i) as [[]|]|]. rewrite <- (proj1 (Hout j Hj)). by apply Hp.
    + intros j [->|Hj]%elem_of_cons; [by rewrite Hb|]. rewrite Ha by done. by apply Hout.
    + intros j [Hne Hj]%not_elem_of_cons. rewrite Hb by done. by apply Hsame.
Qed.

Lemma route_spec idxs att l : NoDup idxs -> (forall j, j ∈ idxs -> (j < length l)%nat) ->
  let '(l', res) := route now batch idxs att l in routed l l' idxs att res /\ length l' = length l.
Proof.
  revert att l; induction idxs as [|i idxs IH]; intros att l Hn Hlt; cbn [route].
  { split; [|done]. destruct att; constructor; try (by intros j Hj%not_elem_of_nil); try done. by left. }
  apply NoDup_cons in Hn as [Hi Hn]. destruct (lookup_lt_is_Some_2 l i) as [tb Htb]; [apply Hlt, list_elem_of_here|]. rewrite Htb.
  destruct (try_sink now batch tb) as [tb' res] eqn:Et.
  assert (Ho : outcome_at l i = res) by (unfold outcome_at; rewrite Htb; cbn; by rewrite Et).
  destruct res as [[]|].
  - split; [|by rewrite length_insert]. apply (rt_sent _ _ _ _ [] i idxs); try done; [by intros j Hj%not_elem_of_nil| |].
    + intros j ->%list_elem_of_singleton. unfold after_try. rewrite Htb, list_lookup_insert_eq by (by eapply lookup_lt_Some). cbn. by rewrite Et.
    + intros j Hj. apply insert_other. set_solver.
  - specialize (IH true (<[i:=tb']> l) Hn). rewrite length_insert in IH. specialize (IH ltac:(set_solver)).
    destruct (route now batch idxs true (<[i:=tb']> l)) as [l' r]. destruct IH as [IH Hlen]. split; [|done].
    apply (routed_cons _ _ _ _ _ true tb); [done|done|by rewrite Ho| |by rewrite Et]. rewrite Ho, bool_decide_true by done. by rewrite orb_true_r.
  - specialize (IH att (<[i:=tb']> l) Hn). rewrite length_insert in IH. specialize (IH ltac:(set_solver)).
    destruct (route now batch idxs att (<[i:=tb']> l)) as [l' r]. destruct IH as [IH Hlen]. split; [|done].
    apply (routed_cons _ _ _ _ _ att tb); [done|done|by rewrite Ho| |by rewrite Et]. rewrite Ho, bool_decide_false by done. by rewrite orb_false_r.
Qed.

Lemma round_ok s n : (0 < n)%nat -> NoDup (round s n) /\ (forall j, j ∈ round s n <-> (j < n)%nat).
Proof.
  intros Hn. unfold round.
  assert (Hinj : forall a b, (a < n)%nat -> (b < n)%nat -> ((s + a) mod n = (s + b) mod n)%nat -> a = b).
  { intros a b Ha Hb E. pose proof (Nat.div_mod (s + a) n ltac:(lia)). pose proof (Nat.div_mod (s + b) n ltac:(lia)).
    assert ((s + a) / n = (s + b) / n \/ (s + a) / n + 1 <= (s + b) / n \/ (s + b) / n + 1 <= (s + a) / n)%nat as [?|[?|?]] by lia; nia. }
  assert (Hnd : NoDup (map (fun i => (s + i) mod n)%nat (seq 0 n))).
  { apply NoDup_fmap_2_strong; [|apply NoDup_seq]. intros a b Ha%elem_of_seq Hb%elem_of_seq. apply Hinj; lia. }
  split; [done|]. intros j. split.
  - intros (i & -> & _)%list_elem_of_fmap. apply Nat.mod_upper_bound. lia.
  - intros Hj. assert (map (fun i => (s + i) mod n)%nat (seq 0 n) ≡ₚ seq 0 n) as Hp.
    { apply submseteq_length_Permutation; [|by rewrite length_map]. apply NoDup_submseteq; [done|].
      intros x (i & -> & _)%list_elem_of_fmap. apply elem_of_seq. split; [lia|]. apply Nat.mod_upper_bound. lia. }
    rewrite Hp. apply elem_of_seq. lia.
Qed.

(** One send of the router, over any number of sinks and any breaker
    states: every sink is considered at most once, in the order of the round;
    the answer is success exactly when a sink acknowledged the batch, and then
    the sinks after it are untouched; with no acknowledgement, all were tried
    or skipped, and the answer tells whether any was tried. *)
Theorem router_send_spec r : (0 < length r.(sinks))%nat ->
  let start := if r.(priority) then 0%nat else Z.to_nat (r.(next) mod Z.of_nat (length r.(sinks))) in
  let '(r', res) := RouterSend now batch r in
  NoDup (round start (length r.(sinks))) /\ (forall j, j ∈ round start (length r.(sinks)) <-> (j < length r.(sinks))%nat) /\
  routed r.(sinks) r'.(sinks) (round start (length r.(sinks))) false res.
Proof.
  intros Hn start. unfold RouterSend. rewrite (proj2 (Nat.eqb_neq _ _)) by lia. fold start.
  destruct (round_ok start (length r.(sinks)) Hn) as [H1 H2].
  pose proof (route_spec (round start (length r.(sinks))) false r.(sinks) H1) as H. specialize (H ltac:(intros j Hj; by apply H2)).
  destruct (route now batch _ false r.(sinks)) as [l' res]. destruct H as [H _]. done.
Qed.
End Routing.

(** Two sinks: the first is unhealthy, the second acknowledges. *)
Record stub := MkStub { healthy : bool; acks : bool; calls : Z }.
#[export] Instance stub_sink : Sink stub := {|
  sink_send := fun _ s => (MkStub s.(healthy) s.(acks) (s.(calls) + 1), s.(acks));
  sink_healthy := healthy |}.
Definition two_sinks : Router stub := NewPriorityRouter [MkStub false true 0; MkStub true true 0] 3 1000.
Lemma router_send_spec_witness : (RouterSend 0 [rec1] two_sinks).2 = Sent 1 /\
  routed 0 [rec1] two_sinks.(sinks) (RouterSend 0 [rec1] two_sinks).1.(sinks) (round 0 2) false (RouterSend 0 [rec1] two_sinks).2.
Proof.
  split; [reflexivity|]. pose proof (router_send_spec 0 [rec1] two_sinks ltac:(vm_compute; lia)) as H.
  destruct (RouterSend 0 [rec1] two_sinks) as [r' res]. apply H.
Defined.

End DlvCases.
