(* ===== verification/Cluster.v ===== *)
(** * The cluster's placement of keys ([cluster/])

    The consistent-hash ring with its virtual nodes (routing.go), the liveness
    registry (registry.go) and the placement that combines the two
    (placement.go, bootstrap.go).  The ring keeps what the code keeps: the map
    from points to nodes, the set of nodes and the sorted slice of points, which
    is rebuilt after every change and searched by bisection.  [hash/crc32] is
    the bitwise definition of the checksum. *)
From stdpp Require Import sorting gmap sets list.
From S2P Require Import Prelude Bytes Json.

Module Cluster.

(** ** [crc32.ChecksumIEEE] *)
Definition crc_bit (c : Z) : Z := if Z.odd c then Z.lxor (Z.shiftr c 1) 0xEDB88320 else Z.shiftr c 1.
Definition crc_byte (c : Z) (b : byte) : Z := Nat.iter 8 crc_bit (Z.lxor c #b).
Definition hashKey (b : bytes) : Z := Z.lxor (fold_left crc_byte b 0xFFFFFFFF) 0xFFFFFFFF.

(** ** The ring *)
Definition defaultVNodes : Z := 128.
Record HashRing := MkRing {
  vnodes : Z; sortedHashes : list Z; hashToNode : gmap Z bytes; nodes : gset bytes }.

Definition vnodeKey (node : bytes) (i : Z) : bytes := node ++ str "#" ++ show_dec i.
(** The points of a node, in the order of the loop. *)
Definition points (r : HashRing) (node : bytes) : list Z :=
  map (fun i => hashKey (vnodeKey node (Z.of_nat i))) (seq 0 (Z.to_nat r.(vnodes))).

Definition addNodeLocked (node : bytes) (r : HashRing) : HashRing :=
  if bool_decide (node ∈ r.(nodes)) then r
  else MkRing r.(vnodes) r.(sortedHashes)
         (fold_left (fun m h => <[h := node]> m) (points r node) r.(hashToNode))
         ({[node]} ∪ r.(nodes)).
Definition rebuildLocked (r : HashRing) : HashRing :=
  MkRing r.(vnodes) (merge_sort Z.le (map fst (map_to_list r.(hashToNode)))) r.(hashToNode) r.(nodes).

Definition NewHashRing (ns : list bytes) (vnodes : Z) : HashRing :=
  let vnodes := if vnodes <=? 0 then defaultVNodes else vnodes in
  rebuildLocked (fold_left (fun r n => addNodeLocked n r) ns (MkRing vnodes [] ∅ ∅)).

Definition AddNode (node : bytes) (r : HashRing) : HashRing :=
  let r' := addNodeLocked node r in
  if (size r'.(nodes) =? size r.(nodes))%nat then r' else rebuildLocked r'.

(** A point is deleted only while it belongs to the node. *)
Definition drop_point (node : bytes) (m : gmap Z bytes) (h : Z) : gmap Z bytes :=
  if bool_decide (m !! h = Some node) then delete h m else m.
Definition RemoveNode (node : bytes) (r : HashRing) : HashRing :=
  if bool_decide (node ∈ r.(nodes))
  then rebuildLocked (MkRing r.(vnodes) r.(sortedHashes)
         (fold_left (drop_point node) (points r node) r.(hashToNode)) (r.(nodes) ∖ {[node]}))
  else r.

(** [sort.Search]: bisection for the least index where [f] holds. *)
Fixpoint search (fuel : nat) (f : nat -> bool) (i j : nat) : nat :=
  match fuel with
  | O => i
  | S fuel => if (i <? j)%nat
              then let h := ((i + j) / 2)%nat in
                   if f h then search fuel f i h else search fuel f (S h) j
              else i
  end.
Definition point_at (r : HashRing) (i : nat) : Z := nth i r.(sortedHashes) 0.
Definition searchLocked (h : Z) (r : HashRing) : nat :=
  let n := length r.(sortedHashes) in
  let idx := search (S n) (fun i => h <=? point_at r i) 0 n in
  if (idx =? n)%nat then O else idx.

Definition node_at (r : HashRing) (i : nat) : bytes := default [] (r.(hashToNode) !! point_at r i).
Definition NodeFor (key : bytes) (r : HashRing) : bytes :=
  match r.(sortedHashes) with [] => [] | _ => node_at r (searchLocked (hashKey key) r) end.

(** The nodes in clockwise order, each once. *)
Fixpoint keep_first (seen : gset bytes) (l : list bytes) : list bytes :=
  match l with
  | [] => []
  | x :: l => if bool_decide (x ∈ seen) then keep_first seen l else x :: keep_first ({[x]} ∪ seen) l
  end.
Definition walkNodesFrom (key : bytes) (r : HashRing) : list bytes :=
  let n := length r.(sortedHashes) in
  match n with
  | O => []
  | _ => let start := searchLocked (hashKey key) r in
         keep_first ∅ (map (fun i => node_at r ((start + i) mod n)%nat) (seq 0 n))
  end.

(** ** Shards *)
Definition shardAnchor (shardID : Z) : bytes := str "shard#" ++ Json.show_int shardID.
Definition ShardReplicas (ring : HashRing) (shardID rf : Z) : list bytes :=
  let ns := walkNodesFrom (shardAnchor shardID) ring in
  let rf := if rf <=? 0 then 1 else rf in
  take (Z.to_nat (Z.min rf (len ns))) ns.
(** [uint32(shardCount)] may be zero although [shardCount] is not. *)
Definition ShardOf (key : bytes) (shardCount : Z) : go Z :=
  if shardCount <=? 0 then Ret 0
  else if u32 shardCount =? 0 then Panic else Ret (hashKey key mod u32 shardCount).

(** ** Liveness (registry.go) *)
Record Registry := MkRegistry { ttl : Z; lastSeen : gmap bytes Z }.
Definition NewRegistry (ns : list bytes) (ttl now : Z) : Registry :=
  MkRegistry ttl (fold_left (fun m n => <[n := now]> m) ns ∅).
Definition Heartbeat (now : Z) (node : bytes) (g : Registry) : Registry := MkRegistry g.(ttl) (<[node := now]> g.(lastSeen)).
Definition fresh (now : Z) (g : Registry) (last : Z) : bool := now - last <=? g.(ttl).
Definition IsAlive (now : Z) (node : bytes) (g : Registry) : bool :=
  match g.(lastSeen) !! node with Some last => fresh now g last | None => false end.
#[local] Instance ble_rel_dec : RelDecision ble.
Proof. intros a b. unfold ble. apply _. Defined.
Definition AliveNodes (now : Z) (g : Registry) : list bytes :=
  merge_sort ble (map fst (List.filter (fun p => fresh now g p.2) (map_to_list g.(lastSeen)))).

(** ** Placement (placement.go) *)
Record Placement := MkPlacement { ring : HashRing; reg : Registry }.
Definition OwnerOf (now : Z) (key : bytes) (p : Placement) : bytes :=
  default [] (List.find (fun n => IsAlive now n p.(reg)) (walkNodesFrom key p.(ring))).
Definition Failover (dead : bytes) (p : Placement) : Placement := MkPlacement (RemoveNode dead p.(ring)) p.(reg).
Definition IsLocal (now : Z) (key self : bytes) (p : Placement) : bool := beqb (OwnerOf now key p) self.
Definition NewClusterFromPeers (peers : list bytes) (vnodes aliveTTL now : Z) : Placement :=
  MkPlacement (NewHashRing peers vnodes) (NewRegistry peers aliveTTL now).

(** Checked against [crc32.ChecksumIEEE] of the nine digits. *)
Example crc32_check : hashKey (str "123456789") = 0xCBF43926.
Proof. vm_compute. reflexivity. Qed.

End Cluster.
