(* ===== verification/ClusterSpec.v ===== *)
(** * Placement: consistent hashing moves as few keys as it can

    Every ring that can be built keeps [ring_ok].  Clockwise from a key the
    code's bisection and wrap-around give the points in cyclic order ([cw]);
    removing a node filters that order, so everything derived from it, owners,
    fail-over and replica sets, changes only where it must. *)
From stdpp Require Import sorting gmap sets list.
From S2P Require Import Prelude Bytes Json Cluster.
Import Cluster.

Module ClusterSpec.

(** ** Bisection *)
Lemma search_spec fuel f i j :
  (j - i < fuel)%nat -> (i <= j)%nat -> (forall a b, (a <= b < j)%nat -> f a = true -> f b = true) ->
  let k := search fuel f i j in
  (i <= k <= j)%nat /\ (forall a, (i <= a < k)%nat -> f a = false) /\ (forall a, (k <= a < j)%nat -> f a = true).
Proof.
  revert i j. induction fuel as [|fuel IH]; intros i j Hf Hij Hm; [lia|]. cbn [search].
  destruct (Nat.ltb_spec i j) as [Hlt|]; [|cbn; repeat split; intros; lia].
  assert (i <= (i + j) / 2 < j)%nat as Hh.
  { split; [apply Nat.div_le_lower_bound; lia | apply Nat.Div0.div_lt_upper_bound; lia]. }
  set (h := ((i + j) / 2)%nat) in *. cbv zeta. destruct (f h) eqn:E.
  - destruct (IH i h) as (A & B & C); [lia | lia | intros a b Hab; apply Hm; lia|].
    repeat split; [lia | lia | done|]. intros a Ha. destruct (decide (a < h)%nat); [apply C; lia|].
    apply (Hm h a); [lia | done].
  - destruct (IH (S h) j) as (A & B & C); [lia | lia | done|].
    repeat split; [lia | lia | | done]. intros a Ha. destruct (decide (h < a)%nat); [apply B; lia|].
    destruct (f a) eqn:E2; [|done]. rewrite (Hm a h) in E; [done | lia | done].
Qed.

(** ** Strictly ascending point lists *)
Notation asc := (StronglySorted Z.lt).

Lemma asc_le m : asc m -> StronglySorted Z.le m /\ NoDup m.
Proof.
  induction 1 as [|x m _ [IH1 IH2] F]; [split; constructor|]. rewrite Forall_forall in F.
  split; constructor; try done.
  - rewrite Forall_forall. intros y Hy. specialize (F _ Hy). lia.
  - intros Hx. specialize (F _ Hx). lia.
Qed.

Lemma asc_unique l k : asc l -> asc k -> (forall x, x ∈ l <-> x ∈ k) -> l = k.
Proof.
  intros [Hl Nl]%asc_le [Hk Nk]%asc_le H. apply (StronglySorted_unique Z.le); [done | done|].
  by apply NoDup_Permutation.
Qed.

Lemma asc_filter (P : Z -> Prop) `{forall x, Decision (P x)} l : asc l -> asc (filter P l).
Proof.
  induction 1 as [|x l _ IH F]; [constructor|]. rewrite filter_cons. case_decide; [|done].
  constructor; [done|]. rewrite Forall_forall in *. intros y Hy. apply F.
  apply list_elem_of_filter in Hy. tauto.
Qed.

Lemma asc_lookup l i j x y : asc l -> (i < j)%nat -> l !! i = Some x -> l !! j = Some y -> x < y.
Proof.
  intros Hl. revert i j. induction Hl as [|z l _ IH F]; intros i j Hij Hi Hj; [done|].
  destruct j as [|j]; [lia|]. destruct i as [|i].
  - cbn in Hi, Hj. injection Hi as <-. rewrite Forall_forall in F. apply F, (list_elem_of_lookup_2 _ j), Hj.
  - cbn in Hi, Hj. eapply IH; [|done..]. lia.
Qed.

Lemma filter_keeps (P : Z -> Prop) `{forall x, Decision (P x)} l : Forall P l -> filter P l = l.
Proof. induction 1; [done|]. rewrite filter_cons_True by done. congruence. Qed.
Lemma filter_drops (P : Z -> Prop) `{forall x, Decision (P x)} l : Forall (fun x => ~ P x) l -> filter P l = [].
Proof. induction 1; [done|]. rewrite filter_cons_False by done. done. Qed.

(** Splitting at the first point not below [h]. *)
Lemma asc_split l h i : asc l ->
  (forall a x, (a < i)%nat -> l !! a = Some x -> x < h) ->
  (forall a x, (i <= a)%nat -> l !! a = Some x -> h <= x) ->
  drop i l = filter (fun x => h <= x) l /\ take i l = filter (fun x => x < h) l.
Proof.
  intros _ Hlo Hhi. 
  assert (forall (P : Z -> Prop) (D : forall x, Decision (P x)),
    filter P l = filter P (take i l) ++ filter P (drop i l)) as E.
  { intros P D. by rewrite <- filter_app, take_drop. }
  rewrite !E.
  assert (Forall (fun x => x < h) (take i l)) as F1.
  { apply Forall_lookup. intros a x. rewrite lookup_take_Some. intros [Ha ?]. eauto. }
  assert (Forall (fun x => h <= x) (drop i l)) as F2.
  { apply Forall_lookup. intros a x. rewrite lookup_drop. intros. eapply Hhi; [|done]. lia. }
  split.
  - rewrite (filter_drops _ (take i l)), (filter_keeps _ (drop i l)); try done.
    eapply Forall_impl; [exact F1|]. cbn. intros; lia.
  - rewrite (filter_keeps _ (take i l)), (filter_drops _ (drop i l)), app_nil_r; try done.
    eapply Forall_impl; [exact F2|]. cbn. intros; lia.
Qed.

(** ** The invariant of a ring *)
Record ring_ok (r : HashRing) : Prop := {
  ok_sorted : asc r.(sortedHashes);
  ok_points h : h ∈ r.(sortedHashes) <-> is_Some (r.(hashToNode) !! h);
  ok_owner h n : r.(hashToNode) !! h = Some n -> n ∈ r.(nodes) /\ h ∈ points r n }.
(** The same before the points have been sorted again. *)
Definition owners_ok (r : HashRing) : Prop :=
  forall h n, r.(hashToNode) !! h = Some n -> n ∈ r.(nodes) /\ h ∈ points r n.

Lemma rebuild_ok r : owners_ok r -> ring_ok (rebuildLocked r).
Proof.
  intros H. split; [| |exact H].
  - cbn. set (l := map fst (map_to_list r.(hashToNode))).
    assert (NoDup l) as ND by apply NoDup_fst_map_to_list.
    pose proof (StronglySorted_merge_sort Z.le l) as S.
    rewrite <- (merge_sort_Permutation Z.le l) in ND.
    induction S as [|x m _ IH F]; [constructor|]. apply NoDup_cons in ND as [N1 N2].
    constructor; [by apply IH|]. rewrite Forall_forall in *. intros y Hy. specialize (F _ Hy).
    assert (x <> y) by (intros ->; done). lia.
  - intros h. cbn. rewrite merge_sort_Permutation. rewrite list_elem_of_fmap. split.
    + intros ([h' n] & -> & Hin). exists n. by apply elem_of_map_to_list.
    + intros [n Hn]. exists (h, n). split; [done|]. by apply elem_of_map_to_list.
Qed.

Lemma fold_insert ps n (m : gmap Z bytes) h :
  fold_left (fun m h => <[h := n]> m) ps m !! h = if bool_decide (h ∈ ps) then Some n else m !! h.
Proof.
  revert m. induction ps as [|p ps IH]; intros m; [done|]. cbn [fold_left]. rewrite IH.
  destruct (decide (h ∈ ps)); [rewrite !bool_decide_true by (try done; by right); done|].
  rewrite (bool_decide_false (h ∈ ps)) by done. destruct (decide (h = p)) as [->|].
  - rewrite lookup_insert_eq, bool_decide_true by left. done.
  - rewrite lookup_insert_ne, bool_decide_false by (rewrite ?elem_of_cons; naive_solver). done.
Qed.

Lemma fold_drop ps n (m : gmap Z bytes) h :
  fold_left (drop_point n) ps m !! h =
  if bool_decide (h ∈ ps /\ m !! h = Some n) then None else m !! h.
Proof.
  revert m. induction ps as [|p ps IH]; intros m; [done|]. cbn [fold_left]. rewrite IH. clear IH.
  assert (drop_point n m p !! h = if bool_decide (h = p /\ m !! h = Some n) then None else m !! h) as E.
  { unfold drop_point. repeat case_bool_decide; try naive_solver.
    - destruct H0 as [-> ?]. by rewrite lookup_delete_eq.
    - apply lookup_delete_ne. naive_solver. }
  rewrite E. pose proof (elem_of_cons ps h p). repeat case_bool_decide; naive_solver.
Qed.

Lemma add_owners r n : owners_ok r -> owners_ok (addNodeLocked n r).
Proof.
  intros H. unfold addNodeLocked. case_bool_decide; [done|]. intros h m. cbn. rewrite fold_insert.
  case_bool_decide; [intros [= <-]; split; [set_solver | done]|].
  intros Hm. destruct (H _ _ Hm). split; [set_solver | done].
Qed.

Lemma new_ok ns v : ring_ok (NewHashRing ns v).
Proof.
  unfold NewHashRing. apply rebuild_ok. set (r0 := MkRing _ _ _ _).
  assert (owners_ok r0) as H by (intros h n; cbn; by rewrite lookup_empty).
  clearbody r0. revert r0 H. induction ns as [|n ns IH]; intros r0 H; [done|]. cbn. apply IH, add_owners, H.
Qed.

Lemma add_ok r n : ring_ok r -> ring_ok (AddNode n r).
Proof.
  intros H. unfold AddNode. destruct (decide (n ∈ r.(nodes))) as [Hn|Hn].
  - unfold addNodeLocked. rewrite bool_decide_true by done. by rewrite Nat.eqb_refl.
  - cbv zeta. assert (size (addNodeLocked n r).(nodes) <> size r.(nodes)) as E.
    { unfold addNodeLocked. rewrite bool_decide_false by done. cbn. rewrite size_union by set_solver.
      rewrite size_singleton. lia. }
    destruct (Nat.eqb_spec (size (addNodeLocked n r).(nodes)) (size r.(nodes))); [done|].
    apply rebuild_ok, add_owners. exact (ok_owner _ H).
Qed.

Lemma remove_ok r n : ring_ok r -> ring_ok (RemoveNode n r).
Proof.
  intros H. unfold RemoveNode. case_bool_decide as Hn; [|done]. apply rebuild_ok. intros h m. cbn.
  rewrite fold_drop. case_bool_decide as Hd; [done|]. intros Hm. destruct (ok_owner _ H _ _ Hm) as [A B].
  split; [|done]. apply elem_of_difference. split; [done|]. intros ->%elem_of_singleton. naive_solver.
Qed.

(** ** Clockwise from a hash *)
Definition cw (r : HashRing) (h : Z) : list Z :=
  filter (fun x => h <= x) r.(sortedHashes) ++ filter (fun x => x < h) r.(sortedHashes).
Definition owner (r : HashRing) (h : Z) : bytes := default [] (r.(hashToNode) !! h).

Lemma rotated {A} (f : nat -> A) l start : (start < length l \/ start = 0)%nat -> (forall i x, l !! i = Some x -> f i = x) ->
  map (fun i => f ((start + i) mod length l)%nat) (seq 0 (length l)) = drop start l ++ take start l.
Proof.
  intros Hs Hf. apply list_eq. intros i. rewrite list_lookup_fmap.
  destruct (decide (i < length l)%nat) as [Hi|Hi].
  - rewrite lookup_seq_lt by done. cbn. destruct (decide (start + i < length l)%nat) as [Hsi|Hsi].
    + rewrite lookup_app_l by (rewrite length_drop; lia). rewrite lookup_drop.
      destruct (lookup_lt_is_Some_2 l (start + i) Hsi) as [x Hx].
      by rewrite Nat.mod_small, Hx, (Hf _ _ Hx) by lia.
    + rewrite lookup_app_r by (rewrite length_drop; lia). rewrite length_drop.
      rewrite lookup_take_lt by lia. destruct (lookup_lt_is_Some_2 l (i - (length l - start))) as [x Hx]; [lia|].
      rewrite Hx. f_equal. apply Hf. rewrite <- Hx. f_equal.
      symmetry. apply (Nat.mod_unique _ _ 1); lia.
  - rewrite lookup_seq_ge by lia. rewrite lookup_ge_None_2; [done|]. rewrite length_app, length_drop, length_take. lia.
Qed.

Lemma point_lookup r i x : r.(sortedHashes) !! i = Some x -> point_at r i = x.
Proof. apply nth_lookup_Some. Qed.

Lemma search_cw r h : ring_ok r ->
  let k := searchLocked h r in
  (k < length r.(sortedHashes) \/ k = 0)%nat /\ drop k r.(sortedHashes) ++ take k r.(sortedHashes) = cw r h.
Proof.
  intros [S _ _]. unfold searchLocked, cw. set (l := r.(sortedHashes)) in *. cbv zeta.
  assert (forall a b, (a <= b < length l)%nat -> (h <=? point_at r a) = true -> (h <=? point_at r b) = true) as Hm.
  { intros a b Hab. destruct (lookup_lt_is_Some_2 l a) as [x Hx]; [lia|]. destruct (lookup_lt_is_Some_2 l b) as [y Hy]; [lia|].
    rewrite (point_lookup _ _ _ Hx), (point_lookup _ _ _ Hy), !Z.leb_le.
    destruct (decide (a = b)) as [->|]; [naive_solver|]. pose proof (asc_lookup l a b x y S ltac:(lia) Hx Hy). lia. }
  destruct (search_spec (Datatypes.S (length l)) _ 0 (length l) ltac:(lia) ltac:(lia) Hm) as (A & B & C).
  set (k := search _ _ _ _) in *.
  destruct (asc_split l h k S) as [E1 E2].
  { intros a x Ha Hx. specialize (B a ltac:(lia)). rewrite (point_lookup _ _ _ Hx), Z.leb_gt in B. lia. }
  { intros a x Ha Hx. specialize (C a). rewrite (point_lookup _ _ _ Hx), Z.leb_le in C. apply C.
    apply lookup_lt_Some in Hx. lia. }
  rewrite <- E1, <- E2. destruct (Nat.eqb_spec k (length l)) as [->|]; [|split; [lia | done]].
  split; [by right|]. by rewrite drop_0, take_0, app_nil_r, drop_all, firstn_all.
Qed.

Lemma walk_cw key r : ring_ok r -> walkNodesFrom key r = keep_first ∅ (map (owner r) (cw r (hashKey key))).
Proof.
  intros H. destruct (search_cw r (hashKey key) H) as [Hk <-]. unfold walkNodesFrom. cbv zeta.
  destruct (length r.(sortedHashes)) eqn:E.
  - apply nil_length_inv in E. rewrite E. by rewrite drop_nil, take_nil.
  - rewrite <- E in *. f_equal. rewrite <- (rotated (point_at r)) by (done || apply point_lookup).
    rewrite map_map. done.
Qed.

Lemma node_cw key r : ring_ok r -> NodeFor key r = default [] (head (map (owner r) (cw r (hashKey key)))).
Proof.
  intros H. destruct (search_cw r (hashKey key) H) as [Hk <-]. unfold NodeFor.
  destruct (r.(sortedHashes)) eqn:E; [by rewrite drop_nil, take_nil|]. rewrite <- E in *.
  set (k := searchLocked _ _) in *.
  assert (k < length r.(sortedHashes))%nat as Hlt by (rewrite E in *; cbn in *; lia).
  destruct (lookup_lt_is_Some_2 _ _ Hlt) as [x Hx]. rewrite (drop_S _ _ _ Hx). cbn. unfold node_at.
  by rewrite (point_lookup _ _ _ Hx).
Qed.

(** ** Removing a node *)
Lemma removed_lookup r n h : ring_ok r ->
  (RemoveNode n r).(hashToNode) !! h = if bool_decide (r.(hashToNode) !! h = Some n) then None else r.(hashToNode) !! h.
Proof.
  intros H. unfold RemoveNode. case_bool_decide as Hn.
  - cbn. rewrite fold_drop. repeat case_bool_decide; try naive_solver.
    destruct (ok_owner _ H _ _ H1). naive_solver.
  - case_bool_decide as E; [|done]. by destruct (ok_owner _ H _ _ E).
Qed.

Lemma removed_cw r n h : ring_ok r -> cw (RemoveNode n r) h = filter (fun p => r.(hashToNode) !! p <> Some n) (cw r h).
Proof.
  intros H. assert ((RemoveNode n r).(sortedHashes) = filter (fun p => r.(hashToNode) !! p <> Some n) r.(sortedHashes)) as E.
  { pose proof (remove_ok r n H) as H'. apply asc_unique; [apply H' | apply asc_filter, H|]. intros p.
    rewrite (ok_points _ H'), list_elem_of_filter, (ok_points _ H), removed_lookup by done.
    case_bool_decide; [|naive_solver]. split; [by intros []|naive_solver]. }
  unfold cw. rewrite E, filter_app, !list_filter_filter. f_equal; apply list_filter_iff; intros; tauto.
Qed.

Lemma filter_owned r n l : Forall (fun p => is_Some (r.(hashToNode) !! p)) l -> ring_ok r ->
  map (owner (RemoveNode n r)) (filter (fun p => r.(hashToNode) !! p <> Some n) l) = filter (fun m => m <> n) (map (owner r) l).
Proof.
  intros F H. induction F as [|p l [m Hm] _ IH]; [done|]. cbn [map]. rewrite !filter_cons.
  assert (owner r p = m) as Eo by (unfold owner; by rewrite Hm). rewrite Eo.
  repeat case_decide; try congruence. cbn [map]. rewrite IH. f_equal.
  unfold owner. rewrite removed_lookup, bool_decide_false, Hm by done. done.
Qed.

Lemma cw_owned r h : ring_ok r -> Forall (fun p => is_Some (r.(hashToNode) !! p)) (cw r h).
Proof.
  intros H. apply Forall_forall. intros p. unfold cw. rewrite elem_of_app, !list_elem_of_filter, (ok_points _ H). tauto.
Qed.

Lemma keep_first_filter n l s1 s2 : (forall x, x <> n -> x ∈ s1 <-> x ∈ s2) ->
  filter (fun m => m <> n) (keep_first s1 l) = keep_first s2 (filter (fun m => m <> n) l).
Proof.
  revert s1 s2. induction l as [|x l IH]; intros s1 s2 Hs; [done|]. cbn [keep_first].
  rewrite (filter_cons _ x l). destruct (decide (x <> n)) as [Hx|Hx].
  - cbn [keep_first]. rewrite (bool_decide_ext (x ∈ s1) (x ∈ s2)) by auto. case_bool_decide; [by apply IH|].
    rewrite filter_cons_True by done. f_equal. apply IH. set_solver.
  - case_bool_decide; [by apply IH|]. rewrite filter_cons_False by done. apply IH. set_solver.
Qed.

Lemma removed_walk r n key : ring_ok r ->
  walkNodesFrom key (RemoveNode n r) = filter (fun m => m <> n) (walkNodesFrom key r).
Proof.
  intros H. rewrite !walk_cw by auto using remove_ok. rewrite (keep_first_filter n _ ∅ ∅) by done.
  rewrite removed_cw, filter_owned by auto using cw_owned. done.
Qed.

Lemma keep_first_props s l : NoDup (keep_first s l) /\ (forall x, x ∈ keep_first s l <-> x ∈ l /\ x ∉ s).
Proof.
  revert s. induction l as [|x l IH]; intros s; cbn [keep_first].
  - split; [constructor|]. intros y. rewrite elem_of_nil. tauto.
  - case_bool_decide as Hx.
    + destruct (IH s) as [N E]. split; [done|]. intros y. rewrite E, elem_of_cons. naive_solver.
    + destruct (IH ({[x]} ∪ s)) as [N E]. split; [constructor; [rewrite E; set_solver | done]|].
      intros y. rewrite !elem_of_cons, E. destruct (decide (y = x)); set_solver.
Qed.

(** ** Adding a node *)
Lemma added_lookup r n h : n ∉ r.(nodes) -> 
  (AddNode n r).(hashToNode) !! h = if bool_decide (h ∈ points r n) then Some n else r.(hashToNode) !! h.
Proof.
  intros Hn. transitivity ((addNodeLocked n r).(hashToNode) !! h); [unfold AddNode; cbv zeta; by destruct (_ =? _)%nat|].
  unfold addNodeLocked. rewrite bool_decide_false by done. cbn. apply fold_insert.
Qed.

Lemma added_cw r n h : ring_ok r -> n ∉ r.(nodes) ->
  cw r h = filter (fun p => is_Some (r.(hashToNode) !! p)) (cw (AddNode n r) h).
Proof.
  intros H Hn. assert (r.(sortedHashes) = filter (fun p => is_Some (r.(hashToNode) !! p)) (AddNode n r).(sortedHashes)) as E.
  { pose proof (add_ok r n H) as H'. apply asc_unique; [apply H | apply asc_filter, H'|]. intros p.
    rewrite (ok_points _ H), list_elem_of_filter, (ok_points _ H'), added_lookup by done.
    case_bool_decide; naive_solver. }
  unfold cw. rewrite E, filter_app, !list_filter_filter. f_equal; apply list_filter_iff; intros; tauto.
Qed.

Lemma added_node r n key : ring_ok r -> NodeFor key (AddNode n r) = n \/ NodeFor key (AddNode n r) = NodeFor key r.
Proof.
  intros H. destruct (decide (n ∈ r.(nodes))) as [Hin|Hn].
  { right. unfold AddNode, addNodeLocked. rewrite bool_decide_true by done. by rewrite Nat.eqb_refl. }
  pose proof (add_ok r n H) as H'. rewrite !node_cw by done. rewrite (added_cw r n) by done.
  pose proof (cw_owned _ (hashKey key) H') as F. destruct (cw (AddNode n r) (hashKey key)) as [|p l]; [by right|].
  apply Forall_cons in F as [[m Hm] _]. cbn [map head].
  assert (owner (AddNode n r) p = m) as -> by (unfold owner; by rewrite Hm). rewrite added_lookup in Hm by done.
  case_bool_decide; [left; by injection Hm as ->|]. right.
  rewrite filter_cons_True by (by exists m). cbn. unfold owner. by rewrite Hm.
Qed.

(** ** Every ring that can be built *)
Inductive change := Joins (n : bytes) | Leaves (n : bytes).
Definition changed (r : HashRing) (c : change) : HashRing :=
  match c with Joins n => AddNode n r | Leaves n => RemoveNode n r end.
Definition built (ns : list bytes) (v : Z) (cs : list change) : HashRing := fold_left changed cs (NewHashRing ns v).

Lemma built_ok ns v cs : ring_ok (built ns v cs).
Proof.
  unfold built. pose proof (new_ok ns v) as H. revert H. generalize (NewHashRing ns v).
  induction cs as [|[n|n] cs IH]; intros r H; [done | apply IH, add_ok, H | apply IH, remove_ok, H].
Qed.
#[local] Hint Resolve built_ok : core.

Lemma find_filter (P Q : bytes -> bool) n l : (forall x, Q x = negb (beqb x n) && P x) ->
  List.find P (filter (fun m => m <> n) l) = List.find Q l.
Proof.
  intros HQ. induction l as [|x l IH]; [done|]. rewrite filter_cons. cbn [List.find]. rewrite HQ.
  destruct (decide (x <> n)) as [Hx|Hx].
  - rewrite (proj2 (beqb_neq _ _)) by done. cbn. by destruct (P x).
  - rewrite (proj2 (beqb_eq _ _)) by (destruct (decide (x = n)); tauto). exact IH.
Qed.

(** C35: On every ring that can be built by creating it and by nodes joining and
    leaving, whatever the hash collisions: when a node joins, a key stays where
    it is or moves to the new node; when a node leaves, a key that was not its
    own stays where it is, and the clockwise order of the others is unchanged. *)
Theorem ring_minimal_movement ns v cs n key :
  let r := built ns v cs in
  (NodeFor key (AddNode n r) = n \/ NodeFor key (AddNode n r) = NodeFor key r) /\
  (NodeFor key r <> n -> NodeFor key (RemoveNode n r) = NodeFor key r) /\
  walkNodesFrom key (RemoveNode n r) = filter (fun m => m <> n) (walkNodesFrom key r).
Proof.
  cbv zeta. split; [by apply added_node|]. split; [|by apply removed_walk].
  rewrite !node_cw by auto using remove_ok. rewrite removed_cw, filter_owned by auto using cw_owned.
  destruct (map _ _) as [|m l]; [done|]. intros Hm. by rewrite filter_cons_True.
Qed.

Lemma ring_minimal_movement_witness :
  let r := built [str "a"; str "b"; str "c"] 4 [] in
  NodeFor (str "k1") (RemoveNode (str "a") r) = NodeFor (str "k1") r.
Proof.
  cbv zeta. destruct (ring_minimal_movement [str "a"; str "b"; str "c"] 4 [] (str "a") (str "k1")) as (_ & H & _).
  apply H. vm_compute. discriminate.
Defined.

(** Taking a dead node off the ring gives every key the owner that skipping
    the node at each lookup gives it, for every liveness of the others; and the
    replica set of a shard loses only that node: the others keep their order
    and new ones are appended. *)
Theorem failover_is_skipping ns v cs g now dead key shard rf :
  let p := MkPlacement (built ns v cs) g in
  OwnerOf now key (Failover dead p) = OwnerOf now key (MkPlacement p.(ring) (MkRegistry g.(ttl) (delete dead g.(lastSeen)))) /\
  filter (fun m => m <> dead) (ShardReplicas p.(ring) shard rf) `prefix_of` ShardReplicas (RemoveNode dead p.(ring)) shard rf.
Proof.
  cbv zeta. cbn [ring]. split.
  - unfold OwnerOf, Failover. cbn [ring reg]. rewrite removed_walk by done. f_equal. apply find_filter. intros x.
    unfold IsAlive. cbn. unfold beqb. case_bool_decide as E; cbn.
    + subst x. by rewrite lookup_delete_eq.
    + rewrite lookup_delete_ne by congruence. done.
  - unfold ShardReplicas. rewrite removed_walk by done. set (w := walkNodesFrom _ _). cbv zeta.
    set (f := if rf <=? 0 then 1 else rf). assert (0 < f) as Hf by (unfold f; destruct (Z.leb_spec rf 0); lia).
    assert (forall l : list bytes, take (Z.to_nat (Z.min f (len l))) l = take (Z.to_nat f) l) as T.
    { intros l. unfold len. destruct (Z.leb_spec f (Z.of_nat (length l))); [by rewrite Z.min_l by lia|].
      rewrite Z.min_r by lia. rewrite !take_ge by lia. done. }
    rewrite !T. generalize (Z.to_nat f). clear. intros k. revert k. induction w as [|x w IH]; intros [|k]; try apply prefix_nil.
    cbn [take]. rewrite !filter_cons. case_decide as Hx.
    + cbn [take]. apply prefix_cons, IH.
    + etransitivity; [apply IH|]. replace k with (k `min` S k)%nat at 1 by lia. rewrite <- take_take. apply prefix_take.
Qed.

End ClusterSpec.
