(* ===== verification/Replica.v ===== *)
(** * The replicated server ([service/fsm.go] in raft mode)

    A write is encoded as a JSON command and proposed to the consensus module;
    every node applies the entries the module hands it on [ApplyCh], one after
    the other, to its storage engine.  A snapshot entry is replayed by a
    goroutine of its own, which writes its commands to an SSTable.  The engine's
    flushes and compactions run in the background; an entry whose write waits
    for credit stops the apply loop.

    Without snapshots a replica's data is a function of the entries it has
    applied, whatever its background work.  With them it is not: the runs at
    the end of the file. *)
From S2P Require Import Prelude Bytes Entries Bloom BlockCache SSTFile MergeIter SSTables Credit SkipList Engine EngineOps EngineRun.
From S2P Require Import Json JsonSpec JobCodec Delivery DeliverySpec RaftWal.
Import Json JsonSpec Bloom Merge Tables Credit Eng EngOps EngRun.

Module Rep.

(** ** Commands *)
Definition CommandPut : bytes := str "Put".
Definition CommandDelete : bytes := str "Delete".
Record Command := MkCommand { CType : bytes; CKey : option bytes; CValue : option bytes }.

Definition json_command (c : Command) : json :=
  JObj [(str "Type", JStr c.(CType)); (str "Key", Dlv.json_bytes c.(CKey)); (str "Value", Dlv.json_bytes c.(CValue))].
Definition EncodeCommand (c : Command) : bytes := print (json_command c).
Definition command_fields : list (field Command) := [
  (str "Type", set_string (fun x c => MkCommand x c.(CKey) c.(CValue)));
  (str "Key", Dlv.set_bytes (fun x c => MkCommand c.(CType) x c.(CValue)));
  (str "Value", Dlv.set_bytes (fun x c => MkCommand c.(CType) c.(CKey) x))].
Definition decode_command (raw : bytes) : option Command := Unmarshal command_fields (MkCommand [] None None) raw.

(** What a command writes; other types are ignored. *)
Definition command_entry (c : Command) : option LogEntry :=
  if beqb c.(CType) CommandPut then Some (MkLogEntry (default [] c.(CKey)) c.(CValue))
  else if beqb c.(CType) CommandDelete then Some (MkLogEntry (default [] c.(CKey)) None)
  else None.
Definition entry_of (e : RaftWal.LogEntry) : option LogEntry := c ← decode_command e.(RaftWal.Command); command_entry c.

Section Server.
Context {T : Type} `{OT : OrderedTable T}.
Context (opt_m : Z -> Z) (opt_k : Z -> Z -> Z) (iter_order : gmap bytes BloomFilter -> list (bytes * BloomFilter)).
Notation Engine := (Engine (T := T)).

(** [inbox] is what is still in [ApplyCh], [waiting] the write the apply loop is
    blocked in, [replays] the snapshot goroutines that have not run yet. *)
Record Replica := MkReplica { engine : Engine; inbox : list RaftWal.LogEntry; waiting : option LogEntry; replays : list RaftWal.LogEntry }.

Definition NewReplica (o : Options) (log : list RaftWal.LogEntry) : Replica := MkReplica (NewEngine o ∅) log None [].

(** [Put] or [Delete] on the engine; a failed write is only logged. *)
Definition store_write (draws : list bool) (x : LogEntry) (e : Engine) : go (Engine * bool) :=
  w ← match x.(Value) with Some _ => Put e draws x.(Key) x.(Value) | None => Delete e draws x.(Key) end;
  Ret match w with Wrote e _ => (e, true) | Blocked e => (e, false) end.

Definition try_write (draws : list bool) (x : LogEntry) (r : Replica) : go Replica :=
  '(e, fin) ← store_write draws x r.(engine);
  Ret (MkReplica e r.(inbox) (if fin : bool then None else Some x) r.(replays)).

(** One turn of the loop of [Run]: [Apply] of the next entry. *)
Definition Apply (draws : list bool) (entry : RaftWal.LogEntry) (r : Replica) : go Replica :=
  if entry.(RaftWal.IsSnapshot) then Ret (MkReplica r.(engine) r.(inbox) r.(waiting) (r.(replays) ++ [entry]))
  else match entry_of entry with
       | Some x => try_write draws x r
       | None => Ret r
       end.

Definition replaySnapshot (draws : list bool) (now : Z) (wr : write_result) (entry : RaftWal.LogEntry) (e : Engine) : go Engine :=
  entries ← RaftWal.DeserializeLogEntries entry.(RaftWal.Command);
  '(e, _) ← FlushToSSTable opt_m opt_k iter_order e draws (omap entry_of entries) now wr;
  Ret e.

Inductive event :=
| Next (draws : list bool)                    (* the loop takes the next entry, or retries the blocked write *)
| Background (o : op)                         (* a turn of a background goroutine *)
| Replays (i : nat) (draws : list bool) (now : Z) (wr : write_result).

Definition turn (ev : event) (r : Replica) : go Replica :=
  match ev with
  | Next draws =>
      match r.(waiting), r.(inbox) with
      | Some x, _ => try_write draws x r
      | None, [] => Ret r
      | None, entry :: inbox => Apply draws entry (MkReplica r.(engine) inbox None r.(replays))
      end
  | Background o =>
      match o with
      | OFlush _ _ | OCompact _ _ _ => '(e, _) ← exec_op opt_m opt_k iter_order r.(engine) o; Ret (MkReplica e r.(inbox) r.(waiting) r.(replays))
      | _ => Ret r
      end
  | Replays i draws now wr =>
      match r.(replays) !! i with
      | None => Ret r
      | Some entry =>
          e ← replaySnapshot draws now wr entry r.(engine);
          Ret (MkReplica e r.(inbox) r.(waiting) (delete i r.(replays)))
      end
  end.
Fixpoint turns (evs : list event) (r : Replica) : go Replica :=
  match evs with [] => Ret r | ev :: evs => r ← turn ev r; turns evs r end.

(** A read of the storage. *)
Definition reads (k : bytes) (r : Replica) : go (result storage_error bytes) := '(_, v) ← Get r.(engine) k; Ret v.
End Server.

(** ** The reference: a log of commands is a map *)
Definition write_map (m : bytes -> option bytes) (x : LogEntry) : bytes -> option bytes :=
  fun k => if beqb x.(Key) k then x.(Value) else m k.
Definition log_map (es : list LogEntry) : bytes -> option bytes := fold_left write_map es (fun _ => None).

(** *** Commands survive their trip through the log *)
Lemma command_roundtrip c : Valid c.(CType) -> decode_command (EncodeCommand c) = Some c.
Proof.
  intros Hv. unfold decode_command, EncodeCommand.
  rewrite (JobCodec.unmarshal_print _ _ 1); [|by repeat constructor; apply DlvSpec.wf_bytes|by vm_compute].
  unfold json_command. cbn [sanitize decode_struct map fst snd]. rewrite !DlvSpec.sanitize_bytes, (to_valid_id (CType c)) by done.
  JobCodec.valid_names.
  erewrite (JobCodec.set_field_at _ 0%nat); [|reflexivity|vm_compute; reflexivity|reflexivity|reflexivity].
  erewrite (JobCodec.set_field_at _ 1%nat); [|reflexivity|vm_compute; reflexivity|reflexivity|apply DlvSpec.set_bytes_json].
  erewrite (JobCodec.set_field_at _ 2%nat); [|reflexivity|vm_compute; reflexivity|reflexivity|apply DlvSpec.set_bytes_json].
  by destruct c.
Qed.

Definition put_cmd (k v : bytes) : Command := MkCommand CommandPut (Some k) (Some v).
Definition del_cmd (k : bytes) : Command := MkCommand CommandDelete (Some k) None.
Lemma put_entry i t k v : entry_of (RaftWal.MkEntry i t (EncodeCommand (put_cmd k v)) false) = Some (MkLogEntry k (Some v)).
Proof. unfold entry_of. cbn [RaftWal.Command]. rewrite command_roundtrip; [done|]. apply valid_utf8_Valid. by vm_compute. Qed.
Lemma del_entry i t k : entry_of (RaftWal.MkEntry i t (EncodeCommand (del_cmd k)) false) = Some (MkLogEntry k None).
Proof. unfold entry_of. cbn [RaftWal.Command]. rewrite command_roundtrip; [done|]. apply valid_utf8_Valid. by vm_compute. Qed.

(** ** A replica is the log it has applied *)
Definition background (evs : list event) : list op := omap (fun ev => match ev with Background o => Some o | _ => None end) evs.

(** The writes of the log that have been applied: all but those of the entries
    still to come and the one the loop waits in. *)
Definition applied {T} (log : list RaftWal.LogEntry) (r : Replica (T := T)) : list LogEntry :=
  let es := omap entry_of log in
  take (length es - length (omap entry_of r.(inbox)) - match r.(waiting) with Some _ => 1 | None => 0 end) es.

Lemma total_bytes_sub es U : ascending es -> es ⊆ U -> total_bytes es <= total_bytes U.
Proof.
  intros Ha Hs. assert (es ⊆+ U) as H by (apply NoDup_submseteq; [by apply ascending_NoDup | done]).
  clear Ha Hs. assert (forall x, 0 <= entry_bytes x) as Hp.
  { intros x. unfold entry_bytes, vlen. destruct (Value x); len_lia. }
  induction H as [|x l k _ IH|x y l|x l k _ IH|l k m _ IH1 _ IH2]; unfold total_bytes in *; cbn; try lia. pose proof (Hp x). lia.
Qed.

Section Run.
Context {T : Type} `{OT : OrderedTable T}.
Context (opt_m : Z -> Z) (opt_k : Z -> Z -> Z) (iter_order : gmap bytes BloomFilter -> list (bytes * BloomFilter)).
Context (Hm : forall n, opt_m n < 2 ^ 64 - 63) (Hk : forall m n, opt_k m n < 2 ^ 64).
Context (Hord : forall ps, iter_order ps ≡ₚ map_to_list ps).
Implicit Type r : Replica (T := T).

(** The log has no snapshot, its entries fit the file format, and the clocks of
    the background work advance. *)
Record log_hyps (log : list RaftWal.LogEntry) (evs : list event) : Prop := {
  lh_plain : Forall (fun e => e.(RaftWal.IsSnapshot) = false) log;
  lh_roomy : roomy opt_m opt_k iter_order (omap entry_of log);
  lh_fits : Forall Sst.entry_fits (omap entry_of log);
  lh_bytes : 3 * total_bytes (omap entry_of log) < 2 ^ 63;
  lh_timed : timed 0 (background evs) }.

Record rep_inv (log : list RaftWal.LogEntry) (c b : Z) (es : list LogEntry) r : Prop := {
  ri_run : exists am dm tabs, run_ok (omap entry_of log) c b r.(engine) am dm tabs /\
             forall k, live_of am dm tabs k = log_map es k;
  ri_plain : Forall (fun e => e.(RaftWal.IsSnapshot) = false) r.(inbox);
  ri_replays : r.(replays) = [];
  ri_log : omap entry_of log = es ++ option_list r.(waiting) ++ omap entry_of r.(inbox) }.

Lemma inv_applied log c b es r : rep_inv log c b es r -> applied log r = es.
Proof.
  intros H. unfold applied. rewrite (ri_log _ _ _ _ _ H), !length_app.
  replace (_ - _ - _)%nat with (length es) by (destruct (waiting r); cbn; lia). apply take_app_length.
Qed.

Lemma log_map_snoc es x k : log_map (es ++ [x]) k = if beqb x.(Key) k then x.(Value) else log_map es k.
Proof. unfold log_map. by rewrite fold_left_app. Qed.

Lemma try_write_ok log c b es r x draws : rep_inv log c b es (MkReplica r.(engine) r.(inbox) (Some x) r.(replays)) ->
  3 * total_bytes (omap entry_of log) < 2 ^ 63 ->
  exists r' es', try_write draws x r = Ret r' /\ rep_inv log c b es' r'.
Proof.
  intros [(am & dm & tabs & Hr & Hv) Hp Hrep Hlog] Hb. cbn [engine inbox waiting replays] in *.
  assert (x ∈ omap entry_of log) as Hin by (rewrite Hlog; set_solver).
  pose proof (ro_engine _ _ _ _ _ _ _ Hr) as He. pose proof (ro_am _ _ _ _ _ _ _ Hr) as Ham. pose proof (ro_dm _ _ _ _ _ _ _ Hr) as Hdm.
  pose proof (total_bytes_sub am _ (eo_am_asc _ _ _ _ He) Ham). pose proof (total_bytes_sub dm _ (eo_dm_asc _ _ _ _ He) Hdm).
  pose proof (total_bytes_sub [x] (omap entry_of log) ltac:(repeat constructor) ltac:(set_solver)) as Hx.
  destruct (run_write (omap entry_of log) c b r.(engine) am dm tabs draws x.(Key) x.(Value) Hr) as (e' & a & am' & E & Hr' & Ha & _ & Hl).
  { by destruct x. } { cbn in Hx. unfold entry_bytes in Hx. lia. }
  assert (store_write draws x r.(engine) = Ret (e', match a with ADone => true | _ => false end)) as Es.
  { unfold store_write, Put, Delete. replace (match Value x with Some _ => _ | None => _ end)
      with (write r.(engine) draws x.(Key) x.(Value)) by (by destruct (Value x)).
    destruct (write _ _ _ _) as [w|]; [|done]. cbn [mbind go_bind] in *. injection E as E.
    destruct w as [e1 [u|e2]|e1]; cbn in E; injection E as <- <-; try done. by destruct Ha as [|[? ?]]. }
  unfold try_write. rewrite Es. cbn [mbind go_bind].
  destruct Ha as [->|[-> _]]; do 2 eexists; (split; [done|]).
  - instantiate (1 := es ++ [x]). constructor; cbn [engine inbox waiting replays]; try done.
    + exists am', dm, tabs. split; [done|]. intros k. by rewrite Hl, log_map_snoc, <- Hv.
    + rewrite Hlog. cbn. by rewrite <- app_assoc.
  - instantiate (1 := es). constructor; cbn [engine inbox waiting replays]; try done.
    exists am', dm, tabs. split; [done|]. intros k. by rewrite Hl, <- Hv.
Qed.

Lemma turn_ok log c b es r ev evs : rep_inv log c b es r -> log_hyps log [] -> timed c (background (ev :: evs)) ->
  exists r' c' es', turn opt_m opt_k iter_order ev r = Ret r' /\ rep_inv log c' b es' r' /\ timed c' (background evs).
Proof.
  intros H Hh Ht. pose proof H as [(am & dm & tabs & Hr & Hv) Hp Hrep Hlog]. pose proof (lh_bytes _ _ Hh) as Hb.
  destruct ev as [draws|o|i draws now wr]; cbn [turn].
  - destruct r.(waiting) as [x|] eqn:Ew.
    + destruct (try_write_ok log c b es r x draws) as (r' & es' & E & H'); [|done|].
      { constructor; cbn [engine inbox waiting replays]; try done. by exists am, dm, tabs. }
      exists r', c, es'. done.
    + destruct r.(inbox) as [|entry l] eqn:Ei; [by exists r, c, es|]. apply Forall_cons in Hp as [Hs Hp].
      unfold Apply. rewrite Hs. cbn [omap list_omap] in Hlog. destruct (entry_of entry) as [x|] eqn:Ex.
      * destruct (try_write_ok log c b es (MkReplica r.(engine) l None r.(replays)) x draws) as (r' & es' & E & H'); [|done|by exists r', c, es'].
        constructor; cbn [engine inbox waiting replays]; try done. by exists am, dm, tabs.
      * eexists _, c, es. split; [done|]. split; [|done].
        constructor; cbn [engine inbox waiting replays]; try done. by exists am, dm, tabs.
  - cbn in Ht. destruct o as [k v dr|k dr|k|now wr|removed now wr]; cbn in Ht; try (by exists r, c, es).
    + destruct Ht as [Hn Ht]. destruct (run_flush opt_m opt_k iter_order Hm Hk Hord _ c b r.(engine) am dm tabs now wr Hr (lh_roomy _ _ Hh) (lh_fits _ _ Hh) Hn)
        as (e' & am' & dm' & tabs' & E & Hr' & _ & _ & _ & _ & _ & _ & Hl).
      cbn [exec_op]. rewrite E. cbn [mbind go_bind]. exists (MkReplica e' r.(inbox) r.(waiting) r.(replays)), (now + 1), es. split; [done|]. split; [|done].
      constructor; cbn [engine inbox waiting replays]; try done. exists am', dm', tabs'. split; [done|]. intros k. by rewrite Hl.
    + destruct Ht as (Hn & Hinc & Hend & Hwr & Ht).
      destruct (run_compact opt_m opt_k iter_order Hm Hk Hord _ c b r.(engine) am dm tabs removed now wr Hr (lh_roomy _ _ Hh) Hn Hinc Hend Hwr)
        as (e' & tabs' & E & Hr' & _ & _ & Hl).
      cbn [exec_op]. rewrite E. cbn [mbind go_bind]. exists (MkReplica e' r.(inbox) r.(waiting) r.(replays)), (now 10), es. split; [done|]. split; [|done].
      constructor; cbn [engine inbox waiting replays]; try done. exists am, dm, tabs'. split; [done|]. intros k.
      rewrite <- Hv. unfold live_of. by rewrite !view_eq, Hl.
  - rewrite Hrep. cbn. by exists r, c, es.
Qed.

Lemma turns_ok log c b es r evs : rep_inv log c b es r -> log_hyps log [] -> timed c (background evs) ->
  exists r' c' es', turns opt_m opt_k iter_order evs r = Ret r' /\ rep_inv log c' b es' r'.
Proof.
  revert c es r. induction evs as [|ev evs IH]; intros c es r H Hh Ht; [by exists r, c, es|].
  destruct (turn_ok log c b es r ev evs H Hh Ht) as (r1 & c1 & es1 & E & H1 & Ht1). cbn [turns]. rewrite E. cbn [mbind go_bind]. eauto.
Qed.

Lemma new_inv o log : Forall (fun e => e.(RaftWal.IsSnapshot) = false) log -> rep_inv log 0 (MaxInflightBytes o) [] (NewReplica o log).
Proof. intros H. constructor; try done. exists [], [], []. split; [apply (new_engine_ok opt_m opt_k iter_order Hm Hk Hord) | done]. Qed.

(** C31: State machine replication: a node that is handed the entries of a log
    without snapshots, under any interleaving of its apply loop with flushes
    (which may fail) and compactions, any byte budget and any blocking, with
    advancing clocks, merges above level 0 succeeding and entries that fit the
    file format, never panics, and a read of its storage returns what the
    commands applied so far say, the last one of the key winning.  So nodes that
    have applied the same entries return the same data.  (A failed merge above
    level 0 can bring back a stale value: [failed_merge_returns_stale_value],
    engine.go:415.) *)
Theorem replica_is_its_log o log evs : log_hyps log evs ->
  exists r, turns opt_m opt_k iter_order evs (NewReplica o log) = Ret r /\
    forall k, reads k r = Ret match log_map (applied log r) k with Some v => Ok v | None => Err ErrKeyNotFound end.
Proof.
  intros H. destruct (turns_ok log 0 (MaxInflightBytes o) [] (NewReplica o log) evs) as (r & c & es & E & Hi);
    [apply new_inv, H | by destruct H; constructor | apply H|].
  exists r. split; [done|]. intros k. rewrite (inv_applied _ _ _ _ _ Hi).
  destruct Hi as [(am & dm & tabs & Hr & Hv) _ _ _]. unfold reads.
  destruct (Get_ok r.(engine) am dm tabs k (ro_engine _ _ _ _ _ _ _ Hr)) as (ss & -> & _). cbn [mbind go_bind].
  rewrite <- Hv. unfold live_of. by destruct (view am dm tabs k) as [[v|]|].
Qed.
End Run.

#[local] Existing Instance Skip.skip_table.
Definition entry (i : Z) (c : Command) : RaftWal.LogEntry := RaftWal.MkEntry i 1 (EncodeCommand c) false.
Definition demo_log : list RaftWal.LogEntry :=
  [entry 0 (put_cmd (str "a") (str "1")); entry 1 (put_cmd (str "b") (str "2")); entry 2 (del_cmd (str "a")); entry 3 (put_cmd (str "b") (str "3"))].
Definition demo_events : list event :=
  [Next [true]; Background (OFlush 1 Written); Next [true]; Next [true]; Background (OFlush 2 (Failed None false)); Background (demo_compact 3)].
Lemma demo_log_hyps : log_hyps demo_m demo_k map_to_list demo_log demo_events.
Proof.
  assert (omap entry_of demo_log = [MkLogEntry (str "a") (Some (str "1")); MkLogEntry (str "b") (Some (str "2"));
                                    MkLogEntry (str "a") None; MkLogEntry (str "b") (Some (str "3"))]) as E by (vm_compute; reflexivity).
  constructor; rewrite ?E.
  - repeat (constructor; [done|]). constructor.
  - apply roomy_check. vm_compute. reflexivity.
  - repeat (constructor; [vm_compute; split; reflexivity|]). constructor.
  - vm_compute. reflexivity.
  - cbn. unfold demo_now. split_and!; try done; intros; lia.
Qed.

Lemma replica_is_its_log_witness :
  exists r : Replica (T := Skip.SkipList), turns demo_m demo_k map_to_list demo_events (NewReplica demo_opts2 demo_log) = Ret r /\
    forall k, reads k r = Ret match log_map (applied demo_log r) k with Some v => Ok v | None => Err ErrKeyNotFound end.
Proof.
  destruct demo_sizing as (Hm & Hk & Ho).
  exact (replica_is_its_log demo_m demo_k map_to_list Hm Hk Ho demo_opts2 demo_log demo_events demo_log_hyps).
Defined.

(** ** Snapshots

    What a node reads at the end of a run. *)
Definition read_after (log : list RaftWal.LogEntry) (evs : list event) (k : bytes) : option bytes :=
  match (r ← turns (T := Skip.SkipList) demo_m demo_k map_to_list evs (NewReplica demo_opts2 log); reads k r) with
  | Ret (Ok v) => Some v
  | _ => None
  end.
Definition snapshot_of (es : list RaftWal.LogEntry) : RaftWal.LogEntry := RaftWal.MkEntry 1 1 (RaftWal.SerializeLogEntries es) true.
Definition history : list RaftWal.LogEntry := [entry 0 (put_cmd (str "k") (str "old")); entry 1 (put_cmd (str "k") (str "new"))].

(** A node that has applied the first write is sent a snapshot of both.  The
    replay writes the new value to an SSTable, below the memory table that
    holds the old one: the node keeps returning the old value. *)
Theorem snapshot_shadowed_by_memory :
  read_after [entry 0 (put_cmd (str "k") (str "old")); snapshot_of history] [Next [true]; Next [true]; Replays 0 [true] 5 Written] (str "k") = Some (str "old").
Proof. vm_compute. reflexivity. Qed.

(** The replay runs beside the apply loop.  When the entry after the snapshot is
    applied and flushed first, the replayed table is the newer one and the
    snapshot's old value comes back. *)
Theorem late_replay_undoes_write :
  read_after [snapshot_of history; entry 2 (put_cmd (str "k") (str "newest"))]
    [Next [true]; Next [true]; Background (OFlush 5 Written); Replays 0 [true] 6 Written] (str "k") = Some (str "new").
Proof. vm_compute. reflexivity. Qed.

End Rep.
