(* ===== verification/ShardKV.v ===== *)
(** * The sharded store ([service/shardkv/], [raft/group_server.go])

    A key belongs to a shard, a shard to a consensus group on the nodes the hash
    ring gives it ([ClusterSpec]).  A write is proposed to the group, following
    leader hints until it succeeds or the time is up; each host applies the
    group's entries to a map of its own; a read is answered by a host.  The
    entries a group hands to its members are the list [log]; what the consensus
    module guarantees about them is the subject of [RaftSpec] and [RaftLog].
    How calls end and what the clock says are inputs. *)
From stdpp Require Import gmap list.
From S2P Require Import Prelude Bytes Json JsonSpec JobCodec Delivery DeliverySpec RaftWal Cluster ClusterSpec.
Import Json JsonSpec.

Module Shard.

(** ** Commands (command.go) *)
Record command := MkCommand { Op : bytes; Key : option bytes; Value : option bytes }.
Definition empty_slice (v : option bytes) : bool := match v with None | Some [] => true | _ => false end.
Definition json_command (c : command) : json :=
  JObj ([(str "op", JStr c.(Op)); (str "key", Dlv.json_bytes c.(Key))]
        ++ if empty_slice c.(Value) then [] else [(str "value", Dlv.json_bytes c.(Value))]).
Definition encodeCommand (c : command) : bytes := print (json_command c).
Definition command_fields : list (field command) := [
  (str "op", set_string (fun x c => MkCommand x c.(Key) c.(Value)));
  (str "key", Dlv.set_bytes (fun x c => MkCommand c.(Op) x c.(Value)));
  (str "value", Dlv.set_bytes (fun x c => MkCommand c.(Op) c.(Key) x))].
Definition decodeCommand (b : bytes) : option command := Unmarshal command_fields (MkCommand [] None None) b.

(** ** The map of a shard (store.go) *)
Notation memStore := (gmap bytes bytes).
Definition newMemStore : memStore := ∅.
Definition store_put (k v : bytes) (m : memStore) : memStore := <[k := v]> m.
Definition store_get (k : bytes) (m : memStore) : option bytes := m !! k.
Definition store_delete (k : bytes) (m : memStore) : memStore := delete k m.

(** One turn of [applyLoop]. *)
Definition apply_entry (m : memStore) (e : RaftWal.LogEntry) : memStore :=
  if e.(RaftWal.IsSnapshot) then m
  else match decodeCommand e.(RaftWal.Command) with
       | None => m
       | Some c =>
           if beqb c.(Op) (str "Put") then store_put (default [] c.(Key)) (default [] c.(Value)) m
           else if beqb c.(Op) (str "Delete") then store_delete (default [] c.(Key)) m
           else m
       end.

(** ** A node (shardkv.go)

    [upto] is how many entries of its group a hosted shard has applied. *)
Record Hosted := MkHosted { meInSet : nat; upto : nat; store : memStore }.
Record Node := MkNode { self : bytes; shardCount : Z; shards : gmap Z Hosted; replicas : gmap Z (list bytes) }.

Fixpoint indexOf (ss : list bytes) (s : bytes) : option nat :=
  match ss with [] => None | v :: ss => if beqb v s then Some O else S <$> indexOf ss s end.

Definition add_shard (ring : Cluster.HashRing) (rf : Z) (n : Node) (sid : nat) : Node :=
  let sid := Z.of_nat sid in
  let reps := Cluster.ShardReplicas ring sid rf in
  MkNode n.(self) n.(shardCount)
    (match indexOf reps n.(self) with Some i => <[sid := MkHosted i 0 newMemStore]> n.(shards) | None => n.(shards) end)
    (<[sid := reps]> n.(replicas)).
Definition NewNode (addrs : list bytes) (me : nat) (shardCount rf : Z) : go Node :=
  match addrs !! me with
  | None => Panic
  | Some self =>
      let ring := Cluster.NewHashRing addrs 0 in
      Ret (fold_left (add_shard ring rf) (seq 0 (Z.to_nat shardCount)) (MkNode self shardCount ∅ ∅))
  end.

(** The apply loop of a hosted shard takes the next entry of its group. *)
Definition apply_next (log : list RaftWal.LogEntry) (h : Hosted) : Hosted :=
  match log !! h.(upto) with
  | Some e => MkHosted h.(meInSet) (S h.(upto)) (apply_entry h.(store) e)
  | None => h
  end.

(** ** Proposing (group_server.go)

    How one call of [Propose] ends: it fails without effect, it commits and the
    reply is lost or late, it commits and is answered, or the node is not the
    leader and may know who is. *)
Inductive call := Fails | Unheard | Accepted | Redirects (hint : bytes).
Definition tryOne (cmd : bytes) (calls : list call) (log : list bytes) : bool * bytes * list call * list bytes :=
  match calls with
  | [] | Fails :: _ => (false, [], tail calls, log)
  | Unheard :: calls => (false, [], calls, log ++ [cmd])
  | Accepted :: calls => (true, [], calls, log ++ [cmd])
  | Redirects h :: calls => (false, h, calls, log)
  end.
(** One round over the nodes; [clocks] says at each test whether the deadline
    has passed, and a clock that has run out means that it has. *)
Fixpoint try_all (cmd : bytes) (targets : list bytes) (clocks : list bool) (calls : list call) (log : list bytes)
    : bool * list bool * list call * list bytes :=
  match targets with
  | [] => (false, clocks, calls, log)
  | target :: targets =>
      match clocks with
      | [] | true :: _ => (false, tail clocks, calls, log)
      | false :: clocks =>
          let '(fin, hint, calls, log) := tryOne cmd calls log in
          if fin then (true, clocks, calls, log)
          else if negb (beqb hint []) && negb (beqb hint target) then
            let '(fin, _, calls, log) := tryOne cmd calls log in
            if fin then (true, clocks, calls, log) else try_all cmd targets clocks calls log
          else try_all cmd targets clocks calls log
      end
  end.
Fixpoint propose_rounds (fuel : nat) (addrs : list bytes) (cmd : bytes) (clocks : list bool) (calls : list call) (log : list bytes) : bool * list bytes :=
  match fuel, clocks with
  | S fuel, false :: clocks =>
      let '(fin, clocks, calls, log) := try_all cmd addrs clocks calls log in
      if fin then (true, log) else propose_rounds fuel addrs cmd clocks calls log
  | _, _ => (false, log)
  end.
(** Each round reads the clock, so the clocks bound the rounds. *)
Definition ProposeToGroup (addrs : list bytes) (cmd : bytes) (clocks : list bool) (calls : list call) (log : list bytes) : bool * list bytes :=
  propose_rounds (S (length clocks)) addrs cmd clocks calls log.

(** The shard of a command and how it is proposed. *)
Definition propose (n : Node) (c : command) (clocks : list bool) (calls : list call) (logs : gmap Z (list bytes)) : go (bool * gmap Z (list bytes)) :=
  sid ← Cluster.ShardOf (default [] c.(Key)) n.(shardCount);
  let '(fin, log) := ProposeToGroup (default [] (n.(replicas) !! sid)) (encodeCommand c) clocks calls (default [] (logs !! sid)) in
  Ret (fin, <[sid := log]> logs).
Definition Put (n : Node) (key value : bytes) := propose n (MkCommand (str "Put") (Some key) (Some value)).
Definition Delete (n : Node) (key : bytes) := propose n (MkCommand (str "Delete") (Some key) None).

(** ** Reading (read.go) *)
Definition LocalGet (n : Node) (key : bytes) : go (option bytes) :=
  sid ← Cluster.ShardOf key n.(shardCount);
  Ret (h ← n.(shards) !! sid; store_get key h.(store)).
(** [ShardRead.Get] on a node; [None] is the error of a node that does not host
    the shard. *)
Definition serve_read (n : Node) (sid : Z) (key : bytes) : option (option bytes) :=
  h ← n.(shards) !! sid; Some (store_get key h.(store)).
Definition find_node (nodes : list Node) (addr : bytes) : option Node := List.find (fun n => beqb n.(self) addr) nodes.
(** A forwarded read; [up] says whether the call to an address gets through. *)
Definition forward (nodes : list Node) (up : bytes -> bool) (sid : Z) (key addr : bytes) : option (option bytes) :=
  if up addr then n ← find_node nodes addr; serve_read n sid key else None.
Fixpoint fall_back (nodes : list Node) (up : bytes -> bool) (sid : Z) (key addr : bytes) (reps : list bytes) : option (option bytes) :=
  match reps with
  | [] => None
  | r :: reps =>
      if beqb r addr then fall_back nodes up sid key addr reps
      else match forward nodes up sid key r with
           | Some v => Some v
           | None => fall_back nodes up sid key addr reps
           end
  end.
(** [pick] is the balancer's choice among the replicas.  [None] is an error. *)
Definition Get (nodes : list Node) (up : bytes -> bool) (pick : nat) (n : Node) (key : bytes) : go (option (option bytes)) :=
  sid ← Cluster.ShardOf key n.(shardCount);
  match n.(shards) !! sid with
  | Some _ => v ← LocalGet n key; Ret (Some v)
  | None =>
      let reps := default [] (n.(replicas) !! sid) in
      Ret match reps !! pick with
          | None => None
          | Some addr => match forward nodes up sid key addr with
                         | Some v => Some v
                         | None => fall_back nodes up sid key addr reps
                         end
          end
  end.

End Shard.
