(* ===== verification/Floats.v ===== *)
(** * [float64]

    IEEE binary64 as the Standard Library's specification floats, and
    [strconv.ParseFloat] of a decimal literal: the exact quotient of the digits
    and a power of ten, rounded once to nearest even.  A literal whose value is
    beyond the largest float is an error, as it is in Go. *)
From Stdlib Require Import SpecFloat.
From S2P Require Import Prelude Bytes Json.

Module Floats.
Notation float := spec_float.
Definition fadd : float -> float -> float := SFadd 53 1024.
Definition fsub : float -> float -> float := SFsub 53 1024.
Definition fmul : float -> float -> float := SFmul 53 1024.
Definition fdiv : float -> float -> float := SFdiv 53 1024.
Definition fsqrt : float -> float := SFsqrt 53 1024.
Definition zero : float := S754_zero false.
Definition finite (f : float) : bool := match f with S754_zero _ | S754_finite _ _ _ => true | _ => false end.
(** [float64(n)] of an integer. *)
Definition of_int (z : Z) : float := binary_normalize 53 1024 z 0 false.

(** The digits [m] times [10 ^ e].  A magnitude of more than 400 digits, before
    or after the point, rounds to an infinity or to zero. *)
Definition scaled (neg : bool) (m : positive) (e : Z) : float :=
  let digits := Z.log2 (Zpos m) in
  if 400 <? e then S754_infinity neg
  else if e + digits <? -1200 then S754_zero neg
  else if 0 <=? e then fdiv (S754_finite neg (m * Z.to_pos (10 ^ e)) 0) (S754_finite false 1 0)
  else fdiv (S754_finite neg m 0) (S754_finite false (Z.to_pos (10 ^ (- e))) 0).

(** Sign, integer digits, fraction digits and exponent of a number literal. *)
Definition exponent (s : bytes) : option Z :=
  match s with
  | [] => Some 0
  | b :: t =>
      if (#b =? 101) || (#b =? 69) then
        match t with
        | c :: t' => if #c =? 45 then n ← parse_digits 0 t'; Some (- n)
                     else if #c =? 43 then parse_digits 0 t' else parse_digits 0 t
        | [] => None
        end
      else None
  end.
Definition parse_unsigned (neg : bool) (s : bytes) : option float :=
  let '(i, s) := Json.digits s in
  let '(f, s) := match s with b :: t => if #b =? 46 then Json.digits t else ([], s) | [] => ([], []) end in
  match i ++ f with
  | [] => None
  | ds =>
      m ← parse_digits 0 ds; e ← exponent s;
      let v := match m with Zpos p => scaled neg p (e - len f) | _ => S754_zero neg end in
      if finite v then Some v else None
  end.
(** [ParseFloat] of a decimal literal; [None] is a syntax or range error. *)
Definition parse_decimal (s : bytes) : option float :=
  match s with
  | b :: t => if #b =? 45 then parse_unsigned true t else if #b =? 43 then parse_unsigned false t else parse_unsigned false s
  | [] => None
  end.

Lemma parse_decimal_finite s f : parse_decimal s = Some f -> finite f = true.
Proof.
  assert (forall neg t, parse_unsigned neg t = Some f -> finite f = true) as H.
  { intros neg t. unfold parse_unsigned. destruct (Json.digits t) as [i t1].
    destruct (match t1 with [] => _ | _ => _ end) as [fr t2]. destruct (i ++ fr) as [|d ds]; [done|].
    destruct (parse_digits 0 (d :: ds)) as [m|]; [|done]. cbn. destruct (exponent t2) as [e|]; [|done]. cbn.
    destruct (finite _) eqn:E; [by intros [= <-]|done]. }
  unfold parse_decimal. destruct s as [|b t]; [done|]. repeat case_match; eauto.
Qed.

(** A field of type [*float64]: [null] is [nil]. *)
Definition set_float {A} (put : option float -> A -> A) (j : Json.json) (a : A) : option A :=
  match j with
  | Json.JNull => Some (put None a)
  | Json.JNum lit => f ← parse_decimal lit; Some (put (Some f) a)
  | _ => None
  end.

Example decimals :
  map parse_decimal [str "0.21"; str "-1e3"; str "5e-324"; str "1e309"; str "1e999999999"] =
  [Some (S754_finite false 7566047373982433 (-55)); Some (S754_finite true 8796093022208000 (-43)); Some (S754_finite false 1 (-1074)); None; None].
Proof. vm_compute. reflexivity. Qed.

End Floats.
