(* ===== verification/Ingest.v ===== *)
(** * The ingest filter ([service/ingesthook/], [service/ingesthook/schema/])

    What stands between a write and the store: the size limit, the per-device
    timestamp check, the schema check of the registered type and the redaction
    of sensitive fields.  Values are JSON; a schema is found by the declared
    type or by the longest registered key prefix.  How Go prints a float in an
    error text, and the text of a JSON error, are parameters. *)
From Stdlib Require Import SpecFloat.
From stdpp Require Import gmap sorting.
From S2P Require Import Prelude Bytes Sha256 Json JobSpec Floats Proto RouterV2.
Import Json Floats Sha256.

Module Ingest.

(** ** Schema errors (schema/error.go) *)
Definition ErrCodeMissingField : Z := 0x3001.
Definition ErrCodeNonPositivePrice : Z := 0x3002.
Definition ErrCodeOHLCInconsistent : Z := 0x3003.
Definition ErrCodePctChangeExceeded : Z := 0x3004.
Record ValidationError := MkError { Code : Z; Reason : bytes }.
Notation Validator := (bytes -> option ValidationError).

(** ** Quotes (schema/quote.go) *)
Record quoteRecord := MkQuote {
  QCode : bytes; QDate : bytes; Open_ : option float; High : option float; Low : option float; Close_ : option float;
  Volume : option float; PrevClose : option float }.
Definition quote_fields : list (field quoteRecord) := [
  (str "code", set_string (fun x q => MkQuote x q.(QDate) q.(Open_) q.(High) q.(Low) q.(Close_) q.(Volume) q.(PrevClose)));
  (str "date", set_string (fun x q => MkQuote q.(QCode) x q.(Open_) q.(High) q.(Low) q.(Close_) q.(Volume) q.(PrevClose)));
  (str "open", set_float (fun x q => MkQuote q.(QCode) q.(QDate) x q.(High) q.(Low) q.(Close_) q.(Volume) q.(PrevClose)));
  (str "high", set_float (fun x q => MkQuote q.(QCode) q.(QDate) q.(Open_) x q.(Low) q.(Close_) q.(Volume) q.(PrevClose)));
  (str "low", set_float (fun x q => MkQuote q.(QCode) q.(QDate) q.(Open_) q.(High) x q.(Close_) q.(Volume) q.(PrevClose)));
  (str "close", set_float (fun x q => MkQuote q.(QCode) q.(QDate) q.(Open_) q.(High) q.(Low) x q.(Volume) q.(PrevClose)));
  (str "volume", set_float (fun x q => MkQuote q.(QCode) q.(QDate) q.(Open_) q.(High) q.(Low) q.(Close_) x q.(PrevClose)));
  (str "prev_close", set_float (fun x q => MkQuote q.(QCode) q.(QDate) q.(Open_) q.(High) q.(Low) q.(Close_) q.(Volume) x))].
Definition empty_quote : quoteRecord := MkQuote [] [] None None None None None None.

(** [0.21], and its negation. *)
Definition maxPctChange : float := S754_finite false 7566047373982433 (-55).
Definition minPctChange : float := SFopp maxPctChange.

Section Texts.
Context (show_v show_4f : float -> bytes) (json_error : bytes -> bytes).

Definition missing (name : bytes) : option ValidationError :=
  Some (MkError ErrCodeMissingField (str "quote: missing required field " ++ Json.quote name)).
(** The first required number that is absent. *)
Fixpoint first_missing (l : list (bytes * option float)) : option ValidationError :=
  match l with [] => None | (name, None) :: _ => missing name | _ :: l => first_missing l end.
Fixpoint first_non_positive (l : list (bytes * float)) : option ValidationError :=
  match l with
  | [] => None
  | (name, v) :: l =>
      if SFleb v zero then Some (MkError ErrCodeNonPositivePrice (str "quote: non-positive price: " ++ name ++ str "=" ++ show_v v))
      else first_non_positive l
  end.
Definition inconsistent (low : float) (name : bytes) (v high : float) : option ValidationError :=
  if SFltb v low || SFltb high v
  then Some (MkError ErrCodeOHLCInconsistent (str "quote: OHLC inconsistent: low=" ++ show_v low ++ str " " ++ name ++ str "=" ++ show_v v ++ str " high=" ++ show_v high))
  else None.
Definition pct_check (prev : option float) (cls : float) : option ValidationError :=
  match prev with
  | None => None
  | Some p =>
      if SFeqb p zero then None
      else
        let pct := fdiv (fsub cls p) p in
        if SFltb maxPctChange pct || SFltb pct minPctChange
        then Some (MkError ErrCodePctChangeExceeded (str "quote: pct change " ++ show_4f pct ++ str " exceeds physical limit ±21%"))
        else None
  end.
Definition or_else (a b : option ValidationError) : option ValidationError := match a with Some _ => a | None => b end.

(** [QuoteSnapshot.Validate]; [None] accepts. *)
Definition QuoteSnapshot (value : bytes) : option ValidationError :=
  match Unmarshal quote_fields empty_quote value with
  | None => Some (MkError ErrCodeMissingField (str "quote: invalid json: " ++ json_error value))
  | Some r =>
      if beqb r.(QCode) [] then missing (str "code")
      else if beqb r.(QDate) [] then missing (str "date")
      else
        match r.(Open_), r.(High), r.(Low), r.(Close_), r.(Volume) with
        | Some open, Some high, Some low, Some cls, Some volume =>
            or_else (first_non_positive [(str "open", open); (str "high", high); (str "low", low); (str "close", cls)])
            (or_else (if SFltb volume zero then Some (MkError ErrCodeNonPositivePrice (str "quote: negative volume: " ++ show_v volume)) else None)
            (or_else (inconsistent low (str "open") open high)
            (or_else (inconsistent low (str "close") cls high)
            (pct_check r.(PrevClose) cls))))
        | _, _, _, _, _ =>
            first_missing [(str "open", r.(Open_)); (str "high", r.(High)); (str "low", r.(Low)); (str "close", r.(Close_)); (str "volume", r.(Volume))]
        end
  end.
End Texts.

(** ** The registry (schema/registry.go)

    The time semantics and the descriptive fields (layout, units, producers and
    the like) play no part in filtering: a key with any descriptor skips the
    time check. *)
Record Descriptor := MkDescriptor { TypeID : Z; DName : bytes; SchemaVersion : Z; KeyPrefix : bytes; Validation : Validator }.
Record Registry := MkRegistry { prefixRegistry : gmap bytes Descriptor; typeRegistry : gmap Z Descriptor }.
Definition empty_registry : Registry := MkRegistry ∅ ∅.

Definition RegisterDescriptor (d : Descriptor) (g : Registry) : Registry :=
  MkRegistry (if beqb d.(KeyPrefix) [] then g.(prefixRegistry) else <[d.(KeyPrefix) := d]> g.(prefixRegistry))
             (if d.(TypeID) =? 0 then g.(typeRegistry) else <[d.(TypeID) := d]> g.(typeRegistry)).
Definition Register (prefix : bytes) (v : Validator) : Registry -> Registry := RegisterDescriptor (MkDescriptor 0 [] 0 prefix v).
Definition Unregister (prefix : bytes) (g : Registry) : Registry :=
  MkRegistry (delete prefix g.(prefixRegistry))
    (match g.(prefixRegistry) !! prefix with
     | Some d => if d.(TypeID) =? 0 then g.(typeRegistry) else delete d.(TypeID) g.(typeRegistry)
     | None => g.(typeRegistry)
     end).

Definition HasPrefix (key p : bytes) : bool := beqb (take (length p) key) p.
(** The loop over the map, in whatever order it is iterated. *)
Definition longer (key : bytes) (best : option (bytes * Descriptor)) (pd : bytes * Descriptor) : option (bytes * Descriptor) :=
  if (len pd.1 <=? match best with Some b => len b.1 | None => -1 end) then best
  else if HasPrefix key pd.1 then Some pd else best.
Definition lookup_in (order : list (bytes * Descriptor)) (key : bytes) : option Descriptor := snd <$> fold_left (longer key) order None.
Definition LookupDescriptor (key : bytes) (g : Registry) : option Descriptor := lookup_in (map_to_list g.(prefixRegistry)) key.
Definition LookupByType (typeID : Z) (g : Registry) : option Descriptor := g.(typeRegistry) !! typeID.

Definition quotePrefix : bytes := str "quote:".
Definition quoteTypeID : Z := 1.

(** ** Redaction (filter.go)

    The members of an object with the text of their values. *)
Fixpoint raw_members (fuel : nat) (s : bytes) : list (bytes * bytes) :=
  match fuel, skip_ws s with
  | S f, b :: t =>
      if #b =? 34 then
        match unquote (length t) t with
        | Some (k, r) =>
            match skip_ws r with
            | c :: r' =>
                let v := skip_ws r' in
                match parse_value (S (2 * length v)) 1 v with
                | Some (_, r2) =>
                    (k, take (length v - length r2) v) ::
                    match skip_ws r2 with d :: r3 => if #d =? 44 then raw_members f r3 else [] | [] => [] end
                | None => []
                end
            | [] => []
            end
        | None => []
        end
      else []
  | _, _ => []
  end.
(** [json.Unmarshal] into a [map[string]json.RawMessage]: the last of several
    members with one name; [None] is an error. *)
Definition raw_map (value : bytes) : option (gmap bytes bytes) :=
  match parse value with
  | Some (JObj _) => Some (fold_left (fun m kv => <[kv.1 := kv.2]> m) (raw_members (length value) (tail (skip_ws value))) ∅)
  | Some JNull => Some ∅
  | _ => None
  end.

(** [json.Marshal] of a [RawMessage]: white space outside strings goes, HTML
    characters and the two line separators are escaped.  [st]: 0 outside a
    string, 1 inside, 2 after a backslash. *)
Fixpoint compact (st : Z) (s : bytes) : bytes :=
  match s with
  | [] => []
  | b :: t =>
      let rest := compact (if st =? 2 then 1 else if #b =? 34 then 1 - st else if (st =? 1) && (#b =? 92) then 2 else st) t in
      if (#b =? 60) || (#b =? 62) || (#b =? 38) then esc_u b ++ rest
      else if (st =? 0) && is_ws b then rest
      else b :: rest
  end.
(** U+2028 and U+2029 as the escapes [\u2028] and [\u2029]. *)
Fixpoint escape_separators (s : bytes) : bytes :=
  match s with
  | [] => []
  | a :: t =>
      match t with
      | b :: c :: t' => if (#a =? 226) && (#b =? 128) && ((#c =? 168) || (#c =? 169))
                        then str "\u202" ++ [hexdigit (#c mod 16)] ++ escape_separators t' else a :: escape_separators t
      | _ => a :: escape_separators t
      end
  end.
Definition marshal_raw (raw : bytes) : bytes := escape_separators (compact 0 raw).

Definition redactedValue : bytes := Json.quote (str "[REDACTED]").
(** [json.Marshal] of the map: keys in order. *)
Definition render (m : gmap bytes bytes) : bytes :=
  str "{" ++ commas (map (fun kv => Json.quote kv.1 ++ str ":" ++ marshal_raw kv.2) (Job.sorted_entries m)) ++ str "}".

Fixpoint contains (s p : bytes) : bool := HasPrefix s p || match s with [] => false | _ :: t => contains t p end.
Definition mayContainAnyField (value : bytes) (fields : list bytes) : bool :=
  existsb (fun b => #b =? 92) value || existsb (fun f => contains value (dquote :: f ++ [dquote])) fields.

(** The exact part: replace the named members. *)
Definition redact_members (fields : list bytes) (m : gmap bytes bytes) : gmap bytes bytes * bool :=
  fold_left (fun mc f => if bool_decide (is_Some (mc.1 !! f)) then (<[f := redactedValue]> mc.1, true) else mc) fields (m, false).
Definition redact_parsed (value : bytes) (fields : list bytes) : bytes * bool :=
  match raw_map value with
  | None => (value, false)
  | Some m => let '(m, changed) := redact_members fields m in if changed then (render m, true) else (value, false)
  end.
Definition redact (value : bytes) (fields : list bytes) : bytes * bool :=
  match fields with
  | [] => (value, false)
  | _ => if mayContainAnyField value fields then redact_parsed value fields else (value, false)
  end.

(** ** The filter *)
Record Filter := MkFilter { redactFields : list bytes; maxValueLen : Z; dropBackward : bool; lastTS : gmap bytes Z; registry : Registry }.
Definition NewFilter (fields : list bytes) (maxValueLen : Z) (dropBackward : bool) (g : Registry) : Filter :=
  MkFilter fields maxValueLen dropBackward ∅ g.

(** [strings.LastIndexByte] of a colon. *)
Fixpoint last_colon (i : nat) (s : bytes) (found : option nat) : option nat :=
  match s with [] => found | b :: s => last_colon (S i) s (if #b =? 58 then Some i else found) end.
(** [strconv.ParseInt(s, 10, 64)]. *)
Definition ParseInt (s : bytes) : option Z :=
  match s with
  | [] => None
  | b :: t =>
      if #b =? 43 then match t with [] => None | _ => n ← parse_digits 0 t; if n <? 2 ^ 63 then Some n else None end
      else if #b =? 45 then match t with [] => None | _ => n ← parse_digits 0 t; if n <=? 2 ^ 63 then Some (- n) else None end
      else n ← parse_digits 0 s; if n <? 2 ^ 63 then Some n else None
  end.
Definition parseKey (key : bytes) : option (bytes * Z) :=
  match last_colon 0 key None with
  | None => None
  | Some i =>
      if (i =? 0)%nat || (i =? length key - 1)%nat then None
      else ts ← ParseInt (drop (S i) key); Some (take i key, ts)
  end.

Definition oversized (f : Filter) (value : bytes) : bool := (0 <? f.(maxValueLen)) && (f.(maxValueLen) <? len value).
Definition redacted (f : Filter) (value : bytes) : RouterV2.verdict := RouterV2.Pass (redact value f.(redactFields)).1.
Definition dropped (reason : bytes) : RouterV2.verdict := RouterV2.Drop 0 reason.
Definition rejected (e : ValidationError) : RouterV2.verdict := RouterV2.Drop e.(Code) e.(Reason).

(** The monotonicity check: [None] drops the record. *)
Definition check_time (key : bytes) (f : Filter) : option Filter :=
  match parseKey key with
  | None => Some f
  | Some (device, ts) =>
      match f.(lastTS) !! device with
      | Some last => if ts <=? last then None else Some (MkFilter f.(redactFields) f.(maxValueLen) f.(dropBackward) (<[device := ts]> f.(lastTS)) f.(registry))
      | None => Some (MkFilter f.(redactFields) f.(maxValueLen) f.(dropBackward) (<[device := ts]> f.(lastTS)) f.(registry))
      end
  end.

Definition validate (checkMonotonic : bool) (key value : bytes) (f : Filter) : Filter * RouterV2.verdict :=
  if oversized f value then (f, dropped (str "oversized_value"))
  else
    let descriptor := LookupDescriptor key f.(registry) in
    let checked := match descriptor with None => checkMonotonic && f.(dropBackward) | Some _ => false end in
    match (if checked then check_time key f else Some f) with
    | None => (f, dropped (str "non_monotonic_timestamp"))
    | Some f =>
        match descriptor ≫= (fun d => d.(Validation) value) with
        | Some e => (f, rejected e)
        | None => (f, redacted f value)
        end
    end.

Definition validateForType (checkMonotonic : bool) (typeID : Z) (key value : bytes) (f : Filter) : Filter * RouterV2.verdict :=
  if typeID =? 0 then validate checkMonotonic key value f
  else if oversized f value then (f, dropped (str "oversized_value"))
  else
    match LookupByType typeID f.(registry) with
    | None => (f, dropped (str "unknown_declared_type"))
    | Some d =>
        match d.(Validation) value with
        | Some e => (f, rejected e)
        | None => (f, redacted f value)
        end
    end.
Definition Validate (key value : bytes) : Filter -> Filter * RouterV2.verdict := validate true key value.
Definition ValidateVersioned (key value : bytes) : Filter -> Filter * RouterV2.verdict := validate false key value.

(** The interface the second router uses. *)
#[export] Instance filter_ingest : RouterV2.IngestFilter Filter := {| RouterV2.validateForType := validateForType |}.

(** [Handle], the hook of the first router: what happens to a PUT payload. *)
Inductive hook_action := HookPass (data : bytes) | HookDrop (reason : bytes).
Definition Handle (is_put : bool) (data : bytes) (f : Filter) : go (Filter * hook_action) :=
  if negb is_put then Ret (f, HookPass data)
  else
    kv ← Proto.DecodePutFrame data;
    match kv with
    | None => Ret (f, HookDrop (str "malformed_frame"))
    | Some (key, value) =>
        let '(f, v) := Validate key value f in
        Ret (f, match v with
                | RouterV2.Drop _ reason => HookDrop reason
                | RouterV2.Pass newValue => HookPass (if (redact value f.(redactFields)).2 then Proto.EncodePutFrame key newValue else data)
                end)
    end.

End Ingest.
