(* ===== verification/IngestSpec.v ===== *)
(** * What the ingest filter promises

    Over any sequence of calls the timestamps accepted from a device strictly
    increase, and a record is dropped for its time exactly when the device has
    already been accepted at that time or later; the registered prefix that
    serves a key is the longest one, whatever order the map is walked in; a
    quote is accepted exactly when it meets the published rules; and the byte
    scan that spares most records a second parse never changes what redaction
    does. *)
From Stdlib Require Import SpecFloat.
From stdpp Require Import gmap sorting.
From S2P Require Import Prelude Bytes Sha256 Json JobSpec Floats Proto RouterV2 Ingest.
Import Json Floats Ingest.

Module IngestSpec.

(** ** Time *)
Record call := Call { monotonic : bool; typeID : Z; key : bytes; value : bytes }.
Definition serve (c : call) : Filter -> Filter * RouterV2.verdict := validateForType c.(monotonic) c.(typeID) c.(key) c.(value).

(** The device and time of a record that is subject to the time check. *)
Definition clocked (g : Registry) (c : call) : option (bytes * Z) :=
  if (c.(typeID) =? 0) && c.(monotonic)
  then match LookupDescriptor c.(key) g with None => parseKey c.(key) | Some _ => None end
  else None.
Definition passed (v : RouterV2.verdict) : bool := match v with RouterV2.Pass _ => true | _ => false end.

(** A filter through a sequence of calls, with the verdicts. *)
Fixpoint serve_all (f : Filter) (cs : list call) : Filter * list (call * RouterV2.verdict) :=
  match cs with
  | [] => (f, [])
  | c :: cs => let '(f, v) := serve c f in let '(f, tr) := serve_all f cs in (f, (c, v) :: tr)
  end.
(** The times at which records of a device were let through. *)
Definition accepted_times (g : Registry) (device : bytes) (tr : list (call * RouterV2.verdict)) : list Z :=
  omap (fun cv => match clocked g cv.1 with
                  | Some (d, ts) => if beqb d device && passed cv.2 then Some ts else None
                  | None => None
                  end) tr.

(** The parts of the filter that calls do not change. *)
Definition same_rules (f f' : Filter) : Prop :=
  f'.(redactFields) = f.(redactFields) /\ f'.(maxValueLen) = f.(maxValueLen) /\
  f'.(dropBackward) = f.(dropBackward) /\ f'.(registry) = f.(registry).

(** What one call does to the clock of a device. *)
Inductive clock_step (g : Registry) (c : call) (f f' : Filter) (v : RouterV2.verdict) : Prop :=
  | clock_unused : clocked g c = None \/ oversized f c.(value) = true /\ passed v = false -> f'.(lastTS) = f.(lastTS) -> clock_step g c f f' v
  | clock_accepts device ts :
      clocked g c = Some (device, ts) -> oversized f c.(value) = false -> passed v = true ->
      (forall last, f.(lastTS) !! device = Some last -> last < ts) ->
      f'.(lastTS) = <[device := ts]> f.(lastTS) -> clock_step g c f f' v
  | clock_drops device ts last :
      clocked g c = Some (device, ts) -> oversized f c.(value) = false -> v = dropped (str "non_monotonic_timestamp") ->
      f.(lastTS) !! device = Some last -> ts <= last ->
      f'.(lastTS) = f.(lastTS) -> clock_step g c f f' v.

Lemma serve_step c f f' v :
  f.(dropBackward) = true -> serve c f = (f', v) -> same_rules f f' /\ clock_step f.(registry) c f f' v.
Proof.
  intros Hd. unfold serve, validateForType, validate. destruct c as [m ty k val]. cbn [monotonic typeID key value].
  assert (same_rules f f) as Hs by done.
  destruct (Z.eqb_spec ty 0) as [->|Hty]; cycle 1.
  { assert (clocked (registry f) (Call m ty k val) = None) as Hc.
    { unfold clocked; cbn [typeID]. by rewrite (proj2 (Z.eqb_neq _ _) Hty). }
    repeat case_match; intros [= <- <-]; (split; [done|]); apply clock_unused; auto. }
  destruct (oversized f val) eqn:Ho; [intros [= <- <-]; split; [done|]; apply clock_unused; auto|].
  unfold clocked in *; cbn [typeID monotonic key]. rewrite Hd, andb_true_r.
  destruct (LookupDescriptor k (registry f)) as [d|] eqn:Hl.
  { assert (clocked (registry f) (Call m 0 k val) = None) as Hc.
    { unfold clocked; cbn [typeID monotonic key]. rewrite Hl. by destruct m. }
    cbn [mbind option_bind]. destruct (Validation d val); intros [= <- <-]; (split; [done|]); apply clock_unused; auto. }
  cbn [mbind option_bind]. destruct m.
  2: { intros [= <- <-]; split; [done|]. apply clock_unused; auto. }
  unfold check_time. destruct (parseKey k) as [[dev ts]|] eqn:Hp.
  2: { intros [= <- <-]; split; [done|]. apply clock_unused; [|done]. left. unfold clocked; cbn. by rewrite Hl. }
  assert (clocked (registry f) (Call true 0 k val) = Some (dev, ts)) as Hc by (unfold clocked; cbn; by rewrite Hl).
  destruct (lastTS f !! dev) as [last|] eqn:Hlast.
  - destruct (Z.leb_spec ts last); intros [= <- <-]; (split; [done|]).
    + by eapply clock_drops.
    + eapply clock_accepts; eauto. intros l. rewrite Hlast. intros [= <-]. lia.
  - intros [= <- <-]; split; [done|]. eapply clock_accepts; eauto. intros l. by rewrite Hlast.
Qed.

(** The clock of a device is the last time let through, and bounds them all. *)
Definition clock_inv (g : Registry) (f : Filter) (tr : list (call * RouterV2.verdict)) : Prop :=
  forall device, Sorted Z.lt (accepted_times g device tr) /\ last (accepted_times g device tr) = f.(lastTS) !! device.

Lemma times_last_max (l : list Z) m : Sorted Z.lt l -> last l = Some m -> forall t, t ∈ l -> t <= m.
Proof.
  intros Hs. apply Sorted_StronglySorted in Hs; [|intros ? ? ?; lia].
  induction Hs as [|x l Hl IH Hx]; [done|]. intros Hm t. rewrite elem_of_cons.
  destruct l as [|y l]; [cbn in Hm; simplify_eq; intros [->|Hin]; [done|by apply not_elem_of_nil in Hin]|].
  intros [->|Hin]; [|by apply IH]. rewrite Forall_forall in Hx.
  assert (x < m); [|lia]. apply Hx. rewrite last_cons_cons in Hm. by apply last_Some_elem_of.
Qed.
Lemma times_snoc (l : list Z) t : Sorted Z.lt l -> (forall m, last l = Some m -> m < t) -> Sorted Z.lt (l ++ [t]).
Proof.
  intros Hs Ht. induction Hs as [|x l Hl IH Hx]; [repeat constructor|].
  destruct l as [|y l]; cbn; [repeat constructor; by apply Ht|]. constructor.
  - apply IH. intros m Hm. apply Ht. by rewrite last_cons_cons.
  - constructor. by inversion Hx.
Qed.
Lemma accepted_snoc g device tr cv : accepted_times g device (tr ++ [cv]) = accepted_times g device tr ++ accepted_times g device [cv].
Proof. apply omap_app. Qed.

Lemma clock_inv_step g f f' tr c v :
  clock_inv g f tr -> clock_step g c f f' v -> clock_inv g f' (tr ++ [(c, v)]).
Proof.
  intros Hi Hst device. destruct (Hi device) as [Hs Hl]. rewrite accepted_snoc. unfold accepted_times at 2 4. cbn [omap list_omap fst snd].
  destruct Hst as [Hc Hk|d ts Hc Ho Hp Hlt Hk|d ts last Hc Ho -> Hd Hle Hk]; rewrite Hk.
  - destruct Hc as [Hc|[_ Hp]]; [rewrite Hc|rewrite Hp]; [by rewrite app_nil_r|].
    destruct (clocked g c) as [[??]|]; [rewrite andb_false_r|]; by rewrite app_nil_r.
  - rewrite Hc, Hp, andb_true_r. destruct (beqb d device) eqn:E.
    + apply beqb_eq in E as ->. rewrite last_snoc, lookup_insert_eq. split; [|done].
      apply times_snoc; [done|]. intros m Hm. apply Hlt. by rewrite <- Hl.
    + apply beqb_neq in E. rewrite lookup_insert_ne by done. by rewrite app_nil_r.
  - rewrite Hc. cbn [passed dropped]. rewrite andb_false_r, app_nil_r. done.
Qed.

Lemma serve_all_inv cs f f' tr tr0 :
  f.(dropBackward) = true -> serve_all f cs = (f', tr) ->
  same_rules f f' /\ (clock_inv f.(registry) f tr0 -> clock_inv f.(registry) f' (tr0 ++ tr)).
Proof.
  revert f f' tr tr0. induction cs as [|c cs IH]; intros f f' tr tr0 Hd; cbn [serve_all].
  { intros [= <- <-]. rewrite app_nil_r. done. }
  destruct (serve c f) as [f1 v] eqn:E. destruct (serve_all f1 cs) as [f2 tr2] eqn:E2. intros [= <- <-].
  destruct (serve_step c f f1 v Hd E) as [Hr Hst]. pose proof Hr as (Hr1 & Hr2 & Hr3 & Hr4).
  destruct (IH f1 f2 tr2 (tr0 ++ [(c, v)])) as [(?&?&?&?) Hi]; [congruence|done|].
  split; [unfold same_rules; repeat split; congruence|]. intros Hi0. rewrite Hr4 in Hi.
  rewrite cons_middle, app_assoc. apply Hi. by apply (clock_inv_step _ f).
Qed.

(** C36: over any sequence of calls to a new filter that drops records going
    back in time, the times let through for a device on the untyped write path
    -- records without a declared type or a schema and not versioned, the only
    ones the filter checks -- strictly increase; and a further such record of
    that device that is small enough is refused for its time exactly when some
    such record of the device has already been let through at that time or
    later.  Versioned and typed records skip the check by design, and the gRPC
    server makes its filter with the check off. *)
Theorem device_times_increase fields maxlen g cs :
  let '(f, tr) := serve_all (NewFilter fields maxlen true g) cs in
  (forall device, Sorted Z.lt (accepted_times g device tr)) /\
  (forall c device ts, clocked g c = Some (device, ts) -> oversized f c.(value) = false ->
     ((serve c f).2 = dropped (str "non_monotonic_timestamp") <-> exists t, t ∈ accepted_times g device tr /\ ts <= t)).
Proof.
  destruct (serve_all _ cs) as [f tr] eqn:E.
  destruct (serve_all_inv cs (NewFilter fields maxlen true g) f tr [] eq_refl E) as [(_ & _ & Hd & Hg) Hi]. cbn [NewFilter dropBackward registry] in *.
  assert (clock_inv g f tr) as Hc by (apply Hi; intros d; split; [constructor|done]). clear Hi E.
  split; [intros device; apply Hc|]. intros c device ts Hcl Ho. destruct (Hc device) as [Hs Hl].
  destruct (serve c f) as [f' v] eqn:E. destruct (serve_step c f f' v Hd E) as [_ Hst]. rewrite Hg in Hst. cbn [snd].
  destruct Hst as [Hn _|d t Hc' _ Hp Hlt _|d t m Hc' _ -> Hm Hle _].
  - destruct Hn as [Hn|[Hn _]]; congruence.
  - rewrite Hcl in Hc'; injection Hc' as <- <-. split; [intros ->; done|]. intros (t & Ht & Hle). exfalso.
    destruct (lastTS f !! device) as [m|] eqn:Hm.
    + pose proof (times_last_max _ m Hs Hl t Ht). specialize (Hlt m eq_refl). lia.
    + destruct (accepted_times g device tr) eqn:Ha; [by apply not_elem_of_nil in Ht|].
      rewrite last_None in Hl. done.
  - rewrite Hcl in Hc'; injection Hc' as <- <-. split; [|done]. intros _. exists m. split; [|done].
    apply last_Some_elem_of. congruence.
Qed.

(** ** The longest registered prefix *)
Lemma HasPrefix_prefix k p : HasPrefix k p = true <-> p `prefix_of` k.
Proof.
  unfold HasPrefix. rewrite beqb_eq. split; intros H.
  - exists (drop (length p) k). rewrite <- H at 1. by rewrite take_drop.
  - destruct H as [x ->]. by rewrite take_app_length.
Qed.

(** [b] is the best of the entries seen: one that serves the key and is longer
    than every other, or none because none serves it. *)
Definition best_of (k : bytes) (l : list (bytes * Descriptor)) (b : option (bytes * Descriptor)) : Prop :=
  match b with
  | Some pd => pd ∈ l /\ pd.1 `prefix_of` k /\ forall q, q ∈ l -> q.1 `prefix_of` k -> len q.1 <= len pd.1
  | None => forall q, q ∈ l -> ~ q.1 `prefix_of` k
  end.
Lemma longer_best k l b q : best_of k l b -> best_of k (l ++ [q]) (longer k b q).
Proof.
  intros Hb. unfold longer. pose proof (len_nonneg q.1) as Hn. pose proof (HasPrefix_prefix k q.1) as Hp.
  destruct (Z.leb_spec (len q.1) (match b with Some b => len b.1 | None => -1 end)).
  - destruct b as [pd|]; [|lia]. destruct Hb as (Hin & Hpre & Hmax). split; [set_solver|]. split; [done|].
    intros q'. rewrite elem_of_app, list_elem_of_singleton. intros [?| ->]; auto.
  - destruct (HasPrefix k q.1).
    + split; [set_solver|]. split; [by apply Hp|]. intros q'. rewrite elem_of_app, list_elem_of_singleton.
      intros [Hq| ->] Hk; [|lia]. destruct b as [pd|]; [|by destruct (Hb q')]. destruct Hb as (_ & _ & Hmax).
      specialize (Hmax q' Hq Hk). lia.
    + assert (~ q.1 `prefix_of` k) by (rewrite <- Hp; done).
      destruct b as [pd|]; cbn [best_of] in *.
      * destruct Hb as (Hin & Hpre & Hmax). split; [set_solver|]. split; [done|].
        intros q'. rewrite elem_of_app, list_elem_of_singleton. intros [?| ->]; [auto|done].
      * intros q'. rewrite elem_of_app, list_elem_of_singleton. intros [?| ->]; auto.
Qed.
Lemma fold_longer_best k l : best_of k l (fold_left (longer k) l None).
Proof.
  induction l as [|q l IH] using rev_ind; [intros q Hq; by apply not_elem_of_nil in Hq|].
  rewrite fold_left_app. cbn [fold_left]. by apply longer_best.
Qed.

Lemma prefix_same_len (p q k : bytes) : p `prefix_of` k -> q `prefix_of` k -> len p = len q -> p = q.
Proof.
  intros [x ->] [y Hy] Hl. unfold len in Hl. apply (f_equal (take (length q))) in Hy.
  rewrite take_app_length in Hy. rewrite <- Hy. replace (length q) with (length p) by lia. by rewrite take_app_length.
Qed.

(** The schema of a key is that of the longest registered prefix of the
    key, for every order in which the map of prefixes may be walked; there is
    none exactly when no registered prefix matches. *)
Theorem longest_prefix_serves g k order :
  order ≡ₚ map_to_list g.(prefixRegistry) ->
  lookup_in order k = LookupDescriptor k g /\
  forall d, LookupDescriptor k g = Some d <->
    exists p, g.(prefixRegistry) !! p = Some d /\ p `prefix_of` k /\
      forall q d', g.(prefixRegistry) !! q = Some d' -> q `prefix_of` k -> len q <= len p.
Proof.
  intros Hord.
  assert (forall o, o ≡ₚ map_to_list g.(prefixRegistry) -> forall d, lookup_in o k = Some d <->
    exists p, g.(prefixRegistry) !! p = Some d /\ p `prefix_of` k /\
      forall q d', g.(prefixRegistry) !! q = Some d' -> q `prefix_of` k -> len q <= len p) as H.
  { intros o Ho d. unfold lookup_in. pose proof (fold_longer_best k o) as Hb.
    assert (forall p d, (p, d) ∈ o <-> g.(prefixRegistry) !! p = Some d) as Hin
      by (intros; rewrite Ho; apply elem_of_map_to_list).
    destruct (fold_left (longer k) o None) as [[p e]|]; cbn [fmap option_fmap option_map best_of fst snd] in *.
    - destruct Hb as (Hp & Hpre & Hmax). rewrite Hin in Hp. split.
      + intros [= <-]. exists p. repeat split; auto. intros q d' Hq. apply (Hmax (q, d')). by apply Hin.
      + intros (p' & Hp' & Hpre' & Hmax'). f_equal.
        assert (p = p') as ->; [|congruence]. apply (prefix_same_len _ _ k); auto.
        apply Z.le_antisymm; [by eapply Hmax'|]. apply (Hmax (p', d)); [by apply Hin|done].
    - split; [done|]. intros (p & Hp & Hpre & _). exfalso. apply (Hb (p, d)); [by apply Hin|done]. }
  split; [|by apply H]. apply option_eq. intros d. rewrite (H order Hord). symmetry. by apply H.
Qed.
Lemma longest_prefix_serves_witness :
  let d p := MkDescriptor 0 [] 0 p (fun _ => None) in
  let g := RegisterDescriptor (d (str "ab")) (RegisterDescriptor (d (str "a")) empty_registry) in
  DName <$> LookupDescriptor (str "abc") g = Some [] /\ lookup_in (map_to_list g.(prefixRegistry)) (str "abc") = LookupDescriptor (str "abc") g.
Proof.
  intros d g. split; [vm_compute; reflexivity|].
  exact (proj1 (longest_prefix_serves g (str "abc") (map_to_list g.(prefixRegistry)) (reflexivity _))).
Defined.

(** ** The byte scan before redaction

    Text without a backslash: a string literal then is its own text, except
    where bytes that are not UTF-8 are replaced. *)
Definition plain (s : bytes) : Prop := Forall (fun b => #b <> 92) s.
Definition has_replacement (s : bytes) : Prop := exists a b, s = a ++ replacement ++ b.

Lemma plain_suffix r s : r `suffix_of` s -> plain s -> plain r.
Proof. intros [x ->]. unfold plain. rewrite Forall_app. tauto. Qed.
Lemma skip_ws_suffix s : skip_ws s `suffix_of` s.
Proof. induction s as [|b s IH]; cbn; [done|]. case_match; [by apply suffix_cons_r|done]. Qed.
Lemma drop_suffix n (s : bytes) : drop n s `suffix_of` s.
Proof. exists (take n s). by rewrite take_drop. Qed.
Lemma suffix_tail (b : byte) t s : (b :: t) `suffix_of` s -> t `suffix_of` s.
Proof. intros H. transitivity (b :: t); [by apply suffix_cons_r|done]. Qed.
Create HintDb ingest.
#[local] Hint Resolve plain_suffix skip_ws_suffix drop_suffix suffix_tail : ingest.

Lemma unquote_plain fuel s v r :
  plain s -> unquote fuel s = Some (v, r) ->
  r `suffix_of` s /\ (has_replacement v \/ s = v ++ dquote :: r).
Proof.
  revert s v r. induction fuel as [|fuel IH]; intros s v r Hp; [done|].
  destruct s as [|b t]; [done|]. cbn [unquote]. destruct (Z.eqb_spec (#b) 34) as [Hb|Hb].
  { intros [= <- <-]. split; [by apply suffix_cons_r|]. right. cbn. f_equal. symmetry. by apply byte.unsigned_inj. }
  inversion Hp as [|? ? H92 Ht]; subst. rewrite (proj2 (Z.eqb_neq _ _) H92).
  destruct (#b <? 32); [done|]. destruct (rune_len (b :: t)) as [|n] eqn:En.
  - destruct (unquote fuel t) as [[v' r']|] eqn:E; cbn [mbind option_bind]; intros [= <- <-].
    destruct (IH t v' r' Ht E) as [Hs _]. split; [by eapply suffix_cons_r|]. left. by exists [], v'.
  - destruct (unquote fuel (drop (S n) (b :: t))) as [[v' r']|] eqn:E; cbn [mbind option_bind]; intros [= <- <-].
    assert (plain (drop (S n) (b :: t))) as Hd by (eapply plain_suffix; [apply drop_suffix|done]).
    destruct (IH _ v' r' Hd E) as [Hs Hv]. split; [etransitivity; [done|apply drop_suffix]|].
    destruct Hv as [(a & c & ->)|Hv].
    + left. exists (take (S n) (b :: t) ++ a), c. by rewrite <- !app_assoc.
    + right. rewrite <- (take_drop (S n) (b :: t)) at 1. rewrite Hv. apply app_assoc.
Qed.

Lemma digits_suffix s d r : digits s = (d, r) -> r `suffix_of` s.
Proof.
  revert d r. induction s as [|b t IH]; intros d r; cbn; [by intros [= <- <-]|].
  destruct (is_digit b); [|by intros [= <- <-]]. destruct (digits t) as [d' r'] eqn:E. intros [= <- <-].
  apply suffix_cons_r. by eapply IH.
Qed.
Lemma digits1_suffix s d r : digits1 s = Some (d, r) -> r `suffix_of` s.
Proof. unfold digits1. destruct (digits s) as [d' r'] eqn:E. case_match; [done|]. intros [= <- <-]. by eapply digits_suffix. Qed.
Ltac suffixes :=
  repeat (case_match; simplify_option_eq);
  eauto using digits1_suffix, suffix_cons_r with ingest.
Lemma scan_int_suffix s d r : scan_int s = Some (d, r) -> r `suffix_of` s.
Proof. unfold scan_int. intros H. suffixes. Qed.
Lemma scan_frac_suffix s d r : scan_frac s = Some (d, r) -> r `suffix_of` s.
Proof. unfold scan_frac. intros H. suffixes. Qed.
Lemma scan_exp_suffix s d r : scan_exp s = Some (d, r) -> r `suffix_of` s.
Proof. unfold scan_exp. intros H. suffixes. Qed.
Lemma scan_number_suffix s d r : scan_number s = Some (d, r) -> r `suffix_of` s.
Proof.
  unfold scan_number.
  assert (forall s1 sign, ('(i, s2) ← scan_int s1; '(f, s3) ← scan_frac s2; '(e, s4) ← scan_exp s3; Some (sign ++ i ++ f ++ e, s4)) = Some (d, r) -> r `suffix_of` s1) as H.
  { intros s1 sign. destruct (scan_int s1) as [[i s2]|] eqn:E1; [|done]. cbn [mbind option_bind].
    destruct (scan_frac s2) as [[f s3]|] eqn:E2; [|done]. cbn [mbind option_bind].
    destruct (scan_exp s3) as [[e s4]|] eqn:E3; [|done]. cbn [mbind option_bind]. intros [= <- <-].
    etransitivity; [by eapply scan_exp_suffix|]. etransitivity; [by eapply scan_frac_suffix|by eapply scan_int_suffix]. }
  destruct s as [|b t]; [apply H|]. destruct (#b =? 45); intros E; apply H in E; [by apply suffix_cons_r|done].
Qed.
Lemma expect_suffix lit j s x r : expect lit j s = Some (x, r) -> r `suffix_of` s.
Proof. unfold expect. case_match; [|done]. intros [= <- <-]. apply drop_suffix. Qed.

(** What a parser leaves is a suffix of its input. *)
Lemma parse_suffix fuel :
  (forall depth s v r, plain s -> parse_value fuel depth s = Some (v, r) -> r `suffix_of` s) /\
  (forall depth s v r, plain s -> parse_elems fuel depth s = Some (v, r) -> r `suffix_of` s) /\
  (forall depth s v r, plain s -> parse_members fuel depth s = Some (v, r) -> r `suffix_of` s).
Proof.
  induction fuel as [|fuel (IHv & IHe & IHm)]; [done|].
  assert (forall s b t, plain s -> skip_ws s = b :: t -> t `suffix_of` s /\ plain t) as Hws.
  { intros s b t Hp E. assert (t `suffix_of` s) as Hs.
    { eapply suffix_tail. rewrite <- E. apply skip_ws_suffix. }
    split; [done|by eapply plain_suffix]. }
  repeat split; intros depth s v r Hp; cbn.
  - destruct (skip_ws s) as [|b t] eqn:E; [done|]. destruct (Hws s b t Hp E) as [Hs Ht].
    destruct (#b =? 34). { destruct (unquote _ t) as [[x y]|] eqn:Eu; [|done]. cbn. intros [= <- <-].
      etransitivity; [by eapply unquote_plain|done]. }
    destruct (#b =? 123). { case_match; [done|]. destruct (skip_ws t) as [|c r1] eqn:E1; [done|]. destruct (Hws t c r1 Ht E1) as [Hs1 _].
      destruct (#c =? 125); [intros [= <- <-]; by etransitivity|].
      destruct (parse_members _ _ t) as [[x y]|] eqn:Eu; [|done]. cbn. intros [= <- <-]. etransitivity; [by eapply IHm|done]. }
    destruct (#b =? 91). { case_match; [done|]. destruct (skip_ws t) as [|c r1] eqn:E1; [done|]. destruct (Hws t c r1 Ht E1) as [Hs1 _].
      destruct (#c =? 93); [intros [= <- <-]; by etransitivity|].
      destruct (parse_elems _ _ t) as [[x y]|] eqn:Eu; [|done]. cbn. intros [= <- <-]. etransitivity; [by eapply IHe|done]. }
    do 3 (case_match; [intros Ee; etransitivity; [by eapply expect_suffix|done]|]).
    destruct (scan_number (b :: t)) as [[x y]|] eqn:Eu; [|done]. cbn. intros [= <- <-].
    etransitivity; [by eapply scan_number_suffix|]. rewrite <- E. apply skip_ws_suffix.
  - destruct (parse_value fuel depth s) as [[x y]|] eqn:Ev; [|done]. cbn. assert (y `suffix_of` s) as Hy by by eapply IHv.
    assert (plain y) as Hpy by by eapply plain_suffix.
    destruct (skip_ws y) as [|c r1] eqn:E1; [done|]. destruct (Hws y c r1 Hpy E1) as [Hs1 Hp1].
    destruct (#c =? 44).
    + destruct (parse_elems _ _ r1) as [[l z]|] eqn:Ee; [|done]. cbn. intros [= <- <-].
      etransitivity; [by eapply IHe|]. by etransitivity.
    + destruct (#c =? 93); [|done]. intros [= <- <-]. by etransitivity.
  - destruct (skip_ws s) as [|b t] eqn:E; [done|]. destruct (Hws s b t Hp E) as [Hs Ht]. destruct (#b =? 34); [|done].
    destruct (unquote _ t) as [[k y]|] eqn:Eu; [|done]. cbn. assert (y `suffix_of` t) as Hy by by eapply unquote_plain.
    assert (plain y) as Hpy by by eapply plain_suffix. destruct (skip_ws y) as [|c r1] eqn:E1; [done|].
    destruct (Hws y c r1 Hpy E1) as [Hs1 Hp1]. destruct (#c =? 58); [|done].
    destruct (parse_value fuel depth r1) as [[x r2]|] eqn:Ev; [|done]. cbn. assert (r2 `suffix_of` r1) as H2 by by eapply IHv.
    assert (plain r2) as Hp2 by by eapply plain_suffix. destruct (skip_ws r2) as [|d r3] eqn:E3; [done|].
    destruct (Hws r2 d r3 Hp2 E3) as [Hs3 Hp3].
    assert (r3 `suffix_of` s) by (etransitivity; [done|etransitivity; [done|etransitivity; [done|by etransitivity]]]).
    destruct (#d =? 44).
    + destruct (parse_members _ _ r3) as [[l z]|] eqn:Ee; [|done]. cbn. intros [= <- <-].
      etransitivity; [by eapply IHm|done].
    + destruct (#d =? 125); [|done]. by intros [= <- <-].
Qed.

(** The name of a member stands, in quotes, in the text. *)
Lemma raw_members_named fuel s k v :
  plain s -> (k, v) ∈ raw_members fuel s ->
  has_replacement k \/ exists a r, s = a ++ (dquote :: k ++ [dquote]) ++ r.
Proof.
  revert s. induction fuel as [|fuel IH]; intros s Hp; cbn [raw_members]; [intros H; by apply not_elem_of_nil in H|].
  destruct (skip_ws s) as [|b t] eqn:E; [intros H; by apply not_elem_of_nil in H|].
  destruct (Z.eqb_spec (#b) 34) as [Hb|]; [|intros H; by apply not_elem_of_nil in H].
  assert (b = dquote) as -> by by apply byte.unsigned_inj.
  assert ((dquote :: t) `suffix_of` s) as Hs by (rewrite <- E; apply skip_ws_suffix).
  assert (plain t) as Ht by (eapply plain_suffix; [by eapply suffix_tail|done]).
  destruct (unquote (length t) t) as [[k' r]|] eqn:Eu; [|intros H; by apply not_elem_of_nil in H].
  destruct (unquote_plain _ _ _ _ Ht Eu) as [Hr Hk].
  destruct (skip_ws r) as [|c r1] eqn:E1; [intros H; by apply not_elem_of_nil in H|].
  destruct (parse_value _ 1 (skip_ws r1)) as [[x r2]|] eqn:Ev; [|intros H; by apply not_elem_of_nil in H].
  rewrite elem_of_cons. intros [H|H].
  - injection H as <- _. destruct Hk as [Hk|Hk]; [by left|]. right. destruct Hs as [a ->]. exists a, r. subst t.
    f_equal. cbn. f_equal. by rewrite <- app_assoc.
  - destruct (skip_ws r2) as [|d r3] eqn:E3; [by apply not_elem_of_nil in H|].
    destruct (#d =? 44); [|by apply not_elem_of_nil in H].
    assert (r3 `suffix_of` t) as H3.
    { assert (r1 `suffix_of` t) by (etransitivity; [eapply suffix_tail; rewrite <- E1; apply skip_ws_suffix|done]).
      assert (skip_ws r1 `suffix_of` t) by (etransitivity; [apply skip_ws_suffix|done]).
      assert (r2 `suffix_of` t) by (etransitivity; [refine (proj1 (parse_suffix _) _ _ _ _ _ Ev); by eapply plain_suffix|done]).
      etransitivity; [eapply suffix_tail; rewrite <- E3; apply skip_ws_suffix|done]. }
    assert (plain r3) as Hp3 by by eapply plain_suffix.
    destruct (IH r3 Hp3 H) as [|(a & r' & ->)]; [by left|]. right. destruct H3 as [y ->]. destruct Hs as [z ->].
    exists (z ++ [dquote] ++ y ++ a), r'. rewrite <- !app_assoc. done.
Qed.

Lemma contains_mid a p r : contains (a ++ p ++ r) p = true.
Proof.
  induction a as [|b a IH]; cbn [app contains].
  - assert (HasPrefix (p ++ r) p = true) as H by (apply HasPrefix_prefix; by apply prefix_app_r).
    destruct (p ++ r); cbn [contains]; by rewrite H.
  - rewrite IH. apply orb_true_r.
Qed.
Lemma fold_insert_elem (l : list (bytes * bytes)) (m : gmap bytes bytes) k v :
  fold_left (fun m kv => <[kv.1 := kv.2]> m) l m !! k = Some v -> m !! k = Some v \/ (k, v) ∈ l.
Proof.
  revert m. induction l as [|[k' v'] l IH]; intros m; cbn [fold_left]; [by left|]. intros H.
  destruct (IH _ H) as [H1|H1]; [|right; set_solver]. cbn [fst snd] in H1.
  destruct (decide (k' = k)) as [->|]; [rewrite lookup_insert_eq in H1|rewrite lookup_insert_ne in H1 by done]; simplify_eq; set_solver.
Qed.
Lemma scan_sees_members value fields m f :
  mayContainAnyField value fields = false -> raw_map value = Some m -> f ∈ fields -> is_Some (m !! f) -> has_replacement f.
Proof.
  unfold mayContainAnyField. rewrite orb_false_iff. intros [Hbs Hc] Hm Hf [v Hv].
  assert (plain value) as Hp.
  { apply Forall_forall. intros b Hb H92. apply not_true_iff_false in Hbs. apply Hbs. apply existsb_exists.
    exists b. split; [by apply list_elem_of_In|]. lia. }
  assert (exists n s, s `suffix_of` value /\ (f, v) ∈ raw_members n s) as (n & s & Hs & Hin).
  { unfold raw_map in Hm. repeat case_match; simplify_eq.
    apply fold_insert_elem in Hv as [Hv|Hv]; [by rewrite lookup_empty in Hv|]. eexists _, _. split; [|exact Hv].
    destruct (skip_ws value) as [|b t] eqn:E; [apply suffix_nil|]. cbn [tail]. apply (suffix_tail b). rewrite <- E. apply skip_ws_suffix. }
  assert (plain s) as Hps by by eapply plain_suffix.
  destruct (raw_members_named n s f v Hps Hin) as [|(a & r & ->)]; [done|]. exfalso.
  apply not_true_iff_false in Hc. apply Hc. apply existsb_exists. exists f. split; [by apply list_elem_of_In|].
  destruct Hs as [z ->]. rewrite (app_assoc z a). apply contains_mid.
Qed.

Lemma redact_members_none fields m : (forall f, f ∈ fields -> m !! f = None) -> redact_members fields m = (m, false).
Proof.
  unfold redact_members. induction fields as [|f fields IH]; intros H; [done|]. cbn [fold_left fst].
  rewrite bool_decide_false; [apply IH; set_solver|]. rewrite (H f) by set_solver. intros [? ?]. done.
Qed.

(** C37: the byte scan is exact in its negative answer: skipping the parse when
    the scan finds no trace of a sensitive name never changes what [redact]
    answers, for every value and every list of names free of the replacement
    character. *)
Theorem scan_preserves_redaction value fields :
  Forall (fun f => ~ has_replacement f) fields -> redact value fields = redact_parsed value fields.
Proof.
  intros Hf. unfold redact. destruct fields as [|f0 fields0] eqn:E.
  { unfold redact_parsed, redact_members. by destruct (raw_map value). }
  rewrite <- E in *. clear E. destruct (mayContainAnyField value fields) eqn:Hm; [done|].
  unfold redact_parsed. destruct (raw_map value) as [m|] eqn:Hr; [|done].
  rewrite redact_members_none; [done|]. intros f Hin. apply eq_None_not_Some. intros Hs.
  rewrite Forall_forall in Hf. apply (Hf f Hin). by eapply scan_sees_members.
Qed.
Lemma scan_preserves_redaction_witness :
  redact (str "{" ++ Json.quote (str "gps") ++ str ":1}") [str "gps"] = redact_parsed (str "{" ++ Json.quote (str "gps") ++ str ":1}") [str "gps"].
Proof.
  apply scan_preserves_redaction. apply Forall_singleton. intros (a & b & E).
  apply (f_equal (existsb (fun c => #c =? 239))) in E. rewrite !existsb_app in E.
  change (existsb _ replacement) with true in E. rewrite orb_true_r in E. vm_compute in E. discriminate.
Defined.

(** Redaction replaces exactly the named members that are present. *)
Lemma redact_members_spec fields m k :
  (redact_members fields m).1 !! k = if decide (k ∈ fields) then (fun _ => redactedValue) <$> m !! k else m !! k.
Proof.
  unfold redact_members. generalize false. revert m. induction fields as [|f fields IH]; intros m ch; [by rewrite decide_False by apply not_elem_of_nil|].
  cbn [fold_left fst]. case_bool_decide as Hs; rewrite IH.
  - destruct (decide (k = f)) as [->|Hne].
    + rewrite lookup_insert_eq. rewrite (decide_True (P := f ∈ f :: fields)) by set_solver. destruct Hs as [v ->]. by destruct (decide (f ∈ fields)).
    + rewrite lookup_insert_ne by done. destruct (decide (k ∈ fields)), (decide (k ∈ f :: fields)); try done; set_solver.
  - apply eq_None_not_Some in Hs. destruct (decide (k ∈ fields)), (decide (k ∈ f :: fields)) as [Hk|]; try done; [set_solver|].
    apply elem_of_cons in Hk as [-> |]; [|done]. by rewrite Hs.
Qed.

(** A member that is not named does not keep its text: the object is printed
    again, without white space and with the HTML characters escaped. *)
Lemma redaction_rewrites_others :
  let q := map (fun c : byte => if #c =? 39 then dquote else c) in
  redact (q (str "{ 'gps': 1, 'note': [1, '<b> x'] }")) [str "gps"] =
  (q (str "{'gps':'[REDACTED]','note':[1,'\u003cb\u003e x']}"), true).
Proof. vm_compute. done. Qed.

(** With the replacement character in a sensitive name, the scan overlooks a
    member whose name decodes to it. *)
Lemma scan_overlooks_replacement :
  let value := str "{" ++ [dquote; byte.of_Z 255; dquote] ++ str ":1}" in
  redact value [replacement] = (value, false) /\ (redact_parsed value [replacement]).2 = true.
Proof. vm_compute. done. Qed.

(** ** Quotes *)
Lemma set_fields_inv {A} (P : A -> Prop) (fs : list (field A)) l a a' :
  Forall (fun f => forall j a a', P a -> f.2 j a = Some a' -> P a') fs -> P a -> set_fields fs l a = Some a' -> P a'.
Proof.
  intros Hfs. assert (forall g name set, field_by g name fs = Some set -> forall j a a', P a -> set j a = Some a' -> P a') as Hby.
  { intros g name set. induction Hfs as [|[n s] fs Hf _ IH]; cbn [field_by]; [done|]. case_match; [by intros [= <-]|done]. }
  revert a. induction l as [|[k v] l IH]; intros a Ha; cbn [set_fields]; [by intros [= <-]|].
  destruct (find_field fs k) as [set|] eqn:E; [|by apply IH].
  destruct (set v a) as [b|] eqn:Es; [|done]. cbn [mbind option_bind]. apply IH.
  unfold find_field in E. case_match; simplify_eq; eauto.
Qed.
Lemma Unmarshal_inv {A} (P : A -> Prop) (fs : list (field A)) zero raw a :
  Forall (fun f => forall j a a', P a -> f.2 j a = Some a' -> P a') fs -> P zero -> Unmarshal fs zero raw = Some a -> P a.
Proof.
  intros Hfs Hz. unfold Unmarshal. destruct (parse raw) as [j|]; [|done]. cbn [mbind option_bind]. unfold decode_struct.
  destruct j; try done; [by intros [= <-]|]. by apply set_fields_inv.
Qed.
Definition finite_opt (o : option float) : Prop := from_option (fun x => finite x = true) True o.
Definition finite_quote (q : quoteRecord) : Prop :=
  finite_opt q.(Open_) /\ finite_opt q.(High) /\ finite_opt q.(Low) /\ finite_opt q.(Close_) /\ finite_opt q.(Volume) /\ finite_opt q.(PrevClose).
Lemma quote_numbers_finite value r : Unmarshal quote_fields empty_quote value = Some r -> finite_quote r.
Proof.
  apply Unmarshal_inv; [|done].
  assert (forall put : option float -> quoteRecord -> quoteRecord,
    (forall o a, finite_opt o -> finite_quote a -> finite_quote (put o a)) ->
    forall j a a', finite_quote a -> set_float put j a = Some a' -> finite_quote a') as H.
  { intros put Hput j a a' Ha. unfold set_float. destruct j; try done; [by intros [= <-]; apply Hput|].
    destruct (parse_decimal _) as [x|] eqn:E; [|done]. intros [= <-]. apply Hput; [|done]. by eapply parse_decimal_finite. }
  unfold quote_fields. repeat (apply Forall_cons_2; cbn [snd]).
  all: try (apply H; unfold finite_quote; cbn; tauto); try apply Forall_nil_2;
    intros j a a' Ha; unfold set_string; destruct j; try done; by intros [= <-].
Qed.

(** Between finite floats the order is total. *)
Lemma SFcompare_swap x y : finite x = true -> finite y = true -> exists c, SFcompare x y = Some c /\ SFcompare y x = Some (CompOpp c).
Proof.
  destruct x as [[]| | |[] m e], y as [[]| | |[] m' e']; try done; intros _ _; cbn; try (eexists; split; reflexivity).
  all: pose proof (Pos.compare_cont_antisym m m' Eq) as H; cbn in H; rewrite (Z.compare_antisym e e'), <- H.
  all: destruct (e ?= e')%Z; cbn; try (eexists; split; reflexivity); destruct (Pos.compare_cont Eq m m'); cbn; eexists; split; reflexivity.
Qed.
Lemma SFleb_ltb x y : finite x = true -> finite y = true -> SFleb x y = negb (SFltb y x).
Proof. intros Hx Hy. destruct (SFcompare_swap x y Hx Hy) as (c & H1 & H2). unfold SFleb, SFltb. rewrite H1, H2. by destruct c. Qed.

Section Quote.
Context (show_v show_4f : float -> bytes) (json_error : bytes -> bytes).

Lemma first_non_positive_None l :
  Forall (fun nv => finite nv.2 = true) l ->
  first_non_positive show_v l = None <-> Forall (fun nv => SFltb zero nv.2 = true) l.
Proof.
  induction 1 as [|[n v] l Hv _ IH]; cbn [first_non_positive snd] in *; [done|].
  rewrite Forall_cons. cbn [snd]. rewrite (SFleb_ltb v zero Hv eq_refl).
  destruct (SFltb zero v); cbn; [tauto|]. split; [done|]. by intros [? _].
Qed.
Lemma inconsistent_None low n v high :
  finite low = true -> finite v = true -> finite high = true ->
  inconsistent show_v low n v high = None <-> SFleb low v = true /\ SFleb v high = true.
Proof.
  intros Hl Hv Hh. unfold inconsistent. rewrite !SFleb_ltb by done.
  destruct (SFltb v low), (SFltb high v); cbn; naive_solver.
Qed.
Lemma or_else_None a b : or_else a b = None <-> a = None /\ b = None.
Proof. unfold or_else. destruct a; naive_solver. Qed.

(** The change from the previous close is within the limit, or there is none. *)
Definition moves_within (prev : option float) (cls : float) : Prop :=
  forall p, prev = Some p -> SFeqb p zero = false ->
    let pct := fdiv (fsub cls p) p in SFltb maxPctChange pct = false /\ SFltb pct minPctChange = false.

Lemma pct_check_None prev cls : pct_check show_4f prev cls = None <-> moves_within prev cls.
Proof.
  unfold pct_check, moves_within. destruct prev as [p|]; [|done].
  destruct (SFeqb p zero) eqn:E.
  { split; [|done]. intros _ q [= <-]. by rewrite E. }
  split.
  - intros H q [= <-] _. cbv zeta. by destruct (SFltb maxPctChange _), (SFltb _ minPctChange).
  - intros H. specialize (H p eq_refl E). cbv zeta in *. destruct H as [-> ->]. done.
Qed.

(** What the rules ask of a quote. *)
Definition quote_ok (r : quoteRecord) : Prop :=
  r.(QCode) <> [] /\ r.(QDate) <> [] /\
  exists open high low cls volume,
    r.(Open_) = Some open /\ r.(High) = Some high /\ r.(Low) = Some low /\ r.(Close_) = Some cls /\ r.(Volume) = Some volume /\
    Forall (fun p => SFltb zero p = true) [open; high; low; cls] /\ SFleb zero volume = true /\
    SFleb low open = true /\ SFleb open high = true /\ SFleb low cls = true /\ SFleb cls high = true /\
    moves_within r.(PrevClose) cls.

Lemma first_missing_Some l : Exists (fun nv => nv.2 = None) l -> first_missing l <> None.
Proof. induction 1 as [[n v] l H|[n [v|]] l _ IH]; cbn in *; [by rewrite H|done|done]. Qed.

(** C38: a snapshot is accepted exactly when its text decodes and the record
    meets the published rules: code and date, all five numbers, positive
    prices, a volume that is not negative, prices within low and high, and, when
    there is a previous close other than zero, a move from it of at most 21%. *)
Theorem quote_accepted_iff value :
  QuoteSnapshot show_v show_4f json_error value = None <->
  exists r, Unmarshal quote_fields empty_quote value = Some r /\ quote_ok r.
Proof.
  unfold QuoteSnapshot. destruct (Unmarshal quote_fields empty_quote value) as [r|] eqn:E; [|naive_solver].
  apply quote_numbers_finite in E. transitivity (quote_ok r); [|naive_solver].
  unfold quote_ok. destruct (beqb (QCode r) []) eqn:Ec; [apply beqb_eq in Ec; split; [done|tauto]|].
  destruct (beqb (QDate r) []) eqn:Ed; [apply beqb_eq in Ed; split; [done|tauto]|].
  apply beqb_neq in Ec, Ed. destruct r as [code date [open|] [high|] [low|] [cls|] [volume|] prev]; unfold finite_quote in E; cbn [QCode QDate Open_ High Low Close_ Volume PrevClose finite_opt from_option] in *.
  1: destruct E as (Ho & Hh & Hl & Hc & Hv & Hp); rewrite !or_else_None, !inconsistent_None, pct_check_None by done.
  1: rewrite first_non_positive_None by (repeat constructor; done); rewrite !Forall_cons, !Forall_nil; cbn [snd].
  1: assert (forall e, (if SFltb volume zero then Some e else None) = @None ValidationError <-> SFleb zero volume = true) as ->
       by (intros e; rewrite (SFleb_ltb zero volume) by done; by destruct (SFltb volume zero)).
  1: split; [intros; destruct_and!; split_and!; [done|done|]; exists open, high, low, cls, volume; rewrite !Forall_cons, !Forall_nil; tauto|].
  1: intros (_ & _ & ? & ? & ? & ? & ? & ? & ? & ? & ? & ? & Hf & ?); simplify_eq; rewrite !Forall_cons, !Forall_nil in Hf; tauto.
  all: split; [done|]; intros (_ & _ & ? & ? & ? & ? & ? & ? & ? & ? & ? & ? & _); discriminate.
Qed.
End Quote.

End IngestSpec.
