(* ===== verification/RouterV1.v ===== *)
(** * The first-protocol server ([service/router.go], [service/guardrail.go], [kairnet/dispatch/])

    The router of the first protocol, handler by handler, between the
    dispatcher that calls it and the store, the peers, the admission limiter
    and the ingest hook it calls.  A request is a message identifier and a
    payload; what the router sends back is the list of messages it hands to the
    connection.  The memory guardrail is a state machine over samples of the
    resident set. *)
From Stdlib Require Import SpecFloat.
From stdpp Require Import gmap.
From S2P Require Import Prelude Bytes Temporal KVServer TemporalStore Proto Frames RouterV2 Json JobSpec Floats Ingest Cluster.
Import Kv Tstore Proto Floats.

(** ** The memory guardrail (guardrail.go) *)
Module Guard.
Definition guardrailRecoverRatio : float := S754_finite false 8106479329266893 (-53).
(** [uint64(f)] of a float that is not negative: towards zero. *)
Definition trunc (f : float) : Z :=
  match f with S754_finite false m e => if 0 <=? e then Z.shiftl (Zpos m) e else Z.shiftr (Zpos m) (- e) | _ => 0 end.
Record MemoryGuardrail := MkGuard { maxRSSBytes : Z; blocked : bool }.
(** [uint64(maxRSSMb) << 20] *)
Definition NewMemoryGuardrail (maxRSSMb : Z) : option MemoryGuardrail :=
  if maxRSSMb <=? 0 then None else Some (MkGuard (u64 (Z.shiftl maxRSSMb 20)) false).
Definition recover_at (limit : Z) : Z := trunc (fmul (of_int limit) guardrailRecoverRatio).
Definition tick (rss : Z) (g : MemoryGuardrail) : MemoryGuardrail :=
  let limit := g.(maxRSSBytes) in
  MkGuard limit ((limit <? rss) || (g.(blocked) && (recover_at limit <? rss))).
Definition Blocked (g : MemoryGuardrail) : bool := g.(blocked).
End Guard.

(** ** The router *)
Module V1.

(** *** Constants (proto/codes.go) *)
Definition MsgPut : bytes := str "PUT".
Definition MsgGet : bytes := str "GET".
Definition MsgDelete : bytes := str "DEL".
Definition MsgScan : bytes := str "SCAN".
Definition MsgRespOK : bytes := str "OK".
Definition MsgRespErr : bytes := str "ERR".
Definition StatusOK : bytes := str "ok".
Definition StatusError : bytes := str "error".
Definition StatusDropped : bytes := str "dropped".
Definition StatusOverloaded : bytes := str "overloaded".
Definition StatusNotFound : bytes := str "notfound".

(** *** Payloads *)
Definition statusPayload (status : bytes) : bytes := put_le 1 (u8 (len status)) ++ status.
Definition maxReasonLen : Z := 4096.
Definition droppedPayload (reason : bytes) : bytes :=
  let reason := if maxReasonLen <? len reason then take (Z.to_nat maxReasonLen) reason else reason in
  put_le 1 (u8 (len StatusDropped)) ++ StatusDropped ++ put_le 2 (u16 (len reason)) ++ reason.
Definition valuePayload (value : bytes) : bytes := put_le 1 (u8 (len StatusOK)) ++ StatusOK ++ put_le 4 (u32 (len value)) ++ value.

Definition response : Type := bytes * bytes.
Definition sendErr : list response := [(MsgRespErr, statusPayload StatusError)].
Definition sendNotFound : list response := [(MsgRespErr, statusPayload StatusNotFound)].
Definition sendOverloaded : list response := [(MsgRespErr, statusPayload StatusOverloaded)].
Definition sendOK : list response := [(MsgRespOK, statusPayload StatusOK)].
Definition sendDropped (reason : bytes) : list response := [(MsgRespErr, droppedPayload reason)].

(** *** What the router calls *)

(** [admission.Limiter]: admission, and the round-trip time at completion. *)
Class Admission (L : Type) := { Acquire : L -> L * bool; Release : Z -> L -> L }.
(** [cluster.PeerPool]: requests to the owner of a key. *)
Class Peers (P : Type) := {
  peer_put : bytes -> bytes -> bytes -> P -> P * bool;                     (* owner, key, value; [true]: no error *)
  peer_get : bytes -> bytes -> P -> P * RouterV2.get_result;
  peer_delete : bytes -> bytes -> P -> P * bool }.
(** The hook before a handler: what becomes of the payload. *)
Class Hook (H : Type) := { hook : bytes -> bytes -> H -> go (H * Ingest.hook_action) }.
#[export] Instance ingest_hook : Hook Ingest.Filter :=
  {| hook := fun msgID data f => Ingest.Handle (beqb msgID MsgPut) data f |}.

Section Router.
Context {St L P H : Type} `{!TemporalRawStore St} `{!RouterV2.KVStore St} `{!Admission L} `{!Peers P} `{!Hook H}.

Record counters := MkCounters { Writes : Z; Deletes : Z; Reads : Z; Scans : Z; WriteErrors : Z; AdmissionShed : Z }.
Record Router := MkRouter {
  store : St; placement : option Cluster.Placement; self : bytes; peers : option P; limiter : option L;
  memoryGuardrail : option Guard.MemoryGuardrail; preHandleFunc : option H; metrics : counters }.

Definition NewRouter (s : St) : Router := MkRouter s None [] None None None None (MkCounters 0 0 0 0 0 0).
Definition SetRouting (pl : option Cluster.Placement) (me : bytes) (ps : option P) (r : Router) : Router :=
  MkRouter r.(store) pl me ps r.(limiter) r.(memoryGuardrail) r.(preHandleFunc) r.(metrics).
Definition SetLimiter (l : option L) (r : Router) : Router :=
  MkRouter r.(store) r.(placement) r.(self) r.(peers) l r.(memoryGuardrail) r.(preHandleFunc) r.(metrics).
Definition SetMemoryGuardrail (g : option Guard.MemoryGuardrail) (r : Router) : Router :=
  MkRouter r.(store) r.(placement) r.(self) r.(peers) r.(limiter) g r.(preHandleFunc) r.(metrics).
Definition SetPreHandle (h : option H) (r : Router) : Router :=
  MkRouter r.(store) r.(placement) r.(self) r.(peers) r.(limiter) r.(memoryGuardrail) h r.(metrics).
Definition set_store (s : St) (r : Router) : Router :=
  MkRouter s r.(placement) r.(self) r.(peers) r.(limiter) r.(memoryGuardrail) r.(preHandleFunc) r.(metrics).
Definition set_peers (ps : P) (r : Router) : Router := SetRouting r.(placement) r.(self) (Some ps) r.
Inductive counter := CWrites | CDeletes | CReads | CScans | CWriteErrors | CShed.
Definition count (c : counter) (r : Router) : Router :=
  let x := r.(metrics) in
  let add d n := match c, d with CWrites, CWrites | CDeletes, CDeletes | CReads, CReads | CScans, CScans
                                | CWriteErrors, CWriteErrors | CShed, CShed => u64 (n + 1) | _, _ => n end in
  MkRouter r.(store) r.(placement) r.(self) r.(peers) r.(limiter) r.(memoryGuardrail) r.(preHandleFunc)
    (MkCounters (add CWrites x.(Writes)) (add CDeletes x.(Deletes)) (add CReads x.(Reads)) (add CScans x.(Scans))
       (add CWriteErrors x.(WriteErrors)) (add CShed x.(AdmissionShed))).

(** The peers and the owner when the key belongs to another node. *)
Definition forwardTarget (now : Z) (key : bytes) (r : Router) : option (P * bytes) :=
  match r.(placement), r.(peers) with
  | Some pl, Some ps =>
      let owner := Cluster.OwnerOf now key pl in
      if beqb owner [] || beqb owner r.(self) then None else Some (ps, owner)
  | _, _ => None
  end.

Definition PreHandle (msgID data : bytes) (r : Router) : go (Router * option bytes * list response) :=
  match r.(preHandleFunc) with
  | None => Ret (r, Some data, [])
  | Some h =>
      '(h, a) ← hook msgID data h;
      Ret match a with
          | Ingest.HookPass data => (SetPreHandle (Some h) r, Some data, [])
          | Ingest.HookDrop reason => (SetPreHandle (Some h) r, None, sendDropped reason)
          end
  end.

(** *** Handlers *)
Definition wrote (c : counter) (ok : bool) (r : Router) : Router * list response :=
  if ok then (count c r, sendOK) else (count CWriteErrors r, sendErr).

Definition handlePut (now : Z) (data : bytes) (r : Router) : go (Router * list response) :=
  kv ← DecodePutFrame data;
  match kv with
  | None => Ret (r, [])
  | Some (key, value) =>
      match forwardTarget now key r with
      | Some (ps, owner) => let '(ps, ok) := peer_put owner key value ps in Ret (wrote CWrites ok (set_peers ps r))
      | None =>
          '(s, ok) ← raw_write (MkCommand CommandPut key (Some value)) r.(store);
          Ret (wrote CWrites ok (set_store s r))
      end
  end.

Definition handleDelete (now : Z) (data : bytes) (r : Router) : go (Router * list response) :=
  key ← DecodeKeyFrame data;
  match key with
  | None => Ret (r, [])
  | Some key =>
      match forwardTarget now key r with
      | Some (ps, owner) => let '(ps, ok) := peer_delete owner key ps in Ret (wrote CDeletes ok (set_peers ps r))
      | None =>
          '(s, ok) ← raw_write (MkCommand CommandDelete key None) r.(store);
          Ret (wrote CDeletes ok (set_store s r))
      end
  end.

Definition answer_get (res : RouterV2.get_result) : list response :=
  match res with
  | RouterV2.Found value => [(MsgRespOK, valuePayload value)]
  | RouterV2.NotFound => sendNotFound
  | RouterV2.GetFailed => sendErr
  end.
Definition handleGet (now : Z) (data : bytes) (r : Router) : go (Router * list response) :=
  key ← DecodeKeyFrame data;
  match key with
  | None => Ret (r, [])
  | Some key =>
      let r := count CReads r in
      match forwardTarget now key r with
      | Some (ps, owner) => let '(ps, res) := peer_get owner key ps in Ret (set_peers ps r, answer_get res)
      | None => '(s, res) ← RouterV2.kv_get key r.(store); Ret (set_store s r, answer_get res)
      end
  end.

Definition handleScan (data : bytes) (r : Router) : go (Router * list response) :=
  req ← DecodeScanRequest data;
  match req with
  | None => Ret (r, sendErr)
  | Some req =>
      let r := count CScans r in
      '(s, entries) ← RouterV2.kv_scan req.(Start) req.(End_) req.(Pred) 0 r.(store);
      Ret (set_store s r, [(MsgRespOK, EncodeScanResponse StatusOK entries)])
  end.

Definition blocked (r : Router) : bool := match r.(memoryGuardrail) with Some g => Guard.Blocked g | None => false end.
(** The part of [Handle] after admission. *)
Definition route (now : Z) (msgID data : bytes) (r : Router) : go (Router * list response) :=
  if beqb msgID MsgPut then if blocked r then Ret (r, sendOverloaded) else handlePut now data r
  else if beqb msgID MsgGet then handleGet now data r
  else if beqb msgID MsgDelete then if blocked r then Ret (r, sendOverloaded) else handleDelete now data r
  else if beqb msgID MsgScan then handleScan data r
  else Ret (r, []).
(** [rtt]: how long the request takes, for the limiter. *)
Definition Handle (now rtt : Z) (msgID data : bytes) (r : Router) : go (Router * list response) :=
  match r.(limiter) with
  | None => route now msgID data r
  | Some l =>
      let '(l, ok) := Acquire l in
      if negb ok then Ret (count CShed (SetLimiter (Some l) r), sendOverloaded)
      else
        '(r, out) ← route now msgID data (SetLimiter (Some l) r);
        Ret (SetLimiter (Release rtt <$> r.(limiter)) r, out)
  end.

(** [MsgHandle.DoMsgHandle] for the four identifiers the server registers;
    [None] is a panic of the handler, which the dispatcher recovers. *)
Definition registered (msgID : bytes) : bool := existsb (beqb msgID) [MsgPut; MsgGet; MsgDelete; MsgScan].
Definition DoMsgHandle (now rtt : Z) (msgID data : bytes) (r : Router) : option (Router * list response) :=
  if negb (registered msgID) then Some (r, [])
  else
    match
      ('(r, passed, out) ← PreHandle msgID data r;
       match passed with
       | None => Ret (r, out)
       | Some data => '(r, out') ← Handle now rtt msgID data r; Ret (r, out ++ out')
       end)
    with Ret x => Some x | Panic => None end.
End Router.
Arguments Router : clear implicits.

End V1.
