(* ===== verification/RouterV1Spec.v ===== *)
(** * What the first-protocol server promises

    Every request that can be answered is answered exactly once, and a request
    that is refused (dropped by the hook, shed, or stopped by the memory
    guardrail) reaches neither the store nor a peer; the guardrail refuses
    writes exactly from a sample above the limit to the first one that has
    fallen to nine tenths of it. *)
From Stdlib Require Import SpecFloat.
From stdpp Require Import gmap.
From S2P Require Import Prelude Bytes Temporal KVServer TemporalStore TemporalRun Proto ProtoSpec Frames RouterV2 RouterSpec Json JobSpec Floats Ingest Cluster RouterV1.
Import Kv Tstore TsRun Proto ProtoSpec RouterSpec Floats.

Module RouterV1Spec.
Import V1.
#[local] Hint Rewrite len_len32 len_len16 : len.

(** ** The guardrail *)
Definition sampled (samples : list Z) (g : Guard.MemoryGuardrail) : Guard.MemoryGuardrail :=
  fold_left (fun g rss => Guard.tick rss g) samples g.
Lemma sampled_limit samples g : Guard.maxRSSBytes (sampled samples g) = Guard.maxRSSBytes g.
Proof. unfold sampled. revert g. induction samples as [|x l IH]; intros g; [done|]. cbn [fold_left]. by rewrite IH. Qed.

(** C39: the guardrail blocks writes exactly when some sample exceeded the
    limit and no sample since has fallen to the recovery threshold. *)
Theorem guardrail_hysteresis maxRSSMb g samples :
  Guard.NewMemoryGuardrail maxRSSMb = Some g ->
  Guard.Blocked (sampled samples g) = true <->
  exists before rss after, samples = before ++ rss :: after /\ Guard.maxRSSBytes g < rss /\
    Forall (fun s => Guard.maxRSSBytes g < s \/ Guard.recover_at (Guard.maxRSSBytes g) < s) after.
Proof.
  intros Hg. assert (Guard.blocked g = false) as H0 by (unfold Guard.NewMemoryGuardrail in Hg; case_match; by simplify_eq).
  clear Hg. induction samples as [|s samples IH] using rev_ind.
  { cbn. unfold Guard.Blocked. rewrite H0. split; [done|]. intros (b & r & a & E & _). by destruct b. }
  unfold sampled. rewrite fold_left_app. cbn [fold_left]. fold (sampled samples g).
  unfold Guard.tick at 1, Guard.Blocked at 1. cbn [Guard.blocked]. rewrite sampled_limit. unfold Guard.Blocked in IH.
  rewrite orb_true_iff, andb_true_iff, !Z.ltb_lt, IH. split.
  - intros [Hs|[(b & r & a & -> & Hr & Ha) Hs]].
    + exists samples, s, []. repeat split; [done|constructor].
    + exists b, r, (a ++ [s]). split; [by rewrite <- app_assoc|]. split; [done|].
      apply Forall_app. split; [done|]. apply Forall_singleton. by right.
  - intros (b & r & a & E & Hr & Ha). destruct a as [|x a _] using rev_ind.
    + apply app_inj_tail in E as [_ ->]. by left.
    + rewrite app_comm_cons, app_assoc in E. apply app_inj_tail in E as [-> ->].
      apply Forall_app in Ha as [Ha Hx]. apply Forall_singleton in Hx as [Hx|Hx]; [by left|]. right. split; [|done]. by exists b, r, a.
Qed.
Lemma guardrail_hysteresis_witness :
  exists g, Guard.NewMemoryGuardrail 1 = Some g /\ Guard.recover_at (Guard.maxRSSBytes g) = 943718 /\
    Guard.Blocked (sampled [1048577; 943719] g) = true.
Proof.
  eexists. split; [reflexivity|]. split; [vm_compute; reflexivity|]. apply (guardrail_hysteresis 1 _ _ eq_refl).
  exists [], 1048577, [943719]. split; [done|]. split; [done|]. apply Forall_singleton. right. vm_compute. done.
Defined.

(** ** One response per request *)

(** A re-encoded frame decodes, whatever the lengths. *)
Lemma len32_read x : 0 <= get_le (len32 x) <= len x.
Proof.
  unfold len32. rewrite get_put_u32 by apply u32_range. pose proof (u32_range (len x)) as [Hr _].
  split; [done|]. apply Z.mod_le; [apply len_nonneg|lia].
Qed.
Lemma encoded_put_decodes key value : exists kv, DecodePutFrame (EncodePutFrame key value) = Ret (Some kv).
Proof.
  enough (match DecodePutFrame (EncodePutFrame key value) with Ret (Some _) => True | _ => False end) as H
    by (destruct (DecodePutFrame _) as [[kv|]|]; [by exists kv|done..]).
  unfold DecodePutFrame, EncodePutFrame. len_test.
  assert (slice (len32 key ++ len32 value ++ key ++ value) 0 4 = Ret (len32 key)) as -> by slice_eval.
  assert (slice (len32 key ++ len32 value ++ key ++ value) 4 8 = Ret (len32 value)) as -> by slice_eval.
  cbn [mbind go_bind]. cbv zeta. pose proof (len32_read key). pose proof (len32_read value). len_test.
  destruct (slice_safe (len32 key ++ len32 value ++ key ++ value) 8 (8 + get_le (len32 key))) as (k & -> & _); [lia|len_lia|].
  destruct (slice_safe (len32 key ++ len32 value ++ key ++ value) (8 + get_le (len32 key)) (8 + get_le (len32 key) + get_le (len32 value))) as (v & -> & _); [lia|len_lia|].
  done.
Qed.

Section Answers.
Context {St L P : Type} `{!TemporalRawStore St} `{!RouterV2.KVStore St} `{!Admission L} `{!Peers P}.
Notation Router := (V1.Router St L P Ingest.Filter).

(** A call of the store, in the state the request finds it in, that does not
    come back: the only way for a request to go unanswered. *)
Definition stuck (s : St) : Prop :=
  (exists cmd, raw_write cmd s = Panic) \/ (exists key, RouterV2.kv_get key s = Panic) \/
  (exists lo hi p n, RouterV2.kv_scan lo hi p n s = Panic).

(** The status at the head of a payload. *)
Definition status_is (status payload : bytes) : Prop := exists rest, payload = statusPayload status ++ rest.
Definition refused (m : response) : Prop := status_is StatusDropped m.2 \/ status_is StatusOverloaded m.2.
(** The store and the peers a request may have touched. *)
Definition reach (r : Router) : St * option P := (r.(store), r.(peers)).

Lemma head_unique s s' p : status_is s p -> status_is s' p -> len s < 256 -> len s' < 256 -> s = s'.
Proof.
  intros [x ->] [y E] Hs Hs'. unfold statusPayload in E. rewrite !put_byte in E. injection E as Eb E.
  pose proof (len_nonneg s). pose proof (len_nonneg s').
  assert (len s = len s') as Hl.
  { rewrite <- (Z.mod_small (len s) 256), <- (Z.mod_small (len s') 256) by lia.
    apply (f_equal byte.unsigned) in Eb. unfold u8 in Eb. rewrite !unsigned_byte in Eb; [done|apply Z.mod_pos_bound; lia..]. }
  apply (f_equal (take (length s))) in E. rewrite take_app_length in E.
  replace (length s) with (length s') in E by (unfold len in Hl; lia). by rewrite take_app_length in E.
Qed.
Lemma not_refused s m : status_is s m.2 -> len s < 256 -> s <> StatusDropped -> s <> StatusOverloaded -> ~ refused m.
Proof.
  intros Hs Hl H1' H2' [Hr|Hr]; pose proof (head_unique _ _ _ Hs Hr Hl eq_refl); done.
Qed.

Definition answered (r : Router) (m : go (Router * list response)) : Prop :=
  match m with
  | Ret (r', out) => exists x, out = [x] /\ (refused x -> reach r' = reach r)
  | Panic => stuck r.(store)
  end.
Lemma answered_fine r r' s payload id :
  status_is s payload -> len s < 256 -> s <> StatusDropped -> s <> StatusOverloaded -> answered r (Ret (r', [(id, payload)])).
Proof. intros Hs Hl Hd Ho. exists (id, payload). split; [done|]. intros Hr. by destruct (not_refused s (id, payload) Hs Hl Hd Ho). Qed.
Lemma answered_wrote c ok r r' : answered r (Ret (wrote c ok r')).
Proof.
  unfold wrote, sendOK, sendErr. destruct ok; [eapply (answered_fine _ _ StatusOK)|eapply (answered_fine _ _ StatusError)]; try done;
    exists []; by rewrite app_nil_r.
Qed.
Lemma answered_get r r' res : answered r (Ret (r', answer_get res)).
Proof.
  destruct res; [eapply (answered_fine _ _ StatusOK)|eapply (answered_fine _ _ StatusNotFound)|eapply (answered_fine _ _ StatusError)]; try done;
    [|exists []; by rewrite app_nil_r..].
  eexists. unfold valuePayload, statusPayload. by rewrite <- app_assoc.
Qed.
Lemma answered_overloaded (r r' : Router) : reach r' = reach r -> answered r (Ret (r', sendOverloaded)).
Proof. intros Hr. by eexists. Qed.

Lemma put_answered now data kv r : DecodePutFrame data = Ret (Some kv) -> answered r (handlePut now data r).
Proof.
  intros E. unfold handlePut. rewrite E. cbn [mbind go_bind]. destruct kv as [key value]. destruct (forwardTarget now key r) as [[ps owner]|].
  - destruct (peer_put owner key value ps). apply answered_wrote.
  - destruct (raw_write (MkCommand CommandPut key (Some value)) r.(store)) as [[s ok]|] eqn:Ew; [apply answered_wrote|left; eauto].
Qed.
Lemma delete_answered now data key r : DecodeKeyFrame data = Ret (Some key) -> answered r (handleDelete now data r).
Proof.
  intros E. unfold handleDelete. rewrite E. cbn [mbind go_bind]. destruct (forwardTarget now key r) as [[ps owner]|].
  - destruct (peer_delete owner key ps). apply answered_wrote.
  - destruct (raw_write (MkCommand CommandDelete key None) r.(store)) as [[s ok]|] eqn:Ew; [apply answered_wrote|left; eauto].
Qed.
Lemma get_answered now data key r : DecodeKeyFrame data = Ret (Some key) -> answered r (handleGet now data r).
Proof.
  intros E. unfold handleGet. rewrite E. cbn [mbind go_bind]. cbv zeta. destruct (forwardTarget now key (count CReads r)) as [[ps owner]|].
  - destruct (peer_get owner key ps). apply answered_get.
  - destruct (RouterV2.kv_get key (store (count CReads r))) as [[s res]|] eqn:Eg; [apply answered_get|right; left; eauto].
Qed.
Lemma scan_answered data r : answered r (handleScan data r).
Proof.
  unfold handleScan. assert (safe (DecodeScanRequest data)) as (q & ->) by (unfold DecodeScanRequest, scanReqHeaderLen; decoder_safe).
  cbn [mbind go_bind]. destruct q as [q|].
  - cbv zeta. destruct (RouterV2.kv_scan q.(Start) q.(End_) q.(Pred) 0 (store (count CScans r))) as [[s es]|] eqn:Ec; [|by right; right; eexists _, _, _, _]. cbn [mbind go_bind].
    eapply (answered_fine _ _ StatusOK); try done. eexists. unfold EncodeScanResponse, statusPayload. by rewrite <- app_assoc.
  - eapply (answered_fine _ _ StatusError); try done. exists []. by rewrite app_nil_r.
Qed.

(** What a payload must be for its request to be answerable. *)
Definition well_formed (msgID data : bytes) : Prop :=
  msgID = MsgPut /\ (exists kv, DecodePutFrame data = Ret (Some kv)) \/
  (msgID = MsgGet \/ msgID = MsgDelete) /\ (exists key, DecodeKeyFrame data = Ret (Some key)) \/
  msgID = MsgScan.
Lemma route_answered now msgID data r : well_formed msgID data -> answered r (route now msgID data r).
Proof.
  intros [[-> [kv E]]|[[[-> | ->] [key E]]| ->]]; unfold route; cbn.
  - destruct (blocked r); [by apply answered_overloaded|by eapply put_answered].
  - by eapply get_answered.
  - destruct (blocked r); [by apply answered_overloaded|by eapply delete_answered].
  - apply scan_answered.
Qed.
Lemma handle_answered now rtt msgID data r : well_formed msgID data -> answered r (Handle now rtt msgID data r).
Proof.
  intros Hw. unfold Handle. destruct (limiter r) as [l|]; [|by apply route_answered].
  destruct (Acquire l) as [l' []]; cbn [negb]; [|by apply answered_overloaded].
  pose proof (route_answered now msgID data (SetLimiter (Some l') r) Hw) as Ha. unfold answered in Ha.
  destruct (route _ _ _ _) as [[r' out]|]; exact Ha.
Qed.
(** What the ingest filter lets through still decodes. *)
Lemma filter_passes_decodable data (f f' : Ingest.Filter) data' :
  Ingest.Handle true data f = Ret (f', Ingest.HookPass data') -> exists kv, DecodePutFrame data' = Ret (Some kv).
Proof.
  unfold Ingest.Handle. cbn [negb]. destruct (DecodePutFrame data) as [[[key value]|]|] eqn:E; cbn [mbind go_bind]; [|done..].
  destruct (Ingest.Validate key value f) as [f1 [nv|c reason]]; intros [= <- Hd].
  destruct (Ingest.redact value _).2; subst data'; [apply encoded_put_decodes|by eexists].
Qed.
Lemma filter_total is_put data (f : Ingest.Filter) : exists f' a, Ingest.Handle is_put data f = Ret (f', a).
Proof.
  unfold Ingest.Handle. destruct is_put; cbn [negb]; [|by eexists _, _].
  destruct (put_frame_reads data) as ([[key value]|] & -> & _); cbn [mbind go_bind]; [|by eexists _, _].
  destruct (Ingest.Validate key value f) as [f1 v]. by eexists _, _.
Qed.

(** C33: with the ingest filter installed, every PUT, every SCAN and every GET or
    DELETE whose payload holds a key is answered with exactly one message, on
    every branch (dropped, shed, blocked, forwarded or served), and a request
    that is dropped or refused for overload has touched neither the store nor a
    peer -- unless a call of the store in that state does not come back, which
    is the only way to go unanswered.  A writer left waiting
    for credit (storage/engine.go:306) is such a case. *)
Theorem router_answers_once now rtt msgID data (r : Router) f :
  r.(preHandleFunc) = Some f ->
  (msgID = MsgPut \/ msgID = MsgScan \/
   (msgID = MsgGet \/ msgID = MsgDelete) /\ exists key, DecodeKeyFrame data = Ret (Some key)) ->
  match DoMsgHandle now rtt msgID data r with
  | Some (r', out) => exists x, out = [x] /\ (refused x -> reach r' = reach r)
  | None => stuck r.(store)
  end.
Proof.
  intros Hf Hm. unfold DoMsgHandle.
  replace (registered msgID) with true by (destruct Hm as [-> |[-> |[[-> | ->] _]]]; reflexivity). cbn [negb].
  unfold PreHandle. rewrite Hf. unfold hook, ingest_hook.
  destruct (filter_total (beqb msgID MsgPut) data f) as (f' & a & E). rewrite E. cbn [mbind go_bind].
  destruct a as [data'|reason]; cbn [mbind go_bind]; cycle 1.
  { eexists. split; [reflexivity|]. done. }
  assert (well_formed msgID data') as Hw.
  { destruct Hm as [-> |[-> |[Hid [key Hk]]]].
    - left. split; [done|]. by eapply filter_passes_decodable.
    - by right; right.
    - right; left. split; [done|]. destruct Hid as [-> | ->]; cbn in E; injection E as _ <-; by exists key. }
  pose proof (handle_answered now rtt msgID data' (SetPreHandle (Some f') r) Hw) as Ha. unfold answered in Ha.
  destruct (Handle _ _ _ _ _) as [[r' out]|]; exact Ha.
Qed.
End Answers.
(** A router with neither limiter nor peers over a map. *)
#[export] Instance no_admission : Admission unit := {| Acquire l := (l, true); Release _ l := l |}.
#[export] Instance no_peers : Peers unit :=
  {| peer_put _ _ _ p := (p, false); peer_get _ _ p := (p, RouterV2.GetFailed); peer_delete _ _ p := (p, false) |}.
Definition map_router (f : Ingest.Filter) : V1.Router mem_store unit unit Ingest.Filter :=
  SetPreHandle (Some f) (NewRouter (MkMem ∅ [])).
Definition plain_filter : Ingest.Filter := Ingest.NewFilter [] 4 true Ingest.empty_registry.
(** The map always comes back, so garbage for a PUT gets its one answer. *)
Lemma map_not_stuck (s : mem_store) : ~ stuck s.
Proof.
  intros [(cmd & E)|[(key & E)|(lo & hi & p & n & E)]]; [done| |done].
  cbn in E. by destruct (map_read_safe (fun k => mem_data s !! k) key) as [v Ev]; rewrite Ev in E.
Qed.
Lemma router_answers_once_witness :
  exists r' x, DoMsgHandle 0 1 MsgPut (str "garbage") (map_router plain_filter) = Some (r', [x]) /\
    (refused x -> reach r' = reach (map_router plain_filter)).
Proof.
  pose proof (router_answers_once 0 1 MsgPut (str "garbage") (map_router plain_filter) plain_filter eq_refl (or_introl eq_refl)) as H.
  destruct (DoMsgHandle _ _ _ _ _) as [[r' out]|]; [|exfalso; exact (map_not_stuck _ H)].
  destruct H as (x & -> & H). exists r', x. split; [reflexivity|exact H].
Defined.

(** ** Where the comments promise more *)

(** A GET, or a DELETE, whose key is cut short is never answered. *)
Lemma malformed_get_unanswered :
  snd <$> DoMsgHandle 0 1 MsgGet (str "abc") (map_router plain_filter) = Some [] /\
  snd <$> DoMsgHandle 0 1 MsgDelete (str "abc") (map_router plain_filter) = Some [].
Proof. vm_compute. done. Qed.
(** Without a hook neither is a malformed PUT. *)
Lemma malformed_put_unanswered :
  snd <$> DoMsgHandle 0 1 MsgPut (str "abc") (NewRouter (MkMem ∅ []) : V1.Router mem_store unit unit Ingest.Filter) = Some [].
Proof. vm_compute. done. Qed.
(** Without a reason the dropped payload is two bytes longer than the bare
    status. *)
Lemma dropped_without_reason : droppedPayload [] = statusPayload StatusDropped ++ put_le 2 0.
Proof. reflexivity. Qed.

End RouterV1Spec.
