(* ===== verification/Client.v ===== *)
(** * The client ([client/], [cluster/peerpool.go])

    The wire format of the client's own codec, the reading of a response, the
    mapping of statuses to errors, the pool of connections and the retry loop.
    A connection is what the server holds of a request that did not get out
    whole, the bytes of responses that were sent and not read -- those on their
    way included, which arrive later on the same socket -- and its broken mark.
    What the network does to an attempt is a parameter of the attempt, and so
    are the end of the context during it and the watch-dog that then breaks the
    connection; the server is a function from the bytes of a request to the
    bytes it sends back. *)
From stdpp Require Import gmap.
From S2P Require Import Prelude Bytes Proto Frames RouterV2 RouterV1.
Import Proto Frames.

Module Client.

(** ** Errors (errors.go); [ErrNet] is any error of the network, [ErrContext]
    the end of the caller's context *)
Inductive client_err :=
  | ErrKeyNotFound | ErrOverloaded | ErrDropped (reason : bytes) | ErrServer | ErrClosed | ErrProtocol | ErrNet | ErrContext.
Definition retryable (e : client_err) : bool :=
  match e with ErrKeyNotFound | ErrDropped _ | ErrClosed => false | _ => true end.

(** ** The wire (conn.go) *)
Definition frameHeadLen : Z := 6.
Definition maxResponseFrameSize : Z := Z.shiftl 64 20.
Definition encodeFrame (msgID data : bytes) : bytes :=
  put_le 4 (u32 (len data)) ++ put_le 2 (u16 (len msgID)) ++ msgID ++ data.

Record conn := MkConn { half : bytes; pending : bytes; broken : bool }.
Definition break (c : conn) : conn := MkConn c.(half) c.(pending) true.

(** The reading half of [roundTrip] on the bytes that arrive before the deadline,
    which ends the stream. *)
Definition read_response (c : conn) : go (conn * result client_err (bytes * bytes)) :=
  let '(head, r) := ReadFull frameHeadLen (MkReader c.(pending) AtTimeout []) in
  match head with
  | Short _ _ => Ret (MkConn c.(half) r.(unread) true, Err ErrNet)
  | Full head =>
      dl ← slice head 0 4;
      il ← slice head 4 6;
      let dataLen := get_le dl in
      let idLen := get_le il in
      if maxResponseFrameSize <? dataLen then Ret (MkConn c.(half) r.(unread) true, Err ErrProtocol)
      else
        let '(rest, r) := ReadFull (idLen + dataLen) r in
        match rest with
        | Short _ _ => Ret (MkConn c.(half) r.(unread) true, Err ErrNet)
        | Full rest =>
            id ← slice rest 0 idLen;
            data ← slice rest idLen (len rest);
            Ret (MkConn c.(half) r.(unread) c.(broken), Ok (id, data))
        end
  end.

Definition parseStatus (payload : bytes) : go (result client_err (bytes * bytes)) :=
  if len payload <? 1 then Ret (Err ErrProtocol)
  else
    b ← index payload 0;
    let n := #b in
    if len payload <? 1 + n then Ret (Err ErrProtocol)
    else
      status ← slice payload 1 (1 + n);
      rest ← slice payload (1 + n) (len payload);
      Ret (Ok (status, rest)).

(** The empty reason stands for none. *)
Definition parseDropReason (rest : bytes) : go bytes :=
  if len rest <? 2 then Ret []
  else
    nb ← slice rest 0 2;
    let n := get_le nb in
    if len rest <? 2 + n then Ret [] else slice rest 2 (2 + n).

Definition statusError (status rest : bytes) : go (option client_err) :=
  if beqb status V1.StatusOK then Ret None
  else if beqb status V1.StatusNotFound then Ret (Some ErrKeyNotFound)
  else if beqb status V1.StatusOverloaded then Ret (Some ErrOverloaded)
  else if beqb status V1.StatusDropped then reason ← parseDropReason rest; Ret (Some (ErrDropped reason))
  else Ret (Some ErrServer).

(** What the network makes of an attempt: no connection, or none that takes a
    deadline; the write fails after [k] bytes of the request; the request
    arrives and [k] bytes can be read before the deadline, the others later; the
    request and the whole reply arrive. *)
Inductive network := NoConn | RequestLost (k : nat) | ReplyLate (k : nat) | Delivered.
#[export] Instance network_eq_dec : EqDecision network.
Proof. solve_decision. Defined.

(** ** Options and pool (client.go) *)
Definition defaultPoolSize : Z := 8.
Definition defaultMaxRetries : Z := 2.
Record Options := MkOptions { Addrs : list bytes; PoolSize : Z; MaxRetries : Z }.
(** The time-outs, which only bound waiting, are left out. *)
Definition applyDefaults (o : Options) : Options :=
  let m := if o.(MaxRetries) =? 0 then defaultMaxRetries else o.(MaxRetries) in
  MkOptions o.(Addrs) (if o.(PoolSize) <=? 0 then defaultPoolSize else o.(PoolSize)) (if m <? 0 then 0 else m).

Record Client := MkClient { opts : Options; idle : list conn; live : Z; rr : Z; closed : bool }.
Definition New (o : Options) : option Client :=
  match o.(Addrs) with [] => None | _ => Some (MkClient (applyDefaults o) [] 0 0 false) end.
Definition Close (c : Client) : Client :=
  if c.(closed) then c else MkClient c.(opts) [] (c.(live) - len c.(idle)) c.(rr) true.
Definition nextAddr (c : Client) : Client * option bytes :=
  match c.(opts).(Addrs) with
  | [a] => (c, Some a)
  | l => (MkClient c.(opts) c.(idle) c.(live) (u64 (c.(rr) + 1)) c.(closed), l !! Z.to_nat (c.(rr) mod len l))
  end.

(** [acquire]: a connection, an error, or nothing yet (the pool is full and the
    caller waits). *)
Inductive acquired := Got (cn : conn) | Refused (e : client_err) | Wait.
Definition acquire (n : network) (c : Client) : Client * acquired :=
  if c.(closed) then (c, Refused ErrClosed)
  else
    match c.(idle) with
    | cn :: rest => (MkClient c.(opts) rest c.(live) c.(rr) c.(closed), Got cn)
    | [] =>
        if c.(opts).(PoolSize) <=? c.(live) then (c, Wait)
        else
          let '(c, _) := nextAddr c in
          match n with
          | NoConn => (c, Refused ErrNet)
          | _ => (MkClient c.(opts) c.(idle) (c.(live) + 1) c.(rr) c.(closed), Got (MkConn [] [] false))
          end
    end.
Definition release (cn : conn) (c : Client) : Client :=
  if cn.(broken) || c.(closed) then MkClient c.(opts) c.(idle) (c.(live) - 1) c.(rr) c.(closed)
  else if len c.(idle) <? c.(opts).(PoolSize) then MkClient c.(opts) (c.(idle) ++ [cn]) c.(live) c.(rr) c.(closed)
  else MkClient c.(opts) c.(idle) (c.(live) - 1) c.(rr) c.(closed).

Section Server.
(** The server end of a connection: the bytes it answers a frame with;
    [None] when it answers nothing any more. *)
Context {S : Type} (serve : bytes -> S -> option (S * bytes)).

Definition exchange (k : nat) (msgID data : bytes) (cn : conn) (s : S) : go (conn * S * result client_err (bytes * bytes)) :=
  let so := default (s, []) (serve (cn.(half) ++ encodeFrame msgID data) s) in
  let sent := cn.(pending) ++ so.2 in
  '(cn, res) ← read_response (MkConn [] (firstn k sent) cn.(broken));
  Ret (MkConn cn.(half) (cn.(pending) ++ skipn k sent) cn.(broken), so.1, res).
Definition roundTrip (n : network) (msgID data : bytes) (cn : conn) (s : S) : go (conn * S * result client_err (bytes * bytes)) :=
  match n with
  | NoConn => Ret (break cn, s, Err ErrNet)
  | RequestLost k => Ret (MkConn (cn.(half) ++ firstn k (encodeFrame msgID data)) cn.(pending) true, s, Err ErrNet)
  | ReplyLate k => exchange k msgID data cn s
  | Delivered => exchange (length cn.(pending) + length (default (s, []) (serve (cn.(half) ++ encodeFrame msgID data) s)).2) msgID data cn s
  end.

(** What the context does to an attempt: over before the wait, before the
    attempt, by its end, and whether the watch-dog marked the connection before
    it was given back. *)
Record try := MkTry { net : network; over_waiting : bool; over_before : bool; over_after : bool; watch_dog : bool }.

Definition attempt (t : try) (msgID data : bytes) (c : Client) (s : S) : go (Client * S * result client_err bytes) :=
  if t.(over_before) then Ret (c, s, Err ErrContext)
  else
    let '(c, a) := acquire t.(net) c in
    match a with
    | Refused e => Ret (c, s, Err e)
    | Wait => Ret (c, s, Err ErrContext)
    | Got cn =>
        '(cn, s, res) ← roundTrip t.(net) msgID data cn s;
        let cn := if t.(watch_dog) then break cn else cn in
        match res with
        | Err e => Ret (release cn c, s, Err (if t.(over_after) then ErrContext else e))
        | Ok (_, respData) =>
            st ← parseStatus respData;
            match st with
            | Err e => Ret (release (break cn) c, s, Err e)
            | Ok (status, rest) =>
                e ← statusError status rest;
                Ret (release cn c, s, match e with Some e => Err e | None => Ok rest end)
            end
        end
    end.

(** The retry loop from attempt [i] on, with [n] retries left. *)
Fixpoint do_from (n i : nat) (e : nat -> try) (msgID data : bytes) (c : Client) (s : S) : go (Client * S * result client_err bytes) :=
  if (0 <? Z.of_nat i) && (e i).(over_waiting) then Ret (c, s, Err ErrContext)
  else
    '(c, s, res) ← attempt (e i) msgID data c s;
    match res with
    | Ok payload => Ret (c, s, Ok payload)
    | Err err =>
        if negb (retryable err) then Ret (c, s, Err err)
        else if (e i).(over_after) then Ret (c, s, Err ErrContext)
        else match n with O => Ret (c, s, Err err) | Datatypes.S n => do_from n (Datatypes.S i) e msgID data c s end
    end.
Definition do (e : nat -> try) (msgID data : bytes) (c : Client) (s : S) : go (Client * S * result client_err bytes) :=
  do_from (Z.to_nat c.(opts).(MaxRetries)) 0 e msgID data c s.

(** ** Operations *)
Definition Put (e : nat -> try) (key value : bytes) (c : Client) (s : S) : go (Client * S * result client_err unit) :=
  '(c, s, res) ← do e V1.MsgPut (EncodePutFrame key value) c s;
  Ret (c, s, match res with Ok _ => Ok tt | Err err => Err err end).
Definition Delete (e : nat -> try) (key : bytes) (c : Client) (s : S) : go (Client * S * result client_err unit) :=
  '(c, s, res) ← do e V1.MsgDelete (EncodeKeyOnlyFrame key) c s;
  Ret (c, s, match res with Ok _ => Ok tt | Err err => Err err end).
Definition read_value (rest : bytes) : go (result client_err bytes) :=
  if len rest <? 4 then Ret (Err ErrProtocol)
  else
    nb ← slice rest 0 4;
    let n := get_le nb in
    if len rest <? 4 + n then Ret (Err ErrProtocol) else v ← slice rest 4 (4 + n); Ret (Ok v).
Definition Get (e : nat -> try) (key : bytes) (c : Client) (s : S) : go (Client * S * result client_err bytes) :=
  '(c, s, res) ← do e V1.MsgGet (EncodeKeyOnlyFrame key) c s;
  match res with
  | Err err => Ret (c, s, Err err)
  | Ok rest => v ← read_value rest; Ret (c, s, v)
  end.
Definition read_entries (rest : bytes) : go (result client_err (list (bytes * bytes))) :=
  x ← DecodeScanResponse (V1.statusPayload V1.StatusOK ++ rest);
  Ret match x with Some (_, entries) => Ok entries | None => Err ErrProtocol end.
Definition Scan (e : nat -> try) (req : ScanRequest) (c : Client) (s : S) : go (Client * S * result client_err (list (bytes * bytes))) :=
  '(c, s, res) ← do e V1.MsgScan (EncodeScanRequest req) c s;
  match res with
  | Err err => Ret (c, s, Err err)
  | Ok rest => l ← read_entries rest; Ret (c, s, l)
  end.
End Server.

(** ** Peers (cluster/peerpool.go)

    One client per address, made when first used, without retries. *)
Definition peerMaxRetries : Z := -1.
Definition peer_client (addr : bytes) (ps : gmap bytes Client) : gmap bytes Client * option Client :=
  match ps !! addr with
  | Some c => (ps, Some c)
  | None => match New (MkOptions [addr] 0 peerMaxRetries) with Some c => (<[addr := c]> ps, Some c) | None => (ps, None) end
  end.
Definition classify_get (res : result client_err bytes) : RouterV2.get_result :=
  match res with Ok v => RouterV2.Found v | Err ErrKeyNotFound => RouterV2.NotFound | Err _ => RouterV2.GetFailed end.

End Client.
