(* ===== verification/ClientSpec.v ===== *)
(** * Client and server together

    A request that the network delivers has, through both codecs, the dispatcher
    and the router, exactly the effect and the result of the call it stands for;
    and whatever the network does, the pool never holds a connection on which
    an unread response could be taken for the answer to a later request. *)
From stdpp Require Import gmap.
From S2P Require Import Prelude Bytes Temporal KVServer TemporalStore TemporalRun Proto ProtoSpec Frames FrameSpec RouterV2 RouterSpec Ingest RouterV1 RouterV1Spec Client.
Import Kv Tstore TsRun Proto ProtoSpec Frames FrameSpec RouterSpec Client.

Module ClientSpec.
Import V1.
#[local] Hint Rewrite len_len32 len_len16 : len.

(** ** The codecs agree *)
Lemma encodeFrame_is_frame id data : len id < 2 ^ 16 -> encodeFrame id data = frame (id, data).
Proof.
  intros H. unfold encodeFrame, frame, Pack. cbn [NewMessage ID DataLen Data fst snd].
  by replace (65535 <? len id) with false by lia.
Qed.
Lemma read_response_frame id payload rest h b :
  len id < 2 ^ 16 -> len payload <= maxResponseFrameSize ->
  read_response (MkConn h (frame (id, payload) ++ rest) b) = Ret (MkConn h rest b, Ok (id, payload)).
Proof.
  intros H1 H2. change maxResponseFrameSize with 67108864 in *. pose proof (len_nonneg id). pose proof (len_nonneg payload).
  rewrite pack_is by (cbn [fst snd]; lia). cbn [fst snd]. unfold read_response. cbn [pending broken].
  replace ((put_le 4 (len payload) ++ put_le 2 (u16 (len id)) ++ id ++ payload) ++ rest)
    with ((put_le 4 (len payload) ++ put_le 2 (u16 (len id))) ++ (id ++ payload) ++ rest) by (by rewrite <- !app_assoc).
  rewrite ReadFull_app by done. go_slices. rewrite get_put_u32, get_put_u16 by (split; lia).
  change maxResponseFrameSize with 67108864. replace (67108864 <? len payload) with false by lia.
  rewrite ReadFull_app by (by rewrite len_app). go_slices. done.
Qed.

Lemma parseStatus_payload st rest : len st < 2 ^ 8 -> parseStatus (statusPayload st ++ rest) = Ret (Ok (st, rest)).
Proof.
  intros H. pose proof (len_nonneg st). pose proof (len_nonneg rest). unfold parseStatus, statusPayload. rewrite put_byte, <- !app_assoc.
  assert (u8 (len st) = len st) as -> by (apply Z.mod_small; lia).
  replace (len ([byte.of_Z (len st)] ++ st ++ rest) <? 1) with false by len_lia.
  rewrite index_one by done. cbn [mbind go_bind]. cbv zeta. rewrite unsigned_byte by lia.
  replace (len ([byte.of_Z (len st)] ++ st ++ rest) <? 1 + len st) with false by len_lia.
  go_slices. done.
Qed.
Lemma parseDropReason_reads reason : len reason < 2 ^ 16 -> parseDropReason (put_le 2 (u16 (len reason)) ++ reason) = Ret reason.
Proof.
  intros H. pose proof (len_nonneg reason). unfold parseDropReason. change (put_le 2 (u16 (len reason))) with (len16 reason).
  replace (len (len16 reason ++ reason) <? 2) with false by len_lia. go_slice. rewrite get_len16 by done.
  replace (len (len16 reason ++ reason) <? 2 + len reason) with false by len_lia. by slice_eval.
Qed.
Lemma read_value_reads v : fits32 v -> read_value (put_le 4 (u32 (len v)) ++ v) = Ret (Ok v).
Proof.
  intros H. unfold read_value. change (put_le 4 (u32 (len v))) with (len32 v). len_test. go_slice. rewrite get_len32 by done. len_test.
  go_slice. done.
Qed.

(** ** The pool *)
Lemma parseStatus_safe payload : safe (parseStatus payload).
Proof.
  unfold parseStatus. cbv zeta. go_case; [apply safe_ret|]. go_case. assert (0 <= #x) by apply byte.unsigned_range.
  decoder_safe.
Qed.
Lemma parseDropReason_safe rest : safe (parseDropReason rest).
Proof.
  unfold parseDropReason. cbv zeta. do 3 (go_case; try apply safe_ret). le_bounds. cbn [mbind go_bind].
  destruct (slice_safe rest 2 (2 + get_le s)) as (x & -> & _); [lia|lia|]. apply safe_ret.
Qed.
Lemma statusError_safe st rest : safe (statusError st rest).
Proof. unfold statusError. repeat case_match; try apply safe_ret. destruct (parseDropReason_safe rest) as [x ->]. apply safe_ret. Qed.

(** Reading what has arrived of one frame, with nothing left over from before:
    the frame that was sent, all of it, or a broken connection. *)
Lemma ReadFull_short n bs e al : len bs < n -> exists x y, ReadFull n (MkReader bs e al) = (Short x y, MkReader [] e (al ++ [n])).
Proof. intros H. unfold ReadFull. cbn [unread ends allocs]. replace (n <=? len bs) with false by lia. eauto. Qed.
Lemma read_header id payload k b : len id < 2 ^ 16 -> len payload < 2 ^ 32 -> (6 <= k)%nat ->
  read_response (MkConn [] (firstn k (frame (id, payload))) b) =
    if maxResponseFrameSize <? len payload then Ret (MkConn [] (firstn (k - 6) (id ++ payload)) true, Err ErrProtocol)
    else match ReadFull (len id + len payload) (MkReader (firstn (k - 6) (id ++ payload)) AtTimeout [6]) with
         | (Short _ _, r) => Ret (MkConn [] r.(unread) true, Err ErrNet)
         | (Full rest, r) => i ← slice rest 0 (len id); d ← slice rest (len id) (len rest); Ret (MkConn [] r.(unread) b, Ok (i, d))
         end.
Proof.
  intros H1 H2 Hk. pose proof (len_nonneg id). pose proof (len_nonneg payload). rewrite pack_is by done. cbn [fst snd].
  rewrite app_assoc. rewrite take_app_ge by (rewrite length_app, !length_put_le; lia). rewrite length_app, !length_put_le.
  change (4 + 2)%nat with 6%nat. unfold read_response. cbn [half pending broken]. rewrite ReadFull_app by done.
  assert (slice (put_le 4 (len payload) ++ put_le 2 (u16 (len id))) 0 4 = Ret (put_le 4 (len payload))) as -> by slice_eval.
  assert (slice (put_le 4 (len payload) ++ put_le 2 (u16 (len id))) 4 6 = Ret (put_le 2 (u16 (len id)))) as -> by slice_eval.
  cbn [mbind go_bind]. cbv zeta. rewrite get_put_u32, get_put_u16 by (split; lia). cbn [app]. change frameHeadLen with 6. 
  destruct (maxResponseFrameSize <? len payload); [done|]. destruct (ReadFull _ _) as [[] ?]; done.
Qed.
Definition one_frame (out : bytes) : Prop :=
  out = [] \/ exists id payload, out = frame (id, payload) /\ len id < 2 ^ 16 /\ len payload < 2 ^ 32.
Lemma read_response_one out k b : one_frame out ->
  exists cn res, read_response (MkConn [] (firstn k out) b) = Ret (cn, res) /\ cn.(half) = [] /\
    match res with
    | Err _ => cn.(broken) = true
    | Ok m => cn = MkConn [] [] b /\ out = frame m /\ out <> [] /\ (length out <= k)%nat
    end.
Proof.
  intros [-> |(id & payload & -> & H1 & H2)]; [rewrite take_nil; by eexists _, _|].
  pose proof (len_nonneg id). pose proof (len_nonneg payload).
  assert (length (frame (id, payload)) = (6 + length (id ++ payload))%nat) as Hlen.
  { rewrite pack_is by done. cbn [fst snd]. rewrite !length_app, !length_put_le. lia. }
  destruct (Nat.leb_spec 6 k) as [Hk|Hk]; cycle 1.
  { unfold read_response. cbn [pending]. destruct (ReadFull_short frameHeadLen (firstn k (frame (id, payload))) AtTimeout []) as (x & y & ->); [|by eexists _, _].
    unfold len, frameHeadLen. rewrite length_take. lia. }
  rewrite read_header by done. destruct (maxResponseFrameSize <? len payload); [by eexists _, _|].
  assert (len (id ++ payload) = len id + len payload) as Hl by by rewrite len_app.
  destruct (Nat.leb_spec (length (id ++ payload)) (k - 6)) as [Hs|Hs].
  - rewrite take_ge by exact Hs. rewrite <- (app_nil_r (id ++ payload)), ReadFull_app by (symmetry; exact Hl).
    rewrite (slice_prefix id payload 0 (len id)) by reflexivity. cbn [mbind go_bind]. rewrite (slice_suffix id payload) by reflexivity. cbn [mbind go_bind unread].
    eexists _, _. split; [done|]. split; [done|]. split; [done|]. split; [done|]. split; [|lia]. intros E. apply (f_equal length) in E. cbn in E. lia.
  - destruct (ReadFull_short (len id + len payload) (firstn (k - 6) (id ++ payload)) AtTimeout [6]) as (x & y & ->); [|by eexists _, _].
    rewrite <- Hl. unfold len. rewrite length_take. lia.
Qed.

Section Pool.
Context {S : Type} (serve : bytes -> S -> option (S * bytes)).
(** The server answers a frame with at most one frame. *)
Hypothesis one_answer : forall bs s s' out, serve bs s = Some (s', out) -> one_frame out.

(** Nothing half sent, nothing left to read or on its way, not broken. *)
Definition clean (cn : conn) : Prop := cn = MkConn [] [] false.
Record pool_ok (c : Client) : Prop := PoolOk {
  po_clean : Forall clean c.(idle);
  po_live : c.(live) = len c.(idle);
  po_bound : c.(live) <= c.(opts).(PoolSize);
  po_size : 0 < c.(opts).(PoolSize);
  po_closed : c.(closed) = true -> c.(idle) = [] }.

(** What [acquire] hands out can be put back. *)
Lemma acquire_ok n c c' a : pool_ok c -> acquire n c = (c', a) ->
  match a with
  | Got cn => clean cn /\ forall cn', clean cn' \/ cn'.(broken) = true -> pool_ok (release cn' c')
  | _ => pool_ok c'
  end.
Proof.
  intros [Hc Hl Hb Hs Hcl]. unfold acquire. destruct (closed c) eqn:Ec; [intros [= <- <-]; by split; rewrite ?Ec|].
  assert (forall cn' x, clean cn' \/ broken cn' = true -> Forall clean (idle x) -> live x = len (idle x) + 1 ->
            live x <= PoolSize (opts x) -> 0 < PoolSize (opts x) -> closed x = false -> pool_ok (release cn' x)) as Hrel.
  { intros cn' x Hcn Hi Hlx Hbx Hsx Hcx. unfold release. rewrite Hcx, orb_false_r.
    destruct (broken cn') eqn:Eb.
    - split; cbn; try done; lia.
    - replace (len (idle x) <? PoolSize (opts x)) with true by lia.
      destruct Hcn as [Hcn|]; [|congruence]. split; cbn; try done; [|by rewrite len_app].
      apply Forall_app. split; [done|]. by apply Forall_singleton. }
  destruct (idle c) as [|cn rest] eqn:Ei.
  - destruct (Z.leb_spec (PoolSize (opts c)) (live c)); [intros [= <- <-]; split; rewrite ?Ei; done|].
    destruct (nextAddr c) as [c1 a1] eqn:En.
    assert (c1.(idle) = [] /\ c1.(live) = c.(live) /\ c1.(opts) = c.(opts) /\ c1.(closed) = false) as (H1 & H2 & H3 & H4).
    { unfold nextAddr in En. destruct (Addrs (opts c)) as [|? [|? ?]]; injection En as <- _; done. }
    rewrite len_nil in Hl.
    destruct n; intros [= <- <-]; [split; rewrite ?H1, ?H2, ?H3, ?H4; done| | |];
      (split; [done|]; intros cn' Hcn; apply Hrel; cbn; rewrite ?H1, ?H2, ?H3; try done; try lia; by rewrite Hl).
  - intros [= <- <-]. apply Forall_cons in Hc as [Hcn Hc]. rewrite len_cons in Hl. split; [done|].
    intros cn' Hcn'. apply Hrel; cbn; try done; lia.
Qed.
(** One attempt keeps the pool in order, and a success is the server's answer
    to this very request. *)
Definition own_answer (id data rest : bytes) (s s' : S) : Prop :=
  exists m st, serve (encodeFrame id data) s = Some (s', frame m) /\ parseStatus m.2 = Ret (Ok (st, rest)).
Lemma exchange_ok k id data s :
  exists cn s' res, exchange serve k id data (MkConn [] [] false) s = Ret (cn, s', res) /\
    match res with
    | Err _ => cn.(broken) = true
    | Ok m => clean cn /\ serve (encodeFrame id data) s = Some (s', frame m)
    end.
Proof.
  unfold exchange. cbv zeta. cbn [half pending broken app].
  destruct (serve (encodeFrame id data) s) as [[s1 out]|] eqn:Es; cbn [default Datatypes.id fst snd]; cycle 1.
  { rewrite firstn_nil. by eexists _, _, _. }
  destruct (read_response_one out k false (one_answer _ _ _ _ Es)) as (cn & res & -> & Hh & Hres). cbn [mbind go_bind].
  eexists _, _, _. split; [done|]. destruct res as [m|]; [|done]. destruct Hres as (-> & -> & _ & Hk).
  split; [|done]. unfold clean. by rewrite drop_ge.
Qed.
Lemma roundTrip_ok n id data s :
  exists cn s' res, roundTrip serve n id data (MkConn [] [] false) s = Ret (cn, s', res) /\
    match res with
    | Err _ => cn.(broken) = true
    | Ok m => clean cn /\ serve (encodeFrame id data) s = Some (s', frame m)
    end.
Proof. destruct n; cbn [roundTrip]; [by eexists _, _, _..| |]; apply exchange_ok. Qed.
Lemma roundTrip_delivered id data s s' i payload : serve (encodeFrame id data) s = Some (s', frame (i, payload)) ->
  len i < 2 ^ 16 -> len payload <= maxResponseFrameSize ->
  roundTrip serve Delivered id data (MkConn [] [] false) s = Ret (MkConn [] [] false, s', Ok (i, payload)).
Proof.
  intros Es H1 H2. cbn [roundTrip half pending broken app length]. unfold exchange. cbv zeta. cbn [half pending broken app].
  rewrite Es. cbn [default Datatypes.id fst snd Nat.add]. rewrite firstn_all, <- (app_nil_r (frame (i, payload))) at 1.
  rewrite read_response_frame by done. cbn [mbind go_bind half pending broken]. by rewrite drop_all.
Qed.
Lemma attempt_ok t id data c s : pool_ok c ->
  exists c' s' res, attempt serve t id data c s = Ret (c', s', res) /\ pool_ok c' /\
    forall rest, res = Ok rest -> own_answer id data rest s s'.
Proof.
  intros Hp. unfold attempt. destruct (over_before t); [by eexists _, _, _|].
  destruct (acquire (net t) c) as [c1 a] eqn:Ea. pose proof (acquire_ok _ _ _ _ Hp Ea) as Ha.
  destruct a as [cn|e|]; [|by eexists _, _, _..]. destruct Ha as [-> Hrel].
  destruct (roundTrip_ok (net t) id data s) as (cn & s1 & res & -> & Hres). cbn [mbind go_bind]. set (cn' := if watch_dog t then break cn else cn).
  destruct res as [[i payload]|e].
  2: { eexists _, _, _. split; [done|]. split; [|done]. apply Hrel. right. subst cn'. by destruct (watch_dog t). }
  destruct Hres as [Hc Hs]. destruct (parseStatus_safe payload) as [st Est]. rewrite Est. cbn [mbind go_bind].
  destruct st as [[st rest]|e]; [|eexists _, _, _; split; [done|]; split; [apply Hrel; by right|done]].
  destruct (statusError_safe st rest) as [e Ee]. rewrite Ee. cbn [mbind go_bind].
  eexists _, _, _. split; [done|]. split; [apply Hrel; subst cn'; destruct (watch_dog t); [by right|by left]|]. intros rest' Hr.
  destruct e as [e|]; [done|]. injection Hr as <-. by exists (i, payload), st.
Qed.
Lemma do_from_ok n i e id data c s : pool_ok c -> exists c' s' res, do_from serve n i e id data c s = Ret (c', s', res) /\ pool_ok c'.
Proof.
  revert i c s. induction n as [|n IH]; intros i c s Hp; cbn [do_from]; (case_match; [by eexists _, _, _|]);
    destruct (attempt_ok (e i) id data c s Hp) as (c' & s' & res & -> & Hp' & _); cbn [mbind go_bind];
    repeat case_match; eauto; by eexists _, _, _.
Qed.

(** A session: requests one after the other, each with what the network and the
    context do to its attempts. *)
Record request := Req { rid : bytes; rdata : bytes; fate : nat -> try }.
Fixpoint session (reqs : list request) (c : Client) (s : S) : go (Client * S) :=
  match reqs with
  | [] => Ret (c, s)
  | q :: reqs => '(c, s, _) ← do serve q.(fate) q.(rid) q.(rdata) c s; session reqs c s
  end.
Lemma session_ok reqs c s : pool_ok c -> exists c' s', session reqs c s = Ret (c', s') /\ pool_ok c'.
Proof.
  revert c s. induction reqs as [|q reqs IH]; intros c s Hp; cbn [session]; [by eexists _, _|]. unfold do.
  destruct (do_from_ok (Z.to_nat (MaxRetries (opts c))) 0 q.(fate) q.(rid) q.(rdata) c s Hp) as (c' & s' & res & -> & Hp'). by apply IH.
Qed.
Lemma new_pool o c : New o = Some c -> pool_ok c.
Proof.
  unfold New. intros E. destruct (Addrs o); [done|]. injection E as <-.
  split; cbn; try done; unfold applyDefaults, defaultPoolSize; cbn; destruct (Z.leb_spec (PoolSize o) 0); lia.
Qed.

(** C32: a client never takes an old response for the answer to a new request.
    After any session -- requests lost after any number of bytes, replies of
    which any part arrives before the deadline and the rest later on the same
    socket, contexts ending, the watch-dog, retries -- the client has not
    crashed, every pooled connection is intact, with no request half sent and
    nothing to read or on its way, there are no more of them than the pool
    allows, and an attempt that then succeeds returns what the server sent for
    that very request.  Assumed of the server: it answers the bytes of a request
    with at most one frame ([one_answer]). *)
Theorem client_reads_own_answers o c0 reqs s0 :
  New o = Some c0 ->
  exists c s, session reqs c0 s0 = Ret (c, s) /\
    Forall clean c.(idle) /\ len c.(idle) <= c.(opts).(PoolSize) /\
    forall t id data c' s' rest, attempt serve t id data c s = Ret (c', s', Ok rest) ->
      own_answer id data rest s s'.
Proof.
  intros E. destruct (session_ok reqs c0 s0 (new_pool _ _ E)) as (c & s & Es & Hp).
  exists c, s. split_and!; [done|apply Hp|rewrite <- (po_live _ Hp); apply Hp|].
  intros t id data c' s' rest Ht. destruct (attempt_ok t id data c s Hp) as (c1 & s1 & res & Ea & _ & Hown).
  rewrite Ht in Ea. injection Ea as <- <- <-. by apply Hown.
Qed.
End Pool.

(** ** The server end *)
Section Together.
Context {St L P : Type} `{!TemporalRawStore St} `{!RouterV2.KVStore St} `{!Admission L} `{!Peers P}.
Notation Router := (V1.Router St L P Ingest.Filter).

(** The read loop decodes a frame, the dispatcher handles it, and what the
    router sends is packed onto the connection. *)
Definition serve (maxSize now rtt : Z) (bs : bytes) (r : Router) : option (Router * bytes) :=
  match Decode maxSize (MkReader bs AtEOF []) with
  | Ret (Ok msg, _) =>
      match DoMsgHandle now rtt msg.(ID) msg.(Data) r with
      | Some (r, out) => Some (r, concat (map frame out))
      | None => None
      end
  | _ => None
  end.
Lemma serve_frame maxSize now rtt id data (r : Router) :
  v1_ok maxSize (id, data) ->
  serve maxSize now rtt (encodeFrame id data) r = (fun ro => (ro.1, concat (map frame ro.2))) <$> DoMsgHandle now rtt id data r.
Proof.
  intros Hv. unfold serve. pose proof Hv as (Hi & _). cbn [fst] in Hi. rewrite encodeFrame_is_frame by done.
  destruct (decode_frame maxSize (id, data) [] AtEOF [] Hv) as (al & E). rewrite app_nil_r in E. rewrite E. cbn [received ID Data fst snd].
  by destruct (DoMsgHandle now rtt id data r) as [[r' out]|].
Qed.
(** *** The calls, without the wire *)
Inductive op := OPut (key value : bytes) | OGet (key : bytes) | ODelete (key : bytes) | OScan (req : ScanRequest).
Inductive outcome := Wrote | Value (v : bytes) | Entries (es : list (bytes * bytes)).
Notation answer := (result client_err outcome).

Definition settle (c : counter) (ok : bool) (r : Router) : Router * answer :=
  if ok then (count c r, Ok Wrote) else (count CWriteErrors r, Err ErrServer).
Definition value_answer (res : RouterV2.get_result) : answer :=
  match res with RouterV2.Found v => Ok (Value v) | RouterV2.NotFound => Err ErrKeyNotFound | RouterV2.GetFailed => Err ErrServer end.
(** The call at its owner: this node or a peer. *)
Definition call_op (now : Z) (o : op) (r : Router) : go (Router * answer) :=
  match o with
  | OPut key value =>
      if blocked r then Ret (r, Err ErrOverloaded)
      else match forwardTarget now key r with
           | Some (ps, owner) => let '(ps, ok) := peer_put owner key value ps in Ret (settle CWrites ok (set_peers ps r))
           | None => '(s, ok) ← raw_write (MkCommand CommandPut key (Some value)) r.(store); Ret (settle CWrites ok (V1.set_store s r))
           end
  | ODelete key =>
      if blocked r then Ret (r, Err ErrOverloaded)
      else match forwardTarget now key r with
           | Some (ps, owner) => let '(ps, ok) := peer_delete owner key ps in Ret (settle CDeletes ok (set_peers ps r))
           | None => '(s, ok) ← raw_write (MkCommand CommandDelete key None) r.(store); Ret (settle CDeletes ok (V1.set_store s r))
           end
  | OGet key =>
      let r := count CReads r in
      match forwardTarget now key r with
      | Some (ps, owner) => let '(ps, res) := peer_get owner key ps in Ret (set_peers ps r, value_answer res)
      | None => '(s, res) ← RouterV2.kv_get key r.(store); Ret (V1.set_store s r, value_answer res)
      end
  | OScan req =>
      let r := count CScans r in
      '(s, es) ← RouterV2.kv_scan req.(Start) req.(End_) req.(Pred) 0 r.(store); Ret (V1.set_store s r, Ok (Entries es))
  end.
(** Admission around a call. *)
Definition admitted (rtt : Z) (k : Router -> go (Router * answer)) (r : Router) : go (Router * answer) :=
  match r.(limiter) with
  | None => k r
  | Some l =>
      let '(l, ok) := Acquire l in
      if ok then '(r, a) ← k (SetLimiter (Some l) r); Ret (SetLimiter (Release rtt <$> r.(limiter)) r, a)
      else Ret (count CShed (SetLimiter (Some l) r), Err ErrOverloaded)
  end.
Definition clip (reason : bytes) : bytes := if maxReasonLen <? len reason then take (Z.to_nat maxReasonLen) reason else reason.
(** The filter, which only looks at writes. *)
Definition direct (now rtt : Z) (o : op) (r : Router) : go (Router * answer) :=
  match o, r.(preHandleFunc) with
  | OPut key value, Some f =>
      let '(f, v) := Ingest.Validate key value f in
      let r := SetPreHandle (Some f) r in
      match v with
      | RouterV2.Drop _ reason => Ret (r, Err (ErrDropped (clip reason)))
      | RouterV2.Pass value => admitted rtt (call_op now (OPut key value)) r
      end
  | _, _ => admitted rtt (call_op now o) r
  end.

(** *** The same calls as frames *)
Definition op_id (o : op) : bytes :=
  match o with OPut _ _ => MsgPut | OGet _ => MsgGet | ODelete _ => MsgDelete | OScan _ => MsgScan end.
Definition op_data (o : op) : bytes :=
  match o with
  | OPut key value => EncodePutFrame key value
  | OGet key | ODelete key => EncodeKeyOnlyFrame key
  | OScan req => EncodeScanRequest req
  end.
Definition response_of (a : answer) : response :=
  match a with
  | Ok Wrote => (MsgRespOK, statusPayload StatusOK)
  | Ok (Value v) => (MsgRespOK, valuePayload v)
  | Ok (Entries es) => (MsgRespOK, EncodeScanResponse StatusOK es)
  | Err ErrKeyNotFound => (MsgRespErr, statusPayload StatusNotFound)
  | Err ErrOverloaded => (MsgRespErr, statusPayload StatusOverloaded)
  | Err (ErrDropped reason) => (MsgRespErr, droppedPayload reason)
  | Err _ => (MsgRespErr, statusPayload StatusError)
  end.
(** Lengths fit their fields, and a redacted value too. *)
Definition op_fits (o : op) : Prop :=
  match o with
  | OPut key value => fits32 key /\ fits32 value
  | OGet key | ODelete key => fits32 key
  | OScan req => scan_request_ok req
  end.
Definition op_ok (o : op) (r : Router) : Prop :=
  op_fits o /\ forall key value f, o = OPut key value -> r.(preHandleFunc) = Some f -> fits32 (Ingest.redact value f.(Ingest.redactFields)).1.

Lemma settle_wrote c ok r r' a : settle c ok r = (r', a) -> wrote c ok r = (r', [response_of a]).
Proof. unfold settle, wrote. by destruct ok; intros [= <- <-]. Qed.
Lemma answer_get_is res : answer_get res = [response_of (value_answer res)].
Proof. by destruct res. Qed.

Lemma route_is_call now o r r' a :
  op_fits o -> call_op now o r = Ret (r', a) -> route now (op_id o) (op_data o) r = Ret (r', [response_of a]).
Proof.
  intros Hok. destruct o as [key value|key|key|req]; cbn [call_op op_id op_data]; unfold route; cbn [beqb].
  - destruct Hok as (Hk & Hv). change (beqb MsgPut MsgPut) with true. cbn iota. destruct (blocked r); [by intros [= <- <-]|].
    unfold handlePut. pose proof (put_frame_codec key value [] Hk Hv) as E. rewrite app_nil_r in E. rewrite E. cbn [mbind go_bind].
    destruct (forwardTarget now key r) as [[ps owner]|].
    + destruct (peer_put owner key value ps) as [ps' ok]. intros [= Hs]. by rewrite (settle_wrote _ _ _ _ _ Hs).
    + destruct (raw_write _ _) as [[s ok]|]; [|done]. cbn [mbind go_bind]. intros [= Hs]. by rewrite (settle_wrote _ _ _ _ _ Hs).
  - change (beqb MsgGet MsgPut) with false. change (beqb MsgGet MsgGet) with true. cbn iota. unfold handleGet.
    rewrite (key_frame_codec key Hok). cbn [mbind go_bind]. cbv zeta. destruct (forwardTarget now key (count CReads r)) as [[ps owner]|].
    + destruct (peer_get owner key ps) as [ps' res]. intros [= <- <-]. by rewrite answer_get_is.
    + destruct (RouterV2.kv_get key _) as [[s res]|]; [|done]. cbn [mbind go_bind]. intros [= <- <-]. by rewrite answer_get_is.
  - change (beqb MsgDelete MsgPut) with false. change (beqb MsgDelete MsgGet) with false. change (beqb MsgDelete MsgDelete) with true. cbn iota.
    destruct (blocked r); [by intros [= <- <-]|]. unfold handleDelete. rewrite (key_frame_codec key Hok). cbn [mbind go_bind].
    destruct (forwardTarget now key r) as [[ps owner]|].
    + destruct (peer_delete owner key ps) as [ps' ok]. intros [= Hs]. by rewrite (settle_wrote _ _ _ _ _ Hs).
    + destruct (raw_write _ _) as [[s ok]|]; [|done]. cbn [mbind go_bind]. intros [= Hs]. by rewrite (settle_wrote _ _ _ _ _ Hs).
  - change (beqb MsgScan MsgPut) with false. change (beqb MsgScan MsgGet) with false. change (beqb MsgScan MsgDelete) with false.
    change (beqb MsgScan MsgScan) with true. cbn iota. unfold handleScan. rewrite (scan_request_codec req Hok). cbn [mbind go_bind]. cbv zeta.
    destruct (RouterV2.kv_scan _ _ _ _ _) as [[s es]|]; [|done]. cbn [mbind go_bind]. by intros [= <- <-].
Qed.
Lemma handle_is_admitted now rtt o r r' a :
  op_fits o -> admitted rtt (call_op now o) r = Ret (r', a) -> Handle now rtt (op_id o) (op_data o) r = Ret (r', [response_of a]).
Proof.
  intros Hok. unfold admitted, Handle. destruct (limiter r) as [l|]; [|by apply route_is_call].
  destruct (Acquire l) as [l' ok]. destruct ok; cbn [negb]; [|by intros [= <- <-]].
  destruct (call_op now o (SetLimiter (Some l') r)) as [[r1 a1]|] eqn:E; [|done]. cbn [mbind go_bind]. intros [= <- <-].
  by rewrite (route_is_call now o (SetLimiter (Some l') r) r1 a1 Hok E).
Qed.

Lemma redact_unchanged v fields : (Ingest.redact v fields).2 = false -> (Ingest.redact v fields).1 = v.
Proof. unfold Ingest.redact, Ingest.redact_parsed. repeat case_match; by intros. Qed.
Lemma Validate_pass key value f f' nv :
  Ingest.Validate key value f = (f', RouterV2.Pass nv) ->
  Ingest.redactFields f' = Ingest.redactFields f /\ nv = (Ingest.redact value (Ingest.redactFields f)).1.
Proof.
  unfold Ingest.Validate, Ingest.validate, Ingest.dropped, Ingest.rejected, Ingest.redacted, Ingest.check_time.
  intros Hv. repeat case_match; simplify_eq; done.
Qed.
Lemma droppedPayload_clip reason : droppedPayload (clip reason) = droppedPayload reason.
Proof.
  unfold droppedPayload, clip, maxReasonLen. destruct (Z.ltb_spec 4096 (len reason)) as [Hr|Hr]; [|destruct (Z.ltb_spec 4096 (len reason)); [lia|done]].
  replace (4096 <? len (take (Z.to_nat 4096) reason)) with false; [done|]. symmetry. apply Z.ltb_ge. unfold len. rewrite length_take, Nat2Z.inj_min, Z2Nat.id by lia. lia.
Qed.

Lemma dispatch_is_direct now rtt o r r' a :
  op_ok o r -> direct now rtt o r = Ret (r', a) -> DoMsgHandle now rtt (op_id o) (op_data o) r = Some (r', [response_of a]).
Proof.
  intros Hok Hd. unfold DoMsgHandle. replace (registered (op_id o)) with true by (by destruct o). cbn [negb].
  unfold PreHandle, direct in *. destruct (preHandleFunc r) as [f|] eqn:Ef; cycle 1.
  { cbn [mbind go_bind]. assert (admitted rtt (call_op now o) r = Ret (r', a)) as Ha by (by destruct o).
    by rewrite (handle_is_admitted now rtt o r r' a (proj1 Hok) Ha). }
  assert (r = SetPreHandle (Some f) r) as Hr by (destruct r; cbn in *; by subst).
  unfold hook, ingest_hook, Ingest.Handle. destruct o as [key value|key|key|req].
  2-4: change (beqb _ MsgPut) with false; cbn [negb mbind go_bind]; rewrite <- Hr; by erewrite handle_is_admitted by (apply Hok || done).
  cbn [op_id op_data]. change (beqb MsgPut MsgPut) with true. cbn [negb]. destruct Hok as ((Hk & Hv) & Hred). specialize (Hred key value f eq_refl Ef).
  pose proof (put_frame_codec key value [] Hk Hv) as E. rewrite app_nil_r in E. rewrite E. cbn [mbind go_bind].
  destruct (Ingest.Validate key value f) as [f' [nv|code reason]] eqn:Ev; cycle 1.
  { injection Hd as <- <-. cbn [mbind go_bind]. unfold sendDropped, response_of. by rewrite droppedPayload_clip. }
  destruct (Validate_pass _ _ _ _ _ Ev) as [Hf Hnv]. cbn [mbind go_bind].
  assert ((if (Ingest.redact value (Ingest.redactFields f')).2 then EncodePutFrame key nv else EncodePutFrame key value) = EncodePutFrame key nv) as Hdata.
  { rewrite Hf. destruct (Ingest.redact value (Ingest.redactFields f)).2 eqn:Ec; [done|]. by rewrite Hnv, redact_unchanged. }
  rewrite Hdata. assert (op_fits (OPut key nv)) as Hok' by (split; [done|by rewrite Hnv]).
  pose proof (handle_is_admitted now rtt (OPut key nv) _ _ _ Hok' Hd) as Hh. cbn [op_id op_data] in Hh. by rewrite Hh.
Qed.
(** *** Through the wire *)
Definition client_op (sv : bytes -> Router -> option (Router * bytes)) (e : nat -> try) (o : op) (c : Client) (r : Router) : go (Client * Router * answer) :=
  match o with
  | OPut key value => '(c, r, res) ← Put sv e key value c r; Ret (c, r, match res with Ok _ => Ok Wrote | Err err => Err err end)
  | ODelete key => '(c, r, res) ← Delete sv e key c r; Ret (c, r, match res with Ok _ => Ok Wrote | Err err => Err err end)
  | OGet key => '(c, r, res) ← Get sv e key c r; Ret (c, r, match res with Ok v => Ok (Value v) | Err err => Err err end)
  | OScan req => '(c, r, res) ← Scan sv e req c r; Ret (c, r, match res with Ok es => Ok (Entries es) | Err err => Err err end)
  end.

(** What the client keeps of a payload before it reads the value. *)
Definition rest_of (a : answer) : result client_err bytes :=
  match a with
  | Ok Wrote => Ok []
  | Ok (Value v) => Ok (put_le 4 (u32 (len v)) ++ v)
  | Ok (Entries es) => Ok (put_le 4 (u32 (len es)) ++ concat (map encode_scan_entry es))
  | Err e => Err e
  end.
(** The answers a router gives, small enough for the client. *)
Definition answer_ok (a : answer) : Prop :=
  len (response_of a).2 <= maxResponseFrameSize /\
  match a with
  | Ok (Entries es) => len es < 2 ^ 32 /\ Forall fits_pair es
  | Err (ErrDropped reason) => len reason <= maxReasonLen
  | Err (ErrKeyNotFound | ErrOverloaded | ErrServer) => True
  | Err _ => False
  | _ => True
  end.
Lemma status_read a : answer_ok a -> exists st rest,
  parseStatus (response_of a).2 = Ret (Ok (st, rest)) /\
  exists e, statusError st rest = Ret e /\ match e with Some e => Err e | None => Ok rest end = rest_of a.
Proof.
  intros [_ Ha].
  assert (forall st rest, len st < 2 ^ 8 -> parseStatus (statusPayload st ++ rest) = Ret (Ok (st, rest))) as Hp by (intros; by apply parseStatus_payload).
  assert (forall st, len st < 2 ^ 8 -> parseStatus (statusPayload st) = Ret (Ok (st, []))) as Hp0 by (intros st Hst; rewrite <- (app_nil_r (statusPayload st)); by apply Hp).
  destruct a as [[|v|es]|e].
  - exists StatusOK, []. split; [by apply Hp0|]. by exists None.
  - exists StatusOK, (put_le 4 (u32 (len v)) ++ v). split; [|by exists None]. cbn [response_of snd]. unfold valuePayload. rewrite app_assoc. by apply Hp.
  - exists StatusOK, (put_le 4 (u32 (len es)) ++ concat (map encode_scan_entry es)). split; [|by exists None]. cbn [response_of snd].
    unfold EncodeScanResponse. rewrite app_assoc. by apply Hp.
  - destruct e as [| |reason| | | | |]; try done.
    1,2,4: eexists _, []; (split; [by apply Hp0|]); eexists; split; reflexivity.
    assert (droppedPayload reason = statusPayload StatusDropped ++ put_le 2 (u16 (len reason)) ++ reason) as E.
    { unfold droppedPayload, statusPayload. replace (maxReasonLen <? len reason) with false by lia. by rewrite <- app_assoc. }
    exists StatusDropped, (put_le 2 (u16 (len reason)) ++ reason). split; [cbn [response_of snd]; rewrite E; by apply Hp|].
    exists (Some (ErrDropped reason)). split; [|done]. unfold statusError. cbn -[parseDropReason put_le].
    rewrite parseDropReason_reads by (unfold maxReasonLen in Ha; lia). done.
Qed.

Definition fine : try := MkTry Delivered false false false false.
Lemma attempt_delivered maxSize now rtt o c r r' a :
  pool_ok c -> c.(closed) = false -> v1_ok maxSize (op_id o, op_data o) ->
  op_ok o r -> direct now rtt o r = Ret (r', a) -> answer_ok a ->
  exists c', attempt (serve maxSize now rtt) fine (op_id o) (op_data o) c r = Ret (c', r', rest_of a) /\ pool_ok c'.
Proof.
  intros Hp Hcl Hv Hok Hd Ha. unfold attempt, fine. cbn [over_before net over_after].
  destruct (acquire Delivered c) as [c1 q] eqn:Eq. pose proof (acquire_ok _ _ _ _ Hp Eq) as Hq.
  assert (exists cn, q = Got cn) as [cn ->].
  { unfold acquire in Eq. rewrite Hcl in Eq. destruct Hp as [_ Hl _ Hs _]. destruct (idle c) as [|cn rest]; [|injection Eq as _ <-; by eexists].
    rewrite len_nil in Hl. replace (PoolSize (opts c) <=? live c) with false in Eq by lia. destruct (nextAddr c). injection Eq as _ <-. by eexists. }
  destruct Hq as [-> Hrel]. destruct (response_of a) as [rid payload] eqn:Er.
  assert (len rid < 2 ^ 16) as Hrid by (destruct a as [[]|[]]; injection Er as <- _; done).
  pose proof Ha as [Hsize _]. rewrite Er in Hsize. cbn [snd] in Hsize.
  rewrite (roundTrip_delivered _ _ _ r r' rid payload); [|rewrite serve_frame by done; by rewrite (dispatch_is_direct now rtt o r r' a Hok Hd), Er; cbn [fmap option_fmap option_map fst snd map concat]; rewrite app_nil_r|done|done].
  cbn [mbind go_bind watch_dog].
  destruct (status_read a Ha) as (st & rest & E1 & e & E2 & E3). rewrite Er in E1. cbn [snd] in E1. rewrite E1. cbn [mbind go_bind].
  rewrite E2. cbn [mbind go_bind]. rewrite E3. eexists. split; [done|]. apply Hrel. by left.
Qed.
Definition settled (a : answer) : Prop := match a with Err e => retryable e = false | Ok _ => True end.
Lemma do_delivered maxSize now rtt o c r r' a e :
  pool_ok c -> c.(closed) = false -> v1_ok maxSize (op_id o, op_data o) ->
  op_ok o r -> direct now rtt o r = Ret (r', a) -> answer_ok a -> e 0%nat = fine -> c.(opts).(MaxRetries) = 0 \/ settled a ->
  exists c', do (serve maxSize now rtt) e (op_id o) (op_data o) c r = Ret (c', r', rest_of a) /\ pool_ok c'.
Proof.
  intros Hp Hcl Hv Hok Hd Ha He Hs. destruct (attempt_delivered maxSize now rtt o c r r' a Hp Hcl Hv Hok Hd Ha) as (c' & Ea & Hp').
  exists c'. split; [|done]. unfold do. assert (forall n, n = 0%nat \/ settled a -> do_from (serve maxSize now rtt) n 0 e (op_id o) (op_data o) c r = Ret (c', r', rest_of a)) as Hn.
  { intros n Hn. destruct n as [|n]; cbn [do_from]; rewrite He; cbn [fine over_waiting over_after]; rewrite andb_false_r, Ea; cbn [mbind go_bind].
    - destruct a as [[]|err]; cbn [rest_of]; try done. by destruct (retryable err).
    - destruct Hn as [|Hn]; [done|]. destruct a as [[]|err]; cbn [rest_of]; try done. cbn in Hn. by rewrite Hn. }
  apply Hn. destruct Hs as [-> |]; [by left|by right].
Qed.

(** The answers fit their calls. *)
Definition shaped (o : op) (a : answer) : Prop :=
  match o, a with
  | _, Err _ | OPut _ _, Ok Wrote | ODelete _, Ok Wrote | OGet _, Ok (Value _) | OScan _, Ok (Entries _) => True
  | _, _ => False
  end.
Lemma call_shape now o r r' a : call_op now o r = Ret (r', a) -> shaped o a.
Proof.
  assert (forall c ok x y b, settle c ok x = (y, b) -> shaped (OPut [] []) b) as Hs by (unfold settle; intros c [] x y b [= _ <-]; done).
  assert (forall res key, shaped (OGet key) (value_answer res)) as Hg by (by intros []).
  destruct o as [key value|key|key|req]; cbn [call_op]; cbv zeta; repeat case_match;
    try (by intros [= _ <-]); try (intros [= E]; by apply Hs in E); try (intros [= _ <-]; apply Hg).
  all: try (destruct (raw_write _ _) as [[]|]; [|done]; intros [= E]; by apply Hs in E).
  - destruct (RouterV2.kv_get _ _) as [[]|]; [|done]. intros [= _ <-]. apply Hg.
  - destruct (RouterV2.kv_scan _ _ _ _ _) as [[]|]; [|done]. by intros [= _ <-].
Qed.
Lemma admitted_shape now rtt o r r' a : admitted rtt (call_op now o) r = Ret (r', a) -> shaped o a.
Proof.
  unfold admitted. destruct (limiter r) as [l|]; [|apply call_shape]. destruct (Acquire l) as [l' []]; [|intros [= _ <-]; by destruct o].
  destruct (call_op now o _) as [[]|] eqn:E; [|done]. intros [= _ <-]. by eapply call_shape.
Qed.
Lemma direct_shape now rtt o r r' a : direct now rtt o r = Ret (r', a) -> shaped o a.
Proof.
  unfold direct. destruct o as [key value|key|key|req], (preHandleFunc r) as [f|]; try apply admitted_shape.
  destruct (Ingest.Validate key value f) as [f' [nv|code reason]]; [|by intros [= _ <-]].
  intros E. apply admitted_shape in E. exact E.
Qed.
Lemma value_fits v : answer_ok (Ok (Value v)) -> fits32 v.
Proof.
  intros [Hsz _]. cbn [response_of snd] in Hsz. unfold valuePayload in Hsz. rewrite !len_app, !len_put_le in Hsz.
  change maxResponseFrameSize with 67108864 in Hsz. pose proof (len_nonneg StatusOK). lia.
Qed.
Lemma read_entries_reads es : len es < 2 ^ 32 -> Forall fits_pair es ->
  read_entries (put_le 4 (u32 (len es)) ++ concat (map encode_scan_entry es)) = Ret (Ok es).
Proof.
  intros Hl Hes. unfold read_entries. pose proof (scan_response_codec StatusOK es eq_refl Hl Hes) as E.
  unfold EncodeScanResponse in E. unfold statusPayload. rewrite <- app_assoc, E. done.
Qed.

(** C29: a delivered request is the call itself.  For every PUT, GET, DELETE and
    SCAN whose fields and answer fit the frames, when the first attempt is
    delivered on an open client and the client does not retry -- it is set not
    to, or the answer is a success, not found or dropped -- through the client's
    codec, the server's read loop, the dispatcher, the ingest filter, admission,
    the guardrail, the router, forwarding or the local store, and back through
    both response codecs, the client returns exactly the answer of the direct
    call (value, entries, not found, overloaded, dropped with its reason, or
    server error), and the server is left in the state of that call.  With
    retries on, an overloaded or server-error answer is sent again, and the
    server runs the call up to [MaxRetries] more times. *)
Theorem wire_is_direct maxSize now rtt o c r r' a e :
  pool_ok c -> c.(closed) = false -> v1_ok maxSize (op_id o, op_data o) -> op_ok o r ->
  direct now rtt o r = Ret (r', a) -> answer_ok a -> e 0%nat = fine -> c.(opts).(MaxRetries) = 0 \/ settled a ->
  exists c', client_op (serve maxSize now rtt) e o c r = Ret (c', r', a) /\ pool_ok c'.
Proof.
  intros Hp Hcl Hv Hok Hd Ha He Hs. destruct (do_delivered maxSize now rtt o c r r' a e Hp Hcl Hv Hok Hd Ha He Hs) as (c' & E & Hp').
  exists c'. split; [|done].
  pose proof (direct_shape _ _ _ _ _ _ Hd) as Hshape.
  destruct o as [key value|key|key|req]; cbn [client_op op_id op_data] in *; unfold Put, Get, Delete, Scan; rewrite E;
    destruct a as [[|v|es]|err]; cbn [shaped] in Hshape; try done; cbn [rest_of mbind go_bind]; try done.
  - rewrite read_value_reads by (by apply value_fits). done.
  - destruct Ha as [_ [Hl Hes]]. rewrite read_entries_reads by done. done.
Qed.
End Together.
(** A server that answers every frame with an empty success. *)
Definition ok_server (bs : bytes) (n : nat) : option (nat * bytes) := Some (S n, frame (MsgRespOK, statusPayload StatusOK)).
Definition lossy : nat -> try := fun i => MkTry (if (i =? 0)%nat then ReplyLate 3 else Delivered) false false false false.
Lemma client_reads_own_answers_witness :
  exists c s, session ok_server [Req MsgPut [] lossy; Req MsgGet [] lossy] (MkClient (applyDefaults (MkOptions [str "a"] 0 0)) [] 0 0 false) 0%nat = Ret (c, s) /\
    Forall clean c.(idle) /\ len c.(idle) <= c.(opts).(PoolSize) /\
    forall t id data c' s' rest, attempt ok_server t id data c s = Ret (c', s', Ok rest) ->
      own_answer ok_server id data rest s s'.
Proof.
  apply (client_reads_own_answers ok_server) with (o := MkOptions [str "a"] 0 0); [|reflexivity].
  intros bs s s' out [= _ <-]. right. by exists MsgRespOK, (statusPayload StatusOK).
Defined.

(** A client and a router over a map: a PUT through the filter. *)
Import RouterV1Spec.
Definition fresh_client : Client := MkClient (applyDefaults (MkOptions [str "a"] 0 0)) [] 0 0 false.
Lemma fresh_pool : pool_ok fresh_client.
Proof. split; cbn; done. Qed.
Lemma wire_is_direct_witness :
  exists r' c', client_op (serve 0 0 1) (fun _ => fine) (OPut (str "k") (str "v")) fresh_client (map_router plain_filter) = Ret (c', r', Ok Wrote) /\ pool_ok c'.
Proof.
  eexists. eapply (wire_is_direct 0 0 1 (OPut (str "k") (str "v")) fresh_client (map_router plain_filter)).
  - exact fresh_pool.
  - reflexivity.
  - split_and!; vm_compute; done.
  - split; [split; vm_compute; done|]. intros key value f [= <- <-] [= <-]. vm_compute. done.
  - vm_compute. reflexivity.
  - split; [vm_compute; done|done].
  - reflexivity.
  - right. exact I.
Defined.

End ClientSpec.
