(* ===== verification/Limits.v ===== *)
(** * Adaptive admission and latency-aware choice ([internal/admission/limiter.go], [cluster/p2c.go])

    Both components work on binary64 arithmetic, which is computed exactly as
    specified.  A limiter is driven by admissions and completions, the
    completion with the measured time; a balancer by choices (the two random
    draws are parameters) and completions. *)
From Stdlib Require Import SpecFloat.
From stdpp Require Import gmap.
From S2P Require Import Prelude Bytes Floats RouterV1.
Import Floats.

Module Limiter.
Definition half : float := S754_finite false 4503599627370496 (-53).
Definition one : float := S754_finite false 4503599627370496 (-52).
(** [0.2] *)
Definition defaultSmoothing : float := S754_finite false 7205759403792794 (-55).

(** [math.Floor], and [int] of it. *)
Definition floor (f : float) : Z :=
  match f with
  | S754_finite s m e => let z := if s then Zneg m else Zpos m in if 0 <=? e then Z.shiftl z e else Z.shiftr z (- e)
  | _ => 0
  end.
Definition Floor (f : float) : float :=
  match f with S754_finite _ _ e => if 0 <=? e then f else of_int (floor f) | _ => f end.

Record Limiter := MkLimiter {
  limit : float; inFlight : Z; minLimit : float; maxLimit : float; smoothing : float;
  minRTT : Z; sampleCount : Z; probeSamples : Z; admitted : Z; shed : Z }.
Record Config := MkConfig { InitialLimit : Z; MinLimit : Z; MaxLimit : Z; Smoothing : float; ProbeSamples : Z }.

Definition positive_or (d n : Z) : Z := if n <=? 0 then d else n.
Definition New (c : Config) : Limiter :=
  let s := if SFleb c.(Smoothing) zero || SFltb one c.(Smoothing) then defaultSmoothing else c.(Smoothing) in
  MkLimiter (of_int (positive_or 10 c.(InitialLimit))) 0 (of_int (positive_or 1 c.(MinLimit))) (of_int (positive_or 1000 c.(MaxLimit))) s
    0 0 (positive_or 1000 c.(ProbeSamples)) 0 0.

Definition Acquire (l : Limiter) : Limiter * bool :=
  if SFleb (Floor l.(limit)) (of_int l.(inFlight))
  then (MkLimiter l.(limit) l.(inFlight) l.(minLimit) l.(maxLimit) l.(smoothing) l.(minRTT) l.(sampleCount) l.(probeSamples) l.(admitted) (s64 (l.(shed) + 1)), false)
  else (MkLimiter l.(limit) (s64 (l.(inFlight) + 1)) l.(minLimit) l.(maxLimit) l.(smoothing) l.(minRTT) l.(sampleCount) l.(probeSamples) (s64 (l.(admitted) + 1)) l.(shed), true).

(** The new limit before and after the clamp. *)
Definition gradient (minRTT rtt : Z) : float :=
  let g := fdiv (of_int minRTT) (of_int rtt) in
  let g := if SFltb one g then one else g in
  if SFltb g half then half else g.
(** Every product and sum is rounded; Go allows a compiler to fuse [x*y + z],
    which amd64 does not do. *)
Definition smoothed (l : Limiter) (g : float) : float :=
  let newLimit := fadd (fmul l.(limit) g) (fsqrt l.(limit)) in
  fadd (fmul l.(limit) (fsub one l.(smoothing))) (fmul newLimit l.(smoothing)).
Definition clamp (lo hi x : float) : float :=
  let x := if SFltb x lo then lo else x in if SFltb hi x then hi else x.
Definition updateLocked (rtt : Z) (l : Limiter) : Limiter :=
  let rtt := if rtt <=? 0 then 1 else rtt in
  let n := s64 (l.(sampleCount) + 1) in
  let best := if (l.(minRTT) =? 0) || (rtt <? l.(minRTT)) || (Z.rem n l.(probeSamples) =? 0) then rtt else l.(minRTT) in
  MkLimiter (clamp l.(minLimit) l.(maxLimit) (smoothed l (gradient best rtt))) l.(inFlight) l.(minLimit) l.(maxLimit) l.(smoothing)
    best n l.(probeSamples) l.(admitted) l.(shed).
Definition Release (rtt : Z) (l : Limiter) : Limiter :=
  updateLocked rtt (MkLimiter l.(limit) (s64 (l.(inFlight) - 1)) l.(minLimit) l.(maxLimit) l.(smoothing) l.(minRTT) l.(sampleCount)
                      l.(probeSamples) l.(admitted) l.(shed)).
Definition Limit (l : Limiter) : Z := floor l.(limit).
Definition InFlight (l : Limiter) : Z := l.(inFlight).
Definition Stats (l : Limiter) : Z * Z := (l.(admitted), l.(shed)).

#[export] Instance limiter_admission : V1.Admission Limiter := {| V1.Acquire := Acquire; V1.Release := Release |}.
End Limiter.

Module P2C.
Record P2CBalancer := MkBalancer { backends : list bytes; ewma : gmap bytes float; inflight : gmap bytes Z; decay : float }.
Definition NewP2CBalancer (bs : list bytes) (d : float) : P2CBalancer :=
  MkBalancer bs ∅ ∅ (if SFleb d zero || SFltb Limiter.one d then Limiter.defaultSmoothing else d).
Definition score (node : bytes) (b : P2CBalancer) : float :=
  fmul (default zero (b.(ewma) !! node)) (of_int (default 0 (b.(inflight) !! node) + 1)).
(** [i] is drawn below [n], [j] below [n - 1]. *)
Definition choose (i j : nat) (b : P2CBalancer) : option bytes :=
  match b.(backends) with
  | [] => None
  | [x] => Some x
  | l =>
      let j := if (i <=? j)%nat then S j else j in
      a ← l !! i; c ← l !! j;
      Some (if SFleb (score a b) (score c b) then a else c)
  end.
Definition Pick (i j : nat) (b : P2CBalancer) : P2CBalancer * option bytes :=
  match choose i j b with
  | None => (b, None)
  | Some x => (MkBalancer b.(backends) b.(ewma) (<[x := s64 (default 0 (b.(inflight) !! x) + 1)]> b.(inflight)) b.(decay), Some x)
  end.
(** The callback of [completer]. *)
Definition complete (node : bytes) (latency : Z) (b : P2CBalancer) : P2CBalancer :=
  let n := default 0 (b.(inflight) !! node) in
  let sample := of_int latency in
  MkBalancer b.(backends)
    (<[node := match b.(ewma) !! node with
               | Some cur => fadd (fmul cur (fsub Limiter.one b.(decay))) (fmul sample b.(decay))
               | None => sample
               end]> b.(ewma))
    (if 0 <? n then <[node := n - 1]> b.(inflight) else b.(inflight)) b.(decay).
Definition Inflight (b : P2CBalancer) : gmap bytes Z := b.(inflight).
End P2C.
