(* ===== verification/LimitsSpec.v ===== *)
(** * Admission stays within its bounds, and the balancer keeps its books

    No sequence of measurements takes the concurrency limit out of its
    configured range or makes it a NaN (which every later comparison would let
    through), and the counts of requests in flight are the requests in flight. *)
From Stdlib Require Import SpecFloat.
From stdpp Require Import gmap.
From S2P Require Import Prelude Bytes Json JobSpec Floats Proto RouterV2 Ingest IngestSpec RouterV1 Limits.
Import Floats.

Module LimitsSpec.
Import Limiter.

(** ** Arithmetic on floats that are not negative *)
Definition nonneg (x : float) : Prop :=
  match x with S754_zero _ => True | S754_infinity s | S754_finite s _ _ => s = false | S754_nan => False end.

Lemma shr_1_nonneg r : 0 <= shr_m r -> 0 <= shr_m (shr_1 r).
Proof. destruct r as [[|[]|[]] ? ?]; cbn; lia. Qed.
Lemma iter_nonneg p r : 0 <= shr_m r -> 0 <= shr_m (SpecFloat.iter_pos shr_1 p r).
Proof. revert r. induction p as [p IH|p IH|]; intros r Hr; cbn; auto using shr_1_nonneg. Qed.
Lemma shr_fexp_nonneg m e l : 0 <= m -> 0 <= shr_m (shr_fexp 53 1024 m e l).1.
Proof.
  intros Hm. unfold shr_fexp, shr. assert (0 <= shr_m (shr_record_of_loc m l)) by (by destruct l as [|[]]).
  destruct (_ - _); cbn [fst]; auto using iter_nonneg.
Qed.
Lemma round_nonneg m e l : 0 <= m -> nonneg (binary_round_aux 53 1024 false m e l).
Proof.
  intros Hm. unfold binary_round_aux. pose proof (shr_fexp_nonneg m e l Hm) as H1. destruct (shr_fexp 53 1024 m e l) as [r1 e1]. cbn [fst] in H1.
  assert (0 <= round_nearest_even (shr_m r1) (loc_of_shr_record r1)) as H2.
  { unfold round_nearest_even. destruct (loc_of_shr_record r1) as [|[]]; try lia. destruct (Z.even (shr_m r1)); lia. }
  pose proof (shr_fexp_nonneg _ e1 loc_Exact H2) as H3. destruct (shr_fexp 53 1024 _ e1 loc_Exact) as [r2 e2]. cbn [fst] in H3.
  destruct (shr_m r2); [done| |lia]. by destruct (_ <=? _).
Qed.
Lemma normalize_nonneg m e : 0 <= m -> nonneg (binary_normalize 53 1024 m e false).
Proof.
  intros Hm. destruct m as [|m|m]; [done| |lia]. cbn. unfold binary_round. destruct (shl_align _ _ _). by apply round_nonneg.
Qed.
Lemma of_int_nonneg z : 0 <= z -> nonneg (of_int z).
Proof. apply normalize_nonneg. Qed.
Lemma fmul_nonneg x y : nonneg x -> nonneg y -> finite x = true -> finite y = true -> nonneg (fmul x y).
Proof. destruct x as [| | |s m e], y as [| | |s' m' e']; try done. intros -> -> _ _. by apply round_nonneg. Qed.
(** A factor that is neither zero nor infinite. *)
Definition proper (x : float) : Prop := match x with S754_finite false _ _ => True | _ => False end.
Lemma fmul_proper x y : nonneg x -> proper y -> nonneg (fmul x y).
Proof. destruct x as [|s| |s m e], y as [| | |[] m' e']; try done; intros -> _; [done|]. by apply round_nonneg. Qed.
Lemma fadd_nonneg x y : nonneg x -> nonneg y -> nonneg (fadd x y).
Proof.
  destruct x as [s|s| |s m e], y as [s'|s'| |s' m' e']; try done; intros Hx Hy; cbn in Hx, Hy; subst; try done; [by destruct s, s'|].
  apply normalize_nonneg. done.
Qed.
Lemma fsqrt_nonneg x : nonneg x -> nonneg (fsqrt x).
Proof.
  destruct x as [|s| |s m e]; try done; intros ->; [done|]. unfold fsqrt, SFsqrt.
  destruct (SFsqrt_core_binary 53 1024 (Zpos m) e) as [[q e'] l] eqn:E. apply round_nonneg.
  unfold SFsqrt_core_binary in E. destruct (Z.sqrtrem _) as [q' r'] eqn:Es. injection E as <- _ _.
  match type of Es with Z.sqrtrem ?x = _ => pose proof (Z.sqrtrem_sqrt x) as Hs; rewrite Es in Hs; cbn in Hs; subst q'; apply Z.sqrt_nonneg end.
Qed.
Lemma fdiv_nonneg x y : nonneg x -> proper y -> nonneg (fdiv x y).
Proof.
  destruct x as [|s| |s m e], y as [| | |[] m' e']; try done; intros ->; intros _; [done|].
  unfold fdiv, SFdiv. destruct (SFdiv_core_binary 53 1024 (Zpos m) e (Zpos m') e') as [[q e2] l] eqn:E. apply round_nonneg.
  unfold SFdiv_core_binary in E. destruct (Z.div_eucl _ _) as [q' r'] eqn:Ed. injection E as <- _ _.
  match type of Ed with Z.div_eucl ?a ?b = _ => assert (q' = a / b) as -> by (unfold Z.div; by rewrite Ed); apply Z.div_pos; [|lia] end.
  case_match; try lia. apply Z.shiftl_nonneg. lia.
Qed.

(** ** The clamp *)
Lemma nonneg_cmp x y : nonneg x -> finite y = true -> exists c, SFcompare x y = Some c /\ SFcompare y x = Some (CompOpp c).
Proof.
  intros Hx Hy. destruct x as [s|s| |s m e]; try done; [apply IngestSpec.SFcompare_swap; done| |apply IngestSpec.SFcompare_swap; done].
  cbn in Hx. subst. destruct y; try done; by exists Gt.
Qed.
Lemma below_finite x hi : nonneg x -> finite hi = true -> SFltb hi x = false -> finite x = true.
Proof. destruct x as [|[]| |]; try done. intros _ Hh. unfold SFltb. by destruct hi as [|[]| |[]]. Qed.

Lemma clamp_in lo hi x :
  nonneg lo -> nonneg hi -> finite lo = true -> finite hi = true -> SFleb lo hi = true -> nonneg x ->
  nonneg (clamp lo hi x) /\ finite (clamp lo hi x) = true /\ SFleb lo (clamp lo hi x) = true /\ SFleb (clamp lo hi x) hi = true.
Proof.
  intros Hlo Hhi Hflo Hfhi Hle Hx. unfold clamp.
  assert (forall y, nonneg y -> finite y = true -> SFleb y y = true) as Hrefl.
  { intros y _ Hy. destruct (IngestSpec.SFcompare_swap y y Hy Hy) as (c & E1 & E2). unfold SFleb. rewrite E1 in *.
    injection E2 as E2. by destruct c. }
  destruct (SFltb x lo) eqn:E1.
  - replace (SFltb hi lo) with false; [auto|]. rewrite IngestSpec.SFleb_ltb in Hle by done. by destruct (SFltb hi lo).
  - destruct (SFltb hi x) eqn:E2; [auto|]. pose proof (below_finite x hi Hx Hfhi E2) as Hfx.
    split_and!; [done|done| |]; rewrite IngestSpec.SFleb_ltb by done; [by rewrite E1|by rewrite E2].
Qed.
(** ** Small integers convert exactly *)
Lemma digits_low m : 2 ^ (Zpos (digits2_pos m) - 1) <= Zpos m.
Proof.
  induction m as [m IH|m IH|]; [| |done]; cbn [digits2_pos]; rewrite Pos2Z.inj_succ;
    replace (Z.succ (Zpos (digits2_pos m)) - 1) with (Z.succ (Zpos (digits2_pos m) - 1)) by lia; rewrite Z.pow_succ_r by lia; lia.
Qed.
Lemma digits_shift m k : digits2_pos (Pos.iter xO m k) = (digits2_pos m + k)%positive.
Proof.
  induction k as [|k IH] using Pos.peano_ind; [cbn; lia|]. rewrite Pos.iter_succ. cbn [digits2_pos]. rewrite IH. lia.
Qed.
Lemma of_int_proper z : 0 < z < 2 ^ 53 -> proper (of_int z).
Proof.
  intros Hz. destruct z as [|m|m]; try lia. cbn. unfold binary_round. set (d := digits2_pos m).
  assert (Zpos d <= 53) as Hd.
  { pose proof (digits_low m) as Hl. fold d in Hl. assert (Zpos d - 1 < 53); [|lia]. apply (Z.pow_lt_mono_r_iff 2); lia. }
  assert (fexp 53 1024 (Zpos d + 0) = Zpos d - 53) as Hf by (unfold fexp, emin; lia). rewrite Hf.
  assert (exists mz, shl_align m 0 (Zpos d - 53) = (mz, Zpos d - 53) /\ Zpos (digits2_pos mz) = 53) as (mz & -> & Hmz).
  { unfold shl_align. replace (Zpos d - 53 - 0) with (Zpos d - 53) by lia. destruct (Zpos d - 53) as [|p|p] eqn:E; [exists m; split; [done|fold d; lia]|lia|].
    exists (Pos.iter xO m p). split; [done|]. rewrite digits_shift. fold d. lia. }
  assert (shr_fexp 53 1024 (Zpos mz) (Zpos d - 53) loc_Exact = (Build_shr_record (Zpos mz) false false, Zpos d - 53)) as Hs.
  { unfold shr_fexp, shr, Zdigits2. rewrite Hmz. replace (fexp 53 1024 (53 + (Zpos d - 53)) - (Zpos d - 53)) with 0; [done|]. unfold fexp, emin. lia. }
  unfold binary_round_aux. rewrite Hs. cbn [shr_m loc_of_shr_record round_nearest_even]. rewrite Hs. cbn [shr_m].
  replace (Zpos d - 53 <=? 1024 - 53) with true by lia. done.
Qed.

(** ** The limiter *)
Lemma proper_nonneg x : proper x -> nonneg x /\ finite x = true.
Proof. by destruct x as [| | |[]]. Qed.
Lemma gradient_ok best rtt : 0 < best < 2 ^ 53 -> 0 < rtt < 2 ^ 53 -> nonneg (gradient best rtt) /\ finite (gradient best rtt) = true.
Proof.
  intros Hb Hr. unfold gradient. pose proof (fdiv_nonneg _ _ (proj1 (proper_nonneg _ (of_int_proper _ Hb))) (of_int_proper _ Hr)) as Hq.
  destruct (SFltb one _) eqn:E; [vm_compute; done|]. destruct (SFltb _ half); [vm_compute; done|].
  split; [done|]. by eapply (below_finite _ one).
Qed.

(** What configuration fixes. *)
Record sound (l : Limiter) : Prop := Sound {
  so_limit : nonneg l.(limit) /\ finite l.(limit) = true;
  so_min : nonneg l.(minLimit) /\ finite l.(minLimit) = true;
  so_max : nonneg l.(maxLimit) /\ finite l.(maxLimit) = true;
  so_range : SFleb l.(minLimit) l.(maxLimit) = true;
  so_smooth : proper l.(smoothing) /\ nonneg (fsub one l.(smoothing)) /\ finite (fsub one l.(smoothing)) = true;
  so_rtt : 0 <= l.(minRTT) < 2 ^ 53 }.

Inductive event := Ask | Finish (rtt : Z).
Definition react (e : event) (l : Limiter) : Limiter := match e with Ask => (Acquire l).1 | Finish rtt => Release rtt l end.
Definition short (e : event) : Prop := match e with Ask => True | Finish rtt => rtt < 2 ^ 53 end.
Definition in_range (l : Limiter) : Prop := SFleb l.(minLimit) l.(limit) = true /\ SFleb l.(limit) l.(maxLimit) = true.

Lemma smoothed_nonneg l g : sound l -> nonneg g -> finite g = true -> nonneg (smoothed l g).
Proof.
  intros [[Hl Hf] _ _ _ (Hs & Hc & Hcf) _] Hg Hgf. unfold smoothed. apply fadd_nonneg.
  - by apply fmul_nonneg.
  - apply fmul_proper; [|done]. apply fadd_nonneg; [by apply fmul_nonneg|by apply fsqrt_nonneg].
Qed.
Lemma release_sound rtt l : sound l -> rtt < 2 ^ 53 -> sound (Release rtt l) /\ in_range (Release rtt l).
Proof.
  intros Hs Hr. unfold Release, updateLocked. cbn [limit inFlight minLimit maxLimit smoothing minRTT sampleCount probeSamples admitted shed].
  set (rtt1 := if rtt <=? 0 then 1 else rtt). assert (0 < rtt1 < 2 ^ 53) as Hr1 by (unfold rtt1; destruct (Z.leb_spec rtt 0); lia).
  match goal with |- context [gradient ?b rtt1] => set (best := b) end.
  pose proof (so_rtt _ Hs) as Hm. assert (0 < best < 2 ^ 53) as Hb.
  { unfold best. destruct (Z.eqb_spec (minRTT l) 0); cbn [orb]; [done|]. destruct (_ || _); lia. }
  destruct (gradient_ok best rtt1 Hb Hr1) as [Hg Hgf].
  match goal with |- context [smoothed ?x _] => assert (sound x) as Hx by (destruct Hs; by split) end.
  pose proof (smoothed_nonneg _ _ Hx Hg Hgf) as Hsm. destruct Hs as [Hl [Hmin Hminf] [Hmax Hmaxf] Hrange Hsmooth _].
  destruct (clamp_in (minLimit l) (maxLimit l) _ Hmin Hmax Hminf Hmaxf Hrange Hsm) as (H1 & H2 & H3 & H4).
  split; [|by split]. split; cbn [limit minLimit maxLimit smoothing minRTT]; auto. lia.
Qed.
Lemma acquire_keeps l : sound l -> sound (Acquire l).1 /\ (Acquire l).1.(limit) = l.(limit) /\ (Acquire l).1.(minLimit) = l.(minLimit) /\ (Acquire l).1.(maxLimit) = l.(maxLimit).
Proof.
  intros Hs. unfold Acquire.
  destruct (SFleb _ _); cbn [fst limit minLimit maxLimit]; (split; [|done]); destruct Hs;
  constructor; cbn [limit minLimit maxLimit smoothing minRTT]; tauto.
Qed.

(** C40: from the first completion on, the concurrency limit of a limiter
    configured with a minimum not above the maximum and a proper smoothing
    factor lies between that minimum and maximum and is never a NaN or an
    infinity, whatever sequence of admissions and completions follows, for
    measured times below [2^53] nanoseconds (104 days). *)
Theorem limiter_stays_in_range l evs1 rtt evs2 :
  sound l -> Forall short (evs1 ++ Finish rtt :: evs2) ->
  let l' := fold_left (fun l e => react e l) (evs1 ++ Finish rtt :: evs2) l in
  finite l'.(limit) = true /\ in_range l'.
Proof.
  intros Hs Hev. apply Forall_app in Hev as [H1 H2]. apply Forall_cons in H2 as [Hr H2]. rewrite fold_left_app. cbn [fold_left].
  assert (forall evs l, Forall short evs -> sound l -> sound (fold_left (fun l e => react e l) evs l)) as Hkeep.
  { induction evs as [|e evs IH]; intros x Hf Hx; [done|]. apply Forall_cons in Hf as [He Hf]. cbn [fold_left]. apply IH; [done|].
    destruct e as [|r]; cbn [react]; [by apply acquire_keeps|by apply release_sound]. }
  pose proof (Hkeep evs1 l H1 Hs) as Hs1. destruct (release_sound rtt _ Hs1 Hr) as [Hs2 Hin]. cbn [react].
  revert Hs2 Hin. generalize (Release rtt (fold_left (fun l e => react e l) evs1 l)). clear Hs1 Hs H1.
  induction evs2 as [|e evs IH]; intros x Hx Hin; cbn [fold_left]; [split; [apply Hx|done]|].
  apply Forall_cons in H2 as [He H2]. apply IH; [done| |].
  - destruct e as [|r]; cbn [react]; [by apply acquire_keeps|by apply release_sound].
  - destruct e as [|r]; cbn [react]; [|by apply release_sound].
    destruct (acquire_keeps x Hx) as (_ & E1 & E2 & E3). unfold in_range. rewrite E1, E2, E3. done.
Qed.
(** The default configuration. *)
Definition default_limiter : Limiter := New (MkConfig 0 0 0 zero 0).
Lemma default_sound : sound default_limiter.
Proof. split; vm_compute; repeat split; done. Qed.
Lemma limiter_stays_in_range_witness :
  let l' := fold_left (fun l e => react e l) [Ask; Ask; Finish 1000; Finish 900000] default_limiter in
  finite l'.(limit) = true /\ in_range l'.
Proof. apply (limiter_stays_in_range default_limiter [Ask; Ask] 1000 [Finish 900000]); [exact default_sound|repeat constructor]. Defined.

(** A new limiter is not clamped: with a maximum of five, ten requests are
    admitted before the first one completes. *)
Lemma initial_limit_unclamped :
  let l := New (MkConfig 10 1 5 zero 0) in
  Limit l = 10 /\ InFlight (fold_left (fun l e => react e l) (repeat Ask 20) l) = 10 /\ floor l.(maxLimit) = 5.
Proof. vm_compute. done. Qed.

(** ** The balancer *)
Import P2C.

(** Of two different backends the one with the lower score is chosen. *)
Lemma choose_two i j b x : choose i j b = Some x -> (2 <= length b.(backends))%nat ->
  exists a c ja, b.(backends) !! i = Some a /\ b.(backends) !! ja = Some c /\ ja <> i /\
    (x = a /\ SFleb (score a b) (score c b) = true \/ x = c /\ SFleb (score a b) (score c b) = false).
Proof.
  unfold choose. destruct (backends b) as [|y [|z l]] eqn:E; [done|cbn; lia|]. intros Hx _.
  set (ja := if (i <=? j)%nat then S j else j) in *. assert (ja <> i) as Hne by (unfold ja; destruct (Nat.leb_spec i j); lia).
  destruct ((y :: z :: l) !! i) as [a|] eqn:Ea; [|done]. cbn [mbind option_bind] in Hx.
  destruct ((y :: z :: l) !! ja) as [c|] eqn:Ec; [|done]. cbn [mbind option_bind] in Hx. injection Hx as <-.
  exists a, c, ja. split_and!; try done. destruct (SFleb _ _); auto.
Qed.

(** Runs of a balancer, with the requests outstanding (fewer than [2^63] of
    them). *)
Inductive p2c_run (bs : list bytes) (d : float) : P2CBalancer -> list bytes -> Prop :=
  | run_new : p2c_run bs d (NewP2CBalancer bs d) []
  | run_pick b out i j b' x : p2c_run bs d b out -> len out < 2 ^ 63 - 1 -> Pick i j b = (b', Some x) -> p2c_run bs d b' (x :: out)
  | run_done b out x out1 out2 latency :
      p2c_run bs d b out -> out = out1 ++ x :: out2 -> p2c_run bs d (complete x latency b) (out1 ++ out2).
Definition occurrences (x : bytes) (l : list bytes) : Z := len (List.filter (beqb x) l).
Lemma occurrences_app x l k : occurrences x (l ++ k) = occurrences x l + occurrences x k.
Proof. unfold occurrences. by rewrite List.filter_app, len_app. Qed.
Lemma occurrences_cons x y l : occurrences x (y :: l) = (if beqb x y then 1 else 0) + occurrences x l.
Proof. unfold occurrences. cbn. destruct (beqb x y); [by rewrite len_cons|lia]. Qed.
Lemma occurrences_le x l : 0 <= occurrences x l <= len l.
Proof. induction l as [|y l IH]; [done|]. rewrite occurrences_cons, len_cons. destruct (beqb x y); lia. Qed.

(** The in-flight count of every backend is the number of its requests that
    were handed out and not completed, over any interleaving of choices and
    completions. *)
Theorem balancer_counts_outstanding bs d b out x :
  p2c_run bs d b out -> default 0 (Inflight b !! x) = occurrences x out.
Proof.
  intros Hrun. revert x. unfold Inflight. induction Hrun as [|b out i j b' y Hrun IH Hlen Hp|b out y out1 out2 latency Hrun IH Ho]; intros x.
  - done.
  - unfold Pick in Hp. destruct (choose i j b) as [z|]; [|done]. injection Hp as <- ->. cbn [inflight].
    rewrite occurrences_cons. pose proof (occurrences_le y out). destruct (beqb x y) eqn:E.
    + apply beqb_eq in E as ->. rewrite lookup_insert_eq. cbn [default from_option id]. rewrite IH. rewrite s64_small by (unfold is_s64; lia). lia.
    + apply beqb_neq in E. rewrite lookup_insert_ne by done. rewrite IH. lia.
  - subst out. pose proof (IH y) as Hy. rewrite occurrences_app, occurrences_cons, beqb_refl in Hy.
    pose proof (occurrences_le y out1). pose proof (occurrences_le y out2).
    specialize (IH x). rewrite occurrences_app, occurrences_cons in IH. rewrite occurrences_app. unfold complete. cbn [inflight].
    replace (0 <? default 0 (inflight b !! y)) with true by lia. destruct (beqb x y) eqn:E.
    + apply beqb_eq in E as ->. rewrite lookup_insert_eq. cbn [default from_option id]. lia.
    + apply beqb_neq in E. rewrite lookup_insert_ne by done. lia.
Qed.
End LimitsSpec.
