(* ===== verification/Dispatch.v ===== *)
(** * The worker pool of the dispatcher ([kairnet/dispatch/dispatch.go])

    Requests are placed on the queue of the worker their connection maps to, on
    another queue when that one is full, and wait when all are; workers handle
    their queues in order and drain them when the pool stops.  Goroutines are
    steps of one relation: where a [select] has several ready cases the choice
    is a parameter of the step. *)
From stdpp Require Import gmap list.
From S2P Require Import Prelude.

Module Dispatch.
Section Pool.
Context {R : Type} (conn_of : R -> Z).

(** A worker: its queue, the request it is handling, whether it has returned. *)
Record worker := MkWorker { queue : list R; busy : option R; exited : bool }.
(** The pool: workers, senders blocked in the last [select], requests handled in
    order of completion, and whether [stopCh] is closed. *)
Record pool := MkPool { workers : list worker; waiting : list R; handled : list R; stopped : bool }.
Definition NewMsgHandle (workerPoolSize : nat) : pool := MkPool (replicate workerPoolSize (MkWorker [] None false)) [] [] false.

Section Queues.
(** [config.G.MaxWorkerTaskLen] *)
Context (cap : nat).

Definition has_room (w : worker) : bool := (length w.(queue) <? cap)%nat.
Definition push (r : R) (w : worker) : worker := MkWorker (w.(queue) ++ [r]) w.(busy) w.(exited).
Definition enqueue (i : nat) (r : R) (p : pool) : pool := MkPool (alter (push r) i p.(workers)) p.(waiting) p.(handled) p.(stopped).
(** [DoMsgHandle] in the sender's goroutine. *)
Definition handle_here (r : R) (p : pool) : pool := MkPool p.(workers) p.(waiting) (p.(handled) ++ [r]) p.(stopped).

(** One [select] with a default: [prefer_send] decides when both are ready. *)
Definition offer (prefer_send : bool) (i : nat) (r : R) (p : pool) : option pool :=
  let room := match p.(workers) !! i with Some w => has_room w | None => false end in
  if room && (prefer_send || negb p.(stopped)) then Some (enqueue i r p)
  else if p.(stopped) then Some (handle_here r p)
  else None.
Fixpoint steal (prefer : nat -> bool) (tries : list nat) (r : R) (p : pool) : option pool :=
  match tries with
  | [] => None
  | i :: tries => match offer (prefer i) i r p with Some p' => Some p' | None => steal prefer tries r p end
  end.

(** The worker of a connection, then the others in turn. *)
Definition workerID (r : R) (n : nat) : nat := Z.to_nat (conn_of r mod Z.of_nat n).
Definition try_order (r : R) (n : nat) : list nat := map (fun i => ((workerID r n + i) mod n)%nat) (seq 0 n).
(** The non-blocking selects of one call are one step, so the queues do not move
    between them; the queues have at least one slot. *)
Definition SendMsgToTaskQueue (prefer : nat -> bool) (r : R) (p : pool) : pool :=
  match length p.(workers) with
  | O => handle_here r p
  | n => match steal prefer (try_order r n) r p with
         | Some p' => p'
         | None => MkPool p.(workers) (p.(waiting) ++ [r]) p.(handled) p.(stopped)
         end
  end.

Definition set_worker (i : nat) (w : worker) (p : pool) : pool := MkPool (<[i := w]> p.(workers)) p.(waiting) p.(handled) p.(stopped).

(** The steps of senders, workers and [Stop]. *)
Inductive step : pool -> pool -> Prop :=
  | step_unblock p prefer pre r post p' :
      p.(waiting) = pre ++ r :: post ->
      offer prefer (workerID r (length p.(workers))) r (MkPool p.(workers) (pre ++ post) p.(handled) p.(stopped)) = Some p' -> step p p'
  | step_take p i w r q :
      p.(workers) !! i = Some w -> w.(exited) = false -> w.(busy) = None -> w.(queue) = r :: q ->
      step p (set_worker i (MkWorker q (Some r) false) p)
  | step_done p i w r :
      p.(workers) !! i = Some w -> w.(busy) = Some r ->
      step p (handle_here r (set_worker i (MkWorker w.(queue) None w.(exited)) p))
  | step_exit p i w :
      p.(workers) !! i = Some w -> p.(stopped) = true -> w.(busy) = None -> w.(queue) = [] ->
      step p (set_worker i (MkWorker [] None true) p)
  | step_stop p : step p (MkPool p.(workers) p.(waiting) p.(handled) true).

(** Reachable pools with the requests submitted so far. *)
Inductive reach (n : nat) : list R -> pool -> Prop :=
  | reach_new : reach n [] (NewMsgHandle n)
  | reach_send sent p prefer r : reach n sent p -> reach n (sent ++ [r]) (SendMsgToTaskQueue prefer r p)
  | reach_step sent p p' : reach n sent p -> step p p' -> reach n sent p'.

(** ** Nothing is lost or handled twice *)
Definition held (w : worker) : list R := option_list w.(busy) ++ w.(queue).
Definition inside (p : pool) : list R := p.(handled) ++ concat (map held p.(workers)) ++ p.(waiting).

Lemma enqueue_inside i r p : is_Some (p.(workers) !! i) -> inside (enqueue i r p) ≡ₚ r :: inside p.
Proof.
  intros [w Hw]. unfold inside, enqueue. cbn [workers waiting handled].
  rewrite <- (take_drop_middle _ _ _ Hw) at 1. rewrite alter_app_r_alt by (rewrite length_take; lia).
  pose proof (lookup_lt_Some _ _ _ Hw) as Hlt. replace (i - length (take i (workers p)))%nat with 0%nat by (rewrite length_take; lia). cbn [alter list_alter].
  rewrite <- (take_drop_middle _ _ _ Hw) at 3. rewrite !map_app, !concat_app. cbn [map concat]. unfold held at 2 5, push. cbn [busy queue exited].
  solve_Permutation.
Qed.
Lemma set_inside i w w' p : p.(workers) !! i = Some w ->
  exists rest, inside p ≡ₚ held w ++ rest /\ forall h, inside (MkPool (<[i := w']> p.(workers)) p.(waiting) (p.(handled) ++ h) p.(stopped)) ≡ₚ h ++ held w' ++ rest.
Proof.
  intros Hw. exists (p.(handled) ++ concat (map held (take i p.(workers))) ++ concat (map held (drop (S i) p.(workers))) ++ p.(waiting)).
  pose proof (lookup_lt_Some _ _ _ Hw) as Hlt. unfold inside. cbn [workers waiting handled]. split; [|intros h].
  - rewrite <- (take_drop_middle _ _ _ Hw) at 1. rewrite map_app, concat_app. cbn [map concat]. solve_Permutation.
  - rewrite insert_take_drop by done. rewrite map_app, concat_app. cbn [map concat]. solve_Permutation.
Qed.

Lemma offer_inside b i r p p' : offer b i r p = Some p' -> inside p' ≡ₚ r :: inside p.
Proof.
  unfold offer. destruct (workers p !! i) as [w|] eqn:Hw; cbn [andb].
  - destruct (_ && _); [intros [= <-]; apply enqueue_inside; by eexists|]. destruct (stopped p); [|done]. intros [= <-]. unfold inside, handle_here. cbn. solve_Permutation.
  - destruct (stopped p); [|done]. intros [= <-]. unfold inside, handle_here. cbn. solve_Permutation.
Qed.
Lemma steal_inside f tries r p p' : steal f tries r p = Some p' -> inside p' ≡ₚ r :: inside p.
Proof.
  induction tries as [|i tries IH]; cbn [steal]; [done|]. destruct (offer (f i) i r p) eqn:E; [intros [= <-]; by eapply offer_inside|done].
Qed.
Lemma send_inside f r p : inside (SendMsgToTaskQueue f r p) ≡ₚ r :: inside p.
Proof.
  unfold SendMsgToTaskQueue. destruct (length (workers p)); [unfold inside, handle_here; cbn; solve_Permutation|].
  destruct (steal f _ r p) eqn:E; [by eapply steal_inside|]. unfold inside. cbn. solve_Permutation.
Qed.
Lemma step_inside p p' : step p p' -> inside p' ≡ₚ inside p.
Proof.
  intros [p0 b pre r post p1 Hq Ho|p0 i w r q Hw He Hb Hq|p0 i w r Hw Hb|p0 i w Hw Hs Hb Hq|p0].
  - rewrite (offer_inside _ _ _ _ _ Ho). unfold inside. cbn. rewrite Hq. solve_Permutation.
  - destruct (set_inside i w (MkWorker q (Some r) false) p0 Hw) as (rest & -> & E). specialize (E []). rewrite app_nil_r in E.
    unfold set_worker. rewrite E. unfold held. by rewrite Hb, Hq.
  - destruct (set_inside i w (MkWorker (queue w) None (exited w)) p0 Hw) as (rest & -> & E). specialize (E [r]).
    unfold set_worker, handle_here. cbn [workers waiting handled stopped]. rewrite E. unfold held. rewrite Hb. done.
  - destruct (set_inside i w (MkWorker [] None true) p0 Hw) as (rest & -> & E). specialize (E []). rewrite app_nil_r in E.
    unfold set_worker. rewrite E. unfold held. by rewrite Hb, Hq.
  - done.
Qed.
Lemma reach_inside n sent p : reach n sent p -> inside p ≡ₚ sent.
Proof.
  induction 1 as [|sent p f r _ IH|sent p p' _ IH Hst].
  - unfold inside, NewMsgHandle. cbn. induction n as [|n IH]; cbn; [done|]. done.
  - rewrite send_inside, IH. solve_Permutation.
  - by rewrite (step_inside _ _ Hst).
Qed.
(** ** The pool finishes its work *)
Definition running (p : pool) : Prop := p.(stopped) = false -> Forall (fun w => w.(exited) = false) p.(workers).
Lemma offer_keeps b i r p p' : offer b i r p = Some p' ->
  p'.(stopped) = p.(stopped) /\ length p'.(workers) = length p.(workers) /\
  (Forall (fun w => w.(exited) = false) p.(workers) -> Forall (fun w => w.(exited) = false) p'.(workers)).
Proof.
  unfold offer. destruct (_ && _); [|destruct (stopped p) eqn:Es; [|done]]; intros [= <-]; cbn; [|done].
  rewrite length_alter. split_and!; [done..|]. intros Hf. by apply Forall_alter.
Qed.
Lemma send_keeps f r p : (SendMsgToTaskQueue f r p).(stopped) = p.(stopped) /\ length (SendMsgToTaskQueue f r p).(workers) = length p.(workers) /\
  (Forall (fun w => w.(exited) = false) p.(workers) -> Forall (fun w => w.(exited) = false) (SendMsgToTaskQueue f r p).(workers)).
Proof.
  unfold SendMsgToTaskQueue. destruct (length (workers p)) as [|n] eqn:E; [done|]. rewrite <- E. generalize (try_order r (length (workers p))) as tries. intros tries.
  induction tries as [|i tries IH]; cbn [steal]; [done|]. destruct (offer (f i) i r p) eqn:Eo; [by eapply offer_keeps|done].
Qed.
Lemma reach_running n sent p : reach n sent p -> running p /\ length p.(workers) = n.
Proof.
  induction 1 as [|sent p f r _ [IH Hl]|sent p p' _ [IH Hl] Hst].
  - split; [|apply length_replicate]. intros _. apply Forall_replicate. done.
  - destruct (send_keeps f r p) as (E1 & E2 & E3). unfold running. rewrite E1, E2. auto.
  - destruct Hst as [p0 b pre r post p1 Hq Ho|p0 i w r q Hw He Hb Hq|p0 i w r Hw Hb|p0 i w Hw Hs Hb Hq|p0]; unfold running in *; cbn.
    + destruct (offer_keeps _ _ _ _ _ Ho) as (E1 & E2 & E3). cbn in *. rewrite E1, E2. auto.
    + rewrite length_insert. split; [|done]. intros Hs. apply Forall_insert; auto.
    + rewrite length_insert. split; [|done]. intros Hs. apply Forall_insert; auto. cbn. specialize (IH Hs).
      rewrite Forall_lookup in IH. by eapply IH.
    + rewrite length_insert. split; [|done]. congruence.
    + done.
Qed.

(** What is left to do: every step of a sender or a worker makes it less. *)
Definition worker_load (w : worker) : nat := 2 * length w.(queue) + match w.(busy) with Some _ => 1 | None => 0 end.
Definition load (p : pool) : nat := 3 * length p.(waiting) + sum_list_with worker_load p.(workers).
Lemma load_set i w w' (l : list worker) : l !! i = Some w ->
  (sum_list_with worker_load (<[i := w']> l) + worker_load w = sum_list_with worker_load l + worker_load w')%nat.
Proof.
  revert i. induction l as [|x l IH]; intros [|i] Hi; try done.
  - injection Hi as ->. cbn [insert list_insert sum_list_with]. lia.
  - cbn [insert list_insert sum_list_with] in *. rewrite <- !Nat.add_assoc. f_equal. exact (IH i Hi).
Qed.
Lemma alter_is_insert (f : worker -> worker) i w (l : list worker) : l !! i = Some w -> alter f i l = <[i := f w]> l.
Proof. revert i. induction l as [|x l IH]; intros [|i] Hi; try done; [by injection Hi as ->|]. cbn. f_equal. exact (IH i Hi). Qed.
Lemma offer_load b i r p p' : p.(stopped) = false -> offer b i r p = Some p' -> (load p' = 2 + load p)%nat.
Proof.
  unfold offer. intros ->. rewrite orb_true_r, andb_true_r. destruct (workers p !! i) as [w|] eqn:Hw; [|done]. destruct (has_room w); [|done].
  intros [= <-]. unfold load, enqueue. cbn [waiting workers]. rewrite (alter_is_insert _ _ _ _ Hw).
  pose proof (load_set i w (push r w) _ Hw) as E. assert (worker_load (push r w) = 2 + worker_load w)%nat as Hp.
  { unfold worker_load, push. cbn [queue busy]. rewrite length_app. cbn [length]. lia. }
  lia.
Qed.
Lemma step_load p p' : step p p' -> p'.(stopped) = false -> (load p' < load p)%nat.
Proof.
  intros [p0 b pre r post p1 Hq Ho|p0 i w r q Hw He Hb Hq|p0 i w r Hw Hb|p0 i w Hw Hs Hb Hq|p0] Hst.
  - destruct (offer_keeps _ _ _ _ _ Ho) as (E1 & _). cbn in E1. rewrite E1 in Hst.
    rewrite (offer_load _ _ _ (MkPool (workers p0) (pre ++ post) (handled p0) (stopped p0)) p1 Hst Ho). unfold load. cbn [waiting workers]. rewrite Hq, !length_app. cbn [length]. lia.
  - pose proof (load_set i w (MkWorker q (Some r) false) _ Hw) as E. assert (worker_load w = 1 + worker_load (MkWorker q (Some r) false))%nat as Hl.
    { unfold worker_load. cbn [queue busy]. rewrite Hq, Hb. cbn [length]. lia. }
    unfold load, set_worker. cbn [waiting workers]. lia.
  - pose proof (load_set i w (MkWorker (queue w) None (exited w)) _ Hw) as E. assert (worker_load w = 1 + worker_load (MkWorker (queue w) None (exited w)))%nat as Hl.
    { unfold worker_load. cbn [queue busy]. rewrite Hb. lia. }
    unfold load, set_worker, handle_here. cbn [waiting workers]. lia.
  - cbn in Hst. congruence.
  - done.
Qed.
(** A pool with work left and its workers running can go on. *)
Lemma load_enabled n p : (0 < cap)%nat -> (0 < n)%nat -> length p.(workers) = n -> p.(stopped) = false ->
  Forall (fun w => w.(exited) = false) p.(workers) -> (0 < load p)%nat -> exists p', step p p' /\ p'.(stopped) = false.
Proof.
  intros Hcap Hn Hlen Hst Hex Hload.
  assert (forall i w, p.(workers) !! i = Some w -> (0 < worker_load w)%nat -> exists p', step p p' /\ p'.(stopped) = false) as Hworker.
  { intros i w Hw Hl. destruct (busy w) as [r|] eqn:Hb; [eexists; split; [by eapply step_done|done]|].
    unfold worker_load in Hl. rewrite Hb in Hl. destruct (queue w) as [|r q] eqn:Hq; [cbn in Hl; lia|].
    eexists; split; [eapply step_take; try done; rewrite Forall_lookup in Hex; by eapply Hex|done]. }
  destruct (waiting p) as [|r post] eqn:Hw.
  - assert (exists i w, p.(workers) !! i = Some w /\ (0 < worker_load w)%nat) as (i & w & Hi & Hl); [|by eapply Hworker].
    unfold load in Hload. rewrite Hw in Hload. cbn [length] in Hload. revert Hload. clear. generalize (workers p) as l.
    induction l as [|x l IH]; cbn [sum_list_with]; [lia|]. intros Hl. destruct (decide (0 < worker_load x)%nat) as [Hx|Hx]; [by exists O, x|].
    destruct IH as (i & w & Hi & Hw); [lia|]. by exists (S i), w.
  - set (i := workerID r (length (workers p))). assert (i < length (workers p))%nat as Hi.
    { unfold i, workerID. pose proof (Z.mod_pos_bound (conn_of r) (Z.of_nat (length (workers p)))). lia. }
    apply lookup_lt_is_Some_2 in Hi as [w Hi]. destruct (has_room w) eqn:Hr.
    + exists (enqueue i r (MkPool (workers p) ([] ++ post) (handled p) (stopped p))). split; [|done].
      apply (step_unblock p false [] r post); [done|]. unfold offer. cbn [workers stopped]. fold i. rewrite Hi, Hr, Hst. done.
    + apply (Hworker i w Hi). unfold has_room in Hr. apply Nat.ltb_ge in Hr. unfold worker_load. lia.
Qed.

(** C34: until it is stopped, a pool of at least one worker with queues of at
    least one slot, whose handlers return, handles every request exactly once,
    whatever the schedule: every step of a sender or a worker brings the end
    nearer, some step is possible while a request is unhandled, and when none is
    left the handled requests are those submitted.  Stopped or not, a request is
    in one place only: handled, being handled, queued or waiting. *)
Theorem pool_handles_everything n sent p :
  (0 < cap)%nat -> (0 < n)%nat -> reach n sent p ->
  sent ≡ₚ p.(handled) ++ concat (map held p.(workers)) ++ p.(waiting) /\
  (p.(stopped) = false ->
     (forall p', step p p' -> p'.(stopped) = false -> (load p' < load p)%nat) /\
     ((0 < load p)%nat -> exists p', step p p' /\ p'.(stopped) = false) /\
     (load p = 0%nat -> p.(handled) ≡ₚ sent)).
Proof.
  intros Hcap Hn Hr. pose proof (reach_inside _ _ _ Hr) as Hin. destruct (reach_running _ _ _ Hr) as [Hrun Hlen].
  split; [by symmetry|]. intros Hst. split_and!.
  - intros p'. apply step_load.
  - eapply load_enabled; eauto.
  - intros Hz. rewrite <- Hin. unfold inside, load in *. assert (waiting p = []) as -> by (destruct (waiting p); [done|cbn in Hz; lia]).
    assert (concat (map held (workers p)) = []) as ->; [|by rewrite !app_nil_r].
    assert (sum_list_with worker_load (workers p) = 0%nat) as Hs by lia. revert Hs. clear. generalize (workers p) as l.
    induction l as [|x l IH]; cbn [sum_list_with map concat]; [done|]. intros Hs. rewrite IH by lia.
    assert (worker_load x = 0%nat) as Hx by lia. unfold worker_load, held in *. destruct (busy x); [lia|]. destruct (queue x); [done|cbn in Hx; lia].
Qed.
End Queues.
End Pool.
(** ** What the pool does not promise *)
Section Runs.
(** Requests as connection and number. *)
(** Two requests of connection 0 that find its queue full change places: the
    second is stolen by an idle worker and handled first. *)
Lemma stealing_reorders_connection :
  exists p, reach fst 1 2 [(0, 1); (0, 2); (0, 3)] p /\ p.(handled) = [(0, 3)] /\
    map (fun w => (w.(busy), w.(queue))) p.(workers) = [(Some (0, 1), [(0, 2)]); (None, [])].
Proof.
  pose proof (reach_new (R := Z * Z) fst 1 2) as H0.
  pose proof (reach_send fst 1 2 _ _ (fun _ => true) (0, 1) H0) as H1.
  eassert (reach fst 1 2 _ _) as H2 by (eapply reach_step; [exact H1|eapply (step_take fst 1 _ 0); reflexivity]).
  pose proof (reach_send fst 1 2 _ _ (fun _ => true) (0, 2) H2) as H3.
  pose proof (reach_send fst 1 2 _ _ (fun _ => true) (0, 3) H3) as H4.
  eassert (reach fst 1 2 _ _) as H5 by (eapply reach_step; [exact H4|eapply (step_take fst 1 _ 1); reflexivity]).
  eassert (reach fst 1 2 _ _) as H6 by (eapply reach_step; [exact H5|eapply (step_done fst 1 _ 1); reflexivity]).
  eexists. split; [exact H6|]. split; reflexivity.
Qed.

(** A request sent while the pool stops can land on the queue of a worker that
    has returned: nobody handles it. *)
Lemma stop_strands_request :
  exists p, reach fst 1 2 [(0, 1)] p /\ p.(handled) = [] /\ p.(waiting) = [] /\
    map (fun w => (w.(exited), w.(queue))) p.(workers) = [(true, [(0, 1)]); (true, [])].
Proof.
  pose proof (reach_new (R := Z * Z) fst 1 2) as H0.
  eassert (reach fst 1 2 _ _) as H1 by (eapply reach_step; [exact H0|apply step_stop]).
  eassert (reach fst 1 2 _ _) as H2 by (eapply reach_step; [exact H1|eapply (step_exit fst 1 _ 0); reflexivity]).
  eassert (reach fst 1 2 _ _) as H3 by (eapply reach_step; [exact H2|eapply (step_exit fst 1 _ 1); reflexivity]).
  pose proof (reach_send fst 1 2 _ _ (fun _ => true) (0, 1) H3) as H4.
  eexists. split; [exact H4|]. split_and!; reflexivity.
Qed.

Lemma pool_handles_everything_witness :
  exists p : pool (R := Z * Z), reach fst 1 2 [(0, 1)] p /\
    ([(0, 1)] ≡ₚ p.(handled) ++ concat (map held p.(workers)) ++ p.(waiting) /\
     (p.(stopped) = false ->
        (forall p', step fst 1 p p' -> p'.(stopped) = false -> (load p' < load p)%nat) /\
        ((0 < load p)%nat -> exists p', step fst 1 p p' /\ p'.(stopped) = false) /\
        (load p = 0%nat -> p.(handled) ≡ₚ [(0, 1)]))).
Proof.
  pose proof (reach_send fst 1 2 _ _ (fun _ => true) (0, 1) (reach_new (R := Z * Z) fst 1 2)) as Hr.
  eexists. split; [exact Hr|]. apply (pool_handles_everything fst 1 2 [(0, 1)] _); [lia|lia|exact Hr].
Defined.
End Runs.

End Dispatch.
